(* ===== verification/_CoqProject ===== *)
-Q . S2P
Prelude.v
Go.v
Bits.v
Text.v
Json.v
Os.v
Paths.v
Model.v
Codec.v
Journal.v
Compact.v
Transport.v
Repair.v
StateFile.v
Watermark.v
Authority.v
Membership.v
Blobs.v
Inventory.v
Files.v
Applier.v
Session.v
Runtime.v
RuntimeInv.v
RuntimeLive.v
Protocol.v
Peers.v
Wire.v
Exchange.v
Replicate.v
AntiEntropy.v
Delivery.v
Schedulers.v
Reconnect.v
Address.v
Config.v
Status.v
Tcp.v
TcpInv.v
