(* ===== verification/Prelude.v ===== *)
(** * StreamHive: a verification library

    StreamHive (src/) is a peer-to-peer blob store.  Nodes keep blobs under
    keys (package storage), exchange them in JSON messages (package
    replication) inside length-prefixed frames on authenticated connections
    (package p2p), and, as an experimental layer, replicate a logical state of
    versioned records (package internal/lifecycle): a record is journalled
    before it is applied, peers repair each other from the journal tail or from
    a checkpoint, and acknowledged watermarks decide how far the journal may be
    compacted.  The root package puts the parts together: lifecycle_cli.go is
    the runtime of the lifecycle layer, main.go and inventory.go replicate raw
    blobs: nodes advertise their keys, ask for the ones they lack and send them,
    with acknowledgements, retries, budgets and reconnection.  This library
    models these packages as executable definitions and step relations and proves
    what they promise.

    ** Parts and files

    Foundations (the language and its standard library):
    - [Prelude]: bytes, lengths, tactics, shared lemmas on lists and integers.
    - [Go]: error values with [errors.Is], [result] for (T, error), the state
      and error monad [M], normal forms of its runs.
    - [Bits], [Text], [Json]: encoding/binary, CRC-32C, SHA-256, UTF-8, base64,
      hex, decimals, encoding/json (printer, parser, struct decoding).
    - [Os]: contexts, a file system with faults and crashes, path/filepath; and the
      durable write helpers of journal.go ([atomicWrite] and others).
    - [Paths]: facts about cleaned and joined paths.

    internal/lifecycle:
    - [Model]: model.go.  [record], [Version], [Store], [Apply], snapshots.
    - [Codec]: the encodings of journal.go.  [encodeEnvelope], [parseJournal],
      checkpoints.
    - [Journal]: the type Journal of journal.go with all its methods;
      [Compact]: the theorems on compaction and snapshot installation.
    - [Transport]: transport.go, the record envelope and capability gate.
    - [Repair]: repair.go, batches, snapshots, acknowledgements, planning.
    - [StateFile]: what the three small state files share (class [StateCodec]);
      [Watermark] (watermark.go), [Authority] (authority.go), [Membership]
      (membership.go) are its clients.
    - [Applier]: apply.go; [Session]: session.go.

    storage, replication, p2p:
    - [Blobs]: hash.go, page.go, store.go, memory.go.  The class [BlobStore] is
      the Go interface, [BlobStoreSpec] its contract; the memory store is an
      instance, and the applier and the protocol are proved against the
      contract.
    - [Inventory]: inventory.go and integrity.go of storage, against
      [PagerSpec].
    - [Files]: file.go of storage, one file per blob and the index of the
      directory, over [Os]; the second instance of [BlobStoreSpec].
    - [Protocol]: replication/protocol.go.
    - [Wire]: frame.go, capabilities.go and handshake.go of p2p.
    - [Tcp]: tcp_transport.go and metrics.go of p2p: the shared state, every
      goroutine as a program counter, every call as a sequence of atomic steps;
      [TcpInv]: the invariants of that step relation.

    The root package:
    - [Runtime]: lifecycle_cli.go.  [openLifecycleRuntime], [put], [compact], the
      selection for the raw sync, the compaction status; [RuntimeInv]: the
      invariant and the effect of each operation; [RuntimeLive]: progress
      without faults.
    - [Peers]: the peers of that runtime, [AttachPeer], [HandleFrame],
      [ForgetPeer], [Close] as steps over shared session objects; [Status],
      [Metrics], the routing of payloads.
    - [Exchange]: the advertisements of inventory.go and main.go under a budget of
      keys and bytes ([sendInventoryExchange], [sendBlobHas]).
    - [Replicate]: the frame handler of main.go and the handlers of the five
      messages, [sendRequestedBlobsResult], the tracker of acknowledgements and
      the queue of deferred repairs; [AntiEntropy]: a whole round between two
      nodes, over stores that are instances of its class [MapStore].
    - [Delivery]: [sendBlobWithAck] as senders over the shared tracker, its delays
      and timeouts, [syncLifecycleRawRecords].
    - [Schedulers]: the schedulers of exchanges and of deferred repairs and the
      limit on repair operations, as goroutines over their tables.
    - [Reconnect]: the reconnector and its backoff, the parsing of peer lists; a
      [Dial] registers a connection, returns nil without one, or fails.
    - [Address]: which health addresses are loopback, with what [net] does to decide it.
    - [Config]: the checks of the flags in [run]; [Status]: certificates, counters,
      scans and the HTTP handlers of the health endpoints.

    ** How state and operations correspond

    A Go struct is a record with the same fields, a method on a pointer
    receiver is a computation [M (struct * world) result] on the struct and the
    outside world, and it runs every statement of the method: guards and early
    returns in their order, system calls in their order.  A method that takes a
    mutex is atomic.  Integers are [Z]; a uint64 field satisfies [version_u64]
    or is reduced where the code may wrap, an int of the code never gets near
    its bound (lengths and counts).  A nil slice and an empty slice are the same
    list: the code tells them apart only in JSON, where the codecs say [null] or
    [[]] as Go does.  Nil receivers and nil interface values are arguments or
    options where the code tests for them.  Maps are [gmap]s and their iteration order
    is an argument or is shown to be irrelevant.

    The context of a call is the number of polls of [ctx.Err()] that still
    succeed ([w_ctx]); system calls take their outcomes from a list ([w_os]), so
    a theorem for every world covers every cancellation and every fault, partial
    writes included.  A crash ([crash_at]) keeps, for a path, the directory
    entry that was last synced or the newest one, and any contents for a file
    that was written since it was last synced.

    Recursion is structural or on explicit fuel, and where there is fuel a
    theorem shows that the fuel of the definition is enough: the JSON parser
    gets the length of its input, the sending loop of [Repair] the number of
    records, an exchange of [Exchange] more rounds than there are keys.

    ** Parameters

    - [UnicodePrint]: unicode.IsPrint on non-ASCII runes (its table is data of the
      Go library).  The theorems hold for every such predicate.
    - [BTree] with [BTreeLaws]: github.com/google/btree.  Instance for the witnesses: [gset].
    - [DirTimes] with [DirTimesLaws]: the modification time of a directory, which
      says whether its entries may have changed.  Instance for the witnesses: [ex_times].
    - [RepairFramePeer] with [FramePeerSpec], [NodePeer]: the Go interfaces of the peer of a session.
    - [rawSync] of [node_step]: the callback that main.go passes to [AttachPeer],
      which is [syncLifecycleRawRecords] of [Delivery]; its [deliver] is
      [sendBlobWithAck].
    - [others] of [startHealth]: what http.ServeMux answers to other paths.
    - crypto/rand in [OpenAuthority]: the identity drawn is an argument.

    ** What the theorems show

    - Convergence: replicas that see the same records, in any order and with
      duplicates, agree ([Model.Apply_converges]); snapshots are canonical.
    - Durability: [Os.atomicWrite_crash_safe], [Journal.Append_durable] (once the
      journal's directory entry is synced), [Journal.OpenJournal_recovers],
      [Applier.Applier_Apply_durable]; tokens
      of the authority are never issued twice ([Authority.tokens_strictly_increase]).
    - Compaction keeps the replayed state, writes the checkpoint first, and is
      fenced by the members' acknowledgements ([Compact], [Membership]).
    - Repair: batches drain the journal behind a watermark that is not below its
      floor, frames survive the wire, an acknowledgement is sent only for what is
      durable ([Repair], [Session]).
    - The runtime: opening a directory establishes the invariant that ties
      journal, checkpoint file, state and blobs together, a local write is the
      newest of all and durable before it is visible, a restart after
      local operations brings the same state back ([RuntimeInv]); the status says
      exactly whether a compaction will succeed, and the blobs sent before a repair are all that is needed
      ([RuntimeLive]); sessions are accounted for in every interleaving
      ([Peers.sessions_accounted]).
    - Refinement: the memory store and the file store answer as finite maps
      ([Blobs.memory_refines_map], [Files.file_refines_map]), the file store
      also through faults and crashes ([Files.FileStore_durable]); fingerprints
      and integrity counts are those of the whole key set ([Inventory]).
    - The wire: framing, the handshake and the message codec are exact
      ([Wire], [Protocol]); the two ends of a connection authenticate each
      other ([Tcp.mutual_authentication]), only frames of admitted peers reach
      the handler, the transport's counts are exact in every interleaving and
      its shutdown completes ([TcpInv]).
    - Blob replication: a round of anti-entropy brings the receiver what it lacks
      ([AntiEntropy.anti_entropy_round]); a put is acknowledged only when stored
      and only verified blobs are sent ([Replicate]); exchanges keep to their
      budget and advertise every key ([Exchange]); a blob is reported as accepted
      only when it was acknowledged, in bounded time ([Delivery]); no scheduled
      exchange or repair is left without a goroutine ([Schedulers]), no target
      without a connection or a dial, save where [Dial] returned nil without
      registering a connection ([Reconnect]).
    - The program: accepted flags satisfy what the parts assume ([Config]), and the
      endpoints are guarded and tell the truth about readiness ([Status]).
    - Behaviour that differs from what the code or its documents mean is proved
      too: [Journal.failed_append_corrupts_journal],
      [Journal.new_journal_crash], [Compact.failed_compaction_loses_appends],
      [Session.snapshot_repair_skips_tail], [Files.retried_delete_not_durable],
      [Files.put_hides_external], [RuntimeLive.interrupted_compaction_blocks_start],
      [Peers.installed_snapshot_not_served], [Exchange.exchange_restarts],
      [Delivery.unanswered_put_accepted], [Reconnect.unregistered_dial_forgets],
      [Tcp.invalid_token_mangled], [AntiEntropy.oversized_blob_aborts].  Where such
      behaviour limits a theorem above, its statement has the condition that
      excludes it and its comment says so.

    ** Not modelled

    Of main.go: the parsing of the command line, signals, the loading of TLS
    files, sockets, the wiring in [run] after its checks, [shutdownApplication]
    and [startPeriodicBlobHas], whose parts ([Drain] of [Tcp], [inventory_Start] of
    [Schedulers]) are modelled; JSON encoding of the status responses and the HTTP
    server.  Timeouts and clocks, TLS, the logger, and the data races that the
    mutexes exclude have no model: where they decide what happens next they are
    events of a step relation. *)
From Stdlib Require Export ZArith Lia.
From Stdlib Require Import Strings.Byte.
From Stdlib Require Strings.String.
From stdpp Require Export base tactics option list sorting gmap.

Export Stdlib.Strings.String.StringSyntax.
#[global] Open Scope Z_scope.

(** ** Bytes *)

Abbreviation byte := Init.Byte.byte.
Abbreviation bytes := (list byte).

Definition byteZ (b : byte) : Z := Z.of_N (Byte.to_N b).

(** The conversion [byte(z)] of Go: the low eight bits. *)
Definition Zbyte (z : Z) : byte :=
  match Byte.of_N (Z.to_N (z mod 256)) with Some b => b | None => x00 end.

(** A Go string literal. *)
Definition lit (s : String.string) : bytes := String.list_byte_of_string s.
Arguments lit s%_string_scope.

#[export] Instance byte_eq_dec : EqDecision byte := Byte.byte_eq_dec.

#[export] Program Instance byte_countable : Countable byte :=
  inj_countable Byte.to_N Byte.of_N _.
Next Obligation. intros b. apply Byte.of_to_N. Qed.

Lemma byteZ_range b : 0 <= byteZ b < 256.
Proof. unfold byteZ. pose proof (Byte.to_N_bounded b). lia. Qed.

Lemma byteZ_inj x y : byteZ x = byteZ y → x = y.
Proof.
  unfold byteZ. intros H%N2Z.inj.
  pose proof (Byte.of_to_N x) as Hx. rewrite H, Byte.of_to_N in Hx. congruence.
Qed.

Lemma byteZ_Zbyte z : byteZ (Zbyte z) = z mod 256.
Proof.
  unfold byteZ, Zbyte. pose proof (Z.mod_pos_bound z 256 ltac:(lia)).
  destruct (Byte.of_N _) eqn:E.
  - apply Byte.to_of_N in E. lia.
  - apply Byte.of_N_None_iff in E. lia.
Qed.

Lemma Zbyte_byteZ b : Zbyte (byteZ b) = b.
Proof.
  apply byteZ_inj. rewrite byteZ_Zbyte. pose proof (byteZ_range b).
  apply Z.mod_small. lia.
Qed.

(** ** Lengths as Go [int]s *)

Definition len {A} (l : list A) : Z := Z.of_nat (length l).

Lemma len_nil {A} : len (@nil A) = 0.
Proof. reflexivity. Qed.
Lemma len_cons {A} (x : A) l : len (x :: l) = 1 + len l.
Proof. unfold len. cbn [length]. lia. Qed.
Lemma len_app {A} (l k : list A) : len (l ++ k) = len l + len k.
Proof. unfold len. rewrite length_app. lia. Qed.
Lemma len_nonneg {A} (l : list A) : 0 <= len l.
Proof. unfold len. lia. Qed.
Lemma len_zero {A} (l : list A) : len l = 0 ↔ l = [].
Proof. unfold len. destruct l; cbn; split; intros; try done; lia. Qed.
Lemma len_take {A} n (l : list A) : len (take n l) = Z.min (Z.of_nat n) (len l).
Proof. unfold len. rewrite length_take. lia. Qed.
Lemma len_drop {A} n (l : list A) : len (drop n l) = Z.max 0 (len l - Z.of_nat n).
Proof. unfold len. rewrite length_drop. lia. Qed.
Lemma len_fmap {A B} (f : A → B) l : len (f <$> l) = len l.
Proof. unfold len. by rewrite length_fmap. Qed.

Create HintDb len.
#[export] Hint Rewrite @len_nil @len_cons @len_app @len_take @len_drop @len_fmap : len.

(** Normalise lengths, then decide the arithmetic. *)
Ltac len := autorewrite with len in *; try lia.

(** Case analysis on the innermost boolean or option test of the goal. *)
Ltac case_on H :=
  match goal with
  | |- context [match ?x with _ => _ end] => destruct x eqn:H
  end.

(** Decide the arithmetic tests of the goal. *)
Ltac decide_ifs :=
  repeat match goal with
  | |- context [if ?b then _ else _] =>
      lazymatch b with true => fail | false => fail | _ => idtac end;
      first [replace b with false by lia | replace b with true by lia]; cbv iota
  end.

(** Evaluate a closed decidable proposition. *)
Ltac decide_now := refine (bool_decide_unpack _ _); vm_compute; exact I.

(** Turn boolean comparisons into propositions. *)
Ltac bool_to_prop :=
  repeat match goal with
  | H : (_ =? _) = true |- _ => apply Z.eqb_eq in H
  | H : (_ =? _) = false |- _ => apply Z.eqb_neq in H
  | H : (_ <? _) = true |- _ => apply Z.ltb_lt in H
  | H : (_ <? _) = false |- _ => apply Z.ltb_ge in H
  | H : (_ <=? _) = true |- _ => apply Z.leb_le in H
  | H : (_ <=? _) = false |- _ => apply Z.leb_gt in H
  | H : bool_decide _ = true |- _ => apply bool_decide_eq_true_1 in H
  | H : bool_decide _ = false |- _ => apply bool_decide_eq_false_1 in H
  | H : (_ && _)%bool = true |- _ => apply andb_true_iff in H as [? ?]
  | H : (_ || _)%bool = false |- _ => apply orb_false_iff in H as [? ?]
  | H : (_ && _)%bool = false |- _ => apply andb_false_iff in H
  | H : (_ || _)%bool = true |- _ => apply orb_true_iff in H
  | H : negb _ = true |- _ => apply negb_true_iff in H
  | H : negb _ = false |- _ => apply negb_false_iff in H
  end.

Lemma forallb_Forall {A} (f : A → bool) l : forallb f l = true ↔ Forall (λ x, f x = true) l.
Proof. induction l as [|x l IH]; cbn; [done|]. by rewrite andb_true_iff, IH, Forall_cons. Qed.

(** ** [bytes.Compare] *)

Fixpoint bytes_Compare (x y : bytes) : comparison :=
  match x, y with
  | [], [] => Eq
  | [], _ :: _ => Lt
  | _ :: _, [] => Gt
  | a :: x', b :: y' =>
      match Z.compare (byteZ a) (byteZ b) with
      | Eq => bytes_Compare x' y'
      | c => c
      end
  end.

Definition bytes_lt (x y : bytes) : Prop := bytes_Compare x y = Lt.
Definition bytes_le (x y : bytes) : Prop := bytes_Compare x y ≠ Gt.

#[export] Instance bytes_lt_dec : RelDecision bytes_lt.
Proof. intros x y. unfold bytes_lt. solve_decision. Defined.
#[export] Instance bytes_le_dec : RelDecision bytes_le.
Proof. intros x y. unfold bytes_le. solve_decision. Defined.

Lemma bytes_Compare_refl x : bytes_Compare x x = Eq.
Proof. induction x as [|a x IH]; [done|]. cbn. by rewrite Z.compare_refl. Qed.

Lemma bytes_Compare_eq x y : bytes_Compare x y = Eq ↔ x = y.
Proof.
  split; [|intros ->; apply bytes_Compare_refl].
  revert y. induction x as [|a x IH]; intros [|b y]; cbn; try done.
  destruct (Z.compare_spec (byteZ a) (byteZ b)) as [E|E|E]; try done.
  intros H. by rewrite (byteZ_inj _ _ E), (IH _ H).
Qed.

Lemma bytes_Compare_antisym x y : bytes_Compare y x = CompOpp (bytes_Compare x y).
Proof.
  revert y. induction x as [|a x IH]; intros [|b y]; cbn; try done.
  rewrite (Z.compare_antisym (byteZ a)).
  destruct (byteZ a ?= byteZ b); cbn; auto.
Qed.

#[export] Instance bytes_lt_trans : Transitive bytes_lt.
Proof.
  unfold bytes_lt. intros x. induction x as [|a x IH]; intros [|b y] [|c z]; cbn; try done.
  destruct (Z.compare_spec (byteZ a) (byteZ b)) as [E1|E1|E1],
           (Z.compare_spec (byteZ b) (byteZ c)) as [E2|E2|E2],
           (Z.compare_spec (byteZ a) (byteZ c)) as [E3|E3|E3]; try done; try lia.
  apply IH.
Qed.

#[export] Instance bytes_lt_irrefl : Irreflexive bytes_lt.
Proof. intros x. unfold bytes_lt, complement. by rewrite bytes_Compare_refl. Qed.

Lemma bytes_le_lt x y : bytes_le x y ↔ x = y ∨ bytes_lt x y.
Proof.
  unfold bytes_le, bytes_lt. rewrite <- bytes_Compare_eq.
  destruct (bytes_Compare x y); naive_solver.
Qed.

Lemma bytes_nlt_le x y : ¬ bytes_lt x y ↔ bytes_le y x.
Proof.
  unfold bytes_le, bytes_lt. rewrite (bytes_Compare_antisym x y).
  destruct (bytes_Compare x y); naive_solver.
Qed.

#[export] Instance bytes_le_trans : Transitive bytes_le.
Proof.
  intros x y z. rewrite !bytes_le_lt. intros [->|H1] [->|H2]; auto.
  right. by transitivity y.
Qed.

#[export] Instance bytes_le_total : Total bytes_le.
Proof.
  intros x y. destruct (decide (bytes_lt x y)) as [H|H].
  - left. apply bytes_le_lt. auto.
  - right. by apply bytes_nlt_le.
Qed.

#[export] Instance bytes_le_antisymm : AntiSymm (=) bytes_le.
Proof.
  intros x y. rewrite !bytes_le_lt. intros [->|H1] [H2|H2]; auto.
  exfalso. apply (irreflexivity bytes_lt x). by transitivity y.
Qed.

Lemma bytes_Compare_gt x y : bytes_Compare x y = Gt ↔ bytes_lt y x.
Proof.
  unfold bytes_lt. rewrite (bytes_Compare_antisym x y). by destruct (bytes_Compare x y).
Qed.
