(* ===== verification/Go.v ===== *)
(** * Go values: errors, results and stateful computations

    The sentinel errors of the four packages, [errors.Is] with wrapping and
    joining, the two-valued returns [(T, error)] as [result T], and the
    state-passing monad [M] in which the effectful functions are written. *)
From S2P Require Import Prelude.

(** ** Errors *)

(** One constructor per sentinel error value.  Names that two packages share
    carry the package in front. [ErrContext] is what [ctx.Err()] returns once
    the context is done, [ErrOS] a failed system call, [ErrJSON] an error of
    encoding/json, [ErrText] an error built in place by [errors.New]. *)
Inductive error :=
  (* internal/lifecycle/model.go *)
  | ErrNamespaceEmpty | ErrNamespaceTooLarge | ErrLogicalKeyEmpty
  | ErrLogicalKeyTooLarge | ErrAuthorityEmpty | ErrAuthorityTooLarge
  | ErrAuthorityNotPrintable | ErrInvalidState | ErrInvalidBlobKey
  | ErrZeroVersion | ErrRecordTooLarge | ErrConflict | ErrDuplicateLogicalKey
  | ErrNilApply
  (* internal/lifecycle/journal.go *)
  | ErrJournalClosed | ErrJournalCorrupt | ErrJournalChecksum
  | ErrJournalVersionOrder | ErrJournalLimit | ErrCheckpointCorrupt
  | ErrCheckpointChecksum | ErrCheckpointTooLarge | ErrCompactionUnsafe
  | ErrCompactionNoProgress | ErrCompactionWatermark | ErrCompactionBaseMismatch
  | ErrPeerBehindWatermark | ErrSnapshotStale | ErrNilCheckpointPath
  (* internal/lifecycle/repair.go *)
  | ErrNilRepairJournal | ErrRepairLimit | ErrRepairFrameTooLarge
  | ErrRepairMalformed | ErrRepairMessageType | ErrRepairOrder
  | ErrRepairWatermarkMismatch | ErrRepairSnapshotRequired
  | ErrRepairSnapshotWatermark
  (* internal/lifecycle/transport.go *)
  | ErrLifecyclePayloadTooLarge | ErrLifecycleEnvelopeMalformed
  | ErrLifecycleEnvelopeTrailingData | ErrLifecycleMessageType
  | ErrLifecycleCapabilityRequired
  (* internal/lifecycle/watermark.go *)
  | ErrNilWatermarkPath | ErrNilWatermarkBook | ErrWatermarkCorrupt
  | ErrWatermarkChecksum | ErrWatermarkLimit | ErrWatermarkPeerInvalid
  | ErrWatermarkRegression | ErrNilRepairWatermarks | ErrRepairAcknowledgement
  (* internal/lifecycle/membership.go *)
  | ErrNilMembershipPath | ErrNilMembershipBook | ErrMembershipNotConfigured
  | ErrMembershipCorrupt | ErrMembershipChecksum | ErrMembershipLimit
  | ErrMembershipPeerInvalid | ErrMembershipDuplicate
  | ErrMembershipWatermarkInvalid | ErrMembershipBehind
  (* internal/lifecycle/authority.go *)
  | ErrNilAuthorityPath | ErrAuthorityCorrupt | ErrAuthorityChecksum
  | ErrAuthorityLimit | ErrAuthorityMismatch | ErrAuthorityVersion
  | ErrAuthorityExhausted
  (* internal/lifecycle/apply.go *)
  | ErrNilApplierState | ErrNilApplierJournal | ErrNilApplierBlobStore
  | ErrLifecycleBlobMissing
  (* internal/lifecycle/session.go *)
  | ErrNilRepairSessionPeer | ErrNilRepairSessionCoordinator
  | ErrNilRepairSessionApplier
  (* storage *)
  | storage_ErrNotFound | storage_ErrKeyEmpty | storage_ErrInvalidSHA256Key
  | storage_ErrInvalidSHA256HexKey | storage_ErrSHA256Mismatch
  | storage_ErrInventoryKeyEmpty | storage_ErrInventoryPagerInvalid
  | storage_ErrInvalidKeyFilename | storage_ErrNonRegularEntry
  (* replication *)
  | replication_ErrNilStore | replication_ErrUnknownMessageType
  | replication_ErrKeyEmpty | replication_ErrKeyTooLarge
  | replication_ErrDataTooLarge | replication_ErrKeysEmpty
  | replication_ErrTooManyKeys | replication_ErrMessageNotApplicable
  (* p2p *)
  | p2p_ErrBadMagic | p2p_ErrFrameTooLarge | p2p_ErrPeerAuthFailed
  | p2p_ErrPeerAuthRejected | p2p_ErrPeerAuthIdentityInvalid
  | p2p_ErrPeerAuthIdentityRequiresToken | p2p_ErrPeerAuthIdentityNotAllowed
  | p2p_ErrPeerAuthPayloadTooLarge | p2p_ErrPeerAuthCapabilitiesRequiresToken
  | p2p_ErrPeerAuthCapabilitiesTooMany | p2p_ErrPeerAuthCapabilityTooLarge
  | p2p_ErrPeerAuthCapabilitiesTooLarge | p2p_ErrPeerAuthCapabilityInvalid
  | p2p_ErrPeerAuthCapabilityDuplicate | p2p_ErrPeerAuthCapabilityUnknown
  | p2p_ErrAddrRequired | p2p_ErrAlreadyListening | p2p_ErrTransportClosed
  | p2p_ErrDrainDeadlineRequired
  (* standard library *)
  | ErrContext | ErrEOF | ErrUnexpectedEOF | ErrShortWrite | ErrNotExist
  | ErrClosed | ErrOS | ErrJSON
  | ErrText (msg : bytes)
  (* errors.Join and fmt.Errorf with one %w verb *)
  | EJoin (e1 e2 : error)
  | EWrap (e : error).

#[export] Instance error_eq_dec : EqDecision error.
Proof. solve_decision. Defined.

(** [errors.Is]: the target itself, or below a join or a wrapping. *)
Fixpoint errors_Is (e target : error) : bool :=
  bool_decide (e = target) ||
  match e with
  | EJoin e1 e2 => errors_Is e1 target || errors_Is e2 target
  | EWrap e' => errors_Is e' target
  | _ => false
  end.

(** ** Results *)

Inductive result (A : Type) :=
  | Ok (a : A)
  | Err (e : error).
Arguments Ok {A} a.
Arguments Err {A} e.

#[export] Instance result_eq_dec `{EqDecision A} : EqDecision (result A).
Proof. solve_decision. Defined.

Definition rbind {A B} (r : result A) (k : A → result B) : result B :=
  match r with Ok a => k a | Err e => Err e end.

Definition is_Ok {A} (r : result A) : bool :=
  match r with Ok _ => true | Err _ => false end.

Lemma rbind_Ok {A B} (r : result A) (k : A → result B) b :
  rbind r k = Ok b ↔ ∃ a, r = Ok a ∧ k a = Ok b.
Proof. destruct r; cbn; naive_solver. Qed.

(** A guard that returns early with an error. *)
Lemma guard_Ok {A} (b : bool) e (r : result A) a :
  (if b then Err e else r) = Ok a ↔ b = false ∧ r = Ok a.
Proof. destruct b; naive_solver. Qed.
Lemma rbind_unit {B} (r : result unit) (k : result B) b :
  rbind r (λ _, k) = Ok b ↔ r = Ok tt ∧ k = Ok b.
Proof. destruct r as [[]|]; cbn; naive_solver. Qed.

(** ** Stateful computations *)

(** A function that reads and updates a state [S] and returns [(A, error)].
    The state is returned on the error path as well: what happened before the
    error has happened. *)
Definition M (S A : Type) : Type := S → result A * S.

Definition ret {S A} (a : A) : M S A := λ s, (Ok a, s).
Definition throw {S A} (e : error) : M S A := λ s, (Err e, s).
Definition bind {S A B} (m : M S A) (k : A → M S B) : M S B := λ s,
  match m s with
  | (Ok a, s') => k a s'
  | (Err e, s') => (Err e, s')
  end.
(** Inspect the error of [m] instead of returning it. *)
Definition attempt {S A B} (m : M S A) (k : result A → M S B) : M S B := λ s,
  let '(r, s') := m s in k r s'.
Definition get {S} : M S S := λ s, (Ok s, s).
Definition gets {S A} (f : S → A) : M S A := λ s, (Ok (f s), s).
Definition modify {S} (f : S → S) : M S unit := λ s, (Ok tt, f s).
Definition lift {S A} (r : result A) : M S A := λ s, (r, s).

(** Run a computation on a part of the state. *)
Definition zoom {S T A} (getter : S → T) (setter : T → S → S) (m : M T A) : M S A :=
  λ s, let '(r, t) := m (getter s) in (r, setter t s).

Declare Scope go_scope.
Delimit Scope go_scope with go.

Notation "x <-? r ; k" := (rbind r (λ x, k))
  (at level 20, r at level 100, k at level 200, right associativity) : go_scope.
Notation "' p <-? r ; k" := (rbind r (λ p, k))
  (at level 20, p pattern, r at level 100, k at level 200, right associativity) : go_scope.
Notation "x <- m ; k" := (bind m (λ x, k))
  (at level 20, m at level 100, k at level 200, right associativity) : go_scope.
Notation "' p <- m ; k" := (bind m (λ p, k))
  (at level 20, p pattern, m at level 100, k at level 200, right associativity) : go_scope.
Notation "m ;; k" := (bind m (λ _, k))
  (at level 100, k at level 200, right associativity) : go_scope.
#[global] Open Scope go_scope.

(** Inversion of a successful run. *)
Lemma bind_Ok {S A B} (m : M S A) (k : A → M S B) s b s' :
  bind m k s = (Ok b, s') ↔ ∃ a s1, m s = (Ok a, s1) ∧ k a s1 = (Ok b, s').
Proof. unfold bind. destruct (m s) as [[a|e] s1]; naive_solver. Qed.

(** A failed run failed in the first part or in the second. *)
Lemma bind_Err {S A B} (m : M S A) (k : A → M S B) s e s' :
  bind m k s = (Err e, s') ↔
  m s = (Err e, s') ∨ ∃ a s1, m s = (Ok a, s1) ∧ k a s1 = (Err e, s').
Proof. unfold bind. destruct (m s) as [[a|e1] s1]; naive_solver. Qed.

Lemma lift_Ok {S A} (r : result A) (s s' : S) a :
  lift r s = (Ok a, s') ↔ r = Ok a ∧ s' = s.
Proof. unfold lift. naive_solver. Qed.

(** Run the first step of a computation, forwards. *)
Lemma bind_step_Ok {S A B} (m : M S A) (k : A → M S B) s a s1 :
  m s = (Ok a, s1) → bind m k s = k a s1.
Proof. unfold bind. by intros ->. Qed.
Lemma bind_step_Err {S A B} (m : M S A) (k : A → M S B) s e s1 :
  m s = (Err e, s1) → bind m k s = (Err e, s1).
Proof. unfold bind. by intros ->. Qed.

Lemma bind_first {S A B} (m1 m2 : M S A) (k : A → M S B) s : m1 s = m2 s → bind m1 k s = bind m2 k s.
Proof. unfold bind. by intros ->. Qed.

(** Split a run [H : bind m k s = (r, s')] at its first step: [m] succeeded
    (the equation [E]) and the run goes on, or [m] failed and the run is over. *)
Tactic Notation "step" ident(H) "as" simple_intropattern(a) simple_intropattern(s1) ident(E) :=
  match type of H with
  | bind ?m ?k ?s = _ =>
      destruct (m s) as [[a|?] s1] eqn:E;
      [rewrite (bind_step_Ok m k s _ _ E) in H
      |rewrite (bind_step_Err m k s _ _ E) in H; first [discriminate H | injection H as <- <- <- | injection H as <- <-]]
  end.

(** A first step that evaluates to a result. *)
Ltac step_Ok H := erewrite bind_step_Ok in H by reflexivity.

(** A run that is over. *)
Ltac stop H :=
  unfold throw, ret, lift in H; cbn beta iota in H;
  first [discriminate H | injection H as <- <- <- | injection H as <- <- | injection H as <-].

(** Decompose a successful run into its steps. *)
Ltac run_inv :=
  repeat match goal with
  | H : bind _ _ _ = (Ok _, _) |- _ => apply bind_Ok in H as (? & ? & ? & ?)
  | H : rbind _ _ = Ok _ |- _ => apply rbind_Ok in H as (? & ? & ?)
  | H : lift _ _ = (Ok _, _) |- _ => apply lift_Ok in H as [? ?]
  | H : ret _ _ = (Ok _, _) |- _ => unfold ret in H
  | H : get _ = (Ok _, _) |- _ => unfold get in H
  | H : gets _ _ = (Ok _, _) |- _ => unfold gets in H
  | H : modify _ _ = (Ok _, _) |- _ => unfold modify in H
  | H : throw _ _ = (Ok _, _) |- _ => discriminate H
  | H : Err _ = Ok _ |- _ => discriminate H
  | H : (Err _, _) = (Ok _, _) |- _ => discriminate H
  | H : (Ok _, _) = (Ok _, _) |- _ => injection H as ?
  | H : Ok _ = Ok _ |- _ => injection H as ?
  end; subst.

(** A run is its result and the state it leaves. *)
Lemma run_eq {A S} (p : result A * S) r : p.1 = r → p = (r, p.2).
Proof. by destruct p; intros <-. Qed.
Lemma run_eq2 {A S T} (p : result A * (S * T)) r : p.1 = r → p = (r, (p.2.1, p.2.2)).
Proof. by destruct p as [? []]; intros <-. Qed.
