(* ===== verification/Bits.v ===== *)
(** * Fixed-width integers on the wire, CRC-32C and SHA-256

    The parts of encoding/binary, hash/crc32 (Castagnoli table) and
    crypto/sha256 that the sources call, as executable functions on bytes. *)
From S2P Require Import Prelude.

(** ** binary.BigEndian *)

(** [PutUint32] is [be_put 4], [PutUint64] is [be_put 8]. *)
Fixpoint be_put (n : nat) (z : Z) : bytes :=
  match n with
  | O => []
  | S n' => Zbyte (Z.shiftr z (8 * Z.of_nat n')) :: be_put n' z
  end.

(** [Uint32] and [Uint64] on a slice of the right length. *)
Fixpoint be_get_from (acc : Z) (l : bytes) : Z :=
  match l with
  | [] => acc
  | b :: l' => be_get_from (acc * 256 + byteZ b) l'
  end.
Definition be_get (l : bytes) : Z := be_get_from 0 l.

Lemma length_be_put n z : length (be_put n z) = n.
Proof. induction n; cbn; auto. Qed.

Lemma len_be_put n z : len (be_put n z) = Z.of_nat n.
Proof. unfold len. by rewrite length_be_put. Qed.
#[export] Hint Rewrite len_be_put : len.

Lemma be_get_from_eq acc l :
  be_get_from acc l = acc * 256 ^ len l + be_get l.
Proof.
  unfold be_get. revert acc. induction l as [|b l IH]; intros acc; cbn [be_get_from].
  - rewrite len_nil. lia.
  - rewrite len_cons, Z.pow_add_r by (pose proof (len_nonneg l); lia).
    rewrite (IH (acc * 256 + _)), (IH (0 * 256 + _)). change (256 ^ 1) with 256. lia.
Qed.

Lemma be_get_cons b l : be_get (b :: l) = byteZ b * 256 ^ len l + be_get l.
Proof. unfold be_get at 1. cbn [be_get_from]. by rewrite be_get_from_eq. Qed.

Lemma be_get_range l : 0 <= be_get l < 256 ^ len l.
Proof.
  induction l as [|b l IH]; [by split|].
  rewrite be_get_cons, len_cons, Z.pow_add_r by (pose proof (len_nonneg l); lia).
  change (256 ^ 1) with 256. pose proof (byteZ_range b). nia.
Qed.

Lemma be_get_put_mod n z : be_get (be_put n z) = z mod 256 ^ Z.of_nat n.
Proof.
  induction n as [|n IH].
  - cbn. by rewrite Z.mod_1_r.
  - cbn [be_put]. rewrite be_get_cons, IH, byteZ_Zbyte, len_be_put.
    rewrite Z.shiftr_div_pow2 by lia.
    replace (2 ^ (8 * Z.of_nat n)) with (256 ^ Z.of_nat n)
      by (rewrite (Z.pow_mul_r 2 8) by lia; reflexivity).
    rewrite Nat2Z.inj_succ, Z.pow_succ_r by lia.
    rewrite (Z.mul_comm 256), Z.rem_mul_r by lia. lia.
Qed.

Lemma be_get_put n z : 0 <= z < 256 ^ Z.of_nat n → be_get (be_put n z) = z.
Proof. intros H. rewrite be_get_put_mod. by apply Z.mod_small. Qed.

(** ** hash/crc32 with the Castagnoli polynomial *)

Definition crc_poly : Z := 0x82f63b78.

Definition crc_shift (c : Z) : Z :=
  if Z.testbit c 0 then Z.lxor (Z.shiftr c 1) crc_poly else Z.shiftr c 1.

Definition crc_byte (c : Z) (b : byte) : Z :=
  Nat.iter 8 crc_shift (Z.lxor c (byteZ b)).

(** [crc32.Checksum(data, crc32.MakeTable(crc32.Castagnoli))]. *)
Definition crc32c (data : bytes) : Z :=
  Z.lxor (foldl crc_byte 0xffffffff data) 0xffffffff.

Example crc32c_check : crc32c (lit "123456789") = 0xe3069283.
Proof. vm_compute. reflexivity. Qed.

Lemma lxor_range k x y : 0 <= k → 0 <= x < 2 ^ k → 0 <= y < 2 ^ k → 0 <= Z.lxor x y < 2 ^ k.
Proof.
  intros Hk [Hx1 Hx2] [Hy1 Hy2]. assert (0 <= Z.lxor x y) by (by apply Z.lxor_nonneg).
  split; [done|]. destruct (decide (Z.lxor x y = 0)) as [->|Hne]; [lia|].
  apply Z.log2_lt_pow2; [lia|]. eapply Z.le_lt_trans; [by apply Z.log2_lxor|].
  apply Z.max_lub_lt.
  - destruct (decide (x = 0)) as [->|]; [|apply Z.log2_lt_pow2; lia].
    destruct (decide (k = 0)) as [->|]; [|cbn; lia].
    assert (y = 0) as -> by lia. done.
  - destruct (decide (y = 0)) as [->|]; [|apply Z.log2_lt_pow2; lia].
    destruct (decide (k = 0)) as [->|]; [|cbn; lia].
    assert (x = 0) as -> by lia. done.
Qed.

Lemma crc_shift_range c : 0 <= c < 2 ^ 32 → 0 <= crc_shift c < 2 ^ 32.
Proof.
  intros H. unfold crc_shift.
  assert (0 <= Z.shiftr c 1 < 2 ^ 32) by (rewrite Z.shiftr_div_pow2 by lia; change (2 ^ 1) with 2; Z.to_euclidean_division_equations; lia).
  destruct (Z.testbit c 0); [apply lxor_range; try lia; unfold crc_poly; lia|done].
Qed.

Lemma crc_byte_range c b : 0 <= c < 2 ^ 32 → 0 <= crc_byte c b < 2 ^ 32.
Proof.
  intros H. unfold crc_byte. apply (Nat.iter_invariant 8 _ _ (λ c, 0 <= c < 2 ^ 32)).
  - intros x Hx. by apply crc_shift_range.
  - pose proof (byteZ_range b). apply lxor_range; lia.
Qed.

Lemma crc32c_range data : 0 <= crc32c data < 2 ^ 32.
Proof.
  unfold crc32c. apply lxor_range; try lia.
  assert (∀ c, 0 <= c < 2 ^ 32 → 0 <= foldl crc_byte c data < 2 ^ 32) as H; [|apply H; lia].
  induction data as [|b data IH]; intros c Hc; cbn; [done|]. by apply IH, crc_byte_range.
Qed.

(** ** crypto/sha256 *)

Module Sha256.

Definition w32 (z : Z) : Z := z mod 2 ^ 32.
Definition rotr (x n : Z) : Z := w32 (Z.lor (Z.shiftr x n) (Z.shiftl x (32 - n))).

(** The constants are the first 32 bits of the fractional parts of the cube
    roots (of the square roots for the initial state) of the first primes. *)
Fixpoint cube_root (bits : nat) (root x : Z) : Z :=
  match bits with
  | O => root
  | S n => let next := root + 2 ^ Z.of_nat n in cube_root n (if next ^ 3 <=? x then next else root) x
  end.
Definition is_prime (p : Z) : bool :=
  forallb (λ d, negb (p mod d =? 0)) (Z.of_nat <$> seq 2 (Z.to_nat p - 2)).
Definition primes : list Z := Eval vm_compute in List.filter is_prime (Z.of_nat <$> seq 2 310).

Definition K : list Z := Eval vm_compute in (λ p, w32 (cube_root 36 0 (p * 2 ^ 96))) <$> primes.
Definition H0 : list Z := Eval vm_compute in (λ p, w32 (Z.sqrt (p * 2 ^ 64))) <$> take 8 primes.

Definition pad (data : bytes) : bytes :=
  let zeros := Z.to_nat ((55 - len data) mod 64) in
  data ++ Byte.x80 :: replicate zeros Byte.x00 ++ be_put 8 (8 * len data).

(** The message schedule, newest word first. *)
Definition nth_word (l : list Z) (i : nat) : Z := nth i l 0.
Definition extend (rev_w : list Z) : list Z :=
  let s0x := nth_word rev_w 14 in
  let s1x := nth_word rev_w 1 in
  let s0 := Z.lxor (Z.lxor (rotr s0x 7) (rotr s0x 18)) (Z.shiftr s0x 3) in
  let s1 := Z.lxor (Z.lxor (rotr s1x 17) (rotr s1x 19)) (Z.shiftr s1x 10) in
  w32 (nth_word rev_w 15 + s0 + nth_word rev_w 6 + s1) :: rev_w.

Fixpoint words (n : nat) (l : bytes) : list Z :=
  match n with
  | O => []
  | S n' => be_get (take 4 l) :: words n' (drop 4 l)
  end.

Definition round (st : list Z) (kw : Z * Z) : list Z :=
  match st with
  | [a; b; c; d; e; f; g; h] =>
      let s1 := Z.lxor (Z.lxor (rotr e 6) (rotr e 11)) (rotr e 25) in
      let ch := Z.lxor (Z.land e f) (Z.land (Z.lxor e 0xffffffff) g) in
      let t1 := h + s1 + ch + fst kw + snd kw in
      let s0 := Z.lxor (Z.lxor (rotr a 2) (rotr a 13)) (rotr a 22) in
      let maj := Z.lxor (Z.lxor (Z.land a b) (Z.land a c)) (Z.land b c) in
      [w32 (t1 + s0 + maj); a; b; c; w32 (d + t1); e; f; g]
  | _ => st
  end.

Definition block (st : list Z) (chunk : bytes) : list Z :=
  let w := rev (Nat.iter 48 extend (rev (words 16 chunk))) in
  zip_with (λ x y, w32 (x + y)) st (foldl round st (zip K w)).

Fixpoint blocks (n : nat) (st : list Z) (l : bytes) : list Z :=
  match n with
  | O => st
  | S n' => blocks n' (block st (take 64 l)) (drop 64 l)
  end.

End Sha256.

(** [sha256.Sum256]. *)
Definition sha256 (data : bytes) : bytes :=
  let p := Sha256.pad data in
  concat (be_put 4 <$> Sha256.blocks (length p / 64) Sha256.H0 p).

Example sha256_abc : be_get (sha256 (lit "abc"))
  = 0xba7816bf8f01cfea414140de5dae2223b00361a396177a9cb410ff61f20015ad.
Proof. vm_compute. reflexivity. Qed.

Example sha256_two_blocks :
  be_get (sha256 (lit "abcdbcdecdefdefgefghfghighijhijkijkljklmklmnlmnomnopnopq"))
  = 0x248d6a61d20638b8e5c026930c3e6039a33ce45964ff2167f6ecedd419db06c1.
Proof. vm_compute. reflexivity. Qed.

Lemma length_round st kw : length (Sha256.round st kw) = length st.
Proof. unfold Sha256.round. repeat (case_match; subst; try done). Qed.

Lemma length_foldl_round st kws : length (foldl Sha256.round st kws) = length st.
Proof. revert st. induction kws; intros st; cbn; [done|]. by rewrite IHkws, length_round. Qed.

Lemma length_blocks n st l : length (Sha256.blocks n st l) = length st.
Proof.
  revert st l. induction n as [|n IH]; intros st l; cbn; [done|].
  rewrite IH. unfold Sha256.block. rewrite length_zip_with, length_foldl_round. lia.
Qed.

Lemma length_concat_be_put (l : list Z) :
  length (concat (be_put 4 <$> l)) = (4 * length l)%nat.
Proof.
  induction l as [|z l IH]; [done|]. rewrite fmap_cons. cbn [concat].
  rewrite length_app, length_be_put, IH. cbn [length]. lia.
Qed.

(** A digest has [sha256.Size] = 32 bytes. *)
Lemma length_sha256 data : length (sha256 data) = 32%nat.
Proof.
  unfold sha256. cbv zeta. by rewrite length_concat_be_put, length_blocks.
Qed.
