(* ===== verification/Text.v ===== *)
(** * Text: UTF-8, base64 and decimal numbers

    The parts of unicode/utf8, encoding/base64, encoding/hex and strconv that
    the sources (and encoding/json underneath them) use.  Text is a list of
    runes; a byte that is not part of a valid UTF-8 sequence is kept as the
    negative number [-1 - b], so that decoding loses nothing. *)
From S2P Require Import Prelude.

(** ** UTF-8 *)

Definition in_range (lo hi z : Z) : bool := (lo <=? z) && (z <=? hi).
Definition cont (b : byte) : bool := in_range 0x80 0xbf (byteZ b).

(** First and second byte of a three-byte or four-byte sequence. *)
Definition lead3 (b0 b1 : byte) : bool :=
  let z := byteZ b0 in let y := byteZ b1 in
  if z =? 0xe0 then in_range 0xa0 0xbf y
  else if z =? 0xed then in_range 0x80 0x9f y
  else in_range 0xe1 0xef z && in_range 0x80 0xbf y.
Definition lead4 (b0 b1 : byte) : bool :=
  let z := byteZ b0 in let y := byteZ b1 in
  if z =? 0xf0 then in_range 0x90 0xbf y
  else if z =? 0xf4 then in_range 0x80 0x8f y
  else in_range 0xf1 0xf3 z && in_range 0x80 0xbf y.

(** Decode byte by byte as [utf8.DecodeRune] does: the shortest valid
    sequence, or one bad byte. *)
Fixpoint runes (s : bytes) : list Z :=
  match s with
  | [] => []
  | b0 :: s0 =>
      let z0 := byteZ b0 in
      if z0 <? 0x80 then z0 :: runes s0 else
      match s0 with
      | [] => (-1 - z0) :: runes s0
      | b1 :: s1 =>
          let z1 := byteZ b1 in
          if in_range 0xc2 0xdf z0 && cont b1
          then ((z0 - 0xc0) * 64 + (z1 - 0x80)) :: runes s1 else
          match s1 with
          | [] => (-1 - z0) :: runes s0
          | b2 :: s2 =>
              let z2 := byteZ b2 in
              if lead3 b0 b1 && cont b2
              then ((z0 - 0xe0) * 4096 + (z1 - 0x80) * 64 + (z2 - 0x80)) :: runes s2 else
              match s2 with
              | [] => (-1 - z0) :: runes s0
              | b3 :: s3 =>
                  let z3 := byteZ b3 in
                  if lead4 b0 b1 && cont b2 && cont b3
                  then ((z0 - 0xf0) * 262144 + (z1 - 0x80) * 4096
                        + (z2 - 0x80) * 64 + (z3 - 0x80)) :: runes s3
                  else (-1 - z0) :: runes s0
              end
          end
      end
  end.

(** [utf8.AppendRune] for a Unicode scalar value. *)
Definition encode_rune (r : Z) : bytes :=
  if r <? 0x80 then [Zbyte r]
  else if r <? 0x800 then [Zbyte (0xc0 + r / 64); Zbyte (0x80 + r mod 64)]
  else if r <? 0x10000 then
    [Zbyte (0xe0 + r / 4096); Zbyte (0x80 + r / 64 mod 64); Zbyte (0x80 + r mod 64)]
  else
    [Zbyte (0xf0 + r / 262144); Zbyte (0x80 + r / 4096 mod 64);
     Zbyte (0x80 + r / 64 mod 64); Zbyte (0x80 + r mod 64)].

(** The bytes behind a list of runes, bad bytes included. *)
Definition rune_bytes (r : Z) : bytes :=
  if r <? 0 then [Zbyte (-1 - r)] else encode_rune r.
Definition encode (rs : list Z) : bytes := concat (rune_bytes <$> rs).

Definition scalar (r : Z) : bool :=
  in_range 0 0xd7ff r || in_range 0xe000 0x10ffff r.

(** [utf8.ValidString]. *)
Definition utf8_ValidString (s : bytes) : bool := forallb (Z.leb 0) (runes s).

Section utf8_facts.

Lemma Zbyte_back z b : z = byteZ b → Zbyte z = b.
Proof. intros ->. apply Zbyte_byteZ. Qed.

(** Split the range tests into their branches, keeping only the consistent ones. *)
Ltac ranges :=
  unfold lead3, lead4, cont, in_range in *;
  repeat match goal with
  | H : context [if ?c then _ else _] |- _ => destruct c eqn:?
  | |- context [if ?c then _ else _] => destruct c eqn:?
  end; bool_to_prop; try lia.

Lemma encode_two z0 z1 :
  0xc2 <= z0 <= 0xdf → 0x80 <= z1 <= 0xbf →
  rune_bytes ((z0 - 0xc0) * 64 + (z1 - 0x80)) = [Zbyte z0; Zbyte z1].
Proof.
  intros H0 H1. unfold rune_bytes, encode_rune. ranges.
  repeat f_equal; Z.to_euclidean_division_equations; lia.
Qed.

Lemma encode_three z0 z1 z2 :
  0xe0 <= z0 <= 0xef → 0x80 <= z1 <= 0xbf → 0x80 <= z2 <= 0xbf →
  (z0 = 0xe0 → 0xa0 <= z1) →
  rune_bytes ((z0 - 0xe0) * 4096 + (z1 - 0x80) * 64 + (z2 - 0x80)) = [Zbyte z0; Zbyte z1; Zbyte z2].
Proof.
  intros H0 H1 H2 H3. unfold rune_bytes, encode_rune. ranges.
  repeat f_equal; Z.to_euclidean_division_equations; lia.
Qed.

Lemma encode_four z0 z1 z2 z3 :
  0xf0 <= z0 <= 0xf4 → 0x80 <= z1 <= 0xbf → 0x80 <= z2 <= 0xbf → 0x80 <= z3 <= 0xbf →
  (z0 = 0xf0 → 0x90 <= z1) →
  rune_bytes ((z0 - 0xf0) * 262144 + (z1 - 0x80) * 4096 + (z2 - 0x80) * 64 + (z3 - 0x80))
  = [Zbyte z0; Zbyte z1; Zbyte z2; Zbyte z3].
Proof.
  intros H0 H1 H2 H3 H4. unfold rune_bytes, encode_rune. ranges.
  repeat f_equal; Z.to_euclidean_division_equations; lia.
Qed.

Lemma encode_cons r rs : encode (r :: rs) = rune_bytes r ++ encode rs.
Proof. reflexivity. Qed.

Lemma rune_bytes_bad b : 0x80 <= byteZ b → rune_bytes (-1 - byteZ b) = [b].
Proof.
  intros H. unfold rune_bytes. ranges. f_equal. apply Zbyte_back. lia.
Qed.

(** Decoding loses nothing: the runes spell the bytes. *)
Lemma encode_runes s : encode (runes s) = s.
Proof.
  induction s as [s IH] using (induction_ltof1 _ (@length byte)). unfold ltof in IH.
  assert (∀ t, (length t < length s)%nat → encode (runes t) = t) as IH' by auto.
  clear IH. destruct s as [|b0 s0]; [done|]. cbn [runes]. cbv zeta.
  pose proof (byteZ_range b0) as R0. cbn [length] in IH'.
  destruct (byteZ b0 <? 0x80) eqn:E0; bool_to_prop.
  { rewrite encode_cons, IH' by lia. unfold rune_bytes, encode_rune. ranges.
    by rewrite Zbyte_byteZ. }
  assert (encode ((-1 - byteZ b0) :: runes s0) = b0 :: s0) as Hbad.
  { by rewrite encode_cons, rune_bytes_bad, IH' by lia. }
  destruct s0 as [|b1 s1]; [done|]. cbn [length] in IH'.
  destruct (in_range 0xc2 0xdf (byteZ b0) && cont b1) eqn:E1.
  { rewrite encode_cons, IH' by lia. unfold cont, in_range in E1. bool_to_prop.
    rewrite encode_two by lia. by rewrite !Zbyte_byteZ. }
  destruct s1 as [|b2 s2]; [done|]. cbn [length] in IH'.
  destruct (lead3 b0 b1 && cont b2) eqn:E2.
  { rewrite encode_cons, IH' by lia. apply andb_true_iff in E2 as [E2 E3].
    rewrite encode_three by ranges. by rewrite !Zbyte_byteZ. }
  destruct s2 as [|b3 s3]; [done|]. cbn [length] in IH'.
  destruct (lead4 b0 b1 && cont b2 && cont b3) eqn:E4; [|done].
  rewrite encode_cons, IH' by lia. apply andb_true_iff in E4 as [E4 E5].
  apply andb_true_iff in E4 as [E4 E6].
  rewrite encode_four by ranges. by rewrite !Zbyte_byteZ.
Qed.

(** Evaluate the outermost test of the goal when arithmetic decides it. *)
Ltac test :=
  match goal with
  | |- context [if ?c then _ else _] =>
      first [ replace c with true by lia | replace c with false by lia ]; cbn [andb]
  end.

Lemma runes_one z s : 0 <= z < 0x80 → runes (Zbyte z :: s) = z :: runes s.
Proof. intros H. cbn [runes]. rewrite byteZ_Zbyte, Z.mod_small by lia. by test. Qed.

Lemma runes_two z0 z1 s :
  0xc2 <= z0 <= 0xdf → 0x80 <= z1 <= 0xbf →
  runes (Zbyte z0 :: Zbyte z1 :: s) = ((z0 - 0xc0) * 64 + (z1 - 0x80)) :: runes s.
Proof.
  intros H0 H1. cbn [runes]. unfold cont, in_range.
  rewrite !byteZ_Zbyte, !Z.mod_small by lia. by repeat test.
Qed.

Lemma runes_three z0 z1 z2 s :
  0xe0 <= z0 <= 0xef → 0x80 <= z1 <= 0xbf → 0x80 <= z2 <= 0xbf →
  (z0 = 0xe0 → 0xa0 <= z1) → (z0 = 0xed → z1 <= 0x9f) →
  runes (Zbyte z0 :: Zbyte z1 :: Zbyte z2 :: s)
  = ((z0 - 0xe0) * 4096 + (z1 - 0x80) * 64 + (z2 - 0x80)) :: runes s.
Proof.
  intros H0 H1 H2 H3 H4. cbn [runes]. unfold lead3, cont, in_range.
  rewrite !byteZ_Zbyte, !Z.mod_small by lia. repeat test.
  destruct (z0 =? 0xe0) eqn:?; [by test|]. destruct (z0 =? 0xed) eqn:?; by test.
Qed.

Lemma runes_four z0 z1 z2 z3 s :
  0xf0 <= z0 <= 0xf4 → 0x80 <= z1 <= 0xbf → 0x80 <= z2 <= 0xbf → 0x80 <= z3 <= 0xbf →
  (z0 = 0xf0 → 0x90 <= z1) → (z0 = 0xf4 → z1 <= 0x8f) →
  runes (Zbyte z0 :: Zbyte z1 :: Zbyte z2 :: Zbyte z3 :: s)
  = ((z0 - 0xf0) * 262144 + (z1 - 0x80) * 4096 + (z2 - 0x80) * 64 + (z3 - 0x80)) :: runes s.
Proof.
  intros H0 H1 H2 H3 H4 H5. cbn [runes]. unfold lead3, lead4, cont, in_range.
  rewrite !byteZ_Zbyte, !Z.mod_small by lia. repeat test.
  destruct (z0 =? 0xf0) eqn:?; [by test|]. destruct (z0 =? 0xf4) eqn:?; by test.
Qed.

Lemma runes_rune r s : scalar r = true → runes (rune_bytes r ++ s) = r :: runes s.
Proof.
  unfold scalar, rune_bytes, encode_rune, in_range. intros H.
  assert (0 <= r < 0xd800 ∨ 0xe000 <= r <= 0x10ffff) as Hr by lia. clear H.
  test. destruct (r <? 0x80) eqn:E1; cbn [app]; [by rewrite runes_one by lia|].
  destruct (r <? 0x800) eqn:E2; [|destruct (r <? 0x10000) eqn:E3]; cbn [app].
  - rewrite runes_two by (Z.to_euclidean_division_equations; lia).
    f_equal. Z.to_euclidean_division_equations; lia.
  - rewrite runes_three by (Z.to_euclidean_division_equations; lia).
    f_equal. Z.to_euclidean_division_equations; lia.
  - rewrite runes_four by (Z.to_euclidean_division_equations; lia).
    f_equal. Z.to_euclidean_division_equations; lia.
Qed.

(** Encoding scalar values and decoding them again is the identity. *)
Lemma runes_encode rs : Forall (λ r, scalar r = true) rs → runes (encode rs) = rs.
Proof.
  induction 1 as [|r rs Hr _ IH]; [done|]. rewrite encode_cons, runes_rune by done.
  by rewrite IH.
Qed.

(** Every decoded element is a scalar value or a bad byte. *)
Lemma runes_scalar s : Forall (λ r, scalar r = true ∨ -256 <= r < 0) (runes s).
Proof.
  induction s as [s IH] using (induction_ltof1 _ (@length byte)). unfold ltof in IH.
  assert (∀ t, (length t < length s)%nat → Forall (λ r, scalar r = true ∨ -256 <= r < 0) (runes t))
    as IH' by auto. clear IH.
  destruct s as [|b0 s0]; [by constructor|]. cbn [runes]. cbv zeta.
  pose proof (byteZ_range b0) as R0. cbn [length] in IH'.
  assert (∀ r t, (length t < S (length s0))%nat → 0 <= r < 0xd800 ∨ 0xe000 <= r <= 0x10ffff ∨ -256 <= r < 0 →
     Forall (λ r, scalar r = true ∨ -256 <= r < 0) (r :: runes t)) as Hstep.
  { intros r t Ht Hr. constructor; [|by apply IH'].
    unfold scalar, in_range. destruct (decide (r < 0)); [lia|]. left.
    destruct Hr as [Hr|[Hr|Hr]]; [| |lia].
    all: lia. }
  assert (Forall (λ r, scalar r = true ∨ -256 <= r < 0) ((-1 - byteZ b0) :: runes s0)) as Hbad
    by (apply Hstep; lia).
  destruct (byteZ b0 <? 0x80) eqn:E0; [apply Hstep; lia|].
  destruct s0 as [|b1 s1]; [done|]. cbn [length] in Hstep.
  destruct (in_range 0xc2 0xdf (byteZ b0) && cont b1) eqn:E1.
  { unfold cont, in_range in E1. apply Hstep; lia. }
  destruct s1 as [|b2 s2]; [done|]. cbn [length] in Hstep.
  destruct (lead3 b0 b1 && cont b2) eqn:E2; [apply Hstep; ranges|].
  destruct s2 as [|b3 s3]; [done|]. cbn [length] in Hstep.
  destruct (lead4 b0 b1 && cont b2 && cont b3) eqn:E4; [apply Hstep; ranges|done].
Qed.

Lemma runes_valid s :
  utf8_ValidString s = true → Forall (λ r, scalar r = true) (runes s).
Proof.
  unfold utf8_ValidString. rewrite forallb_forall. intros H.
  pose proof (runes_scalar s) as Hs. rewrite List.Forall_forall in Hs |- *.
  intros r Hr. specialize (H r Hr). bool_to_prop. destruct (Hs r Hr); [done|lia].
Qed.

End utf8_facts.

(** ** base64.StdEncoding *)

Definition b64_char (v : Z) : byte :=
  Zbyte (if v <? 26 then 65 + v else if v <? 52 then 71 + v
         else if v <? 62 then v - 4 else if v =? 62 then 43 else 47).

Definition b64_val (b : byte) : option Z :=
  let c := byteZ b in
  if in_range 65 90 c then Some (c - 65)
  else if in_range 97 122 c then Some (c - 71)
  else if in_range 48 57 c then Some (c + 4)
  else if c =? 43 then Some 62
  else if c =? 47 then Some 63
  else None.

Definition b64_pad : byte := Zbyte 61.

Fixpoint b64_encode (s : bytes) : bytes :=
  match s with
  | [] => []
  | [a] =>
      let x := byteZ a in [b64_char (x / 4); b64_char (x mod 4 * 16); b64_pad; b64_pad]
  | [a; b] =>
      let x := byteZ a in let y := byteZ b in
      [b64_char (x / 4); b64_char (x mod 4 * 16 + y / 16); b64_char (y mod 16 * 4); b64_pad]
  | a :: b :: c :: s' =>
      let x := byteZ a in let y := byteZ b in let z := byteZ c in
      b64_char (x / 4) :: b64_char (x mod 4 * 16 + y / 16)
        :: b64_char (y mod 16 * 4 + z / 64) :: b64_char (z mod 64) :: b64_encode s'
  end.

(** Decoding of a text without line breaks; unused trailing bits are not checked. *)
Fixpoint b64_groups (s : bytes) : option bytes :=
  match s with
  | [] => Some []
  | a :: b :: c :: d :: s' =>
      match b64_val a, b64_val b with
      | Some v, Some w =>
          match b64_val c with
          | None =>
              if bool_decide (c = b64_pad ∧ d = b64_pad ∧ s' = [])
              then Some [Zbyte (v * 4 + w / 16)] else None
          | Some x =>
              match b64_val d with
              | None =>
                  if bool_decide (d = b64_pad ∧ s' = [])
                  then Some [Zbyte (v * 4 + w / 16); Zbyte (w mod 16 * 16 + x / 4)] else None
              | Some y =>
                  match b64_groups s' with
                  | Some r => Some (Zbyte (v * 4 + w / 16) :: Zbyte (w mod 16 * 16 + x / 4)
                                      :: Zbyte (x mod 4 * 64 + y) :: r)
                  | None => None
                  end
              end
          end
      | _, _ => None
      end
  | _ => None
  end.

Definition not_newline (b : byte) : bool := negb ((byteZ b =? 10) || (byteZ b =? 13)).
Definition b64_decode (s : bytes) : option bytes := b64_groups (List.filter not_newline s).

Lemma b64_val_char v : 0 <= v < 64 → b64_val (b64_char v) = Some v.
Proof.
  intros H. assert (∀ n, (n < 64)%nat → b64_val (b64_char (Z.of_nat n)) = Some (Z.of_nat n)) as Hall.
  { do 64 (intros [|n]; [reflexivity|]; revert n). lia. }
  rewrite <- (Z2Nat.id v) by lia. apply Hall. lia.
Qed.

Lemma b64_char_visible v : 0 <= v < 64 → not_newline (b64_char v) = true ∧ 0x2b <= byteZ (b64_char v) < 0x80.
Proof.
  intros H. unfold not_newline, b64_char. rewrite byteZ_Zbyte.
  repeat case_match; bool_to_prop; rewrite Z.mod_small by lia; lia.
Qed.

(** Induction three bytes at a time. *)
Lemma bytes_ind3 (P : bytes → Prop) :
  P [] → (∀ a, P [a]) → (∀ a b, P [a; b]) → (∀ a b c s, P s → P (a :: b :: c :: s)) → ∀ s, P s.
Proof.
  intros H0 H1 H2 H3. fix IH 1. intros [|a [|b [|c s]]]; [exact H0|apply H1|apply H2|apply H3, IH].
Qed.

Lemma b64_groups_encode s : b64_groups (b64_encode s) = Some s.
Proof.
  induction s as [|a|a b|a b c s IH] using bytes_ind3; [done|..];
    repeat match goal with x : byte |- _ =>
      lazymatch goal with H : 0 <= byteZ x < 256 |- _ => fail | _ => pose proof (byteZ_range x) end end;
    cbn [b64_encode b64_groups];
    rewrite ?b64_val_char by (Z.to_euclidean_division_equations; lia).
  - cbn. do 2 f_equal. apply Zbyte_back. Z.to_euclidean_division_equations; lia.
  - cbn. do 3 f_equal; [|f_equal]; apply Zbyte_back; Z.to_euclidean_division_equations; lia.
  - rewrite IH. do 4 f_equal; try f_equal; apply Zbyte_back; Z.to_euclidean_division_equations; lia.
Qed.

Lemma b64_encode_chars s :
  Forall (λ b, not_newline b = true ∧ 0x2b <= byteZ b < 0x80) (b64_encode s).
Proof.
  assert (not_newline b64_pad = true ∧ 0x2b <= byteZ b64_pad < 0x80) by (vm_compute; done).
  induction s as [|a|a b|a b c s IH] using bytes_ind3; cbn [b64_encode];
    repeat match goal with x : byte |- _ =>
      lazymatch goal with H : 0 <= byteZ x < 256 |- _ => fail | _ => pose proof (byteZ_range x) end end;
    repeat (apply Forall_cons_2); try apply Forall_nil_2; try done;
    apply b64_char_visible; Z.to_euclidean_division_equations; lia.
Qed.

(** base64 round trip. *)
Lemma b64_decode_encode s : b64_decode (b64_encode s) = Some s.
Proof.
  unfold b64_decode. rewrite forallb_filter_id; [apply b64_groups_encode|].
  apply forallb_forall. pose proof (b64_encode_chars s) as H.
  rewrite List.Forall_forall in H. naive_solver.
Qed.

Lemma b64_encode_len s : len (b64_encode s) = 4 * ((len s + 2) / 3).
Proof.
  induction s as [|a|a b|a b c s IH] using bytes_ind3; try reflexivity.
  cbn [b64_encode]. rewrite !len_cons, IH. Z.to_euclidean_division_equations; lia.
Qed.

(** ** Decimal numbers *)

(** [strconv.AppendUint] in base 10, most significant digit first. *)
Fixpoint digits (fuel : nat) (n : Z) (acc : list Z) : list Z :=
  match fuel with
  | O => acc
  | S f => if n <? 10 then (48 + n) :: acc else digits f (n / 10) ((48 + n mod 10) :: acc)
  end.
Definition decimal (n : Z) : list Z := digits 20 n [].

Definition is_digit (c : Z) : bool := in_range 48 57 c.

(** [strconv.ParseUint(s, 10, bits)]. *)
Fixpoint undigits (acc : Z) (l : list Z) : Z :=
  match l with [] => acc | c :: l' => undigits (acc * 10 + (c - 48)) l' end.
Definition parse_uint (bits : Z) (l : list Z) : option Z :=
  if bool_decide (l = []) || negb (forallb is_digit l) then None
  else let n := undigits 0 l in if n <? 2 ^ bits then Some n else None.

Lemma undigits_app acc l k : undigits acc (l ++ k) = undigits (undigits acc l) k.
Proof. revert acc. induction l; cbn; auto. Qed.

Lemma digits_eq f n acc :
  0 <= n < 10 ^ Z.of_nat f →
  ∃ pre, digits f n acc = pre ++ acc ∧ undigits 0 pre = n ∧ Forall (λ c, 48 <= c <= 57) pre.
Proof.
  revert n acc. induction f as [|f IH]; intros n acc Hn.
  { exists []. cbn in *. split_and!; [done|lia|constructor]. }
  cbn [digits]. destruct (n <? 10) eqn:E; bool_to_prop.
  { exists [48 + n]. cbn. split_and!; [done|lia|]. repeat constructor; lia. }
  rewrite Nat2Z.inj_succ, Z.pow_succ_r in Hn by lia.
  destruct (IH (n / 10) ((48 + n mod 10) :: acc)) as (pre & -> & Hu & Hf).
  { Z.to_euclidean_division_equations; lia. }
  exists (pre ++ [48 + n mod 10]). rewrite <- app_assoc. split_and!; [done| |].
  - rewrite undigits_app, Hu. cbn. Z.to_euclidean_division_equations; lia.
  - apply Forall_app. split; [done|]. repeat constructor; Z.to_euclidean_division_equations; lia.
Qed.

Lemma digits_head f n acc :
  0 < n < 10 ^ Z.of_nat f → ∃ c l, digits f n acc = c :: l ∧ 49 <= c <= 57.
Proof.
  revert n acc. induction f as [|f IH]; intros n acc Hn; [cbn in Hn; lia|].
  cbn [digits]. destruct (n <? 10) eqn:E; bool_to_prop; [eexists _, _; split; [done|lia]|].
  rewrite Nat2Z.inj_succ, Z.pow_succ_r in Hn by lia.
  apply IH. Z.to_euclidean_division_equations; lia.
Qed.

Lemma decimal_digits n : 0 <= n < 2 ^ 64 → Forall (λ c, 48 <= c <= 57) (decimal n).
Proof.
  intros H. destruct (digits_eq 20 n []) as (pre & E & _ & Hf); [lia|].
  unfold decimal. by rewrite E, app_nil_r.
Qed.

Lemma decimal_nonempty n : 0 <= n < 2 ^ 64 → decimal n ≠ [].
Proof.
  intros H. destruct (decide (n = 0)) as [->|]; [done|].
  destruct (digits_head 20 n []) as (c & l & E & _); [lia|]. unfold decimal. by rewrite E.
Qed.

(** Decimal round trip at 64 bits. *)
Lemma parse_uint_decimal n : 0 <= n < 2 ^ 64 → parse_uint 64 (decimal n) = Some n.
Proof.
  intros H. unfold parse_uint. rewrite bool_decide_false by (by apply decimal_nonempty).
  assert (forallb is_digit (decimal n) = true) as ->.
  { apply forallb_forall. pose proof (decimal_digits n H) as Hd.
    rewrite List.Forall_forall in Hd. intros c Hc. specialize (Hd c Hc).
    unfold is_digit, in_range. lia. }
  destruct (digits_eq 20 n []) as (pre & E & Hu & _); [lia|].
  unfold decimal. rewrite E, app_nil_r, Hu. cbn [orb negb]. by replace (n <? 2 ^ 64) with true by lia.
Qed.

(** ** hex *)

Definition hex_char (v : Z) : byte := Zbyte (if v <? 10 then 48 + v else 87 + v).
Definition hex_val (c : Z) : option Z :=
  if in_range 48 57 c then Some (c - 48)
  else if in_range 97 102 c then Some (c - 87)
  else if in_range 65 70 c then Some (c - 55)
  else None.

Definition hex_EncodeToString (s : bytes) : bytes :=
  concat ((λ b, [hex_char (byteZ b / 16); hex_char (byteZ b mod 16)]) <$> s).

Fixpoint hex_DecodeString (s : bytes) : option bytes :=
  match s with
  | [] => Some []
  | a :: b :: s' =>
      match hex_val (byteZ a), hex_val (byteZ b), hex_DecodeString s' with
      | Some x, Some y, Some r => Some (Zbyte (x * 16 + y) :: r)
      | _, _, _ => None
      end
  | _ => None
  end.

Lemma hex_val_char v : 0 <= v < 16 → hex_val (byteZ (hex_char v)) = Some v.
Proof.
  intros H. unfold hex_char, hex_val, in_range. rewrite byteZ_Zbyte.
  destruct (v <? 10) eqn:E; rewrite Z.mod_small by lia;
    repeat (case_match; bool_to_prop); try (f_equal; lia); lia.
Qed.

Lemma hex_roundtrip s : hex_DecodeString (hex_EncodeToString s) = Some s.
Proof.
  induction s as [|b s IH]; [done|]. unfold hex_EncodeToString in *.
  rewrite fmap_cons. cbn [concat app hex_DecodeString]. pose proof (byteZ_range b).
  rewrite !hex_val_char by (Z.to_euclidean_division_equations; lia). rewrite IH.
  do 2 f_equal. apply Zbyte_back. Z.to_euclidean_division_equations; lia.
Qed.

Lemma hex_EncodeToString_len s : length (hex_EncodeToString s) = (2 * length s)%nat.
Proof.
  induction s as [|b s IH]; [done|]. unfold hex_EncodeToString in *.
  rewrite fmap_cons. cbn [concat length app]. lia.
Qed.
