(* ===== verification/Json.v ===== *)
(** * encoding/json

    JSON values, [Marshal]'s compact printer with its HTML-safe escaping, the
    grammar that [Unmarshal] and [Decoder.Decode] accept (with the 10000-level
    nesting bound), and the rules by which a value is stored into a Go struct:
    case-folded field names, later duplicates winning, [null] leaving the
    target alone, unknown fields ignored or rejected.

    Not modelled: when one object repeats a key whose field is a slice, Go
    re-exposes elements left in the slice's spare capacity; here a repeated
    array is decoded over the visible elements only. *)
From S2P Require Import Prelude Text.

Unset Elimination Schemes.
(** Numbers keep their literal, strings their decoded bytes. *)
Inductive json :=
  | JNull
  | JBool (b : bool)
  | JNum (literal : list Z)
  | JStr (s : bytes)
  | JArr (l : list json)
  | JObj (l : list (bytes * json)).
Set Elimination Schemes.

Section json_induction.
Context (P : json → Prop).
Context (Hnull : P JNull) (Hbool : ∀ b, P (JBool b)) (Hnum : ∀ l, P (JNum l))
  (Hstr : ∀ s, P (JStr s)) (Harr : ∀ l, Forall P l → P (JArr l))
  (Hobj : ∀ l, Forall (λ kv, P (kv.2)) l → P (JObj l)).

Fixpoint json_ind (j : json) : P j :=
  match j with
  | JNull => Hnull
  | JBool b => Hbool b
  | JNum l => Hnum l
  | JStr s => Hstr s
  | JArr l => Harr l ((fix go l := match l return Forall P l with
      | [] => Forall_nil_2 _
      | x :: l' => Forall_cons_2 _ _ _ (json_ind x) (go l') end) l)
  | JObj l => Hobj l ((fix go l := match l return Forall (λ kv, P (kv.2)) l with
      | [] => Forall_nil_2 _
      | kv :: l' => Forall_cons_2 _ _ _ (json_ind kv.2) (go l') end) l)
  end.
End json_induction.

(** ** Printing *)

Definition hex_digit (v : Z) : Z := if v <? 10 then 48 + v else 87 + v.

(** One rune inside a string literal: the escapes of [appendString] with
    [escapeHTML] set; a bad byte becomes [\ufffd]. *)
Definition esc_rune (r : Z) : list Z :=
  if r <? 0 then [92; 117; 102; 102; 102; 100]
  else if (r =? 34) || (r =? 92) then [92; r]
  else if r =? 8 then [92; 98]
  else if r =? 12 then [92; 102]
  else if r =? 10 then [92; 110]
  else if r =? 13 then [92; 114]
  else if r =? 9 then [92; 116]
  else if (r <? 32) || (r =? 60) || (r =? 62) || (r =? 38)
    then [92; 117; 48; 48; hex_digit (r / 16); hex_digit (r mod 16)]
  else if (r =? 0x2028) || (r =? 0x2029)
    then [92; 117; 50; 48; 50; hex_digit (r mod 16)]
  else [r].

Definition print_str (s : bytes) : list Z :=
  34 :: concat (esc_rune <$> runes s) ++ [34].

(** Comma-separated items up to the closing bracket. *)
Fixpoint join (close : Z) (l : list (list Z)) : list Z :=
  match l with
  | [] => [close]
  | [x] => x ++ [close]
  | x :: l' => x ++ 44 :: join close l'
  end.

Fixpoint print (j : json) : list Z :=
  match j with
  | JNull => [110; 117; 108; 108]
  | JBool true => [116; 114; 117; 101]
  | JBool false => [102; 97; 108; 115; 101]
  | JNum l => l
  | JStr s => print_str s
  | JArr l => 91 :: join 93 (List.map print l)
  | JObj l => 123 :: join 125 (List.map (λ kv, print_str kv.1 ++ 58 :: print kv.2) l)
  end.

(** [json.Marshal] of the value. *)
Definition marshal (j : json) : bytes := encode (print j).

(** ** Parsing *)

Definition is_ws (c : Z) : bool := (c =? 32) || (c =? 9) || (c =? 10) || (c =? 13).

Fixpoint skip_ws (l : list Z) : list Z :=
  match l with
  | c :: l' => if is_ws c then skip_ws l' else l
  | [] => []
  end.

Definition hex4 (a b c d : Z) : option Z :=
  match hex_val a, hex_val b, hex_val c, hex_val d with
  | Some w, Some x, Some y, Some z => Some (((w * 16 + x) * 16 + y) * 16 + z)
  | _, _, _, _ => None
  end.

Definition simple_escape (e : Z) : option Z :=
  if (e =? 34) || (e =? 92) || (e =? 47) then Some e
  else if e =? 98 then Some 8
  else if e =? 102 then Some 12
  else if e =? 110 then Some 10
  else if e =? 114 then Some 13
  else if e =? 116 then Some 9
  else None.

Definition push {A} (r : Z) (o : option (list Z * A)) : option (list Z * A) :=
  match o with Some (s, l) => Some (r :: s, l) | None => None end.

(** The text after the opening quote: the runes of the string, and the rest. *)
Fixpoint str_body (l : list Z) : option (list Z * list Z) :=
  match l with
  | [] => None
  | c :: l1 =>
      if c =? 34 then Some ([], l1)
      else if c =? 92 then
        match l1 with
        | e :: l2 =>
            if e =? 117 then
              match l2 with
              | h1 :: h2 :: h3 :: h4 :: l3 =>
                  match hex4 h1 h2 h3 h4 with
                  | None => None
                  | Some u =>
                      if in_range 0xd800 0xdfff u then
                        match l3 with
                        | b1 :: b2 :: g1 :: g2 :: g3 :: g4 :: l4 =>
                            match (if (b1 =? 92) && (b2 =? 117) then hex4 g1 g2 g3 g4 else None) with
                            | Some v =>
                                if in_range 0xd800 0xdbff u && in_range 0xdc00 0xdfff v
                                then push ((u - 0xd800) * 1024 + (v - 0xdc00) + 0x10000) (str_body l4)
                                else push 0xfffd (str_body l3)
                            | None => push 0xfffd (str_body l3)
                            end
                        | _ => push 0xfffd (str_body l3)
                        end
                      else push u (str_body l3)
                  end
              | _ => None
              end
            else match simple_escape e with
                 | Some r => push r (str_body l2)
                 | None => None
                 end
        | [] => None
        end
      else if in_range 0 31 c then None
      else push (if c <? 0 then 0xfffd else c) (str_body l1)
  end.

Fixpoint span_digits (l : list Z) : list Z * list Z :=
  match l with
  | c :: l' => if is_digit c then let '(d, r) := span_digits l' in (c :: d, r) else ([], l)
  | [] => ([], [])
  end.

(** [int frac? exp?] of the JSON grammar, as the literal and the rest. *)
Definition scan_int (l : list Z) : option (list Z * list Z) :=
  match l with
  | c :: l' =>
      if c =? 48 then Some ([48], l')
      else if in_range 49 57 c then Some (span_digits l) else None
  | [] => None
  end.
Definition scan_frac (l : list Z) : option (list Z * list Z) :=
  match l with
  | c :: l' =>
      if c =? 46 then
        match span_digits l' with ([], _) => None | (d, r) => Some (46 :: d, r) end
      else Some ([], l)
  | [] => Some ([], [])
  end.
Definition scan_exp (l : list Z) : option (list Z * list Z) :=
  match l with
  | c :: l' =>
      if (c =? 101) || (c =? 69) then
        let '(sign, l2) := match l' with
          | s :: l2 => if (s =? 43) || (s =? 45) then ([s], l2) else ([], l')
          | [] => ([], []) end in
        match span_digits l2 with ([], _) => None | (d, r) => Some (c :: sign ++ d, r) end
      else Some ([], l)
  | [] => Some ([], [])
  end.
Definition scan_number (l : list Z) : option (list Z * list Z) :=
  let '(sign, l0) := match l with
    | c :: l' => if c =? 45 then ([45], l') else ([], l)
    | [] => ([], []) end in
  match scan_int l0 with
  | None => None
  | Some (i, l1) =>
      match scan_frac l1 with
      | None => None
      | Some (f, l2) =>
          match scan_exp l2 with
          | None => None
          | Some (e, l3) => Some (sign ++ i ++ f ++ e, l3)
          end
      end
  end.

Fixpoint strip (p l : list Z) : option (list Z) :=
  match p, l with
  | [], _ => Some l
  | x :: p', y :: l' => if x =? y then strip p' l' else None
  | _ :: _, [] => None
  end.

(** One value, with the levels of nesting still allowed.  At least every second
    call is made on a shorter text: [value_fuel] below shows that
    [S (2 * length l)] units of fuel are enough. *)
Fixpoint value (fuel : nat) (depth : Z) (l : list Z) : option (json * list Z) :=
  match fuel with
  | O => None
  | S f =>
      match skip_ws l with
      | [] => None
      | c :: l1 =>
          if c =? 123 then
            if depth <=? 0 then None else
            match skip_ws l1 with
            | [] => None
            | c2 :: l2 =>
                if c2 =? 125 then Some (JObj [], l2)
                else match members f (depth - 1) (c2 :: l2) with
                     | Some (kvs, r) => Some (JObj kvs, r)
                     | None => None
                     end
            end
          else if c =? 91 then
            if depth <=? 0 then None else
            match skip_ws l1 with
            | [] => None
            | c2 :: l2 =>
                if c2 =? 93 then Some (JArr [], l2)
                else match elements f (depth - 1) (c2 :: l2) with
                     | Some (xs, r) => Some (JArr xs, r)
                     | None => None
                     end
            end
          else if c =? 34 then
            match str_body l1 with Some (s, r) => Some (JStr (encode s), r) | None => None end
          else if c =? 116 then
            match strip [114; 117; 101] l1 with Some r => Some (JBool true, r) | None => None end
          else if c =? 102 then
            match strip [97; 108; 115; 101] l1 with Some r => Some (JBool false, r) | None => None end
          else if c =? 110 then
            match strip [117; 108; 108] l1 with Some r => Some (JNull, r) | None => None end
          else match scan_number (c :: l1) with
               | Some (n, r) => Some (JNum n, r)
               | None => None
               end
      end
  end
with members (fuel : nat) (depth : Z) (l : list Z) : option (list (bytes * json) * list Z) :=
  match fuel with
  | O => None
  | S f =>
      match skip_ws l with
      | [] => None
      | c :: l1 =>
          if negb (c =? 34) then None else
          match str_body l1 with
          | None => None
          | Some (k, l2) =>
              match skip_ws l2 with
              | [] => None
              | c2 :: l3 =>
                  if negb (c2 =? 58) then None else
                  match value f depth l3 with
                  | None => None
                  | Some (v, l4) =>
                      match skip_ws l4 with
                      | [] => None
                      | c3 :: l5 =>
                          if c3 =? 125 then Some ([(encode k, v)], l5)
                          else if c3 =? 44 then
                            match members f depth l5 with
                            | Some (kvs, r) => Some ((encode k, v) :: kvs, r)
                            | None => None
                            end
                          else None
                      end
                  end
              end
          end
      end
  end
with elements (fuel : nat) (depth : Z) (l : list Z) : option (list json * list Z) :=
  match fuel with
  | O => None
  | S f =>
      match value f depth l with
      | None => None
      | Some (v, l1) =>
          match skip_ws l1 with
          | [] => None
          | c :: l2 =>
              if c =? 93 then Some ([v], l2)
              else if c =? 44 then
                match elements f depth l2 with
                | Some (vs, r) => Some (v :: vs, r)
                | None => None
                end
              else None
          end
      end
  end.

Definition max_depth : Z := 10000.

(** [Decoder.Decode] of the next value, as the value and the unread text. *)
Definition next_value (l : list Z) : option (json * list Z) :=
  value (S (2 * length l)) max_depth l.

(** What a second [Decode] reports: the end of input, another value, or an error. *)
Inductive trailing := TrailingEOF | TrailingValue | TrailingError.
Definition after_value (l : list Z) : trailing :=
  match skip_ws l with
  | [] => TrailingEOF
  | _ => match next_value l with Some _ => TrailingValue | None => TrailingError end
  end.

(** The syntax part of [json.Unmarshal]: one value and nothing after it. *)
Definition unmarshal (s : bytes) : option json :=
  match next_value (runes s) with
  | Some (j, r) => match after_value r with TrailingEOF => Some j | _ => None end
  | None => None
  end.

(** ** Storing a value into a Go variable *)

(** [foldName]: ASCII upper case, with the two other runes that fold to ASCII. *)
Definition fold_rune (r : Z) : Z :=
  if in_range 97 122 r then r - 32
  else if r =? 0x212a then 75
  else if r =? 0x17f then 83
  else r.
Definition fold_name (s : bytes) : list Z := fold_rune <$> runes s.

(** A decoder stores into the current contents of its target. *)
Definition decoder (A : Type) : Type := A → json → option A.

Definition dec_uint (bits : Z) : decoder Z := λ old j,
  match j with
  | JNull => Some old
  | JNum l => parse_uint bits l
  | _ => None
  end.
Definition dec_string : decoder bytes := λ old j,
  match j with JNull => Some old | JStr s => Some s | _ => None end.
Definition dec_bool : decoder bool := λ old j,
  match j with JNull => Some old | JBool b => Some b | _ => None end.

Fixpoint dec_elems {A} (dec : decoder A) (zero : A) (old : list A) (js : list json) : option (list A) :=
  match js with
  | [] => Some []
  | j :: js' =>
      match dec (hd zero old) j, dec_elems dec zero (tl old) js' with
      | Some x, Some xs => Some (x :: xs)
      | _, _ => None
      end
  end.
Definition dec_slice {A} (dec : decoder A) (zero : A) : decoder (list A) := λ old j,
  match j with
  | JNull => Some []
  | JArr js => dec_elems dec zero old js
  | _ => None
  end.

(** [[]byte]: base64 text, or an array of numbers. *)
Definition dec_bytes : decoder bytes := λ old j,
  match j with
  | JStr s => b64_decode s
  | _ => match dec_slice (dec_uint 8) 0 (byteZ <$> old) j with
         | Some zs => Some (Zbyte <$> zs)
         | None => None
         end
  end.

(** A struct: [fields] lists the JSON names with the decoder of each field. *)
Fixpoint find_field {A} (fields : list (bytes * decoder A)) (k : bytes) : option (decoder A) :=
  match fields with
  | [] => None
  | (name, d) :: fs => if bool_decide (fold_name name = fold_name k) then Some d else find_field fs k
  end.
Fixpoint dec_members {A} (strict : bool) (fields : list (bytes * decoder A)) (old : A)
    (kvs : list (bytes * json)) : option A :=
  match kvs with
  | [] => Some old
  | (k, v) :: kvs' =>
      match find_field fields k with
      | Some d => match d old v with Some x => dec_members strict fields x kvs' | None => None end
      | None => if strict then None else dec_members strict fields old kvs'
      end
  end.
Definition dec_struct {A} (strict : bool) (fields : list (bytes * decoder A)) : decoder A := λ old j,
  match j with
  | JNull => Some old
  | JObj kvs => dec_members strict fields old kvs
  | _ => None
  end.

(** [map[string]A]; [None] is the nil map.  Elements start from the zero value. *)
Fixpoint dec_entries {A} (dec : decoder A) (zero : A) (m : gmap bytes A) (kvs : list (bytes * json))
    : option (gmap bytes A) :=
  match kvs with
  | [] => Some m
  | (k, v) :: kvs' =>
      match dec zero v with Some x => dec_entries dec zero (<[k := x]> m) kvs' | None => None end
  end.
Definition dec_map {A} (dec : decoder A) (zero : A) : decoder (option (gmap bytes A)) := λ old j,
  match j with
  | JNull => Some None
  | JObj kvs => Some <$> dec_entries dec zero (default ∅ old) kvs
  | _ => None
  end.

(** ** Round trip *)

(** What [Marshal] is called on here: numbers are unsigned 64-bit decimals,
    strings are valid UTF-8. *)
Fixpoint json_ok (j : json) : Prop :=
  match j with
  | JNull | JBool _ => True
  | JNum l => ∃ n, 0 <= n < 2 ^ 64 ∧ l = decimal n
  | JStr s => utf8_ValidString s = true
  | JArr l => List.fold_right (λ x acc, json_ok x ∧ acc) True l
  | JObj l => List.fold_right (λ kv acc, utf8_ValidString kv.1 = true ∧ json_ok kv.2 ∧ acc) True l
  end.

Fixpoint json_depth (j : json) : Z :=
  match j with
  | JArr l => 1 + List.fold_right (λ x acc, Z.max (json_depth x) acc) 0 l
  | JObj l => 1 + List.fold_right (λ kv acc, Z.max (json_depth kv.2) acc) 0 l
  | _ => 0
  end.

(** The text after a printed value: a separator, a closing bracket or the end. *)
Definition delim (l : list Z) : Prop :=
  match l with [] => True | c :: _ => c = 44 ∨ c = 93 ∨ c = 125 end.

Lemma hex_val_digit v : 0 <= v < 16 → hex_val (hex_digit v) = Some v.
Proof.
  intros H. unfold hex_val, hex_digit, in_range.
  destruct (v <? 10) eqn:E; repeat (case_match; bool_to_prop); try (f_equal; lia); lia.
Qed.

(** Evaluate the tests of the goal that arithmetic decides. *)
Ltac jtest :=
  repeat match goal with
  | |- context [if ?c then _ else _] =>
      first [ replace c with true by lia | replace c with false by lia ]
  end.

Lemma str_body_esc r l :
  scalar r = true → str_body (esc_rune r ++ l) = push r (str_body l).
Proof.
  unfold scalar, in_range. intros Hr. unfold esc_rune.
  replace (r <? 0) with false by lia.
  destruct ((r =? 34) || (r =? 92)) eqn:E1.
  { assert (r = 34 ∨ r = 92) as [-> | ->] by lia; reflexivity. }
  do 5 (match goal with |- context [if ?c then _ else _] => destruct c eqn:? end;
        [bool_to_prop; subst; reflexivity|]).
  destruct ((r <? 32) || (r =? 60) || (r =? 62) || (r =? 38)) eqn:E2.
  { cbn [app str_body Z.eqb Pos.eqb]. unfold hex4.
    rewrite !hex_val_digit by (Z.to_euclidean_division_equations; lia).
    change (hex_val 48) with (Some 0). cbv iota beta. unfold in_range.
    replace (((0 * 16 + 0) * 16 + r / 16) * 16 + r mod 16) with r
      by (Z.to_euclidean_division_equations; lia). by jtest. }
  destruct ((r =? 0x2028) || (r =? 0x2029)) eqn:E3.
  { assert (r = 0x2028 ∨ r = 0x2029) as [-> | ->] by lia; reflexivity. }
  cbn [app str_body]. unfold in_range. by jtest.
Qed.

Lemma str_body_print rs l :
  Forall (λ r, scalar r = true) rs →
  str_body (concat (esc_rune <$> rs) ++ 34 :: l) = Some (rs, l).
Proof.
  induction 1 as [|r rs Hr _ IH]; [reflexivity|].
  rewrite fmap_cons. cbn [concat]. rewrite <- app_assoc, str_body_esc, IH by done. done.
Qed.

Lemma str_body_quoted s l :
  utf8_ValidString s = true →
  str_body (concat (esc_rune <$> runes s) ++ [34] ++ l) = Some (runes s, l).
Proof. intros H. by apply str_body_print, runes_valid. Qed.

Lemma span_digits_app d l :
  Forall (λ c, 48 <= c <= 57) d → delim l → span_digits (d ++ l) = (d, l).
Proof.
  induction 1 as [|c d Hc _ IH]; cbn [app span_digits]; intros Hl.
  - destruct l as [|c l]; [done|]. cbn in *. unfold is_digit, in_range. by jtest.
  - unfold is_digit at 1, in_range. jtest. by rewrite IH.
Qed.

Lemma scan_number_decimal n l :
  0 <= n < 2 ^ 64 → delim l → scan_number (decimal n ++ l) = Some (decimal n, l).
Proof.
  intros Hn Hl. pose proof (decimal_digits n Hn) as Hd.
  assert (scan_int (decimal n ++ l) = Some (decimal n, l)) as Hint.
  { destruct (decide (n = 0)) as [->|Hne]; [done|].
    destruct (digits_head 20 n []) as (c & t & E & Hc); [lia|]. unfold decimal in *.
    rewrite E in Hd |- *. cbn [app scan_int]. unfold in_range. jtest.
    f_equal. by apply (span_digits_app (c :: t)). }
  unfold scan_number. destruct (decimal n) as [|c t] eqn:E; [by apply decimal_nonempty in E|].
  apply Forall_cons in Hd as [Hc Hd]. cbn [app] in *. replace (c =? 45) with false by lia.
  rewrite Hint. assert (scan_frac l = Some ([], l) ∧ scan_exp l = Some ([], l)) as [-> ->].
  { destruct l as [|x l]; [done|]. cbn in Hl. unfold scan_frac, scan_exp. by jtest. }
  cbn [app]. by rewrite !app_nil_r.
Qed.

(** The first rune of a printed value. *)
Lemma print_head j :
  json_ok j → ∃ c t, print j = c :: t ∧ is_ws c = false ∧ c ≠ 93 ∧ c ≠ 125.
Proof.
  destruct j as [|[]|l|s|l|l]; cbn [json_ok print]; intros H;
    try (eexists _, _; split; [done|]; by split_and!).
  destruct H as (n & Hn & ->). destruct (decimal n) as [|c t] eqn:E; [by apply decimal_nonempty in E|].
  pose proof (decimal_digits n Hn) as Hd. rewrite E in Hd. apply Forall_cons in Hd as [Hc _].
  eexists _, _; split; [done|]. unfold is_ws. lia.
Qed.

Lemma skip_ws_print j l : json_ok j → skip_ws (print j ++ l) = print j ++ l.
Proof. intros (c & t & -> & H & _)%print_head. cbn. by rewrite H. Qed.

Lemma join_cons close x l :
  join close (x :: l) = x ++ match l with [] => [close] | _ => 44 :: join close l end.
Proof. by destruct l. Qed.

(** The round trip of one value at a given fuel. *)
Definition value_ok (j : json) : Prop := ∀ f d l,
  json_ok j → (length (print j) < f)%nat → json_depth j <= d → delim l →
  value f d (print j ++ l) = Some (j, l).

Lemma elements_print js f d l :
  js ≠ [] → Forall value_ok js → json_ok (JArr js) →
  (length (join 93%Z (List.map print js)) < f)%nat → json_depth (JArr js) - 1 <= d →
  elements f d (join 93 (List.map print js) ++ l) = Some (js, l).
Proof.
  intros Hne Hjs. revert f l Hne. induction Hjs as [|j js Hj Hjs IH]; intros f l Hne Hok Hf Hd; [done|].
  cbn [List.map] in *. rewrite join_cons in *. cbn [json_ok json_depth fold_right] in Hok, Hd.
  destruct Hok as [Hj1 Hjs1]. destruct f as [|f]; [lia|]. rewrite length_app in Hf.
  cbn [elements]. destruct js as [|j2 js].
  - cbn [List.map] in *. rewrite <- app_assoc. cbn in Hf.
    rewrite Hj by (cbn; auto; lia). done.
  - cbn [List.map] in *. rewrite <- app_assoc. cbn [length app] in Hf |- *.
    rewrite Hj by (cbn; auto; lia). cbn [skip_ws is_ws Z.eqb Pos.eqb orb].
    rewrite IH; [done|done|done|lia|cbn [json_depth fold_right] in *; lia].
Qed.

Lemma members_print kvs f d l :
  kvs ≠ [] → Forall (λ kv, value_ok kv.2) kvs → json_ok (JObj kvs) →
  (length (join 125%Z (List.map (λ kv, print_str kv.1 ++ 58%Z :: print kv.2) kvs)) < f)%nat →
  json_depth (JObj kvs) - 1 <= d →
  members f d (join 125 (List.map (λ kv, print_str kv.1 ++ 58 :: print kv.2) kvs) ++ l) = Some (kvs, l).
Proof.
  intros Hne Hkvs. revert f l Hne.
  induction Hkvs as [|[k j] kvs Hj Hkvs IH]; intros f l Hne Hok Hf Hd; [done|].
  cbn [List.map fst snd] in *. rewrite join_cons in *.
  cbn [json_ok json_depth fold_right fst snd] in Hok, Hd.
  destruct Hok as (Hk & Hj1 & Hkvs1). destruct f as [|f]; [lia|].
  unfold print_str in *. rewrite <- !app_assoc in *. cbn [app] in *.
  cbn [members skip_ws is_ws Z.eqb Pos.eqb orb negb]. rewrite <- !app_assoc.
  rewrite str_body_quoted by done. cbn [app skip_ws is_ws Z.eqb Pos.eqb orb negb].
  rewrite encode_runes. cbn [length] in Hf. rewrite !length_app in Hf. cbn [length] in Hf.
  rewrite ?length_app in Hf. rewrite <- ?app_assoc.
  destruct kvs as [|kv2 kvs].
  - cbn [List.map] in *. cbn [length] in Hf. rewrite Hj by (cbn; auto; lia). done.
  - cbn [List.map] in *. cbn [length app] in Hf |- *. rewrite Hj by (cbn; auto; lia).
    cbn [skip_ws is_ws Z.eqb Pos.eqb orb].
    rewrite IH; [done|done|done|lia|cbn [json_depth fold_right] in *; lia].
Qed.

Lemma foldr_max_nonneg {A} (g : A → Z) l : 0 <= foldr (λ x acc, Z.max (g x) acc) 0 l.
Proof. induction l; cbn; lia. Qed.

Lemma value_print j : value_ok j.
Proof.
  unfold value_ok. induction j as [|b|n|s|js IH|kvs IH] using json_ind; intros f d l Hok Hf Hd Hl;
    (destruct f as [|f]; [lia|]); cbn [value].
  - done.
  - by destruct b.
  - cbn [print json_ok] in *. destruct Hok as (m & Hm & ->).
    destruct (print_head (JNum (decimal m))) as (c & t & E & Hws & _); [by exists m|].
    cbn [print] in E. pose proof (decimal_digits m Hm) as Hd'.
    pose proof (scan_number_decimal m l Hm Hl) as Hscan. rewrite E in *. cbn [app] in *.
    cbn [skip_ws]. rewrite Hws. apply Forall_cons in Hd' as [Hc _]. jtest. by rewrite Hscan.
  - cbn [print json_ok] in *. unfold print_str. cbn [app skip_ws is_ws Z.eqb Pos.eqb orb].
    rewrite <- app_assoc, str_body_quoted, encode_runes by done. done.
  - cbn [print] in *. cbn [app skip_ws is_ws Z.eqb Pos.eqb orb]. cbn [length] in Hf.
    replace (d <=? 0) with false.
    2: { symmetry. apply Z.leb_gt. cbn [json_depth] in Hd.
         pose proof (foldr_max_nonneg json_depth js). lia. }
    destruct js as [|j js]; [done|].
    pose proof (elements_print (j :: js) f (d - 1) l) as He.
    cbn [List.map] in *. rewrite join_cons in *.
    destruct (print_head j) as (c & t & E & Hws & Hc1 & _); [apply Hok|].
    rewrite <- app_assoc in *. rewrite E in *. cbn [app skip_ws] in *. rewrite Hws.
    replace (c =? 93) with false by lia. rewrite He; [done|done|by apply IH|done|lia|lia].
  - cbn [print] in *. cbn [app skip_ws is_ws Z.eqb Pos.eqb orb]. cbn [length] in Hf.
    replace (d <=? 0) with false.
    2: { symmetry. apply Z.leb_gt. cbn [json_depth] in Hd.
         pose proof (foldr_max_nonneg (λ kv : bytes * json, json_depth kv.2) kvs). lia. }
    destruct kvs as [|kv kvs]; [done|].
    pose proof (members_print (kv :: kvs) f (d - 1) l) as He.
    cbn [List.map] in *. rewrite join_cons in *. unfold print_str in *. cbn [app] in *.
    cbn [skip_ws is_ws Z.eqb Pos.eqb orb]. rewrite He; [done|done|by apply IH|done|lia|lia].
Qed.

Lemma hex_digit_scalar v : 0 <= v < 16 → scalar (hex_digit v) = true.
Proof. intros H. unfold hex_digit, scalar, in_range. destruct (v <? 10) eqn:?; lia. Qed.

Lemma esc_rune_scalar r :
  scalar r = true ∨ -256 <= r < 0 → Forall (λ x, scalar x = true) (esc_rune r).
Proof.
  intros H. unfold esc_rune.
  destruct (r <? 0) eqn:E0; [repeat (apply Forall_cons_2; [done|]); apply Forall_nil_2|].
  assert (scalar r = true) as Hr by (destruct H; [done|lia]).
  repeat (match goal with |- context [if ?c then _ else _] => destruct c eqn:? end;
    [repeat (apply Forall_cons_2;
       [first [done | apply hex_digit_scalar; Z.to_euclidean_division_equations; lia]|]);
     apply Forall_nil_2|]).
  by apply Forall_cons_2, Forall_nil_2.
Qed.

Lemma print_str_scalar s : Forall (λ x, scalar x = true) (print_str s).
Proof.
  unfold print_str. apply Forall_cons_2; [done|]. apply Forall_app. split; [|by apply Forall_cons_2].
  induction (runes_scalar s) as [|r rs Hr _ IH]; [done|].
  rewrite fmap_cons. cbn [concat]. apply Forall_app. auto using esc_rune_scalar.
Qed.

Lemma join_scalar close l :
  scalar close = true → Forall (Forall (λ x, scalar x = true)) l →
  Forall (λ x, scalar x = true) (join close l).
Proof.
  intros Hc. induction 1 as [|x l Hx Hl IH]; [by apply Forall_cons_2|].
  rewrite join_cons. apply Forall_app. split; [done|].
  destruct l; [by apply Forall_cons_2|]. by apply Forall_cons_2.
Qed.

Lemma print_scalar j : json_ok j → Forall (λ x, scalar x = true) (print j).
Proof.
  induction j as [|b|n|s|js IH|kvs IH] using json_ind; cbn [print json_ok]; intros Hok.
  - by repeat constructor.
  - by destruct b; repeat constructor.
  - destruct Hok as (m & Hm & ->). eapply Forall_impl; [by apply decimal_digits|].
    cbn. intros c Hc. unfold scalar, in_range. lia.
  - apply print_str_scalar.
  - apply Forall_cons_2; [done|]. apply join_scalar; [done|].
    induction IH as [|j js Hj _ IH]; [done|]. cbn in *. apply Forall_cons_2; naive_solver.
  - apply Forall_cons_2; [done|]. apply join_scalar; [done|].
    induction IH as [|[k j] kvs Hj _ IH]; [done|]. cbn [List.map fold_right fst snd] in *.
    destruct Hok as (Hk & Hj1 & Hok).
    apply Forall_cons_2; [|by apply IH]. apply Forall_app. split; [apply print_str_scalar|].
    apply Forall_cons_2; auto.
Qed.

(** What [Marshal] writes, [Unmarshal] reads back. *)
Lemma unmarshal_marshal j : json_ok j → json_depth j <= max_depth → unmarshal (marshal j) = Some j.
Proof.
  intros Hok Hd. unfold unmarshal, marshal, next_value. rewrite runes_encode by (by apply print_scalar).
  rewrite <- (app_nil_r (print j)) at 2. rewrite value_print by (cbn; auto; lia). done.
Qed.

(** Reading one value from what [Marshal] wrote leaves nothing behind. *)
Lemma next_value_marshal j :
  json_ok j → json_depth j <= max_depth → next_value (runes (marshal j)) = Some (j, []).
Proof.
  intros Hok Hd. unfold marshal, next_value. rewrite runes_encode by (by apply print_scalar).
  rewrite <- (app_nil_r (print j)) at 2. rewrite value_print by (cbn; auto; lia). done.
Qed.

(** ** Fuel *)

Lemma skip_ws_length l : (length (skip_ws l) <= length l)%nat.
Proof. induction l as [|c l IH]; cbn; [done|]. destruct (is_ws c); cbn; lia. Qed.

Lemma push_Some {A} r (o : option (list Z * A)) s x :
  push r o = Some (s, x) → ∃ s', o = Some (s', x).
Proof. destruct o as [[s' y]|]; cbn; [|done]. intros [= <- <-]. eauto. Qed.

Lemma str_body_length l s r : str_body l = Some (s, r) → (length r < length l)%nat.
Proof.
  revert s r. induction l as [l IH] using (induction_ltof1 _ (@length Z)). unfold ltof in IH.
  intros s r. destruct l as [|c l1]; [done|]. cbn [str_body length] in *.
  repeat (case_match; try done); intros Hb; cbn [length] in *;
    try (injection Hb as <- <-; lia);
    apply push_Some in Hb as [s' Hb]; apply IH in Hb; subst; cbn [length] in *; lia.
Qed.

Lemma span_digits_length l : (length (span_digits l).2 <= length l)%nat.
Proof.
  induction l as [|c l IH]; [done|]. cbn. destruct (is_digit c); [|done].
  destruct (span_digits l) as [d r]. cbn in *. lia.
Qed.

Lemma scan_int_length l n r : scan_int l = Some (n, r) → (length r < length l)%nat.
Proof.
  unfold scan_int. destruct l as [|c l]; [done|]. destruct (c =? 48); [naive_solver lia|].
  destruct (in_range 49 57 c) eqn:E; [|done]. cbn. unfold is_digit.
  replace (in_range 48 57 c) with true by (unfold in_range in *; lia).
  pose proof (span_digits_length l). destruct (span_digits l). cbn in *. naive_solver lia.
Qed.

Lemma scan_frac_length l n r : scan_frac l = Some (n, r) → (length r <= length l)%nat.
Proof.
  unfold scan_frac. destruct l as [|c l]; [naive_solver|]. destruct (c =? 46); [|naive_solver].
  pose proof (span_digits_length l). destruct (span_digits l) as [[|d ds] q]; [done|].
  cbn in *. naive_solver lia.
Qed.

Lemma scan_exp_length l n r : scan_exp l = Some (n, r) → (length r <= length l)%nat.
Proof.
  unfold scan_exp. destruct l as [|c l]; [naive_solver|].
  destruct ((c =? 101) || (c =? 69)); [|naive_solver].
  assert (∀ m, (let '(sign, l2) := m in match span_digits l2 with
     | ([], _) => None | (d, q) => Some (c :: sign ++ d, q) end) = Some (n, r) →
     (length m.2 <= length l)%nat → (length r <= length l)%nat) as Hgen.
  { intros [sign l2]. cbn. pose proof (span_digits_length l2).
    destruct (span_digits l2) as [[|d ds] q]; [done|]. cbn in *. naive_solver lia. }
  intros H. apply Hgen in H; [cbn; lia|].
  destruct l as [|x l]; [done|]. destruct ((x =? 43) || (x =? 45)); cbn; lia.
Qed.

Lemma scan_number_length l n r : scan_number l = Some (n, r) → (length r < length l)%nat.
Proof.
  unfold scan_number. intros H.
  assert (∃ sign l0, (length l0 <= length l)%nat ∧
    match scan_int l0 with None => None | Some (i, l1) =>
    match scan_frac l1 with None => None | Some (f, l2) =>
    match scan_exp l2 with None => None | Some (e, l3) => Some (sign ++ i ++ f ++ e, l3)
    end end end = Some (n, r)) as (sign & l0 & Hl & H').
  { destruct l as [|c l]; [done|]. destruct (c =? 45); eexists _, _; (split; [|done]); cbn; lia. }
  destruct (scan_int l0) as [[i l1]|] eqn:E1; [|done].
  destruct (scan_frac l1) as [[f l2]|] eqn:E2; [|done].
  destruct (scan_exp l2) as [[e l3]|] eqn:E3; [|done]. injection H' as <- <-.
  apply scan_int_length in E1. apply scan_frac_length in E2. apply scan_exp_length in E3. lia.
Qed.

Lemma strip_length p l r : strip p l = Some r → (length r <= length l)%nat.
Proof.
  revert l. induction p as [|x p IH]; intros [|y l]; cbn; try naive_solver.
  destruct (x =? y); [|done]. intros H%IH. lia.
Qed.

(** A parsed value leaves a shorter text. *)
Lemma value_members_elements_length f :
  (∀ d l j r, value f d l = Some (j, r) → (length r < length l)%nat) ∧
  (∀ d l x r, members f d l = Some (x, r) → (length r < length l)%nat) ∧
  (∀ d l x r, elements f d l = Some (x, r) → (length r < length l)%nat).
Proof.
  induction f as [|f (IHv & IHm & IHe)]; [done|]. split_and!; intros d l j r H; cbn in H.
  - pose proof (skip_ws_length l). destruct (skip_ws l) as [|c l1] eqn:E; [done|]. cbn [length] in *.
    pose proof (skip_ws_length l1).
    repeat (case_match; try done); simplify_eq; cbn [length] in *;
      try match goal with
      | H : members _ _ _ = Some _ |- _ => apply IHm in H
      | H : elements _ _ _ = Some _ |- _ => apply IHe in H
      | H : str_body _ = Some _ |- _ => apply str_body_length in H
      | H : strip _ _ = Some _ |- _ => apply strip_length in H
      | H : scan_number _ = Some _ |- _ => apply scan_number_length in H
      end; cbn [length] in *; lia.
  - pose proof (skip_ws_length l). destruct (skip_ws l) as [|c l1] eqn:E; [done|]. cbn [length] in *.
    destruct (negb (c =? 34)); [done|]. destruct (str_body l1) as [[k l2]|] eqn:E2; [|done].
    apply str_body_length in E2. pose proof (skip_ws_length l2).
    destruct (skip_ws l2) as [|c2 l3] eqn:E3; [done|]. cbn [length] in *.
    destruct (negb (c2 =? 58)); [done|]. destruct (value f d l3) as [[v l4]|] eqn:E4; [|done].
    apply IHv in E4. pose proof (skip_ws_length l4).
    destruct (skip_ws l4) as [|c3 l5] eqn:E5; [done|]. cbn [length] in *.
    repeat (case_match; try done); simplify_eq; [lia|].
    match goal with H : members _ _ _ = Some _ |- _ => apply IHm in H end. lia.
  - destruct (value f d l) as [[v l1]|] eqn:E1; [|done]. apply IHv in E1. pose proof (skip_ws_length l1).
    destruct (skip_ws l1) as [|c l2] eqn:E2; [done|]. cbn [length] in *.
    repeat (case_match; try done); simplify_eq; [lia|].
    match goal with H : elements _ _ _ = Some _ |- _ => apply IHe in H end. lia.
Qed.

(** One more unit of fuel changes nothing once there is enough. *)
Lemma value_fuel_step f :
  (∀ d l, (2 * length l < f)%nat → value f d l = value (S f) d l) ∧
  (∀ d l, (2 * length l < f)%nat → members f d l = members (S f) d l) ∧
  (∀ d l, (S (2 * length l) < f)%nat → elements f d l = elements (S f) d l).
Proof.
  induction f as [|f (IHv & IHm & IHe)]; [split_and!; intros; lia|].
  destruct (value_members_elements_length f) as (Lv & _ & _).
  remember (S f) as g eqn:Hg.
  split_and!; intros d l Hl; rewrite Hg in Hl; rewrite Hg at 1.
  - cbn [value]. pose proof (skip_ws_length l).
    destruct (skip_ws l) as [|c l1] eqn:E; [done|]. cbn [length] in *.
    pose proof (skip_ws_length l1). destruct (skip_ws l1) as [|c2 l2] eqn:E2; [done|]. cbn [length] in *.
    rewrite (IHm (d - 1) (c2 :: l2)) by (cbn [length]; lia).
    rewrite (IHe (d - 1) (c2 :: l2)) by (cbn [length]; lia). done.
  - cbn [members]. pose proof (skip_ws_length l).
    destruct (skip_ws l) as [|c l1] eqn:E; [done|]. cbn [length] in *.
    destruct (negb (c =? 34)); [done|]. destruct (str_body l1) as [[k l2]|] eqn:E2; [|done].
    apply str_body_length in E2. pose proof (skip_ws_length l2).
    destruct (skip_ws l2) as [|c2 l3] eqn:E3; [done|]. cbn [length] in *.
    destruct (negb (c2 =? 58)); [done|]. rewrite <- (IHv d l3) by lia.
    destruct (value f d l3) as [[v l4]|] eqn:E4; [|done].
    apply Lv in E4. pose proof (skip_ws_length l4).
    destruct (skip_ws l4) as [|c3 l5] eqn:E5; [done|]. cbn [length] in *.
    by rewrite <- (IHm d l5) by lia.
  - cbn [elements]. rewrite <- (IHv d l) by lia.
    destruct (value f d l) as [[v l1]|] eqn:E1; [|done]. apply Lv in E1. pose proof (skip_ws_length l1).
    destruct (skip_ws l1) as [|c l2] eqn:E2; [done|]. cbn [length] in *.
    by rewrite <- (IHe d l2) by lia.
Qed.

(** The fuel of [next_value] is enough: more of it gives the same result. *)
Lemma value_fuel l f : (2 * length l < f)%nat → value f max_depth l = next_value l.
Proof.
  intros H. unfold next_value.
  replace f with (f - S (2 * length l) + S (2 * length l))%nat by lia.
  generalize (f - S (2 * length l))%nat as n. intros n. induction n as [|n IH]; [done|].
  rewrite <- IH. symmetry. apply value_fuel_step. lia.
Qed.
