(* ===== verification/Os.v ===== *)
(** * Contexts, files and the durable write protocol

    The state outside the process: when the context of the running request is
    cancelled, which system calls fail, and a file system with directories,
    inodes, open descriptors and what of it survives a crash.  On top of it the
    shared helpers of internal/lifecycle/journal.go: [writeFull], [atomicWrite]
    and [syncDirectory].

    Paths are looked up by [filepath.Clean]; there are no symbolic links.  Every
    [Write] of the sources happens at the end of its file (the code seeks there
    first, or the file is new), so writing appends. *)
From S2P Require Import Prelude Go.

(** ** path/filepath on Unix *)

Definition slash : byte := Zbyte 47.
Definition dot : bytes := [Zbyte 46].
Definition dotdot : bytes := [Zbyte 46; Zbyte 46].

(** The components between slashes, empty ones included. *)
Fixpoint split_slash (acc : bytes) (p : bytes) : list bytes :=
  match p with
  | [] => [reverse acc]
  | c :: p' => if decide (c = slash) then reverse acc :: split_slash [] p' else split_slash (c :: acc) p'
  end.

(** Process the components left to right; [out] is the result, last first. *)
Fixpoint clean_parts (rooted : bool) (out parts : list bytes) : list bytes :=
  match parts with
  | [] => reverse out
  | c :: cs =>
      if decide (c = [] ∨ c = dot) then clean_parts rooted out cs
      else if decide (c = dotdot) then
        match out with
        | x :: out' =>
            if decide (x = dotdot) then clean_parts rooted (c :: out) cs
            else clean_parts rooted out' cs
        | [] => if rooted then clean_parts rooted [] cs else clean_parts rooted [c] cs
        end
      else clean_parts rooted (c :: out) cs
  end.

Fixpoint join_slash (parts : list bytes) : bytes :=
  match parts with
  | [] => []
  | [c] => c
  | c :: cs => c ++ slash :: join_slash cs
  end.

Definition filepath_Clean (p : bytes) : bytes :=
  let rooted := match p with c :: _ => bool_decide (c = slash) | [] => false end in
  let body := join_slash (clean_parts rooted [] (split_slash [] p)) in
  if rooted then slash :: body else if bool_decide (body = []) then dot else body.

(** Up to and including the last slash. *)
Fixpoint through_last_slash (acc seen : bytes) (p : bytes) : bytes :=
  match p with
  | [] => seen
  | c :: p' => if decide (c = slash) then through_last_slash (c :: acc) (reverse (c :: acc)) p'
               else through_last_slash (c :: acc) seen p'
  end.
Definition filepath_Dir (p : bytes) : bytes := filepath_Clean (through_last_slash [] [] p).
Definition filepath_Join (a b : bytes) : bytes :=
  if decide (a = []) then (if decide (b = []) then [] else filepath_Clean b)
  else filepath_Clean (a ++ slash :: b).

Example clean_example : filepath_Clean (lit "a//b/./../c/") = lit "a/c".
Proof. vm_compute. reflexivity. Qed.
Example clean_rooted : filepath_Clean (lit "/../x/..") = lit "/".
Proof. vm_compute. reflexivity. Qed.
Example dir_example : filepath_Dir (lit "state/journal") = lit "state".
Proof. vm_compute. reflexivity. Qed.

(** ** The file system *)

(** A directory entry: a cleaned path, or a temporary file that
    [os.CreateTemp] made in a directory under a name of its own. *)
Inductive entry := Named (path : bytes) | Temp (dir : bytes) (n : nat).

#[export] Instance entry_eq_dec : EqDecision entry.
Proof. solve_decision. Defined.
#[export] Program Instance entry_countable : Countable entry :=
  inj_countable' (λ e, match e with Named p => inl p | Temp d n => inr (d, n) end)
                 (λ s, match s with inl p => Named p | inr (d, n) => Temp d n end) _.
Next Obligation. by intros []. Qed.

Definition entry_parent (e : entry) : bytes :=
  match e with Named p => filepath_Dir p | Temp d _ => d end.

(** The contents of a file, and the contents that a crash leaves. *)
Record inode := Inode { i_data : bytes; i_stable : bytes }.

Record fs := Fs {
  fs_dir : gmap entry nat;    (** directory entries *)
  fs_sdir : gmap entry nat;   (** directory entries that a crash leaves *)
  fs_ino : gmap nat inode;
  fs_fds : gmap nat nat;      (** open descriptors *)
  fs_next : nat               (** the next inode and descriptor number *)
}.

(** What the next system calls do: succeed, write only [n] bytes, or fail
    (a write after [n] bytes).  After the end of the list they succeed. *)
Inductive outcome := OOk | OShort (n : nat) | OFail (n : nat).

Record world := World {
  w_ctx : option nat;     (** polls of [ctx.Err()] before the context is done *)
  w_os : list outcome;
  w_fs : fs
}.

Definition set_fs (f : fs) (w : world) : world := World (w_ctx w) (w_os w) f.

Lemma w_fs_World ctx os f : w_fs (World ctx os f) = f.
Proof. reflexivity. Qed.

(** [ctx.Err()]. *)
Definition ctx_Err : M world unit := λ w,
  match w_ctx w with
  | None => (Ok tt, w)
  | Some O => (Err ErrContext, w)
  | Some (S n) => (Ok tt, World (Some n) (w_os w) (w_fs w))
  end.

Definition next_outcome (w : world) : outcome * world :=
  match w_os w with
  | [] => (OOk, w)
  | o :: os => (o, World (w_ctx w) os (w_fs w))
  end.

(** A system call: fails without effect, or runs [k] on the file system. *)
Definition syscall {A} (k : fs → result A * fs) : M world A := λ w,
  match next_outcome w with
  | (OFail _, w') => (Err ErrOS, w')
  | (_, w') => let '(r, f) := k (w_fs w') in (r, set_fs f w')
  end.

Definition upd_ino (g : inode → inode) (i : nat) (f : fs) : fs :=
  Fs (fs_dir f) (fs_sdir f) (alter g i (fs_ino f)) (fs_fds f) (fs_next f).

(** Append to the file behind a descriptor. *)
Definition fs_append (data : bytes) (i : nat) (f : fs) : fs :=
  upd_ino (λ x, Inode (i_data x ++ data) (i_stable x)) i f.

(** [File.Write]: the number of bytes written, or an error after a part. *)
Definition file_Write (fd : nat) (data : bytes) : M world nat := λ w,
  let '(o, w') := next_outcome w in
  match fs_fds (w_fs w') !! fd with
  | None => (Err ErrClosed, w')
  | Some i =>
      match o with
      | OOk => (Ok (length data), set_fs (fs_append data i (w_fs w')) w')
      | OShort n =>
          (Ok (Nat.min n (length data)), set_fs (fs_append (take n data) i (w_fs w')) w')
      | OFail n => (Err ErrOS, set_fs (fs_append (take n data) i (w_fs w')) w')
      end
  end.

Definition with_fd {A} (fd : nat) (k : nat → fs → result A * fs) : fs → result A * fs := λ f,
  match fs_fds f !! fd with
  | None => (Err ErrClosed, f)
  | Some i => k i f
  end.

Definition file_Sync (fd : nat) : M world unit :=
  syscall (with_fd fd (λ i f, (Ok tt, upd_ino (λ x, Inode (i_data x) (i_data x)) i f))).

Definition file_Seek (fd : nat) : M world unit := syscall (with_fd fd (λ _ f, (Ok tt, f))).

Definition file_Truncate (fd : nat) (n : nat) : M world unit :=
  syscall (with_fd fd (λ i f, (Ok tt, upd_ino (λ x, Inode (take n (i_data x)) (i_stable x)) i f))).

Definition file_data (i : nat) (f : fs) : bytes :=
  match fs_ino f !! i with Some x => i_data x | None => [] end.

(** [File.Stat().Size()]. *)
Definition file_Size (fd : nat) : M world Z := syscall (with_fd fd (λ i f, (Ok (len (file_data i f)), f))).

(** [io.ReadAll] of a descriptor positioned at the start. *)
Definition file_ReadAll (fd : nat) : M world bytes := syscall (with_fd fd (λ i f, (Ok (file_data i f), f))).

(** [File.Close]: the descriptor is released even when an error is reported. *)
Definition file_Close (fd : nat) : M world unit := λ w,
  let '(o, w') := next_outcome w in
  let f := w_fs w' in
  match fs_fds f !! fd with
  | None => (Err ErrClosed, w')
  | Some _ =>
      (match o with OFail _ => Err ErrOS | _ => Ok tt end,
       set_fs (Fs (fs_dir f) (fs_sdir f) (fs_ino f) (delete fd (fs_fds f)) (fs_next f)) w')
  end.

(** [os.CreateTemp]: a new file under a name that did not exist. *)
Definition os_CreateTemp (dir : bytes) : M world (nat * entry) :=
  syscall (λ f,
    let n := fs_next f in
    (Ok (n, Temp dir n),
     Fs (<[Temp dir n := n]> (fs_dir f)) (fs_sdir f) (<[n := Inode [] []]> (fs_ino f))
        (<[n := n]> (fs_fds f)) (S n))).

(** [os.Open] and [os.OpenFile]; with [create], a missing file is made. *)
Definition os_Open (create : bool) (path : bytes) : M world nat :=
  syscall (λ f,
    let n := fs_next f in
    let p := Named (filepath_Clean path) in
    match fs_dir f !! p with
    | Some i => (Ok n, Fs (fs_dir f) (fs_sdir f) (fs_ino f) (<[n := i]> (fs_fds f)) (S n))
    | None =>
        if create then
          (Ok n, Fs (<[p := n]> (fs_dir f)) (fs_sdir f) (<[n := Inode [] []]> (fs_ino f))
                    (<[n := n]> (fs_fds f)) (S n))
        else (Err ErrNotExist, f)
    end).

(** The contents under a path, as the running process sees them. *)
Definition file_at (f : fs) (path : bytes) : option bytes :=
  match fs_dir f !! Named (filepath_Clean path) with
  | Some i => Some (file_data i f)
  | None => None
  end.

(** The contents under a path after a crash. *)
Definition stable_at (f : fs) (path : bytes) : option bytes :=
  match fs_sdir f !! Named (filepath_Clean path) with
  | Some i => match fs_ino f !! i with Some x => Some (i_stable x) | None => Some [] end
  | None => None
  end.

Definition os_ReadFile (path : bytes) : M world bytes :=
  syscall (λ f, match file_at f path with
                | Some d => (Ok d, f)
                | None => (Err ErrNotExist, f)
                end).

(** [os.Rename] of a temporary file onto a path. *)
Definition os_Rename (tmp : entry) (path : bytes) : M world unit :=
  syscall (λ f,
    match fs_dir f !! tmp with
    | None => (Err ErrNotExist, f)
    | Some i =>
        (Ok tt, Fs (<[Named (filepath_Clean path) := i]> (delete tmp (fs_dir f)))
                   (fs_sdir f) (fs_ino f) (fs_fds f) (fs_next f))
    end).

Definition os_Remove (e : entry) : M world unit :=
  syscall (λ f,
    match fs_dir f !! e with
    | None => (Err ErrNotExist, f)
    | Some _ => (Ok tt, Fs (delete e (fs_dir f)) (fs_sdir f) (fs_ino f) (fs_fds f) (fs_next f))
    end).

(** Make the entries of one directory durable. *)
Definition fs_sync_dir (dir : bytes) (f : fs) : fs :=
  Fs (fs_dir f)
     (filter (λ kv, entry_parent kv.1 = dir) (fs_dir f)
      ∪ filter (λ kv, entry_parent kv.1 ≠ dir) (fs_sdir f))
     (fs_ino f) (fs_fds f) (fs_next f).

(** ** journal.go: writeFull, atomicWrite, syncDirectory *)

(** Return the error of [m] after running [cleanup], whose own error is dropped. *)
Definition on_error {S A} (m : M S A) (cleanup : M S unit) : M S A :=
  attempt m (λ r, match r with
                  | Ok a => ret a
                  | Err e => attempt cleanup (λ _, throw e)
                  end).

(** The loop ends: every round that continues has written at least one byte. *)
Fixpoint writeFull_loop (fuel : nat) (fd : nat) (data : bytes) : M world unit :=
  match fuel with
  | O => throw ErrShortWrite
  | S f =>
      if bool_decide (data = []) then ret tt else
      written <- file_Write fd data ;
      if bool_decide (written = O) then throw ErrShortWrite
      else writeFull_loop f fd (drop written data)
  end.
Definition writeFull (fd : nat) (data : bytes) : M world unit :=
  writeFull_loop (S (length data)) fd data.

(** The directory is opened and synced; its close error is dropped. *)
Definition syncDirectory (dir : bytes) : M world unit :=
  syscall (λ f, (Ok tt, f)) ;;
  syscall (λ f, (Ok tt, fs_sync_dir dir f)).

Definition atomicWrite (path data : bytes) : M world unit :=
  ctx_Err ;;
  let directory := filepath_Dir path in
  '(tmp, tmpName) <- os_CreateTemp directory ;
  on_error
    (on_error (writeFull tmp data) (file_Close tmp) ;;
     on_error (file_Sync tmp) (file_Close tmp) ;;
     file_Close tmp ;;
     ctx_Err ;;
     os_Rename tmpName path)
    (os_Remove tmpName) ;;
  syncDirectory directory.

(** ** Facts *)

(** Numbers from [fs_next] on are unused; entries and descriptors have files. *)
Record fs_wf (f : fs) : Prop := {
  wf_fresh_ino : ∀ n, (fs_next f <= n)%nat → fs_ino f !! n = None;
  wf_fresh_fd : ∀ n, (fs_next f <= n)%nat → fs_fds f !! n = None;
  wf_fresh_tmp : ∀ d n, (fs_next f <= n)%nat → fs_dir f !! Temp d n = None;
  wf_dir : ∀ e i, fs_dir f !! e = Some i → is_Some (fs_ino f !! i);
  wf_sdir : ∀ e i, fs_sdir f !! e = Some i → is_Some (fs_ino f !! i);
  wf_fds : ∀ n i, fs_fds f !! n = Some i → is_Some (fs_ino f !! i)
}.

Definition fs_empty : fs := Fs ∅ ∅ ∅ ∅ 0.
Lemma fs_wf_empty : fs_wf fs_empty.
Proof. by split; intros; rewrite ?lookup_empty in *. Qed.

Lemma next_outcome_fs w o w' : next_outcome w = (o, w') → w_fs w' = w_fs w ∧ w_ctx w' = w_ctx w.
Proof. unfold next_outcome. destruct (w_os w); intros [= <- <-]; done. Qed.

Lemma ctx_Err_fs w r w' : ctx_Err w = (r, w') → w_fs w' = w_fs w ∧ w_os w' = w_os w.
Proof. unfold ctx_Err. by destruct (w_ctx w) as [[]|]; intros [= <- <-]. Qed.

(** A system call either leaves the file system alone or runs its effect. *)
Lemma syscall_inv {A} (k : fs → result A * fs) w r w' :
  syscall k w = (r, w') →
  (r = Err ErrOS ∧ w_fs w' = w_fs w) ∨ k (w_fs w) = (r, w_fs w').
Proof.
  unfold syscall. destruct (next_outcome w) as [o w1] eqn:E.
  apply next_outcome_fs in E as [E _]. rewrite E. intros H.
  destruct o; [right|right|left]; [destruct (k (w_fs w))..|]; injection H as <- <-; done.
Qed.

Lemma upd_ino_upd_ino g h i f : upd_ino g i (upd_ino h i f) = upd_ino (g ∘ h) i f.
Proof. unfold upd_ino. cbn. by rewrite alter_alter_eq. Qed.

Lemma fs_append_append a b i f : fs_append b i (fs_append a i f) = fs_append (a ++ b) i f.
Proof.
  unfold fs_append. rewrite upd_ino_upd_ino. unfold upd_ino. f_equal.
  apply alter_ext. intros x _. cbn. by rewrite app_assoc.
Qed.

Lemma fs_append_nil i f : fs_append [] i f = f.
Proof.
  unfold fs_append, upd_ino. destruct f. cbn. f_equal.
  apply alter_id. intros [d s] _. cbn. by rewrite app_nil_r.
Qed.

Lemma file_Write_inv fd data w r w' i :
  fs_fds (w_fs w) !! fd = Some i → file_Write fd data w = (r, w') →
  ∃ n, (n <= length data)%nat ∧ w_fs w' = fs_append (take n data) i (w_fs w) ∧
       match r with Ok m => m = n | Err _ => True end.
Proof.
  unfold file_Write. destruct (next_outcome w) as [o w1] eqn:E.
  apply next_outcome_fs in E as [E _]. rewrite E. intros -> H.
  destruct o as [|n|n]; injection H as <- <-.
  - exists (length data). by rewrite firstn_all.
  - exists (Nat.min n (length data)). rewrite <- take_take, firstn_all. split_and!; [lia|done|done].
  - exists (Nat.min n (length data)). rewrite <- take_take, firstn_all. split_and!; [lia|done|done].
Qed.

(** [writeFull] appends all of the data, or a prefix of it and an error. *)
Lemma writeFull_inv fd data w r w' i :
  fs_fds (w_fs w) !! fd = Some i → writeFull fd data w = (r, w') →
  ∃ n, (n <= length data)%nat ∧ w_fs w' = fs_append (take n data) i (w_fs w) ∧
       (r = Ok tt → n = length data).
Proof.
  unfold writeFull. intros Hfd. assert (length data < S (length data))%nat as Hf by lia.
  revert Hf Hfd. generalize (S (length data)) as fuel. intros fuel. revert data w.
  induction fuel as [|fuel IH]; intros data w Hf Hfd H; [lia|]. cbn in H.
  case_bool_decide as Hd.
  { subst. injection H as <- <-. exists O. cbn. by rewrite fs_append_nil. }
  unfold bind at 1 in H. destruct (file_Write fd data w) as [[n|e] w1] eqn:E;
    eapply file_Write_inv in E as (m & Hm & Hfs & ?); try done; cbn in *.
  - subst n. case_bool_decide as Hz; [injection H as <- <-; by exists m|].
    destruct data as [|b data]; [done|]. apply IH in H as (k & Hk & Hfs2 & Hok).
    + exists (m + k)%nat. rewrite length_drop in *. split_and!; [lia| |intros ->; specialize (Hok eq_refl); lia].
      rewrite Hfs2, Hfs, fs_append_append. f_equal. by rewrite take_take_drop.
    + rewrite length_drop. lia.
    + by rewrite Hfs.
  - injection H as <- <-. by exists m.
Qed.

(** A temporary file in the making. *)
Definition tmp_fs (f0 : fs) (dir d st : bytes) (opened : bool) : fs :=
  let n := fs_next f0 in
  Fs (<[Temp dir n := n]> (fs_dir f0)) (fs_sdir f0) (<[n := Inode d st]> (fs_ino f0))
     (if opened then <[n := n]> (fs_fds f0) else fs_fds f0) (S n).

(** The temporary file removed again (or, with [keep], left behind). *)
Definition abandoned (f0 : fs) (dir d st : bytes) (keep : bool) : fs :=
  let n := fs_next f0 in
  Fs (if keep then <[Temp dir n := n]> (fs_dir f0) else fs_dir f0) (fs_sdir f0)
     (<[n := Inode d st]> (fs_ino f0)) (fs_fds f0) (S n).

(** The synced file under its final name. *)
Definition committed (f0 : fs) (path data : bytes) : fs :=
  let n := fs_next f0 in
  Fs (<[Named (filepath_Clean path) := n]> (fs_dir f0)) (fs_sdir f0)
     (<[n := Inode data data]> (fs_ino f0)) (fs_fds f0) (S n).

Section temporary_file.
Context (f0 : fs) (Hwf : fs_wf f0) (dir : bytes).

Lemma os_CreateTemp_inv w r w' :
  w_fs w = f0 → os_CreateTemp dir w = (r, w') →
  (∃ e, r = Err e ∧ w_fs w' = f0) ∨
  (r = Ok (fs_next f0, Temp dir (fs_next f0)) ∧ w_fs w' = tmp_fs f0 dir [] [] true).
Proof.
  intros Hw [[-> E]|E]%syscall_inv; [left; rewrite E; eauto|right].
  rewrite Hw in E. by injection E as <- <-.
Qed.

Lemma fs_append_tmp data d st o :
  fs_append data (fs_next f0) (tmp_fs f0 dir d st o) = tmp_fs f0 dir (d ++ data) st o.
Proof. unfold fs_append, upd_ino, tmp_fs. cbn. f_equal. by rewrite alter_insert_eq. Qed.

Lemma tmp_fd d st : fs_fds (tmp_fs f0 dir d st true) !! fs_next f0 = Some (fs_next f0).
Proof. cbn. by rewrite lookup_insert_eq. Qed.

Lemma writeFull_tmp data d st w r w' :
  w_fs w = tmp_fs f0 dir d st true → writeFull (fs_next f0) data w = (r, w') →
  ∃ d', w_fs w' = tmp_fs f0 dir d' st true ∧ (r = Ok tt → d' = d ++ data).
Proof.
  intros Hw H. eapply writeFull_inv in H as (n & Hn & Hfs & Hok); [|rewrite Hw; apply tmp_fd].
  rewrite Hw, fs_append_tmp in Hfs. eexists. split; [done|]. intros ->%Hok. by rewrite firstn_all.
Qed.

Lemma file_Sync_tmp d st w r w' :
  w_fs w = tmp_fs f0 dir d st true → file_Sync (fs_next f0) w = (r, w') →
  (∃ e, r = Err e ∧ w_fs w' = w_fs w) ∨ (r = Ok tt ∧ w_fs w' = tmp_fs f0 dir d d true).
Proof.
  intros Hw [[-> E]|E]%syscall_inv; [left; eauto|right].
  unfold with_fd in E. rewrite Hw, tmp_fd in E. injection E as <- <-. split; [done|].
  unfold upd_ino, tmp_fs. cbn. f_equal. by rewrite alter_insert_eq.
Qed.

Lemma file_Close_tmp d st w r w' :
  w_fs w = tmp_fs f0 dir d st true → file_Close (fs_next f0) w = (r, w') →
  w_fs w' = tmp_fs f0 dir d st false.
Proof.
  intros Hw. unfold file_Close. destruct (next_outcome w) as [o w1] eqn:E.
  apply next_outcome_fs in E as [E _]. rewrite E, Hw, tmp_fd. intros [= <- <-].
  unfold tmp_fs. cbn. f_equal. rewrite delete_insert_id; [done|].
  by apply (wf_fresh_fd _ Hwf).
Qed.

Lemma os_Rename_tmp path d st w r w' :
  w_fs w = tmp_fs f0 dir d st false → os_Rename (Temp dir (fs_next f0)) path w = (r, w') →
  (∃ e, r = Err e ∧ w_fs w' = w_fs w) ∨
  (r = Ok tt ∧ w_fs w' = Fs (<[Named (filepath_Clean path) := fs_next f0]> (fs_dir f0)) (fs_sdir f0)
     (<[fs_next f0 := Inode d st]> (fs_ino f0)) (fs_fds f0) (S (fs_next f0))).
Proof.
  intros Hw [[-> E]|E]%syscall_inv; [left; eauto|]. rewrite Hw in E. cbn in E.
  rewrite lookup_insert_eq in E. injection E as <- <-. right. split; [done|]. f_equal.
  rewrite delete_insert_id; [done|]. by apply (wf_fresh_tmp _ Hwf).
Qed.

Lemma os_Remove_tmp d st w r w' :
  w_fs w = tmp_fs f0 dir d st false → os_Remove (Temp dir (fs_next f0)) w = (r, w') →
  ∃ keep, w_fs w' = abandoned f0 dir d st keep.
Proof.
  intros Hw [[-> E]|E]%syscall_inv; [exists true; by rewrite E|]. rewrite Hw in E. cbn in E.
  rewrite lookup_insert_eq in E. injection E as <- <-. exists false. unfold abandoned. cbn. f_equal.
  rewrite delete_insert_id; [done|]. by apply (wf_fresh_tmp _ Hwf).
Qed.

End temporary_file.

(** How a run of [atomicWrite] leaves the file system. *)
Inductive aw_result (f0 : fs) (path data : bytes) : result unit → fs → Prop :=
  | aw_nothing e : aw_result f0 path data (Err e) f0
  | aw_abandoned e d st keep :
      aw_result f0 path data (Err e) (abandoned f0 (filepath_Dir path) d st keep)
  | aw_unsynced e : aw_result f0 path data (Err e) (committed f0 path data)
  | aw_done : aw_result f0 path data (Ok tt) (fs_sync_dir (filepath_Dir path) (committed f0 path data)).

Lemma on_error_Err {S A} (m : M S A) c s e s1 :
  m s = (Err e, s1) → on_error m c s = (Err e, (c s1).2).
Proof. unfold on_error, attempt, throw. intros ->. by destruct (c s1). Qed.
Lemma on_error_Ok {S A} (m : M S A) c s a s1 :
  m s = (Ok a, s1) → on_error m c s = (Ok a, s1).
Proof. unfold on_error, attempt, ret. by intros ->. Qed.

Lemma on_error_Ok_inv {S A} (m : M S A) c s a s1 :
  on_error m c s = (Ok a, s1) → m s = (Ok a, s1).
Proof.
  destruct (m s) as [[b|e] s2] eqn:E.
  - by rewrite (on_error_Ok _ _ _ _ _ E).
  - by rewrite (on_error_Err _ _ _ _ _ E).
Qed.

Lemma on_error_Err_inv {S A} (m : M S A) c s e s2 :
  on_error m c s = (Err e, s2) → ∃ s1, m s = (Err e, s1) ∧ s2 = (c s1).2.
Proof.
  destruct (m s) as [[b|e'] s1] eqn:E.
  - by rewrite (on_error_Ok _ _ _ _ _ E).
  - rewrite (on_error_Err _ _ _ _ _ E). intros [= -> <-]. eauto.
Qed.

(** The part of [atomicWrite] that works on the temporary file. *)
Definition fill_and_rename (tmp : nat) (tmpName : entry) (path data : bytes) : M world unit :=
  on_error (writeFull tmp data) (file_Close tmp) ;;
  on_error (file_Sync tmp) (file_Close tmp) ;;
  file_Close tmp ;;
  ctx_Err ;;
  os_Rename tmpName path.

Lemma fill_and_rename_inv f0 dir path data w r w' :
  fs_wf f0 → w_fs w = tmp_fs f0 dir [] [] true →
  fill_and_rename (fs_next f0) (Temp dir (fs_next f0)) path data w = (r, w') →
  (∃ e d st, r = Err e ∧ w_fs w' = tmp_fs f0 dir d st false) ∨
  (r = Ok tt ∧ w_fs w' = committed f0 path data).
Proof.
  intros Hwf Hw H. unfold fill_and_rename in H. unfold bind in H at 1.
  destruct (writeFull (fs_next f0) data w) as [[[]|e] w1] eqn:E1;
    pose proof (writeFull_tmp f0 dir _ _ _ _ _ _ Hw E1) as (d1 & Hw1 & Hd1).
  2:{ rewrite (on_error_Err _ _ _ _ _ E1) in H. injection H as <- <-. left.
      destruct (file_Close (fs_next f0) w1) as [rc w2] eqn:E2. eapply file_Close_tmp in E2; eauto. }
  rewrite (on_error_Ok _ _ _ _ _ E1) in H. rewrite (Hd1 eq_refl) in Hw1. cbn in Hw1.
  unfold bind in H at 1. destruct (file_Sync (fs_next f0) w1) as [r2 w2] eqn:E2.
  pose proof (file_Sync_tmp f0 dir _ _ _ _ _ Hw1 E2) as [(e & -> & Hw2)|[-> Hw2]].
  { rewrite (on_error_Err _ _ _ _ _ E2) in H. injection H as <- <-. left.
    destruct (file_Close (fs_next f0) w2) as [rc w3] eqn:E3. rewrite Hw1 in Hw2.
    eapply file_Close_tmp in E3; eauto. }
  rewrite (on_error_Ok _ _ _ _ _ E2) in H. unfold bind in H at 1.
  destruct (file_Close (fs_next f0) w2) as [[[]|e] w3] eqn:E3;
    eapply file_Close_tmp in E3 as Hw3; eauto; [|injection H as <- <-; left; eauto].
  unfold bind in H. destruct (ctx_Err w3) as [[[]|e] w4] eqn:E4;
    apply ctx_Err_fs in E4 as [Hw4 _]; rewrite Hw3 in Hw4; [|injection H as <- <-; left; eauto].
  eapply os_Rename_tmp in H as [(e & -> & H)|[-> H]]; eauto.
  rewrite Hw4 in H. left; eauto.
Qed.

Lemma atomicWrite_inv path data w r w' :
  fs_wf (w_fs w) → atomicWrite path data w = (r, w') →
  aw_result (w_fs w) path data r (w_fs w').
Proof.
  intros Hwf H. unfold atomicWrite in H. unfold bind in H at 1.
  destruct (ctx_Err w) as [[[]|e] w1] eqn:E1; apply ctx_Err_fs in E1 as [Hw1 _];
    [|injection H as <- <-; rewrite Hw1; constructor].
  unfold bind in H at 1. destruct (os_CreateTemp (filepath_Dir path) w1) as [r2 w2] eqn:E2.
  apply (os_CreateTemp_inv (w_fs w1)) in E2 as [(e & -> & Hw2)|[-> Hw2]]; [| |done].
  { injection H as <- <-. rewrite Hw2, Hw1. constructor. }
  fold (fill_and_rename (fs_next (w_fs w1)) (Temp (filepath_Dir path) (fs_next (w_fs w1))) path data) in H.
  rewrite Hw1 in *. unfold bind in H at 1.
  destruct (fill_and_rename (fs_next (w_fs w)) (Temp (filepath_Dir path) (fs_next (w_fs w))) path data w2) as [r3 w3] eqn:E3.
  eapply fill_and_rename_inv in E3 as E3'; eauto.
  destruct E3' as [(e & d & st & -> & Hw3)|[-> Hw3]].
  - rewrite (on_error_Err _ _ _ _ _ E3) in H. injection H as <- <-.
    destruct (os_Remove (Temp (filepath_Dir path) (fs_next (w_fs w))) w3) as [r4 w4] eqn:E4.
    eapply os_Remove_tmp in E4 as [keep E4]; [|done..]. cbn. rewrite E4. constructor.
  - rewrite (on_error_Ok _ _ _ _ _ E3) in H. unfold syncDirectory, bind in H.
    destruct (syscall _ w3) as [r4 w4] eqn:E4.
    apply syscall_inv in E4 as [[-> E4]|[= <- E4]];
      [injection H as <- <-; rewrite E4, Hw3; constructor|].
    apply syscall_inv in H as [[-> H]|[= <- H]];
      [rewrite H|rewrite <- H]; rewrite <- E4, Hw3; constructor.
Qed.

(** ** Crashes *)

(** What a path may hold after a crash, as far as the system calls promise: its
    entry is the one last synced or the one the process saw, and a file that
    was written to since its last sync may hold anything. *)
Definition crash_at (f : fs) (path : bytes) (c : option bytes) : Prop :=
  let p := Named (filepath_Clean path) in
  ∃ oi, (oi = fs_sdir f !! p ∨ oi = fs_dir f !! p) ∧
  match oi with
  | None => c = None
  | Some i => ∃ d, c = Some d ∧ ∀ x, fs_ino f !! i = Some x → i_data x = i_stable x → d = i_stable x
  end.

Lemma ino_ne f0 oi x n :
  fs_wf f0 → fs_ino f0 !! oi = Some x → n = fs_next f0 → n ≠ oi.
Proof. intros Hwf H -> <-. by rewrite (wf_fresh_ino _ Hwf) in H. Qed.

(** A new inode and entries that the path does not see change nothing for it. *)
Lemma crash_at_grow f0 d' path c x n :
  fs_wf f0 → d' !! Named (filepath_Clean path) = fs_dir f0 !! Named (filepath_Clean path) →
  crash_at (Fs d' (fs_sdir f0) (<[fs_next f0 := x]> (fs_ino f0)) (fs_fds f0) n) path c →
  crash_at f0 path c.
Proof.
  intros Hwf Hd (oi & Hoi & H). cbn in *. rewrite Hd in Hoi. exists oi. split; [done|].
  destruct oi as [i|]; [|done]. destruct H as (d & -> & H). exists d. split; [done|].
  intros y Hy. apply H. rewrite lookup_insert_ne; [done|]. by eapply ino_ne.
Qed.

Lemma crash_at_committed f0 path data q c :
  fs_wf f0 → crash_at (committed f0 path data) q c →
  crash_at f0 q c ∨ (filepath_Clean q = filepath_Clean path ∧ c = Some data).
Proof.
  intros Hwf H. destruct (decide (filepath_Clean q = filepath_Clean path)) as [E|E].
  2:{ left. eapply crash_at_grow; [done| |done]. cbn. rewrite lookup_insert_ne; congruence. }
  destruct H as (oi & [->| ->] & H); unfold committed in H; cbn in H.
  - left. eexists. split; [by left|]. destruct (fs_sdir f0 !! _) as [i|] eqn:Ei; [|done].
    destruct H as (d & -> & H). exists d. split; [done|]. intros y Hy. apply H.
    rewrite lookup_insert_ne; [done|]. by eapply ino_ne.
  - right. rewrite E, lookup_insert_eq in H. destruct H as (d & -> & H). split; [done|].
    f_equal. eapply (H (Inode data data)); [|done]. by rewrite lookup_insert_eq.
Qed.

Lemma crash_at_sync_dir f dir q c : crash_at (fs_sync_dir dir f) q c → crash_at f q c.
Proof.
  intros (oi & Hoi & H). exists oi. split; [|done]. destruct Hoi as [->| ->]; [|by right].
  unfold fs_sync_dir. cbn. set (p := Named (filepath_Clean q)).
  destruct (decide (entry_parent p = dir)) as [E|E].
  - destruct (fs_dir f !! p) as [i|] eqn:Ei.
    + right. erewrite lookup_union_Some_l; [done|]. by apply map_lookup_filter_Some.
    + right. apply lookup_union_None. rewrite !map_lookup_filter_None. split; [by left|].
      right. intros x _. cbn. auto.
  - left. rewrite lookup_union_r; [|apply map_lookup_filter_None; right; intros x _; cbn; auto].
    destruct (fs_sdir f !! p) as [i|] eqn:Ei.
    + apply map_lookup_filter_Some. done.
    + apply map_lookup_filter_None. by left.
Qed.

(** Whatever fails during [atomicWrite], and wherever the machine stops, a
    crash finds at every path what it could have found before or, at the target,
    the whole new contents: never a mixture. *)
Lemma aw_crash_any path data f r f' q c :
  fs_wf f → aw_result f path data r f' → crash_at f' q c →
  crash_at f q c ∨ (filepath_Clean q = filepath_Clean path ∧ c = Some data).
Proof.
  intros Hwf H Hc. destruct H as [e|e d st keep|e|].
  - by left.
  - left. eapply crash_at_grow; [done| |done]. destruct keep; [|done]. by rewrite lookup_insert_ne.
  - by apply crash_at_committed.
  - apply crash_at_sync_dir in Hc. by apply crash_at_committed.
Qed.
Lemma atomicWrite_crash_any path data w r w' q c :
  fs_wf (w_fs w) → atomicWrite path data w = (r, w') → crash_at (w_fs w') q c →
  crash_at (w_fs w) q c ∨ (filepath_Clean q = filepath_Clean path ∧ c = Some data).
Proof. intros Hwf H%atomicWrite_inv; [|done]. by eapply aw_crash_any. Qed.

(** After a successful [atomicWrite] only the new contents can be found. *)
Lemma crash_at_durable f0 path data c :
  filepath_Clean path = path →
  crash_at (fs_sync_dir (filepath_Dir path) (committed f0 path data)) path c → c = Some data.
Proof.
  intros Hp (oi & Hoi & Hc). unfold committed, fs_sync_dir in *. cbn in *.
  assert (oi = Some (fs_next f0)) as ->.
  { destruct Hoi as [->| ->]; [|by rewrite lookup_insert_eq].
    erewrite lookup_union_Some_l; [done|]. apply map_lookup_filter_Some.
    rewrite lookup_insert_eq. cbn. by rewrite Hp. }
  destruct Hc as (d & -> & Hc). f_equal. eapply (Hc (Inode data data)); [|done].
  by rewrite lookup_insert_eq.
Qed.
Lemma atomicWrite_Ok_fs path data w w' u :
  fs_wf (w_fs w) → atomicWrite path data w = (Ok u, w') →
  w_fs w' = fs_sync_dir (filepath_Dir path) (committed (w_fs w) path data).
Proof. intros Hwf HA%atomicWrite_inv; [|done]. by inversion HA. Qed.

(** ** The view of the running process *)

Lemma file_data_fresh f0 i x j d s fd n :
  fs_wf f0 → fs_ino f0 !! i = Some j →
  file_data i (Fs d s (<[fs_next f0 := x]> (fs_ino f0)) fd n) = file_data i f0.
Proof.
  intros Hwf Hi. unfold file_data. cbn. rewrite lookup_insert_ne; [done|]. by eapply ino_ne.
Qed.

Lemma fs_wf_grow f0 d x :
  fs_wf f0 →
  (∀ e i, d !! e = Some i → i = fs_next f0 ∨ fs_dir f0 !! e = Some i) →
  (∀ dr n, (fs_next f0 < n)%nat → d !! Temp dr n = None) →
  fs_wf (Fs d (fs_sdir f0) (<[fs_next f0 := x]> (fs_ino f0)) (fs_fds f0) (S (fs_next f0))).
Proof.
  intros Hwf Hd Ht.
  assert (∀ i, is_Some (fs_ino f0 !! i) → is_Some (<[fs_next f0 := x]> (fs_ino f0) !! i)) as Hi.
  { intros i [y Hy]. rewrite lookup_insert_ne; [by eexists|]. by eapply ino_ne. }
  split; cbn.
  - intros n Hn. rewrite lookup_insert_ne by lia. apply (wf_fresh_ino _ Hwf). lia.
  - intros n Hn. apply (wf_fresh_fd _ Hwf). lia.
  - intros dr n Hn. apply Ht. lia.
  - intros e i [->|H]%Hd; [rewrite lookup_insert_eq; by eexists|]. by eapply Hi, wf_dir.
  - intros e i H. by eapply Hi, wf_sdir.
  - intros n i H. by eapply Hi, wf_fds.
Qed.

Lemma fs_wf_abandoned f0 dir d st keep : fs_wf f0 → fs_wf (abandoned f0 dir d st keep).
Proof.
  intros Hwf. apply fs_wf_grow; [done|..]; destruct keep.
  - intros e i. rewrite lookup_insert_Some. naive_solver.
  - auto.
  - intros dr n Hn. rewrite lookup_insert_ne; [|intros [=]; lia]. apply (wf_fresh_tmp _ Hwf). lia.
  - intros dr n Hn. apply (wf_fresh_tmp _ Hwf). lia.
Qed.

Lemma fs_wf_committed f0 path data : fs_wf f0 → fs_wf (committed f0 path data).
Proof.
  intros Hwf. apply fs_wf_grow; [done|..].
  - intros e i. rewrite lookup_insert_Some. naive_solver.
  - intros dr n Hn. rewrite lookup_insert_ne by done. apply (wf_fresh_tmp _ Hwf). lia.
Qed.

Lemma fs_wf_sync_dir dir f : fs_wf f → fs_wf (fs_sync_dir dir f).
Proof.
  intros Hwf. split; try apply Hwf. cbn. intros e i.
  rewrite lookup_union_Some_raw, !map_lookup_filter_Some. intros [[H _]|[_ [H _]]].
  - by eapply wf_dir.
  - by eapply wf_sdir.
Qed.

(** The part of the file system that a process which holds [f0]'s descriptors
    still relies on: they are open, and their files are unchanged. *)
Record fs_keeps (f0 f : fs) : Prop := {
  keeps_wf : fs_wf f;
  keeps_fds : fs_fds f = fs_fds f0;
  keeps_ino : ∀ i x, fs_ino f0 !! i = Some x → fs_ino f !! i = Some x
}.

Lemma fs_keeps_refl f : fs_wf f → fs_keeps f f.
Proof. by split. Qed.
Lemma fs_keeps_grow f0 d x :
  fs_wf f0 →
  let f := Fs d (fs_sdir f0) (<[fs_next f0 := x]> (fs_ino f0)) (fs_fds f0) (S (fs_next f0)) in
  fs_wf f → fs_keeps f0 f.
Proof.
  intros Hwf f Hf. split; [done..|]. intros i y Hy. cbn. rewrite lookup_insert_ne; [done|].
  by apply (ino_ne f0 i y).
Qed.
Lemma fs_keeps_sync_dir f0 dir f : fs_keeps f0 f → fs_keeps f0 (fs_sync_dir dir f).
Proof. intros [? ? ?]. split; [by apply fs_wf_sync_dir|done..]. Qed.

Lemma file_at_grow f0 d x q :
  fs_wf f0 → d !! Named (filepath_Clean q) = fs_dir f0 !! Named (filepath_Clean q) →
  file_at (Fs d (fs_sdir f0) (<[fs_next f0 := x]> (fs_ino f0)) (fs_fds f0) (S (fs_next f0))) q
  = file_at f0 q.
Proof.
  intros Hwf H. unfold file_at. cbn. rewrite H. destruct (fs_dir f0 !! _) as [i|] eqn:Ei; [|done].
  destruct (wf_dir _ Hwf _ _ Ei) as [y Hy]. f_equal. by eapply file_data_fresh.
Qed.

Lemma file_at_committed f0 path data q :
  fs_wf f0 → file_at (committed f0 path data) q =
  if bool_decide (filepath_Clean q = filepath_Clean path) then Some data else file_at f0 q.
Proof.
  intros Hwf. case_bool_decide as E.
  - unfold file_at, file_data, committed. cbn. by rewrite E, !lookup_insert_eq.
  - apply file_at_grow; [done|]. rewrite lookup_insert_ne; congruence.
Qed.

(** [atomicWrite] replaces the target or leaves every path as it was; open
    descriptors and the files behind them stay as they were. *)
Lemma aw_view path data f r f' :
  fs_wf f → aw_result f path data r f' →
  fs_keeps f f' ∧
  ∃ finished : bool, (r = Ok tt → finished = true) ∧
     ∀ q, file_at f' q =
          if finished && bool_decide (filepath_Clean q = filepath_Clean path) then Some data
          else file_at f q.
Proof.
  intros Hwf H. destruct H as [e|e d st keep|e|].
  - split; [by apply fs_keeps_refl|]. by exists false.
  - split; [by apply fs_keeps_grow, fs_wf_abandoned|]. exists false. split; [done|]. intros q. cbn.
    apply file_at_grow; [done|]. destruct keep; [by rewrite lookup_insert_ne|done].
  - split; [by apply fs_keeps_grow, fs_wf_committed|]. exists true. split; [done|]. intros q.
    by apply file_at_committed.
  - split; [by apply fs_keeps_sync_dir, fs_keeps_grow, fs_wf_committed|]. exists true.
    split; [done|]. intros q. by apply file_at_committed.
Qed.
Lemma atomicWrite_view path data w r w' :
  fs_wf (w_fs w) → atomicWrite path data w = (r, w') →
  fs_keeps (w_fs w) (w_fs w') ∧
  ∃ finished : bool, (r = Ok tt → finished = true) ∧
     ∀ q, file_at (w_fs w') q =
          if finished && bool_decide (filepath_Clean q = filepath_Clean path) then Some data
          else file_at (w_fs w) q.
Proof. intros Hwf H%atomicWrite_inv; [|done]. by apply aw_view. Qed.

(** Without faults or cancellation [atomicWrite] succeeds. *)
Definition quiet (w : world) : Prop := w_ctx w = None ∧ w_os w = [].
#[export] Instance quiet_dec w : Decision (quiet w).
Proof. unfold quiet. solve_decision. Defined.

Lemma quiet_set_fs f w : quiet w → quiet (set_fs f w).
Proof. done. Qed.
Lemma quiet_ctx w : quiet w → ctx_Err w = (Ok tt, w).
Proof. unfold ctx_Err. by intros [-> _]. Qed.
Lemma quiet_next w : quiet w → next_outcome w = (OOk, w).
Proof. unfold next_outcome. by intros [_ ->]. Qed.
Lemma quiet_syscall {A} (k : fs → result A * fs) w :
  quiet w → syscall k w = ((k (w_fs w)).1, set_fs (k (w_fs w)).2 w).
Proof. intros Hq. unfold syscall. rewrite (quiet_next _ Hq). by destruct (k (w_fs w)). Qed.

Lemma writeFull_quiet fd data w i :
  quiet w → fs_fds (w_fs w) !! fd = Some i →
  writeFull fd data w = (Ok tt, set_fs (fs_append data i (w_fs w)) w).
Proof.
  intros Hq Hfd. unfold writeFull. destruct data as [|b data].
  { cbn. rewrite fs_append_nil. by destruct w. }
  cbn [writeFull_loop]. rewrite bool_decide_eq_false_2 by done.
  unfold bind, file_Write. rewrite (quiet_next _ Hq), Hfd. rewrite bool_decide_eq_false_2 by done.
  rewrite drop_all. reflexivity.
Qed.

Lemma atomicWrite_quiet path data w :
  fs_wf (w_fs w) → quiet w →
  atomicWrite path data w =
  (Ok tt, set_fs (fs_sync_dir (filepath_Dir path) (committed (w_fs w) path data)) w).
Proof.
  intros Hwf Hq. unfold atomicWrite. unfold bind at 1. rewrite (quiet_ctx _ Hq).
  unfold bind at 1. unfold os_CreateTemp at 1. rewrite (quiet_syscall _ _ Hq). cbn [fst snd].
  set (w1 := set_fs _ w). assert (quiet w1) as Hq1 by done.
  fold (fill_and_rename (fs_next (w_fs w)) (Temp (filepath_Dir path) (fs_next (w_fs w))) path data).
  assert (fill_and_rename (fs_next (w_fs w)) (Temp (filepath_Dir path) (fs_next (w_fs w))) path data w1
          = (Ok tt, set_fs (committed (w_fs w) path data) w)) as Ef.
  { unfold fill_and_rename. unfold bind at 1.
    rewrite (on_error_Ok _ _ _ _ _ (writeFull_quiet _ data _ _ Hq1 (tmp_fd (w_fs w) _ [] []))).
    unfold bind at 1. erewrite on_error_Ok.
    2:{ unfold file_Sync. rewrite quiet_syscall by done. unfold with_fd. cbn.
        rewrite lookup_insert_eq. reflexivity. }
    unfold bind at 1. unfold file_Close. rewrite quiet_next by done. cbn. rewrite lookup_insert_eq.
    unfold bind. rewrite quiet_ctx by done. unfold os_Rename. rewrite quiet_syscall by done. cbn.
    rewrite lookup_insert_eq. cbn. f_equal. unfold committed, upd_ino. cbn.
    rewrite !alter_insert_eq. cbn. rewrite !delete_insert_id; [done| |].
    - by apply (wf_fresh_fd _ Hwf).
    - by apply (wf_fresh_tmp _ Hwf). }
  unfold bind at 1. rewrite (on_error_Ok _ _ _ _ _ Ef). unfold syncDirectory, bind.
  by rewrite !quiet_syscall by done.
Qed.

(** ** Properties *)

(** C10: Durable writes are all or nothing.  Whatever system call fails during
    [atomicWrite], and wherever the machine stops, a later crash finds every
    path as it could have been found before or, at the target, the whole new
    contents; the running process sees the same; and after a success the new
    contents are what every crash finds. *)
Theorem atomicWrite_crash_safe path data w r w' (Hwf : fs_wf (w_fs w))
    (Hpath : filepath_Clean path = path) (Hrun : atomicWrite path data w = (r, w')) :
  (∀ q c, crash_at (w_fs w') q c →
     crash_at (w_fs w) q c ∨ (filepath_Clean q = path ∧ c = Some data)) ∧
  (∀ q, file_at (w_fs w') q = file_at (w_fs w) q ∨
        (filepath_Clean q = path ∧ file_at (w_fs w') q = Some data)) ∧
  (r = Ok tt → file_at (w_fs w') path = Some data ∧ ∀ c, crash_at (w_fs w') path c → c = Some data).
Proof.
  split_and!.
  - intros q c Hc. rewrite <- Hpath. by eapply atomicWrite_crash_any.
  - intros q. destruct (atomicWrite_view _ _ _ _ _ Hwf Hrun) as (_ & b & _ & Hv). rewrite Hv, Hpath.
    destruct b; cbn; [|by left]. case_bool_decide; auto.
  - intros ->. destruct (atomicWrite_view _ _ _ _ _ Hwf Hrun) as (_ & b & Hb & Hv). split.
    + rewrite Hv, (Hb eq_refl). by rewrite bool_decide_eq_true_2.
    + intros c. rewrite (atomicWrite_Ok_fs _ _ _ _ _ Hwf Hrun). by apply crash_at_durable.
Qed.

Definition ex_world (os : list outcome) : world := World None os fs_empty.

Lemma atomicWrite_crash_safe_witness :
  (∀ c, crash_at (w_fs (atomicWrite (lit "state/cp") (lit "new") (ex_world [OOk; OOk; OFail 0])).2)
          (lit "state/cp") c → crash_at fs_empty (lit "state/cp") c ∨ c = Some (lit "new")) ∧
  ∀ c, crash_at (w_fs (atomicWrite (lit "state/cp") (lit "new") (ex_world [])).2) (lit "state/cp") c →
       c = Some (lit "new").
Proof.
  split.
  - intros c Hc.
    destruct (atomicWrite_crash_safe (lit "state/cp") (lit "new") (ex_world [OOk; OOk; OFail 0])
      (atomicWrite (lit "state/cp") (lit "new") (ex_world [OOk; OOk; OFail 0])).1 _ fs_wf_empty
      eq_refl (surjective_pairing _)) as [Hcrash _].
    destruct (Hcrash _ _ Hc) as [?|[_ ?]]; auto.
  - apply (atomicWrite_crash_safe (lit "state/cp") (lit "new") (ex_world []) (Ok tt)); [exact fs_wf_empty|reflexivity|vm_compute; reflexivity|reflexivity].
Defined.
