(* ===== verification/Paths.v ===== *)
(** * Paths

    Facts about the path functions of [Os] (path/filepath on Unix): [Clean] is
    idempotent, and a plain name joined to a directory is a path of its own in
    that directory. *)
From S2P Require Import Prelude Go Os.

(** A component that [Clean] keeps as it is. *)
Definition plain (c : bytes) : Prop := slash ∉ c ∧ c ≠ [] ∧ c ≠ dot ∧ c ≠ dotdot.
(** A component of a cleaned path. *)
Definition part (c : bytes) : Prop := slash ∉ c ∧ c ≠ [] ∧ c ≠ dot.

Lemma dotdot_part : part dotdot.
Proof. split_and!; [|done|done]. unfold dotdot, slash. decide_now. Qed.

(** ** Splitting and joining *)

Lemma split_slash_app acc p q : split_slash acc (p ++ slash :: q) = split_slash acc p ++ split_slash [] q.
Proof.
  revert acc. induction p as [|c p IH]; intros acc; cbn [app split_slash].
  - by rewrite decide_True.
  - destruct (decide (c = slash)); [by rewrite IH|apply IH].
Qed.
Lemma split_slash_plain acc p : slash ∉ p → split_slash acc p = [reverse acc ++ p].
Proof.
  revert acc. induction p as [|c p IH]; intros acc Hp; cbn [split_slash]; [by rewrite app_nil_r|].
  apply not_elem_of_cons in Hp as [Hc Hp]. rewrite decide_False by done. rewrite IH by done.
  by rewrite reverse_cons, <- app_assoc.
Qed.
Lemma split_slash_parts acc p : slash ∉ acc → Forall (λ c, slash ∉ c) (split_slash acc p).
Proof.
  revert acc. induction p as [|c p IH]; intros acc Ha; cbn [split_slash].
  - apply Forall_singleton. by rewrite elem_of_reverse.
  - destruct (decide (c = slash)) as [->|Hc].
    + apply Forall_cons. split; [by rewrite elem_of_reverse|]. apply IH. apply not_elem_of_nil.
    + apply IH. by apply not_elem_of_cons.
Qed.
Lemma join_slash_snoc cs c : join_slash (cs ++ [c]) = match cs with [] => c | _ => join_slash cs ++ slash :: c end.
Proof.
  induction cs as [|x [|y cs] IH]; [done|done|]. cbn [app join_slash] in *. rewrite IH. by rewrite <- app_assoc.
Qed.
Lemma split_join cs : cs ≠ [] → Forall (λ c, slash ∉ c) cs → split_slash [] (join_slash cs) = cs.
Proof.
  induction cs as [|x [|y cs] IH]; [done| |]; intros _ Hf; apply Forall_cons in Hf as [Hx Hf].
  - cbn. by rewrite split_slash_plain.
  - change (join_slash (x :: y :: cs)) with (x ++ slash :: join_slash (y :: cs)).
    rewrite split_slash_app, IH by done. by rewrite split_slash_plain.
Qed.

(** ** Cleaned components *)

(** Components that [clean_parts] leaves alone: [..] only in front, and only
    in a path that is not rooted. *)
Definition cleaned (rooted : bool) (cs : list bytes) : Prop :=
  ∃ n cs', cs = replicate n dotdot ++ cs' ∧ Forall plain cs' ∧ (rooted = true → n = O).

Lemma plain_part c : plain c → part c.
Proof. by intros (? & ? & ? & _). Qed.
Lemma cleaned_parts r cs : cleaned r cs → Forall part cs.
Proof.
  intros (n & cs' & -> & Hp & _). apply Forall_app. split; [|eapply Forall_impl; [exact Hp|apply plain_part]].
  apply Forall_replicate, dotdot_part.
Qed.

Lemma clean_plain r out cs : Forall plain cs → clean_parts r out cs = reverse out ++ cs.
Proof.
  intros Hp. revert out. induction Hp as [|c cs (_ & Hn & Hd & Hdd) Hp IH]; intros out; cbn [clean_parts]; [by rewrite app_nil_r|].
  rewrite decide_False by naive_solver. rewrite decide_False by done. by rewrite IH, reverse_cons, <- app_assoc.
Qed.
Lemma clean_app r out cs c : plain c → clean_parts r out (cs ++ [c]) = clean_parts r out cs ++ [c].
Proof.
  intros Hc. revert out. induction cs as [|x cs IH]; intros out; cbn [app].
  - rewrite clean_plain by by apply Forall_singleton. done.
  - cbn [clean_parts]. repeat case_decide; try apply IH. destruct out as [|y out]; [destruct r|case_decide]; apply IH.
Qed.
Lemma clean_empty r out cs : clean_parts r out (cs ++ [[]]) = clean_parts r out cs.
Proof.
  revert out. induction cs as [|x cs IH]; intros out; cbn [app clean_parts].
  - by rewrite decide_True by by left.
  - repeat case_decide; try apply IH. destruct out as [|y out]; [destruct r|case_decide]; apply IH.
Qed.
Lemma clean_cleaned r cs : cleaned r cs → clean_parts r [] cs = cs.
Proof.
  intros (n & cs' & -> & Hp & Hr). destruct r; [rewrite Hr by done; cbn; by rewrite clean_plain|]. clear Hr.
  enough (∀ m, clean_parts false (replicate m dotdot) (replicate n dotdot ++ cs') = replicate (m + n) dotdot ++ cs') as H by apply (H O).
  induction n as [|n IH]; intros m; cbn [replicate app].
  - rewrite clean_plain, reverse_replicate by done. by rewrite Nat.add_0_r.
  - cbn [clean_parts]. rewrite decide_False by (intros [?|?]; done). rewrite decide_True by done.
    assert (clean_parts false (replicate (S m) dotdot) (replicate n dotdot ++ cs') = replicate (m + S n) dotdot ++ cs') as E.
    { rewrite IH. f_equal. f_equal. lia. }
    destruct m as [|m]; cbn [replicate]; [exact E|]. rewrite decide_True by done. exact E.
Qed.

Lemma clean_parts_cleaned r out cs :
  cleaned r (reverse out) → Forall (λ c, slash ∉ c) cs → cleaned r (clean_parts r out cs).
Proof.
  intros Ho Hf. revert out Ho. induction Hf as [|c cs Hc Hf IH]; intros out Ho; [done|]. cbn [clean_parts].
  destruct (decide (c = [] ∨ c = dot)) as [|Hn]; [by apply IH|]. destruct (decide (c = dotdot)) as [->|Hdd].
  - destruct out as [|x out].
    + destruct r; apply IH; [done|]. exists 1%nat, []. by split_and!; [|apply Forall_nil_2|].
    + rewrite reverse_cons in Ho. destruct Ho as (n & cs' & E & Hp & Hr). destruct (decide (x = dotdot)) as [->|Hx].
      * apply IH. rewrite !reverse_cons. destruct cs' as [|y cs' _] using rev_ind.
        -- exists (S n), []. rewrite E, app_nil_r, app_nil_r. split_and!; [by rewrite replicate_S_end|apply Forall_nil_2|].
           intros Er. specialize (Hr Er). subst n. cbn in E. by destruct (reverse out).
        -- exfalso. rewrite app_assoc in E. apply app_inj_tail in E as [_ <-].
           apply Forall_app in Hp as [_ Hp]. apply Forall_inv in Hp as (_ & _ & _ & Hp). by apply Hp.
      * apply IH. destruct cs' as [|y cs' _] using rev_ind.
        -- exfalso. rewrite app_nil_r in E. destruct n as [|n]; [by destruct (reverse out)|].
           rewrite replicate_S_end in E. apply app_inj_tail in E as [_ ->]. done.
        -- rewrite app_assoc in E. apply app_inj_tail in E as [-> ->]. exists n, cs'. apply Forall_app in Hp as [Hp _]. done.
  - apply IH. rewrite reverse_cons. destruct Ho as (n & cs' & -> & Hp & Hr). exists n, (cs' ++ [c]).
    split_and!; [by rewrite app_assoc| |done]. apply Forall_app. split; [done|]. apply Forall_singleton. split_and!; naive_solver.
Qed.

(** ** Clean *)

Definition is_rooted (p : bytes) : bool := match p with c :: _ => bool_decide (c = slash) | [] => false end.
Definition parts_of (p : bytes) : list bytes := clean_parts (is_rooted p) [] (split_slash [] p).
Definition render (rooted : bool) (cs : list bytes) : bytes :=
  if rooted then slash :: join_slash cs else if bool_decide (join_slash cs = []) then dot else join_slash cs.

Lemma Clean_render p : filepath_Clean p = render (is_rooted p) (parts_of p).
Proof. reflexivity. Qed.
Lemma parts_of_cleaned p : cleaned (is_rooted p) (parts_of p).
Proof.
  apply clean_parts_cleaned; [|apply split_slash_parts, not_elem_of_nil]. exists O, []. by split_and!; [|apply Forall_nil_2|].
Qed.
Lemma join_nonempty cs : cs ≠ [] → Forall part cs → ∃ c p, join_slash cs = c :: p ∧ c ≠ slash.
Proof.
  destruct cs as [|x cs]; [done|]. intros _ (Hx & Hn & _)%Forall_inv. destruct x as [|b x]; [done|].
  apply not_elem_of_cons in Hx as [Hb _]. destruct cs; cbn; eauto.
Qed.

(** Cleaning a rendered path, with or without a trailing slash. *)
Lemma parts_render r cs : cleaned r cs → is_rooted (render r cs) = r ∧ parts_of (render r cs) = cs.
Proof.
  intros Hc. pose proof (cleaned_parts _ _ Hc) as Hp. pose proof (clean_cleaned _ _ Hc) as He.
  assert (Forall (λ c, slash ∉ c) cs) as Hs by (eapply Forall_impl; [exact Hp|]; by intros c []).
  unfold render, parts_of. destruct r; cbn [is_rooted].
  - rewrite bool_decide_eq_true_2 by done. split; [done|]. cbn [split_slash]. rewrite decide_True by done.
    cbn [clean_parts]. rewrite decide_True by by left. destruct cs as [|x cs]; [done|]. by rewrite split_join.
  - destruct cs as [|x cs]; [done|]. destruct (join_nonempty (x :: cs)) as (c & p & Ej & Hcs); [done..|].
    rewrite bool_decide_eq_false_2 by (by rewrite Ej). rewrite Ej at 1 2. cbn [is_rooted].
    rewrite bool_decide_eq_false_2 by done. split; [done|]. by rewrite split_join.
Qed.
Lemma Clean_idem p : filepath_Clean (filepath_Clean p) = filepath_Clean p.
Proof.
  rewrite (Clean_render p). destruct (parts_render _ _ (parts_of_cleaned p)) as [Er Ep].
  rewrite Clean_render, Er, Ep. done.
Qed.

(** ** A name in a directory *)

Lemma is_rooted_app d q : d ≠ [] → is_rooted (d ++ q) = is_rooted d.
Proof. by destruct d. Qed.
Lemma parts_of_join d c : d ≠ [] → plain c → parts_of (d ++ slash :: c) = parts_of d ++ [c].
Proof.
  intros Hd Hc. unfold parts_of. rewrite is_rooted_app by done. rewrite split_slash_app, (split_slash_plain [] c) by apply Hc.
  cbn. by apply clean_app.
Qed.
Lemma Join_render d c : d ≠ [] → plain c → filepath_Join d c = render (is_rooted d) (parts_of d ++ [c]).
Proof.
  intros Hd Hc. unfold filepath_Join. rewrite decide_False by done. rewrite Clean_render.
  rewrite is_rooted_app, parts_of_join by done. done.
Qed.
Lemma Join_clean d c : d ≠ [] → plain c → filepath_Clean (filepath_Join d c) = filepath_Join d c.
Proof. intros Hd Hc. unfold filepath_Join. rewrite decide_False by done. apply Clean_idem. Qed.

(** What stands in front of the name. *)
Definition dir_prefix (d : bytes) : bytes :=
  (if is_rooted d then [slash] else []) ++ match parts_of d with [] => [] | cs => join_slash cs ++ [slash] end.
Lemma Join_prefix d c : d ≠ [] → plain c → filepath_Join d c = dir_prefix d ++ c.
Proof.
  intros Hd Hc. rewrite Join_render by done. unfold render, dir_prefix. rewrite join_slash_snoc. destruct Hc as (_ & Hn & _).
  destruct (is_rooted d); destruct (parts_of d) as [|x cs]; try done.
  - by rewrite <- !app_assoc.
  - by rewrite bool_decide_eq_false_2.
  - rewrite bool_decide_eq_false_2; [by rewrite <- !app_assoc|]. by intros []%app_eq_nil.
Qed.
Lemma Join_inj d c c' : d ≠ [] → plain c → plain c' → filepath_Join d c = filepath_Join d c' → c = c'.
Proof. intros Hd Hc Hc'. rewrite !Join_prefix by done. by intros ?%app_inv_head. Qed.

Lemma through_last_app acc seen p q :
  slash ∉ q → through_last_slash acc seen (p ++ slash :: q) = reverse acc ++ p ++ [slash].
Proof.
  intros Hq. assert (∀ a s, through_last_slash a s q = s) as Hs.
  { revert Hq. induction q as [|c q IH]; intros Hq a s; cbn; [done|]. apply not_elem_of_cons in Hq as [Hc Hq].
    rewrite decide_False by done. by apply IH. }
  revert acc seen. induction p as [|c p IH]; intros acc seen; cbn [app through_last_slash].
  - rewrite decide_True by done. by rewrite Hs, reverse_cons.
  - destruct (decide (c = slash)); rewrite IH, reverse_cons, <- app_assoc; done.
Qed.
Lemma dir_prefix_end d : dir_prefix d = [] ∨ ∃ p, dir_prefix d = p ++ [slash].
Proof.
  unfold dir_prefix. destruct (is_rooted d); destruct (parts_of d) as [|x cs]; cbn [app]; eauto.
  - right. by exists [].
  - right. by exists (slash :: join_slash (x :: cs)).
Qed.

(** The last component of a path. *)
Definition base_name (p : bytes) : bytes := List.last (split_slash [] p) [].
Lemma base_Join d c : d ≠ [] → plain c → base_name (filepath_Join d c) = c.
Proof.
  intros Hd Hc. rewrite Join_prefix by done. unfold base_name. destruct (dir_prefix_end d) as [-> |[p ->]]; cbn [app].
  - by rewrite split_slash_plain by apply Hc.
  - rewrite <- app_assoc. cbn [app]. rewrite split_slash_app, (split_slash_plain [] c) by apply Hc. apply List.last_last.
Qed.
Lemma Dir_Join d c : d ≠ [] → plain c → filepath_Dir (filepath_Join d c) = filepath_Clean d.
Proof.
  intros Hd Hc. unfold filepath_Dir. rewrite Join_prefix by done.
  assert (through_last_slash [] [] (dir_prefix d ++ c) = dir_prefix d) as ->.
  { destruct (dir_prefix_end d) as [-> |[p ->]]; cbn [app].
    - destruct Hc as (Hc & _). clear Hd. revert Hc. generalize (@nil byte) at 1 as acc.
      induction c as [|b c IH]; intros acc Hc; cbn; [done|]. apply not_elem_of_cons in Hc as [Hb Hc].
      rewrite decide_False by done. by apply IH.
    - rewrite <- app_assoc. cbn [app]. rewrite through_last_app by apply Hc. done. }
  rewrite (Clean_render d), Clean_render. pose proof (parts_of_cleaned d) as Hcl.
  pose proof (cleaned_parts _ _ Hcl) as Hp. pose proof (clean_cleaned _ _ Hcl) as He.
  assert (Forall (λ c, slash ∉ c) (parts_of d)) as Hs by (eapply Forall_impl; [exact Hp|]; by intros x []).
  unfold dir_prefix. destruct (is_rooted d) eqn:Er.
  - destruct (parts_of d) as [|x cs] eqn:Ec; [done|]. f_equal. unfold parts_of at 1. cbn [app is_rooted].
    rewrite bool_decide_eq_true_2 by done. cbn [split_slash]. rewrite decide_True by done. cbn [reverse rev_append clean_parts].
    rewrite decide_True by by left. rewrite split_slash_app, split_join by done. cbn [split_slash]. by rewrite clean_empty.
  - destruct (parts_of d) as [|x cs] eqn:Ec; [done|]. cbn [app].
    destruct (join_nonempty (x :: cs)) as (b & p & Ej & Hb); [done..|].
    assert (is_rooted (join_slash (x :: cs) ++ [slash]) = false) as Er'.
    { rewrite Ej. cbn. by rewrite bool_decide_eq_false_2. }
    rewrite Er'. f_equal. unfold parts_of. rewrite Er', split_slash_app, split_join by done. cbn [split_slash]. by rewrite clean_empty.
Qed.
