(* ===== verification/Model.v ===== *)
(** * Lifecycle records and the logical state

    internal/lifecycle/model.go: limits, versions, record validation, the
    classification of a record against the current one, and the store of the
    newest record per logical key.

    Abstract specification: for the records a replica has seen, the store holds
    under each key the valid record of the greatest version ([is_latest]).  The
    theorems show that [Apply] implements it for every order and multiplicity
    of delivery, so replicas that saw the same records agree. *)
From stdpp Require Import sorting.
From S2P Require Import Prelude Go Bits Text Json.

(** [unicode.IsPrint]: its tables are not part of the repository, so the
    predicate on code points is an argument of the model. *)
Class UnicodePrint := unicode_IsPrint : Z → bool.

(** The ASCII part, for concrete runs. *)
Definition ascii_print : UnicodePrint := in_range 32 126.

Definition DefaultMaxNamespaceBytes : Z := 128.
Definition DefaultMaxLogicalKeyBytes : Z := 1024.
Definition DefaultMaxAuthorityIDBytes : Z := 128.
Definition DefaultMaxRecordBytes : Z := 65536.
Definition DefaultMaxCheckpointBytes : Z := 67108864.
Definition DefaultMaxJournalBytes : Z := 67108864.
Definition DefaultMaxJournalEntries : Z := 65536.

(** ** Limits *)

Record Limits := mkLimits {
  MaxNamespaceBytes : Z;
  MaxLogicalKeyBytes : Z;
  MaxAuthorityIDBytes : Z;
  MaxRecordBytes : Z;
  MaxCheckpointBytes : Z
}.

(** A non-positive option is replaced by its default. *)
Definition or_default (z d : Z) : Z := if z <=? 0 then d else z.

Definition normalized (l : Limits) : Limits :=
  mkLimits (or_default (MaxNamespaceBytes l) DefaultMaxNamespaceBytes)
           (or_default (MaxLogicalKeyBytes l) DefaultMaxLogicalKeyBytes)
           (or_default (MaxAuthorityIDBytes l) DefaultMaxAuthorityIDBytes)
           (or_default (MaxRecordBytes l) DefaultMaxRecordBytes)
           (or_default (MaxCheckpointBytes l) DefaultMaxCheckpointBytes).

(** The zero value [Limits{}]. *)
Definition zero_limits : Limits := mkLimits 0 0 0 0 0.

(** ** Versions *)

Record Version := mkVersion { Epoch : Z; Sequence : Z }.
#[export] Instance Version_eq_dec : EqDecision Version.
Proof. solve_decision. Defined.

Definition zero_version : Version := mkVersion 0 0.

Definition Compare (v other : Version) : Z :=
  if (Epoch v <? Epoch other) || ((Epoch v =? Epoch other) && (Sequence v <? Sequence other)) then -1
  else if (Epoch other <? Epoch v) || ((Epoch v =? Epoch other) && (Sequence other <? Sequence v)) then 1
  else 0.

Definition IsZero (v : Version) : bool := bool_decide (v = zero_version).

(** ** Records *)

Definition StatePresent : bytes := Eval cbv in lit "present".
Definition StateDeleted : bytes := Eval cbv in lit "deleted".

Record record := mkRecord {
  Namespace : bytes;
  LogicalKey : bytes;
  State : bytes;
  BlobKey : bytes;
  RVersion : Version;
  AuthorityID : bytes
}.
#[export] Instance record_eq_dec : EqDecision record.
Proof. solve_decision. Defined.

Definition zero_record : record := mkRecord [] [] [] [] zero_version [].

(** The JSON form: byte slices in base64, an empty blob key left out. *)
Definition json_version (v : Version) : json :=
  JObj [(lit "epoch", JNum (decimal (Epoch v))); (lit "sequence", JNum (decimal (Sequence v)))].
Definition json_bytes (b : bytes) : json := JStr (b64_encode b).
Definition json_record (r : record) : json :=
  JObj ([(lit "namespace", json_bytes (Namespace r));
         (lit "logical_key", json_bytes (LogicalKey r));
         (lit "state", JStr (State r))] ++
        (if decide (BlobKey r = []) then [] else [(lit "blob_key", json_bytes (BlobKey r))]) ++
        [(lit "version", json_version (RVersion r));
         (lit "authority_id", JStr (AuthorityID r))]).

Definition clone (r : record) : record :=
  mkRecord ([] ++ Namespace r) ([] ++ LogicalKey r) (State r) ([] ++ BlobKey r) (RVersion r) (AuthorityID r).

Definition equal (r other : record) : bool :=
  bool_decide (Namespace r = Namespace other) &&
  bool_decide (LogicalKey r = LogicalKey other) &&
  bool_decide (State r = State other) &&
  bool_decide (BlobKey r = BlobKey other) &&
  bool_decide (RVersion r = RVersion other) &&
  bool_decide (AuthorityID r = AuthorityID other).

Definition bodyEqual (r other : record) : bool :=
  bool_decide (State r = State other) &&
  bool_decide (BlobKey r = BlobKey other) &&
  bool_decide (AuthorityID r = AuthorityID other).

(** The map key [logicalKey{namespace, logicalKey}] of a record. *)
Definition logicalKey : Type := bytes * bytes.
Definition key_of (r : record) : logicalKey := (Namespace r, LogicalKey r).

Section validation.
Context `{UnicodePrint}.

Definition validateAuthorityID (authorityID : bytes) (limits : Limits) : result unit :=
  let limits := normalized limits in
  if bool_decide (authorityID = []) then Err ErrAuthorityEmpty
  else if MaxAuthorityIDBytes limits <? len authorityID then Err ErrAuthorityTooLarge
  else if negb (utf8_ValidString authorityID) then Err ErrAuthorityNotPrintable
  else if negb (forallb unicode_IsPrint (runes authorityID)) then Err ErrAuthorityNotPrintable
  else Ok tt.

Definition Validate (r : record) (limits : Limits) : result unit :=
  let limits := normalized limits in
  if len (Namespace r) =? 0 then Err ErrNamespaceEmpty
  else if MaxNamespaceBytes limits <? len (Namespace r) then Err ErrNamespaceTooLarge
  else if len (LogicalKey r) =? 0 then Err ErrLogicalKeyEmpty
  else if MaxLogicalKeyBytes limits <? len (LogicalKey r) then Err ErrLogicalKeyTooLarge
  else
    _ <-? validateAuthorityID (AuthorityID r) limits ;
    if IsZero (RVersion r) then Err ErrZeroVersion
    else
      _ <-? (if bool_decide (State r = StatePresent) then
               if negb (len (BlobKey r) =? 32) then Err ErrInvalidBlobKey else Ok tt
             else if bool_decide (State r = StateDeleted) then
               if negb (len (BlobKey r) =? 0) then Err ErrInvalidBlobKey else Ok tt
             else Err ErrInvalidState) ;
      let encoded := marshal (json_record r) in
      if MaxRecordBytes limits <? len encoded then Err ErrRecordTooLarge else Ok tt.

Definition validateLookup (l : Limits) (namespace key : bytes) : result unit :=
  if len namespace =? 0 then Err ErrNamespaceEmpty
  else if MaxNamespaceBytes (normalized l) <? len namespace then Err ErrNamespaceTooLarge
  else if len key =? 0 then Err ErrLogicalKeyEmpty
  else if MaxLogicalKeyBytes (normalized l) <? len key then Err ErrLogicalKeyTooLarge
  else Ok tt.

(** ** The store *)

Inductive ApplyOutcome := OutcomeApplied | OutcomeDuplicate | OutcomeStale.
#[global] Instance ApplyOutcome_eq_dec : EqDecision ApplyOutcome.
Proof. solve_decision. Defined.

Record ApplyResult := mkApplyResult { Outcome : ApplyOutcome; AVersion : Version }.

Record StoreStats := mkStoreStats { Records : Z; Tombstones : Z }.

Record Store := mkStore { limits : Limits; records : gmap logicalKey record }.

Definition NewStore (l : Limits) : Store := mkStore (normalized l) ∅.

Definition classifyRecord (r : record) (previous : option record) : result ApplyResult :=
  match previous with
  | None => Ok (mkApplyResult OutcomeApplied (RVersion r))
  | Some previous =>
      let comparison := Compare (RVersion r) (RVersion previous) in
      if 0 <? comparison then Ok (mkApplyResult OutcomeApplied (RVersion r))
      else if comparison <? 0 then Ok (mkApplyResult OutcomeStale (RVersion previous))
      else if bodyEqual r previous then Ok (mkApplyResult OutcomeDuplicate (RVersion previous))
      else Err ErrConflict
  end.

Definition Classify (r : record) (s : Store) : result ApplyResult :=
  _ <-? Validate r (limits s) ;
  classifyRecord r (records s !! key_of r).

Definition Apply (r : record) : M Store ApplyResult := λ s,
  match Validate r (limits s) with
  | Err e => (Err e, s)
  | Ok _ =>
      match classifyRecord r (records s !! key_of r) with
      | Err e => (Err e, s)
      | Ok res =>
          if bool_decide (Outcome res = OutcomeApplied)
          then (Ok res, mkStore (limits s) (<[key_of r := clone r]> (records s)))
          else (Ok res, s)
      end
  end.

Definition ValidateKey (s : Store) (namespace key : bytes) : result unit :=
  validateLookup (limits s) namespace key.

(** [(Record, bool)] as an option. *)
Definition Get (s : Store) (namespace key : bytes) : result (option record) :=
  _ <-? ValidateKey s namespace key ;
  Ok (clone <$> records s !! (namespace, key)).

(** ** Ordering by namespace and logical key *)

(** The comparison function given to [sort.Slice]. *)
Definition record_less (a b : record) : bool :=
  match bytes_Compare (Namespace a) (Namespace b) with
  | Lt => true
  | Gt => false
  | Eq => bool_decide (bytes_Compare (LogicalKey a) (LogicalKey b) = Lt)
  end.
Definition record_le (a b : record) : Prop := record_less b a = false.

#[export] Instance record_le_dec : RelDecision record_le.
Proof. intros a b. unfold record_le. apply _. Defined.

(** [sort.Slice] with [record_less]; the order of equal keys, which the Go
    documentation leaves open, is the order of a merge sort here. *)
Definition sort_records (l : list record) : list record := merge_sort record_le l.

Definition Snapshot (s : Store) : list record :=
  sort_records ((λ kv, clone kv.2) <$> map_to_list (records s)).

Definition Stats (s : Store) : StoreStats :=
  mkStoreStats (Z.of_nat (size (records s)))
    (len (filter (λ kv, State kv.2 = StateDeleted) (map_to_list (records s)))).

Fixpoint build_snapshot (l : Limits) (next : gmap logicalKey record) (rs : list record)
    : result (gmap logicalKey record) :=
  match rs with
  | [] => Ok next
  | r :: rs' =>
      _ <-? Validate r l ;
      match next !! key_of r with
      | Some _ => Err ErrDuplicateLogicalKey
      | None => build_snapshot l (<[key_of r := clone r]> next) rs'
      end
  end.

Definition ReplaceSnapshot (rs : list record) : M Store unit := λ s,
  match build_snapshot (limits s) ∅ rs with
  | Err e => (Err e, s)
  | Ok next => (Ok tt, mkStore (limits s) next)
  end.

Fixpoint check_records (watermark : Version) (l : Limits) (rs : list record) : result (list record) :=
  match rs with
  | [] => Ok []
  | r :: rs' =>
      _ <-? Validate r l ;
      if 0 <? Compare (RVersion r) watermark then Err (EWrap ErrConflict)
      else out <-? check_records watermark l rs' ; Ok (clone r :: out)
  end.

(** Two neighbours with the same key. *)
Fixpoint adjacent_duplicate (rs : list record) : bool :=
  match rs with
  | a :: (b :: _) as tl => bool_decide (key_of a = key_of b) || adjacent_duplicate tl
  | _ => false
  end.

Definition normalizeCheckpointRecords (rs : list record) (watermark : Version) (l : Limits)
    : result (list record) :=
  let l := normalized l in
  if IsZero watermark && (0 <? len rs) then Err ErrZeroVersion
  else
    out <-? check_records watermark l rs ;
    let out := sort_records out in
    if adjacent_duplicate out then Err ErrDuplicateLogicalKey else Ok out.

Fixpoint recordsEqual (left right : list record) : bool :=
  match left, right with
  | [], [] => true
  | a :: l, b :: r => equal a b && recordsEqual l r
  | _, _ => false
  end.

End validation.

(** ** Versions are totally ordered *)

Lemma Compare_neg v w :
  Compare v w < 0 ↔ Epoch v < Epoch w ∨ (Epoch v = Epoch w ∧ Sequence v < Sequence w).
Proof. unfold Compare. repeat case_match; lia. Qed.
Lemma Compare_pos v w :
  0 < Compare v w ↔ Epoch w < Epoch v ∨ (Epoch v = Epoch w ∧ Sequence w < Sequence v).
Proof. unfold Compare. repeat case_match; lia. Qed.
Lemma Compare_zero v w : Compare v w = 0 ↔ v = w.
Proof.
  split; [|intros ->; unfold Compare; by rewrite !Z.ltb_irrefl, Z.eqb_refl].
  intros E. destruct v as [e q], w as [e' q'].
  pose proof (Compare_neg (mkVersion e q) (mkVersion e' q')).
  pose proof (Compare_pos (mkVersion e q) (mkVersion e' q')). cbn in *. f_equal; lia.
Qed.

Definition version_le (v w : Version) : Prop := Compare v w <= 0.
Definition version_lt (v w : Version) : Prop := Compare v w < 0.
#[export] Instance version_le_dec : RelDecision version_le.
Proof. intros v w. unfold version_le. apply _. Defined.
#[export] Instance version_lt_dec : RelDecision version_lt.
Proof. intros v w. unfold version_lt. apply _. Defined.

Lemma version_lt_eq v w :
  version_lt v w ↔ Epoch v < Epoch w ∨ (Epoch v = Epoch w ∧ Sequence v < Sequence w).
Proof. apply Compare_neg. Qed.
Lemma version_le_eq v w :
  version_le v w ↔ Epoch v < Epoch w ∨ (Epoch v = Epoch w ∧ Sequence v <= Sequence w).
Proof. unfold version_le. pose proof (Compare_pos v w). lia. Qed.
Lemma version_nle v w : ¬ version_le v w ↔ version_lt w v.
Proof. rewrite version_le_eq, version_lt_eq. lia. Qed.
Lemma version_nlt v w : ¬ version_lt v w ↔ version_le w v.
Proof. rewrite version_le_eq, version_lt_eq. lia. Qed.
Lemma Compare_gt v w : 0 < Compare v w ↔ version_lt w v.
Proof. rewrite version_lt_eq, Compare_pos. lia. Qed.

#[export] Instance version_le_trans : Transitive version_le.
Proof. intros x y z. rewrite !version_le_eq. lia. Qed.
#[export] Instance version_lt_trans : Transitive version_lt.
Proof. intros x y z. rewrite !version_lt_eq. lia. Qed.
#[export] Instance version_le_refl : Reflexive version_le.
Proof. intros x. rewrite version_le_eq. lia. Qed.
#[export] Instance version_lt_irrefl : Irreflexive version_lt.
Proof. intros x. unfold complement. rewrite version_lt_eq. lia. Qed.
#[export] Instance version_le_total : Total version_le.
Proof. intros x y. rewrite !version_le_eq. lia. Qed.
#[export] Instance version_le_antisymm : AntiSymm (=) version_le.
Proof. intros x y H1 H2. apply Compare_zero. rewrite version_le_eq in *.
  pose proof (Compare_neg x y). pose proof (Compare_pos x y). lia. Qed.
Lemma version_lt_le v w : version_lt v w → version_le v w.
Proof. rewrite version_le_eq, version_lt_eq. lia. Qed.
Lemma version_le_lt_trans u v w : version_le u v → version_lt v w → version_lt u w.
Proof. rewrite version_le_eq, !version_lt_eq. lia. Qed.
Lemma version_lt_le_trans u v w : version_lt u v → version_le v w → version_lt u w.
Proof. rewrite version_le_eq, !version_lt_eq. lia. Qed.

Create HintDb version.
#[export] Hint Resolve version_lt_le version_le_lt_trans version_lt_le_trans : version.

(** ** Limits and record equality *)

Lemma or_default_idem z d : 0 < d → or_default (or_default z d) d = or_default z d.
Proof. unfold or_default. intros Hd. destruct (z <=? 0) eqn:E; [|by rewrite E]. by replace (d <=? 0) with false by lia. Qed.
Lemma normalized_idem l : normalized (normalized l) = normalized l.
Proof. unfold normalized. cbn. by rewrite !or_default_idem. Qed.

Lemma clone_id r : clone r = r.
Proof. by destruct r. Qed.
Lemma equal_spec a b : equal a b = true ↔ a = b.
Proof.
  unfold equal. rewrite !andb_true_iff, !bool_decide_eq_true. split; [|by intros ->].
  destruct a, b; cbn. intros [[[[[-> ->] ->] ->] ->] ->]. done.
Qed.
Lemma recordsEqual_spec a b : recordsEqual a b = true ↔ a = b.
Proof.
  revert b. induction a as [|x a IH]; intros [|y b]; cbn; try done.
  rewrite andb_true_iff, equal_spec, IH. naive_solver.
Qed.
(** Records with the same key, version and body are the same. *)
Lemma bodyEqual_spec a b :
  key_of a = key_of b → RVersion a = RVersion b → bodyEqual a b = true ↔ a = b.
Proof.
  intros [= Hn Hl] Hv. unfold bodyEqual. rewrite !andb_true_iff, !bool_decide_eq_true.
  split; [|by intros ->]. destruct a, b; cbn in *. naive_solver.
Qed.

(** ** The order of snapshots *)

Lemma record_less_spec a b :
  record_less a b = true ↔
  bytes_lt (Namespace a) (Namespace b) ∨
  (Namespace a = Namespace b ∧ bytes_lt (LogicalKey a) (LogicalKey b)).
Proof.
  unfold record_less, bytes_lt. rewrite <- (bytes_Compare_eq (Namespace a)).
  destruct (bytes_Compare (Namespace a) (Namespace b)); rewrite ?bool_decide_eq_true; naive_solver.
Qed.
Lemma record_le_spec a b :
  record_le a b ↔
  bytes_lt (Namespace a) (Namespace b) ∨
  (Namespace a = Namespace b ∧ bytes_le (LogicalKey a) (LogicalKey b)).
Proof.
  unfold record_le. rewrite <- not_true_iff_false, record_less_spec, <- bytes_nlt_le.
  destruct (total bytes_le (Namespace a) (Namespace b)) as [H|H];
    rewrite bytes_le_lt in H; destruct H as [E|H]; try rewrite E in *.
  - pose proof (irreflexivity bytes_lt (Namespace b)). naive_solver.
  - split; [by left|]. intros _ [H'|[H' _]]; [|rewrite H' in H; by apply irreflexivity in H; [|apply _]].
    apply (irreflexivity bytes_lt (Namespace a)). by trans (Namespace b).
  - pose proof (irreflexivity bytes_lt (Namespace a)). naive_solver.
  - split; [intros C; exfalso; apply C; by left|]. intros [H'|[H' _]].
    + exfalso. apply (irreflexivity bytes_lt (Namespace a)). by trans (Namespace b).
    + rewrite H' in H. exfalso. by apply (irreflexivity bytes_lt (Namespace b)).
Qed.

#[export] Instance record_le_trans : Transitive record_le.
Proof.
  intros a b c. rewrite !record_le_spec. intros [H1|[E1 H1]] [H2|[E2 H2]].
  - left. by trans (Namespace b).
  - left. by rewrite <- E2.
  - left. by rewrite E1.
  - right. split; [congruence|]. by trans (LogicalKey b).
Qed.
#[export] Instance record_le_total : Total record_le.
Proof.
  intros a b. rewrite !record_le_spec.
  destruct (total bytes_le (Namespace a) (Namespace b)) as [H|H];
    rewrite bytes_le_lt in H; destruct H as [E|H]; auto;
    destruct (total bytes_le (LogicalKey a) (LogicalKey b)); auto.
Qed.
Lemma record_le_antisym a b : record_le a b → record_le b a → key_of a = key_of b.
Proof.
  rewrite !record_le_spec. unfold key_of. intros [H1|[E1 H1]] [H2|[E2 H2]].
  - exfalso. apply (irreflexivity bytes_lt (Namespace a)). by trans (Namespace b).
  - rewrite E2 in H1. exfalso. by apply (irreflexivity bytes_lt (Namespace a)).
  - rewrite E1 in H2. exfalso. by apply (irreflexivity bytes_lt (Namespace b)).
  - f_equal; [done|]. by apply (anti_symm bytes_le).
Qed.

Lemma sort_records_Permutation l : sort_records l ≡ₚ l.
Proof. apply merge_sort_Permutation. Qed.
Lemma sort_records_sorted l : StronglySorted record_le (sort_records l).
Proof. apply StronglySorted_merge_sort; apply _. Qed.

Lemma key_of_inj_NoDup l a b :
  NoDup (key_of <$> l) → a ∈ l → b ∈ l → key_of a = key_of b → a = b.
Proof.
  induction l as [|x l IH]; [by rewrite elem_of_nil|]. cbn. rewrite NoDup_cons, !elem_of_cons.
  intros [Hx Hl] [->|Ha] [->|Hb] E; try done; [..|by apply IH].
  - contradict Hx. rewrite E. by apply list_elem_of_fmap_2.
  - contradict Hx. rewrite <- E. by apply list_elem_of_fmap_2.
Qed.

(** With distinct keys the sorted list is determined by its elements. *)
Lemma sorted_unique l k :
  NoDup (key_of <$> l) → StronglySorted record_le l → StronglySorted record_le k → l ≡ₚ k → l = k.
Proof.
  intros Hd Hl Hk Hp. eapply (StronglySorted_unique_strong record_le); [|done..].
  intros a b Ha Hb H1 H2. eapply key_of_inj_NoDup; [done|done| |by apply record_le_antisym].
  by rewrite Hp.
Qed.
Lemma sort_records_perm l k : NoDup (key_of <$> l) → l ≡ₚ k → sort_records l = sort_records k.
Proof.
  intros Hd Hp. apply sorted_unique; try apply sort_records_sorted.
  - by rewrite sort_records_Permutation.
  - by rewrite !sort_records_Permutation.
Qed.
Lemma sort_records_id l : NoDup (key_of <$> l) → StronglySorted record_le l → sort_records l = l.
Proof.
  intros Hd Hs. apply sorted_unique; try done.
  - by rewrite sort_records_Permutation.
  - apply sort_records_sorted.
  - apply sort_records_Permutation.
Qed.

(** After sorting, equal keys are neighbours. *)
Lemma adjacent_duplicate_spec l :
  StronglySorted record_le l → adjacent_duplicate l = false ↔ NoDup (key_of <$> l).
Proof.
  induction l as [|a [|b l] IH]; intros Hs.
  { split; [|done]. intros _. apply NoDup_nil_2. }
  { split; [|done]. intros _. apply NoDup_singleton. }
  cbn [adjacent_duplicate]. apply StronglySorted_cons in Hs as [Ha Hs].
  rewrite orb_false_iff, (IH Hs), bool_decide_eq_false. cbn [fmap list_fmap]. rewrite (NoDup_cons (key_of a)).
  apply and_iff_compat_r. rewrite elem_of_cons. split; [|intros C E; apply C; by left].
  intros Hne [E|E]; [done|]. apply list_elem_of_fmap in E as (c & E & Hc).
  apply Forall_cons in Ha as [Hab _]. apply StronglySorted_cons in Hs as [Hbl _].
  rewrite Forall_forall in Hbl. specialize (Hbl _ Hc). apply Hne.
  apply record_le_antisym; [done|]. unfold key_of in E. injection E as E1 E2.
  revert Hbl. rewrite !record_le_spec, E1, E2. done.
Qed.

(** ** The store *)

Section store_facts.
Context `{UnicodePrint}.

Definition valid (l : Limits) (r : record) : bool := is_Ok (Validate r l).

Lemma Validate_normalized r l : Validate r (normalized l) = Validate r l.
Proof. unfold Validate. by rewrite normalized_idem. Qed.
Lemma valid_normalized l r : valid (normalized l) r = valid l r.
Proof. unfold valid. by rewrite Validate_normalized. Qed.
Lemma Validate_Ok r l u : Validate r l = Ok u → valid l r = true.
Proof. unfold valid. by intros ->. Qed.
Lemma valid_Validate r l : valid l r = true ↔ Validate r l = Ok tt.
Proof. unfold valid. destruct (Validate r l) as [[]|]; naive_solver. Qed.

(** What validation establishes. *)
Lemma Validate_inv r l :
  Validate r l = Ok tt ↔
  0 < len (Namespace r) <= MaxNamespaceBytes (normalized l) ∧
  0 < len (LogicalKey r) <= MaxLogicalKeyBytes (normalized l) ∧
  validateAuthorityID (AuthorityID r) l = Ok tt ∧
  RVersion r ≠ zero_version ∧
  (State r = StatePresent ∧ len (BlobKey r) = 32 ∨ State r = StateDeleted ∧ BlobKey r = []) ∧
  len (marshal (json_record r)) <= MaxRecordBytes (normalized l).
Proof.
  assert (validateAuthorityID (AuthorityID r) (normalized l) = validateAuthorityID (AuthorityID r) l)
    as Ea by (unfold validateAuthorityID; by rewrite normalized_idem).
  assert ((if bool_decide (State r = StatePresent) then
             if negb (len (BlobKey r) =? 32) then Err ErrInvalidBlobKey else Ok tt
           else if bool_decide (State r = StateDeleted) then
             if negb (len (BlobKey r) =? 0) then Err ErrInvalidBlobKey else Ok tt
           else Err ErrInvalidState) = Ok tt ↔
          (State r = StatePresent ∧ len (BlobKey r) = 32 ∨ State r = StateDeleted ∧ BlobKey r = [])) as Es.
  { rewrite <- (len_zero (BlobKey r)). assert (StatePresent ≠ StateDeleted) by done.
    repeat case_bool_decide; rewrite ?guard_Ok, ?negb_false_iff, ?Z.eqb_eq;
      (split; intros; destruct_or?; destruct_and?; try done; auto; congruence). }
  unfold Validate, IsZero.
  rewrite !guard_Ok, rbind_unit, guard_Ok, rbind_unit, guard_Ok, Es, Ea, bool_decide_eq_false.
  pose proof (len_nonneg (Namespace r)). pose proof (len_nonneg (LogicalKey r)).
  rewrite !Z.eqb_neq, !Z.ltb_ge. split; intros; destruct_and?; split_and?; done || lia.
Qed.

(** The store holds valid records under their own keys. *)
Record store_wf (s : Store) : Prop := {
  wf_limits : normalized (limits s) = limits s;
  wf_records : ∀ k r, records s !! k = Some r → key_of r = k ∧ valid (limits s) r = true
}.

Lemma store_wf_New l : store_wf (NewStore l).
Proof. split; [apply normalized_idem|]. cbn. intros k r. by rewrite lookup_empty. Qed.

(** The four ways a valid record is classified. *)
Inductive classified (r : record) : option record → result ApplyResult → Prop :=
  | classified_new : classified r None (Ok (mkApplyResult OutcomeApplied (RVersion r)))
  | classified_newer p : version_lt (RVersion p) (RVersion r) →
      classified r (Some p) (Ok (mkApplyResult OutcomeApplied (RVersion r)))
  | classified_stale p : version_lt (RVersion r) (RVersion p) →
      classified r (Some p) (Ok (mkApplyResult OutcomeStale (RVersion p)))
  | classified_duplicate p : RVersion r = RVersion p → bodyEqual r p = true →
      classified r (Some p) (Ok (mkApplyResult OutcomeDuplicate (RVersion p)))
  | classified_conflict p : RVersion r = RVersion p → bodyEqual r p = false →
      classified r (Some p) (Err ErrConflict).

Lemma classifyRecord_spec r p : classified r p (classifyRecord r p).
Proof.
  destruct p as [p|]; cbn; [|constructor]. case_match eqn:E1; bool_to_prop.
  { apply Compare_gt in E1. by constructor. }
  case_match eqn:E2; bool_to_prop; [by constructor|].
  assert (RVersion r = RVersion p) by (apply Compare_zero; lia).
  case_match; by constructor.
Qed.

(** [Apply] writes exactly when it reports [OutcomeApplied]. *)
Lemma Apply_state r s :
  (Apply r s).2 =
  match Classify r s with
  | Ok res => if bool_decide (Outcome res = OutcomeApplied)
              then mkStore (limits s) (<[key_of r := r]> (records s)) else s
  | Err _ => s
  end.
Proof.
  unfold Apply, Classify. destruct (Validate r (limits s)); cbn; [|done].
  destruct (classifyRecord _ _); [|done]. case_bool_decide; [|done]. by rewrite clone_id.
Qed.
Lemma Apply_result r s : (Apply r s).1 = Classify r s.
Proof.
  unfold Apply, Classify. destruct (Validate r (limits s)); cbn; [|done].
  destruct (classifyRecord _ _); [|done]. by case_bool_decide.
Qed.
Lemma Apply_limits r s : limits (Apply r s).2 = limits s.
Proof. rewrite Apply_state. repeat case_match; done. Qed.

(** The record under a key after [Apply]. *)
Lemma Apply_lookup r s k :
  records (Apply r s).2 !! k =
  if valid (limits s) r && bool_decide (key_of r = k) &&
     match records s !! k with
     | None => true
     | Some p => bool_decide (version_lt (RVersion p) (RVersion r))
     end
  then Some r else records s !! k.
Proof.
  rewrite Apply_state. unfold Classify, valid.
  destruct (Validate r (limits s)); cbn; [|done].
  case_bool_decide as Hk; cbn.
  - subst k. remember (records s !! key_of r) as o eqn:Eo.
    destruct (classifyRecord_spec r o) as [|p Hp|p Hp|p Hp|p Hp]; cbn.
    + rewrite bool_decide_eq_true_2 by done. cbn. by rewrite lookup_insert_eq.
    + rewrite !bool_decide_eq_true_2 by done. cbn. by rewrite lookup_insert_eq.
    + rewrite (bool_decide_eq_false_2 (OutcomeStale = _)), bool_decide_eq_false_2; [done| |done]. apply version_nlt. by apply version_lt_le.
    + rewrite (bool_decide_eq_false_2 (OutcomeDuplicate = _)), bool_decide_eq_false_2; [done| |done]. rewrite Hp. by apply version_nlt.
    + rewrite bool_decide_eq_false_2; [done|]. rewrite Hp. by apply version_nlt.
  - destruct (classifyRecord _ _); [|done]. case_bool_decide; [|done]. cbn.
    by rewrite lookup_insert_ne.
Qed.

Lemma Apply_wf r s : store_wf s → store_wf (Apply r s).2.
Proof.
  intros [Hl Hr]. split; rewrite ?Apply_limits; [done|]. intros k p. rewrite Apply_lookup.
  destruct (valid (limits s) r) eqn:Hv; cbn; [|apply Hr].
  case_bool_decide; cbn; [|apply Hr]. case_match; [|apply Hr]. by intros [= <-].
Qed.

(** *** Delivery histories *)

Definition apply_all (s : Store) (rs : list record) : Store := foldl (λ s r, (Apply r s).2) s rs.

(** The valid record of the greatest version under a key, among those seen. *)
Definition is_latest (l : Limits) (seen : list record) (k : logicalKey) (r : record) : Prop :=
  r ∈ seen ∧ valid l r = true ∧ key_of r = k ∧
  ∀ r', r' ∈ seen → valid l r' = true → key_of r' = k → version_le (RVersion r') (RVersion r).

(** No two different valid records under the same key and version. *)
Definition conflict_free (l : Limits) (rs : list record) : Prop :=
  ∀ r1 r2, r1 ∈ rs → r2 ∈ rs → valid l r1 = true → valid l r2 = true →
  key_of r1 = key_of r2 → RVersion r1 = RVersion r2 → r1 = r2.

Definition holds_latest (seen : list record) (s : Store) : Prop :=
  ∀ k, match records s !! k with
       | Some r => is_latest (limits s) seen k r
       | None => ∀ r, r ∈ seen → valid (limits s) r = true → key_of r ≠ k
       end.

Lemma is_latest_mono l seen k r x :
  is_latest l seen k r →
  (valid l x = true → key_of x = k → version_le (RVersion x) (RVersion r)) →
  is_latest l (x :: seen) k r.
Proof.
  intros (Hin & Hv & Hk & Hmax) Hx. split_and!; [by right|done..|].
  intros r' [->|Hr']%elem_of_cons; auto.
Qed.

Lemma holds_latest_Apply seen s r :
  holds_latest seen s → holds_latest (r :: seen) (Apply r s).2.
Proof.
  intros Hs k. specialize (Hs k). rewrite Apply_lookup, Apply_limits.
  destruct (valid (limits s) r) eqn:Hv; cbn.
  2:{ destruct (records s !! k) as [p|].
      - apply is_latest_mono; [done|congruence].
      - intros r' [->|Hr']%elem_of_cons; [congruence|auto]. }
  case_bool_decide as Hk; cbn.
  2:{ destruct (records s !! k) as [p|].
      - apply is_latest_mono; [done|congruence].
      - intros r' [->|Hr']%elem_of_cons; auto. }
  destruct (records s !! k) as [p|]; [case_bool_decide as Hlt|].
  - split_and!; [by left|done..|]. intros r' [->|Hr']%elem_of_cons Hv' Hk'; [reflexivity|].
    destruct Hs as (_ & _ & _ & Hs). apply version_lt_le. eapply version_le_lt_trans; [|done]. auto.
  - apply is_latest_mono; [done|]. intros _ _. by apply version_nlt.
  - split_and!; [by left|done..|]. intros r' [->|Hr']%elem_of_cons Hv' Hk'; [reflexivity|].
    by destruct (Hs r').
Qed.

Lemma apply_all_latest_from seen s rs :
  holds_latest seen s → holds_latest (reverse rs ++ seen) (apply_all s rs).
Proof.
  revert seen s. induction rs as [|r rs IH]; intros seen s Hs; [done|].
  rewrite reverse_cons, <- app_assoc. cbn. by apply IH, holds_latest_Apply.
Qed.
Lemma apply_all_limits s rs : limits (apply_all s rs) = limits s.
Proof. revert s. induction rs as [|r rs IH]; intros s; [done|]. cbn. by rewrite IH, Apply_limits. Qed.
Lemma apply_all_wf s rs : store_wf s → store_wf (apply_all s rs).
Proof. revert s. induction rs as [|r rs IH]; intros s Hs; [done|]. cbn. by apply IH, Apply_wf. Qed.
Lemma apply_all_app s rs1 rs2 : apply_all s (rs1 ++ rs2) = apply_all (apply_all s rs1) rs2.
Proof. apply foldl_app. Qed.

(** The store after a history holds the newest record of every key. *)
Lemma apply_all_latest l rs k :
  match records (apply_all (NewStore l) rs) !! k with
  | Some r => is_latest l rs k r
  | None => ∀ r, r ∈ rs → valid l r = true → key_of r ≠ k
  end.
Proof.
  pose proof (apply_all_latest_from [] (NewStore l) rs) as Hs. specialize (Hs ltac:(intros k'; cbn; rewrite lookup_empty; intros r Hr; by apply elem_of_nil in Hr) k).
  rewrite apply_all_limits, app_nil_r in Hs. cbn in Hs.
  destruct (_ !! k) as [r|].
  - destruct Hs as (Hin & Hv & Hk & Hmax). rewrite elem_of_reverse in Hin.
    rewrite valid_normalized in Hv. split_and!; try done. intros r' Hr'. rewrite <- valid_normalized.
    apply Hmax. by rewrite elem_of_reverse.
  - intros r Hr. rewrite <- valid_normalized. apply Hs. by rewrite elem_of_reverse.
Qed.

Lemma is_latest_unique l rs1 rs2 k a b :
  conflict_free l rs1 → (∀ r, r ∈ rs1 ↔ r ∈ rs2) →
  is_latest l rs1 k a → is_latest l rs2 k b → a = b.
Proof.
  intros Hc Hin (Ha & Hva & Hka & Hma) (Hb & Hvb & Hkb & Hmb). rewrite <- Hin in Hb.
  apply Hc; try done; [congruence|]. apply (anti_symm version_le); [|auto].
  apply Hmb; [by apply Hin|done..].
Qed.

(** The abstract store: histories that hold the same records give the same
    state, in whatever order and how often they are delivered. *)
Lemma apply_all_same l rs1 rs2 :
  conflict_free l rs1 → (∀ r, r ∈ rs1 ↔ r ∈ rs2) →
  apply_all (NewStore l) rs1 = apply_all (NewStore l) rs2.
Proof.
  intros Hc Hin.
  assert (∀ s1 s2 : Store, limits s1 = limits s2 → records s1 = records s2 → s1 = s2) as Heq
    by (intros [] []; cbn; congruence).
  apply Heq; [by rewrite !apply_all_limits|]. apply map_eq. intros k.
  pose proof (apply_all_latest l rs1 k) as H1. pose proof (apply_all_latest l rs2 k) as H2.
  destruct (_ !! k) as [a|], (records (apply_all (NewStore l) rs2) !! k) as [b|]; try done.
  - f_equal. by eapply is_latest_unique.
  - destruct H1 as (Ha & Hv & Hk & _). by edestruct H2; [apply Hin|..].
  - destruct H2 as (Ha & Hv & Hk & _). by edestruct H1; [apply Hin|..].
Qed.

(** *** Snapshots *)

Definition values (s : Store) : list record := (map_to_list (records s)).*2.

Lemma Snapshot_values s : Snapshot s = sort_records (values s).
Proof. unfold Snapshot, values. f_equal. apply list_fmap_ext. intros ? ? ?. apply clone_id. Qed.

Lemma values_keys s : store_wf s → key_of <$> values s = (map_to_list (records s)).*1.
Proof.
  intros Hs. unfold values. rewrite <- list_fmap_compose. apply Forall_fmap_ext, Forall_forall.
  intros [k r] Hin%elem_of_map_to_list. cbn. by apply (wf_records _ Hs).
Qed.
Lemma values_NoDup s : store_wf s → NoDup (key_of <$> values s).
Proof. intros Hs. rewrite values_keys by done. apply NoDup_fst_map_to_list. Qed.
Lemma elem_of_values s r : store_wf s → r ∈ values s ↔ records s !! key_of r = Some r.
Proof.
  intros Hs. unfold values. rewrite list_elem_of_fmap. split.
  - intros ([k r'] & -> & Hin%elem_of_map_to_list). cbn. by destruct (wf_records _ Hs _ _ Hin) as [-> _].
  - intros Hr. exists (key_of r, r). by rewrite elem_of_map_to_list.
Qed.

Lemma Snapshot_perm s : Snapshot s ≡ₚ values s.
Proof. rewrite Snapshot_values. apply sort_records_Permutation. Qed.
Lemma elem_of_Snapshot s r : store_wf s → r ∈ Snapshot s ↔ records s !! key_of r = Some r.
Proof. intros Hs. by rewrite Snapshot_perm, elem_of_values. Qed.
Lemma Snapshot_NoDup s : store_wf s → NoDup (key_of <$> Snapshot s).
Proof. intros Hs. rewrite Snapshot_perm. by apply values_NoDup. Qed.
Lemma Snapshot_sorted s : StronglySorted record_le (Snapshot s).
Proof. apply sort_records_sorted. Qed.
(** Whatever order the map is iterated in. *)
Lemma Snapshot_iteration s l : store_wf s → l ≡ₚ values s → sort_records l = Snapshot s.
Proof.
  intros Hs Hl. rewrite Snapshot_values. symmetry. apply sort_records_perm; [|done].
  by apply values_NoDup.
Qed.

(** The map built from valid records with distinct keys. *)
Definition index (rs : list record) : gmap logicalKey record :=
  list_to_map ((λ r, (key_of r, r)) <$> rs).

Lemma index_keys rs : ((λ r : record, (key_of r, r)) <$> rs).*1 = key_of <$> rs.
Proof. by rewrite <- list_fmap_compose. Qed.
Lemma index_lookup rs k r :
  NoDup (key_of <$> rs) → index rs !! k = Some r ↔ r ∈ rs ∧ key_of r = k.
Proof.
  intros Hd. unfold index. rewrite <- elem_of_list_to_map by by rewrite index_keys.
  rewrite list_elem_of_fmap. naive_solver.
Qed.
Lemma index_None rs k : index rs !! k = None ↔ k ∉ key_of <$> rs.
Proof. unfold index. by rewrite <- not_elem_of_list_to_map, index_keys. Qed.

Lemma build_snapshot_Ok l next rs m :
  build_snapshot l next rs = Ok m ↔
  Forall (λ r, valid l r = true) rs ∧ NoDup (key_of <$> rs) ∧
  (∀ r, r ∈ rs → next !! key_of r = None) ∧ m = index rs ∪ next.
Proof.
  revert next. induction rs as [|r rs IH]; intros next; cbn [build_snapshot].
  { unfold index. cbn. rewrite (left_id_L ∅ (∪)). split; [intros [= <-]|intros (_&_&_& ->)]; [|done].
    split_and!; [apply Forall_nil_2|apply NoDup_nil_2| |done]. intros r Hr. by apply elem_of_nil in Hr. }
  rewrite rbind_unit, <- valid_Validate, Forall_cons. cbn [fmap list_fmap]. rewrite NoDup_cons.
  assert (index (r :: rs) = <[key_of r := r]> (index rs)) as Ei by done.
  destruct (next !! key_of r) as [p|] eqn:E.
  { split; [naive_solver|]. intros (_&_&Hn&_). specialize (Hn r ltac:(by left)). congruence. }
  rewrite IH, clone_id, Ei. rewrite <- insert_union_l.
  split; intros (Hv&Hrest); destruct_and?; split_and?; try done.
  - intros Hin. apply list_elem_of_fmap in Hin as (x & Ex & Hx).
    rename select (∀ r0, _) into Hn. specialize (Hn x Hx). rewrite Ex, lookup_insert_eq in Hn. done.
  - intros x [->|Hx]%elem_of_cons; [done|]. rename select (∀ r0, _) into Hn. specialize (Hn x Hx).
    by apply lookup_insert_None in Hn as [? _].
  - subst m. rewrite insert_union_r; [done|]. apply index_None. intros Hin.
    apply list_elem_of_fmap in Hin as (x & Ex & Hx).
    rename select (∀ r0, _) into Hn. specialize (Hn x Hx). rewrite Ex, lookup_insert_eq in Hn. done.
  - intros x Hx. rewrite lookup_insert_ne; [rename select (∀ r0, _) into Hn; apply Hn; by right|].
    intros Ex. rename select (key_of r ∉ _) into Hnot. apply Hnot. rewrite Ex. by apply list_elem_of_fmap_2.
  - subst m. rewrite insert_union_r; [done|]. by apply index_None.
Qed.

(** [ReplaceSnapshot] accepts exactly the valid record sets with distinct keys. *)
Lemma ReplaceSnapshot_Ok rs s s' :
  ReplaceSnapshot rs s = (Ok tt, s') ↔
  Forall (λ r, valid (limits s) r = true) rs ∧ NoDup (key_of <$> rs) ∧
  s' = mkStore (limits s) (index rs).
Proof.
  unfold ReplaceSnapshot. destruct (build_snapshot (limits s) ∅ rs) as [m|e] eqn:E.
  - apply build_snapshot_Ok in E as (Hv & Hd & _ & ->). rewrite (right_id_L ∅ (∪)).
    split; [intros [= <-]|intros (_&_& ->)]; done.
  - split; [done|]. intros (Hv & Hd & _). exfalso.
    assert (build_snapshot (limits s) ∅ rs = Ok (index rs ∪ ∅)) as C; [|congruence].
    apply build_snapshot_Ok. split_and!; [done..| |done]. intros r _. apply lookup_empty.
Qed.
Lemma ReplaceSnapshot_Err rs s e s' : ReplaceSnapshot rs s = (Err e, s') → s' = s.
Proof. unfold ReplaceSnapshot. by destruct (build_snapshot _ _ _); intros [=]. Qed.

Lemma index_Snapshot s : store_wf s → index (Snapshot s) = records s.
Proof.
  intros Hs. apply map_eq. intros k. apply option_eq. intros r.
  rewrite index_lookup by by apply Snapshot_NoDup. rewrite elem_of_Snapshot by done. split.
  - by intros [? <-].
  - intros Hr. destruct (wf_records _ Hs _ _ Hr) as [<- _]. done.
Qed.
Lemma Snapshot_valid s : store_wf s → Forall (λ r, valid (limits s) r = true) (Snapshot s).
Proof.
  intros Hs. apply Forall_forall. intros r. rewrite elem_of_Snapshot by done.
  intros Hr. by destruct (wf_records _ Hs _ _ Hr).
Qed.
Lemma index_wf l rs :
  Forall (λ r, valid l r = true) rs → NoDup (key_of <$> rs) → normalized l = l →
  store_wf (mkStore l (index rs)).
Proof.
  intros Hv Hd Hl. split; [done|]. cbn. intros k r. rewrite index_lookup by done.
  rewrite Forall_forall in Hv. naive_solver.
Qed.
Lemma ReplaceSnapshot_wf rs s : store_wf s → store_wf (ReplaceSnapshot rs s).2.
Proof.
  intros Hs. destruct (ReplaceSnapshot rs s) as [[[]|e] s'] eqn:E.
  - apply ReplaceSnapshot_Ok in E as (Hv & Hd & ->). apply index_wf; [done..|apply Hs].
  - apply ReplaceSnapshot_Err in E as ->. done.
Qed.

Lemma NoDup_keys_conflict_free l rs : NoDup (key_of <$> rs) → conflict_free l rs.
Proof. intros Hd a b Ha Hb _ _ E _. by eapply key_of_inj_NoDup. Qed.

(** Applying valid records with distinct keys builds their index. *)
Lemma apply_all_index l rs :
  Forall (λ r, valid l r = true) rs → NoDup (key_of <$> rs) →
  apply_all (NewStore l) rs = mkStore (normalized l) (index rs).
Proof.
  intros Hv Hd.
  assert (∀ s : Store, s = mkStore (limits s) (records s)) as Es by by intros [].
  rewrite (Es (apply_all _ _)), apply_all_limits. f_equal. apply map_eq. intros k.
  pose proof (apply_all_latest l rs k) as Hl. rewrite Forall_forall in Hv.
  destruct (_ !! k) as [r|].
  - symmetry. apply index_lookup; [done|]. destruct Hl as (? & _ & ? & _). done.
  - symmetry. apply index_None. intros (x & -> & Hx)%list_elem_of_fmap. by apply (Hl x); auto.
Qed.

(** *** Checkpoint records *)

Lemma check_records_Ok w l rs out :
  check_records w l rs = Ok out ↔
  Forall (λ r, valid l r = true ∧ version_le (RVersion r) w) rs ∧ out = rs.
Proof.
  revert out. induction rs as [|r rs IH]; intros out; cbn [check_records].
  { split; [intros [= <-]; by split; [apply Forall_nil_2|]|by intros [_ ->]]. }
  rewrite rbind_unit, guard_Ok, rbind_Ok, <- valid_Validate, Forall_cons. unfold version_le.
  rewrite Z.ltb_ge, clone_id. setoid_rewrite IH. naive_solver.
Qed.

(** [normalizeCheckpointRecords] accepts exactly the valid records with distinct
    keys below the watermark, and returns them in key order. *)
Lemma normalizeCheckpointRecords_Ok rs w l out :
  normalizeCheckpointRecords rs w l = Ok out ↔
  (w = zero_version → rs = []) ∧
  Forall (λ r, valid l r = true ∧ version_le (RVersion r) w) rs ∧
  NoDup (key_of <$> rs) ∧ out = sort_records rs.
Proof.
  unfold normalizeCheckpointRecords. rewrite guard_Ok, rbind_Ok.
  assert (IsZero w && (0 <? len rs) = false ↔ (w = zero_version → rs = [])) as ->.
  { unfold IsZero. rewrite andb_false_iff, bool_decide_eq_false, Z.ltb_ge.
    rewrite <- len_zero. pose proof (len_nonneg rs).
    destruct (decide (w = zero_version)) as [E|E]; split; intros Hw; try tauto.
    - intros _. destruct Hw; [done|lia].
    - right. specialize (Hw E). lia. }
  apply and_iff_compat_l. setoid_rewrite check_records_Ok.
  assert (Forall (λ r, valid (normalized l) r = true ∧ version_le (RVersion r) w) rs ↔
          Forall (λ r, valid l r = true ∧ version_le (RVersion r) w) rs) as Ef.
  { apply Forall_proper; [|done]. intros r. by rewrite valid_normalized. }
  setoid_rewrite Ef. setoid_rewrite guard_Ok.
  assert (adjacent_duplicate (sort_records rs) = false ↔ NoDup (key_of <$> rs)) as Hadj.
  { rewrite adjacent_duplicate_spec by apply sort_records_sorted. by rewrite sort_records_Permutation. }
  split.
  - intros (a & [Hf ->] & Hn & [= <-]). split_and!; [done|by apply Hadj|done].
  - intros (Hf & Hd & ->). exists rs. split_and!; [done..|by apply Hadj|done].
Qed.

(** Normalised records are normalised again to themselves. *)
Lemma normalizeCheckpointRecords_idem rs w l out :
  normalizeCheckpointRecords rs w l = Ok out → normalizeCheckpointRecords out w l = Ok out.
Proof.
  intros (Hz & Hf & Hd & ->)%normalizeCheckpointRecords_Ok. apply normalizeCheckpointRecords_Ok.
  split_and!; try by rewrite sort_records_Permutation.
  - intros Hw. by rewrite (Hz Hw).
  - symmetry. apply sort_records_id; [by rewrite sort_records_Permutation|apply sort_records_sorted].
Qed.
Lemma normalizeCheckpointRecords_normalized rs w l :
  normalizeCheckpointRecords rs w (normalized l) = normalizeCheckpointRecords rs w l.
Proof. unfold normalizeCheckpointRecords. by rewrite normalized_idem. Qed.

Lemma apply_all_Snapshot s : store_wf s → apply_all (NewStore (limits s)) (Snapshot s) = s.
Proof.
  intros Hs. rewrite apply_all_index; [|by apply Snapshot_valid|by apply Snapshot_NoDup].
  rewrite index_Snapshot, (wf_limits _ Hs) by done. by destruct s.
Qed.
Lemma NewStore_normalized l : NewStore (normalized l) = NewStore l.
Proof. unfold NewStore. by rewrite normalized_idem. Qed.
End store_facts.

(** ** Properties *)

(** C1: Replicas converge.  Two stores that start empty and are given the same
    set of records, in any order and with any repetition, end in the same
    state, provided no two valid records share key and version with different
    bodies; and that state holds under each key exactly the valid record of the
    greatest version.  This is the promise of docs/LIFECYCLE_V0_13.md. *)
Theorem Apply_converges `{UnicodePrint} l rs1 rs2
    (Hc : conflict_free l rs1) (Hsame : ∀ r, r ∈ rs1 ↔ r ∈ rs2) :
  apply_all (NewStore l) rs1 = apply_all (NewStore l) rs2 ∧
  ∀ k r, records (apply_all (NewStore l) rs1) !! k = Some r ↔ is_latest l rs1 k r.
Proof.
  split; [by apply apply_all_same|]. intros k r. pose proof (apply_all_latest l rs1 k) as Hl.
  destruct (_ !! k) as [a|]; split; try done.
  - by intros [= <-].
  - intros Hr. f_equal. by eapply (is_latest_unique l rs1 rs1).
  - intros (Hin & Hv & Hk & _). by destruct (Hl r).
Qed.

(** Applying a record returns what [Classify] announces; it changes the
    store only when the outcome is "applied", and then only under the record's
    key, where the version strictly grows; the type invariant of the store
    (valid records under their own keys) is kept. *)
Theorem Apply_effect `{UnicodePrint} r s (Hs : store_wf s) :
  (Apply r s).1 = Classify r s ∧
  store_wf (Apply r s).2 ∧
  ((∃ v, Classify r s = Ok (mkApplyResult OutcomeApplied v) ∧ v = RVersion r ∧
         records (Apply r s).2 = <[key_of r := r]> (records s) ∧
         ∀ p, records s !! key_of r = Some p → version_lt (RVersion p) (RVersion r)) ∨
   (∀ v, Classify r s ≠ Ok (mkApplyResult OutcomeApplied v)) ∧ (Apply r s).2 = s).
Proof.
  split; [apply Apply_result|]. split; [by apply Apply_wf|]. rewrite Apply_state. unfold Classify.
  destruct (Validate r (limits s)) as [[]|e]; cbn; [|right; naive_solver].
  remember (records s !! key_of r) as o eqn:Eo.
  destruct (classifyRecord_spec r o) as [|p Hp|p Hp|p Hp|p Hp]; cbn.
  - left. eexists. rewrite bool_decide_eq_true_2 by done. naive_solver.
  - left. eexists. rewrite bool_decide_eq_true_2 by done. naive_solver.
  - right. by rewrite bool_decide_eq_false_2.
  - right. by rewrite bool_decide_eq_false_2.
  - by right.
Qed.

(** Snapshots are canonical.  A snapshot lists exactly the stored records,
    each key once, ordered by namespace and key, and the order in which the Go
    map happens to be iterated has no influence on it. *)
Theorem Snapshot_canonical `{UnicodePrint} s l (Hs : store_wf s) (Hl : l ≡ₚ values s) :
  StronglySorted record_le (Snapshot s) ∧ NoDup (key_of <$> Snapshot s) ∧
  (∀ r, r ∈ Snapshot s ↔ records s !! key_of r = Some r) ∧
  sort_records l = Snapshot s ∧ len (Snapshot s) = Records (Stats s).
Proof.
  split_and!; [apply Snapshot_sorted|by apply Snapshot_NoDup|intros; by apply elem_of_Snapshot
              |by apply Snapshot_iteration|].
  unfold Stats, len. cbn. rewrite Snapshot_perm. unfold values. by rewrite length_fmap, length_map_to_list.
Qed.

(** A snapshot restores the state.  Installing the snapshot of one store in
    another with the same limits, or applying its records to an empty store,
    reproduces the first store. *)
Theorem ReplaceSnapshot_Snapshot `{UnicodePrint} s t (Hs : store_wf s) (Ht : limits t = limits s) :
  ReplaceSnapshot (Snapshot s) t = (Ok tt, s) ∧
  apply_all (NewStore (limits s)) (Snapshot s) = s.
Proof.
  assert (s = mkStore (limits s) (records s)) as Es by by destruct s.
  split.
  - apply ReplaceSnapshot_Ok. rewrite Ht. split_and!; [by apply Snapshot_valid|by apply Snapshot_NoDup|].
    by rewrite index_Snapshot.
  - by apply apply_all_Snapshot.
Qed.

(** [normalizeCheckpointRecords] succeeds on exactly the sets of valid
    records with distinct keys and versions up to the watermark (none under the
    zero watermark); its result is the records in key order, the same for every
    order of the input. *)
Theorem normalizeCheckpointRecords_exact `{UnicodePrint} rs w l :
  (is_Ok (normalizeCheckpointRecords rs w l) = true ↔
   (w = zero_version → rs = []) ∧
   Forall (λ r, valid l r = true ∧ version_le (RVersion r) w) rs ∧ NoDup (key_of <$> rs)) ∧
  ∀ out, normalizeCheckpointRecords rs w l = Ok out →
    out ≡ₚ rs ∧ StronglySorted record_le out ∧
    ∀ rs', rs' ≡ₚ rs → normalizeCheckpointRecords rs' w l = Ok out.
Proof.
  split.
  - destruct (normalizeCheckpointRecords rs w l) as [out|e] eqn:E.
    + apply normalizeCheckpointRecords_Ok in E. naive_solver.
    + split; [done|]. intros (Hz & Hf & Hd).
      rewrite (proj2 (normalizeCheckpointRecords_Ok rs w l (sort_records rs))) in E; done.
  - intros out (Hz & Hf & Hd & ->)%normalizeCheckpointRecords_Ok.
    split_and!; [apply sort_records_Permutation|apply sort_records_sorted|].
    intros rs' Hp. apply normalizeCheckpointRecords_Ok. split_and!; [|by rewrite Hp..|].
    + intros Hw. specialize (Hz Hw). subst. by apply Permutation_nil_r.
    + apply sort_records_perm; [done|]. by symmetry.
Qed.

(** Records for the concrete runs. *)
Definition ex_deleted (k : Z) (v : Z) : record :=
  mkRecord (lit "photos") [Zbyte k] StateDeleted [] (mkVersion 1 v) (lit "node-a").
Definition ex_store : Store := @apply_all ascii_print (NewStore zero_limits) [ex_deleted 98 1; ex_deleted 97 2].

Lemma ex_conflict_free :
  @conflict_free ascii_print zero_limits [ex_deleted 98 1; ex_deleted 97 2; ex_deleted 98 3].
Proof. 
  intros a b Ha Hb _ _ _ Hv. rewrite !elem_of_cons, elem_of_nil in Ha, Hb.
  destruct Ha as [->|[->|[->|[]]]], Hb as [->|[->|[->|[]]]]; done.
Qed.
Lemma ex_store_wf : @store_wf ascii_print ex_store.
Proof. apply apply_all_wf, store_wf_New. Qed.

Lemma Apply_converges_witness :
  @apply_all ascii_print (NewStore zero_limits) [ex_deleted 98 1; ex_deleted 97 2; ex_deleted 98 3] =
  @apply_all ascii_print (NewStore zero_limits)
    [ex_deleted 98 3; ex_deleted 97 2; ex_deleted 98 1; ex_deleted 98 3].
Proof.
  apply (@Apply_converges ascii_print zero_limits); [exact ex_conflict_free|].
  intros r. rewrite !elem_of_cons. tauto.
Defined.

Lemma Apply_effect_witness :
  (@Apply ascii_print (ex_deleted 98 3) ex_store).1 = @Classify ascii_print (ex_deleted 98 3) ex_store.
Proof. apply (@Apply_effect ascii_print). exact ex_store_wf. Defined.

Lemma Snapshot_canonical_witness :
  Snapshot ex_store = [ex_deleted 97 2; ex_deleted 98 1] ∧
  sort_records (reverse (values ex_store)) = Snapshot ex_store.
Proof.
  split; [vm_compute; reflexivity|].
  apply (@Snapshot_canonical ascii_print ex_store (reverse (values ex_store))); [exact ex_store_wf|].
  apply reverse_Permutation.
Defined.

Lemma ReplaceSnapshot_Snapshot_witness :
  @ReplaceSnapshot ascii_print (Snapshot ex_store) (NewStore zero_limits) = (Ok tt, ex_store).
Proof. apply (@ReplaceSnapshot_Snapshot ascii_print); [exact ex_store_wf|reflexivity]. Defined.
