(* ===== verification/Codec.v ===== *)
(** * The durable encodings of internal/lifecycle/journal.go

    Checksummed envelopes, the journal header, the JSON of records and
    checkpoints, and the journal parser with its recovery of a torn tail.
    The theorems are the round trips between each encoder and its decoder. *)
From S2P Require Import Prelude Go Bits Text Json Model.

(** ** Slices *)

(** The Go slice expression [data[lo:hi]], within bounds. *)
Definition slice {A} (data : list A) (lo hi : Z) : list A :=
  take (Z.to_nat (hi - lo)) (drop (Z.to_nat lo) data).

Definition MaxUint32 : Z := 2 ^ 32 - 1.

(** ** Envelopes *)

Definition encodeEnvelope (payload : bytes) : result bytes :=
  if (len payload =? 0) || (MaxUint32 <? len payload) then Err ErrRecordTooLarge
  else Ok (be_put 4 (len payload) ++ payload ++ be_put 4 (crc32c payload)).

Definition decodeEnvelope (data : bytes) (offset max : Z) (corrupt checksum : error) : result (bytes * Z) :=
  if (offset <? 0) || (len data <? offset) || (len data - offset <? 4) then Err corrupt
  else
    let length := be_get (slice data offset (offset + 4)) in
    if (length <=? 0) || (max <? length) then Err corrupt
    else
      let total := 4 + length + 4 in
      if len data - offset <? total then Err corrupt
      else
        let payload := slice data (offset + 4) (offset + 4 + length) in
        let want := be_get (slice data (offset + 4 + length) (offset + total)) in
        if negb (crc32c payload =? want) then Err checksum
        else Ok (payload, offset + total).

(** ** The journal header *)

Definition journalHeaderBytes : Z := 28.
Definition journalFormat : Z := 1.
Definition journalMagic : bytes := Eval cbv in lit "SHLJ".

Definition header_body (floor : Version) : bytes :=
  journalMagic ++ [Zbyte journalFormat; Zbyte 0; Zbyte 0; Zbyte 0] ++
  be_put 8 (Epoch floor) ++ be_put 8 (Sequence floor).
Definition encodeJournalHeader (floor : Version) : bytes :=
  header_body floor ++ be_put 4 (crc32c (header_body floor)).

Definition decodeJournalHeader (header : bytes) : result Version :=
  if negb (len header =? journalHeaderBytes) || negb (bool_decide (slice header 0 4 = journalMagic)) ||
     negb (bool_decide (slice header 4 5 = [Zbyte journalFormat]))
  then Err ErrJournalCorrupt
  else if negb (crc32c (slice header 0 24) =? be_get (slice header 24 28)) then Err ErrJournalChecksum
  else Ok (mkVersion (be_get (slice header 8 16)) (be_get (slice header 16 24))).

(** ** JSON targets *)

(** A struct field: read the part, decode into it, store it back. *)
Definition field {A B} (get : A → B) (set : B → A → A) (d : decoder B) : decoder A := λ old j,
  match d (get old) j with Some x => Some (set x old) | None => None end.

Definition dec_version (strict : bool) : decoder Version :=
  dec_struct strict
    [(lit "epoch", field Epoch (λ x v, mkVersion x (Sequence v)) (dec_uint 64));
     (lit "sequence", field Sequence (λ x v, mkVersion (Epoch v) x) (dec_uint 64))].

Definition record_fields (strict : bool) : list (bytes * decoder record) :=
  [(lit "namespace", field Namespace
      (λ x r, mkRecord x (LogicalKey r) (State r) (BlobKey r) (RVersion r) (AuthorityID r)) dec_bytes);
   (lit "logical_key", field LogicalKey
      (λ x r, mkRecord (Namespace r) x (State r) (BlobKey r) (RVersion r) (AuthorityID r)) dec_bytes);
   (lit "state", field State
      (λ x r, mkRecord (Namespace r) (LogicalKey r) x (BlobKey r) (RVersion r) (AuthorityID r)) dec_string);
   (lit "blob_key", field BlobKey
      (λ x r, mkRecord (Namespace r) (LogicalKey r) (State r) x (RVersion r) (AuthorityID r)) dec_bytes);
   (lit "version", field RVersion
      (λ x r, mkRecord (Namespace r) (LogicalKey r) (State r) (BlobKey r) x (AuthorityID r)) (dec_version strict));
   (lit "authority_id", field AuthorityID
      (λ x r, mkRecord (Namespace r) (LogicalKey r) (State r) (BlobKey r) (RVersion r) x) dec_string)].
Definition dec_record (strict : bool) : decoder record := dec_struct strict (record_fields strict).

(** [json.Unmarshal(payload, &target)] for a target that holds its zero value. *)
Definition json_Unmarshal {A} (dec : decoder A) (zero : A) (payload : bytes) : option A :=
  match unmarshal payload with Some j => dec zero j | None => None end.

(** ** Checkpoints *)

Record Checkpoint := mkCheckpoint { Watermark : Version; CRecords : list record }.
Definition zero_checkpoint : Checkpoint := mkCheckpoint zero_version [].

Definition json_checkpoint (c : Checkpoint) : json :=
  JObj [(lit "watermark", json_version (Watermark c)); (lit "records", JArr (json_record <$> CRecords c))].
Definition dec_checkpoint : decoder Checkpoint :=
  dec_struct false
    [(lit "watermark", field Watermark (λ x c, mkCheckpoint x (CRecords c)) (dec_version false));
     (lit "records", field CRecords (λ x c, mkCheckpoint (Watermark c) x) (dec_slice (dec_record false) zero_record))].

Section codec.
Context `{UnicodePrint}.

Definition normalizeCheckpoint (checkpoint : Checkpoint) (l : Limits) : result (Checkpoint * Limits) :=
  let l := normalized l in
  rs <-? normalizeCheckpointRecords (CRecords checkpoint) (Watermark checkpoint) l ;
  Ok (mkCheckpoint (Watermark checkpoint) rs, l).

Definition encodeCheckpoint (checkpoint : Checkpoint) (l : Limits) : result (bytes * Limits) :=
  let l := normalized l in
  '(normal, _) <-? normalizeCheckpoint checkpoint l ;
  let payload := marshal (json_checkpoint normal) in
  envelope <-? encodeEnvelope payload ;
  if MaxCheckpointBytes l <? len envelope then Err ErrCheckpointTooLarge else Ok (envelope, l).

(** The part of [LoadCheckpoint] after the file has been read. *)
Definition decodeCheckpoint (data : bytes) (l : Limits) : result Checkpoint :=
  '(payload, next) <-? decodeEnvelope data 0 (MaxCheckpointBytes l) ErrCheckpointCorrupt ErrCheckpointChecksum ;
  if negb (next =? len data) then Err ErrCheckpointCorrupt
  else match json_Unmarshal dec_checkpoint zero_checkpoint payload with
       | None => Err (EWrap ErrCheckpointCorrupt)
       | Some checkpoint => '(normal, _) <-? normalizeCheckpoint checkpoint l ; Ok normal
       end.

(** ** The journal file *)

(** One round of the loop of [parseJournal]; [rest] is [data[offset:]]. *)
Inductive parse_step :=
  | PEnd                              (* offset = len(data) *)
  | PTorn                             (* a short final envelope *)
  | PFail (e : error)
  | PEntry (r : record) (total : Z).  (* the record, and offset += total *)

Definition parse_one (l : Limits) (rest : bytes) (last : Version) : parse_step :=
  let remaining := len rest in
  if remaining =? 0 then PEnd
  else if remaining <? 4 then PTorn
  else
    let length := be_get (slice rest 0 4) in
    if (length <=? 0) || (MaxRecordBytes l <? length) then PFail ErrJournalCorrupt
    else
      let total := 4 + length + 4 in
      if remaining <? total then PTorn
      else
        let payload := slice rest 4 (4 + length) in
        let want := be_get (slice rest (4 + length) total) in
        if negb (crc32c payload =? want) then PFail ErrJournalChecksum
        else match json_Unmarshal (dec_record false) zero_record payload with
             | None => PFail (EWrap ErrJournalCorrupt)
             | Some r =>
                 match Validate r l with
                 | Err _ => PFail (EWrap ErrJournalCorrupt)
                 | Ok _ =>
                     if Compare (RVersion r) last <=? 0 then PFail ErrJournalVersionOrder
                     else PEntry (clone r) total
                 end
             end.

(** Every round that continues consumes at least nine bytes, so the length of
    the data is enough fuel ([parse_entries_spec]). *)
Fixpoint parse_entries (fuel : nat) (l : Limits) (rest : bytes) (offset : Z) (last : Version)
    (acc : list record) : result (list record * Z * bool) :=
  match fuel with
  | O => Err ErrUnexpectedEOF
  | S f =>
      match parse_one l rest last with
      | PEnd => Ok (acc, offset, false)
      | PTorn => Ok (acc, offset, true)
      | PFail e => Err e
      | PEntry r total =>
          parse_entries f l (drop (Z.to_nat total) rest) (offset + total) (RVersion r) (acc ++ [r])
      end
  end.

Definition parseJournal (data : bytes) (l : Limits) : result (Version * list record * Z * bool) :=
  if len data <? journalHeaderBytes then Err ErrJournalCorrupt
  else
    headerFloor <-? decodeJournalHeader (slice data 0 journalHeaderBytes) ;
    '(rs, offset, truncated) <-?
      parse_entries (S (length data)) l (drop (Z.to_nat journalHeaderBytes) data)
        journalHeaderBytes headerFloor [] ;
    Ok (headerFloor, rs, offset, truncated).

End codec.

(** ** Slices and envelopes *)

Lemma slice_mid {A} (a b c : list A) lo hi :
  lo = len a → hi = len a + len b → slice (a ++ b ++ c) lo hi = b.
Proof.
  unfold slice, len. intros -> ->. rewrite Nat2Z.id, drop_app_length.
  replace (Z.to_nat _) with (length b) by lia. by rewrite take_app_length.
Qed.
Lemma slice_start {A} (b c : list A) hi : hi = len b → slice (b ++ c) 0 hi = b.
Proof. intros ->. by apply (slice_mid []). Qed.
Lemma slice_end {A} (a b : list A) lo hi : lo = len a → hi = len a + len b → slice (a ++ b) lo hi = b.
Proof. intros. rewrite <- (app_nil_r b) at 1. by apply slice_mid. Qed.
(** A slice that ends inside a prefix does not see what follows it. *)
Lemma slice_app {A} (a b : list A) lo hi : 0 <= lo → hi <= len a → slice (a ++ b) lo hi = slice a lo hi.
Proof.
  unfold slice, len. intros Hlo Hhi. destruct (decide (hi <= lo)).
  { replace (Z.to_nat (hi - lo)) with O by lia. done. }
  rewrite drop_app_le by lia. rewrite take_app_le; [done|]. rewrite length_drop. lia.
Qed.
Lemma len_slice {A} (a : list A) lo hi : 0 <= lo <= hi → hi <= len a → len (slice a lo hi) = hi - lo.
Proof. unfold slice. intros. len. Qed.
Lemma slice_take {A} (a : list A) n lo hi :
  0 <= lo → hi <= n → n <= len a → slice (take (Z.to_nat n) a) lo hi = slice a lo hi.
Proof.
  intros. rewrite <- (take_drop (Z.to_nat n) a) at 2. symmetry. apply slice_app; [done|].
  len.
Qed.

Definition crc_word (payload : bytes) : bytes := be_put 4 (crc32c payload).
Lemma be_get_crc payload : be_get (crc_word payload) = crc32c payload.
Proof. apply be_get_put. pose proof (crc32c_range payload). lia. Qed.
Lemma len_crc_word payload : len (crc_word payload) = 4.
Proof. apply len_be_put. Qed.
Lemma len_be_put4 z : len (be_put 4 z) = 4.
Proof. apply len_be_put. Qed.
Lemma len_be_put8 z : len (be_put 8 z) = 8.
Proof. apply len_be_put. Qed.
#[export] Hint Rewrite len_be_put4 len_be_put8 len_crc_word : len.

Lemma encodeEnvelope_Ok payload env :
  encodeEnvelope payload = Ok env ↔
  0 < len payload <= MaxUint32 ∧ env = be_put 4 (len payload) ++ payload ++ crc_word payload.
Proof.
  unfold encodeEnvelope, crc_word. pose proof (len_nonneg payload). rewrite guard_Ok, orb_false_iff, Z.eqb_neq, Z.ltb_ge.
  split; [intros [? [= <-]]|intros [? ->]]; (split; [lia|done]).
Qed.
Lemma len_envelope payload env : encodeEnvelope payload = Ok env → len env = len payload + 8.
Proof. intros [_ ->]%encodeEnvelope_Ok. len. Qed.

(** [decodeEnvelope] finds an envelope at any offset, whatever follows it. *)
Lemma decodeEnvelope_at pre payload env post max c k :
  encodeEnvelope payload = Ok env → len payload <= max →
  decodeEnvelope (pre ++ env ++ post) (len pre) max c k = Ok (payload, len pre + len env).
Proof.
  intros He Hmax. pose proof (len_envelope _ _ He) as Hlen.
  apply encodeEnvelope_Ok in He as [Hp ->]. unfold decodeEnvelope, MaxUint32 in *.
  pose proof (len_nonneg pre). pose proof (len_nonneg post).
  rewrite <- !app_assoc.
  assert (slice (pre ++ be_put 4 (len payload) ++ payload ++ crc_word payload ++ post)
            (len pre) (len pre + 4) = be_put 4 (len payload)) as -> by (apply slice_mid; len).
  rewrite be_get_put by lia.
  assert (slice (pre ++ be_put 4 (len payload) ++ payload ++ crc_word payload ++ post)
            (len pre + 4) (len pre + 4 + len payload) = payload) as ->.
  { rewrite (app_assoc pre). apply slice_mid; len. }
  assert (slice (pre ++ be_put 4 (len payload) ++ payload ++ crc_word payload ++ post)
            (len pre + 4 + len payload) (len pre + (4 + len payload + 4)) = crc_word payload) as ->.
  { rewrite (app_assoc pre), (app_assoc (pre ++ _)). apply slice_mid; len. }
  rewrite be_get_crc, Z.eqb_refl. autorewrite with len in *.
  decide_ifs. do 2 f_equal. lia.
Qed.

(** ** The header *)

Definition version_u64 (v : Version) : Prop := 0 <= Epoch v < 2 ^ 64 ∧ 0 <= Sequence v < 2 ^ 64.
#[export] Instance version_u64_dec v : Decision (version_u64 v).
Proof. unfold version_u64. solve_decision. Defined.

Lemma len_journalHeader v : len (encodeJournalHeader v) = journalHeaderBytes.
Proof. unfold encodeJournalHeader, header_body, journalMagic, journalHeaderBytes. len. Qed.

Lemma decode_encode_header v : version_u64 v → decodeJournalHeader (encodeJournalHeader v) = Ok v.
Proof.
  intros [He Hs]. unfold decodeJournalHeader. rewrite len_journalHeader, Z.eqb_refl.
  set (h := encodeJournalHeader v).
  assert (h = journalMagic ++ [Zbyte journalFormat] ++ [Zbyte 0; Zbyte 0; Zbyte 0] ++
              be_put 8 (Epoch v) ++ be_put 8 (Sequence v) ++ crc_word (header_body v)) as Eh.
  { unfold h, encodeJournalHeader, header_body. by rewrite <- !app_assoc. }
  assert (slice h 0 4 = journalMagic) as -> by (rewrite Eh; by apply slice_start).
  assert (slice h 4 5 = [Zbyte journalFormat]) as -> by (rewrite Eh; by apply slice_mid).
  assert (slice h 0 24 = header_body v) as ->
    by (apply slice_start; unfold header_body, journalMagic; len).
  assert (slice h 24 28 = crc_word (header_body v)) as ->
    by (apply slice_end; unfold header_body, journalMagic; len).
  assert (slice h 8 16 = be_put 8 (Epoch v)) as ->.
  { rewrite Eh, !(app_assoc journalMagic), !(app_assoc (journalMagic ++ _)).
    apply slice_mid; unfold journalMagic; len. }
  assert (slice h 16 24 = be_put 8 (Sequence v)) as ->.
  { rewrite Eh, !(app_assoc journalMagic), !(app_assoc (journalMagic ++ _)),
      !(app_assoc ((journalMagic ++ _) ++ _)). apply slice_mid; unfold journalMagic; len. }
  rewrite !bool_decide_eq_true_2, be_get_crc, Z.eqb_refl by done. cbn [negb orb].
  rewrite !be_get_put by done. by destruct v.
Qed.

(** ** JSON of versions, records and checkpoints *)

Lemma dec_members_hit {A} strict fields (old x : A) k v kvs d :
  find_field fields k = Some d → d old v = Some x →
  dec_members strict fields old ((k, v) :: kvs) = dec_members strict fields x kvs.
Proof. cbn. by intros -> ->. Qed.
Lemma field_Some {A B} (get : A → B) set d old j x :
  d (get old) j = Some x → field get set d old j = Some (set x old).
Proof. unfold field. by intros ->. Qed.
Lemma dec_bytes_json old b : dec_bytes old (json_bytes b) = Some b.
Proof. apply b64_decode_encode. Qed.
Lemma dec_uint_json old n : 0 <= n < 2 ^ 64 → dec_uint 64 old (JNum (decimal n)) = Some n.
Proof. apply parse_uint_decimal. Qed.

(** Decode the next member of an object. *)
Ltac json_member :=
  erewrite dec_members_hit; [|reflexivity|apply field_Some].

Lemma dec_version_json strict old v : version_u64 v → dec_version strict old (json_version v) = Some v.
Proof.
  intros [He Hs]. unfold dec_version, json_version, dec_struct.
  json_member; [|by apply dec_uint_json]. json_member; [|by apply dec_uint_json]. by destruct v.
Qed.

Lemma dec_record_json strict r :
  version_u64 (RVersion r) → dec_record strict zero_record (json_record r) = Some r.
Proof.
  intros Hv. unfold dec_record, json_record, dec_struct. cbn [app].
  json_member; [|apply dec_bytes_json]. json_member; [|apply dec_bytes_json]. json_member; [|reflexivity].
  destruct r as [ns lk st bk v a]. cbn [Namespace LogicalKey State BlobKey RVersion AuthorityID] in *.
  destruct (decide (bk = [])) as [->|Hb]; cbn [app].
  - json_member; [|by apply dec_version_json]. by json_member; [|reflexivity].
  - json_member; [|apply dec_bytes_json]. json_member; [|by apply dec_version_json].
    by json_member; [|reflexivity].
Qed.

Lemma ascii_valid s : Forall (λ b, byteZ b < 128) s → utf8_ValidString s = true.
Proof.
  intros Hs. unfold utf8_ValidString.
  assert (runes s = byteZ <$> s) as ->.
  { induction Hs as [|b s Hb Hs IH]; [done|]. cbn [fmap list_fmap]. rewrite <- IH.
    rewrite <- (Zbyte_byteZ b) at 1. apply runes_one. pose proof (byteZ_range b). lia. }
  apply forallb_forall. intros z Hz. apply list_elem_of_In, list_elem_of_fmap in Hz as (b & -> & _).
  pose proof (byteZ_range b). lia.
Qed.
Lemma b64_valid s : utf8_ValidString (b64_encode s) = true.
Proof.
  apply ascii_valid. eapply Forall_impl; [apply b64_encode_chars|]. cbn. intros b. lia.
Qed.

Lemma json_version_ok v : version_u64 v → json_ok (json_version v).
Proof.
  intros [He Hs]. cbn [json_version json_ok List.fold_right fst snd].
  split_and!; [vm_compute; reflexivity|by exists (Epoch v)|vm_compute; reflexivity|by exists (Sequence v)|done].
Qed.
Lemma json_version_depth v : json_depth (json_version v) = 1.
Proof. reflexivity. Qed.

(** A record whose strings are UTF-8 and whose version fits 64 bits. *)
Record record_ok (r : record) : Prop := {
  ok_state : utf8_ValidString (State r) = true;
  ok_authority : utf8_ValidString (AuthorityID r) = true;
  ok_version : version_u64 (RVersion r)
}.

Lemma json_record_ok r : record_ok r → json_ok (json_record r) ∧ json_depth (json_record r) = 2.
Proof.
  intros [Hs Ha Hv]. pose proof (json_version_ok _ Hv) as Hj. pose proof (b64_valid (Namespace r)).
  pose proof (b64_valid (LogicalKey r)). pose proof (b64_valid (BlobKey r)).
  unfold json_record. destruct (decide (BlobKey r = [])); cbn [app json_ok json_depth List.fold_right snd fst json_bytes];
    rewrite json_version_depth; split; try done; split_and!; done.
Qed.

Lemma record_roundtrip r :
  record_ok r → json_Unmarshal (dec_record false) zero_record (marshal (json_record r)) = Some r.
Proof.
  intros Hr. destruct (json_record_ok _ Hr) as [Hj Hd]. unfold json_Unmarshal.
  rewrite unmarshal_marshal by (done || rewrite Hd; done). by apply dec_record_json, Hr.
Qed.

Lemma dec_slice_json {A} (dec : decoder A) zero (enc : A → json) l old :
  (old = []) → (∀ x, x ∈ l → dec zero (enc x) = Some x) →
  dec_slice dec zero old (JArr (enc <$> l)) = Some l.
Proof.
  intros ->. cbn [dec_slice]. induction l as [|x l IH]; intros Hl; [done|].
  cbn [fmap list_fmap dec_elems hd tl]. rewrite (Hl x) by by left.
  rewrite IH; [done|]. intros y Hy. apply Hl. by right.
Qed.

Lemma json_array_ok {A} (enc : A → json) l d :
  0 <= d → (∀ x, x ∈ l → json_ok (enc x) ∧ json_depth (enc x) <= d) →
  json_ok (JArr (enc <$> l)) ∧ json_depth (JArr (enc <$> l)) <= 1 + d.
Proof.
  intros Hd Hl. cbn. induction l as [|x l IH]; cbn; [split; [done|lia]|].
  destruct (Hl x) as [Hx1 Hx2]; [by left|]. destruct IH as [IH1 IH2]; [intros y Hy; apply Hl; by right|].
  split; [done|]. lia.
Qed.

(** An object is well formed when its members are. *)
Lemma json_fields_ok kvs d :
  0 <= d → Forall (λ kv, utf8_ValidString kv.1 = true ∧ json_ok kv.2 ∧ json_depth kv.2 <= d) kvs →
  json_ok (JObj kvs) ∧ json_depth (JObj kvs) <= 1 + d.
Proof.
  intros Hd. cbn. induction 1 as [|[k v] kvs (Hk & Hv & Hdv) Hf [IH1 IH2]]; cbn; [split; [done|lia]|].
  cbn in *. split; [done|]. lia.
Qed.

(** Discharge the fields of an object. *)
Ltac fields_ok :=
  repeat (apply Forall_cons_2; [split_and!; [vm_compute; reflexivity|..]|]); try apply Forall_nil_2.

Lemma checkpoint_roundtrip c :
  version_u64 (Watermark c) → (∀ r, r ∈ CRecords c → record_ok r) →
  json_Unmarshal dec_checkpoint zero_checkpoint (marshal (json_checkpoint c)) = Some c.
Proof.
  intros Hw Hr.
  destruct (json_array_ok json_record (CRecords c) 2) as [Hj Hd]; [done| |].
  { intros r Hin. destruct (json_record_ok r (Hr r Hin)) as [? ->]. done. }
  pose proof (json_version_ok _ Hw) as Hjw.
  unfold json_Unmarshal. rewrite unmarshal_marshal.
  - unfold json_checkpoint, dec_checkpoint, dec_struct. json_member; [|by apply dec_version_json].
    json_member; [|apply dec_slice_json; [done|intros r Hin; by apply dec_record_json, Hr]].
    by destruct c.
  - cbn [json_checkpoint json_ok List.fold_right fst snd]. split_and!; done.
  - unfold json_checkpoint. cbn [json_depth List.fold_right fst snd]. rewrite json_version_depth.
    cbn [json_depth] in Hd. unfold max_depth. lia.
Qed.

(** Decoding keeps an invariant of the target that every field keeps. *)
Lemma dec_members_inv {A} (P : A → Prop) strict fields kvs (old x : A) :
  (∀ k d, (k, d) ∈ fields → ∀ o j y, P o → d o j = Some y → P y) →
  P old → dec_members strict fields old kvs = Some x → P x.
Proof.
  intros Hf. assert (∀ k d, find_field fields k = Some d → ∃ k', (k', d) ∈ fields) as Hfind.
  { intros k d. clear Hf. induction fields as [|[k' d'] fs IH]; [done|]. cbn. case_bool_decide.
    - intros [= ->]. exists k'. by left.
    - intros Hk. destruct (IH Hk) as [k'' ?]. exists k''. by right. }
  revert old. induction kvs as [|[k v] kvs IH]; intros old Hold; cbn; [by intros [= <-]|].
  destruct (find_field fields k) as [d|] eqn:E.
  - destruct (d old v) as [y|] eqn:Ey; [|done]. apply IH. apply Hfind in E as [k' Hk]. by eapply Hf.
  - destruct strict; [done|]. by apply IH.
Qed.
Lemma dec_struct_inv {A} (P : A → Prop) strict fields (old x : A) j :
  (∀ k d, (k, d) ∈ fields → ∀ o j y, P o → d o j = Some y → P y) →
  P old → dec_struct strict fields old j = Some x → P x.
Proof.
  intros Hf Hold. destruct j; cbn; try done; [by intros [= <-]|]. by apply dec_members_inv.
Qed.
Lemma field_inv {A B} (get : A → B) set (d : decoder B) old j y :
  field get set d old j = Some y ↔ ∃ x, d (get old) j = Some x ∧ y = set x old.
Proof. unfold field. destruct (d (get old) j); naive_solver. Qed.

Lemma undigits_nonneg acc l : 0 <= acc → forallb is_digit l = true → 0 <= undigits acc l.
Proof.
  revert acc. induction l as [|c l IH]; intros acc Hacc; cbn; [done|]. rewrite andb_true_iff.
  intros [Hc Hl]. apply IH; [|done]. unfold is_digit, in_range in Hc. lia.
Qed.
Lemma dec_uint64_range old j x : 0 <= old < 2 ^ 64 → dec_uint 64 old j = Some x → 0 <= x < 2 ^ 64.
Proof.
  intros Hold. destruct j as [|b|l|s|js|kvs]; cbn; try done; [by intros [= <-]|].
  unfold parse_uint. destruct (bool_decide (l = []) || negb (forallb is_digit l)) eqn:E; [done|].
  case_match; [|done]. intros [= <-]. bool_to_prop. split; [|done]. by apply undigits_nonneg.
Qed.
Lemma dec_version_u64 strict old j v : version_u64 old → dec_version strict old j = Some v → version_u64 v.
Proof.
  apply dec_struct_inv. intros k d Hin o j' y [He Hs].
  rewrite !elem_of_cons, elem_of_nil in Hin. destruct Hin as [[= _ ->]|[[= _ ->]|[]]];
    intros (x & Hx & ->)%field_inv; (apply dec_uint64_range in Hx; [by split|done]).
Qed.
Lemma dec_record_u64 strict old j r :
  version_u64 (RVersion old) → dec_record strict old j = Some r → version_u64 (RVersion r).
Proof.
  apply (dec_struct_inv (λ r, version_u64 (RVersion r))). intros k d Hin o j' y Ho.
  unfold record_fields in Hin. rewrite !elem_of_cons, elem_of_nil in Hin.
  destruct Hin as [[= _ ->]|[[= _ ->]|[[= _ ->]|[[= _ ->]|[[= _ ->]|[[= _ ->]|[]]]]]]];
    intros (x & Hx & ->)%field_inv; try done. by eapply dec_version_u64.
Qed.

(** ** The journal file *)

Section journal_file.
Context `{UnicodePrint}.

Lemma valid_record_ok l r : valid l r = true → version_u64 (RVersion r) → record_ok r.
Proof.
  intros Hv%valid_Validate Hu. apply Validate_inv in Hv as (_ & _ & Ha & _ & Hs & _).
  split; [|clear Hs|done].
  - destruct Hs as [[-> _]|[-> _]]; vm_compute; reflexivity.
  - unfold validateAuthorityID in Ha. rewrite !guard_Ok in Ha. destruct Ha as (_ & _ & Ha & _).
    by apply negb_false_iff in Ha.
Qed.

(** The envelope of a record in the journal. *)
Definition entry (r : record) : bytes :=
  let payload := marshal (json_record r) in
  be_put 4 (len payload) ++ payload ++ crc_word payload.

Lemma marshal_object_pos kvs : 0 < len (marshal (JObj kvs)).
Proof.
  unfold marshal. cbn [print]. rewrite encode_cons, len_app.
  pose proof (len_nonneg (encode (join 125 (List.map (λ kv, print_str kv.1 ++ 58 :: print kv.2) kvs)))).
  change (len (rune_bytes 123)) with 1. lia.
Qed.
Lemma marshal_record_pos r : 0 < len (marshal (json_record r)).
Proof. apply marshal_object_pos. Qed.

(** Versions strictly increase along the journal, starting above the floor. *)
Fixpoint increasing (floor : Version) (rs : list record) : Prop :=
  match rs with
  | [] => True
  | r :: rs' => version_lt floor (RVersion r) ∧ increasing (RVersion r) rs'
  end.

(** The version of the last record, or the floor. *)
Definition last_version (floor : Version) (rs : list record) : Version :=
  match last rs with Some r => RVersion r | None => floor end.

(** How a file after its header reads: records, then a torn tail. *)
Inductive parses (l : Limits) : Version → bytes → list record → bytes → Prop :=
  | parses_end floor : parses l floor [] [] []
  | parses_torn floor rest : parse_one l rest floor = PTorn → parses l floor rest [] rest
  | parses_entry floor rest r total rs torn :
      parse_one l rest floor = PEntry r total →
      parses l (RVersion r) (drop (Z.to_nat total) rest) rs torn →
      parses l floor rest (r :: rs) torn.

Lemma parse_one_PEnd l rest floor : parse_one l rest floor = PEnd ↔ rest = [].
Proof.
  unfold parse_one. rewrite <- len_zero. split; [|by intros ->]. repeat case_match; try done. lia.
Qed.
Lemma parse_one_PTorn l rest floor : parse_one l rest floor = PTorn → rest ≠ [].
Proof. intros E ->. done. Qed.

Lemma parse_one_PEntry l rest floor r total :
  parse_one l rest floor = PEntry r total →
  9 <= total <= len rest ∧ valid l r = true ∧ version_u64 (RVersion r) ∧ version_lt floor (RVersion r).
Proof.
  unfold parse_one. repeat case_match; try done. intros [= <- <-]. bool_to_prop. rewrite clone_id.
  split_and!; try lia.
  - by eapply Validate_Ok.
  - rename select (json_Unmarshal _ _ _ = _) into Hj. unfold json_Unmarshal in Hj. case_match; [|done].
    eapply dec_record_u64; [|done]. done.
  - apply Compare_gt. lia.
Qed.

(** A complete entry is read the same whatever follows it. *)
Lemma parse_one_app l rest more floor r total :
  parse_one l rest floor = PEntry r total → parse_one l (rest ++ more) floor = PEntry r total.
Proof.
  intros Hp. pose proof (parse_one_PEntry _ _ _ _ _ Hp) as [Ht _]. revert Hp.
  unfold parse_one. pose proof (len_nonneg more).
  rewrite (slice_app rest more 0 4) by (try lia).
  destruct (len rest =? 0) eqn:E0; [done|]. destruct (len rest <? 4) eqn:E1; [done|].
  case_match eqn:E2; [done|]. destruct (len rest <? _) eqn:E3 at 1; [done|].
  rewrite !slice_app by (try lia). intros <-. rewrite len_app. decide_ifs. done.
Qed.

Lemma parse_one_take l rest floor r total :
  parse_one l rest floor = PEntry r total →
  parse_one l (take (Z.to_nat total) rest) floor = PEntry r total.
Proof.
  intros Hp. pose proof (parse_one_PEntry _ _ _ _ _ Hp) as [Ht _]. revert Hp.
  unfold parse_one. assert (len (take (Z.to_nat total) rest) = total) as Hlen by (len; lia).
  rewrite Hlen. rewrite (slice_take rest total 0 4) by lia.
  destruct (len rest =? 0) eqn:E0; [done|]. destruct (len rest <? 4) eqn:E1; [done|].
  destruct ((be_get (slice rest 0 4) <=? 0) || (MaxRecordBytes l <? be_get (slice rest 0 4))) eqn:E2; [done|].
  destruct (len rest <? 4 + be_get (slice rest 0 4) + 4) eqn:E3; [done|]. intros Hp.
  assert (total = 4 + be_get (slice rest 0 4) + 4) as Et by (repeat case_match; congruence).
  rewrite !slice_take by lia. rewrite <- Hp. rewrite Et. decide_ifs. done.
Qed.

(** Composition: complete entries followed by more of the file. *)
Lemma parses_app l floor rest rs more rs' torn :
  parses l floor rest rs [] → parses l (last_version floor rs) more rs' torn →
  parses l floor (rest ++ more) (rs ++ rs') torn.
Proof.
  intros Hp. remember [] as nt eqn:Ent. revert Ent.
  induction Hp as [floor|floor rest Ht|floor rest r total rs nt Hone Hp IH]; intros Ent Hm.
  - done.
  - subst. by apply parse_one_PTorn in Ht.
  - cbn [app]. pose proof (parse_one_PEntry _ _ _ _ _ Hone) as [Ht _].
    eapply parses_entry; [by apply parse_one_app|]. rewrite drop_app_le by (unfold len in Ht; lia).
    apply IH; [done|]. unfold last_version in *. rewrite last_cons in Hm. by destruct (last rs).
Qed.

(** The file is the complete entries and the torn tail. *)
Lemma parses_split l floor rest rs torn :
  parses l floor rest rs torn → ∃ body, rest = body ++ torn ∧ parses l floor body rs [].
Proof.
  induction 1 as [floor|floor rest Ht|floor rest r total rs torn Hone Hp (body & Hb & IH)].
  - exists []. split; [done|constructor].
  - exists []. split; [done|constructor].
  - exists (take (Z.to_nat total) rest ++ body). split; [by rewrite <- app_assoc, <- Hb, take_drop|].
    pose proof (parse_one_PEntry _ _ _ _ _ Hone) as [Ht _].
    eapply parses_entry; [by eapply parse_one_app, parse_one_take|].
    rewrite drop_app_length'; [done|]. rewrite length_take. unfold len in Ht. lia.
Qed.

(** What the parser establishes for the records it returns. *)
Lemma parses_sound l floor rest rs torn :
  parses l floor rest rs torn →
  increasing floor rs ∧ Forall (λ r, valid l r = true ∧ version_u64 (RVersion r)) rs.
Proof.
  induction 1 as [| |floor rest r total rs torn Hone Hp [IH1 IH2]]; [by split; [|apply Forall_nil_2]..|].
  apply parse_one_PEntry in Hone as (_ & Hv & Hu & Hlt). split; [done|]. by apply Forall_cons_2.
Qed.

(** The loop of [parseJournal] with enough fuel. *)
Lemma parse_entries_spec f l rest offset floor acc out offset' truncated :
  (length rest < f)%nat →
  parse_entries f l rest offset floor acc = Ok (out, offset', truncated) ↔
  ∃ rs torn, parses l floor rest rs torn ∧ out = acc ++ rs ∧
    offset' = offset + len rest - len torn ∧ truncated = bool_decide (torn ≠ []).
Proof.
  revert rest offset floor acc. induction f as [|f IH]; intros rest offset floor acc Hf; [lia|].
  cbn [parse_entries]. destruct (parse_one l rest floor) as [| |e|r total] eqn:E.
  - apply parse_one_PEnd in E as ->. split.
    + intros [= <- <- <-]. exists [], []. split_and!; [constructor|by rewrite app_nil_r| |done]. len.
    + intros (rs & torn & Hp & -> & -> & ->). inversion Hp; subst; try done.
      * rewrite app_nil_r. do 3 f_equal. len.
  - split.
    + intros [= <- <- <-]. exists [], rest. split_and!; [by constructor|by rewrite app_nil_r|lia|].
      symmetry. apply bool_decide_eq_true. by eapply parse_one_PTorn.
    + intros (rs & torn & Hp & -> & -> & ->). inversion Hp; subst; try congruence.
      * by apply parse_one_PTorn in E.
      * rewrite app_nil_r, bool_decide_eq_true_2 by by eapply parse_one_PTorn. do 3 f_equal. lia.
  - split; [done|]. intros (rs & torn & Hp & _). inversion Hp; subst; congruence || done.
  - pose proof (parse_one_PEntry _ _ _ _ _ E) as [Ht _].
    rewrite IH by (rewrite length_drop; unfold len in Ht; lia). split.
    + intros (rs & torn & Hp & -> & -> & ->). exists (r :: rs), torn.
      split_and!; [by eapply parses_entry|by rewrite <- app_assoc| |done]. len.
    + intros (rs & torn & Hp & -> & -> & ->). inversion Hp as [| |? ? r' total' rs' torn' E' Hp']; subst; try congruence.
      * done.
      * rewrite E in E'. injection E' as <- <-. exists rs', torn.
        split_and!; [done|by rewrite <- app_assoc| |done]. len.
Qed.

(** [parseJournal] reads a header, complete entries and a torn tail. *)
Lemma parseJournal_Ok data l floor rs offset truncated :
  parseJournal data l = Ok (floor, rs, offset, truncated) ↔
  ∃ header rest torn, data = header ++ rest ∧ len header = journalHeaderBytes ∧
    decodeJournalHeader header = Ok floor ∧ parses l floor rest rs torn ∧
    offset = len data - len torn ∧ truncated = bool_decide (torn ≠ []).
Proof.
  unfold parseJournal. rewrite guard_Ok, Z.ltb_ge. setoid_rewrite rbind_Ok. setoid_rewrite rbind_Ok.
  change (slice data 0 journalHeaderBytes) with (take 28 data).
  change (Z.to_nat journalHeaderBytes) with 28%nat.
  split.
  - intros (Hlen & fl & Hh & [[out off] tr] & Hp & [= <- <- <- <-]).
    apply parse_entries_spec in Hp as (rs' & torn & Hp & -> & -> & ->); [|rewrite length_drop; lia].
    exists (take 28 data), (drop 28 data), torn. unfold journalHeaderBytes in *.
    split_and!; try done; [by rewrite take_drop|len; lia|]. rewrite len_drop. lia.
  - intros (header & rest & torn & -> & Hlen & Hh & Hp & -> & ->).
    assert (length header = 28%nat) as Hl by (unfold len, journalHeaderBytes in Hlen; lia).
    pose proof (len_nonneg rest). unfold journalHeaderBytes in *. split; [len|]. exists floor.
    rewrite take_app_length' by done. split; [done|]. exists (rs, len (header ++ rest) - len torn, bool_decide (torn ≠ [])).
    split; [|done]. rewrite drop_app_length' by done.
    apply parse_entries_spec; [rewrite length_app; lia|]. exists rs, torn.
    split_and!; [done|done| |done]. len.
Qed.

(** A record that the journal accepts. *)
Definition journalable (l : Limits) (r : record) : Prop :=
  valid l r = true ∧ version_u64 (RVersion r).

Lemma len_entry r : len (entry r) = len (marshal (json_record r)) + 8.
Proof. unfold entry. len. Qed.

Lemma entry_envelope l r :
  valid l r = true → MaxRecordBytes (normalized l) <= MaxUint32 →
  encodeEnvelope (marshal (json_record r)) = Ok (entry r).
Proof.
  intros Hv%valid_Validate Hmax. apply Validate_inv in Hv as (_ & _ & _ & _ & _ & Hlen).
  apply encodeEnvelope_Ok. pose proof (marshal_record_pos r). split; [lia|done].
Qed.

Lemma parse_one_entry l r more floor :
  normalized l = l → MaxRecordBytes l <= MaxUint32 → journalable l r → version_lt floor (RVersion r) →
  parse_one l (entry r ++ more) floor = PEntry r (len (entry r)).
Proof.
  intros Hn Hmax [Hv Hu] Hlt. pose proof (valid_record_ok _ _ Hv Hu) as Hok.
  apply valid_Validate in Hv as HV. apply Validate_inv in HV as (_ & _ & _ & _ & _ & Hlen). rewrite Hn in Hlen.
  pose proof (marshal_record_pos r). pose proof (len_nonneg more). rewrite len_entry.
  unfold parse_one, entry, MaxUint32 in *. set (p := marshal (json_record r)) in *.
  rewrite <- !app_assoc. rewrite (slice_start (be_put 4 (len p)) (p ++ crc_word p ++ more) 4); [|len].
  rewrite be_get_put by lia.
  assert (slice (be_put 4 (len p) ++ p ++ crc_word p ++ more) 4 (4 + len p) = p) as -> by (apply slice_mid; len).
  assert (slice (be_put 4 (len p) ++ p ++ crc_word p ++ more) (4 + len p) (4 + len p + 4) = crc_word p) as ->.
  { rewrite app_assoc. apply slice_mid; len. }
  rewrite be_get_crc, Z.eqb_refl. subst p. rewrite record_roundtrip by done.
  apply valid_Validate in Hv. rewrite Hv, clone_id. apply Compare_gt in Hlt. len. decide_ifs.
  f_equal. lia.
Qed.

(** A write that stopped inside an entry. *)
Definition torn_entry (l : Limits) (torn : bytes) : Prop :=
  ∃ r, journalable l r ∧ torn `prefix_of` entry r ∧ torn ≠ entry r.

Lemma parse_one_torn l torn floor :
  normalized l = l → MaxRecordBytes l <= MaxUint32 → torn_entry l torn → torn ≠ [] →
  parse_one l torn floor = PTorn.
Proof.
  intros Hn Hmax (r & [Hv Hu] & [t2 He] & Hne) Hnil.
  apply valid_Validate in Hv as HV. apply Validate_inv in HV as (_ & _ & _ & _ & _ & Hlen). rewrite Hn in Hlen.
  pose proof (marshal_record_pos r) as Hpos. unfold MaxUint32 in *.
  assert (len torn < len (entry r)) as Hshort.
  { rewrite He, len_app. pose proof (len_nonneg t2). destruct (decide (len t2 = 0)) as [Hz|]; [|lia].
    apply len_zero in Hz as ->. by rewrite app_nil_r in He. }
  rewrite len_entry in Hshort.
  unfold parse_one. rewrite <- len_zero in Hnil. pose proof (len_nonneg torn).
  replace (len torn =? 0) with false by lia. destruct (len torn <? 4) eqn:E4; [done|]. bool_to_prop.
  assert (slice torn 0 4 = be_put 4 (len (marshal (json_record r)))) as ->.
  { rewrite <- (slice_app torn t2) by lia. rewrite <- He. apply slice_start. len. }
  rewrite be_get_put by lia. decide_ifs. done.
Qed.

(** The bytes of a journal with a floor and records. *)
Definition journal_image (floor : Version) (rs : list record) : bytes :=
  encodeJournalHeader floor ++ concat (entry <$> rs).

Lemma parses_image l floor rs :
  normalized l = l → MaxRecordBytes l <= MaxUint32 → Forall (journalable l) rs → increasing floor rs →
  parses l floor (concat (entry <$> rs)) rs [].
Proof.
  intros Hn Hmax. revert floor. induction rs as [|r rs IH]; intros floor Hrs Hinc; [constructor|].
  apply Forall_cons in Hrs as [Hr Hrs]. destruct Hinc as [Hlt Hinc]. cbn [fmap list_fmap concat].
  eapply parses_entry; [by apply parse_one_entry|].
  rewrite drop_app_length'; [by apply IH|]. unfold len. lia.
Qed.

Lemma parseJournal_image l floor rs torn :
  normalized l = l → MaxRecordBytes l <= MaxUint32 → version_u64 floor →
  Forall (journalable l) rs → increasing floor rs → (torn = [] ∨ torn_entry l torn) →
  parseJournal (journal_image floor rs ++ torn) l =
  Ok (floor, rs, len (journal_image floor rs), bool_decide (torn ≠ [])).
Proof.
  intros Hn Hmax Hf Hrs Hinc Ht. apply parseJournal_Ok.
  exists (encodeJournalHeader floor), (concat (entry <$> rs) ++ torn), torn.
  unfold journal_image. rewrite <- app_assoc. split_and!; [done|apply len_journalHeader|by apply decode_encode_header| | |done].
  - rewrite <- (app_nil_r rs) at 2. apply parses_app; [by apply parses_image|].
    destruct (decide (torn = [])) as [->|Hne]; [constructor|].
    constructor. apply parse_one_torn; try done. by destruct Ht.
  - len.
Qed.

(** Appending an entry to a complete journal. *)
Lemma parseJournal_append l data floor rs offset r :
  normalized l = l → MaxRecordBytes l <= MaxUint32 →
  parseJournal data l = Ok (floor, rs, offset, false) →
  journalable l r → version_lt (last_version floor rs) (RVersion r) →
  parseJournal (data ++ entry r) l = Ok (floor, rs ++ [r], offset + len (entry r), false).
Proof.
  intros Hn Hmax (header & rest & torn & -> & Hl & Hh & Hp & -> & Ht)%parseJournal_Ok Hr Hlt.
  symmetry in Ht. apply bool_decide_eq_false in Ht. apply dec_stable in Ht as ->.
  apply parseJournal_Ok. exists header, (rest ++ entry r), []. rewrite <- app_assoc.
  split_and!; [done..| | |done]; [|len].
  apply parses_app; [done|]. rewrite <- (app_nil_r (entry r)). eapply parses_entry; [by apply parse_one_entry|].
  rewrite drop_app_length' by (unfold len; lia). constructor.
Qed.

(** A torn entry behind a complete journal is cut off. *)
Lemma parseJournal_torn l data floor rs offset torn :
  normalized l = l → MaxRecordBytes l <= MaxUint32 →
  parseJournal data l = Ok (floor, rs, offset, false) → torn_entry l torn →
  parseJournal (data ++ torn) l = Ok (floor, rs, offset, bool_decide (torn ≠ [])).
Proof.
  intros Hn Hmax (header & rest & t0 & -> & Hl & Hh & Hp & -> & Ht)%parseJournal_Ok Htorn.
  symmetry in Ht. apply bool_decide_eq_false in Ht. apply dec_stable in Ht as ->.
  apply parseJournal_Ok. exists header, (rest ++ torn), torn. rewrite <- app_assoc.
  split_and!; [done..| | |done]; [|len].
  rewrite <- (app_nil_r rs). apply parses_app; [done|].
  destruct (decide (torn = [])) as [->|Hne]; [constructor|]. constructor. by apply parse_one_torn.
Qed.

Lemma parseJournal_truncate l data floor rs offset truncated :
  parseJournal data l = Ok (floor, rs, offset, truncated) →
  journalHeaderBytes <= offset <= len data ∧ (truncated = false ↔ offset = len data) ∧
  parseJournal (take (Z.to_nat offset) data) l = Ok (floor, rs, offset, false).
Proof.
  intros (header & rest & torn & -> & Hl & Hh & Hp & -> & ->)%parseJournal_Ok.
  apply parses_split in Hp as (body & -> & Hp). pose proof (len_nonneg body). pose proof (len_nonneg torn).
  split_and!; [len|len| |].
  - rewrite bool_decide_eq_false. split.
    + intros Hn%dec_stable. subst torn. len.
    + intros Hl0 Hn. apply Hn, len_zero. lia.
  - apply parseJournal_Ok. exists header, body, []. rewrite app_assoc.
    assert (Z.to_nat (len ((header ++ body) ++ torn) - len torn) = length (header ++ body)) as ->
      by (rewrite len_app; unfold len; lia).
    rewrite take_app_length. split_and!; [done..| |done]. len.
Qed.

Lemma parseJournal_sound l data floor rs offset truncated :
  parseJournal data l = Ok (floor, rs, offset, truncated) →
  version_u64 floor ∧ increasing floor rs ∧ Forall (journalable l) rs.
Proof.
  intros (header & rest & torn & -> & Hl & Hh & Hp & _)%parseJournal_Ok.
  split; [|by eapply parses_sound]. unfold decodeJournalHeader in Hh. rewrite !guard_Ok in Hh.
  destruct Hh as (_ & _ & [= <-]).
  assert (∀ lo, 0 <= lo <= 16 → 0 <= be_get (slice header lo (lo + 8)) < 2 ^ 64) as Hr.
  { intros lo Hlo. pose proof (be_get_range (slice header lo (lo + 8))) as Hb.
    rewrite len_slice in Hb by (unfold journalHeaderBytes in *; lia).
    replace (lo + 8 - lo) with 8 in Hb by lia. exact Hb. }
  split; [apply (Hr 8)|apply (Hr 16)]; lia.
Qed.

(** ** Checkpoints *)

Lemma encodeCheckpoint_Ok c l data l' :
  encodeCheckpoint c l = Ok (data, l') ↔
  ∃ rs, normalizeCheckpointRecords (CRecords c) (Watermark c) l = Ok rs ∧
    encodeEnvelope (marshal (json_checkpoint (mkCheckpoint (Watermark c) rs))) = Ok data ∧
    len data <= MaxCheckpointBytes (normalized l) ∧ l' = normalized l.
Proof.
  unfold encodeCheckpoint, normalizeCheckpoint. rewrite normalized_idem, normalizeCheckpointRecords_normalized.
  destruct (normalizeCheckpointRecords _ _ l) as [rs|e]; cbn [rbind]; [|naive_solver].
  rewrite rbind_Ok. setoid_rewrite guard_Ok. setoid_rewrite Z.ltb_ge. naive_solver.
Qed.

Lemma decodeCheckpoint_encode c l data l' :
  version_u64 (Watermark c) → Forall (λ r, version_u64 (RVersion r)) (CRecords c) →
  encodeCheckpoint c l = Ok (data, l') →
  decodeCheckpoint data (normalized l) = Ok (mkCheckpoint (Watermark c) (sort_records (CRecords c))).
Proof.
  intros Hw Hu (rs & Hrs & He & Hmax & _)%encodeCheckpoint_Ok.
  pose proof (len_envelope _ _ He) as Hlen. pose proof (normalizeCheckpointRecords_idem _ _ _ _ Hrs) as Hi.
  apply normalizeCheckpointRecords_Ok in Hrs as (_ & Hf & _ & ->).
  set (c' := mkCheckpoint (Watermark c) (sort_records (CRecords c))) in *.
  unfold decodeCheckpoint.
  pose proof (decodeEnvelope_at [] _ _ [] (MaxCheckpointBytes (normalized l))
    ErrCheckpointCorrupt ErrCheckpointChecksum He) as Hdec.
  cbn [app] in Hdec. change (len (@nil byte)) with 0 in Hdec.
  rewrite app_nil_r in Hdec. rewrite Hdec by lia. cbn [rbind]. rewrite Z.eqb_refl. cbn [negb].
  rewrite checkpoint_roundtrip; [|done|].
  - unfold normalizeCheckpoint. rewrite normalized_idem, normalizeCheckpointRecords_normalized.
    subst c'. cbn [CRecords Watermark]. by rewrite Hi.
  - intros r. cbn. rewrite sort_records_Permutation. intros Hr. rewrite Forall_forall in Hf, Hu.
    eapply valid_record_ok; [by apply Hf|by apply Hu].
Qed.
End journal_file.

(** ** Properties *)

(** C12: Journal files are read back.  The parser returns exactly the floor and
    the records that were written; when a crash left the beginning of one more
    entry behind them, the same records are recovered, the torn tail is reported
    and the valid size ends before it. *)
Theorem parseJournal_recovers `{UnicodePrint} l floor rs torn
    (Hn : normalized l = l) (Hmax : MaxRecordBytes l <= MaxUint32) (Hf : version_u64 floor)
    (Hrs : Forall (journalable l) rs) (Hinc : increasing floor rs)
    (Ht : torn = [] ∨ torn_entry l torn) :
  parseJournal (journal_image floor rs ++ torn) l =
  Ok (floor, rs, len (journal_image floor rs), bool_decide (torn ≠ [])).
Proof. by apply parseJournal_image. Qed.

(** Whatever bytes a journal file holds, a successful parse returns valid
    records in strictly increasing version order above the floor, and cutting
    the file at the reported size gives a complete journal with the same
    records: recovery is idempotent. *)
Theorem parseJournal_repairs `{UnicodePrint} l data floor rs offset truncated
    (Hp : parseJournal data l = Ok (floor, rs, offset, truncated)) :
  increasing floor rs ∧ Forall (journalable l) rs ∧
  offset <= len data ∧ (truncated = false ↔ offset = len data) ∧
  parseJournal (take (Z.to_nat offset) data) l = Ok (floor, rs, offset, false).
Proof.
  destruct (parseJournal_sound _ _ _ _ _ _ Hp) as (_ & ? & ?).
  destruct (parseJournal_truncate _ _ _ _ _ _ Hp) as ((_ & ?) & ? & ?). done.
Qed.

(** Checkpoints are read back.  What [encodeCheckpoint] produced decodes to
    the same watermark and the same records, in key order. *)
Theorem checkpoint_encode_decode `{UnicodePrint} c l data l'
    (Hw : version_u64 (Watermark c)) (Hu : Forall (λ r, version_u64 (RVersion r)) (CRecords c))
    (He : encodeCheckpoint c l = Ok (data, l')) :
  decodeCheckpoint data l' = Ok (mkCheckpoint (Watermark c) (sort_records (CRecords c))).
Proof.
  pose proof (proj1 (encodeCheckpoint_Ok _ _ _ _) He) as (_ & _ & _ & _ & ->).
  by eapply decodeCheckpoint_encode.
Qed.

#[export] Instance journalable_dec `{UnicodePrint} l r : Decision (journalable l r).
Proof. unfold journalable. apply _. Defined.
#[export] Instance increasing_dec floor rs : Decision (increasing floor rs).
Proof. revert floor. induction rs; intros; cbn; apply _. Defined.

Definition ex_limits : Limits := normalized zero_limits.
Definition ex_records : list record := [ex_deleted 98 1; ex_deleted 97 2].

Lemma parseJournal_recovers_witness :
  @parseJournal ascii_print
    (journal_image zero_version ex_records ++ take 20 (entry (ex_deleted 98 3))) ex_limits =
  Ok (zero_version, ex_records, len (journal_image zero_version ex_records), true).
Proof.
  apply (@parseJournal_recovers ascii_print); try decide_now; [reflexivity|].
  right. exists (ex_deleted 98 3). split_and!; [decide_now|exists (drop 20 (entry (ex_deleted 98 3))); vm_compute; reflexivity|].
  vm_compute. discriminate.
Defined.

Lemma parseJournal_repairs_witness :
  ∃ offset, @parseJournal ascii_print
    (take (Z.to_nat offset) (journal_image zero_version ex_records ++ [Zbyte 0])) ex_limits =
  Ok (zero_version, ex_records, offset, false).
Proof.
  exists (len (journal_image zero_version ex_records)).
  apply (@parseJournal_repairs ascii_print _ _ _ _ _ true). vm_compute. reflexivity.
Defined.

Definition ex_checkpoint : Checkpoint := mkCheckpoint (mkVersion 1 2) ex_records.
Definition ex_checkpoint_data : bytes :=
  match @encodeCheckpoint ascii_print ex_checkpoint zero_limits with Ok (d, _) => d | Err _ => [] end.

Lemma checkpoint_encode_decode_witness :
  @decodeCheckpoint ascii_print ex_checkpoint_data ex_limits =
    Ok (mkCheckpoint (mkVersion 1 2) [ex_deleted 97 2; ex_deleted 98 1]).
Proof.
  change [ex_deleted 97 2; ex_deleted 98 1] with (sort_records ex_records).
  apply (@checkpoint_encode_decode ascii_print ex_checkpoint zero_limits).
  - decide_now.
  - decide_now.
  - vm_compute. reflexivity.
Defined.
