(* ===== verification/Journal.v ===== *)
(** * The durable journal

    internal/lifecycle/journal.go: opening and recovering a journal file,
    appending, checkpoints, compaction and snapshot installation.  A method of
    the Go type [*Journal] is a computation on the journal's fields and the
    outside world; the mutex of the Go type makes each method atomic. *)
From S2P Require Import Prelude Go Bits Text Json Os Model Codec.

(** Computations on an object and the outside world. *)
Definition io {S A} (m : M world A) : M (S * world) A := zoom snd (λ w s, (s.1, w)) m.
Definition self {S} : M (S * world) S := gets fst.
Definition update {S} (f : S → S) : M (S * world) unit := modify (λ s, (f s.1, s.2)).

(** ** Options and fields *)

Record JournalOptions := mkJournalOptions {
  OLimits : Limits;
  MaxJournalBytes : Z;
  MaxJournalEntries : Z
}.

Definition options_normalized (o : JournalOptions) : result JournalOptions :=
  let o := mkJournalOptions (normalized (OLimits o))
             (or_default (MaxJournalBytes o) DefaultMaxJournalBytes)
             (or_default (MaxJournalEntries o) DefaultMaxJournalEntries) in
  if MaxJournalBytes o <? journalHeaderBytes then Err ErrJournalLimit
  else if MaxUint32 <? MaxRecordBytes (OLimits o) then Err ErrJournalLimit
  else Ok o.

Record Recovery := mkRecovery {
  TruncatedTail : bool;
  RFloor : Version;
  LastVersion_ : Version;
  REntries : Z
}.

Record JournalStats := mkJournalStats { SFloor : Version; SLast : Version; SEntries : Z; SBytes : Z }.

Record Journal := mkJournal {
  j_path : bytes;
  j_file : option nat;
  j_limits : Limits;
  j_maxBytes : Z;
  j_maxEntries : Z;
  j_size : Z;
  j_floor : Version;
  j_last : Version;
  j_records : list record;
  j_closed : bool
}.

Record CompactionRequest := mkCompactionRequest {
  CheckpointPath : bytes;
  CWatermark : Version;
  CReqRecords : list record;
  Base : option Checkpoint;
  PeerWatermarks : list Version
}.

Section journal.
Context `{UnicodePrint}.

(** ** Opening *)

Definition readBounded (fd : nat) (size max : Z) : M world bytes :=
  if max <? size then throw ErrJournalLimit
  else
    file_Seek fd ;;
    data <- file_ReadAll fd ;
    let data := take (Z.to_nat (max + 1)) data in
    if max <? len data then throw ErrJournalLimit else ret data.

Definition OpenJournal (path : bytes) (options : JournalOptions) : M world (Journal * Recovery) :=
  if bool_decide (path = []) then throw ErrJournalCorrupt
  else
    opts <- lift (options_normalized options) ;
    fd <- os_Open true path ;
    on_error
      (size <- file_Size fd ;
       if MaxJournalBytes opts <? size then throw ErrJournalLimit
       else if size =? 0 then
         writeFull fd (encodeJournalHeader zero_version) ;;
         file_Sync fd ;;
         file_Seek fd ;;
         ret (mkJournal path (Some fd) (OLimits opts) (MaxJournalBytes opts) (MaxJournalEntries opts)
                journalHeaderBytes zero_version zero_version [] false,
              mkRecovery false zero_version zero_version 0)
       else
         data <- readBounded fd size (MaxJournalBytes opts) ;
         '(floor, rs, validSize, truncated) <- lift (parseJournal data (OLimits opts)) ;
         (if (truncated : bool) then
            file_Truncate fd (Z.to_nat validSize) ;; file_Sync fd
          else ret tt) ;;
         file_Seek fd ;;
         let last := last_version floor rs in
         if MaxJournalEntries opts <? len rs then throw ErrJournalLimit
         else
           ret (mkJournal path (Some fd) (OLimits opts) (MaxJournalBytes opts) (MaxJournalEntries opts)
                  validSize floor last rs false,
                mkRecovery truncated floor last (len rs)))
      (file_Close fd).

(** ** Appending and reading *)

Definition ensureOpenLocked (j : Journal) : result nat :=
  match j_file j with
  | Some fd => if j_closed j then Err ErrJournalClosed else Ok fd
  | None => Err ErrJournalClosed
  end.

Definition Append (r : record) : M (Journal * world) unit :=
  io ctx_Err ;;
  j <- self ;
  lift (Validate r (j_limits j)) ;;
  ent <- lift (encodeEnvelope (marshal (json_record r))) ;
  fd <- lift (ensureOpenLocked j) ;
  if Compare (RVersion r) (j_last j) <=? 0 then throw ErrJournalVersionOrder
  else if (j_maxEntries j <=? len (j_records j)) || (j_maxBytes j <? j_size j + len ent)
  then throw ErrJournalLimit
  else
    io ctx_Err ;;
    io (file_Seek fd) ;;
    io (writeFull fd ent) ;;
    io (file_Sync fd) ;;
    update (λ j, mkJournal (j_path j) (j_file j) (j_limits j) (j_maxBytes j) (j_maxEntries j)
                   (j_size j + len ent) (j_floor j) (RVersion r) (j_records j ++ [clone r]) (j_closed j)).

(** The context is polled before each copy. *)
Fixpoint copy_records (rs : list record) : M world (list record) :=
  match rs with
  | [] => ret []
  | r :: rs' => ctx_Err ;; out <- copy_records rs' ; ret (clone r :: out)
  end.

Definition Journal_Records : M (Journal * world) (list record) :=
  io ctx_Err ;;
  j <- self ;
  lift (ensureOpenLocked j) ;;
  io (copy_records (j_records j)).

(** [apply] works on a state of the caller's and on the world. *)
Fixpoint replay_loop {T} (apply : record → M (T * world) unit) (rs : list record) : M (T * world) unit :=
  match rs with
  | [] => ret tt
  | r :: rs' => io ctx_Err ;; apply r ;; replay_loop apply rs'
  end.
Definition Replay {T} (apply : option (record → M (T * world) unit)) : M (Journal * (T * world)) unit :=
  match apply with
  | None => throw ErrNilApply
  | Some apply =>
      rs <- zoom (λ s, (s.1, s.2.2)) (λ t s, (t.1, (s.2.1, t.2))) Journal_Records ;
      zoom snd (λ t s, (s.1, t)) (replay_loop apply rs)
  end.

Definition Journal_Close : M (Journal * world) unit :=
  j <- self ;
  if j_closed j then ret tt
  else
    update (λ j, mkJournal (j_path j) (j_file j) (j_limits j) (j_maxBytes j) (j_maxEntries j)
                   (j_size j) (j_floor j) (j_last j) (j_records j) true) ;;
    match j_file j with
    | None => ret tt
    | Some fd =>
        attempt (io (file_Close fd)) (λ r,
          update (λ j, mkJournal (j_path j) None (j_limits j) (j_maxBytes j) (j_maxEntries j)
                         (j_size j) (j_floor j) (j_last j) (j_records j) (j_closed j)) ;;
          lift r)
    end.

Definition Floor (j : Journal) : Version := j_floor j.
Definition LastVersion (j : Journal) : Version := j_last j.
Definition Journal_Len (j : Journal) : Z := len (j_records j).
Definition Journal_Bytes (j : Journal) : Z := j_size j.
Definition Journal_Stats (j : Journal) : JournalStats :=
  mkJournalStats (j_floor j) (j_last j) (len (j_records j)) (j_size j).

(** ** Checkpoint files *)

Definition SaveCheckpoint (path : bytes) (checkpoint : Checkpoint) (l : Limits) : M world unit :=
  if bool_decide (path = []) then throw ErrNilCheckpointPath
  else
    '(encoded, normal) <- lift (encodeCheckpoint checkpoint l) ;
    if MaxCheckpointBytes normal <? len encoded then throw ErrCheckpointTooLarge
    else atomicWrite path encoded.

(** [defer file.Close()], its error dropped. *)
Definition with_close {A} (fd : nat) (m : M world A) : M world A :=
  attempt m (λ r, attempt (file_Close fd) (λ _, lift r)).

Definition LoadCheckpoint (path : bytes) (l : Limits) : M world Checkpoint :=
  if bool_decide (path = []) then throw ErrNilCheckpointPath
  else
    ctx_Err ;;
    let l := normalized l in
    fd <- os_Open false path ;
    with_close fd
      (size <- file_Size fd ;
       if MaxCheckpointBytes l <? size then throw ErrCheckpointTooLarge
       else
         data <- file_ReadAll fd ;
         lift (decodeCheckpoint data l)).

(** ** Compaction *)

Definition compactionBaseLocked (j : Journal) (base : option Checkpoint) : result Checkpoint :=
  if IsZero (j_floor j) then
    match base with
    | None => Ok zero_checkpoint
    | Some base =>
        '(validated, _) <-? normalizeCheckpoint base (j_limits j) ;
        if negb (IsZero (Watermark validated)) then Err ErrCompactionBaseMismatch else Ok validated
    end
  else
    match base with
    | None => Err ErrCompactionBaseMismatch
    | Some base =>
        '(validated, _) <-? normalizeCheckpoint base (j_limits j) ;
        if negb (bool_decide (Watermark validated = j_floor j)) then Err ErrCompactionBaseMismatch
        else Ok validated
    end.

Fixpoint apply_base (state : Store) (rs : list record) : result Store :=
  match rs with
  | [] => Ok state
  | r :: rs' =>
      match Apply r state with
      | (Ok _, state') => apply_base state' rs'
      | (Err _, _) => Err (EWrap ErrCompactionUnsafe)
      end
  end.

(** The records up to the watermark, and the state after them. *)
Fixpoint apply_prefix (watermark : Version) (state : Store) (rs : list record)
    : result (list record * Store) :=
  match rs with
  | [] => Ok ([], state)
  | r :: rs' =>
      if 0 <? Compare (RVersion r) watermark then Ok ([], state)
      else match Apply r state with
           | (Err _, _) => Err (EWrap ErrCompactionUnsafe)
           | (Ok _, state') =>
               '(prefix, final) <-? apply_prefix watermark state' rs' ;
               Ok (r :: prefix, final)
           end
  end.

(** The loop of [rewriteLocked]: the size of the file after the records. *)
Fixpoint write_entries (tmp : nat) (maxBytes size : Z) (rs : list record) : M world Z :=
  match rs with
  | [] => ret size
  | r :: rs' =>
      ctx_Err ;;
      ent <- lift (encodeEnvelope (marshal (json_record r))) ;
      if maxBytes <? size + len ent then throw ErrJournalLimit
      else
        writeFull tmp ent ;;
        write_entries tmp maxBytes (size + len ent) rs'
  end.

(** Header and records, synced. *)
Definition fill_journal (tmp : nat) (maxBytes : Z) (floor : Version) (rs : list record) : M world Z :=
  let header := encodeJournalHeader floor in
  writeFull tmp header ;;
  size <- write_entries tmp maxBytes (len header) rs ;
  file_Sync tmp ;;
  ret size.

Definition rewriteLocked (j : Journal) (floor : Version) (rs : list record) : M world (nat * Z) :=
  let directory := filepath_Dir (j_path j) in
  '(tmp, tmpName) <- os_CreateTemp directory ;
  size <- on_error
    (size <- on_error (fill_journal tmp (j_maxBytes j) floor rs) (file_Close tmp) ;
     file_Close tmp ;;
     ctx_Err ;;
     os_Rename tmpName (j_path j) ;;
     ret size)
    (os_Remove tmpName) ;
  syncDirectory directory ;;
  newFile <- os_Open false (j_path j) ;
  on_error (file_Seek newFile) (file_Close newFile) ;;
  ret (newFile, size).

(** Replace the open file by the rewritten one and publish the new fields. *)
Definition swapFile (newFile : nat) (newSize : Z) (floor : Version) (rs : list record)
    : M (Journal * world) unit :=
  j <- self ;
  match j_file j with
  | None => throw ErrJournalClosed
  | Some oldFile =>
      attempt (io (file_Close oldFile)) (λ r,
        match r with
        | Err e => attempt (io (file_Close newFile)) (λ _, throw e)
        | Ok _ =>
            update (λ j, mkJournal (j_path j) (Some newFile) (j_limits j) (j_maxBytes j) (j_maxEntries j)
                           newSize floor (last_version floor rs) rs (j_closed j))
        end)
  end.

Definition peers_reached (watermark : Version) (peers : list Version) : bool :=
  forallb (λ p, negb (Compare p watermark <? 0)) peers.

Definition Compact (request : CompactionRequest) : M (Journal * world) unit :=
  if bool_decide (CheckpointPath request = []) then throw ErrNilCheckpointPath
  else
    io ctx_Err ;;
    j <- self ;
    lift (ensureOpenLocked j) ;;
    if bool_decide (filepath_Clean (CheckpointPath request) = filepath_Clean (j_path j))
    then throw ErrCompactionUnsafe
    else if Compare (CWatermark request) (j_floor j) <=? 0 then throw ErrCompactionNoProgress
    else if 0 <? Compare (CWatermark request) (j_last j) then throw ErrCompactionWatermark
    else if negb (peers_reached (CWatermark request) (PeerWatermarks request))
    then throw ErrPeerBehindWatermark
    else
      base <- lift (compactionBaseLocked j (Base request)) ;
      '(checkpoint, _) <- lift (normalizeCheckpoint
                                  (mkCheckpoint (CWatermark request) (CReqRecords request)) (j_limits j)) ;
      state <- lift (apply_base (NewStore (j_limits j)) (CRecords base)) ;
      '(prefix, state) <- lift (apply_prefix (CWatermark request) state (j_records j)) ;
      if len prefix =? 0 then throw ErrCompactionNoProgress
      else if negb (recordsEqual (Snapshot state) (CRecords checkpoint)) then throw ErrCompactionUnsafe
      else
        '(checkpointBytes, _) <- lift (encodeCheckpoint
                                  (mkCheckpoint (CWatermark request) (CRecords checkpoint)) (j_limits j)) ;
        io (atomicWrite (CheckpointPath request) checkpointBytes) ;;
        let tail := drop (length prefix) (j_records j) in
        '(newFile, newSize) <- io (rewriteLocked j (CWatermark request) tail) ;
        swapFile newFile newSize (CWatermark request) (clone <$> tail).

Definition InstallSnapshot (checkpointPath : bytes) (checkpoint : Checkpoint) : M (Journal * world) unit :=
  if bool_decide (checkpointPath = []) then throw ErrNilCheckpointPath
  else
    io ctx_Err ;;
    j <- self ;
    lift (ensureOpenLocked j) ;;
    if bool_decide (filepath_Clean checkpointPath = filepath_Clean (j_path j)) then throw ErrCompactionUnsafe
    else
      '(normal, _) <- lift (normalizeCheckpoint checkpoint (j_limits j)) ;
      if Compare (Watermark normal) (j_last j) <? 0 then throw ErrSnapshotStale
      else
        io (SaveCheckpoint checkpointPath normal (j_limits j)) ;;
        '(newFile, newSize) <- io (rewriteLocked j (Watermark normal) []) ;
        swapFile newFile newSize (Watermark normal) [].

End journal.

(** ** Facts about single steps *)

Lemma io_run {S A} (m : M world A) (s : S) w : io m (s, w) = ((m w).1, (s, (m w).2)).
Proof. unfold io, zoom. cbn. by destruct (m w). Qed.
Lemma io_eq {S A} (m : M world A) (s s' : S) w r w' :
  io m (s, w) = (r, (s', w')) ↔ s' = s ∧ m w = (r, w').
Proof. rewrite io_run. destruct (m w). cbn. naive_solver. Qed.

Lemma file_Seek_fs fd w r w' : file_Seek fd w = (r, w') → w_fs w' = w_fs w.
Proof. intros [[_ ->]|E]%syscall_inv; [done|]. unfold with_fd in E. repeat case_match; congruence. Qed.

Definition synced (i : nat) (f : fs) : fs := upd_ino (λ x, Inode (i_data x) (i_data x)) i f.
Lemma file_Sync_fs fd i w r w' :
  fs_fds (w_fs w) !! fd = Some i → file_Sync fd w = (r, w') →
  match r with Ok _ => w_fs w' = synced i (w_fs w) | Err _ => w_fs w' = w_fs w end.
Proof.
  intros Hfd [[-> E]|E]%syscall_inv; [done|]. unfold with_fd in E. rewrite Hfd in E.
  by injection E as <- <-.
Qed.
Lemma file_Size_fs fd i w r w' :
  fs_fds (w_fs w) !! fd = Some i → file_Size fd w = (r, w') →
  w_fs w' = w_fs w ∧ match r with Ok n => n = len (file_data i (w_fs w)) | Err _ => True end.
Proof.
  intros Hfd [[-> E]|E]%syscall_inv; [done|]. unfold with_fd in E. rewrite Hfd in E.
  by injection E as <- <-.
Qed.
Lemma file_ReadAll_fs fd i w r w' :
  fs_fds (w_fs w) !! fd = Some i → file_ReadAll fd w = (r, w') →
  w_fs w' = w_fs w ∧ match r with Ok d => d = file_data i (w_fs w) | Err _ => True end.
Proof.
  intros Hfd [[-> E]|E]%syscall_inv; [done|]. unfold with_fd in E. rewrite Hfd in E.
  by injection E as <- <-.
Qed.
Lemma file_Truncate_fs fd i n w r w' :
  fs_fds (w_fs w) !! fd = Some i → file_Truncate fd n w = (r, w') →
  match r with
  | Ok _ => w_fs w' = upd_ino (λ x, Inode (take n (i_data x)) (i_stable x)) i (w_fs w)
  | Err _ => w_fs w' = w_fs w
  end.
Proof.
  intros Hfd [[-> E]|E]%syscall_inv; [done|]. unfold with_fd in E. rewrite Hfd in E.
  by injection E as <- <-.
Qed.

(** Changing the contents of one inode. *)
Lemma fs_wf_upd_ino g i f : fs_wf f → fs_wf (upd_ino g i f).
Proof.
  intros Hwf. assert (∀ k, is_Some (alter g i (fs_ino f) !! k) ↔ is_Some (fs_ino f !! k)) as Hs.
  { intros k. destruct (decide (i = k)) as [->|Hne].
    - rewrite lookup_alter_eq. by rewrite fmap_is_Some.
    - by rewrite lookup_alter_ne. }
  split; cbn; try apply Hwf.
  - intros n Hn. apply eq_None_not_Some. rewrite Hs. rewrite (wf_fresh_ino _ Hwf _ Hn). by intros [].
  - intros e k. rewrite Hs. apply Hwf.
  - intros e k. rewrite Hs. apply Hwf.
  - intros n k. rewrite Hs. apply Hwf.
Qed.
Lemma upd_ino_id i f : upd_ino id i f = f.
Proof. unfold upd_ino. destruct f as [? ? ino ? ?]. cbn. f_equal. by apply alter_id. Qed.
Lemma upd_ino_lookup g i f x : fs_ino f !! i = Some x → fs_ino (upd_ino g i f) !! i = Some (g x).
Proof. intros Hx. cbn. by rewrite lookup_alter_eq, Hx. Qed.

(** ** The invariant of an open journal *)

Section journal_facts.
Context `{UnicodePrint}.

(** [j] is open on inode [i] with contents [x] through descriptor [fd]: the file
    at the journal's path parses to the fields of [j], up to the bytes [torn]
    of an append that failed. *)
Record jfile (j : Journal) (f : fs) (fd i : nat) (x : inode) (torn : bytes) : Prop := {
  jf_wf : fs_wf f;
  jf_closed : j_closed j = false;
  jf_file : j_file j = Some fd;
  jf_fd : fs_fds f !! fd = Some i;
  jf_ino : fs_ino f !! i = Some x;
  jf_dir : fs_dir f !! Named (filepath_Clean (j_path j)) = Some i;
  jf_limits : normalized (j_limits j) = j_limits j;
  jf_record : MaxRecordBytes (j_limits j) <= MaxUint32;
  jf_parse : ∃ data, i_data x = data ++ torn ∧
    parseJournal data (j_limits j) = Ok (j_floor j, j_records j, j_size j, false);
  jf_last : j_last j = last_version (j_floor j) (j_records j);
  jf_entries : len (j_records j) <= j_maxEntries j;
  jf_bytes : journalHeaderBytes <= j_size j <= j_maxBytes j
}.

(** The journal invariant: nothing torn. *)
Definition jinv (j : Journal) (w : world) : Prop := ∃ fd i x, jfile j (w_fs w) fd i x [].

Lemma jfile_ensureOpen j f fd i x torn : jfile j f fd i x torn → ensureOpenLocked j = Ok fd.
Proof. intros Hj. unfold ensureOpenLocked. by rewrite (jf_file _ _ _ _ _ _ Hj), (jf_closed _ _ _ _ _ _ Hj). Qed.

(** The fields after a successful append. *)
Definition appended (j : Journal) (r : record) : Journal :=
  mkJournal (j_path j) (j_file j) (j_limits j) (j_maxBytes j) (j_maxEntries j)
    (j_size j + len (entry r)) (j_floor j) (RVersion r) (j_records j ++ [r]) (j_closed j).

(** What [Append] checks before it writes. *)
Record appendable (j : Journal) (r : record) : Prop := {
  ap_valid : valid (j_limits j) r = true;
  ap_newer : version_lt (j_last j) (RVersion r);
  ap_entries : len (j_records j) < j_maxEntries j;
  ap_bytes : j_size j + len (entry r) <= j_maxBytes j
}.

Lemma last_version_snoc floor rs r : last_version floor (rs ++ [r]) = RVersion r.
Proof. unfold last_version. by rewrite last_snoc. Qed.

(** A run of [Append] writes nothing, or a part of the entry, or all of it. *)
Lemma Append_run j f fd i x r w res j' w' :
  jfile j f fd i x [] → w_fs w = f → Append r (j, w) = (res, (j', w')) →
  match res with
  | Ok _ => appendable j r ∧ j' = appended j r ∧ w_fs w' = synced i (fs_append (entry r) i f)
  | Err _ => j' = j ∧ (w_fs w' = f ∨
      appendable j r ∧ ∃ n, (n <= length (entry r))%nat ∧ w_fs w' = fs_append (take n (entry r)) i f)
  end.
Proof.
  intros Hj Hw HA. unfold Append in HA.
  step HA as [] [j1 w1] E1; apply io_eq in E1 as [-> E1]; apply ctx_Err_fs in E1 as [Ew1 _]; [|rewrite Ew1; auto].
  step HA as j2 [j3 w2] E2; [|done]. injection E2 as <- <- <-.
  step HA as [] [j3 w2] E2; injection E2 as Ev <- <-; [|rewrite Ew1; auto].
  apply Validate_Ok in Ev.
  rewrite (entry_envelope _ _ Ev) in HA by (rewrite (jf_limits _ _ _ _ _ _ Hj); apply Hj).
  rewrite (jfile_ensureOpen _ _ _ _ _ _ Hj) in HA. do 2 step_Ok HA.
  destruct (Compare (RVersion r) (j_last j) <=? 0) eqn:Ec; [stop HA; rewrite Ew1; auto|].
  destruct ((j_maxEntries j <=? len (j_records j)) || (j_maxBytes j <? j_size j + len (entry r))) eqn:El;
    [stop HA; rewrite Ew1; auto|].
  assert (appendable j r) as Ha by (bool_to_prop; split; [done|apply Compare_gt; lia|lia|lia]).
  step HA as [] [j3 w2] E2; apply io_eq in E2 as [-> E2]; apply ctx_Err_fs in E2 as [Ew2 _];
    [|rewrite Ew2, Ew1; auto].
  step HA as [] [j3 w3] E3; apply io_eq in E3 as [-> E3]; apply file_Seek_fs in E3;
    [|rewrite E3, Ew2, Ew1; auto].
  assert (w_fs w3 = f) as Ew3 by congruence.
  assert (fs_fds (w_fs w3) !! fd = Some i) as Hfd by (rewrite Ew3; apply Hj).
  step HA as [] [j3 w4] E4; apply io_eq in E4 as [-> E4];
    eapply writeFull_inv in E4 as (n & Hn & Ew4 & Hok); try done; rewrite Ew3 in Ew4.
  2:{ split; [done|]. right. eauto. }
  rewrite (Hok eq_refl), firstn_all in Ew4.
  step HA as [] [j3 w5] E5; apply io_eq in E5 as [-> E5];
    apply (file_Sync_fs _ i) in E5; try (rewrite Ew4; apply Hj); rewrite Ew4 in E5.
  2:{ split; [done|]. right. split; [done|]. exists (length (entry r)). rewrite firstn_all. auto. }
  injection HA as <- <- <-. rewrite clone_id. done.
Qed.

Lemma jfile_upd g j f fd i x torn torn' :
  jfile j f fd i x torn → i_data (g x) = i_data x ++ torn' →
  jfile j (upd_ino g i f) fd i (g x) (torn ++ torn').
Proof.
  intros [? ? ? ? ? ? ? ? (data & Hd & Hp) ? ? ?] Hg.
  split; try done; [by apply fs_wf_upd_ino|by apply upd_ino_lookup|].
  exists data. by rewrite Hg, Hd, app_assoc.
Qed.

(** A complete entry behind the records extends the journal. *)
Lemma jfile_grow j f fd i x r :
  jfile j f fd i x (entry r) → version_u64 (RVersion r) → appendable j r →
  jfile (appended j r) f fd i x [].
Proof.
  intros [? ? ? ? ? ? ? ? (data & Hd & Hp) Hl ? ?] Hu [Hv Hlt ? ?].
  pose proof (len_nonneg (entry r)).
  split; try done; cbn [appended j_size j_maxBytes j_records j_maxEntries j_floor j_last j_limits].
  - exists (i_data x). rewrite app_nil_r. split; [done|]. rewrite Hd.
    apply parseJournal_append; try done. by rewrite <- Hl.
  - by rewrite last_version_snoc.
  - len.
  - lia.
Qed.

Lemma Append_Ok j f fd i x r w j' w' u :
  jfile j f fd i x [] → w_fs w = f → version_u64 (RVersion r) →
  Append r (j, w) = (Ok u, (j', w')) →
  j' = appended j r ∧ w_fs w' = synced i (fs_append (entry r) i f) ∧
  jfile j' (w_fs w') fd i (Inode (i_data x ++ entry r) (i_data x ++ entry r)) [].
Proof.
  intros Hj Hw Hu HA. apply (Append_run _ _ _ _ _ _ _ _ _ _ Hj Hw) in HA as (Ha & -> & Hw').
  split_and!; [done..|]. rewrite Hw'. apply jfile_grow; [|done..].
  unfold synced, fs_append. rewrite upd_ino_upd_ino.
  exact (jfile_upd ((λ x, Inode (i_data x) (i_data x)) ∘ (λ x, Inode (i_data x ++ entry r) (i_stable x)))
           j f fd i x [] (entry r) Hj eq_refl).
Qed.

(** Whatever a failed append left, the file still reads as the journal, or as
    the journal with the new record. *)
Lemma Append_Err j f fd i x r w j' w' e :
  jfile j f fd i x [] → w_fs w = f → Append r (j, w) = (Err e, (j', w')) →
  j' = j ∧ ∃ n, (n <= length (entry r))%nat ∧ (n ≠ 0%nat → appendable j r) ∧
    w_fs w' = fs_append (take n (entry r)) i f ∧
    jfile j (w_fs w') fd i (Inode (i_data x ++ take n (entry r)) (i_stable x)) (take n (entry r)).
Proof.
  intros Hj Hw HA. apply (Append_run _ _ _ _ _ _ _ _ _ _ Hj Hw) in HA as [-> HA]. split; [done|].
  destruct HA as [HA|(Ha & n & Hn & HA)].
  - exists O. cbn. rewrite HA, fs_append_nil, app_nil_r. split_and!; [lia|done|done|]. by destruct x.
  - exists n. split_and!; [done..|]. rewrite HA.
    exact (jfile_upd (λ x, Inode (i_data x ++ take n (entry r)) (i_stable x))
             j f fd i x [] (take n (entry r)) Hj eq_refl).
Qed.

(** ** Opening *)

(** The file a path names when it is opened for writing. *)
Lemma os_Open_inv create path w r w' :
  fs_wf (w_fs w) → os_Open create path w = (r, w') →
  let p := Named (filepath_Clean path) in
  match r with
  | Err _ => w_fs w' = w_fs w
  | Ok fd => fd = fs_next (w_fs w) ∧ fs_wf (w_fs w') ∧
      fs_sdir (w_fs w') = fs_sdir (w_fs w) ∧
      ∃ i x, fs_fds (w_fs w') !! fd = Some i ∧ fs_ino (w_fs w') !! i = Some x ∧
        fs_dir (w_fs w') !! p = Some i ∧
        match fs_dir (w_fs w) !! p with
        | Some i0 => i = i0 ∧ fs_ino (w_fs w) !! i = Some x
        | None => create = true ∧ x = Inode [] []
        end
  end.
Proof.
  intros Hwf [[-> E]|E]%syscall_inv p; [done|]. subst p. cbv zeta in E.
  destruct (fs_dir (w_fs w) !! _) as [i|] eqn:Ed.
  - injection E as <- <-. destruct (wf_dir _ Hwf _ _ Ed) as [x Hx]. split_and!; [done| |done|].
    + split; cbn; try apply Hwf.
      * intros n Hn. apply Hwf. lia.
      * intros n Hn. rewrite lookup_insert_ne by lia. apply Hwf. lia.
      * intros d n Hn. apply Hwf. lia.
      * intros n k. rewrite lookup_insert_Some. intros [[<- <-]|[_ Hk]]; [done|]. by eapply (wf_fds _ Hwf).
    + exists i, x. cbn. by rewrite lookup_insert_eq.
  - destruct create; [|injection E as <- <-; done]. injection E as <- <-. split_and!; [done| |done|].
    + assert (∀ k, is_Some (fs_ino (w_fs w) !! k) →
               is_Some (<[fs_next (w_fs w) := Inode [] []]> (fs_ino (w_fs w)) !! k)) as Hs.
      { intros k [y Hy]. rewrite lookup_insert_ne; [by eexists|]. by eapply ino_ne. }
      split; cbn.
      * intros n Hn. rewrite lookup_insert_ne by lia. apply Hwf. lia.
      * intros n Hn. rewrite lookup_insert_ne by lia. apply Hwf. lia.
      * intros d n Hn. rewrite lookup_insert_ne by done. apply Hwf. lia.
      * intros e k. rewrite lookup_insert_Some. intros [[<- <-]|[_ Hk]]; [rewrite lookup_insert_eq; by eexists|].
        by eapply Hs, (wf_dir _ Hwf).
      * intros e k Hk. by eapply Hs, (wf_sdir _ Hwf).
      * intros n k. rewrite lookup_insert_Some. intros [[<- <-]|[_ Hk]]; [rewrite lookup_insert_eq; by eexists|].
        by eapply Hs, (wf_fds _ Hwf).
    + exists (fs_next (w_fs w)), (Inode [] []). cbn. by rewrite !lookup_insert_eq.
Qed.

Lemma options_normalized_Ok o o' :
  options_normalized o = Ok o' →
  normalized (OLimits o') = OLimits o' ∧ MaxRecordBytes (OLimits o') <= MaxUint32 ∧
  journalHeaderBytes <= MaxJournalBytes o' ∧ 0 < MaxJournalEntries o'.
Proof.
  unfold options_normalized. rewrite !guard_Ok. intros (Hb & Hr & [= <-]). cbn in *. bool_to_prop.
  split_and!; [apply normalized_idem|done..|]. unfold or_default, DefaultMaxJournalEntries. case_match; lia.
Qed.

Lemma readBounded_inv fd i size max w r w' :
  fs_fds (w_fs w) !! fd = Some i → readBounded fd size max w = (r, w') →
  w_fs w' = w_fs w ∧
  match r with Ok d => d = file_data i (w_fs w) ∧ len d <= max | Err _ => True end.
Proof.
  intros Hfd HR. unfold readBounded in HR. destruct (max <? size) eqn:Es; [by stop HR|].
  step HR as [] w1 E1; apply file_Seek_fs in E1; [|done].
  step HR as d w2 E2; eapply file_ReadAll_fs in E2 as [E2 Hd]; try (rewrite E1; done);
    [|by rewrite E2].
  rewrite E1 in E2, Hd. subst d.
  destruct (max <? _) eqn:El in HR; stop HR; (split; [done|]); [done|].
  bool_to_prop. rewrite len_take in El. pose proof (len_nonneg (file_data i (w_fs w))).
  assert (len (file_data i (w_fs w)) <= max) by lia.
  by rewrite take_ge by (unfold len in *; lia).
Qed.

Definition zero_journal (path : bytes) (fd : nat) (opts : JournalOptions) : Journal :=
  mkJournal path (Some fd) (OLimits opts) (MaxJournalBytes opts) (MaxJournalEntries opts)
    journalHeaderBytes zero_version zero_version [] false.
Definition loaded_journal (path : bytes) (fd : nat) (opts : JournalOptions) (size : Z) (floor : Version)
    (rs : list record) : Journal :=
  mkJournal path (Some fd) (OLimits opts) (MaxJournalBytes opts) (MaxJournalEntries opts)
    size floor (last_version floor rs) rs false.

Lemma parseJournal_empty l :
  parseJournal (encodeJournalHeader zero_version) l = Ok (zero_version, [], journalHeaderBytes, false).
Proof.
  apply parseJournal_Ok. exists (encodeJournalHeader zero_version), [], [].
  split_and!; [by rewrite app_nil_r|apply len_journalHeader|by apply decode_encode_header|constructor| |done].
  by rewrite len_journalHeader.
Qed.

(** What a successful [OpenJournal] found, and the journal it returns. *)
Lemma OpenJournal_Ok path options w j rec w' :
  fs_wf (w_fs w) → OpenJournal path options w = (Ok (j, rec), w') →
  j_path j = path ∧ (∃ fd i x, jfile j (w_fs w') fd i x []) ∧
  rec = mkRecovery (TruncatedTail rec) (j_floor j) (j_last j) (len (j_records j)) ∧
  match default [] (file_at (w_fs w) path) with
  | [] => j_floor j = zero_version ∧ j_records j = [] ∧ TruncatedTail rec = false
  | data => parseJournal data (j_limits j) = Ok (j_floor j, j_records j, j_size j, TruncatedTail rec)
  end.
Proof.
  intros Hwf HO. unfold OpenJournal in HO. case_bool_decide; [stop HO|].
  step HO as opts w0 E0. apply lift_Ok in E0 as [Eo ->].
  apply options_normalized_Ok in Eo as (Hn & Hm & Hb & He).
  step HO as fd w1 E1. apply os_Open_inv in E1 as (_ & Hwf1 & _ & i & x & Hfd & Hx & Hd & Hold); [|done].
  assert (i_data x = default [] (file_at (w_fs w) path)) as Hdata.
  { unfold file_at, file_data. destruct (fs_dir (w_fs w) !! _) as [i0|]; [|by destruct Hold as [_ ->]].
    destruct Hold as [-> Hx0]. by rewrite Hx0. }
  rewrite <- Hdata. clear Hdata Hold.
  apply on_error_Ok_inv in HO. step HO as size w2 E2.
  eapply file_Size_fs in E2 as [Ew2 Esz]; [|done]. cbn in Esz. subst size. unfold file_data in HO. rewrite Hx in HO.
  destruct (_ <? _) eqn:Emax in HO; [stop HO|]. bool_to_prop.
  destruct (len (i_data x) =? 0) eqn:Ez.
  - apply Z.eqb_eq, len_zero in Ez. rewrite Ez.
    step HO as [] w3 E3. eapply writeFull_inv in E3 as (n & _ & Ew3 & Hok); [|rewrite Ew2; done].
    rewrite (Hok eq_refl), firstn_all, Ew2 in Ew3.
    step HO as [] w4 E4. apply (file_Sync_fs _ i) in E4; [|by rewrite Ew3].
    step HO as [] w5 E5. apply file_Seek_fs in E5. stop HO. split_and!; try done.
    exists fd, i, (Inode (encodeJournalHeader zero_version) (encodeJournalHeader zero_version)).
    rewrite E5, E4, Ew3. unfold synced, fs_append. rewrite upd_ino_upd_ino.
    split; cbn; try done.
    + by apply fs_wf_upd_ino.
    + rewrite lookup_alter_eq, Hx. cbn. by rewrite Ez.
    + exists (encodeJournalHeader zero_version). rewrite app_nil_r. split; [done|]. apply parseJournal_empty.
    + unfold len. cbn. lia.
  - step HO as data w3 E3. eapply readBounded_inv in E3 as [Ew3 [Edata Hlen]]; [|rewrite Ew2; done]. subst data.
    rewrite Ew2 in Ew3, HO. unfold file_data in HO. rewrite Hx in HO.
    step HO as [[[floor rs] validSize] truncated] w4 E4. apply lift_Ok in E4 as [Hp ->].
    step HO as [] w5 E5. step HO as [] w6 E6. apply file_Seek_fs in E6.
    destruct (_ <? _) eqn:El in HO; [stop HO|]. bool_to_prop. stop HO. cbn.
    destruct (parseJournal_truncate _ _ _ _ _ _ Hp) as (Hsz & Htr & Hpt).
    split_and!; try done; [|by destruct (i_data x)].
    assert (∃ x', fs_ino (w_fs w5) !! i = Some x' ∧ i_data x' = take (Z.to_nat validSize) (i_data x) ∧
              fs_wf (w_fs w5) ∧ fs_fds (w_fs w5) = fs_fds (w_fs w1) ∧ fs_dir (w_fs w5) = fs_dir (w_fs w1))
      as (x' & Hx' & Hdx & Hwf5 & Hfd5 & Hd5).
    { destruct truncated.
      - step E5 as [] w7 E7. apply (file_Truncate_fs _ i) in E7; [|by rewrite Ew3].
        apply (file_Sync_fs _ i) in E5; [|by rewrite E7, Ew3]. rewrite E5, E7, Ew3. unfold synced.
        rewrite upd_ino_upd_ino. eexists. split; [by apply upd_ino_lookup|]. cbn.
        split_and!; try done. by apply fs_wf_upd_ino.
      - stop E5. rewrite Ew3. exists x. split_and!; try done.
        rewrite take_ge; [done|]. destruct Htr as [Htr _]. rewrite (Htr eq_refl). unfold len. lia. }
    exists fd, i, x'. rewrite E6. split; cbn; try done; [by rewrite Hfd5|by rewrite Hd5| |].
    + exists (take (Z.to_nat validSize) (i_data x)). by rewrite app_nil_r.
    + lia.
Qed.

(** Without faults, a well-formed file opens. *)
Lemma OpenJournal_quiet path options opts w data floor rs size truncated :
  fs_wf (w_fs w) → quiet w → path ≠ [] → options_normalized options = Ok opts →
  file_at (w_fs w) path = Some data → len data <= MaxJournalBytes opts →
  parseJournal data (OLimits opts) = Ok (floor, rs, size, truncated) → len rs <= MaxJournalEntries opts →
  ∃ w', OpenJournal path options w =
    (Ok (loaded_journal path (fs_next (w_fs w)) opts size floor rs,
         mkRecovery truncated floor (last_version floor rs) (len rs)), w') ∧ quiet w'.
Proof.
  intros Hwf Hq Hpath Ho Hf Hlen Hp Hrs. unfold OpenJournal. rewrite bool_decide_eq_false_2 by done.
  rewrite Ho. erewrite bind_step_Ok by reflexivity.
  unfold file_at in Hf. destruct (fs_dir (w_fs w) !! _) as [i|] eqn:Ed; [|done]. injection Hf as Hf.
  erewrite bind_step_Ok. 2:{ unfold os_Open. rewrite quiet_syscall by done. cbv zeta. rewrite Ed. reflexivity. }
  cbn [fst snd]. set (w1 := set_fs _ w). set (fd := fs_next (w_fs w)).
  assert (quiet w1) as Hq1 by done. assert (fs_fds (w_fs w1) !! fd = Some i) as Hfd by apply lookup_insert_eq.
  assert (file_data i (w_fs w1) = data) as Hd by done.
  destruct (parseJournal_truncate _ _ _ _ _ _ Hp) as (Hsz & _).
  unfold journalHeaderBytes in Hsz.
  assert (∃ w', quiet w' ∧ (if truncated then file_Truncate fd (Z.to_nat size) ;; file_Sync fd else ret tt) w1
    = (Ok tt, w') ∧ fs_fds (w_fs w') !! fd = Some i) as (w2 & Hq2 & E2 & Hfd2).
  { destruct truncated; [|by exists w1]. eexists. unfold file_Truncate, file_Sync, bind, with_fd.
    rewrite quiet_syscall by done. rewrite Hfd. cbn [fst snd]. rewrite quiet_syscall by done. cbn.
    rewrite lookup_insert_eq. cbn.
    split_and!; [|reflexivity|]; [done|exact Hfd]. }
  exists w2. split; [|done]. apply on_error_Ok.
  assert (∀ w, quiet w → fs_fds (w_fs w) !! fd = Some i → file_Seek fd w = (Ok tt, w)) as Hseek.
  { intros w' Hq' Hfd'. unfold file_Seek. rewrite quiet_syscall by done. unfold with_fd. rewrite Hfd'. by destruct w'. }
  erewrite bind_step_Ok. 2:{ unfold file_Size. rewrite quiet_syscall by done. unfold with_fd. rewrite Hfd. reflexivity. }
  cbn [fst snd]. rewrite Hd. replace (MaxJournalBytes opts <? len data) with false by lia.
  replace (len data =? 0) with false by lia.
  assert (set_fs (w_fs w1) w1 = w1) as -> by by destruct w1.
  erewrite bind_step_Ok.
  2:{ unfold readBounded. replace (MaxJournalBytes opts <? len data) with false by lia.
      erewrite bind_step_Ok by by apply Hseek. unfold file_ReadAll.
      erewrite bind_step_Ok by (rewrite quiet_syscall by done; unfold with_fd; rewrite Hfd; reflexivity).
      cbn [fst snd]. rewrite Hd. rewrite take_ge by (unfold len in *; lia).
      replace (MaxJournalBytes opts <? len data) with false by lia. reflexivity. }
  assert (set_fs (w_fs w1) w1 = w1) as -> by by destruct w1.
  rewrite Hp. erewrite bind_step_Ok by reflexivity. cbv beta iota zeta.
  erewrite bind_step_Ok by exact E2. erewrite bind_step_Ok by by apply Hseek.
  replace (MaxJournalEntries opts <? len rs) with false by lia. reflexivity.
Qed.
End journal_facts.

(** ** Properties *)

(** C11: Opening recovers the durable journal.  A journal that [OpenJournal]
    returns satisfies the journal invariant; a missing or empty file gives the
    empty journal; any other file gives exactly the records that its complete
    entries parse to, and a torn tail is cut off and reported. *)
Theorem OpenJournal_recovers `{UnicodePrint} path options w j rec w' (Hwf : fs_wf (w_fs w))
    (Hopen : OpenJournal path options w = (Ok (j, rec), w')) :
  jinv j w' ∧ j_path j = path ∧
  rec = mkRecovery (TruncatedTail rec) (j_floor j) (j_last j) (len (j_records j)) ∧
  match default [] (file_at (w_fs w) path) with
  | [] => j_floor j = zero_version ∧ j_records j = [] ∧ TruncatedTail rec = false
  | data => parseJournal data (j_limits j) = Ok (j_floor j, j_records j, j_size j, TruncatedTail rec)
  end.
Proof. destruct (OpenJournal_Ok _ _ _ _ _ _ Hwf Hopen) as (? & ? & ? & ?). by split_and!. Qed.

(** C3: Appends are durable and ordered, once the journal's directory entry is.
    A successful [Append] was of a valid record newer than every record before it
    and within the limits; it keeps the journal invariant and the directory
    entries.  If the entry of the journal's path was synced, every crash
    afterwards finds a file that parses to the old records and the new one; if it
    never was, as in a journal that [OpenJournal] has just created, a crash finds
    either that file or none at all.  After a failed [Append] the journal object is
    unchanged and its file, as the running program sees it, reads back as the old
    records, with or without the new one; of a crash at that point nothing is
    said, since what was written is not synced. *)
Theorem Append_durable `{UnicodePrint} j w r res j' w' (Hj : jinv j w) (Hu : version_u64 (RVersion r))
    (Hrun : Append r (j, w) = (res, (j', w'))) :
  let synced f := fs_sdir f !! Named (filepath_Clean (j_path j)) in
  let linked f := fs_dir f !! Named (filepath_Clean (j_path j)) in
  let complete c := ∃ data, c = Some data ∧ parseJournal data (j_limits j) = Ok (j_floor j, j_records j ++ [r], j_size j', false) in
  match res with
  | Ok _ =>
      appendable j r ∧ j' = appended j r ∧ jinv j' w' ∧ synced (w_fs w') = synced (w_fs w) ∧ linked (w_fs w') = linked (w_fs w) ∧
      (synced (w_fs w) = linked (w_fs w) → ∀ c, crash_at (w_fs w') (j_path j) c → complete c) ∧
      (synced (w_fs w) = None → ∀ c, crash_at (w_fs w') (j_path j) c → c = None ∨ complete c)
  | Err _ =>
      j' = j ∧ ∃ data rs size truncated, file_at (w_fs w') (j_path j) = Some data ∧
        parseJournal data (j_limits j) = Ok (j_floor j, rs, size, truncated) ∧
        (rs = j_records j ∨ rs = j_records j ++ [r])
  end.
Proof.
  destruct Hj as (fd & i & x & Hj). cbv zeta. destruct res as [[]|e].
  - destruct (Append_run _ _ _ _ _ _ _ _ _ _ Hj eq_refl Hrun) as (Ha & _).
    destruct (Append_Ok _ _ _ _ _ _ _ _ _ _ Hj eq_refl Hu Hrun) as (-> & Hw & Hj').
    assert (∀ c, (∃ d, c = Some d ∧ ∀ y, fs_ino (w_fs w') !! i = Some y → i_data y = i_stable y → d = i_stable y) →
      ∃ data, c = Some data ∧ parseJournal data (j_limits j) = Ok (j_floor j, j_records j ++ [r], j_size (appended j r), false)) as Hdone.
    { intros c (d & -> & Hd). exists d. split; [done|]. pose proof (jf_ino _ _ _ _ _ _ Hj') as Hx'. rewrite (Hd _ Hx' eq_refl).
      destruct (jf_parse _ _ _ _ _ _ Hj') as (data & Hd' & Hp). rewrite app_nil_r in Hd'. cbn in Hd'. by rewrite <- Hd' in Hp. }
    split_and!; [done|done|by eexists _, _, _|by rewrite Hw|by rewrite Hw|..].
    + intros Hs c (oi & Hoi & Hc). rewrite Hw in Hoi. cbn in Hoi. rewrite Hs, (jf_dir _ _ _ _ _ _ Hj) in Hoi.
      assert (oi = Some i) as -> by (by destruct Hoi). by apply Hdone.
    + intros Hs c (oi & Hoi & Hc). rewrite Hw in Hoi. cbn in Hoi. rewrite Hs, (jf_dir _ _ _ _ _ _ Hj) in Hoi.
      destruct Hoi as [-> | ->]; [by left|right]. by apply Hdone.
  - destruct (Append_Err _ _ _ _ _ _ _ _ _ _ Hj eq_refl Hrun) as (-> & n & Hn & Ha & Hw & Hj').
    split; [done|]. exists (i_data x ++ take n (entry r)).
    assert (file_at (w_fs w') (j_path j) = Some (i_data x ++ take n (entry r))) as Hf.
    { unfold file_at, file_data. by rewrite (jf_dir _ _ _ _ _ _ Hj'), (jf_ino _ _ _ _ _ _ Hj'). }
    destruct (jf_parse _ _ _ _ _ _ Hj) as (data & Hd & Hp). rewrite app_nil_r in Hd. rewrite Hd in *.
    destruct (decide (n = O)) as [->|Hn0].
    { cbn. rewrite app_nil_r in *. eexists _, _, _. split_and!; [done..|]. by left. }
    destruct (Ha Hn0) as [Hv Hlt _ _].
    destruct (decide (n = length (entry r))) as [->|Hn1].
    + rewrite firstn_all in *. eexists _, _, _. split; [done|]. split; [|by right].
      apply parseJournal_append; try done; [apply Hj|apply Hj|]. by rewrite <- (jf_last _ _ _ _ _ _ Hj).
    + eexists _, _, _. split; [done|]. split; [|by left].
      apply parseJournal_torn; try done; [apply Hj|apply Hj|]. exists r. split_and!; [done|by exists (drop n (entry r)); rewrite take_drop|].
      intros E. apply (f_equal length) in E. rewrite length_take in E. lia.
Qed.

(** A journal survives reopening.  In a world without faults, opening the
    path of a journal again, after any sequence of operations that keeps the
    invariant, returns its floor, its records and its size, with nothing torn. *)
Theorem reopen_same `{UnicodePrint} j w options opts (Hj : jinv j w) (Hq : quiet w)
    (Hpath : j_path j ≠ []) (Ho : options_normalized options = Ok opts)
    (Hl : OLimits opts = j_limits j) (Hb : j_maxBytes j <= MaxJournalBytes opts)
    (He : j_maxEntries j <= MaxJournalEntries opts) :
  ∃ j' w', OpenJournal (j_path j) options w =
      (Ok (j', mkRecovery false (j_floor j) (j_last j) (len (j_records j))), w') ∧
    j_floor j' = j_floor j ∧ j_records j' = j_records j ∧ j_last j' = j_last j ∧ j_size j' = j_size j.
Proof.
  destruct Hj as (fd & i & x & Hj). destruct (jf_parse _ _ _ _ _ _ Hj) as (data & Hd & Hp).
  rewrite app_nil_r in Hd.
  assert (file_at (w_fs w) (j_path j) = Some data) as Hf.
  { unfold file_at, file_data. by rewrite (jf_dir _ _ _ _ _ _ Hj), (jf_ino _ _ _ _ _ _ Hj), Hd. }
  destruct (parseJournal_truncate _ _ _ _ _ _ Hp) as (_ & [Hsz _] & _). specialize (Hsz eq_refl).
  pose proof (jf_bytes _ _ _ _ _ _ Hj). pose proof (jf_entries _ _ _ _ _ _ Hj).
  rewrite <- Hl in Hp.
  destruct (OpenJournal_quiet _ _ _ _ _ _ _ _ _ (jf_wf _ _ _ _ _ _ Hj) Hq Hpath Ho Hf ltac:(lia) Hp ltac:(lia))
    as (w' & Hopen & _).
  rewrite (jf_last _ _ _ _ _ _ Hj). eexists _, w'. split; [done|]. done.
Qed.

(** *** Concrete journals *)

#[local] Existing Instance ascii_print.

Definition ex_path : bytes := lit "state/journal".
Definition ex_options : JournalOptions := mkJournalOptions zero_limits 4096 0.
Definition ex_opened : Journal * world :=
  match OpenJournal ex_path ex_options (ex_world []) with
  | (Ok (j, _), w) => (j, w)
  | (Err _, w) => (zero_journal [] 0 ex_options, w)
  end.
Definition with_faults (os : list outcome) (jw : Journal * world) : Journal * world :=
  (jw.1, World None os (w_fs jw.2)).
Definition ex_appended : Journal * world := (Append (ex_deleted 98 1) ex_opened).2.

Lemma ex_opened_jinv : jinv ex_opened.1 ex_opened.2.
Proof.
  destruct (OpenJournal_Ok ex_path ex_options (ex_world []) ex_opened.1
    (mkRecovery false zero_version zero_version 0) ex_opened.2) as (_ & Hj & _);
    [exact fs_wf_empty|vm_compute; reflexivity|exact Hj].
Qed.
Lemma ex_appended_jinv : jinv ex_appended.1 ex_appended.2.
Proof.
  destruct ex_opened_jinv as (fd & i & x & Hj).
  destruct (Append_Ok _ _ _ _ _ (ex_deleted 98 1) ex_opened.2 ex_appended.1 ex_appended.2 tt Hj eq_refl) as (_ & _ & Hj');
    [decide_now|vm_compute; reflexivity|by eexists _, _, _].
Qed.

Lemma OpenJournal_recovers_witness : jinv ex_opened.1 ex_opened.2 ∧ j_records ex_opened.1 = [].
Proof.
  destruct (OpenJournal_recovers ex_path ex_options (ex_world []) ex_opened.1
    (mkRecovery false zero_version zero_version 0) ex_opened.2) as (Hj & _ & _ & _ & Hr & _);
    [exact fs_wf_empty|vm_compute; reflexivity|]. split; [exact Hj|exact Hr].
Defined.

Lemma Append_durable_witness :
  jinv ex_appended.1 ex_appended.2 ∧ j_records ex_appended.1 = [ex_deleted 98 1] ∧
  ∃ e, (Append (ex_deleted 98 1) (with_faults [OOk; OFail 5] ex_opened)).1 = Err e.
Proof.
  destruct (Append_durable ex_opened.1 ex_opened.2 (ex_deleted 98 1) (Ok tt) ex_appended.1 ex_appended.2
    ex_opened_jinv) as (_ & _ & Hj & _); [decide_now|vm_compute; reflexivity|].
  split_and!; [exact Hj|vm_compute; reflexivity|exists ErrOS; vm_compute; reflexivity].
Defined.

Lemma reopen_same_witness :
  ∃ j' w', OpenJournal ex_path ex_options ex_appended.2 =
    (Ok (j', mkRecovery false zero_version (mkVersion 1 1) 1), w') ∧ j_records j' = [ex_deleted 98 1].
Proof.
  destruct (reopen_same ex_appended.1 ex_appended.2 ex_options
    (mkJournalOptions ex_limits 4096 DefaultMaxJournalEntries) ex_appended_jinv) as (j' & w' & Ho & _ & Hr & _);
    [vm_compute; done|vm_compute; discriminate|reflexivity|vm_compute; reflexivity|vm_compute; discriminate..|].
  exists j', w'. split; [exact Ho|exact Hr].
Defined.

(** A failed append is not undone.  When a write stops after a part of an
    entry, [Append] returns the error but leaves the partial entry in the file;
    the next [Append] succeeds behind it, and the journal can then not be
    opened again, although the second append was acknowledged as durable. *)
Theorem failed_append_corrupts_journal :
  let failed := Append (ex_deleted 98 1) (with_faults [OOk; OFail 5] ex_opened) in
  let retried := Append (ex_deleted 98 1) failed.2 in
  failed.1 = Err ErrOS ∧ retried.1 = Ok tt ∧
  (OpenJournal ex_path ex_options retried.2.2).1 = Err ErrJournalChecksum.
Proof. vm_compute. split_and!; reflexivity. Qed.

(** A new journal is not safe from a crash.  [OpenJournal] syncs the file it
    creates but not the directory, so after its first acknowledged [Append] a
    crash may still find no journal at all; and when the header itself is torn,
    every later [OpenJournal] rejects the file. *)
Theorem new_journal_crash :
  crash_at (w_fs ex_appended.2) ex_path None ∧
  let torn := OpenJournal ex_path ex_options (ex_world [OOk; OOk; OFail 5]) in
  torn.1 = Err ErrOS ∧
  (OpenJournal ex_path ex_options (World None [] (w_fs torn.2))).1 = Err ErrJournalCorrupt.
Proof.
  split; [|cbv zeta; split_and!; vm_compute; reflexivity].
  exists None. split; [left; vm_compute; reflexivity|reflexivity].
Qed.
