(* ===== verification/Compact.v ===== *)
(** * Compaction and snapshot installation

    The theorems about [Compact] and [InstallSnapshot] of
    internal/lifecycle/journal.go: what a successful run leaves in memory and
    on disk, that no logical state is lost, and the order in which checkpoint and
    journal become durable when the machine stops half way. *)
From S2P Require Import Prelude Go Bits Text Json Os Model Codec Journal.

(** ** Disks that differ in open descriptors only *)

Record same_disk (f g : fs) : Prop := {
  sd_dir : fs_dir f = fs_dir g;
  sd_sdir : fs_sdir f = fs_sdir g;
  sd_ino : fs_ino f = fs_ino g
}.
#[export] Instance same_disk_equiv : Equivalence same_disk.
Proof.
  split; [by intros f|intros f g [? ? ?]; by split|intros f g h [? ? ?] [? ? ?]; split; congruence].
Qed.
#[export] Instance crash_at_same_disk : Proper (same_disk ==> (=) ==> (=) ==> iff) crash_at.
Proof. intros f g [E1 E2 E3] p ? <- c ? <-. unfold crash_at. by rewrite E1, E2, E3. Qed.

Lemma file_Close_disk fd w r w' : file_Close fd w = (r, w') → same_disk (w_fs w') (w_fs w).
Proof.
  unfold file_Close. destruct (next_outcome w) as [o w1] eqn:E. apply next_outcome_fs in E as [E _].
  rewrite E. case_match; intros [= <- <-]; [done|by rewrite E].
Qed.
Lemma file_Seek_disk fd w r w' : file_Seek fd w = (r, w') → same_disk (w_fs w') (w_fs w).
Proof. by intros ->%file_Seek_fs. Qed.

(** ** Rewriting the journal *)

Definition open_fd (fd i : nat) (f : fs) : fs :=
  Fs (fs_dir f) (fs_sdir f) (fs_ino f) (<[fd := i]> (fs_fds f)) (S fd).

Lemma fs_wf_open fd i f : fs_wf f → fd = fs_next f → is_Some (fs_ino f !! i) → fs_wf (open_fd fd i f).
Proof.
  intros Hwf -> Hi. split; cbn; try apply Hwf.
  - intros n Hn. apply (wf_fresh_ino _ Hwf). lia.
  - intros n Hn. rewrite lookup_insert_ne by lia. apply (wf_fresh_fd _ Hwf). lia.
  - intros d n Hn. apply (wf_fresh_tmp _ Hwf). lia.
  - intros n k. rewrite lookup_insert_Some. intros [[<- <-]|[_ Hk]]; [done|]. by eapply (wf_fds _ Hwf).
Qed.

Inductive rw_result (f0 : fs) (path image : bytes) : result (nat * Z) → fs → Prop :=
  | rw_nothing e : rw_result f0 path image (Err e) f0
  | rw_abandoned e d st keep :
      rw_result f0 path image (Err e) (abandoned f0 (filepath_Dir path) d st keep)
  | rw_renamed e f :
      same_disk f (committed f0 path image) ∨
      same_disk f (fs_sync_dir (filepath_Dir path) (committed f0 path image)) →
      rw_result f0 path image (Err e) f
  | rw_done :
      rw_result f0 path image (Ok (S (fs_next f0), len image))
        (open_fd (S (fs_next f0)) (fs_next f0)
           (fs_sync_dir (filepath_Dir path) (committed f0 path image))).

Lemma encodeEnvelope_entry r env : encodeEnvelope (marshal (json_record r)) = Ok env → env = entry r.
Proof. by intros [_ ->]%encodeEnvelope_Ok. Qed.

Lemma write_entries_tmp f0 dir max rs : ∀ d st size w r w',
  w_fs w = tmp_fs f0 dir d st true → write_entries (fs_next f0) max size rs w = (r, w') →
  ∃ d', w_fs w' = tmp_fs f0 dir d' st true ∧
  match r with
  | Ok size' => d' = d ++ concat (entry <$> rs) ∧ size' = size + len (concat (entry <$> rs)) ∧
                (size <= max → size' <= max)
  | Err _ => True
  end.
Proof.
  induction rs as [|x rs IH]; intros d st size w r w' Hw HW; cbn [write_entries] in HW.
  { stop HW. exists d. cbn. rewrite app_nil_r. split_and!; [done|done|len|done]. }
  step HW as [] w1 E1; apply ctx_Err_fs in E1 as [E1 _]; rewrite Hw in E1; [|by eauto].
  step HW as ent w2 E2; [|injection E2 as _ <-; by eauto].
  apply lift_Ok in E2 as [Ee%encodeEnvelope_entry ->]. subst ent.
  destruct (max <? size + len (entry x)) eqn:El; [stop HW; by eauto|]. bool_to_prop.
  step HW as [] w3 E3; apply (writeFull_tmp _ _ _ _ _ _ _ _ E1) in E3 as (d' & Hw3 & Hd'); [|by eauto].
  rewrite (Hd' eq_refl) in Hw3. destruct (IH _ _ _ _ _ _ Hw3 HW) as (d2 & Hw2 & Hr).
  exists d2. split; [done|]. destruct r as [size'|]; [|done]. destruct Hr as (-> & -> & Hle).
  cbn [fmap list_fmap concat]. rewrite len_app, app_assoc. split_and!; [done|lia|]. intros _. specialize (Hle El). lia.
Qed.

(** The part of [rewriteLocked] that fills the temporary file. *)
Lemma rewrite_fill f0 dir floor max rs w r w' :
  fs_wf f0 → w_fs w = tmp_fs f0 dir [] [] true →
  on_error (fill_journal (fs_next f0) max floor rs) (file_Close (fs_next f0)) w = (r, w') →
  match r with
  | Ok size => w_fs w' = tmp_fs f0 dir (journal_image floor rs) (journal_image floor rs) true ∧
               size = len (journal_image floor rs) ∧ (journalHeaderBytes <= max → size <= max)
  | Err _ => ∃ d st, w_fs w' = tmp_fs f0 dir d st false
  end.
Proof.
  intros Hwf Hw HW.
  destruct (fill_journal (fs_next f0) max floor rs w) as [[size|e] w1] eqn:E.
  - rewrite (on_error_Ok _ _ _ _ _ E) in HW. injection HW as <- <-. unfold fill_journal in E.
    step E as [] w2 E2. apply (writeFull_tmp _ _ _ _ _ _ _ _ Hw) in E2 as (d & Hw2 & Hd).
    rewrite (Hd eq_refl) in Hw2. step E as sz w3 E3.
    apply (write_entries_tmp _ _ _ _ _ _ _ _ _ _ Hw2) in E3 as (d3 & Hw3 & -> & -> & Hle).
    step E as [] w4 E4. apply (file_Sync_tmp _ _ _ _ _ _ _ Hw3) in E4 as [(? & ? & _)|[_ Hw4]]; [done|].
    stop E. rewrite Hw4. unfold journal_image. rewrite len_app, len_journalHeader in *. done.
  - rewrite (on_error_Err _ _ _ _ _ E) in HW. injection HW as <- <-.
    assert (∃ d st, w_fs w1 = tmp_fs f0 dir d st true) as (d & st & Hw1).
    { unfold fill_journal in E. step E as [] w2 E2; apply (writeFull_tmp _ _ _ _ _ _ _ _ Hw) in E2 as (d & Hw2 & Hd); [|by eauto].
      step E as sz w3 E3; apply (write_entries_tmp _ _ _ _ _ _ _ _ _ _ Hw2) in E3 as (d3 & Hw3 & _); [|by eauto].
      step E as [] w4 E4; [stop E|].
      apply (file_Sync_tmp _ _ _ _ _ _ _ Hw3) in E4 as [(? & _ & Hw4)|[? _]]; [rewrite Hw4; by eauto|done]. }
    destruct (file_Close (fs_next f0) w1) as [rc w2] eqn:E2.
    eapply file_Close_tmp in E2; eauto.
Qed.

Lemma syncDirectory_inv dir w r w' :
  syncDirectory dir w = (r, w') →
  match r with Ok _ => w_fs w' = fs_sync_dir dir (w_fs w) | Err _ => w_fs w' = w_fs w end.
Proof.
  unfold syncDirectory. intros HS. step HS as [] w1 E1; apply syscall_inv in E1.
  - destruct E1 as [[? _]|[= E1]]; [done|].
    apply syscall_inv in HS as [[-> HS]|[= <- HS]]; rewrite E1; done.
  - destruct E1 as [[_ E1]|[=]]. done.
Qed.

(** After the rename: the directory is synced and the file opened again. *)
Lemma rewrite_reopen f0 path image w r w' :
  fs_wf f0 → w_fs w = committed f0 path image →
  (syncDirectory (filepath_Dir path) ;;
   newFile <- os_Open false path ;
   on_error (file_Seek newFile) (file_Close newFile) ;;
   ret (newFile, len image)) w = (r, w') →
  rw_result f0 path image r (w_fs w').
Proof.
  intros Hwf Hw HR. step HR as [] w1 E1; apply syncDirectory_inv in E1; rewrite Hw in E1;
    [|apply rw_renamed; left; by rewrite E1].
  set (f1 := fs_sync_dir _ _) in E1.
  assert (fs_dir f1 !! Named (filepath_Clean path) = Some (fs_next f0)) as Hd by apply lookup_insert_eq.
  step HR as fd w2 E2; apply syscall_inv in E2 as [[? E2]|E2]; try done; cbv zeta in E2;
    rewrite E1 in E2; rewrite ?Hd in E2; [|apply rw_renamed; right; by rewrite E2|done].
  injection E2 as <- E2. destruct (file_Seek (S (fs_next f0)) w2) as [[[]|e] w3] eqn:E3.
  - apply file_Seek_fs in E3 as Ew3. step HR as [] w4 E4; rewrite (on_error_Ok _ _ _ _ _ E3) in E4; [|done].
    injection E4 as <-. stop HR. rewrite Ew3, <- E2. apply rw_done.
  - step HR as [] w4 E4; rewrite (on_error_Err _ _ _ _ _ E3) in E4; [done|]. injection E4 as _ <-.
    destruct (file_Close (S (fs_next f0)) w3) as [r5 w5] eqn:E5. apply file_Close_disk in E5. apply file_Seek_fs in E3.
    apply rw_renamed. right. cbn. rewrite E5, E3, <- E2. done.
Qed.

Lemma rewriteLocked_inv j floor rs w r w' :
  fs_wf (w_fs w) → rewriteLocked j floor rs w = (r, w') →
  rw_result (w_fs w) (j_path j) (journal_image floor rs) r (w_fs w') ∧
  (is_Ok r = true → journalHeaderBytes <= j_maxBytes j → len (journal_image floor rs) <= j_maxBytes j).
Proof.
  intros Hwf HR. unfold rewriteLocked in HR.
  step HR as [tmp tmpName] w1 E1; apply (os_CreateTemp_inv (w_fs w)) in E1 as [(e' & ? & Hw1)|[Et Hw1]]; try done;
    [|split; [rewrite Hw1; apply rw_nothing|done]].
  injection Et as -> ->. set (n := fs_next (w_fs w)) in *. set (dir := filepath_Dir (j_path j)) in *.
  step HR as size w2 E2.
  - apply on_error_Ok_inv in E2. step E2 as sz w3 E3. apply (rewrite_fill _ _ _ _ _ _ _ _ Hwf Hw1) in E3 as (Hw3 & -> & Hle).
    step E2 as [] w4 E4. apply (file_Close_tmp _ Hwf _ _ _ _ _ _ Hw3) in E4.
    step E2 as [] w5 E5. apply ctx_Err_fs in E5 as [Hw5 _]. rewrite E4 in Hw5.
    step E2 as [] w6 E6. apply (os_Rename_tmp _ Hwf _ _ _ _ _ _ _ Hw5) in E6 as [(? & ? & _)|[_ Hw6]]; [done|].
    stop E2. split; [by eapply rewrite_reopen|done].
  - split; [|done]. destruct (on_error_Err_inv _ _ _ _ _ E2) as (w3 & E3 & ->).
    assert (∃ d st, w_fs w3 = tmp_fs (w_fs w) dir d st false) as (d & st & Hw3).
    { step E3 as sz w4 E4; apply (rewrite_fill _ _ _ _ _ _ _ _ Hwf Hw1) in E4.
      2:{ done. }
      destruct E4 as (Hw4 & _). step E3 as [] w5 E5; apply (file_Close_tmp _ Hwf _ _ _ _ _ _ Hw4) in E5; [|by eauto].
      step E3 as [] w6 E6; apply ctx_Err_fs in E6 as [Hw6 _]; rewrite E5 in Hw6; [|by eauto].
      step E3 as [] w7 E7; apply (os_Rename_tmp _ Hwf _ _ _ _ _ _ _ Hw6) in E7 as [(? & ? & Hw7)|[? Hw7]]; try done.
      rewrite Hw7, Hw6. by eauto. }
    destruct (os_Remove (Temp dir n) w3) as [r4 w4] eqn:E4. apply (os_Remove_tmp _ Hwf _ _ _ _ _ _ Hw3) in E4 as [keep E4].
    cbn. rewrite E4. apply rw_abandoned.
Qed.

(** ** Compaction *)

Section compaction.
Context `{UnicodePrint}.

Lemma apply_base_Ok s rs s' : apply_base s rs = Ok s' → s' = apply_all s rs.
Proof.
  revert s. induction rs as [|r rs IH]; intros s; cbn; [by intros [= <-]|].
  destruct (Apply r s) as [[a|e] s1]; [|done]. apply IH.
Qed.

Lemma apply_prefix_Ok w s rs prefix s' :
  apply_prefix w s rs = Ok (prefix, s') →
  ∃ tail, rs = prefix ++ tail ∧ s' = apply_all s prefix ∧
    Forall (λ r, version_le (RVersion r) w) prefix ∧
    match tail with r :: _ => version_lt w (RVersion r) | [] => True end.
Proof.
  revert s prefix. induction rs as [|r rs IH]; intros s prefix; cbn [apply_prefix].
  { intros [= <- <-]. exists []. split_and!; [done..|apply Forall_nil_2|done]. }
  destruct (0 <? Compare (RVersion r) w) eqn:Ec.
  { intros [= <- <-]. exists (r :: rs). split_and!; [done..|apply Forall_nil_2|]. apply Compare_gt. lia. }
  destruct (Apply r s) as [[a|e] s1] eqn:Ea; [|done].
  intros ([p1 s2] & Hp & [= <- <-])%rbind_Ok. apply IH in Hp as (tail & -> & -> & Hf & Ht).
  exists tail. split_and!; [done| |apply Forall_cons_2|done].
  - cbn. by rewrite Ea.
  - unfold version_le. lia.
  - done.
Qed.

(** What [Compact] has checked when it starts to write: [base] is the checkpoint
    at the journal's floor, [prefix] the records to be dropped, [tail] the ones
    to be kept, [data] the bytes of the new checkpoint. *)
Record compactable (j : Journal) (req : CompactionRequest) (base : Checkpoint)
    (prefix tail : list record) (data : bytes) : Prop := {
  cp_path : filepath_Clean (CheckpointPath req) ≠ filepath_Clean (j_path j);
  cp_progress : version_lt (j_floor j) (CWatermark req);
  cp_reached : version_le (CWatermark req) (j_last j);
  cp_peers : Forall (λ p, version_le (CWatermark req) p) (PeerWatermarks req);
  cp_base : compactionBaseLocked j (Base req) = Ok base;
  cp_split : j_records j = prefix ++ tail;
  cp_nonempty : prefix ≠ [];
  cp_prefix : Forall (λ r, version_le (RVersion r) (CWatermark req)) prefix;
  cp_tail : match tail with r :: _ => version_lt (CWatermark req) (RVersion r) | [] => True end;
  cp_state : Snapshot (apply_all (NewStore (j_limits j)) (CRecords base ++ prefix)) =
             sort_records (CReqRecords req);
  cp_data : ∃ l, encodeCheckpoint
    (mkCheckpoint (CWatermark req) (sort_records (CReqRecords req))) (j_limits j) = Ok (data, l)
}.

Lemma peers_reached_spec w ps : peers_reached w ps = true ↔ Forall (λ p, version_le w p) ps.
Proof.
  unfold peers_reached. rewrite forallb_forall, Forall_forall. setoid_rewrite list_elem_of_In.
  apply forall_proper. intros p. apply imp_iff_compat_l.
  rewrite negb_true_iff, <- version_nlt. unfold version_lt. lia.
Qed.

Definition compacted (j : Journal) (fd : nat) (floor : Version) (rs : list record) : Journal :=
  mkJournal (j_path j) (Some fd) (j_limits j) (j_maxBytes j) (j_maxEntries j)
    (len (journal_image floor rs)) floor (last_version floor rs) rs (j_closed j).

(** Closing the old file and publishing the new one. *)
Lemma swapFile_run j old new size floor rs w res j' w' :
  j_file j = Some old → swapFile new size floor rs (j, w) = (res, (j', w')) →
  same_disk (w_fs w') (w_fs w) ∧
  match res with
  | Err _ => j' = j
  | Ok _ => fs_wf (w_fs w) → old ≠ new →
      j' = mkJournal (j_path j) (Some new) (j_limits j) (j_maxBytes j) (j_maxEntries j) size floor
             (last_version floor rs) rs (j_closed j) ∧
      fs_fds (w_fs w') !! new = fs_fds (w_fs w) !! new ∧ fs_wf (w_fs w')
  end.
Proof.
  intros Hold HS. unfold swapFile in HS. step_Ok HS. cbn [fst] in HS. rewrite Hold in HS.
  unfold attempt in HS. rewrite io_run in HS.
  destruct (file_Close old w) as [[[]|e] w1] eqn:E1; cbn [fst snd] in HS; apply file_Close_disk in E1 as Hd1.
  - injection HS as <- <- <-. split; [done|]. intros Hwf Hne. split; [done|].
    unfold file_Close in E1. destruct (next_outcome w) as [o w0] eqn:E0. apply next_outcome_fs in E0 as [E0 _].
    rewrite E0 in E1. destruct (fs_fds (w_fs w) !! old) as [i|]; [|done].
    injection E1 as _ <-. cbn. rewrite lookup_delete_ne by done. split; [done|].
    split; cbn; try apply Hwf.
    + intros n Hn. apply lookup_delete_None. right. by apply (wf_fresh_fd _ Hwf).
    + intros n k. rewrite lookup_delete_Some. intros [_ Hk]. by eapply (wf_fds _ Hwf).
  - rewrite io_run in HS. destruct (file_Close new w1) as [r2 w2] eqn:E2. apply file_Close_disk in E2 as Hd2.
    injection HS as <- <- <-. split; [|done]. by rewrite Hd2.
Qed.

(** *** Publishing a checkpoint and the journal behind it *)

Definition checkpointed (f0 : fs) (cp data : bytes) : fs :=
  fs_sync_dir (filepath_Dir cp) (committed f0 cp data).

(** The checkpoint could not be written, or it was and the journal followed. *)
Inductive published (f0 : fs) (cp data jp image : bytes) : result (nat * Z) → fs → Prop :=
  | published_nothing e f : aw_result f0 cp data (Err e) f → published f0 cp data jp image (Err e) f
  | published_checkpoint r f :
      rw_result (checkpointed f0 cp data) jp image r f → published f0 cp data jp image r f.

Definition publish (cp data : bytes) (j : Journal) (floor : Version) (rs : list record) : M (Journal * world) unit :=
  io (atomicWrite cp data) ;;
  '(newFile, newSize) <- io (rewriteLocked j floor rs) ;
  swapFile newFile newSize floor rs.

Lemma publish_run j f fd i x torn cp data floor rs w res j' w' :
  jfile j f fd i x torn → w_fs w = f → publish cp data j floor rs (j, w) = (res, (j', w')) →
  ∃ r f2, published f cp data (j_path j) (journal_image floor rs) r f2 ∧ same_disk (w_fs w') f2 ∧
  match res with
  | Err _ => j' = j
  | Ok _ => r = Ok (S (S (fs_next f)), len (journal_image floor rs)) ∧
      j' = compacted j (S (S (fs_next f))) floor rs ∧ fs_wf (w_fs w') ∧
      fs_fds (w_fs w') !! S (S (fs_next f)) = Some (S (fs_next f)) ∧
      len (journal_image floor rs) <= j_maxBytes j
  end.
Proof.
  intros Hj Hw HP. pose proof (jf_wf _ _ _ _ _ _ Hj) as Hwf. rewrite <- Hw in Hwf. unfold publish in HP.
  step HP as [] [j1 w1] E1; apply io_eq in E1 as [-> E1].
  2:{ apply atomicWrite_inv in E1; [|done]. rewrite Hw in E1. eexists _, _. split; [by apply published_nothing|done]. }
  apply atomicWrite_Ok_fs in E1 as Hw1; [|done]. apply atomicWrite_view in E1 as [Hk _]; [|done].
  pose proof (keeps_wf _ _ Hk) as Hwf1. rewrite Hw in Hw1, Hk. fold (checkpointed f cp data) in Hw1.
  step HP as [nf ns] [j2 w2] E2; apply io_eq in E2 as [-> E2]; apply rewriteLocked_inv in E2 as [Hr Hb]; try done;
    rewrite Hw1 in Hr.
  2:{ eexists _, _. split; [by apply published_checkpoint|done]. }
  inversion Hr as [| | |Hok Hf2]; subst nf ns. cbn in Hf2.
  assert (fs_wf (w_fs w2)) as Hwf2.
  { rewrite <- Hf2. change (fs_wf (open_fd (S (S (fs_next f))) (S (fs_next f))
      (fs_sync_dir (filepath_Dir (j_path j)) (committed (checkpointed f cp data) (j_path j) (journal_image floor rs))))).
    rewrite Hw1 in Hwf1. apply fs_wf_open; [by apply fs_wf_sync_dir, fs_wf_committed|done|].
    cbn. rewrite lookup_insert_eq. by eexists. }
  assert (fd ≠ S (S (fs_next f))) as Hne.
  { intros ->. pose proof (jf_fd _ _ _ _ _ _ Hj) as Hfd. rewrite <- Hw in Hfd.
    rewrite (wf_fresh_fd _ Hwf) in Hfd; [done|]. rewrite Hw. lia. }
  apply (swapFile_run _ fd) in HP as [Hd Hs]; [|apply Hj].
  eexists _, _. split; [apply published_checkpoint, Hr|]. split; [done|].
  destruct res as [[]|e]; [|done]. destruct (Hs Hwf2 Hne) as (-> & Hfds & Hwf').
  split_and!; try done.
  - rewrite Hfds, <- Hf2. cbn. by rewrite lookup_insert_eq.
  - apply Hb; [done|]. pose proof (jf_bytes _ _ _ _ _ _ Hj). lia.
Qed.

(** A crash during or after the rewrite finds the old or the new journal. *)
Lemma crash_at_rw f0 path image r f q c :
  fs_wf f0 → rw_result f0 path image r f → crash_at f q c →
  crash_at f0 q c ∨ (filepath_Clean q = filepath_Clean path ∧ c = Some image).
Proof.
  intros Hwf Hr Hc. destruct Hr as [e|e d st keep|e f [Hf|Hf]|].
  - by left.
  - left. eapply crash_at_grow; [done| |done]. destruct keep; [|done]. by rewrite lookup_insert_ne.
  - rewrite Hf in Hc. by apply crash_at_committed.
  - rewrite Hf in Hc. apply crash_at_sync_dir in Hc. by apply crash_at_committed.
  - change (crash_at (fs_sync_dir (filepath_Dir path) (committed f0 path image)) q c) in Hc.
    apply crash_at_sync_dir in Hc. by apply crash_at_committed.
Qed.

Lemma fs_wf_checkpointed f cp data : fs_wf f → fs_wf (checkpointed f cp data).
Proof. intros. by apply fs_wf_sync_dir, fs_wf_committed. Qed.

(** The checkpoint is durable before any part of the new journal is. *)
Lemma crash_at_published f0 cp data jp image r f :
  fs_wf f0 → filepath_Clean cp = cp → filepath_Clean cp ≠ filepath_Clean jp →
  published f0 cp data jp image r f →
  (∀ c, crash_at f cp c → crash_at f0 cp c ∨ c = Some data) ∧
  (∀ c, crash_at f jp c → crash_at f0 jp c ∨
     c = Some image ∧ ∀ c', crash_at f cp c' → c' = Some data).
Proof.
  intros Hwf Hcp Hne Hp. destruct Hp as [e f Ha|r f Hr].
  - assert (∀ q c, crash_at f q c → crash_at f0 q c ∨ filepath_Clean q = filepath_Clean cp ∧ c = Some data) as Hc.
    { intros q c Hc. inversion Ha; subst.
      - by left.
      - left. eapply crash_at_grow; [done| |done]. destruct keep; [|done]. by rewrite lookup_insert_ne.
      - by apply crash_at_committed. }
    split; intros c [?|[? ?]]%Hc; auto. congruence.
  - pose proof (fs_wf_checkpointed f0 cp data Hwf) as Hwf1.
    assert (∀ c', crash_at f cp c' → c' = Some data) as Hd.
    { intros c' [Hc|[? _]]%(crash_at_rw _ _ _ _ _ _ _ Hwf1 Hr); [|done]. by apply crash_at_durable in Hc. }
    split; [auto|]. intros c [Hc|[_ ->]]%(crash_at_rw _ _ _ _ _ _ _ Hwf1 Hr); [|auto].
    apply crash_at_sync_dir, crash_at_committed in Hc as [?|[? _]]; [auto|congruence|done].
Qed.

(** What the process sees after both were replaced. *)
Lemma published_view f0 cp data jp image fd size f :
  fs_wf f0 → filepath_Clean cp ≠ filepath_Clean jp → published f0 cp data jp image (Ok (fd, size)) f →
  file_at f cp = Some data ∧ fs_dir f !! Named (filepath_Clean jp) = Some (S (fs_next f0)) ∧
  fs_ino f !! S (fs_next f0) = Some (Inode image image).
Proof.
  intros Hwf Hne Hp. inversion Hp as [|r f' Hr]; subst. inversion Hr; subst. cbn.
  rewrite !lookup_insert_eq. split_and!; [|done..].
  unfold file_at, file_data. cbn. rewrite lookup_insert_ne by congruence. rewrite lookup_insert_eq.
  rewrite lookup_insert_ne by lia. by rewrite lookup_insert_eq.
Qed.

(** The journal that [publish] leaves behind. *)
Lemma publish_jfile j f fd i x torn cp data floor rs w u j' w' :
  jfile j f fd i x torn → w_fs w = f → filepath_Clean cp ≠ filepath_Clean (j_path j) →
  version_u64 floor → Forall (journalable (j_limits j)) rs → increasing floor rs →
  len rs <= len (j_records j) →
  publish cp data j floor rs (j, w) = (Ok u, (j', w')) →
  j' = compacted j (S (S (fs_next f))) floor rs ∧ file_at (w_fs w') cp = Some data ∧
  ∃ i' x', jfile j' (w_fs w') (S (S (fs_next f))) i' x' [].
Proof.
  intros Hj Hw Hne Hu Hrs Hinc Hlen HP.
  apply (publish_run _ _ _ _ _ _ _ _ _ _ _ _ _ _ Hj Hw) in HP as (r & f2 & Hp & Hd & -> & -> & Hwf & Hfd & Hb).
  apply published_view in Hp as (Hcp & Hdir & Hino); [|apply Hj|done].
  destruct Hd as [Ed _ Ei]. split_and!; [done| |].
  { rewrite <- Hcp. unfold file_at, file_data. by rewrite Ed, Ei. }
  exists (S (fs_next f)), (Inode (journal_image floor rs) (journal_image floor rs)).
  split; cbn [compacted j_closed j_file j_path j_limits j_records j_floor j_size j_last j_maxEntries j_maxBytes];
    try done; try apply Hj.
  - by rewrite Ei.
  - by rewrite Ed.
  - exists (journal_image floor rs). rewrite app_nil_r. split; [done|].
    pose proof (parseJournal_image (j_limits j) floor rs []) as Hpi. rewrite app_nil_r in Hpi.
    rewrite Hpi; try done; [apply Hj|apply Hj|by left].
  - pose proof (jf_entries _ _ _ _ _ _ Hj). lia.
  - split; [|done]. unfold journal_image. rewrite len_app, len_journalHeader. pose proof (len_nonneg (concat (entry <$> rs))). lia.
Qed.

(** [Compact] stops at a guard without touching anything, or publishes. *)
Lemma Compact_run j f fd i x req w res j' w' :
  jfile j f fd i x [] → w_fs w = f → Compact req (j, w) = (res, (j', w')) →
  (∃ e, res = Err e ∧ j' = j ∧ w_fs w' = f) ∨
  ∃ base prefix tail data w1, compactable j req base prefix tail data ∧ w_fs w1 = f ∧
    publish (CheckpointPath req) data j (CWatermark req) tail (j, w1) = (res, (j', w')).
Proof.
  intros Hj Hw HC. unfold Compact in HC. case_bool_decide as Hcp; [stop HC; eauto|].
  step HC as [] [j1 w1] E1; apply io_eq in E1 as [-> E1]; apply ctx_Err_fs in E1 as [Hw1 _]; rewrite Hw in Hw1;
    [|left; eauto].
  step_Ok HC. cbn [fst] in HC. rewrite (jfile_ensureOpen _ _ _ _ _ _ Hj) in HC. step_Ok HC.
  case_bool_decide as Hpath; [stop HC; left; eauto|].
  destruct (_ <=? 0) eqn:Efl in HC; [stop HC; left; eauto|].
  destruct (0 <? _) eqn:Elast in HC; [stop HC; left; eauto|].
  destruct (peers_reached _ _) eqn:Epeers in HC; cbn [negb] in HC; [|stop HC; left; eauto].
  step HC as base [j1 w2] E2; injection E2 as Ebase <- <-; [|left; eauto].
  step HC as [checkpoint l1] [j1 w2] E2; injection E2 as Ecp <- <-; [|left; eauto].
  step HC as state [j1 w2] E2; injection E2 as Est <- <-; [|left; eauto].
  step HC as [prefix final] [j1 w2] E2; injection E2 as Epre <- <-; [|left; eauto].
  destruct (len prefix =? 0) eqn:Elen; [stop HC; left; eauto|].
  destruct (recordsEqual _ _) eqn:Eeq in HC; cbn [negb] in HC; [|stop HC; left; eauto].
  step HC as [data l2] [j1 w2] E2; injection E2 as Edata <- <-; [|left; eauto].
  bool_to_prop. apply recordsEqual_spec in Eeq. apply peers_reached_spec in Epeers.
  apply apply_base_Ok in Est as ->. apply apply_prefix_Ok in Epre as (tail & Hsplit & -> & Hpre & Htail).
  unfold normalizeCheckpoint in Ecp. apply rbind_Ok in Ecp as (rs & Hrs & [= <- <-]). cbn in Hrs, Eeq, Edata.
  apply normalizeCheckpointRecords_Ok in Hrs as (_ & _ & _ & ->).
  right. exists base, prefix, tail, data, w1. split; [|split; [done|]].
  - split; try done.
    + apply Compare_gt. lia.
    + by rewrite len_zero in Elen.
    + rewrite <- Eeq. by rewrite apply_all_app.
    + eauto.
  - unfold publish. rewrite Hsplit, drop_app_length in HC.
    assert (clone <$> tail = tail) as Ecl.
    { rewrite <- list_fmap_id. apply list_fmap_ext. intros ? ? ?. apply clone_id. }
    by rewrite Ecl in HC.
Qed.

Lemma increasing_app floor p t : increasing floor (p ++ t) → increasing (last_version floor p) t.
Proof.
  revert floor. induction p as [|r p IH]; intros floor; [done|]. cbn. intros [_ Hi].
  apply IH in Hi. unfold last_version in *. rewrite last_cons. by destruct (last p).
Qed.
Lemma increasing_from v w t :
  increasing v t → match t with r :: _ => version_lt w (RVersion r) | [] => True end → increasing w t.
Proof. destruct t; cbn; naive_solver. Qed.
Lemma increasing_above w t : increasing w t → Forall (λ r, version_lt w (RVersion r)) t.
Proof.
  revert w. induction t as [|r t IH]; intros w; [intros _; apply Forall_nil_2|]. cbn. intros [Hr Ht].
  apply Forall_cons_2; [done|]. eapply Forall_impl; [by apply IH|]. intros x Hx. by trans (RVersion r).
Qed.

Lemma jfile_records j f fd i x torn :
  jfile j f fd i x torn → version_u64 (j_floor j) ∧ increasing (j_floor j) (j_records j) ∧
  Forall (journalable (j_limits j)) (j_records j).
Proof. intros Hj. destruct (jf_parse _ _ _ _ _ _ Hj) as (data & _ & Hp). by eapply parseJournal_sound. Qed.

(** The records that [Compact] keeps are a journal above the watermark. *)
Lemma compactable_tail j f fd i x torn req base prefix tail data :
  jfile j f fd i x torn → compactable j req base prefix tail data →
  increasing (CWatermark req) tail ∧ Forall (journalable (j_limits j)) tail ∧
  len tail <= len (j_records j).
Proof.
  intros Hj Hc. destruct (jfile_records _ _ _ _ _ _ Hj) as (_ & Hi & Hf).
  rewrite (cp_split _ _ _ _ _ _ Hc) in Hi, Hf |- *. split_and!.
  - eapply increasing_from; [by apply increasing_app|apply Hc].
  - by apply Forall_app in Hf as [_ ?].
  - rewrite len_app. pose proof (len_nonneg prefix). lia.
Qed.

(** The new checkpoint and the kept records replay to the state that the old
    checkpoint and all records replay to. *)
Lemma compactable_state j f fd i x torn req base prefix tail data :
  jfile j f fd i x torn → compactable j req base prefix tail data →
  version_u64 (CWatermark req) → Forall (λ r, version_u64 (RVersion r)) (CReqRecords req) →
  ∃ c, decodeCheckpoint data (j_limits j) = Ok c ∧ Watermark c = CWatermark req ∧
  apply_all (NewStore (j_limits j)) (CRecords c ++ tail) =
  apply_all (NewStore (j_limits j)) (CRecords base ++ j_records j).
Proof.
  intros Hj Hc Hw Hu. destruct (cp_data _ _ _ _ _ _ Hc) as [l Hd]. pose proof (jf_limits _ _ _ _ _ _ Hj) as Hl.
  apply encodeCheckpoint_Ok in Hd as He. destruct He as (rs & Hn & _).
  apply decodeCheckpoint_encode in Hd; [|done|cbn; by rewrite sort_records_Permutation].
  rewrite Hl in Hd. eexists. split_and!; [done..|]. cbn [CRecords].
  rewrite (sort_records_id (sort_records _)).
  2:{ cbn in Hn. apply normalizeCheckpointRecords_Ok in Hn as (_ & _ & ? & _). done. }
  2:{ apply sort_records_sorted. }
  rewrite <- (cp_state _ _ _ _ _ _ Hc), (cp_split _ _ _ _ _ _ Hc), apply_all_app, (app_assoc (CRecords base)), (apply_all_app _ (_ ++ prefix)).
  f_equal. set (s := apply_all _ (CRecords base ++ prefix)).
  assert (limits s = j_limits j) as Es by (unfold s; rewrite apply_all_limits; apply Hl).
  rewrite <- Es. apply apply_all_Snapshot. apply apply_all_wf, store_wf_New.
Qed.

(** *** Snapshot installation *)

(** What [InstallSnapshot] has checked when it starts to write. *)
Record installable (j : Journal) (path : bytes) (c : Checkpoint) (data : bytes) : Prop := {
  in_path : filepath_Clean path ≠ filepath_Clean (j_path j);
  in_newer : version_le (j_last j) (Watermark c);
  in_data : ∃ l, encodeCheckpoint
    (mkCheckpoint (Watermark c) (sort_records (CRecords c))) (j_limits j) = Ok (data, l)
}.

Lemma InstallSnapshot_run j f fd i x torn path c w res j' w' :
  jfile j f fd i x torn → w_fs w = f → InstallSnapshot path c (j, w) = (res, (j', w')) →
  (∃ e, res = Err e ∧ j' = j ∧ w_fs w' = f) ∨
  ∃ data w1, installable j path c data ∧ w_fs w1 = f ∧
    publish path data j (Watermark c) [] (j, w1) = (res, (j', w')).
Proof.
  intros Hj Hw HI. unfold InstallSnapshot in HI. case_bool_decide as Hcp; [stop HI; eauto|].
  step HI as [] [j1 w1] E1; apply io_eq in E1 as [-> E1]; apply ctx_Err_fs in E1 as [Hw1 _]; rewrite Hw in Hw1;
    [|left; eauto].
  step_Ok HI. cbn [fst] in HI. rewrite (jfile_ensureOpen _ _ _ _ _ _ Hj) in HI. step_Ok HI.
  case_bool_decide as Hpath; [stop HI; left; eauto|].
  step HI as [normal l1] [j1 w2] E2; injection E2 as Ecp <- <-; [|left; eauto].
  unfold normalizeCheckpoint in Ecp. apply rbind_Ok in Ecp as (rs & Hrs & [= <- <-]). cbn [Watermark] in HI.
  apply normalizeCheckpointRecords_Ok in Hrs as (_ & _ & _ & ->).
  destruct (_ <? 0) eqn:Elt in HI; [stop HI; left; eauto|]. bool_to_prop.
  unfold SaveCheckpoint in HI. rewrite bool_decide_eq_false_2 in HI by done.
  destruct (encodeCheckpoint (mkCheckpoint (Watermark c) (sort_records (CRecords c))) (j_limits j))
    as [[data l]|e] eqn:Ed.
  2:{ left. erewrite bind_step_Err in HI by reflexivity. stop HI. eauto. }
  assert ((MaxCheckpointBytes l <? len data) = false) as Emax.
  { apply encodeCheckpoint_Ok in Ed as (? & _ & _ & ? & ->). lia. }
  right. exists data, w1. split; [|split; [done|]].
  - split; [done| |eauto]. apply version_nlt. unfold version_lt. lia.
  - unfold publish. rewrite <- HI. apply bind_first. rewrite !io_run.
    unfold bind at 1 2, lift. by rewrite Emax.
Qed.
Lemma InstallSnapshot_Ok j w path c u j' w' :
  jinv j w → version_u64 (Watermark c) → Forall (λ r, version_u64 (RVersion r)) (CRecords c) →
  InstallSnapshot path c (j, w) = (Ok u, (j', w')) →
  version_le (j_last j) (Watermark c) ∧ jinv j' w' ∧
  j_floor j' = Watermark c ∧ j_last j' = Watermark c ∧ j_records j' = [] ∧ j_limits j' = j_limits j ∧ j_path j' = j_path j ∧
  Forall (λ r, valid (j_limits j) r = true) (CRecords c) ∧ NoDup (key_of <$> CRecords c) ∧
  ∃ data, file_at (w_fs w') path = Some data ∧
    decodeCheckpoint data (j_limits j') = Ok (mkCheckpoint (Watermark c) (sort_records (CRecords c))).
Proof.
  intros Hj Hw Hu Hrun. destruct Hj as (fd & i & x & Hj).
  destruct (InstallSnapshot_run _ _ _ _ _ _ _ _ _ _ _ _ Hj eq_refl Hrun) as [(? & ? & _)|(data & w1 & Hin & Hw1 & HP)];
    [done|].
  destruct (in_data _ _ _ _ Hin) as [l Hd]. pose proof (jf_limits _ _ _ _ _ _ Hj) as Hl.
  apply encodeCheckpoint_Ok in Hd as He. destruct He as (rs & Hn & _).
  apply decodeCheckpoint_encode in Hd; [|done|cbn; by rewrite sort_records_Permutation].
  rewrite Hl in Hd. cbn [Watermark CRecords] in *.
  apply normalizeCheckpointRecords_Ok in Hn as (_ & Hv & Hnd & _).
  rewrite (sort_records_id (sort_records _)) in Hd; [|done|apply sort_records_sorted].
  apply (publish_jfile _ _ _ _ _ _ _ _ _ _ _ _ _ _ Hj) in HP as (-> & Hcp & i' & x' & Hj'); try done;
    [|apply Hin|].
  - cbn. rewrite sort_records_Permutation in Hv, Hnd. split_and!; [apply Hin|by eexists _, _, _|done..| | |by eauto].
    + eapply Forall_impl; [exact Hv|]. by intros ? [? _].
    + done.
  - change (0 <= len (j_records j)). apply len_nonneg.
Qed.
End compaction.

(** ** Properties *)

(** C4: Compaction loses nothing.  When [Compact] succeeds, every peer watermark
    was at or above the target; the journal keeps exactly the records above it
    and its invariant; the checkpoint file decodes to a checkpoint at the new
    floor; and replaying checkpoint and kept records gives the very state that
    the old base and the whole old journal replay to. *)
Theorem Compact_preserves_state `{UnicodePrint} j w req u j' w' (Hj : jinv j w)
    (Hw : version_u64 (CWatermark req)) (Hu : Forall (λ r, version_u64 (RVersion r)) (CReqRecords req))
    (Hrun : Compact req (j, w) = (Ok u, (j', w'))) :
  jinv j' w' ∧ j_floor j' = CWatermark req ∧
  Forall (λ p, version_le (CWatermark req) p) (PeerWatermarks req) ∧
  ∃ base prefix data c,
    compactionBaseLocked j (Base req) = Ok base ∧
    j_records j = prefix ++ j_records j' ∧
    Forall (λ r, version_le (RVersion r) (CWatermark req)) prefix ∧
    Forall (λ r, version_lt (CWatermark req) (RVersion r)) (j_records j') ∧
    file_at (w_fs w') (CheckpointPath req) = Some data ∧
    decodeCheckpoint data (j_limits j') = Ok c ∧ Watermark c = j_floor j' ∧
    apply_all (NewStore (j_limits j)) (CRecords c ++ j_records j') =
    apply_all (NewStore (j_limits j)) (CRecords base ++ j_records j).
Proof.
  destruct Hj as (fd & i & x & Hj).
  destruct (Compact_run _ _ _ _ _ _ _ _ _ _ Hj eq_refl Hrun) as [(? & ? & _)|(base & prefix & tail & data & w1 & Hc & Hw1 & HP)];
    [done|].
  destruct (compactable_tail _ _ _ _ _ _ _ _ _ _ _ Hj Hc) as (Hinc & Hjr & Hlen).
  destruct (compactable_state _ _ _ _ _ _ _ _ _ _ _ Hj Hc Hw Hu) as (c & Hdec & Hcw & Hst).
  apply (publish_jfile _ _ _ _ _ _ _ _ _ _ _ _ _ _ Hj) in HP as (-> & Hcp & i' & x' & Hj'); try done; [|apply Hc].
  cbn. split_and!; [by eexists _, _, _|done|apply Hc|].
  exists base, prefix, data, c. split_and!; try done; try apply Hc. by apply increasing_above.
Qed.

(** The checkpoint is durable before the journal it replaces is gone.
    However a compaction ends and wherever a crash stops it, the crash finds at
    the journal's path what it could have found before or the compacted journal;
    and if it finds the compacted journal, then it finds the new checkpoint as
    well, and both together replay to the old state. *)
Theorem Compact_checkpoint_first `{UnicodePrint} j w req res j' w' (Hj : jinv j w)
    (Hw : version_u64 (CWatermark req)) (Hu : Forall (λ r, version_u64 (RVersion r)) (CReqRecords req))
    (Hcp : filepath_Clean (CheckpointPath req) = CheckpointPath req)
    (Hrun : Compact req (j, w) = (res, (j', w'))) :
  ∀ c, crash_at (w_fs w') (j_path j) c → crash_at (w_fs w) (j_path j) c ∨
  ∃ base tail data image checkpoint size,
    compactionBaseLocked j (Base req) = Ok base ∧
    c = Some image ∧ parseJournal image (j_limits j) = Ok (CWatermark req, tail, size, false) ∧
    (∀ c', crash_at (w_fs w') (CheckpointPath req) c' → c' = Some data) ∧
    decodeCheckpoint data (j_limits j) = Ok checkpoint ∧ Watermark checkpoint = CWatermark req ∧
    apply_all (NewStore (j_limits j)) (CRecords checkpoint ++ tail) =
    apply_all (NewStore (j_limits j)) (CRecords base ++ j_records j).
Proof.
  destruct Hj as (fd & i & x & Hj). intros cr Hcr.
  destruct (Compact_run _ _ _ _ _ _ _ _ _ _ Hj eq_refl Hrun) as [(? & _ & _ & Hf)|(base & prefix & tail & data & w1 & Hc & Hw1 & HP)];
    [rewrite Hf in Hcr; by left|].
  destruct (compactable_tail _ _ _ _ _ _ _ _ _ _ _ Hj Hc) as (Hinc & Hjr & Hlen).
  destruct (compactable_state _ _ _ _ _ _ _ _ _ _ _ Hj Hc Hw Hu) as (c & Hdec & Hcw & Hst).
  apply (publish_run _ _ _ _ _ _ _ _ _ _ _ _ _ _ Hj) in HP as (r & f2 & Hp & Hd & _); [|done].
  rewrite Hd in Hcr.
  apply crash_at_published in Hp as [_ Hjp]; [|apply Hj|done|apply Hc].
  destruct (Hjp _ Hcr) as [?|[-> Hcp']]; [by left|right].
  exists base, tail, data, (journal_image (CWatermark req) tail), c, (len (journal_image (CWatermark req) tail)).
  split_and!; try done; [apply Hc| |intros c' Hc'; apply Hcp'; by rewrite <- Hd].
  pose proof (parseJournal_image (j_limits j) (CWatermark req) tail []) as Hpi. rewrite app_nil_r in Hpi.
  apply Hpi; try done; [apply Hj|apply Hj|by left].
Qed.

(** Installing a snapshot replaces the history by the checkpoint.  A
    successful [InstallSnapshot] never goes back behind the last version of the
    journal; afterwards the journal is empty at the checkpoint's watermark and
    keeps its invariant, and the checkpoint file decodes to the checkpoint. *)
Theorem InstallSnapshot_installs `{UnicodePrint} j w path c u j' w' (Hj : jinv j w)
    (Hw : version_u64 (Watermark c)) (Hu : Forall (λ r, version_u64 (RVersion r)) (CRecords c))
    (Hrun : InstallSnapshot path c (j, w) = (Ok u, (j', w'))) :
  version_le (j_last j) (Watermark c) ∧ jinv j' w' ∧
  j_floor j' = Watermark c ∧ j_last j' = Watermark c ∧ j_records j' = [] ∧
  ∃ data, file_at (w_fs w') path = Some data ∧
    decodeCheckpoint data (j_limits j') = Ok (mkCheckpoint (Watermark c) (sort_records (CRecords c))).
Proof.
  destruct (InstallSnapshot_Ok _ _ _ _ _ _ _ Hj Hw Hu Hrun) as (H1 & H2 & H3 & H4 & H5 & _ & _ & _ & _ & H6). by split_and!.
Qed.

(** *** Concrete runs *)

#[local] Existing Instance ascii_print.

Definition ex_request : CompactionRequest :=
  mkCompactionRequest (lit "state/checkpoint") (mkVersion 1 1) [ex_deleted 98 1] None [mkVersion 1 1].
#[local] Abbreviation ex_compacted os := (Compact ex_request (with_faults os ex_appended)).

Lemma jinv_with_faults jw os : jinv jw.1 jw.2 → jinv (with_faults os jw).1 (with_faults os jw).2.
Proof. done. Qed.

Lemma Compact_preserves_state_witness :
  jinv (ex_compacted []).2.1 (ex_compacted []).2.2 ∧ j_records (ex_compacted []).2.1 = [].
Proof.
  destruct (Compact_preserves_state (with_faults [] ex_appended).1 (with_faults [] ex_appended).2 ex_request tt
    (ex_compacted []).2.1 (ex_compacted []).2.2) as (Hj & _);
    [exact (jinv_with_faults _ [] ex_appended_jinv)|decide_now|decide_now|apply run_eq2; vm_compute; reflexivity|].
  split; [exact Hj|vm_compute; reflexivity].
Defined.

(** The directory sync after the rename fails: the call reports an error, and a
    crash may find either journal. *)
Definition ex_faults : list outcome := repeat OOk 13 ++ [OFail 0].

Lemma Compact_checkpoint_first_witness :
  is_Ok (ex_compacted ex_faults).1 = false ∧
  file_at (w_fs (ex_compacted ex_faults).2.2) ex_path = Some (journal_image (mkVersion 1 1) []) ∧
  ∀ c, crash_at (w_fs (ex_compacted ex_faults).2.2) ex_path c →
    crash_at (w_fs ex_appended.2) ex_path c ∨
    ∀ c', crash_at (w_fs (ex_compacted ex_faults).2.2) (lit "state/checkpoint") c' → c' ≠ None.
Proof.
  split_and!; [vm_compute; reflexivity|vm_compute; reflexivity|]. intros c Hc.
  destruct (Compact_checkpoint_first (with_faults ex_faults ex_appended).1 (with_faults ex_faults ex_appended).2
    ex_request (ex_compacted ex_faults).1 (ex_compacted ex_faults).2.1 (ex_compacted ex_faults).2.2
    (jinv_with_faults _ ex_faults ex_appended_jinv)) with c as [?|(base & tail & data & image & cp & size & _ & _ & _ & Hd & _)];
    [decide_now|decide_now|reflexivity|apply run_eq2; reflexivity|exact Hc|by left|].
  right. intros c' Hc'. by rewrite (Hd c' Hc').
Defined.

Definition ex_snapshot : Checkpoint := mkCheckpoint (mkVersion 2 0) [ex_deleted 99 5].
#[local] Abbreviation ex_installed := (InstallSnapshot (lit "state/checkpoint") ex_snapshot ex_appended).

Lemma InstallSnapshot_installs_witness :
  jinv ex_installed.2.1 ex_installed.2.2 ∧ j_floor ex_installed.2.1 = mkVersion 2 0.
Proof.
  destruct (InstallSnapshot_installs ex_appended.1 ex_appended.2 (lit "state/checkpoint") ex_snapshot tt
    ex_installed.2.1 ex_installed.2.2 ex_appended_jinv) as (_ & Hj & Hf & _);
    [decide_now|decide_now|apply run_eq2; vm_compute; reflexivity|]. split; [exact Hj|exact Hf].
Defined.

(** A compaction that fails after the rename detaches the journal.  When
    syncing the directory fails, [Compact] returns an error although the new
    journal is in place; the object goes on writing to the unlinked old file,
    so a later successful [Append] is not in the journal that is opened next. *)
Theorem failed_compaction_loses_appends :
  let failed := ex_compacted ex_faults in
  let appended := Append (ex_deleted 97 2) failed.2 in
  is_Ok failed.1 = false ∧ appended.1 = Ok tt ∧
  match OpenJournal ex_path ex_options appended.2.2 with
  | (Ok (j, _), _) => ex_deleted 97 2 ∉ j_records j
  | (Err _, _) => False
  end.
Proof. cbv zeta. split_and!; [vm_compute; reflexivity..|]. vm_compute. apply not_elem_of_nil. Qed.
