(* ===== verification/Transport.v ===== *)
(** * Lifecycle records on the wire

    internal/lifecycle/transport.go: the record envelope, its strict decoder and
    the capability gate in front of it. *)
From S2P Require Import Prelude Go Bits Text Json Os Model Codec.

Definition LifecycleCapabilityV1 : bytes := Eval cbv in lit "lifecycle.v1".
Definition LifecycleRepairReconcileCapabilityV1 : bytes := Eval cbv in lit "lifecycle.repair-reconcile.v1".
Definition LifecycleRecordMessageType : bytes := Eval cbv in lit "lifecycle.record".
Definition DefaultMaxLifecyclePayloadBytes : Z := 131072.

Record TransportLimits := mkTransportLimits { MaxPayloadBytes : Z; TRecordLimits : Limits }.

Definition transport_normalized (l : TransportLimits) : TransportLimits :=
  mkTransportLimits (or_default (MaxPayloadBytes l) DefaultMaxLifecyclePayloadBytes)
    (normalized (TRecordLimits l)).

Record RecordEnvelope := mkRecordEnvelope { EType : bytes; ERecord : record }.

Fixpoint has_capability (capability : bytes) (capabilities : list bytes) : bool :=
  match capabilities with
  | [] => false
  | c :: cs => if bool_decide (c = capability) then true else has_capability capability cs
  end.
Definition HasLifecycleCapability : list bytes → bool := has_capability LifecycleCapabilityV1.
Definition HasRepairReconciliationCapability : list bytes → bool :=
  has_capability LifecycleRepairReconcileCapabilityV1.

Definition json_envelope (e : RecordEnvelope) : json :=
  JObj [(lit "type", JStr (EType e)); (lit "record", json_record (ERecord e))].
Definition dec_envelope : decoder RecordEnvelope :=
  dec_struct true
    [(lit "type", field EType (λ x e, mkRecordEnvelope x (ERecord e)) dec_string);
     (lit "record", field ERecord (λ x e, mkRecordEnvelope (EType e) x) (dec_record true))].

(** One [Decoder.Decode] into a zero value, and what a second one reports. *)
Definition decode_one {A} (dec : decoder A) (zero : A) (payload : bytes) : option (A * trailing) :=
  match next_value (runes payload) with
  | Some (j, rest) => match dec zero j with Some x => Some (x, after_value rest) | None => None end
  | None => None
  end.

Section transport.
Context `{UnicodePrint}.

Definition EncodeRecord (r : record) (l : TransportLimits) : result bytes :=
  let l := transport_normalized l in
  _ <-? Validate r (TRecordLimits l) ;
  let payload := marshal (json_envelope (mkRecordEnvelope LifecycleRecordMessageType r)) in
  if MaxPayloadBytes l <? len payload then Err ErrLifecyclePayloadTooLarge else Ok payload.

Definition DecodeRecord (payload : bytes) (l : TransportLimits) : result record :=
  let l := transport_normalized l in
  if MaxPayloadBytes l <? len payload then Err ErrLifecyclePayloadTooLarge
  else
    match decode_one dec_envelope (mkRecordEnvelope [] zero_record) payload with
    | None => Err (EJoin ErrLifecycleEnvelopeMalformed ErrJSON)
    | Some (_, TrailingValue) => Err (EJoin ErrLifecycleEnvelopeMalformed ErrLifecycleEnvelopeTrailingData)
    | Some (_, TrailingError) =>
        Err (EJoin ErrLifecycleEnvelopeMalformed (EJoin ErrLifecycleEnvelopeTrailingData ErrJSON))
    | Some (envelope, TrailingEOF) =>
        if negb (bool_decide (EType envelope = LifecycleRecordMessageType)) then Err ErrLifecycleMessageType
        else match Validate (ERecord envelope) (TRecordLimits l) with
             | Err e => Err (EJoin ErrLifecycleEnvelopeMalformed e)
             | Ok _ => Ok (ERecord envelope)
             end
    end.

Definition DecodeRecordForPeer (payload : bytes) (capabilities : list bytes) (l : TransportLimits) : result record :=
  if negb (HasLifecycleCapability capabilities) then Err ErrLifecycleCapabilityRequired
  else DecodeRecord payload l.

End transport.

(** ** Facts *)

Lemma has_capability_spec c cs : has_capability c cs = true ↔ c ∈ cs.
Proof.
  induction cs as [|x cs IH]; cbn; [by rewrite elem_of_nil|]. rewrite elem_of_cons.
  case_bool_decide; naive_solver.
Qed.

(** A marshalled value is the only value of its payload. *)
Lemma decode_one_marshal {A} (dec : decoder A) zero j x :
  json_ok j → json_depth j <= max_depth → dec zero j = Some x →
  decode_one dec zero (marshal j) = Some (x, TrailingEOF).
Proof. intros Hok Hd Hx. unfold decode_one. by rewrite next_value_marshal, Hx. Qed.

Section transport_facts.
Context `{UnicodePrint}.

Lemma envelope_roundtrip r :
  record_ok r →
  decode_one dec_envelope (mkRecordEnvelope [] zero_record)
    (marshal (json_envelope (mkRecordEnvelope LifecycleRecordMessageType r))) =
  Some (mkRecordEnvelope LifecycleRecordMessageType r, TrailingEOF).
Proof.
  intros Hr. destruct (json_record_ok _ Hr) as [Hj Hd]. apply decode_one_marshal.
  - cbn [json_envelope json_ok List.fold_right fst snd EType ERecord].
    split_and!; try done; vm_compute; reflexivity.
  - unfold json_envelope. cbn [json_depth List.fold_right fst snd EType ERecord]. rewrite Hd. done.
  - unfold dec_envelope, json_envelope, dec_struct. json_member; [|reflexivity].
    json_member; [|apply dec_record_json; apply Hr]. done.
Qed.

(** ** Properties *)

(** Record envelopes round-trip, and only to peers with the capability.  A
    record that [EncodeRecord] accepts is decoded to itself under the same
    limits; without lifecycle.v1 the payload is refused unread; and whatever is
    decoded is a valid record of a payload within the bound. *)
Theorem record_envelope_roundtrip r l payload capabilities (Hu : version_u64 (RVersion r))
    (He : EncodeRecord r l = Ok payload) :
  DecodeRecord payload l = Ok r ∧
  DecodeRecordForPeer payload capabilities l =
    (if bool_decide (LifecycleCapabilityV1 ∈ capabilities) then Ok r else Err ErrLifecycleCapabilityRequired) ∧
  ∀ any r', DecodeRecord any l = Ok r' →
    valid (TRecordLimits l) r' = true ∧ len any <= MaxPayloadBytes (transport_normalized l).
Proof.
  assert (DecodeRecord payload l = Ok r) as Hd.
  { unfold EncodeRecord in He. apply rbind_unit in He as [Hv He]. apply guard_Ok in He as [Hlen [= <-]].
    unfold DecodeRecord. rewrite Hlen, envelope_roundtrip.
    - rewrite bool_decide_eq_true_2 by done. cbn [negb ERecord]. by rewrite Hv.
    - eapply valid_record_ok; [|done]. by apply Validate_Ok in Hv. }
  split_and!; [done| |].
  - unfold DecodeRecordForPeer, HasLifecycleCapability. rewrite Hd.
    case_bool_decide as Hc; [by apply has_capability_spec in Hc as ->|].
    destruct (has_capability _ _) eqn:E; [by apply has_capability_spec in E|done].
  - intros any r' Hr. unfold DecodeRecord in Hr. apply guard_Ok in Hr as [Hlen Hr]. bool_to_prop.
    split; [|done]. repeat (case_match; try done). injection Hr as <-.
    rewrite <- valid_normalized. by eapply Validate_Ok.
Qed.
End transport_facts.

Lemma record_envelope_roundtrip_witness :
  ∃ payload, @EncodeRecord ascii_print (ex_deleted 98 1) (mkTransportLimits 0 zero_limits) = Ok payload ∧
    @DecodeRecord ascii_print payload (mkTransportLimits 0 zero_limits) = Ok (ex_deleted 98 1).
Proof.
  exists (marshal (json_envelope (mkRecordEnvelope LifecycleRecordMessageType (ex_deleted 98 1)))).
  split; [vm_compute; reflexivity|].
  eapply (@record_envelope_roundtrip ascii_print _ _ _ []); [decide_now|vm_compute; reflexivity].
Defined.
