(* ===== verification/Repair.v ===== *)
(** * Anti-entropy repair messages

    internal/lifecycle/repair.go: bounded batches of the journal tail, checkpoint
    snapshots and acknowledgements, their wire form, the classification of a
    batch by its receiver, and the planner that picks batch or snapshot. *)
From S2P Require Import Prelude Go Bits Text Json Os Model Codec Journal Compact Transport.

Definition RepairBatchMessageType : bytes := Eval cbv in lit "lifecycle.repair.batch".
Definition RepairSnapshotMessageType : bytes := Eval cbv in lit "lifecycle.repair.snapshot".
Definition RepairAckMessageType : bytes := Eval cbv in lit "lifecycle.repair.ack".
Definition DefaultMaxRepairRecords : Z := 128.
Definition DefaultMaxRepairLogicalKeyBytes : Z := 65536.
Definition DefaultMaxRepairMetadataBytes : Z := 65536.
Definition DefaultMaxRepairFrameBytes : Z := 131072.

Record RepairLimits := mkRepairLimits {
  MaxRecords : Z;
  RMaxLogicalKeyBytes : Z;
  MaxMetadataBytes : Z;
  MaxFrameBytes : Z;
  RRecordLimits : Limits
}.

Definition repair_normalized (l : RepairLimits) : RepairLimits :=
  mkRepairLimits (or_default (MaxRecords l) DefaultMaxRepairRecords)
    (or_default (RMaxLogicalKeyBytes l) DefaultMaxRepairLogicalKeyBytes)
    (or_default (MaxMetadataBytes l) DefaultMaxRepairMetadataBytes)
    (or_default (MaxFrameBytes l) DefaultMaxRepairFrameBytes)
    (normalized (RRecordLimits l)).

Record RepairBatch := mkRepairBatch {
  BType : bytes; BFrom : Version; BTo : Version; BMore : bool; BRecords : list record
}.
Record RepairSnapshot := mkRepairSnapshot { NType : bytes; NWatermark : Version; NRecords : list record }.
Record RepairAck := mkRepairAck { KType : bytes; KWatermark : Version }.
Record RepairFrame := mkRepairFrame {
  FType : bytes; FBatch : option RepairBatch; FSnapshot : option RepairSnapshot; FAck : option RepairAck
}.
Inductive RepairPlanMode := RepairPlanJournal | RepairPlanSnapshot.
Record RepairPlan := mkRepairPlan {
  PMode : RepairPlanMode; PFrom : Version; PTo : Version; PMore : bool; PPayload : bytes
}.
Inductive RepairDelivery := RepairDeliveryReady | RepairDeliveryDuplicate.

(** ** JSON *)

Definition json_batch (b : RepairBatch) : json :=
  JObj [(lit "type", JStr (BType b)); (lit "from", json_version (BFrom b)); (lit "to", json_version (BTo b));
        (lit "more", JBool (BMore b)); (lit "records", JArr (json_record <$> BRecords b))].
Definition dec_batch : decoder RepairBatch :=
  dec_struct true
    [(lit "type", field BType (λ x b, mkRepairBatch x (BFrom b) (BTo b) (BMore b) (BRecords b)) dec_string);
     (lit "from", field BFrom (λ x b, mkRepairBatch (BType b) x (BTo b) (BMore b) (BRecords b)) (dec_version true));
     (lit "to", field BTo (λ x b, mkRepairBatch (BType b) (BFrom b) x (BMore b) (BRecords b)) (dec_version true));
     (lit "more", field BMore (λ x b, mkRepairBatch (BType b) (BFrom b) (BTo b) x (BRecords b)) dec_bool);
     (lit "records", field BRecords (λ x b, mkRepairBatch (BType b) (BFrom b) (BTo b) (BMore b) x)
        (dec_slice (dec_record true) zero_record))].
Definition zero_batch : RepairBatch := mkRepairBatch [] zero_version zero_version false [].

Definition json_snapshot (s : RepairSnapshot) : json :=
  JObj [(lit "type", JStr (NType s)); (lit "watermark", json_version (NWatermark s));
        (lit "records", JArr (json_record <$> NRecords s))].
Definition dec_snapshot : decoder RepairSnapshot :=
  dec_struct true
    [(lit "type", field NType (λ x s, mkRepairSnapshot x (NWatermark s) (NRecords s)) dec_string);
     (lit "watermark", field NWatermark (λ x s, mkRepairSnapshot (NType s) x (NRecords s)) (dec_version true));
     (lit "records", field NRecords (λ x s, mkRepairSnapshot (NType s) (NWatermark s) x)
        (dec_slice (dec_record true) zero_record))].
Definition zero_snapshot : RepairSnapshot := mkRepairSnapshot [] zero_version [].

Definition json_ack (a : RepairAck) : json :=
  JObj [(lit "type", JStr (KType a)); (lit "watermark", json_version (KWatermark a))].
Definition dec_ack : decoder RepairAck :=
  dec_struct true
    [(lit "type", field KType (λ x a, mkRepairAck x (KWatermark a)) dec_string);
     (lit "watermark", field KWatermark (λ x a, mkRepairAck (KType a) x) (dec_version true))].
Definition zero_ack : RepairAck := mkRepairAck [] zero_version.

Definition decodeRepairEnvelope {A} (dec : decoder A) (zero : A) (payload : bytes) : result A :=
  match decode_one dec zero payload with
  | None => Err (EJoin ErrRepairMalformed ErrJSON)
  | Some (x, TrailingEOF) => Ok x
  | Some (_, TrailingValue) => Err (EJoin ErrRepairMalformed ErrRepairWatermarkMismatch)
  | Some (_, TrailingError) => Err (EJoin ErrRepairMalformed ErrJSON)
  end.

Definition dec_type : decoder bytes := dec_struct false [(lit "type", field id (λ x _, x) dec_string)].
Definition decodeRepairType (payload : bytes) : result bytes :=
  match decode_one dec_type [] payload with
  | None => Err (EJoin ErrRepairMalformed ErrJSON)
  | Some (_, TrailingValue) => Err ErrRepairMalformed
  | Some (_, TrailingError) => Err (EJoin ErrRepairMalformed ErrJSON)
  | Some (typeName, TrailingEOF) => if bool_decide (typeName = []) then Err ErrRepairMalformed else Ok typeName
  end.

Definition repairRecordBytes (r : record) : Z * Z :=
  (len (Namespace r) + len (LogicalKey r), len (marshal (json_record r))).

Section repair.
Context `{UnicodePrint}.

(** ** Validation *)

(** The loop of [validateRepairBatch]: the version of the last record. *)
Fixpoint check_batch (l : RepairLimits) (previous : Version) (logicalBytes metadataBytes : Z)
    (rs : list record) : result Version :=
  match rs with
  | [] => Ok previous
  | r :: rs' =>
      if Compare (RVersion r) previous <=? 0 then Err ErrRepairOrder
      else
        _ <-? Validate r (RRecordLimits l) ;
        let '(logical, metadata) := repairRecordBytes r in
        let logicalBytes := logicalBytes + logical in
        let metadataBytes := metadataBytes + metadata in
        if (RMaxLogicalKeyBytes l <? logicalBytes) || (MaxMetadataBytes l <? metadataBytes)
        then Err ErrRepairLimit
        else check_batch l (RVersion r) logicalBytes metadataBytes rs'
  end.
Definition validateRepairBatch (b : RepairBatch) (l : RepairLimits) : result unit :=
  if MaxRecords l <? len (BRecords b) then Err ErrRepairLimit
  else
    previous <-? check_batch l (BFrom b) 0 0 (BRecords b) ;
    if negb (bool_decide (BTo b = previous)) then Err ErrRepairWatermarkMismatch else Ok tt.

Fixpoint check_sizes (l : RepairLimits) (logicalBytes metadataBytes : Z) (rs : list record) : result unit :=
  match rs with
  | [] => Ok tt
  | r :: rs' =>
      let '(logical, metadata) := repairRecordBytes r in
      let logicalBytes := logicalBytes + logical in
      let metadataBytes := metadataBytes + metadata in
      if (RMaxLogicalKeyBytes l <? logicalBytes) || (MaxMetadataBytes l <? metadataBytes)
      then Err ErrRepairLimit
      else check_sizes l logicalBytes metadataBytes rs'
  end.
Definition normalizeRepairSnapshot (s : RepairSnapshot) (l : RepairLimits) : result RepairSnapshot :=
  '(checkpoint, _) <-? normalizeCheckpoint (mkCheckpoint (NWatermark s) (NRecords s)) (RRecordLimits l) ;
  if MaxRecords l <? len (CRecords checkpoint) then Err ErrRepairLimit
  else
    _ <-? check_sizes l 0 0 (CRecords checkpoint) ;
    Ok (mkRepairSnapshot RepairSnapshotMessageType (NWatermark s) (CRecords checkpoint)).

(** ** Encoding and decoding *)

(** An empty message type is replaced by the expected one. *)
Definition or_type (t expected : bytes) : bytes := if bool_decide (t = []) then expected else t.

Definition EncodeRepairBatch (b : RepairBatch) (l : RepairLimits) : result bytes :=
  let l := repair_normalized l in
  let b := mkRepairBatch (or_type (BType b) RepairBatchMessageType) (BFrom b) (BTo b) (BMore b) (BRecords b) in
  if negb (bool_decide (BType b = RepairBatchMessageType)) then Err ErrRepairMessageType
  else
    _ <-? validateRepairBatch b l ;
    let payload := marshal (json_batch b) in
    if MaxFrameBytes l <? len payload then Err ErrRepairFrameTooLarge else Ok payload.

Definition DecodeRepairBatch (payload : bytes) (l : RepairLimits) : result RepairBatch :=
  let l := repair_normalized l in
  if MaxFrameBytes l <? len payload then Err ErrRepairFrameTooLarge
  else
    b <-? decodeRepairEnvelope dec_batch zero_batch payload ;
    if negb (bool_decide (BType b = RepairBatchMessageType)) then Err ErrRepairMessageType
    else _ <-? validateRepairBatch b l ; Ok b.

Definition EncodeRepairSnapshot (s : RepairSnapshot) (l : RepairLimits) : result bytes :=
  let l := repair_normalized l in
  let s := mkRepairSnapshot (or_type (NType s) RepairSnapshotMessageType) (NWatermark s) (NRecords s) in
  if negb (bool_decide (NType s = RepairSnapshotMessageType)) then Err ErrRepairMessageType
  else
    normal <-? normalizeRepairSnapshot s l ;
    let payload := marshal (json_snapshot normal) in
    if MaxFrameBytes l <? len payload then Err ErrRepairFrameTooLarge else Ok payload.

Definition DecodeRepairSnapshot (payload : bytes) (l : RepairLimits) : result RepairSnapshot :=
  let l := repair_normalized l in
  if MaxFrameBytes l <? len payload then Err ErrRepairFrameTooLarge
  else
    s <-? decodeRepairEnvelope dec_snapshot zero_snapshot payload ;
    if negb (bool_decide (NType s = RepairSnapshotMessageType)) then Err ErrRepairMessageType
    else normalizeRepairSnapshot s l.

Definition EncodeRepairAck (a : RepairAck) (l : RepairLimits) : result bytes :=
  let l := repair_normalized l in
  let a := mkRepairAck (or_type (KType a) RepairAckMessageType) (KWatermark a) in
  if negb (bool_decide (KType a = RepairAckMessageType)) then Err ErrRepairMessageType
  else
    let payload := marshal (json_ack a) in
    if MaxFrameBytes l <? len payload then Err ErrRepairFrameTooLarge else Ok payload.

Definition DecodeRepairAck (payload : bytes) (l : RepairLimits) : result RepairAck :=
  let l := repair_normalized l in
  if MaxFrameBytes l <? len payload then Err ErrRepairFrameTooLarge
  else
    a <-? decodeRepairEnvelope dec_ack zero_ack payload ;
    if negb (bool_decide (KType a = RepairAckMessageType)) then Err ErrRepairMessageType else Ok a.

Definition type_allows (t expected : bytes) : bool := bool_decide (t = []) || bool_decide (t = expected).

Definition EncodeRepairFrame (f : RepairFrame) (l : RepairLimits) : result bytes :=
  match FBatch f, FSnapshot f, FAck f with
  | Some b, None, None =>
      if type_allows (FType f) RepairBatchMessageType then EncodeRepairBatch b l else Err ErrRepairMessageType
  | None, Some s, None =>
      if type_allows (FType f) RepairSnapshotMessageType then EncodeRepairSnapshot s l else Err ErrRepairMessageType
  | None, None, Some a =>
      if type_allows (FType f) RepairAckMessageType then EncodeRepairAck a l else Err ErrRepairMessageType
  | _, _, _ => Err ErrRepairMalformed
  end.

Definition DecodeRepairFrame (payload : bytes) (l : RepairLimits) : result RepairFrame :=
  let l := repair_normalized l in
  if MaxFrameBytes l <? len payload then Err ErrRepairFrameTooLarge
  else
    typeName <-? decodeRepairType payload ;
    if bool_decide (typeName = RepairBatchMessageType) then
      b <-? DecodeRepairBatch payload l ; Ok (mkRepairFrame typeName (Some b) None None)
    else if bool_decide (typeName = RepairSnapshotMessageType) then
      s <-? DecodeRepairSnapshot payload l ; Ok (mkRepairFrame typeName None (Some s) None)
    else if bool_decide (typeName = RepairAckMessageType) then
      a <-? DecodeRepairAck payload l ; Ok (mkRepairFrame typeName None None (Some a))
    else Err ErrRepairMessageType.

Definition DecodeRepairFrameForPeer (payload : bytes) (capabilities : list bytes) (l : RepairLimits)
    : result RepairFrame :=
  if negb (HasLifecycleCapability capabilities) then Err ErrLifecycleCapabilityRequired
  else DecodeRepairFrame payload l.

(** ** Delivery and planning *)

Definition Delivery (b : RepairBatch) (expected : Version) (l : RepairLimits) : result RepairDelivery :=
  let l := repair_normalized l in
  _ <-? validateRepairBatch b l ;
  if Compare (BTo b) expected <=? 0 then Ok RepairDeliveryDuplicate
  else if negb (bool_decide (BFrom b = expected)) then Err ErrRepairWatermarkMismatch
  else Ok RepairDeliveryReady.

(** Extend the selection while the batch stays within the limits. *)
Fixpoint select_records (l : RepairLimits) (from : Version) (total : Z) (selected rest : list record)
    : result (list record) :=
  match rest with
  | [] => Ok selected
  | r :: rest' =>
      let candidate := selected ++ [r] in
      let batch := mkRepairBatch RepairBatchMessageType from (RVersion r) (len candidate <? total) candidate in
      match validateRepairBatch batch l with
      | Err e => if len selected =? 0 then Err e else Ok selected
      | Ok _ =>
          match EncodeRepairBatch batch l with
          | Err e => if len selected =? 0 then Err e else Ok selected
          | Ok _ => select_records l from total candidate rest'
          end
      end
  end.

(** [RepairBatch] once the records have been copied out of the journal. *)
Definition batch_of (rs : list record) (from : Version) (l : RepairLimits) : result RepairBatch :=
  let remaining := filter (λ r, 0 < Compare (RVersion r) from) rs in
  selected <-? select_records l from (len remaining) [] remaining ;
  let batch := mkRepairBatch RepairBatchMessageType from (last_version from selected)
                 (len selected <? len remaining) selected in
  _ <-? EncodeRepairBatch batch l ;
  Ok batch.

Definition Journal_RepairBatch (from : Version) (l : RepairLimits) : M (Journal * world) RepairBatch :=
  io ctx_Err ;;
  let l := repair_normalized l in
  j <- self ;
  lift (ensureOpenLocked j) ;;
  if Compare from (j_floor j) <? 0 then throw ErrPeerBehindWatermark
  else lift (batch_of (clone <$> j_records j) from l).

Definition PlanRepair (from : Version) (snapshot : option Checkpoint) (l : RepairLimits)
    : M (Journal * world) RepairPlan :=
  io ctx_Err ;;
  let l := repair_normalized l in
  j <- self ;
  let floor := Floor j in
  if Compare from floor <? 0 then
    match snapshot with
    | None => throw ErrRepairSnapshotRequired
    | Some snapshot =>
        if negb (bool_decide (Watermark snapshot = floor)) then throw ErrRepairSnapshotWatermark
        else
          payload <- lift (EncodeRepairSnapshot
            (mkRepairSnapshot RepairSnapshotMessageType (Watermark snapshot) (CRecords snapshot)) l) ;
          ret (mkRepairPlan RepairPlanSnapshot from floor false payload)
    end
  else
    batch <- Journal_RepairBatch from l ;
    payload <- lift (EncodeRepairBatch batch l) ;
    ret (mkRepairPlan RepairPlanJournal (BFrom batch) (BTo batch) (BMore batch) payload).

End repair.

(** ** Validation, exactly *)

Definition sum_logical (rs : list record) : Z := foldr (λ r a, (repairRecordBytes r).1 + a) 0 rs.
Definition sum_metadata (rs : list record) : Z := foldr (λ r a, (repairRecordBytes r).2 + a) 0 rs.

Lemma sum_logical_cons r rs :
  sum_logical (r :: rs) = len (Namespace r) + len (LogicalKey r) + sum_logical rs.
Proof. reflexivity. Qed.
Lemma sum_metadata_cons r rs : sum_metadata (r :: rs) = len (marshal (json_record r)) + sum_metadata rs.
Proof. reflexivity. Qed.
Lemma sum_nonneg rs : 0 <= sum_logical rs ∧ 0 <= sum_metadata rs.
Proof.
  induction rs as [|r rs IH]; [done|]. rewrite sum_logical_cons, sum_metadata_cons. pose proof (len_nonneg (Namespace r)). pose proof (len_nonneg (LogicalKey r)).
  pose proof (len_nonneg (marshal (json_record r))). lia.
Qed.

Lemma repair_normalized_idem l : repair_normalized (repair_normalized l) = repair_normalized l.
Proof. unfold repair_normalized. cbn. by rewrite !or_default_idem, normalized_idem. Qed.

Section repair_facts.
Context `{UnicodePrint}.

(** What [validateRepairBatch] accepts: bounded, valid and strictly increasing. *)
Record good_batch (l : RepairLimits) (b : RepairBatch) : Prop := {
  gb_count : len (BRecords b) <= MaxRecords l;
  gb_order : increasing (BFrom b) (BRecords b);
  gb_valid : Forall (λ r, valid (RRecordLimits l) r = true) (BRecords b);
  gb_logical : BRecords b ≠ [] → sum_logical (BRecords b) <= RMaxLogicalKeyBytes l;
  gb_metadata : BRecords b ≠ [] → sum_metadata (BRecords b) <= MaxMetadataBytes l;
  gb_to : BTo b = last_version (BFrom b) (BRecords b)
}.

Lemma last_version_cons v r rs : last_version v (r :: rs) = last_version (RVersion r) rs.
Proof. unfold last_version. rewrite last_cons. by destruct (last rs). Qed.

Lemma check_batch_Ok l prev lb mb rs v :
  check_batch l prev lb mb rs = Ok v ↔
  increasing prev rs ∧ Forall (λ r, valid (RRecordLimits l) r = true) rs ∧ v = last_version prev rs ∧
  (rs ≠ [] → lb + sum_logical rs <= RMaxLogicalKeyBytes l ∧ mb + sum_metadata rs <= MaxMetadataBytes l).
Proof.
  revert prev lb mb. induction rs as [|r rs IH]; intros prev lb mb.
  { cbn. split; [intros [= <-]|by intros (_ & _ & -> & _)]. split_and!; [done|apply Forall_nil_2|done|done]. }
  cbn [check_batch]. unfold repairRecordBytes at 1. cbv zeta.
  rewrite guard_Ok, rbind_unit, guard_Ok, IH, Forall_cons, valid_Validate, last_version_cons,
    sum_logical_cons, sum_metadata_cons.
  cbn [increasing].
  pose proof (sum_nonneg rs). rewrite orb_false_iff, !Z.ltb_ge, Z.leb_gt, Compare_gt.
  destruct rs as [|r' rs']; [cbn; naive_solver lia|].
  assert (r' :: rs' ≠ []) as Hne by done. split; [naive_solver lia|].
  intros ([? ?] & [? ?] & ? & Hs). destruct Hs as [? ?]; [done|]. split_and!; try done; lia.
Qed.

Lemma validateRepairBatch_Ok b l : validateRepairBatch b l = Ok tt ↔ good_batch l b.
Proof.
  unfold validateRepairBatch. rewrite guard_Ok, rbind_Ok. setoid_rewrite check_batch_Ok. setoid_rewrite guard_Ok.
  setoid_rewrite negb_false_iff. setoid_rewrite bool_decide_eq_true. rewrite Z.ltb_ge. split.
  - intros (Hc & v & (Hi & Hv & -> & Hs) & Ht & _). split; try done; intros Hne; apply Hs in Hne; lia.
  - intros [Hc Hi Hv Hl Hm Ht]. split; [done|]. exists (last_version (BFrom b) (BRecords b)).
    split_and!; try done. intros Hne. specialize (Hl Hne). specialize (Hm Hne). lia.
Qed.

Definition batch_typed (b : RepairBatch) : RepairBatch :=
  mkRepairBatch RepairBatchMessageType (BFrom b) (BTo b) (BMore b) (BRecords b).

Lemma EncodeRepairBatch_Ok b l payload :
  EncodeRepairBatch b l = Ok payload ↔
  (BType b = [] ∨ BType b = RepairBatchMessageType) ∧ good_batch (repair_normalized l) (batch_typed b) ∧
  payload = marshal (json_batch (batch_typed b)) ∧ len payload <= MaxFrameBytes (repair_normalized l).
Proof.
  unfold EncodeRepairBatch. cbv zeta. rewrite guard_Ok, rbind_unit, guard_Ok. cbn [BType BFrom BTo BMore BRecords].
  rewrite negb_false_iff, bool_decide_eq_true, Z.ltb_ge. unfold or_type, batch_typed.
  case_bool_decide as E.
  - rewrite E, validateRepairBatch_Ok. naive_solver.
  - split.
    + intros (Et & Hg & Hm & [= <-]). rewrite Et in *. rewrite validateRepairBatch_Ok in Hg. naive_solver.
    + intros ([?|Et] & Hg & -> & Hm); [done|]. rewrite Et, validateRepairBatch_Ok. done.
Qed.

(** ** Selection *)

Definition selection (from : Version) (total : Z) (rs : list record) : RepairBatch :=
  mkRepairBatch RepairBatchMessageType from (last_version from rs) (len rs <? total) rs.

Definition accepted (l : RepairLimits) (b : RepairBatch) : bool := is_Ok (EncodeRepairBatch b l).

(** The selection is the longest run of accepted prefixes, and not empty. *)
Lemma select_records_Ok l from total sel rest out :
  select_records l from total sel rest = Ok out →
  (sel ≠ [] → accepted l (selection from total sel) = true) →
  (∃ ext tl, out = sel ++ ext ∧ rest = ext ++ tl) ∧ (out ≠ [] → accepted l (selection from total out) = true) ∧
  (rest ≠ [] → out ≠ []).
Proof.
  revert sel. induction rest as [|r rest IH]; intros sel; cbn [select_records].
  { intros [= <-] Hs. split_and!; [by exists [], []; rewrite app_nil_r|done|done]. }
  cbv zeta. rewrite <- (last_version_snoc from sel r). fold (selection from total (sel ++ [r])).
  intros Hsel Hs.
  assert (len sel ≠ 0 → out = sel → (∃ ext tl, out = sel ++ ext ∧ r :: rest = ext ++ tl) ∧
    (out ≠ [] → accepted l (selection from total out) = true) ∧ (r :: rest ≠ [] → out ≠ [])) as Hstop.
  { rewrite len_zero. intros Hne ->. split_and!; [by exists [], (r :: rest); rewrite app_nil_r|done|done]. }
  destruct (validateRepairBatch _ _); 
    [|destruct (len sel =? 0) eqn:Ez; [done|]; injection Hsel as Hsel; apply Hstop; [lia|done]].
  destruct (EncodeRepairBatch _ _) eqn:Ee; 
    [|destruct (len sel =? 0) eqn:Ez; [done|]; injection Hsel as Hsel; apply Hstop; [lia|done]].
  apply IH in Hsel as ((ext & tl & -> & ->) & Hacc & _).
  - split_and!; [exists (r :: ext), tl; by rewrite <- app_assoc|done|]. intros _. by destruct sel.
  - intros _. unfold accepted. by rewrite Ee.
Qed.

(** Once something is selected, or when the first record fits, it succeeds. *)
Lemma select_records_total l from total sel rest :
  repair_normalized l = l →
  (sel = [] → ∀ r rest', rest = r :: rest' → accepted l (selection from total [r]) = true) →
  ∃ out, select_records l from total sel rest = Ok out.
Proof.
  intros Hl. revert sel. induction rest as [|r rest IH]; intros sel Hfirst; cbn [select_records]; [eauto|].
  cbv zeta. rewrite <- (last_version_snoc from sel r). fold (selection from total (sel ++ [r])).
  destruct (decide (sel = [])) as [->|Hne].
  - specialize (Hfirst eq_refl r rest eq_refl). cbn [app]. unfold accepted in Hfirst.
    destruct (EncodeRepairBatch (selection from total [r]) l) as [p|] eqn:Ee; [|done].
    apply EncodeRepairBatch_Ok in Ee as Hg. destruct Hg as (_ & Hg & _). rewrite Hl in Hg.
    change (batch_typed _) with (selection from total [r]) in Hg.
    rewrite (proj2 (validateRepairBatch_Ok _ _) Hg). apply IH. done.
  - assert (len sel ≠ 0) as Hz by by rewrite len_zero.
    replace (len sel =? 0) with false by lia.
    destruct (validateRepairBatch _ _); [|eauto]. destruct (EncodeRepairBatch _ _); [|eauto].
    apply IH. by destruct sel.
Qed.

(** ** The journal behind a peer's watermark *)

Definition after (from : Version) (rs : list record) : list record :=
  filter (λ r, 0 < Compare (RVersion r) from) rs.

Lemma increasing_le v rs :
  increasing v rs →
  version_le v (last_version v rs) ∧ Forall (λ r, version_le (RVersion r) (last_version v rs)) rs.
Proof.
  revert v. induction rs as [|r rs IH]; intros v; [split; [done|apply Forall_nil_2]|].
  intros [Hlt Hi]. rewrite last_version_cons. destruct (IH _ Hi) as [Hle Hf]. split.
  - apply version_lt_le. by eapply version_lt_le_trans.
  - by apply Forall_cons_2.
Qed.

Lemma after_all from rs : Forall (λ r, version_lt from (RVersion r)) rs → after from rs = rs.
Proof.
  unfold after. induction 1 as [|r rs Hr Hf IH]; [done|].
  rewrite filter_cons_True by (by apply Compare_gt). by rewrite IH.
Qed.
Lemma after_none from rs : Forall (λ r, version_le (RVersion r) from) rs → after from rs = [].
Proof.
  unfold after. induction 1 as [|r rs Hr Hf IH]; [done|].
  rewrite filter_cons_False by (unfold version_le in Hr; lia). done.
Qed.

(** In an increasing journal the records after a watermark are a suffix. *)
Lemma after_suffix v from rs :
  increasing v rs → ∃ pre, rs = pre ++ after from rs ∧ Forall (λ r, version_le (RVersion r) from) pre ∧
    increasing from (after from rs).
Proof.
  revert v. induction rs as [|r rs IH]; intros v Hi; [by exists []|].
  destruct (decide (version_le (RVersion r) from)) as [Hle|Hgt].
  - destruct (IH _ (proj2 Hi)) as (pre & Hpre & Hf & Hinc). unfold after at 1 2.
    rewrite !filter_cons_False by (unfold version_le in Hle; lia). fold (after from rs).
    exists (r :: pre). split_and!; [by rewrite Hpre at 1|by apply Forall_cons_2|done].
  - apply version_nle in Hgt. exists []. rewrite after_all.
    + split_and!; [done|apply Forall_nil_2|]. by eapply increasing_from.
    + apply increasing_above. by eapply increasing_from.
Qed.

(** After a batch has been applied the rest of the journal remains. *)
Lemma after_app v from rs p q :
  increasing v rs → after from rs = p ++ q → after (last_version from p) rs = q.
Proof.
  intros Hi Hpq. destruct (after_suffix v from rs Hi) as (pre & Hpre & Hf & Hinc).
  rewrite Hpq in Hpre, Hinc. rewrite Hpre. unfold after. rewrite !filter_app.
  fold (after (last_version from p) pre) (after (last_version from p) p) (after (last_version from p) q).
  apply increasing_app in Hinc as Hq.
  assert (increasing from p) as Hp.
  { clear -Hinc. revert from Hinc. induction p as [|r p IH]; intros from; [done|]. intros [? ?]. split; [done|]. by apply IH. }
  destruct (increasing_le _ _ Hp) as [Hle Hfp].
  rewrite (after_none _ pre), (after_none _ p), (after_all _ q); [done| | |].
  - by apply increasing_above.
  - done.
  - eapply Forall_impl; [exact Hf|]. intros r Hr. cbn. by trans from.
Qed.

(** What a batch holds: a prefix of the missing records, not empty unless
    nothing is missing, within the limits. *)
Lemma batch_of_Ok rs from l b :
  batch_of rs from l = Ok b →
  ∃ rest, after from rs = BRecords b ++ rest ∧ BType b = RepairBatchMessageType ∧ BFrom b = from ∧
    BTo b = last_version from (BRecords b) ∧ BMore b = bool_decide (rest ≠ []) ∧
    (after from rs ≠ [] → BRecords b ≠ []) ∧ accepted l b = true.
Proof.
  unfold batch_of. fold (after from rs). rewrite rbind_Ok. intros (sel & Hsel & He).
  apply rbind_Ok in He as (payload & He & [= <-]). cbn.
  apply select_records_Ok in Hsel as ((ext & tl & -> & Htl) & _ & Hne); [|done]. cbn in *.
  exists tl. split_and!; try done.
  - rewrite Htl, len_app. pose proof (len_nonneg tl). case_bool_decide as E.
    + rewrite <- len_zero in E. lia.
    + subst tl. len.
  - unfold accepted. by rewrite He.
Qed.

Lemma batch_of_total rs from l :
  repair_normalized l = l →
  accepted l (selection from 0 []) = true →
  (∀ r rest, after from rs = r :: rest → ∀ total, accepted l (selection from total [r]) = true) →
  ∃ b, batch_of rs from l = Ok b.
Proof.
  intros Hl Hempty Hfirst. unfold batch_of. fold (after from rs).
  destruct (select_records_total l from (len (after from rs)) [] (after from rs)) as [sel Hsel]; [done| |].
  { intros _ r rest Hr. by eapply Hfirst. }
  rewrite Hsel. cbn [rbind]. apply select_records_Ok in Hsel as ((ext & tl & -> & Htl) & Hacc & Hne); [|done].
  cbn [app] in *. fold (selection from (len (after from rs)) ext).
  assert (accepted l (selection from (len (after from rs)) ext) = true) as Hok.
  { destruct (decide (ext = [])) as [->|He]; [|by apply Hacc].
    destruct (decide (after from rs = [])) as [->|Hr]; [done|]. by apply Hne in Hr. }
  unfold accepted in Hok. destruct (EncodeRepairBatch _ l); [eauto|done].
Qed.

(** ** Wire round trips *)

Lemma json_records_ok rs :
  (∀ r, r ∈ rs → record_ok r) →
  json_ok (JArr (json_record <$> rs)) ∧ json_depth (JArr (json_record <$> rs)) <= 3.
Proof.
  intros Hr. apply (json_array_ok json_record rs 2); [done|]. intros r Hin.
  destruct (json_record_ok r (Hr r Hin)) as [? ->]. done.
Qed.

(** Decoding a printed message of one of the three kinds. *)
Lemma decode_message {A} (dec : decoder A) zero kvs x t :
  Forall (λ kv, utf8_ValidString kv.1 = true ∧ json_ok kv.2 ∧ json_depth kv.2 <= 3) kvs →
  dec zero (JObj kvs) = Some x → dec_type [] (JObj kvs) = Some t → t ≠ [] →
  decodeRepairEnvelope dec zero (marshal (JObj kvs)) = Ok x ∧ decodeRepairType (marshal (JObj kvs)) = Ok t.
Proof.
  intros Hf Hx Ht Hne. destruct (json_fields_ok kvs 3) as [Hok Hd]; [done..|].
  assert (json_depth (JObj kvs) <= max_depth) by (unfold max_depth; lia).
  unfold decodeRepairEnvelope, decodeRepairType.
  rewrite (decode_one_marshal dec zero _ x), (decode_one_marshal dec_type [] _ t) by done.
  by rewrite bool_decide_eq_false_2.
Qed.

Lemma decode_batch b :
  BType b = RepairBatchMessageType → version_u64 (BFrom b) → version_u64 (BTo b) →
  (∀ r, r ∈ BRecords b → record_ok r) →
  decodeRepairEnvelope dec_batch zero_batch (marshal (json_batch b)) = Ok b ∧
  decodeRepairType (marshal (json_batch b)) = Ok RepairBatchMessageType.
Proof.
  intros Ht Hf Hto Hr. destruct (json_records_ok _ Hr) as [Hj Hd].
  pose proof (json_version_ok _ Hf). pose proof (json_version_ok _ Hto).
  apply decode_message; [fields_ok; cbn [snd]; try assumption; try done| | |done].
  - cbn. rewrite Ht. vm_compute. reflexivity.
  - unfold dec_batch, dec_struct. json_member; [|reflexivity].
    do 2 (json_member; [|by apply dec_version_json]). json_member; [|reflexivity].
    json_member; [|apply dec_slice_json; [done|intros r Hin; by apply dec_record_json, Hr]]. by destruct b.
  - unfold dec_type, dec_struct. json_member; [|reflexivity]. rewrite Ht. reflexivity.
Qed.

Lemma decode_snapshot sn :
  NType sn = RepairSnapshotMessageType → version_u64 (NWatermark sn) → (∀ r, r ∈ NRecords sn → record_ok r) →
  decodeRepairEnvelope dec_snapshot zero_snapshot (marshal (json_snapshot sn)) = Ok sn ∧
  decodeRepairType (marshal (json_snapshot sn)) = Ok RepairSnapshotMessageType.
Proof.
  intros Ht Hw Hr. destruct (json_records_ok _ Hr) as [Hj Hd]. pose proof (json_version_ok _ Hw).
  apply decode_message; [fields_ok; cbn [snd]; try assumption; try done| | |done].
  - cbn. rewrite Ht. vm_compute. reflexivity.
  - unfold dec_snapshot, dec_struct. json_member; [|reflexivity]. json_member; [|by apply dec_version_json].
    json_member; [|apply dec_slice_json; [done|intros r Hin; by apply dec_record_json, Hr]]. by destruct sn.
  - unfold dec_type, dec_struct. json_member; [|reflexivity]. rewrite Ht. reflexivity.
Qed.

Lemma decode_ack a :
  KType a = RepairAckMessageType → version_u64 (KWatermark a) →
  decodeRepairEnvelope dec_ack zero_ack (marshal (json_ack a)) = Ok a ∧
  decodeRepairType (marshal (json_ack a)) = Ok RepairAckMessageType.
Proof.
  intros Ht Hw. pose proof (json_version_ok _ Hw).
  apply decode_message; [fields_ok; cbn [snd]; try assumption; try done| | |done].
  - cbn. rewrite Ht. vm_compute. reflexivity.
  - unfold dec_ack, dec_struct. json_member; [|reflexivity]. json_member; [|by apply dec_version_json]. by destruct a.
  - unfold dec_type, dec_struct. json_member; [|reflexivity]. rewrite Ht. reflexivity.
Qed.

Definition u64_records (rs : list record) : Prop := Forall (λ r, version_u64 (RVersion r)) rs.

Lemma u64_records_ok l rs :
  Forall (λ r, valid l r = true) rs → u64_records rs → ∀ r, r ∈ rs → record_ok r.
Proof.
  intros Hv Hu r Hr. unfold u64_records in Hu. rewrite Forall_forall in Hv, Hu.
  eapply valid_record_ok; [by apply Hv|by apply Hu].
Qed.

Lemma DecodeRepairBatch_Encode b l payload :
  version_u64 (BFrom b) → version_u64 (BTo b) → u64_records (BRecords b) →
  EncodeRepairBatch b l = Ok payload →
  DecodeRepairBatch payload l = Ok (batch_typed b) ∧ decodeRepairType payload = Ok RepairBatchMessageType.
Proof.
  intros Hf Ht Hu (_ & Hg & -> & Hlen)%EncodeRepairBatch_Ok.
  destruct (decode_batch (batch_typed b)) as [Hd Hty]; [done..| |].
  { eapply u64_records_ok; [apply Hg|done]. }
  split; [|done]. unfold DecodeRepairBatch. replace (_ <? _) with false by lia. rewrite Hd. cbn [rbind].
  rewrite bool_decide_eq_true_2 by done. cbn [negb]. by rewrite (proj2 (validateRepairBatch_Ok _ _) Hg).
Qed.

Definition snapshot_typed (s : RepairSnapshot) : RepairSnapshot :=
  mkRepairSnapshot RepairSnapshotMessageType (NWatermark s) (sort_records (NRecords s)).

Lemma normalizeRepairSnapshot_Ok s l out :
  normalizeRepairSnapshot s l = Ok out ↔
  normalizeCheckpointRecords (NRecords s) (NWatermark s) (RRecordLimits l) = Ok (NRecords out) ∧
  len (NRecords out) <= MaxRecords l ∧ check_sizes l 0 0 (NRecords out) = Ok tt ∧
  out = mkRepairSnapshot RepairSnapshotMessageType (NWatermark s) (NRecords out).
Proof.
  unfold normalizeRepairSnapshot, normalizeCheckpoint. rewrite normalizeCheckpointRecords_normalized.
  cbn [CRecords Watermark]. destruct (normalizeCheckpointRecords _ _ _) as [rs|e]; cbn [rbind CRecords].
  - rewrite guard_Ok, rbind_unit, Z.ltb_ge. split.
    + intros (? & ? & [= <-]). done.
    + intros ([= ->] & ? & ? & Ho). rewrite Ho. done.
  - split; [done|]. by intros [? _].
Qed.

Lemma DecodeRepairSnapshot_Encode s l payload :
  version_u64 (NWatermark s) → u64_records (NRecords s) → EncodeRepairSnapshot s l = Ok payload →
  DecodeRepairSnapshot payload l = Ok (snapshot_typed s) ∧
  decodeRepairType payload = Ok RepairSnapshotMessageType ∧ len payload <= MaxFrameBytes (repair_normalized l).
Proof.
  intros Hw Hu He. unfold EncodeRepairSnapshot in He. cbv zeta in He. apply guard_Ok in He as [_ He].
  apply rbind_Ok in He as (out & Hn & He). apply guard_Ok in He as [Hlen [= <-]]. bool_to_prop.
  apply normalizeRepairSnapshot_Ok in Hn as (Hrs & Hc & Hs & Ho). cbn [NWatermark NRecords] in *.
  pose proof (normalizeCheckpointRecords_idem _ _ _ _ Hrs) as Hi.
  apply normalizeCheckpointRecords_Ok in Hrs as (_ & Hf & _ & Hrs).
  assert (out = snapshot_typed s) as -> by (rewrite Ho, Hrs; done).
  destruct (decode_snapshot (snapshot_typed s)) as [Hd Hty]; [done..| |].
  { intros r. cbn. rewrite sort_records_Permutation. apply (u64_records_ok (RRecordLimits (repair_normalized l))); [|done].
    eapply Forall_impl; [done|]. by intros r' []. }
  split_and!; [|done..]. unfold DecodeRepairSnapshot. replace (_ <? _) with false by lia. rewrite Hd. cbn [rbind].
  rewrite bool_decide_eq_true_2 by done. cbn [negb]. apply normalizeRepairSnapshot_Ok. done.
Qed.

Definition ack_typed (a : RepairAck) : RepairAck := mkRepairAck RepairAckMessageType (KWatermark a).

Lemma DecodeRepairAck_Encode a l payload :
  version_u64 (KWatermark a) → EncodeRepairAck a l = Ok payload →
  DecodeRepairAck payload l = Ok (ack_typed a) ∧
  decodeRepairType payload = Ok RepairAckMessageType ∧ len payload <= MaxFrameBytes (repair_normalized l).
Proof.
  intros Hw He. unfold EncodeRepairAck in He. cbv zeta in He. apply guard_Ok in He as [Ht He].
  apply guard_Ok in He as [Hlen [= <-]]. bool_to_prop. cbn [KType KWatermark] in *. rewrite Ht in *.
  destruct (decode_ack (ack_typed a)) as [Hd Hty]; [done..|]. fold (ack_typed a) in *.
  split_and!; [|done..]. unfold DecodeRepairAck. replace (_ <? _) with false by lia. rewrite Hd. cbn [rbind].
  by rewrite bool_decide_eq_true_2.
Qed.

(** The frame a receiver sees: types filled in, snapshot records in key order. *)
Definition frame_typed (f : RepairFrame) : RepairFrame :=
  match FBatch f, FSnapshot f, FAck f with
  | Some b, _, _ => mkRepairFrame RepairBatchMessageType (Some (batch_typed b)) None None
  | _, Some s, _ => mkRepairFrame RepairSnapshotMessageType None (Some (snapshot_typed s)) None
  | _, _, Some a => mkRepairFrame RepairAckMessageType None None (Some (ack_typed a))
  | _, _, _ => f
  end.
(** All versions of a frame fit 64 bits, as the Go type says. *)
Definition frame_u64 (f : RepairFrame) : Prop :=
  (∀ b, FBatch f = Some b → version_u64 (BFrom b) ∧ version_u64 (BTo b) ∧ u64_records (BRecords b)) ∧
  (∀ s, FSnapshot f = Some s → version_u64 (NWatermark s) ∧ u64_records (NRecords s)) ∧
  (∀ a, FAck f = Some a → version_u64 (KWatermark a)).

(** ** Draining the journal *)

(** The batches a peer at [from] is sent, each after the previous one's end. *)
Fixpoint drain (fuel : nat) (rs : list record) (from : Version) (l : RepairLimits) : result (list RepairBatch) :=
  match fuel with
  | O => Err ErrRepairLimit
  | S f =>
      b <-? batch_of rs from l ;
      if BMore b then bs <-? drain f rs (BTo b) l ; Ok (b :: bs) else Ok [b]
  end.

(** The same with the operation of the journal: ask for the batch behind the end
    of the last one until there is no more. *)
Fixpoint drain_journal `{UnicodePrint} (fuel : nat) (from : Version) (l : RepairLimits) : M (Journal * world) (list RepairBatch) :=
  match fuel with
  | O => throw ErrRepairLimit
  | S f =>
      b <- Journal_RepairBatch from l ;
      if BMore b then bs <- drain_journal f (BTo b) l ; ret (b :: bs) else ret [b]
  end.

(** Each batch starts where the one before it ended. *)
Fixpoint chained (from : Version) (bs : list RepairBatch) : Prop :=
  match bs with
  | [] => True
  | b :: bs' => BFrom b = from ∧ chained (BTo b) bs'
  end.
Definition end_of (from : Version) (bs : list RepairBatch) : Version :=
  match last bs with Some b => BTo b | None => from end.

(** A batch with one record. *)
Definition single (from : Version) (more : bool) (r : record) : RepairBatch :=
  mkRepairBatch RepairBatchMessageType from (RVersion r) more [r].

(** From the peer's watermark and from every record, each later record fits a
    batch of its own, and so does the empty batch. *)
Definition deliverable (l : RepairLimits) (from : Version) (rs : list record) : Prop :=
  Forall (λ v, accepted l (selection v 0 []) = true ∧
    Forall (λ r, version_lt v (RVersion r) →
              accepted l (single v true r) = true ∧ accepted l (single v false r) = true) rs)
    (from :: (RVersion <$> rs)).
#[global] Instance deliverable_dec l from rs : Decision (deliverable l from rs).
Proof. unfold deliverable. apply _. Defined.

Lemma deliverable_next l from rs v : deliverable l from rs → v ∈ RVersion <$> rs → deliverable l v rs.
Proof.
  unfold deliverable. rewrite !Forall_cons. intros [_ Hf] Hv. split; [|done].
  rewrite Forall_forall in Hf. by apply Hf.
Qed.
Lemma deliverable_first l from rs r total :
  deliverable l from rs → r ∈ rs → version_lt from (RVersion r) → accepted l (selection from total [r]) = true.
Proof.
  unfold deliverable. rewrite Forall_cons. intros [[_ Hf] _] Hr Hlt. rewrite Forall_forall in Hf.
  destruct (Hf r Hr Hlt) as [H1 H2]. unfold selection, single in *. by destruct (len [r] <? total).
Qed.

Lemma drain_Ok fuel v rs from l :
  increasing v rs → repair_normalized l = l → deliverable l from rs → (length (after from rs) < fuel)%nat →
  ∃ bs, drain fuel rs from l = Ok bs ∧ concat (BRecords <$> bs) = after from rs ∧ chained from bs ∧
    end_of from bs = last_version from (after from rs) ∧ Forall (λ b, accepted l b = true) bs.
Proof.
  intros Hi Hl. revert from. induction fuel as [|fuel IH]; intros from Hdel Hf; [lia|]. cbn [drain].
  destruct (after_suffix v from rs Hi) as (pre & Hpre & _ & Hinc).
  destruct (batch_of_total rs from l) as [b Hb]; [done| | |].
  { unfold deliverable in Hdel. by apply Forall_cons in Hdel as [[? _] _]. }
  { intros r rest Hr total. rewrite Hr in Hinc. apply (deliverable_first _ _ rs); [done| |apply Hinc].
    rewrite Hpre, Hr. apply elem_of_app. right. by left. }
  rewrite Hb. cbn [rbind]. apply batch_of_Ok in Hb as (rest & Ha & _ & Hfrom & Hto & Hmore & Hne & Hacc).
  rewrite Hmore. case_bool_decide as Hrest.
  - pose proof (after_app v from rs _ _ Hi Ha) as Hnext. rewrite <- Hto in Hnext.
    assert (BRecords b ≠ []) as Hb. { apply Hne. rewrite Ha. by destruct (BRecords b). }
    destruct (IH (BTo b)) as (bs & Hd & Hj & Hch & Hend & Hall).
    { eapply deliverable_next; [done|]. rewrite Hto, Hpre, Ha. unfold last_version.
      destruct (last (BRecords b)) as [r|] eqn:El; [|by apply last_None in El].
      apply list_elem_of_fmap_2. apply last_Some in El as [l' ->]. set_solver. }
    { rewrite Hnext. rewrite Ha, length_app in Hf. destruct (BRecords b); [done|]. cbn in Hf. lia. }
    rewrite Hd. exists (b :: bs). cbn [rbind fmap list_fmap concat chained]. rewrite Hj, Hnext, Ha.
    split_and!; try done; [|by apply Forall_cons_2].
    rewrite Hnext in Hend. unfold end_of in *. rewrite last_cons.
    assert (last_version from (BRecords b ++ rest) = last_version (BTo b) rest) as ->; [|by destruct (last bs)].
    unfold last_version. rewrite last_app. rewrite Hto. unfold last_version. by destruct (last rest).
  - subst rest. rewrite app_nil_r in Ha. exists [b]. cbn. rewrite app_nil_r, Ha. unfold end_of. cbn.
    split_and!; [done..|]. apply Forall_cons_2; [done|apply Forall_nil_2].
Qed.

Lemma after_end v rs from b rest : increasing v rs → after from rs = BRecords b ++ rest → BTo b = last_version from (BRecords b) →
  version_le from (BTo b).
Proof.
  intros Hi Ha ->. destruct (after_suffix v from rs Hi) as (pre & _ & _ & Hinc). rewrite Ha in Hinc.
  unfold last_version. destruct (last (BRecords b)) as [r|] eqn:El; [|done]. apply last_Some in El as [l' El].
  rewrite El in Hinc. clear -Hinc. revert from Hinc. induction l' as [|y l' IH]; intros from Hinc.
  - destruct Hinc as [Hlt _]. by apply version_lt_le.
  - destruct Hinc as [Hlt Hinc]. etrans; [by apply version_lt_le|]. by apply IH.
Qed.
(** Without faults the journal answers as its records do. *)
Lemma RepairBatch_quiet j w from l : jinv j w → quiet w → version_le (j_floor j) from →
  Journal_RepairBatch from l (j, w) = (batch_of (j_records j) from (repair_normalized l), (j, w)).
Proof.
  intros (fd & i & x & Hj) Hq Hf. unfold Journal_RepairBatch.
  erewrite bind_step_Ok by (unfold io, zoom; cbn; rewrite (quiet_ctx _ Hq); reflexivity). erewrite bind_step_Ok by reflexivity. cbn [fst].
  erewrite bind_step_Ok by (unfold lift; rewrite (jfile_ensureOpen _ _ _ _ _ _ Hj); reflexivity).
  apply version_nlt in Hf. unfold version_lt in Hf. destruct (Compare from (j_floor j) <? 0) eqn:E; [lia|].
  assert (clone <$> j_records j = j_records j) as ->; [|done].
  rewrite <- list_fmap_id. apply list_fmap_ext. intros ? ? ?. apply clone_id.
Qed.
Lemma drain_journal_eq fuel j w from l v : jinv j w → quiet w → increasing v (j_records j) → version_le (j_floor j) from →
  drain_journal fuel from l (j, w) = (drain fuel (j_records j) from (repair_normalized l), (j, w)).
Proof.
  intros Hj Hq Hi. revert from. induction fuel as [|fuel IH]; intros from Hf; cbn [drain_journal drain]; [done|].
  unfold bind at 1. rewrite (RepairBatch_quiet _ _ _ _ Hj Hq Hf). destruct (batch_of _ _ _) as [b|e] eqn:Eb; [|done]. cbn [rbind].
  apply batch_of_Ok in Eb as (rest & Ha & _ & Hfrom & Hto & _). destruct (BMore b); [|done].
  unfold bind. rewrite IH; [by destruct (drain _ _ _ _)|]. etrans; [exact Hf|]. by eapply after_end.
Qed.
End repair_facts.

(** ** Properties *)

(** Repair batches make progress within their bounds.  A batch returned for
    a peer watermark at or above the floor is a prefix of the missing journal
    records, empty only when nothing is missing; its end is the version of its
    last record; "more" says exactly whether records remain; it passes
    validation and its encoding fits the frame bound.  A watermark below the
    floor is refused. *)
Theorem RepairBatch_progress `{UnicodePrint} j w from l res j' w' (Hj : jinv j w)
    (Hrun : Journal_RepairBatch from l (j, w) = (res, (j', w'))) :
  j' = j ∧ w_fs w' = w_fs w ∧
  match res with
  | Err _ => True
  | Ok b =>
      version_le (j_floor j) from ∧ BFrom b = from ∧ BTo b = last_version from (BRecords b) ∧
      ∃ rest payload, after from (j_records j) = BRecords b ++ rest ∧ BMore b = bool_decide (rest ≠ []) ∧
        (after from (j_records j) ≠ [] → BRecords b ≠ [] ∧ version_lt from (BTo b)) ∧
        good_batch (repair_normalized l) b ∧
        EncodeRepairBatch b l = Ok payload ∧ len payload <= MaxFrameBytes (repair_normalized l)
  end.
Proof.
  unfold Journal_RepairBatch in Hrun.
  step Hrun as [] [j1 w1] E1; apply io_eq in E1 as [-> E1]; apply ctx_Err_fs in E1 as [Ew _]; [|done].
  step_Ok Hrun. cbn [fst] in Hrun.
  step Hrun as fd [j2 w2] E2; injection E2 as Eo <- <-; [|done].
  destruct (Compare from (j_floor j) <? 0) eqn:Ef; [stop Hrun; done|]. injection Hrun as <- <- <-.
  split_and!; [done..|]. destruct (batch_of _ _ _) as [b|e] eqn:Eb; [|done].
  assert (clone <$> j_records j = j_records j) as Ec.
  { rewrite <- list_fmap_id. apply list_fmap_ext. intros ? ? ?. apply clone_id. }
  rewrite Ec in Eb. apply batch_of_Ok in Eb as (rest & Ha & Ht & Hfrom & Hto & Hm & Hne & Hacc).
  split_and!; [apply version_nlt; unfold version_lt; lia|done..|].
  unfold accepted in Hacc. destruct (EncodeRepairBatch b _) as [payload|] eqn:Ee; [|done].
  apply EncodeRepairBatch_Ok in Ee as Hg. rewrite repair_normalized_idem in Hg. destruct Hg as (_ & Hg & -> & Hlen).
  assert (batch_typed b = b) as Eb by (unfold batch_typed; rewrite <- Ht; by destruct b). rewrite Eb in *.
  exists rest, (marshal (json_batch b)). split_and!; try done.
  - intros Hmiss. specialize (Hne Hmiss). split; [done|]. rewrite Hto. pose proof (gb_order _ _ Hg) as Hi.
    rewrite Hfrom in Hi. destruct (BRecords b) as [|r rs]; [done|]. destruct Hi as [Hlt Hi].
    rewrite last_version_cons. destruct (increasing_le _ _ Hi) as [Hle _]. by eapply version_lt_le_trans.
  - apply EncodeRepairBatch_Ok. rewrite Eb. auto.
Qed.

(** C7: Repair terminates and transfers everything, from a watermark that the
    journal still covers.  Without faults, when the watermark is not below the
    floor and every record behind it fits a batch of its own within the limits,
    repeating [RepairBatch] from the end of each batch finishes within as many
    rounds as records are missing (plus one), the batches follow on from each
    other, each is one that the receiver accepts, and their records are exactly the
    journal behind the peer's watermark, in order; the journal is not changed.  A
    watermark below the floor is refused. *)
Theorem repair_drains_journal `{UnicodePrint} j w from l (Hj : jinv j w) (Hq : quiet w)
    (Hdel : deliverable (repair_normalized l) from (j_records j)) :
  (version_le (j_floor j) from →
   ∃ bs, drain_journal (S (length (after from (j_records j)))) from l (j, w) = (Ok bs, (j, w)) ∧
     concat (BRecords <$> bs) = after from (j_records j) ∧ chained from bs ∧
     end_of from bs = last_version from (after from (j_records j)) ∧ Forall (λ b, accepted (repair_normalized l) b = true) bs) ∧
  (version_lt from (j_floor j) → Journal_RepairBatch from l (j, w) = (Err ErrPeerBehindWatermark, (j, w))).
Proof.
  split.
  - intros Hf. pose proof Hj as (fd & i & x & Hjf). destruct (jfile_records _ _ _ _ _ _ Hjf) as (_ & Hinc & _).
    destruct (drain_Ok (S (length (after from (j_records j)))) (j_floor j) (j_records j) from (repair_normalized l)) as (bs & Hd & Hrest);
      [done|apply repair_normalized_idem|done|lia|].
    exists bs. split; [|done]. by rewrite (drain_journal_eq _ _ _ _ _ (j_floor j)), Hd.
  - intros Hlt. pose proof Hj as (fd & i & x & Hjf). unfold Journal_RepairBatch.
    erewrite bind_step_Ok by (unfold io, zoom; cbn; rewrite (quiet_ctx _ Hq); reflexivity). erewrite bind_step_Ok by reflexivity. cbn [fst].
    erewrite bind_step_Ok by (unfold lift; rewrite (jfile_ensureOpen _ _ _ _ _ _ Hjf); reflexivity).
    unfold version_lt in Hlt. destruct (Compare from (j_floor j) <? 0) eqn:E; [done|lia].
Qed.

(** C13: Repair frames round-trip.  What [EncodeRepairFrame] produced is within
    the frame bound and decodes to the same message, with its type filled in
    and a snapshot's records in key order; a peer without lifecycle.v1 is
    refused before decoding. *)
Theorem repair_frame_roundtrip `{UnicodePrint} f l payload capabilities (Hu : frame_u64 f)
    (He : EncodeRepairFrame f l = Ok payload) :
  len payload <= MaxFrameBytes (repair_normalized l) ∧
  DecodeRepairFrame payload l = Ok (frame_typed f) ∧
  DecodeRepairFrameForPeer payload capabilities l =
    (if bool_decide (LifecycleCapabilityV1 ∈ capabilities) then Ok (frame_typed f)
     else Err ErrLifecycleCapabilityRequired).
Proof.
  assert (∀ p, DecodeRepairBatch p (repair_normalized l) = DecodeRepairBatch p l) as Nb
    by (intros; unfold DecodeRepairBatch; by rewrite repair_normalized_idem).
  assert (∀ p, DecodeRepairSnapshot p (repair_normalized l) = DecodeRepairSnapshot p l) as Ns
    by (intros; unfold DecodeRepairSnapshot; by rewrite repair_normalized_idem).
  assert (∀ p, DecodeRepairAck p (repair_normalized l) = DecodeRepairAck p l) as Na
    by (intros; unfold DecodeRepairAck; by rewrite repair_normalized_idem).
  assert (len payload <= MaxFrameBytes (repair_normalized l) ∧ DecodeRepairFrame payload l = Ok (frame_typed f))
    as [Hlen Hd].
  { destruct Hu as (Hub & Hus & Hua). unfold EncodeRepairFrame in He. unfold frame_typed, DecodeRepairFrame.
    destruct (FBatch f) as [b|], (FSnapshot f) as [sn|], (FAck f) as [a|]; try done;
      (destruct (type_allows _ _); [|done]).
    - destruct (Hub b eq_refl) as (? & ? & ?). apply EncodeRepairBatch_Ok in He as He'. destruct He' as (_ & _ & _ & ?).
      apply DecodeRepairBatch_Encode in He as [Hd Ht]; try done. split; [done|].
      replace (_ <? _) with false by lia. rewrite Ht. cbn [rbind]. by rewrite bool_decide_eq_true_2, Nb, Hd by done.
    - destruct (Hus sn eq_refl) as (? & ?). apply DecodeRepairSnapshot_Encode in He as (Hd & Ht & ?); try done. split; [done|].
      replace (_ <? _) with false by lia. rewrite Ht. cbn [rbind].
      rewrite bool_decide_eq_false_2, bool_decide_eq_true_2, Ns, Hd by done. done.
    - apply DecodeRepairAck_Encode in He as (Hd & Ht & ?); [|by apply Hua]. split; [done|].
      replace (_ <? _) with false by lia. rewrite Ht. cbn [rbind].
      rewrite (bool_decide_eq_false_2 (_ = RepairBatchMessageType)), (bool_decide_eq_false_2 (_ = RepairSnapshotMessageType)),
        bool_decide_eq_true_2, Na, Hd by done. done. }
  split_and!; [done..|]. unfold DecodeRepairFrameForPeer, HasLifecycleCapability. rewrite Hd.
  case_bool_decide as Hc; [by apply has_capability_spec in Hc as ->|].
  destruct (has_capability _ _) eqn:E; [by apply has_capability_spec in E|done].
Qed.

(** The receiver's classification.  A batch is a duplicate exactly when it
    is well formed and ends at or before the expected watermark; it is ready
    exactly when it is well formed, starts at the expected watermark and ends
    behind it; in every other case it is an error, so no gap is ever applied. *)
Theorem Delivery_exact `{UnicodePrint} b expected l :
  (Delivery b expected l = Ok RepairDeliveryDuplicate ↔
     good_batch (repair_normalized l) b ∧ version_le (BTo b) expected) ∧
  (Delivery b expected l = Ok RepairDeliveryReady ↔
     good_batch (repair_normalized l) b ∧ BFrom b = expected ∧ version_lt expected (BTo b) ∧ BRecords b ≠ []).
Proof.
  unfold Delivery. cbv zeta. rewrite !rbind_unit, validateRepairBatch_Ok.
  assert (good_batch (repair_normalized l) b → BFrom b = expected → version_lt expected (BTo b) → BRecords b ≠ []) as Hne.
  { intros Hg <- Hlt E. rewrite (gb_to _ _ Hg), E in Hlt. by apply (irreflexivity version_lt (BFrom b)). }
  destruct (Compare (BTo b) expected <=? 0) eqn:Ec; bool_to_prop.
  - split; [unfold version_le; naive_solver|]. split; [naive_solver|]. intros (_ & _ & Hlt%Compare_gt & _). lia.
  - split; [split; [intros [_ Hg]; by case_match|unfold version_le; intros [_ ?]; lia]|].
    apply Compare_gt in Ec. case_bool_decide as E; cbn [negb]; naive_solver.
Qed.

(** *** Concrete runs *)

#[local] Existing Instance ascii_print.

Definition ex_repair_limits : RepairLimits := repair_normalized (mkRepairLimits 1 0 0 0 zero_limits).
Definition ex_batch_run : result RepairBatch * (Journal * world) :=
  Journal_RepairBatch zero_version ex_repair_limits ex_appended.

Lemma RepairBatch_progress_witness :
  ∃ b, ex_batch_run.1 = Ok b ∧ BRecords b = [ex_deleted 98 1] ∧ BTo b = mkVersion 1 1 ∧
    good_batch (repair_normalized ex_repair_limits) b.
Proof.
  exists (single zero_version false (ex_deleted 98 1)).
  destruct (RepairBatch_progress ex_appended.1 ex_appended.2 zero_version ex_repair_limits
    (Ok (single zero_version false (ex_deleted 98 1))) ex_batch_run.2.1 ex_batch_run.2.2 ex_appended_jinv)
    as (_ & _ & _ & _ & _ & rest & payload & _ & _ & _ & Hg & _); [vm_compute; reflexivity|].
  split_and!; [vm_compute; reflexivity|reflexivity|reflexivity|exact Hg].
Defined.

Definition ex_two : Journal * world := (Append (ex_deleted 99 2) ex_appended).2.
Lemma ex_two_jinv : jinv ex_two.1 ex_two.2.
Proof.
  destruct ex_appended_jinv as (fd & i & x & Hj).
  destruct (Append_Ok _ _ _ _ _ (ex_deleted 99 2) ex_appended.2 ex_two.1 ex_two.2 tt Hj eq_refl) as (_ & _ & Hj');
    [decide_now|vm_compute; reflexivity|by eexists _, _, _].
Qed.
Lemma repair_drains_journal_witness :
  ∃ bs, drain_journal 3 zero_version ex_repair_limits ex_two = (Ok bs, ex_two) ∧
    concat (BRecords <$> bs) = [ex_deleted 98 1; ex_deleted 99 2] ∧ length bs = 2%nat.
Proof.
  destruct (repair_drains_journal ex_two.1 ex_two.2 zero_version ex_repair_limits ex_two_jinv) as [Hd _]; [decide_now|decide_now|].
  destruct Hd as (bs & Hd & Hc & _); [decide_now|].
  assert (drain_journal 3 zero_version ex_repair_limits ex_two = (Ok bs, ex_two)) as Hd' by exact Hd.
  exists bs. split_and!; [exact Hd'|rewrite Hc; vm_compute; reflexivity|].
  apply (f_equal fst) in Hd'. vm_compute in Hd'. injection Hd' as <-. reflexivity.
Defined.

Definition ex_frame : RepairFrame :=
  mkRepairFrame [] None (Some (mkRepairSnapshot [] (mkVersion 1 2) ex_records)) None.

Lemma repair_frame_roundtrip_witness :
  ∃ payload, EncodeRepairFrame ex_frame ex_repair_limits = Err ErrRepairLimit ∧
    EncodeRepairFrame ex_frame (mkRepairLimits 2 0 0 0 zero_limits) = Ok payload ∧
    DecodeRepairFrame payload (mkRepairLimits 2 0 0 0 zero_limits) = Ok (frame_typed ex_frame).
Proof.
  eexists. split; [vm_compute; reflexivity|].
  assert (EncodeRepairFrame ex_frame (mkRepairLimits 2 0 0 0 zero_limits) =
    Ok (marshal (json_snapshot (snapshot_typed (mkRepairSnapshot [] (mkVersion 1 2) ex_records))))) as He
    by (vm_compute; reflexivity).
  split; [exact He|].
  assert (frame_u64 ex_frame) as Hu by (split_and!; [done| |done]; intros s [= <-]; split; decide_now).
  exact (proj1 (proj2 (repair_frame_roundtrip ex_frame (mkRepairLimits 2 0 0 0 zero_limits) _ [] Hu He))).
Defined.
