(* ===== verification/StateFile.v ===== *)
(** * Small durable state files

    watermark.go, membership.go and authority.go of internal/lifecycle keep one
    JSON value each in a checksummed envelope that is replaced as a whole.  This
    file holds what they share: reading such a file strictly, and persisting a
    value with [atomicWrite].  [StateCodec] is the interface between the two and
    the three components: a component supplies its JSON form and shows that
    decoding inverts it, and gets the round trip through the disk in return. *)
From S2P Require Import Prelude Go Bits Text Json Os Model Codec Journal Transport.

(** The errors of one kind of state file. *)
Record StateErrors := mkStateErrors { e_corrupt : error; e_checksum : error; e_limit : error }.

(** The strict decoder of the payload. *)
Definition decodeState {A} (es : StateErrors) (dec : decoder A) (zero : A) (payload : bytes) : result A :=
  match decode_one dec zero payload with
  | None => Err (EJoin (e_corrupt es) ErrJSON)
  | Some (x, TrailingEOF) => Ok x
  | Some (_, TrailingValue) => Err (e_corrupt es)
  | Some (_, TrailingError) => Err (EJoin (e_corrupt es) ErrJSON)
  end.

(** The checks on the bytes of the file. *)
Definition parseState {A} (es : StateErrors) (dec : decoder A) (zero : A) (maxBytes : Z) (data : bytes) : result A :=
  if len data =? 0 then Err (e_corrupt es)
  else if maxBytes <? len data then Err (e_limit es)
  else
    '(payload, next) <-? decodeEnvelope data 0 maxBytes (e_corrupt es) (e_checksum es) ;
    if negb (next =? len data) then Err (e_corrupt es)
    else decodeState es dec zero payload.

(** The state in a file; [None] when there is no file. *)
Definition loadState {A} (es : StateErrors) (dec : decoder A) (zero : A) (path : bytes) (maxBytes : Z)
    : M world (option A) :=
  attempt (os_ReadFile path) (λ r,
    match r with
    | Err e => if errors_Is e ErrNotExist then ret None else throw e
    | Ok data => x <- lift (parseState es dec zero maxBytes data) ; ret (Some x)
    end).

Definition persistState (es : StateErrors) (path : bytes) (maxBytes : Z) (j : json) : M world unit :=
  match encodeEnvelope (marshal j) with
  | Err e => throw (EJoin (e_corrupt es) e)
  | Ok envelope => if maxBytes <? len envelope then throw (e_limit es) else atomicWrite path envelope
  end.

(** What every decoded value satisfies, a loaded state satisfies. *)
Lemma parseState_inv {A} (P : A → Prop) es (dec : decoder A) zero maxBytes data a :
  (∀ j x, dec zero j = Some x → P x) → parseState es dec zero maxBytes data = Ok a → P a.
Proof.
  intros Hdec. unfold parseState. rewrite !guard_Ok. intros (_ & _ & Hp).
  apply rbind_Ok in Hp as ([payload next] & _ & Hp). apply guard_Ok in Hp as [_ Hp].
  unfold decodeState, decode_one in Hp. destruct (next_value _) as [[j rest]|]; [|done].
  destruct (dec zero j) as [x|] eqn:Ed; [|done]. destruct (after_value rest); try done.
  injection Hp as <-. by eapply Hdec.
Qed.

(** ** The interface *)

Class StateCodec {A} (enc : A → json) (dec : decoder A) (zero : A) (good : A → Prop) := {
  codec_ok : ∀ a, good a → json_ok (enc a);
  codec_depth : ∀ a, good a → json_depth (enc a) <= max_depth;
  codec_dec : ∀ a, good a → dec zero (enc a) = Some a
}.

(** [data] is the file that [persistState] writes for [a]. *)
Definition image_of {A} (enc : A → json) (maxBytes : Z) (a : A) (data : bytes) : Prop :=
  encodeEnvelope (marshal (enc a)) = Ok data ∧ len data <= maxBytes.

Section state_file.
Context {A} (enc : A → json) (dec : decoder A) (zero : A) (good : A → Prop).
Context `{!StateCodec enc dec zero good} (es : StateErrors).

Lemma parseState_image maxBytes a data :
  good a → image_of enc maxBytes a data → parseState es dec zero maxBytes data = Ok a.
Proof.
  intros Hg [He Hlen]. pose proof (len_envelope _ _ He) as Hl.
  apply encodeEnvelope_Ok in He as Hp. destruct Hp as [Hp _].
  unfold parseState. decide_ifs.
  pose proof (decodeEnvelope_at [] _ _ [] maxBytes (e_corrupt es) (e_checksum es) He) as Hd.
  cbn [app] in Hd. rewrite app_nil_r in Hd. change (len (@nil byte)) with 0 in Hd. rewrite Hd by lia.
  cbn [rbind]. rewrite Z.eqb_refl. cbn [negb]. unfold decodeState.
  rewrite (decode_one_marshal dec zero _ a); [done|by apply codec_ok|by apply codec_depth|by apply codec_dec].
Qed.

(** A file read under another limit is the same value, if it is accepted. *)
Lemma parseState_image_eq maxBytes maxBytes' a a' data :
  good a → image_of enc maxBytes a data → parseState es dec zero maxBytes' data = Ok a' → a' = a.
Proof.
  intros Hg [He _] Hp. assert (len data <= maxBytes') as Hl.
  { unfold parseState in Hp. rewrite !guard_Ok in Hp. lia. }
  rewrite (parseState_image maxBytes' a) in Hp; [congruence|done|by split].
Qed.

(** A run of [persistState]: nothing happens, or the file is replaced. *)
Lemma persistState_run path maxBytes a w r w' :
  fs_wf (w_fs w) → filepath_Clean path = path → persistState es path maxBytes (enc a) w = (r, w') →
  fs_keeps (w_fs w) (w_fs w') ∧
  match r with
  | Ok _ => ∃ data, image_of enc maxBytes a data ∧ file_at (w_fs w') path = Some data ∧
      (∀ c, crash_at (w_fs w') path c → c = Some data)
  | Err _ => ∀ c, crash_at (w_fs w') path c → crash_at (w_fs w) path c ∨
      ∃ data, image_of enc maxBytes a data ∧ c = Some data
  end ∧
  ∀ q, filepath_Clean q ≠ path → file_at (w_fs w') q = file_at (w_fs w) q.
Proof.
  intros Hwf Hp HP. unfold persistState in HP. destruct (encodeEnvelope _) as [data|e] eqn:He.
  2:{ stop HP. split_and!; [by apply fs_keeps_refl|by left|done]. }
  destruct (maxBytes <? len data) eqn:Em; [stop HP; split_and!; [by apply fs_keeps_refl|by left|done]|].
  bool_to_prop. destruct (atomicWrite_view _ _ _ _ _ Hwf HP) as (Hk & b & Hb & Hv). split_and!; [done| |].
  - destruct r as [[]|e].
    + exists data. split_and!; [done| |].
      * rewrite Hv, (Hb eq_refl). by rewrite bool_decide_eq_true_2.
      * intros c. rewrite (atomicWrite_Ok_fs _ _ _ _ _ Hwf HP). by apply crash_at_durable.
    + intros c Hc. destruct (atomicWrite_crash_any _ _ _ _ _ _ _ Hwf HP Hc) as [?|[_ ->]]; [by left|right].
      by exists data.
  - intros q Hq. rewrite Hv, (bool_decide_eq_false_2 (_ = _)) by congruence. by rewrite andb_false_r.
Qed.

(** Without faults a state that fits is persisted. *)
Lemma persistState_quiet path maxBytes a data w :
  fs_wf (w_fs w) → quiet w → image_of enc maxBytes a data →
  persistState es path maxBytes (enc a) w = atomicWrite path data w ∧
  (persistState es path maxBytes (enc a) w).1 = Ok tt.
Proof.
  intros Hwf Hq [He Hl]. unfold persistState. rewrite He. decide_ifs. split; [done|].
  by rewrite atomicWrite_quiet.
Qed.

End state_file.

(** A crash may find what the process sees. *)
Lemma crash_at_file f path : crash_at f path (file_at f path).
Proof.
  exists (fs_dir f !! Named (filepath_Clean path)). split; [by right|]. unfold file_at.
  destruct (fs_dir f !! _) as [i|]; [|done]. eexists. split; [done|]. intros x Hx Heq.
  unfold file_data. by rewrite Hx, Heq.
Qed.

(** Without faults the file is read as it is. *)
Lemma os_ReadFile_quiet path w :
  quiet w →
  os_ReadFile path w = (match file_at (w_fs w) path with Some d => Ok d | None => Err ErrNotExist end, w).
Proof.
  intros Hq. unfold os_ReadFile. rewrite quiet_syscall by done. destruct w. by destruct (file_at _ _).
Qed.
Lemma os_ReadFile_run path w r w' :
  os_ReadFile path w = (r, w') →
  w_fs w' = w_fs w ∧ match r with
                     | Ok d => file_at (w_fs w) path = Some d
                     | Err e => e = ErrOS ∨ e = ErrNotExist ∧ file_at (w_fs w) path = None
                     end.
Proof.
  intros [[-> E]|E]%syscall_inv; [auto|]. destruct (file_at _ _) eqn:Ef; injection E as <- <-; auto.
Qed.

Lemma loadState_run {A} es (dec : decoder A) zero path maxBytes w r w' :
  loadState es dec zero path maxBytes w = (r, w') →
  w_fs w' = w_fs w ∧ match r with
                     | Ok (Some a) => ∃ data, file_at (w_fs w) path = Some data ∧
                                       parseState es dec zero maxBytes data = Ok a
                     | Ok None => file_at (w_fs w) path = None
                     | Err _ => True
                     end.
Proof.
  unfold loadState, attempt. destruct (os_ReadFile path w) as [rd w1] eqn:E1.
  apply os_ReadFile_run in E1 as [Ew Hr]. intros HL. destruct rd as [data|e].
  - step HL as x w2 E2; injection E2 as E2 <-; [|done]. stop HL. eauto.
  - destruct Hr as [->|[-> Hr]]; stop HL; done.
Qed.

(** Reading back what was persisted. *)
Lemma loadState_image {A} (enc : A → json) dec zero good `{!StateCodec enc dec zero good} es path maxBytes a data w :
  quiet w → good a → image_of enc maxBytes a data → file_at (w_fs w) path = Some data →
  loadState es dec zero path maxBytes w = (Ok (Some a), w).
Proof.
  intros Hq Hg Hi Hf. unfold loadState, attempt. rewrite os_ReadFile_quiet, Hf by done.
  by erewrite bind_step_Ok by (unfold lift; rewrite (parseState_image enc dec zero good es _ _ _ Hg Hi); reflexivity).
Qed.
