(* ===== verification/Watermark.v ===== *)
(** * Durable peer acknowledgements and the repair coordinator

    internal/lifecycle/watermark.go: the book of per-peer watermarks, which only
    [Acknowledge] may advance and [Reconcile] or [Forget] may reset, and the
    coordinator that connects it to the journal's repair planner. *)
From stdpp Require Import sorting.
From S2P Require Import Prelude Go Bits Text Json Os Model Codec Journal Compact Transport Repair StateFile.

Definition DefaultMaxRepairPeers : Z := 1024.
Definition DefaultMaxRepairPeerIDBytes : Z := 128.
Definition DefaultMaxRepairWatermarkBytes : Z := 1048576.

Record WatermarkOptions := mkWatermarkOptions { WMaxPeers : Z; WMaxPeerIDBytes : Z; WMaxBytes : Z }.
Definition watermark_options_normalized (o : WatermarkOptions) : WatermarkOptions :=
  mkWatermarkOptions (or_default (WMaxPeers o) DefaultMaxRepairPeers)
    (or_default (WMaxPeerIDBytes o) DefaultMaxRepairPeerIDBytes)
    (or_default (WMaxBytes o) DefaultMaxRepairWatermarkBytes).

(** [watermarkState]; [None] is the nil map. *)
Definition watermarkState : Type := option (gmap bytes Version).

(** The entries of a map as [json.Marshal] writes them, by key. *)
Definition key_le {A} (a b : bytes * A) : Prop := bytes_le a.1 b.1.
#[export] Instance key_le_dec {A} : RelDecision (@key_le A).
Proof. intros a b. unfold key_le. apply _. Defined.
Definition sorted_entries {A} (m : gmap bytes A) : list (bytes * A) := merge_sort key_le (map_to_list m).

Definition json_watermarks (s : watermarkState) : json :=
  JObj [(lit "watermarks", match s with
                           | None => JNull
                           | Some m => JObj ((λ kv, (kv.1, json_version kv.2)) <$> sorted_entries m)
                           end)].
Definition dec_watermarks : decoder watermarkState :=
  dec_struct true [(lit "watermarks", field id (λ x _, x) (dec_map (dec_version true) zero_version))].

Definition watermark_errors : StateErrors :=
  mkStateErrors ErrWatermarkCorrupt ErrWatermarkChecksum ErrWatermarkLimit.

Record WatermarkBook := mkWatermarkBook {
  wb_path : bytes;
  wb_maxPeers : Z;
  wb_maxPeerID : Z;
  wb_maxBytes : Z;
  wb_watermarks : gmap bytes Version
}.
Definition set_watermarks (m : gmap bytes Version) (b : WatermarkBook) : WatermarkBook :=
  mkWatermarkBook (wb_path b) (wb_maxPeers b) (wb_maxPeerID b) (wb_maxBytes b) m.

Section watermark.
Context `{UnicodePrint}.

Definition validatePeer (b : WatermarkBook) (peer : bytes) : result unit :=
  if bool_decide (peer = []) || (wb_maxPeerID b <? len peer) || negb (utf8_ValidString peer)
  then Err ErrWatermarkPeerInvalid
  else if negb (forallb unicode_IsPrint (runes peer)) then Err ErrWatermarkPeerInvalid
  else Ok tt.

(** The loop of [validateState], in one of the orders the map may be iterated. *)
Fixpoint check_peers (b : WatermarkBook) (l : list (bytes * Version)) : result unit :=
  match l with
  | [] => Ok tt
  | (peer, version) :: l' =>
      match validatePeer b peer with
      | Err e => Err (EJoin ErrWatermarkCorrupt e)
      | Ok _ => if IsZero version then Err ErrWatermarkCorrupt else check_peers b l'
      end
  end.
Definition validateState (b : WatermarkBook) (state : watermarkState) : result unit :=
  match state with
  | None => Err ErrWatermarkCorrupt
  | Some m =>
      if wb_maxPeers b <? Z.of_nat (size m) then Err ErrWatermarkLimit
      else check_peers b (map_to_list m)
  end.

Definition OpenWatermarkBook (path : bytes) (options : WatermarkOptions) : M world WatermarkBook :=
  if bool_decide (path = []) then throw ErrNilWatermarkPath
  else
    let options := watermark_options_normalized options in
    let book := mkWatermarkBook path (WMaxPeers options) (WMaxPeerIDBytes options) (WMaxBytes options) ∅ in
    loaded <- loadState watermark_errors dec_watermarks None path (wb_maxBytes book) ;
    match loaded with
    | None => ret book
    | Some state =>
        lift (validateState book state) ;;
        ret (set_watermarks (default ∅ state) book)
    end.

Definition persistWatermarks (b : WatermarkBook) (m : gmap bytes Version) : M world unit :=
  persistState watermark_errors (wb_path b) (wb_maxBytes b) (json_watermarks (Some m)).

(** [Version{}] for an unknown peer. *)
Definition BookWatermark (b : WatermarkBook) (peer : bytes) : Version :=
  default zero_version (wb_watermarks b !! peer).
Definition BookSnapshot (b : WatermarkBook) : gmap bytes Version := wb_watermarks b.

(** Persist the next map, then publish it. *)
Definition commit (next : gmap bytes Version) : M (WatermarkBook * world) unit :=
  b <- self ;
  io (persistWatermarks b next) ;;
  update (set_watermarks next).

Definition Acknowledge (peer : bytes) (version : Version) : M (WatermarkBook * world) unit :=
  io ctx_Err ;;
  b <- self ;
  lift (validatePeer b peer) ;;
  if IsZero version then ret tt
  else
    let exists_ := bool_decide (is_Some (wb_watermarks b !! peer)) in
    let comparison := Compare version (BookWatermark b peer) in
    if comparison <? 0 then throw ErrWatermarkRegression
    else if (comparison =? 0) && exists_ then ret tt
    else if negb exists_ && (wb_maxPeers b <=? Z.of_nat (size (wb_watermarks b))) then throw ErrWatermarkLimit
    else commit (<[peer := version]> (wb_watermarks b)).

Definition Reconcile (peer : bytes) (version : Version) : M (WatermarkBook * world) unit :=
  io ctx_Err ;;
  b <- self ;
  lift (validatePeer b peer) ;;
  if bool_decide (wb_watermarks b !! peer = Some version) then ret tt
  else if IsZero version then commit (delete peer (wb_watermarks b))
  else if negb (bool_decide (is_Some (wb_watermarks b !! peer))) &&
          (wb_maxPeers b <=? Z.of_nat (size (wb_watermarks b)))
  then throw ErrWatermarkLimit
  else commit (<[peer := version]> (wb_watermarks b)).

Definition Forget (peer : bytes) : M (WatermarkBook * world) unit :=
  io ctx_Err ;;
  b <- self ;
  lift (validatePeer b peer) ;;
  if bool_decide (wb_watermarks b !! peer = None) then ret tt
  else commit (delete peer (wb_watermarks b)).

(** ** The coordinator *)

Record RepairCoordinator := mkRepairCoordinator {
  rc_journal : Journal;
  rc_watermarks : WatermarkBook;
  rc_limits : RepairLimits
}.

Definition NewRepairCoordinator (journal : option Journal) (watermarks : option WatermarkBook) (l : RepairLimits)
    : result RepairCoordinator :=
  match journal, watermarks with
  | None, _ => Err ErrNilRepairJournal
  | _, None => Err ErrNilRepairWatermarks
  | Some j, Some b => Ok (mkRepairCoordinator j b (repair_normalized l))
  end.

(** Run a method of the journal or of the book inside the coordinator. *)
Definition on_journal {A} (m : M (Journal * world) A) : M (RepairCoordinator * world) A :=
  zoom (λ s, (rc_journal s.1, s.2))
       (λ t s, (mkRepairCoordinator t.1 (rc_watermarks s.1) (rc_limits s.1), t.2)) m.
Definition on_book {A} (m : M (WatermarkBook * world) A) : M (RepairCoordinator * world) A :=
  zoom (λ s, (rc_watermarks s.1, s.2))
       (λ t s, (mkRepairCoordinator (rc_journal s.1) t.1 (rc_limits s.1), t.2)) m.

Definition CoordinatorPlan (peer : bytes) (snapshot : option Checkpoint) : M (RepairCoordinator * world) RepairPlan :=
  io ctx_Err ;;
  c <- self ;
  lift (validatePeer (rc_watermarks c) peer) ;;
  on_journal (PlanRepair (BookWatermark (rc_watermarks c) peer) snapshot (rc_limits c)).

Definition CoordinatorAcknowledge (peer : bytes) (version : Version) : M (RepairCoordinator * world) unit :=
  io ctx_Err ;;
  c <- self ;
  lift (validatePeer (rc_watermarks c) peer) ;;
  if negb (IsZero version) && (0 <? Compare version (LastVersion (rc_journal c))) then throw ErrRepairAcknowledgement
  else on_book (Acknowledge peer version).

Definition CoordinatorReconcile (peer : bytes) (version : Version) : M (RepairCoordinator * world) unit :=
  io ctx_Err ;;
  c <- self ;
  lift (validatePeer (rc_watermarks c) peer) ;;
  if negb (IsZero version) && (0 <? Compare version (LastVersion (rc_journal c))) then throw ErrRepairAcknowledgement
  else on_book (Reconcile peer version).

End watermark.

(** ** The file format *)

Lemma sorted_entries_perm {A} (m : gmap bytes A) : sorted_entries m ≡ₚ map_to_list m.
Proof. apply merge_sort_Permutation. Qed.
Lemma sorted_entries_NoDup {A} (m : gmap bytes A) : NoDup (sorted_entries m).*1.
Proof. rewrite sorted_entries_perm. apply NoDup_fst_map_to_list. Qed.
Lemma sorted_entries_map {A} (m : gmap bytes A) : list_to_map (sorted_entries m) = m.
Proof.
  rewrite <- (list_to_map_to_list m) at 2. apply list_to_map_proper; [apply sorted_entries_NoDup|].
  apply sorted_entries_perm.
Qed.

Lemma dec_entries_json {A} (dec : decoder A) (zero : A) (enc : A → json) (l : list (bytes * A)) (m : gmap bytes A) :
  NoDup l.*1 → (∀ k v, (k, v) ∈ l → dec zero (enc v) = Some v) →
  dec_entries dec zero m ((λ kv, (kv.1, enc kv.2)) <$> l) = Some (list_to_map l ∪ m).
Proof.
  revert m. induction l as [|[k v] l IH]; intros m Hd Hl.
  { cbn. by rewrite (left_id_L ∅ (∪)). }
  cbn [fmap list_fmap dec_entries fst snd]. rewrite (Hl k v) by by left.
  cbn in Hd. apply NoDup_cons in Hd as [Hk Hd]. rewrite IH; [|done|intros k' v' Hin; apply (Hl k'); by right].
  f_equal. cbn. rewrite <- insert_union_l, insert_union_r; [done|].
  by apply not_elem_of_list_to_map_1.
Qed.

Definition good_watermarks (s : watermarkState) : Prop :=
  match s with
  | None => False
  | Some m => map_Forall (λ k v, utf8_ValidString k = true ∧ version_u64 v) m
  end.

#[export] Instance watermark_codec : StateCodec json_watermarks dec_watermarks None good_watermarks.
Proof.
  assert (∀ m, map_Forall (λ k v, utf8_ValidString k = true ∧ version_u64 v) m →
    ∀ k v, (k, v) ∈ sorted_entries m → utf8_ValidString k = true ∧ version_u64 v) as Hin.
  { intros m Hm k v. rewrite sorted_entries_perm, elem_of_map_to_list. apply Hm. }
  assert (∀ m, map_Forall (λ k v, utf8_ValidString k = true ∧ version_u64 v) m →
    json_ok (json_watermarks (Some m)) ∧ json_depth (json_watermarks (Some m)) <= 3) as Hok.
  { intros m Hm. apply (json_fields_ok _ 2); [done|]. apply Forall_cons_2; [|apply Forall_nil_2].
    split; [vm_compute; reflexivity|]. apply (json_fields_ok _ 1); [done|]. apply Forall_forall.
    intros kv Hkv. apply list_elem_of_fmap in Hkv as ([k v] & -> & Hkv). cbn [fst snd].
    destruct (Hin m Hm k v Hkv) as [? ?]. split_and!; [done|by apply json_version_ok|done]. }
  split; intros [m|] Hm; try done.
  - by apply Hok.
  - destruct (Hok m Hm) as [_ Hd]. unfold max_depth. lia.
  - unfold dec_watermarks, json_watermarks, dec_struct. json_member; [done|]. cbn [dec_map id default].
    rewrite dec_entries_json; [|apply sorted_entries_NoDup|].
    + by rewrite (right_id_L ∅ (∪)), sorted_entries_map.
    + intros k v Hkv. apply dec_version_json. by apply (Hin m Hm k v).
Qed.

(** ** Facts *)

Section watermark_facts.
Context `{UnicodePrint}.

(** The type invariant of a book: bounded, valid peers, no zero entries. *)
Record wb_wf (b : WatermarkBook) : Prop := {
  wb_clean : filepath_Clean (wb_path b) = wb_path b;
  wb_entries : map_Forall (λ k v, validatePeer b k = Ok tt ∧ v ≠ zero_version ∧ version_u64 v) (wb_watermarks b);
  wb_size : Z.of_nat (size (wb_watermarks b)) <= wb_maxPeers b
}.

(** The file holds what the book says: for the process and for every crash. *)
Definition wb_saved (b : WatermarkBook) (c : option bytes) : Prop :=
  match c with
  | None => wb_watermarks b = ∅
  | Some data => parseState watermark_errors dec_watermarks None (wb_maxBytes b) data = Ok (Some (wb_watermarks b))
  end.

#[global] Instance wb_saved_dec b c : Decision (wb_saved b c).
Proof. destruct c; cbn; apply _. Defined.

Lemma validatePeer_utf8 b peer : validatePeer b peer = Ok tt → utf8_ValidString peer = true.
Proof.
  unfold validatePeer. rewrite !guard_Ok. intros [Hp _]. rewrite !orb_false_iff, negb_false_iff in Hp. apply Hp.
Qed.

Lemma wf_good b : wb_wf b → good_watermarks (Some (wb_watermarks b)).
Proof.
  intros Hb k v Hkv. destruct (wb_entries _ Hb k v Hkv) as (Hp & _ & Hu). split; [|done].
  by eapply validatePeer_utf8.
Qed.

Lemma wf_set b m :
  wb_wf b → map_Forall (λ k v, validatePeer b k = Ok tt ∧ v ≠ zero_version ∧ version_u64 v) m →
  Z.of_nat (size m) <= wb_maxPeers b → wb_wf (set_watermarks m b).
Proof. intros [? _ _] Hm Hs. by split. Qed.

Lemma wf_insert b peer v :
  wb_wf b → validatePeer b peer = Ok tt → v ≠ zero_version → version_u64 v →
  (is_Some (wb_watermarks b !! peer) ∨ Z.of_nat (size (wb_watermarks b)) < wb_maxPeers b) →
  wb_wf (set_watermarks (<[peer := v]> (wb_watermarks b)) b).
Proof.
  intros Hb Hp Hv Hu Hs. apply wf_set; [done| |].
  - apply map_Forall_insert_2; [done|]. apply Hb.
  - pose proof (wb_size _ Hb). destruct (wb_watermarks b !! peer) as [old|] eqn:E.
    + rewrite map_size_insert_Some; [done|by rewrite E].
    + rewrite map_size_insert_None by done. destruct Hs as [[? ?]|?]; [done|lia].
Qed.
Lemma wf_delete b peer : wb_wf b → wb_wf (set_watermarks (delete peer (wb_watermarks b)) b).
Proof.
  intros Hb. apply wf_set; [done| |].
  - intros k v. rewrite lookup_delete_Some. intros [_ Hk]. by apply (wb_entries _ Hb).
  - pose proof (wb_size _ Hb). destruct (wb_watermarks b !! peer) as [old|] eqn:E.
    + rewrite map_size_delete_Some by by rewrite E. lia.
    + rewrite delete_id; done.
Qed.

Lemma commit_run next b w res b' w' :
  fs_wf (w_fs w) → wb_wf b → wb_wf (set_watermarks next b) →
  commit next (b, w) = (res, (b', w')) →
  fs_wf (w_fs w') ∧
  match res with
  | Ok _ => b' = set_watermarks next b ∧ ∀ c, crash_at (w_fs w') (wb_path b) c → c ≠ None ∧ wb_saved b' c
  | Err _ => b' = b ∧ ∀ c, crash_at (w_fs w') (wb_path b) c →
      crash_at (w_fs w) (wb_path b) c ∨ wb_saved (set_watermarks next b) c
  end.
Proof.
  intros Hwf Hb Hn HC. unfold commit in HC. step_Ok HC. cbn [fst] in HC.
  assert (∀ data, image_of json_watermarks (wb_maxBytes b) (Some next) data →
            wb_saved (set_watermarks next b) (Some data)) as Hsaved.
  { intros data Hi. apply (parseState_image json_watermarks _ _ good_watermarks); [|done].
    by apply (wf_good (set_watermarks next b)). }
  step HC as [] [b1 w1] E1; apply io_eq in E1 as [-> E1]; apply persistState_run in E1 as (Hk & Hr & _); try done;
    try apply Hb.
  - injection HC as <- <- <-. split; [apply Hk|]. split; [done|]. intros c Hc. destruct Hr as (data & Hi & _ & Hd).
    rewrite (Hd c Hc). auto.
  - split; [apply Hk|]. split; [done|]. intros c Hc. destruct (Hr c Hc) as [?|(data & Hi & ->)]; auto.
Qed.

(** One step of the book: nothing, or a committed map. *)
Definition book_step (b : WatermarkBook) (w : world) (next : gmap bytes Version)
    (res : result unit) (b' : WatermarkBook) (w' : world) : Prop :=
  (b' = b ∧ w_fs w' = w_fs w) ∨
  ∃ w1, w_fs w1 = w_fs w ∧ wb_wf (set_watermarks next b) ∧ commit next (b, w1) = (res, (b', w')).

Lemma Acknowledge_run peer v b w res b' w' :
  wb_wf b → version_u64 v → Acknowledge peer v (b, w) = (res, (b', w')) →
  book_step b w (<[peer := v]> (wb_watermarks b)) res b' w' ∧
  (is_Ok res = true → validatePeer b peer = Ok tt ∧
     (v ≠ zero_version → version_le (BookWatermark b peer) v ∧ BookWatermark b' peer = v)).
Proof.
  intros Hb Hu HA. unfold Acknowledge in HA.
  step HA as [] [b1 w1] E1; apply io_eq in E1 as [-> E1]; apply ctx_Err_fs in E1 as [Ew _];
    [|split; [by left|done]].
  step_Ok HA. cbn [fst] in HA.
  step HA as [] [b2 w2] E2; injection E2 as Ep <- <-; [|split; [by left|done]].
  unfold IsZero in HA. case_bool_decide as Hz.
  { stop HA. split; [by left|intros _; by split]. }
  destruct (_ <? 0) eqn:Ec in HA; [stop HA; split; [by left|done]|]. bool_to_prop.
  assert (version_le (BookWatermark b peer) v) as Hle by (apply version_nlt; unfold version_lt; lia).
  destruct (_ && _) eqn:Ed in HA.
  { stop HA. bool_to_prop. split; [by left|]. intros _. split; [done|]. intros _. split; [done|].
    symmetry. by apply Compare_zero. }
  destruct (_ && _) eqn:El in HA; [stop HA; split; [by left|done]|].
  assert (wb_wf (set_watermarks (<[peer := v]> (wb_watermarks b)) b)) as Hn.
  { apply wf_insert; try done. apply andb_false_iff in El as [El|El].
    - left. apply negb_false_iff, bool_decide_eq_true in El. done.
    - right. lia. }
  split; [right; by exists w1|].
  intros Hok. split; [done|]. intros _. split; [done|]. destruct res as [[]|]; [|done].
  unfold commit in HA. step_Ok HA. cbn [fst] in HA. step HA as [] [b3 w3] E3. apply io_eq in E3 as [-> _].
  injection HA as <- <-. unfold BookWatermark. cbn. by rewrite lookup_insert_eq.
Qed.

(** [Reconcile] and [Forget] are steps of the same kind. *)
Lemma Reconcile_run peer v b w res b' w' :
  wb_wf b → version_u64 v → Reconcile peer v (b, w) = (res, (b', w')) →
  (∃ next, book_step b w next res b' w') ∧
  (is_Ok res = true → BookWatermark b' peer = v) ∧
  ∀ p, p ≠ peer → BookWatermark b' p = BookWatermark b p.
Proof.
  intros Hb Hu HR. unfold Reconcile in HR.
  step HR as [] [b1 w1] E1; apply io_eq in E1 as [-> E1]; apply ctx_Err_fs in E1 as [Ew _];
    [|split_and!; [by exists ∅; left|done|done]].
  step_Ok HR. cbn [fst] in HR.
  step HR as [] [b2 w2] E2; injection E2 as Ep <- <-; [|split_and!; [by exists ∅; left|done|done]].
  case_bool_decide as Hsame.
  { stop HR. split_and!; [by exists ∅; left| |done]. intros _. unfold BookWatermark. by rewrite Hsame. }
  assert (∀ next, commit next (b, w1) = (res, (b', w')) → wb_wf (set_watermarks next b) →
    next !! peer = (if IsZero v then None else Some v) → (∀ p, p ≠ peer → next !! p = wb_watermarks b !! p) →
    (∃ next, book_step b w next res b' w') ∧ (is_Ok res = true → BookWatermark b' peer = v) ∧
    ∀ p, p ≠ peer → BookWatermark b' p = BookWatermark b p) as Hdone.
  { intros next HC Hn Hpeer Hother. split; [exists next; right; by exists w1|].
    unfold commit in HC. step_Ok HC. cbn [fst] in HC.
    step HC as [] [b3 w3] E3; apply io_eq in E3 as [-> E3].
    - injection HC as <- <- <-. unfold BookWatermark. cbn. split.
      + intros _. rewrite Hpeer. unfold IsZero. destruct (decide (v = zero_version)) as [Ez|Ez];
          [by rewrite bool_decide_eq_true_2|by rewrite bool_decide_eq_false_2].
      + intros p Hp. by rewrite Hother.
    - done. }
  unfold IsZero in *. case_bool_decide as Hz.
  - eapply Hdone; [done|by apply wf_delete|by rewrite lookup_delete_eq|]. intros p Hp. by rewrite lookup_delete_ne.
  - destruct (_ && _) eqn:El in HR; [stop HR; split_and!; [by exists ∅; left|done|done]|].
    eapply Hdone; [done| |by rewrite lookup_insert_eq|intros p Hp; by rewrite lookup_insert_ne].
    apply wf_insert; try done. apply andb_false_iff in El as [El|El]; [left|right; lia].
    by apply negb_false_iff, bool_decide_eq_true in El.
Qed.

Lemma Forget_run peer b w res b' w' :
  wb_wf b → Forget peer (b, w) = (res, (b', w')) →
  (∃ next, book_step b w next res b' w') ∧
  (is_Ok res = true → wb_watermarks b' = delete peer (wb_watermarks b)).
Proof.
  intros Hb HF. unfold Forget in HF.
  step HF as [] [b1 w1] E1; apply io_eq in E1 as [-> E1]; apply ctx_Err_fs in E1 as [Ew _];
    [|split; [by exists ∅; left|done]].
  step_Ok HF. cbn [fst] in HF.
  step HF as [] [b2 w2] E2; injection E2 as Ep <- <-; [|split; [by exists ∅; left|done]].
  case_bool_decide as Hn.
  { stop HF. split; [by exists ∅; left|]. intros _. by rewrite delete_id. }
  split; [eexists; right; exists w1; split_and!; [done|by apply wf_delete|done]|].
  intros Hok. destruct res as [[]|]; [|done]. unfold commit in HF. step_Ok HF. cbn [fst] in HF.
  step HF as [] [b3 w3] E3. apply io_eq in E3 as [-> _]. by injection HF as <- <-.
Qed.

Lemma check_peers_Ok b l :
  check_peers b l = Ok tt ↔ Forall (λ kv, validatePeer b kv.1 = Ok tt ∧ kv.2 ≠ zero_version) l.
Proof.
  induction l as [|[k v] l IH]; cbn; [split; [intros _; apply Forall_nil_2|done]|].
  rewrite Forall_cons, <- IH. cbn. destruct (validatePeer b k) as [[]|e]; [|naive_solver].
  rewrite guard_Ok. unfold IsZero. rewrite bool_decide_eq_false. naive_solver.
Qed.

Lemma validateState_Ok b m :
  validateState b (Some m) = Ok tt ↔
  Z.of_nat (size m) <= wb_maxPeers b ∧ map_Forall (λ k v, validatePeer b k = Ok tt ∧ v ≠ zero_version) m.
Proof.
  cbn. rewrite guard_Ok, Z.ltb_ge, check_peers_Ok, map_Forall_to_list. apply and_iff_compat_l.
  apply Forall_proper; [|done]. by intros [k v].
Qed.

Lemma dec_watermarks_u64 s j :
  dec_watermarks None j = Some s → ∀ m, s = Some m → map_Forall (λ _ v, version_u64 v) m.
Proof.
  intros Hd. refine (dec_struct_inv (λ s : watermarkState, ∀ m, s = Some m → map_Forall (λ _ v, version_u64 v) m)
    true _ None s j _ _ Hd); [|done].
  intros k d Hin o j' y Ho. rewrite elem_of_cons, elem_of_nil in Hin. destruct Hin as [[= _ ->]|[]].
  intros (x & Hx & ->)%field_inv m ->. unfold id in Hx. unfold dec_map in Hx.
  destruct j' as [|?|?|?|?|kvs]; try done.
  assert (∀ m0 m1, map_Forall (λ _ v, version_u64 v) m0 →
    dec_entries (dec_version true) zero_version m0 kvs = Some m1 → map_Forall (λ _ v, version_u64 v) m1) as He.
  { clear. induction kvs as [|[k v] kvs IH]; intros m0 m1 H0; cbn; [by intros [= <-]|].
    destruct (dec_version _ _ _) as [x|] eqn:Ex; [|done]. apply IH. apply map_Forall_insert_2; [|done].
    eapply dec_version_u64; [|done]. done. }
  destruct (dec_entries _ _ _ _) as [m1|] eqn:Em; [|done]. injection Hx as <-.
  eapply He; [|done]. destruct o as [m0|]; [by apply Ho|apply map_Forall_empty].
Qed.

(** An opened book is well formed and says what the file says. *)
Lemma OpenWatermarkBook_Ok path options w b w' :
  filepath_Clean path = path → OpenWatermarkBook path options w = (Ok b, w') →
  0 <= wb_maxPeers b ∧ wb_path b = path ∧ wb_wf b ∧ w_fs w' = w_fs w ∧ wb_saved b (file_at (w_fs w) path).
Proof.
  intros Hp HO. unfold OpenWatermarkBook in HO. case_bool_decide; [stop HO|].
  set (opts := watermark_options_normalized options) in *. set (book := mkWatermarkBook _ _ _ _ _) in *.
  assert (0 <= wb_maxPeers book).
  { cbn. unfold or_default, DefaultMaxRepairPeers. case_match; lia. }
  cbv zeta in HO. step HO as loaded w1 E1. apply loadState_run in E1 as [Ew Hl].
  destruct loaded as [state|].
  - destruct Hl as (data & Hf & Hparse). step HO as [] w2 E2. injection E2 as Hv <-. stop HO. rewrite Hf.
    destruct state as [m|]; [|done]. apply validateState_Ok in Hv as [Hs Hm]. cbn [default set_watermarks wb_path].
    split_and!; try done. split; [done| |done]. intros k v Hkv.
    assert (version_u64 v) as Hu.
    { refine (parseState_inv (λ s : watermarkState, ∀ m, s = Some m → map_Forall (λ _ v, version_u64 v) m)
        _ _ _ _ _ _ _ Hparse m eq_refl k v Hkv). intros j x Hd. by apply (dec_watermarks_u64 x j). }
    destruct (Hm k v Hkv) as [? ?]. done.
  - stop HO. rewrite Hl. by split_and!.
Qed.

(** A coordinator method runs the book's method, or leaves everything alone. *)
Lemma coordinator_run (m : M (WatermarkBook * world) unit) peer v c w res c' w' :
  (io ctx_Err ;;
   c <- self ;
   lift (validatePeer (rc_watermarks c) peer) ;;
   (if negb (IsZero v) && (0 <? Compare v (LastVersion (rc_journal c))) then throw ErrRepairAcknowledgement
    else on_book m)) (c, w) = (res, (c', w')) →
  (is_Ok res = false ∧ c' = c ∧ w_fs w' = w_fs w) ∨
  (v = zero_version ∨ version_le v (LastVersion (rc_journal c))) ∧
  ∃ w1 b', w_fs w1 = w_fs w ∧ m (rc_watermarks c, w1) = (res, (b', w')) ∧
    c' = mkRepairCoordinator (rc_journal c) b' (rc_limits c).
Proof.
  intros HR. step HR as [] [c1 w1] E1; apply io_eq in E1 as [-> E1]; apply ctx_Err_fs in E1 as [Ew _]; [|by left].
  step_Ok HR. cbn [fst] in HR. step HR as [] [c2 w2] E2; injection E2 as Ep <- <-; [|by left].
  destruct (negb _ && _) eqn:Ec in HR; [stop HR; by left|]. right. split.
  - apply andb_false_iff in Ec as [Ec|Ec].
    + left. unfold IsZero in Ec. by apply negb_false_iff, bool_decide_eq_true in Ec.
    + right. unfold version_le. lia.
  - unfold on_book, zoom in HR. cbn [fst snd] in HR. destruct (m (rc_watermarks c, w1)) as [r [b' w2]] eqn:Em.
    injection HR as <- <- <-. exists w1, b'. done.
Qed.
End watermark_facts.

(** ** Properties *)

(** C16: Acknowledgements are monotonic and durable.  No watermark of any peer
    ever decreases through [Acknowledge]; a success makes the peer's watermark
    the acknowledged version (unless that is zero), and whenever the book
    changed, every crash finds a file that decodes to exactly the book; a
    failure leaves the book alone, and a crash finds what it could have found
    before or the acknowledged state.  The book's invariant is kept. *)
Theorem Acknowledge_monotonic `{UnicodePrint} peer v b w res b' w'
    (Hwf : fs_wf (w_fs w)) (Hb : wb_wf b) (Hu : version_u64 v)
    (Hrun : Acknowledge peer v (b, w) = (res, (b', w'))) :
  wb_wf b' ∧ fs_wf (w_fs w') ∧
  (∀ p, version_le (BookWatermark b p) (BookWatermark b' p)) ∧
  match res with
  | Ok _ => (v ≠ zero_version → BookWatermark b' peer = v) ∧
      (b' = b ∧ w_fs w' = w_fs w ∨ ∀ c, crash_at (w_fs w') (wb_path b) c → c ≠ None ∧ wb_saved b' c)
  | Err _ => b' = b ∧ ∀ c, crash_at (w_fs w') (wb_path b) c → crash_at (w_fs w) (wb_path b) c ∨
      wb_saved (set_watermarks (<[peer := v]> (wb_watermarks b)) b) c
  end.
Proof.
  destruct (Acknowledge_run _ _ _ _ _ _ _ Hb Hu Hrun) as (Hstep & Hok).
  destruct Hstep as [[-> Ew]|(w1 & Ew1 & Hn & HC)].
  - split_and!; [done|by rewrite Ew|done|]. rewrite Ew. destruct res as [[]|]; [|auto].
    split; [|auto]. intros Hz. by apply Hok.
  - apply commit_run in HC as [Hwf' Hres]; [|by rewrite Ew1|done|done]. rewrite Ew1 in Hres.
    destruct res as [[]|e]; destruct Hres as [-> Hc]; [|by split_and!].
    assert (v ≠ zero_version) as Hz.
    { destruct (wb_entries _ Hn peer v) as (_ & ? & _); [apply lookup_insert_eq|done]. }
    destruct (Hok eq_refl) as [_ [Hle Heq]]; [done|].
    split; [done|]. split; [done|]. split; [|split; [intros _; exact Heq|by right]]. intros p. unfold BookWatermark. cbn.
    destruct (decide (p = peer)) as [->|Hne]; [by rewrite lookup_insert_eq|by rewrite lookup_insert_ne].
Qed.

(** The book survives restarts.  A book opened from its file is well formed
    and holds exactly the file's entries; and, without faults, opening the file
    of a well-formed book that has been saved returns the same book. *)
Theorem WatermarkBook_reopen `{UnicodePrint} b w options (Hq : quiet w) (Hb : wb_wf b)
    (Hpath : wb_path b ≠ []) (Hsaved : wb_saved b (file_at (w_fs w) (wb_path b)))
    (Ho : watermark_options_normalized options = mkWatermarkOptions (wb_maxPeers b) (wb_maxPeerID b) (wb_maxBytes b)) :
  OpenWatermarkBook (wb_path b) options w = (Ok b, w).
Proof.
  unfold OpenWatermarkBook. rewrite bool_decide_eq_false_2 by done. rewrite Ho. cbv zeta.
  destruct b as [p mp mi mb m]. unfold wb_saved in Hsaved.
  cbn [WMaxPeers WMaxPeerIDBytes WMaxBytes wb_path wb_maxPeers wb_maxPeerID wb_maxBytes wb_watermarks] in *.
  unfold loadState, attempt. unfold bind at 1. rewrite os_ReadFile_quiet by done.
  destruct (file_at (w_fs w) p) as [data|].
  - rewrite Hsaved. erewrite bind_step_Ok by reflexivity. cbn [ret].
    erewrite bind_step_Ok; [done|]. unfold lift.
    rewrite (proj2 (validateState_Ok _ _)); [done|]. split; [apply Hb|].
    intros k v Hkv. destruct (wb_entries _ Hb k v Hkv) as (? & ? & _). done.
  - cbn. by rewrite Hsaved.
Qed.

(** The coordinator never records more than the journal holds.  Whatever a
    peer acknowledges or reconciles, its watermark afterwards is at most the
    last version of the local journal, unless it was above before. *)
Theorem coordinator_bounded `{UnicodePrint} peer v c w res c' w' (Hb : wb_wf (rc_watermarks c)) (Hu : version_u64 v)
    (Hrun : CoordinatorAcknowledge peer v (c, w) = (res, (c', w')) ∨ CoordinatorReconcile peer v (c, w) = (res, (c', w'))) :
  rc_journal c' = rc_journal c ∧ rc_limits c' = rc_limits c ∧
  (∀ p, p ≠ peer → BookWatermark (rc_watermarks c') p = BookWatermark (rc_watermarks c) p) ∧
  (BookWatermark (rc_watermarks c') peer = BookWatermark (rc_watermarks c) peer ∨
   v = zero_version ∧ BookWatermark (rc_watermarks c') peer = zero_version ∨
   BookWatermark (rc_watermarks c') peer = v ∧ version_le v (LastVersion (rc_journal c))).
Proof.
  assert (∀ b' res0 w0, Acknowledge peer v (rc_watermarks c, w0) = (res0, (b', w')) ∨
                        Reconcile peer v (rc_watermarks c, w0) = (res0, (b', w')) →
    (∀ p, p ≠ peer → BookWatermark b' p = BookWatermark (rc_watermarks c) p) ∧
    (BookWatermark b' peer = BookWatermark (rc_watermarks c) peer ∨ BookWatermark b' peer = v)) as Hbook.
  { intros b' res0 w0 [HA|HR].
    - apply Acknowledge_run in HA as [Hs _]; [|done..].
      destruct Hs as [[-> _]|(w1 & _ & _ & HC)]; [auto|]. unfold commit in HC. step_Ok HC. cbn [fst] in HC.
      step HC as [] [b3 w3] E3; apply io_eq in E3 as [-> E3]; [|auto]. injection HC as <- <- <-.
      unfold BookWatermark. cbn. rewrite lookup_insert_eq. split; [|auto]. intros p Hp. by rewrite lookup_insert_ne.
    - apply Reconcile_run in HR as (Hs & Hok & Hother); [|done..]. split; [done|].
      destruct res0 as [[]|e]; [right; by apply Hok|left].
      destruct Hs as (next & [[-> _]|(w1 & _ & _ & HC)]); [done|]. unfold commit in HC. step_Ok HC. cbn [fst] in HC.
      step HC as [] [b3 w3] E3; apply io_eq in E3 as [-> E3]; [stop HC|done]. }
  destruct Hrun as [HR|HR]; apply coordinator_run in HR as [(_ & -> & _)|(Hv & w1 & b' & _ & Hm & ->)]; try (by auto);
    cbn [rc_journal rc_watermarks rc_limits]; edestruct Hbook as [Hother Hpeer]; eauto;
    (split_and!; [done|done|done|]); (destruct Hpeer as [?|Hp]; [by left|right]);
    (destruct Hv as [->|Hv]; [left; done|right; done]).
Qed.

(** *** Concrete runs *)

#[local] Existing Instance ascii_print.

Definition ex_book : WatermarkBook := mkWatermarkBook (lit "state/acks") 2 16 4096 ∅.
#[local] Abbreviation ex_acked := (Acknowledge (lit "node-b") (mkVersion 1 7) (ex_book, ex_world [])).

Lemma ex_book_wf : wb_wf ex_book.
Proof. split; [vm_compute; reflexivity|apply map_Forall_empty|done]. Qed.
Lemma ex_acked_eq : ex_acked = (Ok tt, (ex_acked.2.1, ex_acked.2.2)).
Proof. apply run_eq2. vm_compute. reflexivity. Qed.
Lemma ex_acked_facts : wb_wf ex_acked.2.1 ∧ fs_wf (w_fs ex_acked.2.2).
Proof.
  destruct (Acknowledge_run (lit "node-b") (mkVersion 1 7) ex_book (ex_world []) (Ok tt) ex_acked.2.1 ex_acked.2.2
    ex_book_wf ltac:(decide_now) ex_acked_eq) as [[[Hb _]|(w1 & Ew & Hn & HC)] _].
  { assert (size (wb_watermarks ex_acked.2.1) = 1%nat) as Hs by (vm_compute; reflexivity). by rewrite Hb in Hs. }
  apply commit_run in HC as [Hwf [-> _]]; [done|rewrite Ew; exact fs_wf_empty|exact ex_book_wf|done].
Qed.

Lemma Acknowledge_monotonic_witness :
  BookWatermark ex_acked.2.1 (lit "node-b") = mkVersion 1 7 ∧
  (Acknowledge (lit "node-b") (mkVersion 1 6) ex_acked.2).1 = Err ErrWatermarkRegression.
Proof.
  destruct (Acknowledge_monotonic (lit "node-b") (mkVersion 1 7) ex_book (ex_world []) (Ok tt) ex_acked.2.1 ex_acked.2.2)
    as (_ & _ & _ & Hv & _); [exact fs_wf_empty|exact ex_book_wf|decide_now|exact ex_acked_eq|].
  split; [apply Hv; discriminate|vm_compute; reflexivity].
Defined.

Lemma WatermarkBook_reopen_witness :
  OpenWatermarkBook (lit "state/acks") (mkWatermarkOptions 2 16 4096) ex_acked.2.2 = (Ok ex_acked.2.1, ex_acked.2.2).
Proof.
  assert (wb_path ex_acked.2.1 = lit "state/acks") as Ep by (vm_compute; reflexivity). rewrite <- Ep at 1.
  apply (WatermarkBook_reopen ex_acked.2.1 ex_acked.2.2 (mkWatermarkOptions 2 16 4096));
    [decide_now|exact (proj1 ex_acked_facts)|rewrite Ep; discriminate|decide_now|vm_compute; reflexivity].
Defined.

Definition ex_coordinator : RepairCoordinator := mkRepairCoordinator ex_appended.1 ex_book ex_repair_limits.
#[local] Abbreviation ex_over := (CoordinatorAcknowledge (lit "node-b") (mkVersion 1 2) (ex_coordinator, ex_appended.2)).

Lemma coordinator_bounded_witness :
  ex_over.1 = Err ErrRepairAcknowledgement ∧ BookWatermark (rc_watermarks ex_over.2.1) (lit "node-c") = zero_version.
Proof.
  split; [vm_compute; reflexivity|].
  destruct (coordinator_bounded (lit "node-b") (mkVersion 1 2) ex_coordinator ex_appended.2 ex_over.1 ex_over.2.1 ex_over.2.2)
    as (_ & _ & Hother & _); [exact ex_book_wf|decide_now|left; apply run_eq2; reflexivity|].
  rewrite Hother by (vm_compute; discriminate). reflexivity.
Defined.
