(* ===== verification/Authority.v ===== *)
(** * The durable allocator of version tokens

    internal/lifecycle/authority.go: one process at a time allocates a totally
    ordered stream of versions for its authority identity.  A token is persisted
    before it is returned, so that no token is ever issued twice, whatever fails
    and wherever the process crashes. *)
From S2P Require Import Prelude Go Bits Text Json Os Model Codec Journal Transport Repair StateFile.

Definition DefaultMaxAuthorityStateBytes : Z := 1048576.
Definition MaxUint64 : Z := 2 ^ 64 - 1.

Record AuthorityOptions := mkAuthorityOptions { ALimits : Limits; AMaxBytes : Z; Observed : Version }.
Definition authority_options_normalized (o : AuthorityOptions) : AuthorityOptions :=
  mkAuthorityOptions (normalized (ALimits o)) (or_default (AMaxBytes o) DefaultMaxAuthorityStateBytes) (Observed o).

Record authorityState := mkAuthorityState { SAuthorityID : bytes; SVersion : Version }.
Definition zero_authorityState : authorityState := mkAuthorityState [] zero_version.

Definition json_authority (s : authorityState) : json :=
  JObj [(lit "authority_id", JStr (SAuthorityID s)); (lit "version", json_version (SVersion s))].
Definition dec_authority : decoder authorityState :=
  dec_struct true
    [(lit "authority_id", field SAuthorityID (λ x s, mkAuthorityState x (SVersion s)) dec_string);
     (lit "version", field SVersion (λ x s, mkAuthorityState (SAuthorityID s) x) (dec_version true))].

Definition authority_errors : StateErrors :=
  mkStateErrors ErrAuthorityCorrupt ErrAuthorityChecksum ErrAuthorityLimit.

Record Authority := mkAuthority {
  a_path : bytes;
  a_authorityID : bytes;
  a_limits : Limits;
  a_maxBytes : Z;
  a_current : Version
}.
Definition set_current (v : Version) (a : Authority) : Authority :=
  mkAuthority (a_path a) (a_authorityID a) (a_limits a) (a_maxBytes a) v.

(** [io.ReadFull(cryptorand.Reader, raw)]: the eight bytes, or an error. *)
Definition initialAuthorityVersion (random : result bytes) (observed : Version) : result Version :=
  if negb (Epoch observed =? 0) then Ok observed
  else
    raw <-? random ;
    let epoch := be_get raw in
    Ok (mkVersion (if epoch =? 0 then 1 else epoch) 0).

Definition incrementAuthorityVersion (current : Version) : result Version :=
  if Epoch current =? 0 then Err ErrAuthorityVersion
  else if Sequence current <? MaxUint64 then Ok (mkVersion (Epoch current) (Sequence current + 1))
  else if Epoch current =? MaxUint64 then Err ErrAuthorityExhausted
  else Ok (mkVersion (Epoch current + 1) 1).

Definition validateAuthorityVersion (version : Version) : result unit :=
  if Epoch version =? 0 then Err ErrAuthorityVersion else Ok tt.

Definition authority_state (a : Authority) : authorityState := mkAuthorityState (a_authorityID a) (a_current a).
Definition persistAuthority (a : Authority) : M world unit :=
  persistState authority_errors (a_path a) (a_maxBytes a) (json_authority (authority_state a)).

Section authority.
Context `{UnicodePrint}.

Definition OpenAuthority (random : result bytes) (path authorityID : bytes) (options : AuthorityOptions)
    : M world Authority :=
  if bool_decide (path = []) then throw ErrNilAuthorityPath
  else
    let options := authority_options_normalized options in
    lift (validateAuthorityID authorityID (ALimits options)) ;;
    ctx_Err ;;
    let authority := mkAuthority path authorityID (ALimits options) (AMaxBytes options) zero_version in
    loaded <- loadState authority_errors dec_authority zero_authorityState path (a_maxBytes authority) ;
    match loaded with
    | None =>
        current <- lift (initialAuthorityVersion random (Observed options)) ;
        let authority := set_current current authority in
        persistAuthority authority ;;
        ret authority
    | Some state =>
        if negb (bool_decide (SAuthorityID state = authorityID)) then throw ErrAuthorityMismatch
        else
          lift (validateAuthorityVersion (SVersion state)) ;;
          let authority := set_current (SVersion state) authority in
          if 0 <? Compare (Observed options) (a_current authority) then
            let authority := set_current (Observed options) authority in
            if Epoch (a_current authority) =? 0 then throw ErrAuthorityVersion
            else persistAuthority authority ;; ret authority
          else ret authority
    end.
End authority.

(** [current] moves before the token is persisted: a failure consumes it. *)
Definition Next (observed : Version) : M (Authority * world) Version :=
  io ctx_Err ;;
  a <- self ;
  let adopt := 0 <? Compare observed (a_current a) in
  if adopt && (Epoch observed =? 0) then throw ErrAuthorityVersion
  else
    (if adopt then update (set_current observed) else ret tt) ;;
    a <- self ;
    next <- lift (incrementAuthorityVersion (a_current a)) ;
    update (set_current next) ;;
    a <- self ;
    io (persistAuthority a) ;;
    ret next.

Definition Current (a : Authority) : Version := a_current a.

(** ** The file format *)

Definition good_authority (s : authorityState) : Prop :=
  utf8_ValidString (SAuthorityID s) = true ∧ version_u64 (SVersion s).

#[export] Instance authority_codec : StateCodec json_authority dec_authority zero_authorityState good_authority.
Proof.
  assert (∀ s, good_authority s → json_ok (json_authority s) ∧ json_depth (json_authority s) <= 2) as Hok.
  { intros s [Hid Hv]. apply (json_fields_ok _ 1); [done|]. fields_ok; try done. by apply json_version_ok. }
  split; intros s Hs.
  - by apply Hok.
  - destruct (Hok s Hs) as [_ Hd]. unfold max_depth. lia.
  - destruct Hs as [_ Hv]. unfold dec_authority, json_authority, dec_struct.
    json_member; [|reflexivity]. json_member; [|by apply dec_version_json]. by destruct s.
Qed.

(** ** Facts *)

Section authority_facts.
Context `{UnicodePrint}.

(** The later of two versions. *)
Definition version_max (v w : Version) : Version := if 0 <? Compare v w then v else w.

Lemma version_max_le v w : version_le v (version_max v w) ∧ version_le w (version_max v w).
Proof.
  unfold version_max. destruct (0 <? Compare v w) eqn:E; bool_to_prop.
  - apply Compare_gt in E. split; [done|by apply version_lt_le].
  - split; [|done]. unfold version_le. lia.
Qed.
Lemma version_max_u64 v w : version_u64 v → version_u64 w → version_u64 (version_max v w).
Proof. unfold version_max. by case_match. Qed.

Lemma increment_Ok v next :
  version_u64 v → incrementAuthorityVersion v = Ok next →
  version_lt v next ∧ version_u64 next ∧ Epoch next ≠ 0 ∧ Epoch v ≠ 0.
Proof.
  intros [He Hs]. unfold incrementAuthorityVersion, MaxUint64. rewrite guard_Ok. intros [H0 Hn]. bool_to_prop.
  rewrite version_lt_eq. unfold version_u64. case_match; bool_to_prop; [injection Hn as <-; cbn; lia|].
  apply guard_Ok in Hn as [Hm Hn]. injection Hn as <-. bool_to_prop. cbn. lia.
Qed.

(** The type invariant: the identity is valid, the current version is one the
    allocator may start from. *)
Record authority_wf (a : Authority) : Prop := {
  au_path : filepath_Clean (a_path a) = a_path a;
  au_id : utf8_ValidString (a_authorityID a) = true;
  au_u64 : version_u64 (a_current a);
  au_epoch : Epoch (a_current a) ≠ 0
}.

Lemma wf_set_current v a : authority_wf a → version_u64 v → Epoch v ≠ 0 → authority_wf (set_current v a).
Proof. intros [? ? _ _] ? ?. by split. Qed.
Lemma wf_state a : authority_wf a → good_authority (authority_state a).
Proof. intros [? ? ? ?]. by split. Qed.

(** The file is the one that is written for this state. *)
Definition holds (maxBytes : Z) (s : authorityState) (c : option bytes) : Prop :=
  ∃ data, image_of json_authority maxBytes s data ∧ c = Some data.

Lemma persistAuthority_run a w r w' :
  fs_wf (w_fs w) → authority_wf a → persistAuthority a w = (r, w') →
  fs_wf (w_fs w') ∧
  match r with
  | Ok _ => holds (a_maxBytes a) (authority_state a) (file_at (w_fs w') (a_path a)) ∧
      ∀ c, crash_at (w_fs w') (a_path a) c → holds (a_maxBytes a) (authority_state a) c
  | Err _ => ∀ c, crash_at (w_fs w') (a_path a) c → crash_at (w_fs w) (a_path a) c ∨ holds (a_maxBytes a) (authority_state a) c
  end.
Proof.
  intros Hwf Ha HP. apply persistState_run in HP as (Hk & Hr & _); [|done|apply Ha].
  split; [apply Hk|]. destruct r as [[]|e].
  - destruct Hr as (data & Hi & Hf & Hc). split; [by exists data|].
    intros c ->%Hc. by exists data.
  - intros c Hc. destruct (Hr c Hc) as [?|(data & Hi & ->)]; [by left|right]. by exists data.
Qed.

(** Every run of [Next]: nothing happened, or [next] was persisted or not. *)
Lemma Next_run observed a w res a' w' :
  fs_wf (w_fs w) → authority_wf a → version_u64 observed → Next observed (a, w) = (res, (a', w')) →
  fs_wf (w_fs w') ∧ authority_wf a' ∧ version_le (a_current a) (a_current a') ∧
  a' = set_current (a_current a') a ∧
  match res with
  | Ok v => incrementAuthorityVersion (version_max observed (a_current a)) = Ok v ∧ a_current a' = v ∧
      ∀ c, crash_at (w_fs w') (a_path a) c → holds (a_maxBytes a') (authority_state a') c
  | Err _ => ∀ c, crash_at (w_fs w') (a_path a) c →
      crash_at (w_fs w) (a_path a) c ∨ holds (a_maxBytes a') (authority_state a') c
  end.
Proof.
  intros Hwf Ha Hu HN. unfold Next in HN. assert (a = set_current (a_current a) a) as Eset by by destruct a.
  step HN as [] [a1 w1] E1; apply io_eq in E1 as [-> E1]; apply ctx_Err_fs in E1 as [Ew _].
  2:{ rewrite Ew. split_and!; try done. by left. }
  step_Ok HN. cbn [fst] in HN. cbv zeta in HN. unfold version_max.
  set (adopt := 0 <? Compare observed (a_current a)) in *.
  destruct (adopt && _) eqn:Eg in HN; [stop HN; rewrite Ew; split_and!; try done; by left|].
  set (base := if adopt then observed else a_current a).
  assert (authority_wf (set_current base a) ∧ version_le (a_current a) base) as [Hbase Hle].
  { unfold base. destruct adopt eqn:Ead; [|by rewrite <- Eset]. cbn [andb] in Eg. bool_to_prop.
    split; [by apply wf_set_current|]. apply version_lt_le, Compare_gt. unfold adopt in Ead. lia. }
  assert ((if adopt then update (set_current observed) else ret tt) (a, w1) = (Ok tt, (set_current base a, w1))) as Eu.
  { unfold base. destruct adopt; [done|]. by rewrite <- Eset. }
  rewrite (bind_step_Ok _ _ _ _ _ Eu) in HN. step_Ok HN. cbn [fst] in HN.
  assert (version_le (a_current a) (a_current (set_current base a))) as Hle' by done.
  step HN as next [a2 w2] E2; injection E2 as Einc <- <-.
  2:{ rewrite Ew. split_and!; try done. by left. }
  cbn [set_current a_current] in Einc. destruct (increment_Ok base next) as (Hlt & Hnu & Hne & _); [apply Hbase|done|].
  step_Ok HN. step_Ok HN. cbn [fst snd] in HN.
  assert (authority_wf (set_current next a)) as Hn by by apply wf_set_current.
  change (set_current next (set_current base a)) with (set_current next a) in HN.
  step HN as [] [a3 w3] E3; apply io_eq in E3 as [-> E3]; apply persistAuthority_run in E3 as [Hwf' Hr];
    try (by rewrite Ew); try done; rewrite ?Ew in Hr;
    (assert (version_le (a_current a) next) by (by eapply version_lt_le, version_le_lt_trans)).
  - injection HN as <- <- <-. split_and!; [done..|apply Hr].
  - split_and!; done.
Qed.

Lemma dec_authority_u64 j s : dec_authority zero_authorityState j = Some s → version_u64 (SVersion s).
Proof.
  apply (dec_struct_inv (λ s, version_u64 (SVersion s))); [|done]. intros k d Hin o j' y Ho.
  rewrite !elem_of_cons, elem_of_nil in Hin. destruct Hin as [[= _ ->]|[[= _ ->]|[]]];
    intros (x & Hx & ->)%field_inv; [done|]. by eapply dec_version_u64.
Qed.

Lemma validateAuthorityID_utf8 id l : validateAuthorityID id l = Ok tt → utf8_ValidString id = true.
Proof. unfold validateAuthorityID. rewrite !guard_Ok. intros (_ & _ & Hid & _). by apply negb_false_iff. Qed.

(** The random source fills eight bytes or fails. *)
Definition random_ok (random : result bytes) : Prop := ∀ raw, random = Ok raw → length raw = 8%nat.

Lemma initial_Ok random observed v :
  random_ok random → version_u64 observed → initialAuthorityVersion random observed = Ok v →
  version_u64 v ∧ Epoch v ≠ 0 ∧ version_le observed v.
Proof.
  intros Hr Hu. unfold initialAuthorityVersion. destruct (Epoch observed =? 0) eqn:E; cbn [negb].
  2:{ intros [= <-]. bool_to_prop. done. }
  intros (raw & Hraw & [= <-])%rbind_Ok. specialize (Hr raw Hraw). pose proof (be_get_range raw) as Hb.
  assert (len raw = 8) as Hl by (unfold len; lia). rewrite Hl in Hb. change (256 ^ 8) with (2 ^ 64) in Hb.
  bool_to_prop. unfold version_u64. rewrite version_le_eq. cbn [Epoch Sequence].
  case_match; bool_to_prop; lia.
Qed.

(** What was stored before is not above the version [a] starts from. *)
Definition adopts (f : fs) (a : Authority) : Prop :=
  ∀ data, file_at f (a_path a) = Some data → ∃ s,
    parseState authority_errors dec_authority zero_authorityState (a_maxBytes a) data = Ok s ∧
    SAuthorityID s = a_authorityID a ∧ version_le (SVersion s) (a_current a).

(** Every run of [OpenAuthority]: it fails without effect, or it has settled on
    an authority [a], which it may have had to persist. *)
Lemma OpenAuthority_run random path authorityID options w res w' :
  fs_wf (w_fs w) → filepath_Clean path = path → random_ok random → version_u64 (Observed options) →
  OpenAuthority random path authorityID options w = (res, w') →
  fs_wf (w_fs w') ∧
  (is_Ok res = false ∧ w_fs w' = w_fs w ∨
   ∃ a, authority_wf a ∧ a_path a = path ∧ a_authorityID a = authorityID ∧ (∀ a', res = Ok a' → a' = a) ∧
     adopts (w_fs w) a ∧ version_le (Observed options) (a_current a) ∧
     (∀ c, crash_at (w_fs w') path c → crash_at (w_fs w) path c ∨ holds (a_maxBytes a) (authority_state a) c) ∧
     (is_Ok res = true → file_at (w_fs w) path = None → holds (a_maxBytes a) (authority_state a) (file_at (w_fs w') path))).
Proof.
  intros Hwf Hp Hr Hu HO. unfold OpenAuthority in HO. case_bool_decide; [stop HO; auto|].
  cbv zeta in HO. set (opts := authority_options_normalized options) in *.
  change (Observed opts) with (Observed options) in HO.
  step HO as [] w1 E1; injection E1 as Hid <-; [|auto]. apply validateAuthorityID_utf8 in Hid.
  step HO as [] w1 E1; apply ctx_Err_fs in E1 as [Ew1 _]; [|rewrite Ew1; auto].
  step HO as loaded w2 E2; apply loadState_run in E2 as [Ew2 Hl]; rewrite Ew1 in Ew2; [|rewrite Ew2; auto].
  rewrite Ew1 in Hl. set (mk := mkAuthority path authorityID (ALimits opts) (AMaxBytes opts)) in *.
  change (set_current ?v (mk zero_version)) with (mk v) in HO. cbn [a_maxBytes mk] in Hl.
  assert (∀ a, authority_wf a → a_path a = path → a_authorityID a = authorityID → adopts (w_fs w) a →
    version_le (Observed options) (a_current a) → (persistAuthority a ;; ret a) w2 = (res, w') →
    fs_wf (w_fs w') ∧ (is_Ok res = false ∧ w_fs w' = w_fs w ∨
     ∃ a, authority_wf a ∧ a_path a = path ∧ a_authorityID a = authorityID ∧ (∀ a', res = Ok a' → a' = a) ∧
     adopts (w_fs w) a ∧ version_le (Observed options) (a_current a) ∧
     (∀ c, crash_at (w_fs w') path c → crash_at (w_fs w) path c ∨ holds (a_maxBytes a) (authority_state a) c) ∧
     (is_Ok res = true → file_at (w_fs w) path = None → holds (a_maxBytes a) (authority_state a) (file_at (w_fs w') path))))
    as Hpersist.
  { intros a Ha Hpa Hia Had Hob HP. step HP as [] w3 E3; apply persistAuthority_run in E3 as [Hwf' Hres];
      try (by rewrite Ew2); try done; rewrite Hpa, ?Ew2 in Hres.
    - injection HP as <- <-. split; [done|right; exists a].
      split_and!; try done; try (by intros a' [= ->]); destruct Hres as [Hfile Hcrash]; [|done].
      intros c Hc. right. by apply Hcrash.
    - split; [done|right; exists a]. by split_and!. }
  destruct loaded as [state|].
  - destruct Hl as (data & Hf & Hparse). case_bool_decide as Hsid; cbn [negb] in HO; [|stop HO; rewrite Ew2; auto].
    step HO as [] w3 E3; injection E3 as Hv <-; [|rewrite Ew2; auto].
    unfold validateAuthorityVersion in Hv. rewrite guard_Ok in Hv. destruct Hv as [Hv _]. bool_to_prop.
    apply (parseState_inv (λ s, version_u64 (SVersion s))) in Hparse as Hsu; [|apply dec_authority_u64].
    cbn [mk a_current] in HO. destruct (0 <? _) eqn:Eo in HO.
    + destruct (_ =? 0) eqn:Ez in HO; [stop HO; rewrite Ew2; auto|]. bool_to_prop.
      eapply (Hpersist (mk (Observed options))); try done. cbn [mk a_path]. intros d Hd. exists state.
      change (file_at (w_fs w) path = Some d) in Hd. rewrite Hf in Hd. injection Hd as <-. split_and!; [done|done|]. by apply version_lt_le, Compare_gt.
    + stop HO. rewrite Ew2. split; [done|right]. exists (mk (SVersion state)). bool_to_prop.
      split_and!; try done; try (by intros a' [= ->]); try (by left); try (by rewrite Hf).
      intros d Hd. exists state. change (file_at (w_fs w) path = Some d) in Hd. rewrite Hf in Hd. injection Hd as <-. by split_and!.
  - step HO as current w3 E3; injection E3 as Hi <-; [|rewrite Ew2; auto].
    apply initial_Ok in Hi as (Hcu & Hce & Hle); [|done..].
    eapply (Hpersist (mk current)); try done. intros d Hd. change (file_at (w_fs w) path = Some d) in Hd. by rewrite Hl in Hd.
Qed.
End authority_facts.

(** ** The life of one allocator *)

(** The disk, the running allocator if there is one, and every token that
    [Next] has returned so far, the newest first. *)
Record allocator := mkAllocator { al_fs : fs; al_live : option Authority; al_issued : list Version }.

(** The file system after a restart: nothing of the path is in flight. *)
Record restarted (f : fs) (path : bytes) (c : option bytes) : Prop := {
  rs_wf : fs_wf f;
  rs_crash : ∀ c', crash_at f path c' → c' = c
}.

Definition opened {A} (res : result A) : option A := match res with Ok a => Some a | Err _ => None end.
Definition issue (res : result Version) (l : list Version) : list Version :=
  match res with Ok v => v :: l | Err _ => l end.

(** Each call runs under a context and system calls of its own, which may fail
    anywhere; a crash takes the process away and leaves one of the contents the
    file may have. *)
Inductive alloc_step `{UnicodePrint} (path : bytes) : allocator → allocator → Prop :=
  | step_open random id options ctx os f issued res w' :
      random_ok random → version_u64 (Observed options) →
      OpenAuthority random path id options (World ctx os f) = (res, w') →
      alloc_step path (mkAllocator f None issued) (mkAllocator (w_fs w') (opened res) issued)
  | step_next observed ctx os f a issued res a' w' :
      version_u64 observed →
      Next observed (a, World ctx os f) = (res, (a', w')) →
      alloc_step path (mkAllocator f (Some a) issued) (mkAllocator (w_fs w') (Some a') (issue res issued))
  | step_exit f a issued :
      alloc_step path (mkAllocator f (Some a) issued) (mkAllocator f None issued)
  | step_crash f live issued c f' :
      crash_at f path c → restarted f' path c →
      alloc_step path (mkAllocator f live issued) (mkAllocator f' None issued).

(** A token is covered by what may be found on the disk. *)
Definition covered (v : Version) (c : option bytes) : Prop :=
  ∃ maxBytes s, good_authority s ∧ holds maxBytes s c ∧ version_le v (SVersion s).

Record alloc_inv (path : bytes) (s : allocator) : Prop := {
  ai_wf : fs_wf (al_fs s);
  ai_live : ∀ a, al_live s = Some a → authority_wf a ∧ a_path a = path ∧
              Forall (λ v, version_le v (a_current a)) (al_issued s);
  ai_disk : Forall (λ v, ∀ c, crash_at (al_fs s) path c → covered v c) (al_issued s);
  ai_sorted : StronglySorted (λ v w, version_lt w v) (al_issued s)
}.

Section allocator_facts.
Context `{UnicodePrint}.

Lemma covered_adopted f a v :
  covered v (file_at f (a_path a)) → adopts f a → version_le v (a_current a).
Proof.
  intros (mb & s & Hg & (data & Hi & Hf) & Hle) Had. destruct (Had data Hf) as (s' & Hp & _ & Hle').
  apply (parseState_image_eq json_authority _ _ good_authority _ mb _ s) in Hp as ->; [|done..].
  by etrans.
Qed.

Lemma alloc_step_inv path s s' :
  filepath_Clean path = path → alloc_inv path s → alloc_step path s s' → alloc_inv path s'.
Proof.
  intros Hpath [Hwf Hlive Hdisk Hsort] Hstep.
  destruct Hstep as [random id options ctx os f issued res w' Hr Hu HO|observed ctx os f a issued res a' w' Hu HN
                    |f a issued|f live issued c f' Hc [Hwf' Hc']]; cbn [al_fs al_live al_issued] in *.
  - apply OpenAuthority_run in HO as [Hwf' [[He Ef]|(a & Ha & Hp & _ & Hres & Had & _ & Hcr & _)]]; [| |done..].
    { rewrite Ef. cbn [w_fs]. split; try done. by destruct res. }
    assert (Forall (λ v, version_le v (a_current a)) issued) as Hcur.
    { eapply Forall_impl; [exact Hdisk|]. cbn. intros v Hv. apply (covered_adopted f); [|done].
      rewrite Hp. apply Hv, crash_at_file. }
    split; cbn [al_fs al_live al_issued]; try done.
    + intros a' Ea. destruct res as [a''|]; [|done]. injection Ea as ->. by rewrite (Hres a' eq_refl).
    + apply Forall_forall. intros v Hv c Hc. rewrite Forall_forall in Hdisk, Hcur.
      destruct (Hcr c Hc) as [Hold|Hnew]; [by apply (Hdisk v)|]. exists (a_maxBytes a), (authority_state a).
      split_and!; [by apply wf_state|done|by apply (Hcur v)].
  - destruct (Hlive a eq_refl) as (Ha & Hp & Hcur).
    apply Next_run in HN as (Hwf' & Ha' & Hle & Ea & Hres); [|done..]. cbn [w_fs] in Hres. rewrite Hp in Hres.
    assert (Forall (λ v, version_le v (a_current a')) issued) as Hcur'.
    { eapply Forall_impl; [exact Hcur|]. cbn. intros v Hv. by etrans. }
    assert (a_path a' = path) as Hp' by by rewrite Ea.
    assert (∀ c v, holds (a_maxBytes a') (authority_state a') c → version_le v (a_current a') → covered v c) as Hcov.
    { intros c v Hh Hv. exists (a_maxBytes a'), (authority_state a'). split_and!; [by apply wf_state|done|done]. }
    destruct res as [v|e]; cbn [issue].
    + destruct Hres as (Hinc & Ecur & Hcr). split; cbn [al_fs al_live al_issued]; [done| | |].
      * intros ? [= <-]. split_and!; [done|done|]. apply Forall_cons; split; [by rewrite Ecur|done].
      * apply Forall_cons; split; [|eapply Forall_impl; [exact Hcur'|]; cbn; eauto].
        intros c Hc. apply Hcov; [by apply Hcr|by rewrite Ecur].
      * apply SSorted_cons; [done|]. eapply Forall_impl; [exact Hcur|]. cbn. intros x Hx.
        apply increment_Ok in Hinc as (Hlt & _); [|apply version_max_u64; [done|apply Ha]].
        eapply version_le_lt_trans; [|exact Hlt]. etrans; [exact Hx|]. apply version_max_le.
    + split; cbn [al_fs al_live al_issued]; [done|by intros ? [= <-]| |done].
      apply Forall_forall. intros v Hv c Hc. rewrite Forall_forall in Hdisk, Hcur'.
      destruct (Hres c Hc) as [Hold|Hnew]; [by apply (Hdisk v)|]. by apply Hcov, Hcur'.
  - by split.
  - split; try done. cbn. eapply Forall_impl; [exact Hdisk|]. cbn. intros v Hv c2 ->%Hc'. by apply Hv.
Qed.
End allocator_facts.

(** ** Properties *)

(** C2: Version tokens are never reused.  In every life of an allocator, with
    restarts, crashes at any moment, failed calls, changed options and adopted
    versions in any order, the tokens returned by [Next] are strictly
    increasing; so no token is returned twice. *)
Theorem tokens_strictly_increase `{UnicodePrint} path f s (Hpath : filepath_Clean path = path) (Hf : fs_wf f)
    (Hlife : rtc (alloc_step path) (mkAllocator f None []) s) :
  StronglySorted (λ v w, version_lt w v) (al_issued s) ∧ NoDup (al_issued s).
Proof.
  assert (alloc_inv path s) as [_ _ _ Hs].
  { assert (alloc_inv path (mkAllocator f None [])) as H0 by (split; try done; constructor).
    revert H0. induction Hlife as [|x y z Hxy _ IH]; [done|]. intros Hx. by eapply IH, alloc_step_inv. }
  split; [done|]. clear -Hs. induction Hs as [|v l _ IH Hv]; constructor; [|done].
  rewrite Forall_forall in Hv. intros Hin%Hv. unfold version_lt in Hin.
  rewrite (proj2 (Compare_zero v v) eq_refl) in Hin. lia.
Qed.

(** What [Next] does.  A token is above the allocator's version and above
    the observed one, it becomes the current version, and from then on every
    crash finds a file that decodes to it; after a failure the current version
    has not gone back, and a crash finds what it could have found before or the
    consumed token. *)
Theorem Next_allocates observed a w res a' w' (Hf : fs_wf (w_fs w)) (Ha : authority_wf a) (Hu : version_u64 observed)
    (Hrun : Next observed (a, w) = (res, (a', w'))) :
  authority_wf a' ∧ version_le (Current a) (Current a') ∧
  match res with
  | Ok v => version_lt (Current a) v ∧ version_lt observed v ∧ Current a' = v ∧
      ∀ c, crash_at (w_fs w') (a_path a) c → ∃ data, c = Some data ∧
        parseState authority_errors dec_authority zero_authorityState (a_maxBytes a) data
        = Ok (mkAuthorityState (a_authorityID a) v)
  | Err _ => ∀ c, crash_at (w_fs w') (a_path a) c →
      crash_at (w_fs w) (a_path a) c ∨ holds (a_maxBytes a) (mkAuthorityState (a_authorityID a) (Current a')) c
  end.
Proof.
  apply Next_run in Hrun as (Hwf' & Ha' & Hle & Ea & Hres); [|done..]. split; [done|]. split; [done|].
  assert (authority_state a' = mkAuthorityState (a_authorityID a) (Current a')) as Es by by rewrite Ea.
  assert (a_maxBytes a' = a_maxBytes a) as Em by by rewrite Ea.
  rewrite Es, Em in Hres. destruct res as [v|e]; [|done]. destruct Hres as (Hinc & Ecur & Hcr).
  unfold Current in *. rewrite Ecur in *. apply increment_Ok in Hinc as (Hlt & Hnu & _);
    [|apply version_max_u64; [done|apply Ha]].
  destruct (version_max_le observed (a_current a)) as [? ?].
  split_and!; [by eapply version_le_lt_trans..|done|]. intros c Hc. destruct (Hcr c Hc) as (data & Hi & ->).
  exists data. split; [done|].
  apply (parseState_image json_authority _ _ good_authority); [|done]. split; [apply Ha|done].
Qed.

(** [Next] makes progress until the version space is exhausted.  Without
    faults or cancellation, and while the state fits its limit, it fails only
    when the last 128-bit version has been reached, and then with
    [ErrAuthorityExhausted] and without touching the disk. *)
Theorem Next_progress observed a w (Hq : quiet w) (Hf : fs_wf (w_fs w)) (Ha : authority_wf a)
    (Hu : version_u64 observed)
    (Hfits : ∀ v, incrementAuthorityVersion (version_max observed (a_current a)) = Ok v →
      ∃ data, image_of json_authority (a_maxBytes a) (mkAuthorityState (a_authorityID a) v) data) :
  let base := version_max observed (a_current a) in
  if bool_decide (base = mkVersion MaxUint64 MaxUint64)
  then Next observed (a, w) = (Err ErrAuthorityExhausted, (set_current base a, w))
  else ∃ v a' w', incrementAuthorityVersion base = Ok v ∧ Next observed (a, w) = (Ok v, (a', w')).
Proof.
  cbv zeta. assert (Epoch (version_max observed (a_current a)) ≠ 0) as Hne.
  { pose proof (au_epoch _ Ha). destruct (au_u64 _ Ha). destruct (version_max_le observed (a_current a)) as [_ Hle].
    rewrite version_le_eq in Hle. destruct (version_max_u64 observed (a_current a) Hu (au_u64 _ Ha)). lia. }
  assert (version_u64 (version_max observed (a_current a))) as Hb by (apply version_max_u64; [done|apply Ha]).
  assert (Next observed (a, w) = (next <- lift (incrementAuthorityVersion (version_max observed (a_current a))) ;
    update (set_current next) ;; a <- self ; io (persistAuthority a) ;; ret next)
    (set_current (version_max observed (a_current a)) a, w)) as ->.
  { unfold Next. erewrite bind_step_Ok by (apply io_eq; split; [reflexivity|by apply quiet_ctx]).
    erewrite bind_step_Ok by reflexivity. cbn [fst]. cbv zeta. unfold version_max in *.
    destruct (0 <? _); cbn [andb].
    - destruct (_ =? 0) eqn:E; bool_to_prop; [done|]. erewrite bind_step_Ok by reflexivity. reflexivity.
    - erewrite bind_step_Ok by reflexivity. by destruct a. }
  set (base := version_max observed (a_current a)) in *. destruct Hb as [He Hs].
  assert (∀ v, incrementAuthorityVersion base = Ok v → ∃ a' w',
    (update (set_current v) ;; a <- self ; io (persistAuthority a) ;; ret v) (set_current base a, w) = (Ok v, (a', w'))) as Hgo.
  { intros v Hv. erewrite bind_step_Ok by reflexivity. erewrite bind_step_Ok by reflexivity. cbn [fst].
    destruct (Hfits v Hv) as [data Hi].
    destruct (persistState_quiet json_authority authority_errors (a_path a) _ _ _ w Hf Hq Hi) as [_ Hok].
    unfold persistAuthority. cbn [set_current a_path a_maxBytes authority_state a_authorityID a_current].
    destruct (persistState _ _ _ _ w) as [r w1] eqn:E. cbn [fst] in Hok. subst r.
    erewrite bind_step_Ok by (apply io_eq; split; [reflexivity|exact E]). eauto. }
  unfold incrementAuthorityVersion in *. rewrite (proj2 (Z.eqb_neq _ _) Hne) in *.
  unfold MaxUint64 in *. case_bool_decide as Hlast.
  - rewrite Hlast. reflexivity.
  - destruct (Sequence base <? 2 ^ 64 - 1) eqn:E1; bool_to_prop.
    + destruct (Hgo (mkVersion (Epoch base) (Sequence base + 1))) as (a' & w' & Hrun); [done|].
      eexists _, a', w'. split; [done|]. by erewrite bind_step_Ok by reflexivity.
    + destruct (Epoch base =? 2 ^ 64 - 1) eqn:E2; bool_to_prop.
      { destruct Hlast. destruct base as [e q]. cbn in *. f_equal; lia. }
      destruct (Hgo (mkVersion (Epoch base + 1) 1)) as (a' & w' & Hrun); [done|].
      eexists _, a', w'. split; [done|]. by erewrite bind_step_Ok by reflexivity.
Qed.

(** An allocator resumes where it stopped.  When the file decodes to the
    allocator's state, opening it again returns the allocator as it was, unless
    the journal has been observed beyond it. *)
Theorem OpenAuthority_resumes `{UnicodePrint} random options a w data (Hq : quiet w) (Ha : authority_wf a)
    (Hpath : a_path a ≠ []) (Hid : validateAuthorityID (a_authorityID a) (a_limits a) = Ok tt)
    (Hopt : authority_options_normalized options = mkAuthorityOptions (a_limits a) (a_maxBytes a) (Observed options))
    (Hfile : file_at (w_fs w) (a_path a) = Some data)
    (Hdata : parseState authority_errors dec_authority zero_authorityState (a_maxBytes a) data = Ok (authority_state a))
    (Hobs : version_le (Observed options) (a_current a)) :
  OpenAuthority random (a_path a) (a_authorityID a) options w = (Ok a, w).
Proof.
  unfold OpenAuthority. rewrite bool_decide_eq_false_2 by done. rewrite Hopt. cbv zeta.
  cbn [ALimits AMaxBytes Observed a_maxBytes]. erewrite bind_step_Ok by (apply lift_Ok; split; [exact Hid|reflexivity]).
  erewrite bind_step_Ok by by apply quiet_ctx. unfold loadState, attempt. unfold bind at 1.
  rewrite os_ReadFile_quiet, Hfile by done. erewrite bind_step_Ok by (unfold lift; by rewrite Hdata).
  cbn [ret authority_state SAuthorityID SVersion]. rewrite bool_decide_eq_true_2 by done. cbn [negb].
  unfold validateAuthorityVersion. rewrite (proj2 (Z.eqb_neq _ _) (au_epoch _ Ha)).
  erewrite bind_step_Ok by reflexivity. cbn [set_current a_current].
  unfold version_le in Hobs. rewrite (proj2 (Z.ltb_ge _ _) Hobs). by destruct a.
Qed.

(** *** Concrete runs *)

#[local] Existing Instance ascii_print.

Definition ex_authority_options : AuthorityOptions := mkAuthorityOptions zero_limits 0 zero_version.
Definition ex_auth : Authority :=
  mkAuthority (lit "state/auth") (lit "node-a") (normalized zero_limits) DefaultMaxAuthorityStateBytes (mkVersion 7 0).
Lemma ex_auth_wf : authority_wf ex_auth.
Proof. split; try (vm_compute; reflexivity); [decide_now|done]. Qed.

(** Open, take a token, fail a call after the rename, exit, open, take another. *)
#[local] Abbreviation open_at r os f :=
  (OpenAuthority r (lit "state/auth") (lit "node-a") ex_authority_options (World None os f)).
#[local] Abbreviation next_at os a f := (Next zero_version (a, World None os f)).
#[local] Abbreviation run1 := (open_at (Ok (be_put 8 7)) [] fs_empty).
#[local] Abbreviation run2 := (next_at [] ex_auth (w_fs run1.2)).
#[local] Abbreviation late_fault := [OOk; OOk; OOk; OOk; OOk; OFail 0].
#[local] Abbreviation run3 := (next_at late_fault run2.2.1 (w_fs run2.2.2)).
#[local] Abbreviation run4 := (open_at (Err ErrOS) [] (w_fs run3.2.2)).
#[local] Abbreviation run5 := (next_at [] (set_current (mkVersion 7 2) ex_auth) (w_fs run4.2)).

Lemma tokens_strictly_increase_witness :
  StronglySorted (λ v w, version_lt w v) [mkVersion 7 3; mkVersion 7 1] ∧ is_Ok run3.1 = false.
Proof.
  split; [|vm_compute; reflexivity].
  apply (tokens_strictly_increase (lit "state/auth") fs_empty
    (mkAllocator (w_fs run5.2.2) (Some run5.2.1) [mkVersion 7 3; mkVersion 7 1])); [reflexivity|exact fs_wf_empty|].
  apply (rtc_l _ _ (mkAllocator (w_fs run1.2) (Some ex_auth) [])).
  { apply (step_open (lit "state/auth") (Ok (be_put 8 7)) (lit "node-a") ex_authority_options None [] fs_empty []
      (Ok ex_auth) run1.2); [by intros raw [= <-]|decide_now|]. apply run_eq. vm_compute. reflexivity. }
  apply (rtc_l _ _ (mkAllocator (w_fs run2.2.2) (Some run2.2.1) [mkVersion 7 1])).
  { apply (step_next (lit "state/auth") zero_version None [] (w_fs run1.2) ex_auth [] (Ok (mkVersion 7 1)) run2.2.1 run2.2.2);
      [decide_now|]. apply run_eq2. vm_compute. reflexivity. }
  apply (rtc_l _ _ (mkAllocator (w_fs run3.2.2) (Some run3.2.1) [mkVersion 7 1])).
  { apply (step_next (lit "state/auth") zero_version None late_fault (w_fs run2.2.2) run2.2.1 _ (Err ErrOS)
      run3.2.1 run3.2.2); [decide_now|]. apply run_eq2. vm_compute. reflexivity. }
  apply (rtc_l _ _ (mkAllocator (w_fs run3.2.2) None [mkVersion 7 1])); [apply step_exit|].
  apply (rtc_l _ _ (mkAllocator (w_fs run4.2) (Some (set_current (mkVersion 7 2) ex_auth)) [mkVersion 7 1])).
  { apply (step_open (lit "state/auth") (Err ErrOS) (lit "node-a") ex_authority_options None [] (w_fs run3.2.2) _
      (Ok (set_current (mkVersion 7 2) ex_auth)) run4.2); [done|decide_now|]. apply run_eq. vm_compute. reflexivity. }
  apply rtc_once.
  apply (step_next (lit "state/auth") zero_version None [] (w_fs run4.2) _ _ (Ok (mkVersion 7 3)) run5.2.1 run5.2.2);
    [decide_now|]. apply run_eq2. vm_compute. reflexivity.
Defined.

#[local] Abbreviation token := (Next zero_version (ex_auth, ex_world [])).

Lemma Next_allocates_witness :
  token.1 = Ok (mkVersion 7 1) ∧ ∀ c, crash_at (w_fs token.2.2) (lit "state/auth") c → c ≠ None.
Proof.
  assert (token.1 = Ok (mkVersion 7 1)) as Hrun by (vm_compute; reflexivity). split; [exact Hrun|].
  destruct (Next_allocates zero_version ex_auth (ex_world []) (Ok (mkVersion 7 1)) token.2.1 token.2.2)
    as (_ & _ & _ & _ & _ & Hc); [exact fs_wf_empty|exact ex_auth_wf|decide_now|exact (run_eq2 _ _ Hrun)|].
  intros c (data & -> & _)%Hc. discriminate.
Defined.

Definition ex_last : Authority := set_current (mkVersion MaxUint64 MaxUint64) ex_auth.

Lemma Next_progress_witness :
  Next zero_version (ex_last, ex_world []) = (Err ErrAuthorityExhausted, (ex_last, ex_world [])) ∧
  ∃ a' w', Next (mkVersion 9 MaxUint64) (ex_auth, ex_world []) = (Ok (mkVersion 10 1), (a', w')).
Proof.
  split.
  - assert (authority_wf ex_last) as Hwf by (apply wf_set_current; [exact ex_auth_wf|decide_now|done]).
    pose proof (Next_progress zero_version ex_last (ex_world []) ltac:(done) fs_wf_empty Hwf
      ltac:(decide_now) ltac:(intros v Hv; vm_compute in Hv; discriminate)) as Hn. cbv zeta in Hn.
    rewrite bool_decide_eq_true_2 in Hn by reflexivity. exact Hn.
  - assert (∀ v, incrementAuthorityVersion (version_max (mkVersion 9 MaxUint64) (a_current ex_auth)) = Ok v →
      ∃ data, image_of json_authority (a_maxBytes ex_auth) (mkAuthorityState (a_authorityID ex_auth) v) data) as Hfits.
    { intros v Hv. vm_compute in Hv. injection Hv as <-. eexists. split; [vm_compute; reflexivity|].
      vm_compute. discriminate. }
    pose proof (Next_progress (mkVersion 9 MaxUint64) ex_auth (ex_world []) ltac:(done)
      fs_wf_empty ex_auth_wf ltac:(decide_now) Hfits) as Hn. cbv zeta in Hn.
    rewrite bool_decide_eq_false_2 in Hn by (vm_compute; discriminate).
    destruct Hn as (v & a' & w' & Hv & Hn). vm_compute in Hv. injection Hv as <-. by exists a', w'.
Defined.

Lemma OpenAuthority_resumes_witness :
  OpenAuthority (Err ErrOS) (lit "state/auth") (lit "node-a") ex_authority_options token.2.2
  = (Ok (set_current (mkVersion 7 1) ex_auth), token.2.2).
Proof.
  apply (OpenAuthority_resumes (Err ErrOS) ex_authority_options (set_current (mkVersion 7 1) ex_auth) token.2.2
    (default [] (file_at (w_fs token.2.2) (lit "state/auth"))));
    [decide_now|apply wf_set_current; [exact ex_auth_wf|decide_now|done]|vm_compute; discriminate|
     vm_compute; reflexivity..|decide_now].
Defined.
