(* ===== verification/Membership.v ===== *)
(** * The durable membership book

    internal/lifecycle/membership.go: the operator-authored set of replicas
    whose acknowledgements fence compaction, kept in a state file of its own.
    [WatermarksAt] turns the book and the watermark book into the evidence that
    [Compact] asks for. *)
From stdpp Require Import sorting.
From S2P Require Import Prelude Go Bits Text Json Os Model Codec Journal Compact Transport Repair StateFile Watermark.

Definition DefaultMaxMembershipPeers : Z := DefaultMaxRepairPeers.
Definition DefaultMaxMembershipPeerIDBytes : Z := DefaultMaxRepairPeerIDBytes.
Definition DefaultMaxMembershipBytes : Z := DefaultMaxRepairWatermarkBytes.

Record MembershipOptions := mkMembershipOptions { MMaxPeers : Z; MMaxPeerIDBytes : Z; MMaxBytes : Z }.
Definition membership_options_normalized (o : MembershipOptions) : MembershipOptions :=
  mkMembershipOptions (or_default (MMaxPeers o) DefaultMaxMembershipPeers)
    (or_default (MMaxPeerIDBytes o) DefaultMaxMembershipPeerIDBytes)
    (or_default (MMaxBytes o) DefaultMaxMembershipBytes).

(** [membershipState]: its one field. *)
Definition membershipState : Type := list bytes.
Definition json_membership (members : membershipState) : json :=
  JObj [(lit "members", JArr (JStr <$> members))].
Definition dec_membership : decoder membershipState :=
  dec_struct true [(lit "members", field id (λ x _, x) (dec_slice dec_string []))].

Definition membership_errors : StateErrors :=
  mkStateErrors ErrMembershipCorrupt ErrMembershipChecksum ErrMembershipLimit.

Record MembershipProgress := mkMembershipProgress {
  PConfigured : bool;
  PMembers : Z;
  PAcknowledged : Z;
  PMinimum : Version;
  PTarget : Version
}.
Definition zero_progress : MembershipProgress := mkMembershipProgress false 0 0 zero_version zero_version.

Record MembershipBook := mkMembershipBook {
  mb_path : bytes;
  mb_maxPeers : Z;
  mb_maxPeerID : Z;
  mb_maxBytes : Z;
  mb_configured : bool;
  mb_members : list bytes
}.
Definition set_members (members : list bytes) (b : MembershipBook) : MembershipBook :=
  mkMembershipBook (mb_path b) (mb_maxPeers b) (mb_maxPeerID b) (mb_maxBytes b) true members.

(** [sort.Strings]. *)
Definition sort_strings (l : list bytes) : list bytes := merge_sort bytes_le l.

Fixpoint adjacent_same (l : list bytes) : bool :=
  match l with
  | a :: (b :: _) as tl => bool_decide (b = a) || adjacent_same tl
  | _ => false
  end.

Section membership.
Context `{UnicodePrint}.

Definition member_ok (b : MembershipBook) (member : bytes) : bool :=
  negb (bool_decide (member = []) || (mb_maxPeerID b <? len member) || negb (utf8_ValidString member)) &&
  forallb unicode_IsPrint (runes member).

Definition normalizeMembers (b : MembershipBook) (members : list bytes) : result (list bytes) :=
  if mb_maxPeers b <? len members then Err ErrMembershipLimit
  else if negb (forallb (member_ok b) members) then Err ErrMembershipPeerInvalid
  else
    let normalized := sort_strings members in
    if adjacent_same normalized then Err ErrMembershipDuplicate else Ok normalized.

Definition OpenMembershipBook (path : bytes) (options : MembershipOptions) : M world MembershipBook :=
  if bool_decide (path = []) then throw ErrNilMembershipPath
  else
    let options := membership_options_normalized options in
    let book := mkMembershipBook path (MMaxPeers options) (MMaxPeerIDBytes options) (MMaxBytes options) false [] in
    loaded <- loadState membership_errors dec_membership [] path (mb_maxBytes book) ;
    match loaded with
    | None => ret book
    | Some state =>
        match normalizeMembers book state with
        | Err e => throw (EJoin ErrMembershipCorrupt e)
        | Ok members => ret (set_members members book)
        end
    end.

Definition Replace (members : list bytes) : M (MembershipBook * world) unit :=
  io ctx_Err ;;
  b <- self ;
  normalized <- lift (normalizeMembers b members) ;
  io (persistState membership_errors (mb_path b) (mb_maxBytes b) (json_membership normalized)) ;;
  update (set_members normalized).

End membership.

Definition Configured (b : MembershipBook) : bool := mb_configured b.
Definition MembershipSnapshot (b : MembershipBook) : list bytes := mb_members b.

(** The loop of [Progress]; [None] is a minimum that is not set. *)
Fixpoint progress_loop (watermarks : WatermarkBook) (target : Version) (members : list bytes)
    (acknowledged : Z) (minimum : option Version) : M world (Z * option Version) :=
  match members with
  | [] => ret (acknowledged, minimum)
  | member :: members' =>
      ctx_Err ;;
      let version := BookWatermark watermarks member in
      let minimum := match minimum with
                     | Some m => if Compare version m <? 0 then Some version else Some m
                     | None => Some version
                     end in
      let acknowledged := if negb (IsZero target) && (0 <=? Compare version target) then acknowledged + 1
                          else acknowledged in
      progress_loop watermarks target members' acknowledged minimum
  end.
Definition Progress (b : MembershipBook) (watermarks : option WatermarkBook) (target : Version)
    : M world MembershipProgress :=
  ctx_Err ;;
  match watermarks with
  | None => throw ErrNilWatermarkBook
  | Some watermarks =>
      '(acknowledged, minimum) <- progress_loop watermarks target (mb_members b) 0 None ;
      ret (mkMembershipProgress (mb_configured b) (len (mb_members b)) acknowledged
             (default zero_version minimum) target)
  end.

(** The joined error's text names the member. *)
Fixpoint watermarks_loop (watermarks : WatermarkBook) (target : Version) (members : list bytes)
    : M world (list Version) :=
  match members with
  | [] => ret []
  | member :: members' =>
      ctx_Err ;;
      let version := BookWatermark watermarks member in
      if Compare version target <? 0
      then throw (EJoin ErrMembershipBehind (ErrText member))
      else rest <- watermarks_loop watermarks target members' ; ret (version :: rest)
  end.
Definition WatermarksAt (b : MembershipBook) (watermarks : option WatermarkBook) (target : Version)
    : M world (list Version) :=
  ctx_Err ;;
  match watermarks with
  | None => throw ErrNilWatermarkBook
  | Some watermarks =>
      if IsZero target then throw ErrMembershipWatermarkInvalid
      else if negb (mb_configured b) then throw ErrMembershipNotConfigured
      else watermarks_loop watermarks target (mb_members b)
  end.

(** ** The file format *)

Definition good_members (l : membershipState) : Prop := Forall (λ m, utf8_ValidString m = true) l.

#[export] Instance membership_codec : StateCodec json_membership dec_membership [] good_members.
Proof.
  assert (∀ l, good_members l → json_ok (json_membership l) ∧ json_depth (json_membership l) <= 2) as Hok.
  { intros l Hl. apply (json_fields_ok _ 1); [done|]. apply Forall_cons_2; [|apply Forall_nil_2].
    split; [vm_compute; reflexivity|]. apply (json_array_ok JStr l 0); [done|].
    intros m Hm. split; [|done]. unfold good_members in Hl. rewrite Forall_forall in Hl. by apply Hl. }
  split; intros l Hl.
  - by apply Hok.
  - destruct (Hok l Hl) as [_ Hd]. unfold max_depth. lia.
  - unfold dec_membership, json_membership, dec_struct. json_member; [|by apply dec_slice_json]. done.
Qed.

(** ** Facts *)

Section membership_facts.
Context `{UnicodePrint}.

Lemma adjacent_same_spec l : StronglySorted bytes_le l → adjacent_same l = false ↔ NoDup l.
Proof.
  induction l as [|a [|b l] IH]; intros Hs.
  { split; [|done]. intros _. apply NoDup_nil_2. }
  { split; [|done]. intros _. apply NoDup_singleton. }
  cbn [adjacent_same]. apply StronglySorted_cons in Hs as [Ha Hs].
  rewrite orb_false_iff, (IH Hs), bool_decide_eq_false, (NoDup_cons a). apply and_iff_compat_r.
  rewrite elem_of_cons. split; [|intros C E; apply C; by left].
  intros Hne [E|E]; [done|]. apply Hne. apply Forall_cons in Ha as [Hab _].
  apply StronglySorted_cons in Hs as [Hbl _]. rewrite Forall_forall in Hbl.
  apply (anti_symm bytes_le); [by apply Hbl|done].
Qed.

Lemma sort_strings_perm l : sort_strings l ≡ₚ l.
Proof. apply merge_sort_Permutation. Qed.
Lemma sort_strings_sorted l : StronglySorted bytes_le (sort_strings l).
Proof. apply (StronglySorted_merge_sort _). Qed.
Lemma sort_strings_id l : StronglySorted bytes_le l → sort_strings l = l.
Proof.
  intros Hl. apply (StronglySorted_unique bytes_le); [apply sort_strings_sorted|done|apply sort_strings_perm].
Qed.

(** The type invariant of the members of a configured book. *)
Record members_wf (b : MembershipBook) (l : list bytes) : Prop := {
  mw_sorted : StronglySorted bytes_le l;
  mw_nodup : NoDup l;
  mw_valid : Forall (λ m, member_ok b m = true) l;
  mw_size : len l <= mb_maxPeers b
}.

Lemma normalizeMembers_Ok b l out :
  normalizeMembers b l = Ok out ↔ members_wf b out ∧ out ≡ₚ l.
Proof.
  unfold normalizeMembers. cbv zeta. rewrite !guard_Ok, negb_false_iff, forallb_Forall.
  rewrite (adjacent_same_spec _ (sort_strings_sorted l)). split.
  - intros (Hs & Hv & Hd & [= <-]). bool_to_prop. pose proof (sort_strings_perm l) as Hp. split; [|done]. split.
    + apply sort_strings_sorted.
    + done.
    + by rewrite Hp.
    + unfold len in *. by rewrite (Permutation_length Hp).
  - intros [[Hs Hd Hv Hl] Hp]. assert (sort_strings l = out) as E.
    { apply (StronglySorted_unique bytes_le); [apply sort_strings_sorted|done|]. by rewrite sort_strings_perm, Hp. }
    rewrite E. split_and!; try done.
    + unfold len in *. rewrite <- (Permutation_length Hp). lia.
    + by rewrite <- Hp.
Qed.

Lemma members_good b l : members_wf b l → good_members l.
Proof.
  intros Hl. eapply Forall_impl; [apply Hl|]. cbn. unfold member_ok. intros m Hm.
  rewrite andb_true_iff, negb_true_iff, !orb_false_iff, negb_false_iff in Hm. apply Hm.
Qed.

Definition book_saved (b : MembershipBook) (c : option bytes) : Prop :=
  match c with
  | None => mb_configured b = false ∧ mb_members b = []
  | Some data => mb_configured b = true ∧
      parseState membership_errors dec_membership [] (mb_maxBytes b) data = Ok (mb_members b)
  end.
#[global] Instance book_saved_dec b c : Decision (book_saved b c).
Proof. destruct c; cbn; apply _. Defined.

(** [WatermarksAt] succeeds exactly on full evidence. *)
Lemma watermarks_loop_Ok wb target members w vs w' :
  watermarks_loop wb target members w = (Ok vs, w') →
  vs = BookWatermark wb <$> members ∧ Forall (version_le target) vs.
Proof.
  revert w vs. induction members as [|m members IH]; intros w vs HW; cbn in HW.
  { stop HW. split; [done|apply Forall_nil_2]. }
  step HW as [] w1 E1. destruct (_ <? 0) eqn:Ec in HW; [stop HW|]. bool_to_prop.
  step HW as rest w2 E2. stop HW. destruct (IH _ _ E2) as [-> Hrest]. split; [done|].
  apply Forall_cons; split; [|done]. apply version_nlt. unfold version_lt. lia.
Qed.
Lemma watermarks_loop_quiet wb target members w :
  quiet w →
  (watermarks_loop wb target members w).2 = w ∧
  (is_Ok (watermarks_loop wb target members w).1 = true ↔
   Forall (λ m, version_le target (BookWatermark wb m)) members).
Proof.
  intros Hq. induction members as [|m members [IHw IH]]; cbn [watermarks_loop].
  { split; [done|]. cbn. split; [|done]. intros _. apply Forall_nil_2. }
  erewrite !(bind_step_Ok ctx_Err) by by apply quiet_ctx. rewrite Forall_cons, <- IH.
  destruct (_ <? 0) eqn:Ec; bool_to_prop.
  { cbn. split; [done|]. split; [done|]. intros [Hle _]. destruct (proj2 (version_nle _ _) Ec Hle). }
  assert (version_le target (BookWatermark wb m)) by (apply version_nlt; unfold version_lt; lia).
  unfold bind. destruct (watermarks_loop wb target members w) as [[rest|e] w1]; cbn in *; naive_solver.
Qed.

(** The members that [Progress] counts. *)
Definition reached (wb : WatermarkBook) (target : Version) (p : bytes) : Prop :=
  target ≠ zero_version ∧ version_le target (BookWatermark wb p).
#[global] Instance reached_dec wb target p : Decision (reached wb target p).
Proof. unfold reached. apply _. Defined.

Lemma len_filter_all {A} (P : A → Prop) `{∀ x, Decision (P x)} l : len (filter P l) = len l ↔ Forall P l.
Proof.
  induction l as [|x l IH]; [done|]. rewrite filter_cons, Forall_cons, <- IH.
  assert (len (filter P l) <= len l) by (unfold len; pose proof (length_filter P l); lia).
  case_decide; len; naive_solver lia.
Qed.

Lemma progress_loop_quiet wb target members n min w :
  quiet w → ∃ m, progress_loop wb target members n min w =
    (Ok (n + len (filter (reached wb target) members), m), w) ∧
  (members ≠ [] ∨ is_Some min → is_Some m) ∧
  ∀ v, m = Some v → (v ∈ (BookWatermark wb <$> members) ∨ min = Some v) ∧
    Forall (λ p, version_le v (BookWatermark wb p)) members ∧ ∀ v0, min = Some v0 → version_le v v0.
Proof.
  intros Hq. revert n min. induction members as [|p members IH]; intros n min; cbn [progress_loop].
  { exists min. cbn. rewrite Z.add_0_r. split; [done|]. split; [naive_solver|]. intros v ->.
    split; [by right|]. split; [apply Forall_nil_2|]. by intros ? [= ->]. }
  erewrite bind_step_Ok by by apply quiet_ctx. cbv zeta.
  set (min' := match min with
               | Some m => if Compare (BookWatermark wb p) m <? 0 then Some (BookWatermark wb p) else Some m
               | None => Some (BookWatermark wb p)
               end).
  set (n' := if negb (IsZero target) && (0 <=? Compare (BookWatermark wb p) target) then n + 1 else n).
  destruct (IH n' min') as (m & -> & Hsome & Hm).
  assert (n' = n + (if bool_decide (reached wb target p) then 1 else 0)) as En.
  { unfold n', IsZero. destruct (decide (target = zero_version)) as [Hz|Hz].
    - rewrite bool_decide_eq_true_2 by done. cbn. rewrite bool_decide_eq_false_2 by (unfold reached; naive_solver). lia.
    - rewrite bool_decide_eq_false_2 by done. cbn. destruct (0 <=? _) eqn:E; bool_to_prop.
      + rewrite bool_decide_eq_true_2; [done|]. split; [done|]. apply version_nlt. unfold version_lt. lia.
      + rewrite bool_decide_eq_false_2; [lia|]. intros [_ H2%version_nlt]. unfold version_lt in H2. lia. }
  assert (∃ v1, min' = Some v1 ∧ version_le v1 (BookWatermark wb p) ∧
    (v1 = BookWatermark wb p ∨ min = Some v1) ∧ ∀ v0, min = Some v0 → version_le v1 v0) as (v1 & E1 & Hv1 & Hin & Hle).
  { unfold min'. destruct min as [v0|]; [destruct (_ <? 0) eqn:E; bool_to_prop|].
    - eexists. split_and!; [done|done|by left|]. intros ? [= <-]. apply version_lt_le. done.
    - eexists. split_and!; [done| |by right|by intros ? [= <-]]. apply version_nlt. unfold version_lt. lia.
    - eexists. split_and!; [done|done|by left|done]. }
  exists m. split; [|split].
  - rewrite En. do 3 f_equal. rewrite filter_cons. case_decide as Hd.
    + rewrite bool_decide_eq_true_2 by exact Hd. len.
    + rewrite bool_decide_eq_false_2 by exact Hd. len.
  - intros _. apply Hsome. right. by rewrite E1.
  - intros v Ev. destruct (Hm v Ev) as (Hmem & Hall & Hmin). specialize (Hmin v1 E1). split_and!.
    + destruct Hmem as [?|E]; [left; by right|]. rewrite E1 in E. injection E as <-.
      destruct Hin as [->|?]; [left; by left|by right].
    + apply Forall_cons; split; [by etrans|done].
    + intros v0 E0. etrans; [exact Hmin|by apply Hle].
Qed.
End membership_facts.

(** ** Properties *)

(** Membership fences compaction.  When [WatermarksAt] has returned evidence
    for a target and [Compact] succeeds with that evidence, the membership was
    configured and every configured member's acknowledged watermark is at or
    above the journal's new floor: no member can need a record that is gone. *)
Theorem membership_fences_compaction `{UnicodePrint} b wb req w0 vs w1 j w u j' w'
    (Hev : WatermarksAt b (Some wb) (CWatermark req) w0 = (Ok vs, w1)) (Hpeers : PeerWatermarks req = vs)
    (Hj : jinv j w) (Hrun : Compact req (j, w) = (Ok u, (j', w'))) :
  mb_configured b = true ∧ vs = BookWatermark wb <$> mb_members b ∧
  version_lt (j_floor j) (j_floor j') ∧
  Forall (λ m, version_le (j_floor j') (BookWatermark wb m)) (mb_members b).
Proof.
  destruct Hj as (fd & i & x & Hj).
  destruct (Compact_run _ _ _ _ _ _ _ _ _ _ Hj eq_refl Hrun) as [(? & ? & _)|(base & prefix & tail & data & w2 & Hc & Hw2 & HP)];
    [done|].
  apply (publish_run _ _ _ _ _ _ _ _ _ _ _ _ _ _ Hj Hw2) in HP as (? & ? & _ & _ & _ & -> & _).
  unfold WatermarksAt in Hev. step Hev as [] w3 E3. unfold IsZero in Hev.
  case_bool_decide; [stop Hev|]. destruct (mb_configured b) eqn:Eb; cbn [negb] in Hev; [|stop Hev].
  apply watermarks_loop_Ok in Hev as [Evs Hvs]. cbn [compacted j_floor].
  split_and!; [done|done|apply Hc|]. rewrite Evs, Forall_fmap in Hvs. exact Hvs.
Qed.

(** What [Progress] reports is what [WatermarksAt] decides.  Without
    cancellation [Progress] returns the number of members, how many of them have
    reached the target, and the smallest watermark of a member; and
    [WatermarksAt] succeeds exactly when the book is configured, the target is
    not zero and all members are among the ones counted. *)
Theorem Progress_agrees `{UnicodePrint} b wb target w (Hq : quiet w) :
  ∃ p, Progress b (Some wb) target w = (Ok p, w) ∧
    PMembers p = len (mb_members b) ∧ PConfigured p = mb_configured b ∧ PTarget p = target ∧
    PAcknowledged p = len (filter (reached wb target) (mb_members b)) ∧
    (mb_members b ≠ [] → PMinimum p ∈ (BookWatermark wb <$> mb_members b)) ∧
    Forall (λ m, version_le (PMinimum p) (BookWatermark wb m)) (mb_members b) ∧
    (is_Ok (WatermarksAt b (Some wb) target w).1 = true ↔
     target ≠ zero_version ∧ PConfigured p = true ∧ PAcknowledged p = PMembers p).
Proof.
  destruct (progress_loop_quiet wb target (mb_members b) 0 None w Hq) as (m & Hloop & Hsome & Hm).
  eexists. split.
  { unfold Progress. erewrite bind_step_Ok by by apply quiet_ctx. erewrite bind_step_Ok by exact Hloop. done. }
  cbn [PMembers PConfigured PTarget PAcknowledged PMinimum]. rewrite Z.add_0_l.
  assert (∀ v, m = Some v → v ∈ (BookWatermark wb <$> mb_members b) ∧
    Forall (λ p, version_le v (BookWatermark wb p)) (mb_members b)) as Hmin.
  { intros v Hv. destruct (Hm v Hv) as ([?|?] & ? & _); done. }
  split_and!; try done.
  - intros Hne. destruct Hsome as [v Hv]; [by left|]. rewrite Hv. by apply Hmin.
  - destruct m as [v|]; [by apply Hmin|]. destruct (mb_members b); [apply Forall_nil_2|].
    destruct Hsome as [? ?]; [by left|done].
  - unfold WatermarksAt. erewrite bind_step_Ok by by apply quiet_ctx. unfold IsZero.
    rewrite len_filter_all. case_bool_decide as Hz; [cbn; naive_solver|].
    destruct (mb_configured b); cbn [negb]; [|cbn; naive_solver].
    destruct (watermarks_loop_quiet wb target (mb_members b) w Hq) as [_ ->]. unfold reached.
    rewrite Forall_and. split; [|naive_solver]. intros Hf. split_and!; try done. by apply Forall_true.
Qed.

(** A replaced membership survives restarts.  A successful [Replace] makes
    the book configured with the sorted members, without duplicates and within
    its bounds; every crash finds a file that decodes to exactly that book; and,
    without faults, opening the file returns the same book.  A failed [Replace]
    changes nothing in memory, and a crash finds the old file or the new one. *)
Theorem Replace_reopen `{UnicodePrint} members b w res b' w' (Hwf : fs_wf (w_fs w))
    (Hpath : filepath_Clean (mb_path b) = mb_path b)
    (Hrun : Replace members (b, w) = (res, (b', w'))) :
  fs_wf (w_fs w') ∧
  match res with
  | Ok _ => b' = set_members (sort_strings members) b ∧ members_wf b' (mb_members b') ∧
      (∀ c, crash_at (w_fs w') (mb_path b) c → c ≠ None ∧ book_saved b' c) ∧
      (∀ w2 options, w_fs w2 = w_fs w' → quiet w2 → mb_path b ≠ [] →
         membership_options_normalized options = mkMembershipOptions (mb_maxPeers b) (mb_maxPeerID b) (mb_maxBytes b) →
         OpenMembershipBook (mb_path b) options w2 = (Ok b', w2))
  | Err _ => b' = b ∧ ∀ c, crash_at (w_fs w') (mb_path b) c → crash_at (w_fs w) (mb_path b) c ∨
      book_saved (set_members (sort_strings members) b) c
  end.
Proof.
  unfold Replace in Hrun.
  step Hrun as [] [b1 w1] E1; apply io_eq in E1 as [-> E1]; apply ctx_Err_fs in E1 as [Ew _];
    [|rewrite Ew; split_and!; [done|done|by left]].
  step_Ok Hrun. cbn [fst] in Hrun.
  step Hrun as out [b2 w2] E2; injection E2 as En <- <-; [|rewrite Ew; split_and!; [done|done|by left]].
  assert (out = sort_strings members) as Eout.
  { unfold normalizeMembers in En. cbv zeta in En. rewrite !guard_Ok in En. destruct En as (_ & _ & _ & [= ->]). done. }
  apply normalizeMembers_Ok in En as [Hm Hp]. rewrite <- Eout.
  assert (∀ data, image_of json_membership (mb_maxBytes b) out data → book_saved (set_members out b) (Some data)) as Hsaved.
  { intros data Hi. split; [done|].
    apply (parseState_image json_membership _ _ good_members); [by apply (members_good b)|done]. }
  step Hrun as [] [b3 w3] E3; apply io_eq in E3 as [-> E3]; apply persistState_run in E3 as (Hk & Hr & _);
    try (by rewrite Ew); try done; rewrite ?Ew in Hr.
  2:{ split; [apply Hk|]. split; [done|]. intros c Hc. destruct (Hr c Hc) as [?|(data & Hi & ->)]; auto. }
  injection Hrun as <- <- <-. split; [apply Hk|]. destruct Hr as (data & Hi & Hf & Hd).
  split; [done|]. split; [destruct Hm; by split|]. split; [intros c ->%Hd; auto|].
  intros w2 options Ef Hq Hne Ho. unfold OpenMembershipBook. rewrite bool_decide_eq_false_2 by done.
  rewrite Ho. cbv zeta. cbn [MMaxPeers MMaxPeerIDBytes MMaxBytes mb_maxBytes].
  erewrite bind_step_Ok.
  2:{ eapply (loadState_image json_membership _ _ good_members); [done|by apply (members_good b)|exact Hi|by rewrite Ef]. }
  cbv beta iota. rewrite (proj2 (normalizeMembers_Ok _ out out)); [done|]. split; [destruct Hm; by split|done].
Qed.

(** *** Concrete runs *)

#[local] Existing Instance ascii_print.

Definition ex_members : MembershipBook := mkMembershipBook (lit "state/members") 4 16 4096 false [].
#[local] Abbreviation ex_replaced := (Replace [lit "node-c"; lit "node-b"] (ex_members, ex_world [])).

Lemma Replace_reopen_witness :
  ex_replaced.2.1 = set_members [lit "node-b"; lit "node-c"] ex_members ∧
  OpenMembershipBook (lit "state/members") (mkMembershipOptions 4 16 4096) (World None [] (w_fs ex_replaced.2.2))
  = (Ok ex_replaced.2.1, World None [] (w_fs ex_replaced.2.2)) ∧
  (Replace [lit "node-c"; lit "node-c"] (ex_members, ex_world [])).1 = Err ErrMembershipDuplicate.
Proof.
  destruct (Replace_reopen [lit "node-c"; lit "node-b"] ex_members (ex_world []) (Ok tt) ex_replaced.2.1 ex_replaced.2.2)
    as (_ & _ & _ & _ & Hopen); [exact fs_wf_empty|reflexivity|apply run_eq2; vm_compute; reflexivity|].
  split_and!; [vm_compute; reflexivity| |vm_compute; reflexivity].
  apply (Hopen (World None [] (w_fs ex_replaced.2.2))); [apply w_fs_World|by split|discriminate|reflexivity].
Defined.

Definition ex_fence : MembershipBook := mkMembershipBook (lit "state/members") 4 16 4096 true [lit "node-b"].
Definition ex_acks : WatermarkBook := set_watermarks {[ lit "node-b" := mkVersion 1 7 ]} ex_book.
#[local] Abbreviation ex_compacted :=
  (Compact (mkCompactionRequest (lit "state/checkpoint") (mkVersion 1 1) [ex_deleted 98 1] None [mkVersion 1 7])
     (with_faults [] ex_appended)).

Lemma membership_fences_compaction_witness :
  Forall (λ m, version_le (mkVersion 1 1) (BookWatermark ex_acks m)) (mb_members ex_fence) ∧
  (WatermarksAt ex_fence (Some ex_book) (mkVersion 1 1) (ex_world [])).1 =
    Err (EJoin ErrMembershipBehind (ErrText (lit "node-b"))).
Proof.
  split; [|vm_compute; reflexivity].
  assert (j_floor ex_compacted.2.1 = mkVersion 1 1) as Ef by (vm_compute; reflexivity). rewrite <- Ef.
  apply (membership_fences_compaction ex_fence ex_acks
    (mkCompactionRequest (lit "state/checkpoint") (mkVersion 1 1) [ex_deleted 98 1] None [mkVersion 1 7])
    (ex_world []) [mkVersion 1 7] (ex_world []) (with_faults [] ex_appended).1 (with_faults [] ex_appended).2 tt
    ex_compacted.2.1 ex_compacted.2.2);
    [vm_compute; reflexivity|reflexivity|exact (jinv_with_faults _ [] ex_appended_jinv)|
     apply run_eq2; vm_compute; reflexivity].
Defined.

Lemma Progress_agrees_witness :
  ∃ p, Progress ex_fence (Some ex_acks) (mkVersion 1 1) (ex_world []) = (Ok p, ex_world []) ∧
    PAcknowledged p = 1 ∧ is_Ok (WatermarksAt ex_fence (Some ex_acks) (mkVersion 1 1) (ex_world [])).1 = true.
Proof.
  destruct (Progress_agrees ex_fence ex_acks (mkVersion 1 1) (ex_world [])) as (p & Hp & Hm & Hc & _ & Ha & _ & _ & Hw);
    [decide_now|].
  exists p. assert (PAcknowledged p = 1) as H1 by (rewrite Ha; vm_compute; reflexivity).
  split_and!; [exact Hp|exact H1|]. apply Hw. split_and!; [discriminate|exact Hc|rewrite H1, Hm; reflexivity].
Defined.
