(* ===== verification/Blobs.v ===== *)
(** * Content-addressed keys, key pages and the in-memory blob store

    storage/hash.go, page.go, store.go and memory.go.  The ordered key index is
    a tree of github.com/google/btree: it is a parameter, the class [BTree],
    with its documented behaviour as [BTreeLaws]. *)
From stdpp Require Import sorting.
From S2P Require Import Prelude Go Bits Text Os Journal.

(** ** hash.go *)

Definition SHA256KeyBytes : Z := 32.
Definition SHA256KeyHexBytes : Z := 64.

Definition SHA256Key (data : bytes) : bytes := sha256 data.
Definition SHA256KeyHex (data : bytes) : bytes := hex_EncodeToString (sha256 data).

Definition ValidateSHA256Key (key : bytes) : result unit :=
  if negb (len key =? SHA256KeyBytes) then Err storage_ErrInvalidSHA256Key else Ok tt.

Definition ParseSHA256KeyHex (s : bytes) : result bytes :=
  if negb (len s =? SHA256KeyHexBytes) then Err storage_ErrInvalidSHA256HexKey
  else match hex_DecodeString s with
       | None => Err storage_ErrInvalidSHA256HexKey
       | Some key => _ <-? ValidateSHA256Key key ; Ok key
       end.

Definition VerifySHA256Key (key data : bytes) : result unit :=
  _ <-? ValidateSHA256Key key ;
  if negb (bool_decide (key = SHA256Key data)) then Err storage_ErrSHA256Mismatch else Ok tt.

(** ** sort.Search *)

(** The binary search of the sort package; [hi - lo] halves in every round, so
    [hi] rounds are enough. *)
Fixpoint search_loop (fuel : nat) (f : nat → bool) (lo hi : nat) : nat :=
  match fuel with
  | O => lo
  | S fuel' =>
      if (lo <? hi)%nat then
        let h := ((lo + hi) / 2)%nat in
        if f h then search_loop fuel' f lo h else search_loop fuel' f (S h) hi
      else lo
  end.
Definition sort_Search (n : nat) (f : nat → bool) : nat := search_loop n f 0 n.

(** ** page.go *)

Definition DefaultKeyPageSize : Z := 256.
Definition normalizeKeyPageLimit (limit : Z) : Z := if limit <=? 0 then DefaultKeyPageSize else limit.

Definition at_ (page : list bytes) (i : nat) : bytes := default [] (page !! i).
Definition insertKeyPage (page : list bytes) (key after : bytes) (limit : Z) : list bytes :=
  if (0 <? len after) && bool_decide (bytes_le key after) then page
  else
    let index := sort_Search (length page) (λ i, bool_decide (bytes_le key (at_ page i))) in
    if (index <? length page)%nat && bool_decide (at_ page index = key) then page
    else if (limit <=? len page) && (index =? length page)%nat then page
    else
      let page := take index page ++ key :: drop index page in
      if limit <? len page then take (Z.to_nat limit) page else page.

(** ** store.go: the interface of a blob store *)

(** [BlobStore]: the methods work on the store's own state and on the world. *)
Class BlobStore (S : Type) := {
  bs_Put : bytes → bytes → M (S * world) unit;
  bs_Get : bytes → M (S * world) bytes;
  bs_Has : bytes → M (S * world) bool;
  bs_Delete : bytes → M (S * world) unit
}.
(** [BlobKeyLister] and [BlobKeyPager]. *)
Class BlobKeyLister (S : Type) := bs_ListKeys : M (S * world) (list bytes).
Class BlobKeyPager (S : Type) := bs_ListKeyPage : bytes → Z → M (S * world) (list bytes * bytes).

(** ** The key index *)

(** The part of btree.BTreeG[string] that the stores use.  [bt_Ascend] and
    [bt_AscendGreaterOrEqual] give the keys in the order of the iterator calls. *)
Class BTree (T : Type) := {
  bt_New : T;
  bt_ReplaceOrInsert : bytes → T → T;
  bt_Delete : bytes → T → T;
  bt_Len : T → Z;
  bt_Ascend : T → list bytes;
  bt_AscendGreaterOrEqual : bytes → T → list bytes
}.
(** Documented behaviour: a set of keys, iterated in ascending order. *)
Class BTreeLaws (T : Type) `{BTree T} := {
  bt_keys : T → gset bytes;
  bt_keys_New : bt_keys bt_New = ∅;
  bt_keys_insert : ∀ k t, bt_keys (bt_ReplaceOrInsert k t) = {[k]} ∪ bt_keys t;
  bt_keys_delete : ∀ k t, bt_keys (bt_Delete k t) = bt_keys t ∖ {[k]};
  bt_keys_Len : ∀ t, bt_Len t = Z.of_nat (size (bt_keys t));
  bt_keys_Ascend : ∀ t, StronglySorted bytes_le (bt_Ascend t) ∧ bt_Ascend t ≡ₚ elements (bt_keys t);
  bt_keys_from : ∀ k t, bt_AscendGreaterOrEqual k t = filter (bytes_le k) (bt_Ascend t)
}.

(** ** memory.go *)

(** [ms_keys] is [None] in a zero value, whose index is not built yet. *)
Record MemoryStore (T : Type) := mkMemoryStore { ms_data : gmap bytes bytes; ms_keys : option T }.
Arguments mkMemoryStore {T} _ _.
Arguments ms_data {T} _.
Arguments ms_keys {T} _.

Definition keyString (key : bytes) : result bytes :=
  if len key =? 0 then Err storage_ErrKeyEmpty else Ok key.

Section memory.
Context {T : Type} `{BTree T}.

Definition NewMemoryStore : MemoryStore T := mkMemoryStore ∅ (Some bt_New).

(** The keys of the map, in one of the orders it may be iterated. *)
Definition map_keys (m : gmap bytes bytes) : list bytes := (map_to_list m).*1.

Definition ensureKeyIndexLocked (m : MemoryStore T) : MemoryStore T :=
  match ms_keys m with
  | Some _ => m
  | None => mkMemoryStore (ms_data m) (Some (foldl (λ t k, bt_ReplaceOrInsert k t) bt_New (map_keys (ms_data m))))
  end.

Definition MemoryStore_Put (key data : bytes) : M (MemoryStore T * world) unit :=
  io ctx_Err ;;
  ks <- lift (keyString key) ;
  io ctx_Err ;;
  update ensureKeyIndexLocked ;;
  m <- self ;
  (if bool_decide (is_Some (ms_data m !! ks)) then ret tt
   else update (λ m, mkMemoryStore (ms_data m) (bt_ReplaceOrInsert ks <$> ms_keys m))) ;;
  update (λ m, mkMemoryStore (<[ks := data]> (ms_data m)) (ms_keys m)).

Definition MemoryStore_Get (key : bytes) : M (MemoryStore T * world) bytes :=
  io ctx_Err ;;
  ks <- lift (keyString key) ;
  m <- self ;
  match ms_data m !! ks with
  | None => throw storage_ErrNotFound
  | Some v => ret v
  end.

Definition MemoryStore_Has (key : bytes) : M (MemoryStore T * world) bool :=
  io ctx_Err ;;
  ks <- lift (keyString key) ;
  m <- self ;
  ret (bool_decide (is_Some (ms_data m !! ks))).

Definition MemoryStore_Delete (key : bytes) : M (MemoryStore T * world) unit :=
  io ctx_Err ;;
  ks <- lift (keyString key) ;
  io ctx_Err ;;
  m <- self ;
  if bool_decide (is_Some (ms_data m !! ks))
  then update (λ m, mkMemoryStore (delete ks (ms_data m)) (bt_Delete ks <$> ms_keys m))
  else ret tt.

Definition MemoryStore_Len (m : MemoryStore T) : Z := Z.of_nat (size (ms_data m)).
Definition MemoryStore_Snapshot (m : MemoryStore T) : gmap bytes bytes := ms_data m.

(** The callback of [Ascend] polls the context before every key. *)
Fixpoint collect_keys (ks : list bytes) : M world (list bytes) :=
  match ks with
  | [] => ret []
  | k :: ks' => ctx_Err ;; rest <- collect_keys ks' ; ret (k :: rest)
  end.

Definition MemoryStore_ListKeys : M (MemoryStore T * world) (list bytes) :=
  io ctx_Err ;;
  m <- self ;
  match ms_keys m with
  | Some t => io (collect_keys (bt_Ascend t))
  | None => ret (merge_sort bytes_le (map_keys (ms_data m)))
  end.

(** The callback of [AscendGreaterOrEqual]: stops when the page is full. *)
Fixpoint page_walk (after : bytes) (limit : Z) (page ks : list bytes) : M world (list bytes) :=
  match ks with
  | [] => ret page
  | k :: ks' =>
      ctx_Err ;;
      if (0 <? len after) && bool_decide (k = after) then page_walk after limit page ks'
      else
        let page := page ++ [k] in
        if len page <? limit then page_walk after limit page ks' else ret page
  end.

(** The scan of a store without an index, in one of the orders of the map. *)
Fixpoint page_scan (after : bytes) (limit : Z) (page ks : list bytes) : M world (list bytes) :=
  match ks with
  | [] => ret page
  | k :: ks' => ctx_Err ;; page_scan after limit (insertKeyPage page k after limit) ks'
  end.

(** A page with its last key as the cursor; an empty page has none. *)
Definition with_cursor (page : list bytes) : list bytes * bytes := (page, default [] (last page)).

Definition MemoryStore_ListKeyPage (after : bytes) (limit : Z) : M (MemoryStore T * world) (list bytes * bytes) :=
  io ctx_Err ;;
  let limit := normalizeKeyPageLimit limit in
  m <- self ;
  match ms_keys m with
  | Some t =>
      page <- io (page_walk after limit [] (bt_AscendGreaterOrEqual after t)) ;
      ret (with_cursor page)
  | None =>
      page <- io (page_scan after limit [] (map_keys (ms_data m))) ;
      io ctx_Err ;;
      ret (with_cursor page)
  end.

#[export] Instance memory_BlobStore : BlobStore (MemoryStore T) := {|
  bs_Put := MemoryStore_Put; bs_Get := MemoryStore_Get; bs_Has := MemoryStore_Has; bs_Delete := MemoryStore_Delete
|}.
#[export] Instance memory_BlobKeyLister : BlobKeyLister (MemoryStore T) := MemoryStore_ListKeys.
#[export] Instance memory_BlobKeyPager : BlobKeyPager (MemoryStore T) := MemoryStore_ListKeyPage.
End memory.

(** ** Facts *)

(** The search finds the point where [f] turns true. *)
Lemma search_loop_split fuel f a lo hi n :
  (∀ i, (i < a)%nat → f i = false) → (∀ i, (a <= i < n)%nat → f i = true) →
  (lo <= a <= hi)%nat → (hi <= n)%nat → (hi - lo <= fuel)%nat → search_loop fuel f lo hi = a.
Proof.
  intros Hlo Hhi. revert lo hi. induction fuel as [|fuel IH]; intros lo hi Ha Hn Hf; cbn [search_loop]; [lia|].
  destruct (Nat.ltb_spec lo hi); [|lia]. cbv zeta.
  pose proof (Nat.div_lt_upper_bound (lo + hi) 2 hi ltac:(lia) ltac:(lia)).
  pose proof (Nat.div_le_lower_bound (lo + hi) 2 lo ltac:(lia) ltac:(lia)).
  set (h := ((lo + hi) / 2)%nat) in *. destruct (f h) eqn:E.
  - apply IH; try lia. destruct (decide (h < a)%nat) as [Hh|]; [by rewrite Hlo in E|lia].
  - apply IH; try lia. destruct (decide (a <= h)%nat) as [Hh|]; [by rewrite Hhi in E by lia|lia].
Qed.
Lemma sort_Search_split n f a :
  (a <= n)%nat → (∀ i, (i < a)%nat → f i = false) → (∀ i, (a <= i < n)%nat → f i = true) → sort_Search n f = a.
Proof. intros Ha Hlo Hhi. apply (search_loop_split _ _ _ _ _ n); auto; lia. Qed.

(** *** Pages *)

(** The keys that a page after [after] may hold. *)
Definition in_page (after k : bytes) : Prop := after = [] ∨ bytes_lt after k.
#[export] Instance in_page_dec after k : Decision (in_page after k).
Proof. unfold in_page. apply _. Defined.

Definition sorted_keys (ks : list bytes) : list bytes := merge_sort bytes_le ks.
(** The reference: the smallest [limit] keys after [after]. *)
Definition page_of (after : bytes) (limit : Z) (ks : list bytes) : list bytes :=
  take (Z.to_nat limit) (sorted_keys (filter (in_page after) ks)).

Lemma sorted_keys_perm ks : sorted_keys ks ≡ₚ ks.
Proof. apply merge_sort_Permutation. Qed.
Lemma sorted_keys_sorted ks : StronglySorted bytes_le (sorted_keys ks).
Proof. apply (StronglySorted_merge_sort _). Qed.
Lemma sorted_keys_unique l ks : StronglySorted bytes_le l → l ≡ₚ ks → sorted_keys ks = l.
Proof.
  intros Hs Hp. apply (StronglySorted_unique bytes_le); [apply sorted_keys_sorted|done|].
  by rewrite sorted_keys_perm, Hp.
Qed.
#[export] Instance sorted_keys_proper : Proper ((≡ₚ) ==> (=)) sorted_keys.
Proof. intros l k Hp. apply sorted_keys_unique; [apply sorted_keys_sorted|]. by rewrite sorted_keys_perm, Hp. Qed.
Lemma page_of_proper after limit l k : l ≡ₚ k → page_of after limit l = page_of after limit k.
Proof. intros Hp. unfold page_of. f_equal. apply sorted_keys_proper. by rewrite Hp. Qed.

(** A sorted list splits at a key that it does not hold. *)
Lemma sorted_split k L :
  StronglySorted bytes_le L → k ∉ L → ∃ A B, L = A ++ B ∧
    Forall (λ x, bytes_lt x k) A ∧ Forall (λ x, bytes_lt k x) B.
Proof.
  induction 1 as [|x L Hs IH Hx]; intros Hk.
  { exists [], []. split; [done|]. split; constructor. }
  apply not_elem_of_cons in Hk as [Hne Hk]. destruct (decide (bytes_lt x k)) as [Hlt|Hnlt].
  - destruct (IH Hk) as (A & B & -> & HA & HB). exists (x :: A), B. split; [done|]. split; [by constructor|done].
  - exists [], (x :: L). split; [done|]. split; [constructor|].
    apply bytes_nlt_le, bytes_le_lt in Hnlt as [->|Hlt]; [done|]. constructor; [done|].
    eapply Forall_impl; [exact Hx|]. cbn. intros y [<-|Hy]%bytes_le_lt; [done|by etrans].
Qed.

Lemma bytes_lt_not_le x k : bytes_lt x k → ¬ bytes_le k x.
Proof. intros Hlt Hle. by apply bytes_nlt_le in Hle. Qed.
Lemma bytes_lt_le x k : bytes_lt x k → bytes_le x k.
Proof. intros Hlt. apply bytes_le_lt. by right. Qed.

Lemma sorted_insert k A B :
  StronglySorted bytes_le (A ++ B) → Forall (λ x, bytes_lt x k) A → Forall (λ x, bytes_lt k x) B →
  StronglySorted bytes_le (A ++ k :: B).
Proof.
  intros Hs HA HB. induction A as [|x A IH]; cbn in *.
  - constructor; [done|]. eapply Forall_impl; [exact HB|]. cbn. apply bytes_lt_le.
  - apply StronglySorted_cons in Hs as [Hx Hs]. apply Forall_cons in HA as [Hxk HA].
    constructor; [by apply IH|]. rewrite Forall_app in Hx. destruct Hx as [Hx1 Hx2].
    apply Forall_app; split; [done|]. constructor; [by apply bytes_lt_le|done].
Qed.

(** The search in a page that is split at the key. *)
Lemma page_search k A B :
  Forall (λ x, bytes_lt x k) A → Forall (λ x, bytes_lt k x) B →
  sort_Search (length (A ++ B)) (λ i, bool_decide (bytes_le k (at_ (A ++ B) i))) = length A.
Proof.
  intros HA HB. apply sort_Search_split; [rewrite length_app; lia| |].
  - intros i Hi. rewrite bool_decide_eq_false. unfold at_. rewrite lookup_app_l by done.
    destruct (lookup_lt_is_Some_2 A i Hi) as [x Hx]. rewrite Hx. cbn.
    apply bytes_lt_not_le. by eapply Forall_lookup_1 in HA.
  - intros i Hi. rewrite length_app in Hi. rewrite bool_decide_eq_true. unfold at_. rewrite lookup_app_r by lia.
    destruct (lookup_lt_is_Some_2 B (i - length A)%nat ltac:(lia)) as [x Hx]. rewrite Hx. cbn.
    apply bytes_lt_le. by eapply Forall_lookup_1 in HB.
Qed.

(** [insertKeyPage] keeps the smallest keys of what it has seen. *)
Lemma insertKeyPage_page_of after limit ks k :
  0 < limit → k ∉ ks → insertKeyPage (page_of after limit ks) k after limit = page_of after limit (k :: ks).
Proof.
  intros Hl Hk. unfold insertKeyPage.
  change (page_of after limit (k :: ks)) with (take (Z.to_nat limit) (sorted_keys (filter (in_page after) (k :: ks)))).
  rewrite filter_cons.
  assert (0 <? len after = negb (bool_decide (after = []))) as ->.
  { destruct after; [done|]. rewrite len_cons. pose proof (len_nonneg after). cbn. lia. }
  destruct (decide (in_page after k)) as [Hin|Hout].
  2:{ unfold in_page in Hout. rewrite bool_decide_eq_false_2 by naive_solver.
      rewrite bool_decide_eq_true_2; [done|]. apply bytes_nlt_le. naive_solver. }
  replace (negb (bool_decide (after = [])) && bool_decide (bytes_le k after)) with false.
  2:{ destruct Hin as [->|Hlt]; [done|]. rewrite (bool_decide_eq_false_2 (bytes_le k after)); [by rewrite andb_false_r|].
      by apply bytes_lt_not_le. }
  set (F := filter (in_page after) ks). assert (k ∉ F) as HkF by (unfold F; rewrite list_elem_of_filter; naive_solver).
  destruct (sorted_split k (sorted_keys F)) as (A & B & EL & HA & HB); [apply sorted_keys_sorted|by rewrite sorted_keys_perm|].
  assert (sorted_keys (k :: F) = A ++ k :: B) as ->.
  { apply sorted_keys_unique.
    - apply sorted_insert; [|done..]. rewrite <- EL. apply sorted_keys_sorted.
    - rewrite <- Permutation_middle, <- EL. by rewrite sorted_keys_perm. }
  unfold page_of. fold F. rewrite EL. remember (Z.to_nat limit) as n eqn:En. assert (0 < n)%nat as Hn by lia.
  destruct (decide (n <= length A)%nat) as [HnA|HnA].
  - rewrite (take_app_le A (k :: B)), (take_app_le A B) by lia. cbv zeta.
    assert (Forall (λ x, bytes_lt x k) (take n A)) as HA' by by apply Forall_take.
    pose proof (page_search k (take n A) [] HA' (Forall_nil_2 _)) as Hs. rewrite app_nil_r in Hs. rewrite Hs.
    rewrite Nat.ltb_irrefl, Nat.eqb_refl. cbn [andb]. unfold len. rewrite length_take.
    by rewrite (proj2 (Z.leb_le limit (Z.of_nat (n `min` length A)))) by lia.
  - rewrite (take_app_ge A (k :: B)), (take_app_ge A B) by lia. remember (take (n - length A) B) as B' eqn:EB. cbv zeta.
    assert (Forall (λ x, bytes_lt k x) B') as HB' by (subst B'; by apply Forall_take).
    rewrite (page_search k A B') by done.
    replace (at_ (A ++ B') (length A)) with (default [] (head B')) by
      (unfold at_; rewrite lookup_app_r, Nat.sub_diag by lia; by destruct B').
    replace ((length A <? length (A ++ B'))%nat && bool_decide (default [] (head B') = k)) with false.
    2:{ symmetry. apply andb_false_iff. destruct B' as [|b B2]; [left; rewrite app_nil_r; apply Nat.ltb_irrefl|right].
        apply bool_decide_eq_false_2. cbn. intros ->. apply Forall_cons in HB' as [HB' _].
        by apply (irreflexivity bytes_lt k). }
    replace ((limit <=? len (A ++ B')) && (length A =? length (A ++ B'))%nat) with false.
    2:{ symmetry. apply andb_false_iff. destruct (decide (length B' = 0)%nat) as [E0|E0].
        - left. apply Z.leb_gt. unfold len. rewrite length_app. lia.
        - right. rewrite length_app. apply Nat.eqb_neq. lia. }
    rewrite take_app_length, drop_app_length. unfold len. rewrite length_app. cbn [length].
    assert (length B' = (n - length A) `min` length B)%nat as HlB by (subst B'; apply length_take).
    destruct (n - length A)%nat as [|m] eqn:Em; [lia|]. cbn [take].
    destruct (limit <? _) eqn:Elt; bool_to_prop.
    + rewrite take_app_ge by lia. rewrite Em. cbn [take]. do 2 f_equal. subst B'. rewrite take_take. f_equal. lia.
    + do 2 f_equal. subst B'. by rewrite !take_ge by lia.
Qed.

(** *** The store *)

Section memory_facts.
Context {T : Type} `{BTreeLaws T}.

(** The type invariant: the index, once built, holds exactly the keys, and no
    key is empty. *)
Record ms_wf (m : MemoryStore T) : Prop := {
  mw_index : ∀ t, ms_keys m = Some t → bt_keys t = dom (ms_data m);
  mw_nonempty : ms_data m !! [] = None
}.

Lemma NewMemoryStore_wf : ms_wf NewMemoryStore.
Proof. split; [|done]. intros t [= <-]. cbn. by rewrite bt_keys_New, dom_empty_L. Qed.

Lemma map_keys_elements m : map_keys m ≡ₚ elements (dom m).
Proof.
  apply NoDup_Permutation; [apply NoDup_fst_map_to_list|apply NoDup_elements|]. intros k.
  rewrite elem_of_elements, elem_of_dom. unfold map_keys. rewrite list_elem_of_fmap. split.
  - intros ([k' v] & -> & Hin%elem_of_map_to_list). by eexists.
  - intros [v Hv]. exists (k, v). split; [done|by apply elem_of_map_to_list].
Qed.

Lemma foldl_insert_keys ks t : bt_keys (foldl (λ t k, bt_ReplaceOrInsert k t) t ks) = bt_keys t ∪ list_to_set ks.
Proof.
  revert t. induction ks as [|k ks IH]; intros t; cbn; [set_solver|]. rewrite IH, bt_keys_insert. set_solver.
Qed.

Lemma ensureKeyIndexLocked_wf m :
  ms_wf m → ms_wf (ensureKeyIndexLocked m) ∧ ms_data (ensureKeyIndexLocked m) = ms_data m ∧
  ∃ t, ms_keys (ensureKeyIndexLocked m) = Some t ∧ bt_keys t = dom (ms_data m).
Proof.
  intros Hm. unfold ensureKeyIndexLocked. destruct (ms_keys m) as [t|] eqn:E.
  - split_and!; [done|done|]. exists t. split; [done|by apply (mw_index _ Hm)].
  - set (t := foldl _ _ _). assert (bt_keys t = dom (ms_data m)) as Ht.
    { unfold t. rewrite foldl_insert_keys, bt_keys_New. rewrite (left_id_L ∅ (∪)).
      rewrite map_keys_elements. by rewrite list_to_set_elements_L. }
    split_and!; [|done|by exists t]. split; [|apply Hm]. cbn. by intros ? [= <-].
Qed.

Lemma Put_wf k d m t :
  k ≠ [] → ms_wf m → ms_keys m = Some t →
  ms_wf (mkMemoryStore (<[k := d]> (ms_data m))
           (if bool_decide (is_Some (ms_data m !! k)) then Some t else Some (bt_ReplaceOrInsert k t))).
Proof.
  intros Hk Hm Et. pose proof (mw_index _ Hm _ Et) as Ht. split; cbn.
  - rewrite dom_insert_L. case_bool_decide as E; intros ? [= <-].
    + apply elem_of_dom in E. rewrite Ht. set_solver.
    + by rewrite bt_keys_insert, Ht.
  - rewrite lookup_insert_ne by done. apply Hm.
Qed.
Lemma Delete_wf k m : ms_wf m → ms_wf (mkMemoryStore (delete k (ms_data m)) (bt_Delete k <$> ms_keys m)).
Proof.
  intros Hm. split; cbn.
  - intros t' Et. destruct (ms_keys m) as [t|] eqn:E; [|done]. injection Et as <-.
    by rewrite bt_keys_delete, dom_delete_L, (mw_index _ Hm t E).
  - apply lookup_delete_None. right. apply Hm.
Qed.

(** Iterating an index that holds the keys of a map. *)
Lemma Ascend_sorted (d : gmap bytes bytes) t : bt_keys t = dom d → bt_Ascend t = sorted_keys (map_keys d).
Proof.
  intros Ht. symmetry. destruct (bt_keys_Ascend t) as [Hs Hp]. apply sorted_keys_unique; [done|].
  by rewrite Hp, Ht, map_keys_elements.
Qed.

Lemma collect_keys_quiet ks w : quiet w → collect_keys ks w = (Ok ks, w).
Proof.
  intros Hq. induction ks as [|k ks IH]; [done|]. cbn. erewrite bind_step_Ok by by apply quiet_ctx.
  by erewrite bind_step_Ok by exact IH.
Qed.

Lemma page_walk_quiet after limit page ks w :
  quiet w → len page < limit →
  page_walk after limit page ks w =
  (Ok (page ++ take (Z.to_nat (limit - len page)) (filter (λ k, ¬ (after ≠ [] ∧ k = after)) ks)), w).
Proof.
  intros Hq. revert page. induction ks as [|k ks IH]; intros page Hl; cbn [page_walk].
  { cbn. by rewrite take_nil, app_nil_r. }
  erewrite bind_step_Ok by by apply quiet_ctx. rewrite filter_cons.
  assert ((0 <? len after) && bool_decide (k = after) = bool_decide (after ≠ [] ∧ k = after)) as ->.
  { destruct after; [|rewrite len_cons; pose proof (len_nonneg after)];
      (case_bool_decide; case_bool_decide; naive_solver lia). }
  case_bool_decide as E.
  - rewrite decide_False by (intros C; by apply C). by apply IH.
  - rewrite decide_True by done. cbv zeta. rewrite len_app, len_cons, len_nil.
    destruct (_ <? limit) eqn:El; bool_to_prop.
    + rewrite IH by (rewrite len_app, len_cons, len_nil; lia). rewrite <- app_assoc. cbn [app].
      rewrite len_app, len_cons, len_nil. do 3 f_equal.
      replace (Z.to_nat (limit - len page)) with (S (Z.to_nat (limit - (len page + (1 + 0))))) by lia. done.
    + replace (Z.to_nat (limit - len page)) with 1%nat by lia. cbn. by rewrite take_0.
Qed.

Lemma page_scan_quiet after limit seen ks w :
  quiet w → 0 < limit → NoDup (seen ++ ks) →
  page_scan after limit (page_of after limit seen) ks w = (Ok (page_of after limit (seen ++ ks)), w).
Proof.
  intros Hq Hl. revert seen. induction ks as [|k ks IH]; intros seen Hd; cbn [page_scan].
  { by rewrite app_nil_r. }
  erewrite bind_step_Ok by by apply quiet_ctx. rewrite insertKeyPage_page_of; [|done|].
  2:{ apply NoDup_app in Hd as (_ & Hd & _). intros Hin. apply (Hd k Hin). by left. }
  rewrite (IH (k :: seen)).
  - do 2 f_equal. apply page_of_proper. cbn. by rewrite Permutation_middle.
  - cbn. by rewrite Permutation_middle.
Qed.

Lemma StronglySorted_filter (P : bytes → Prop) `{∀ x, Decision (P x)} l :
  StronglySorted bytes_le l → StronglySorted bytes_le (filter P l).
Proof.
  induction 1 as [|x l Hs IH Hx]; [constructor|]. rewrite filter_cons. case_decide; [|done].
  constructor; [done|]. rewrite Forall_forall in Hx |- *. intros y [_ Hy]%list_elem_of_filter. by apply Hx.
Qed.
(** A page from the index. *)
Lemma page_index_quiet (after : bytes) (n : Z) (d : gmap bytes bytes) t w :
  quiet w → 0 < n → bt_keys t = dom d →
  page_walk after n [] (bt_AscendGreaterOrEqual after t) w = (Ok (page_of after n (map_keys d)), w).
Proof.
  intros Hq Hn Ht. rewrite page_walk_quiet by (rewrite ?len_nil; done). rewrite len_nil, Z.sub_0_r. cbn [app]. unfold page_of.
  do 3 f_equal. rewrite bt_keys_from, (Ascend_sorted d t Ht), list_filter_filter. symmetry. apply sorted_keys_unique.
  - apply StronglySorted_filter, sorted_keys_sorted.
  - rewrite sorted_keys_perm. rewrite (list_filter_iff _ (in_page after)); [done|].
    intros k. unfold in_page. rewrite bytes_le_lt. split.
    + intros [Hne [<-|?]]; [left|by right]. destruct (decide (after = [])); [done|]. by destruct Hne.
    + intros [->|Hlt]; (split; [intros [Hne ->]|]); [done|destruct k; [by left|by right]| |by right].
      by apply (irreflexivity bytes_lt after).
Qed.
Lemma normalizeKeyPageLimit_pos limit : 0 < normalizeKeyPageLimit limit.
Proof. unfold normalizeKeyPageLimit, DefaultKeyPageSize. case_match; lia. Qed.

(** Both ways to compute a page give the reference. *)
Lemma MemoryStore_ListKeyPage_quiet m after limit w :
  quiet w → ms_wf m →
  MemoryStore_ListKeyPage after limit (m, w) =
  (Ok (with_cursor (page_of after (normalizeKeyPageLimit limit) (map_keys (ms_data m)))), (m, w)).
Proof.
  intros Hq Hm. unfold MemoryStore_ListKeyPage. set (n := normalizeKeyPageLimit limit).
  assert (0 < n) by apply normalizeKeyPageLimit_pos.
  erewrite bind_step_Ok by (apply io_eq; split; [reflexivity|by apply quiet_ctx]). cbv zeta.
  erewrite bind_step_Ok by reflexivity. cbn [fst]. destruct (ms_keys m) as [t|] eqn:Et.
  - by erewrite bind_step_Ok by (apply io_eq; split; [reflexivity|]; apply page_index_quiet; [done|done|by apply (mw_index _ Hm)]).
  - erewrite bind_step_Ok.
    2:{ apply io_eq. split; [reflexivity|]. assert (page_of after n [] = []) as E0 by (unfold page_of; apply take_nil).
        rewrite <- E0 at 1. apply page_scan_quiet; [done|done|]. apply NoDup_fst_map_to_list. }
    by erewrite bind_step_Ok by (apply io_eq; split; [reflexivity|by apply quiet_ctx]).
Qed.
End memory_facts.

(** ** What a blob store promises *)

(** The file system as a component that owns other paths sees it: open
    descriptors, files and the entries of foreign paths stay as they were, and
    an owned path names the file it named or a new one. *)
Record fs_frame (owned : bytes → Prop) (f f' : fs) : Prop := {
  ff_wf : fs_wf f';
  ff_fds : ∀ fd i, fs_fds f !! fd = Some i → fs_fds f' !! fd = Some i;
  ff_ino : ∀ i x, fs_ino f !! i = Some x → fs_ino f' !! i = Some x;
  ff_dir : ∀ p, ¬ owned p → fs_dir f' !! Named p = fs_dir f !! Named p;
  ff_new : ∀ p i, owned p → fs_dir f' !! Named p = Some i →
             fs_dir f !! Named p = Some i ∨ (fs_next f <= i)%nat;
  ff_next : (fs_next f <= fs_next f')%nat
}.
Lemma fs_frame_refl owned f : fs_wf f → fs_frame owned f f.
Proof. split; try done. by left. Qed.
Lemma fs_frame_trans owned f g h : fs_frame owned f g → fs_frame owned g h → fs_frame owned f h.
Proof.
  intros [? F1 I1 D1 N1 X1] [? F2 I2 D2 N2 X2]. split; [done|by auto|by auto|intros p Hp; by rewrite D2, D1| |lia].
  intros p i Hp [Hg|?]%N2; [by apply N1|right; lia|done].
Qed.

(** A call that only reads: descriptors come and go. *)
Record fs_read (f f' : fs) : Prop := {
  fr_dir : fs_dir f' = fs_dir f; fr_sdir : fs_sdir f' = fs_sdir f; fr_ino : fs_ino f' = fs_ino f;
  fr_fds : fs_fds f' = fs_fds f; fr_next : (fs_next f <= fs_next f')%nat
}.
#[export] Instance fs_read_refl : Reflexive fs_read.
Proof. by split. Qed.
Lemma fs_read_eq f f' : f' = f → fs_read f f'.
Proof. by intros ->. Qed.
Lemma fs_read_wf f f' : fs_wf f → fs_read f f' → fs_wf f'.
Proof.
  intros [] []. split; intros *; rewrite ?fr_dir0, ?fr_sdir0, ?fr_ino0, ?fr_fds0; eauto with lia.
  all: intros; eauto using Nat.le_trans.
Qed.
Lemma fs_read_frame owned f f' : fs_wf f → fs_read f f' → fs_frame owned f f'.
Proof.
  intros Hf HR. pose proof (fs_read_wf _ _ Hf HR). destruct HR as [Ed Es Ei Ef En].
  split; [done|by rewrite Ef|by rewrite Ei|by rewrite Ed|rewrite Ed; by left|done].
Qed.
Lemma fs_read_at f f' q : fs_read f f' → file_at f' q = file_at f q.
Proof. intros []. unfold file_at, file_data. by rewrite fr_dir0, fr_ino0. Qed.

(** A file opened for reading. *)
Definition open_read (i : nat) (f : fs) : fs :=
  Fs (fs_dir f) (fs_sdir f) (fs_ino f) (<[fs_next f := i]> (fs_fds f)) (S (fs_next f)).
Definition read_done (f : fs) : fs := Fs (fs_dir f) (fs_sdir f) (fs_ino f) (fs_fds f) (S (fs_next f)).
Lemma read_done_read f : fs_read f (read_done f).
Proof. split; cbn; auto. Qed.

Lemma file_Close_read i f w r w' :
  fs_wf f → w_fs w = open_read i f → file_Close (fs_next f) w = (r, w') → w_fs w' = read_done f.
Proof.
  intros Hf Hw. unfold file_Close. destruct (next_outcome w) as [o w1] eqn:E. apply next_outcome_fs in E as [E _].
  rewrite E, Hw. cbn [open_read fs_fds]. rewrite lookup_insert_eq. intros [= <- <-]. cbn.
  unfold read_done. f_equal. rewrite delete_insert_id; [done|]. apply (wf_fresh_fd _ Hf). lia.
Qed.

(** The other side: what is done to foreign paths does not show in the names
    and the files of the owned ones. *)
Record fs_other (owned : bytes → Prop) (f f' : fs) : Prop := {
  fo_dir : ∀ p, owned p → fs_dir f' !! Named p = fs_dir f !! Named p;
  fo_ino : ∀ p i, owned p → fs_dir f !! Named p = Some i → fs_ino f' !! i = fs_ino f !! i
}.
#[export] Instance fs_other_refl owned : Reflexive (fs_other owned).
Proof. by split. Qed.
#[export] Instance fs_other_trans owned : Transitive (fs_other owned).
Proof.
  intros f g h [D1 I1] [D2 I2]. split; [intros p Hp; by rewrite D2, D1|].
  intros p i Hp Hi. rewrite (I2 p), (I1 p); try done. by rewrite D1.
Qed.

(** A component that owns one path, seen by one that does not own it. *)
Lemma fs_frame_other owned p0 f f' : fs_wf f → fs_frame (eq p0) f f' → ¬ owned p0 → fs_other owned f f'.
Proof.
  intros Hf F Hp. split.
  - intros p Ho. apply (ff_dir _ _ _ F). by intros ->.
  - intros p i _ Hi. destruct (wf_dir _ Hf _ _ Hi) as [x Hx]. by rewrite Hx, (ff_ino _ _ _ F _ _ Hx).
Qed.

(** [atomicWrite] touches the path it writes and nothing else. *)
Lemma aw_frame path data f r f' :
  fs_wf f → aw_result f path data r f' → fs_frame (eq (filepath_Clean path)) f f'.
Proof.
  intros Hf HA. destruct (aw_view _ _ _ _ _ Hf HA) as ([Hw Ef Ei] & _).
  split; [done|intros fd i Hfd; by rewrite Ef|done| | |]; destruct HA as [e|e d st keep|e|]; cbn; try lia; try done.
  - intros p _. destruct keep; [by rewrite lookup_insert_ne|done].
  - intros p Hp. rewrite lookup_insert_ne; [done|]. congruence.
  - intros p Hp. rewrite lookup_insert_ne; [done|]. congruence.
  - by left.
  - intros p i _. destruct keep; [rewrite lookup_insert_ne by done|]; by left.
  - intros p i <-. rewrite lookup_insert_eq. intros [= <-]. by right.
  - intros p i <-. rewrite lookup_insert_eq. intros [= <-]. by right.
Qed.
Lemma atomicWrite_frame path data w r w' :
  fs_wf (w_fs w) → atomicWrite path data w = (r, w') → fs_frame (eq (filepath_Clean path)) (w_fs w) (w_fs w').
Proof. intros Hf HA%atomicWrite_inv; [|done]. by eapply aw_frame. Qed.

(** The contract of [BlobStore]: a store holds a map from keys to data.  [Get]
    returns what the map holds and changes nothing, [Put] replaces one entry or
    fails, neither touches paths that the store does not own, and nothing that
    happens to other paths shows in the store. *)
Class BlobStoreSpec (S : Type) `{BlobStore S} := {
  bs_wf : S → fs → Prop;
  bs_contents : S → fs → gmap bytes bytes;
  bs_owns : S → bytes → Prop;
  bs_Put_run : ∀ k d s w r s' w', fs_wf (w_fs w) → bs_wf s (w_fs w) → bs_Put k d (s, w) = (r, (s', w')) →
    bs_wf s' (w_fs w') ∧ bs_owns s' = bs_owns s ∧ fs_frame (bs_owns s) (w_fs w) (w_fs w') ∧
    match r with
    | Ok _ => bs_contents s' (w_fs w') = <[k := d]> (bs_contents s (w_fs w))
    | Err _ => bs_contents s' (w_fs w') = bs_contents s (w_fs w) ∨
               bs_contents s' (w_fs w') = <[k := d]> (bs_contents s (w_fs w))
    end;
  bs_Get_run : ∀ k s w r s' w', fs_wf (w_fs w) → bs_wf s (w_fs w) → bs_Get k (s, w) = (r, (s', w')) →
    bs_wf s' (w_fs w') ∧ bs_owns s' = bs_owns s ∧ fs_frame (bs_owns s) (w_fs w) (w_fs w') ∧
    bs_contents s' (w_fs w') = bs_contents s (w_fs w) ∧
    match r with Ok d => bs_contents s (w_fs w) !! k = Some d | Err _ => True end;
  bs_stable : ∀ s f f', bs_wf s f → fs_other (bs_owns s) f f' → bs_wf s f' ∧ bs_contents s f' = bs_contents s f
}.

Section memory_spec.
Context {T : Type} `{BTreeLaws T}.

Lemma keyString_Ok k ks : keyString k = Ok ks ↔ ks = k ∧ k ≠ [].
Proof.
  unfold keyString. destruct (len k =? 0) eqn:E; bool_to_prop.
  - split; [done|]. intros [_ Hk]. by apply len_zero in E.
  - split; [intros [= <-]|by intros [-> _]]. split; [done|]. intros ->. done.
Qed.

(** Every run of the operations that change the store. *)
Lemma MemoryStore_Put_run k d m w r m' w' :
  ms_wf m → MemoryStore_Put k d (m, w) = (r, (m', w')) →
  ms_wf m' ∧ w_fs w' = w_fs w ∧
  match r with
  | Ok _ => k ≠ [] ∧ ms_data m' = <[k := d]> (ms_data m)
  | Err _ => m' = m
  end.
Proof.
  intros Hm HP. unfold MemoryStore_Put in HP.
  step HP as [] [m1 w1] E1; apply io_eq in E1 as [-> E1]; apply ctx_Err_fs in E1 as [Ew1 _]; [|done].
  step HP as ks [m1 w2] E2; injection E2 as Ek <- <-; [|done]. apply keyString_Ok in Ek as [-> Hk].
  step HP as [] [m1 w2] E2; apply io_eq in E2 as [-> E2]; apply ctx_Err_fs in E2 as [Ew2 _]; rewrite Ew1 in Ew2; [|done].
  step_Ok HP. cbn [fst snd] in HP. destruct (ensureKeyIndexLocked_wf m Hm) as (Hm' & Ed & t & Et & Ht).
  set (m1 := ensureKeyIndexLocked m) in *. step_Ok HP. cbn [fst] in HP.
  pose proof (Put_wf k d m1 t Hk Hm' Et) as Hwf. rewrite Ed in *.
  case_bool_decide as Ex; step_Ok HP; injection HP as <- <- <-; cbn [fst ms_data ms_keys];
    rewrite ?Ed, ?Et; cbn [fmap option_fmap option_map]; by split_and!.
Qed.

Lemma MemoryStore_Delete_run k m w r m' w' :
  ms_wf m → MemoryStore_Delete k (m, w) = (r, (m', w')) →
  ms_wf m' ∧ w_fs w' = w_fs w ∧
  match r with
  | Ok _ => k ≠ [] ∧ ms_data m' = delete k (ms_data m)
  | Err _ => m' = m
  end.
Proof.
  intros Hm HD. unfold MemoryStore_Delete in HD.
  step HD as [] [m1 w1] E1; apply io_eq in E1 as [-> E1]; apply ctx_Err_fs in E1 as [Ew1 _]; [|done].
  step HD as ks [m1 w2] E2; injection E2 as Ek <- <-; [|done]. apply keyString_Ok in Ek as [-> Hk].
  step HD as [] [m1 w2] E2; apply io_eq in E2 as [-> E2]; apply ctx_Err_fs in E2 as [Ew2 _]; rewrite Ew1 in Ew2; [|done].
  step_Ok HD. cbn [fst] in HD. case_bool_decide as Ex.
  - injection HD as <- <- <-. split_and!; [by apply Delete_wf|done|done|done].
  - stop HD. split_and!; try done. rewrite delete_id; [done|]. by apply eq_None_not_Some.
Qed.

#[export] Program Instance memory_spec : BlobStoreSpec (MemoryStore T) := {|
  bs_wf m _ := ms_wf m;
  bs_contents m _ := ms_data m;
  bs_owns _ _ := False
|}.
Next Obligation.
  intros k d m w r m' w' Hf Hm HP. apply MemoryStore_Put_run in HP as (Hm' & Ew & Hr); [|done].
  rewrite Ew. split_and!; [done|done|by apply fs_frame_refl|]. destruct r as [[]|]; [by destruct Hr|left; by subst].
Qed.
Next Obligation.
  intros k m w r m' w' Hf Hm HG. cbn in HG. unfold MemoryStore_Get in HG.
  step HG as [] [m1 w1] E1; apply io_eq in E1 as [-> E1]; apply ctx_Err_fs in E1 as [Ew1 _].
  2:{ rewrite Ew1. split_and!; [done|done|by apply fs_frame_refl|done|done]. }
  step HG as ks [m1 w2] E2; injection E2 as Ek <- <-.
  2:{ rewrite Ew1. split_and!; [done|done|by apply fs_frame_refl|done|done]. }
  apply keyString_Ok in Ek as [-> Hk]. step_Ok HG. cbn [fst] in HG.
  destruct (ms_data m !! k) as [v|] eqn:Ev; stop HG; rewrite Ew1;
    (split_and!; [done|done|by apply fs_frame_refl|done|done]).
Qed.
Next Obligation. done. Qed.
End memory_spec.

(** ** Operations as data *)

Inductive blob_op :=
  | OpPut (k d : bytes) | OpGet (k : bytes) | OpHas (k : bytes) | OpDelete (k : bytes)
  | OpList | OpPage (after : bytes) (limit : Z).
Inductive blob_reply :=
  | RUnit | RBytes (d : bytes) | RBool (b : bool) | RKeys (ks : list bytes)
  | RPage (ks : list bytes) (next : bytes) | RErr (e : error).
Definition reply {A} (f : A → blob_reply) (r : result A) : blob_reply :=
  match r with Ok a => f a | Err e => RErr e end.

(** One call of an implementation. *)
Definition run_op {S} `{BlobStore S, BlobKeyLister S, BlobKeyPager S} (op : blob_op) (s : S * world) : blob_reply * (S * world) :=
  match op with
  | OpPut k d => let '(r, s') := bs_Put k d s in (reply (λ _, RUnit) r, s')
  | OpGet k => let '(r, s') := bs_Get k s in (reply RBytes r, s')
  | OpHas k => let '(r, s') := bs_Has k s in (reply RBool r, s')
  | OpDelete k => let '(r, s') := bs_Delete k s in (reply (λ _, RUnit) r, s')
  | OpList => let '(r, s') := bs_ListKeys s in (reply RKeys r, s')
  | OpPage after limit => let '(r, s') := bs_ListKeyPage after limit s in (reply (λ p, RPage p.1 p.2) r, s')
  end.
(** One call of the specification: a finite map. *)
Definition spec_op (op : blob_op) (m : gmap bytes bytes) : blob_reply * gmap bytes bytes :=
  let guarded (k : bytes) (answer : blob_reply * gmap bytes bytes) :=
    if bool_decide (k = []) then (RErr storage_ErrKeyEmpty, m) else answer in
  match op with
  | OpPut k d => guarded k (RUnit, <[k := d]> m)
  | OpGet k => guarded k (match m !! k with Some v => RBytes v | None => RErr storage_ErrNotFound end, m)
  | OpHas k => guarded k (RBool (bool_decide (is_Some (m !! k))), m)
  | OpDelete k => guarded k (RUnit, delete k m)
  | OpList => (RKeys (sorted_keys (map_keys m)), m)
  | OpPage after limit =>
      let page := page_of after (normalizeKeyPageLimit limit) (map_keys m) in
      (RPage page (default [] (last page)), m)
  end.

Fixpoint run_all {Op St R} (step : Op → St → R * St) (ops : list Op) (s : St) : list R * St :=
  match ops with
  | [] => ([], s)
  | op :: ops' => let '(r, s1) := step op s in let '(rs, s2) := run_all step ops' s1 in (r :: rs, s2)
  end.

Lemma run_op_spec {T} `{BTreeLaws T} op (m : MemoryStore T) w :
  quiet w → ms_wf m →
  ∃ m', run_op op (m, w) = ((spec_op op (ms_data m)).1, (m', w)) ∧ ms_data m' = (spec_op op (ms_data m)).2 ∧ ms_wf m'.
Proof.
  intros Hq Hm.
  assert (∀ A (k : bytes → M (MemoryStore T * world) A) key, (io ctx_Err ;; ks <- lift (keyString key) ; k ks) (m, w) =
    if bool_decide (key = []) then (Err storage_ErrKeyEmpty, (m, w)) else k key (m, w)) as Hguard.
  { intros A k key. erewrite bind_step_Ok by (apply io_eq; split; [reflexivity|by apply quiet_ctx]).
    unfold keyString. destruct key as [|b key]; [done|].
    replace (len (b :: key) =? 0) with false by (rewrite len_cons; pose proof (len_nonneg key); lia). done. }
  destruct op as [k d|k|k|k| |after limit]; cbn [run_op spec_op bs_Put bs_Get bs_Has bs_Delete memory_BlobStore].
  - destruct (MemoryStore_Put k d (m, w)) as [r [m' w']] eqn:E.
    pose proof E as E'. unfold MemoryStore_Put in E'. rewrite Hguard in E'.
    apply MemoryStore_Put_run in E as (Hm' & _ & Hr); [|done]. exists m'. case_bool_decide as Hk.
    + injection E' as <- <- <-. done.
    + step E' as [] [m1 w1] E1; apply io_eq in E1 as [-> E1]; rewrite quiet_ctx in E1 by done; [|done].
      injection E1 as <-. step_Ok E'. step_Ok E'. cbn [fst] in E'.
      assert (r = Ok tt ∧ w' = w) as [-> ->] by (case_bool_decide; step_Ok E'; injection E' as <- <- <-; done).
      destruct Hr as [_ Hr]. done.
  - unfold MemoryStore_Get. rewrite Hguard. exists m. case_bool_decide; [done|].
    erewrite bind_step_Ok by reflexivity. cbn [fst]. by destruct (ms_data m !! k).
  - unfold MemoryStore_Has. rewrite Hguard. exists m. by case_bool_decide.
  - destruct (MemoryStore_Delete k (m, w)) as [r [m' w']] eqn:E.
    pose proof E as E'. unfold MemoryStore_Delete in E'. rewrite Hguard in E'.
    apply MemoryStore_Delete_run in E as (Hm' & _ & Hr); [|done]. exists m'. case_bool_decide as Hk.
    + injection E' as <- <- <-. done.
    + step E' as [] [m1 w1] E1; apply io_eq in E1 as [-> E1]; rewrite quiet_ctx in E1 by done; [|done].
      injection E1 as <-. step_Ok E'. cbn [fst] in E'.
      assert (r = Ok tt ∧ w' = w) as [-> ->] by (case_bool_decide; injection E' as <- <- <-; done).
      destruct Hr as [_ Hr]. done.
  - exists m. unfold bs_ListKeys, memory_BlobKeyLister, MemoryStore_ListKeys.
    erewrite bind_step_Ok by (apply io_eq; split; [reflexivity|by apply quiet_ctx]).
    erewrite bind_step_Ok by reflexivity. cbn [fst]. destruct (ms_keys m) as [t|] eqn:Et; [|done].
    rewrite io_run, collect_keys_quiet by done. cbn. by rewrite (Ascend_sorted (ms_data m) t (mw_index _ Hm t Et)).
  - exists m. unfold bs_ListKeyPage, memory_BlobKeyPager. rewrite MemoryStore_ListKeyPage_quiet by done. done.
Qed.

(** A verified key is the digest of the data. *)
Lemma VerifySHA256Key_Ok key data : VerifySHA256Key key data = Ok tt ↔ key = SHA256Key data.
Proof.
  unfold VerifySHA256Key, ValidateSHA256Key. rewrite rbind_unit, !guard_Ok, !negb_false_iff, bool_decide_eq_true.
  split; [by intros (_ & ? & _)|]. intros ->. split_and!; try done. unfold SHA256Key, SHA256KeyBytes, len.
  by rewrite length_sha256.
Qed.

(** ** Properties *)

(** C17: The in-memory store refines a finite map.  Whatever calls are made in
    whatever order, on a store whose index has been built or not, every reply is
    the one of a plain map from keys to data: lists of keys are sorted, and a
    page is exactly the next keys after the cursor, computed with the ordered
    index or by a bounded scan of the map in any order. *)
Theorem memory_refines_map {T} `{BTreeLaws T} (ops : list blob_op) (m : MemoryStore T) w (Hq : quiet w) (Hm : ms_wf m) :
  ∃ m', run_all run_op ops (m, w) = ((run_all spec_op ops (ms_data m)).1, (m', w)) ∧
    ms_data m' = (run_all spec_op ops (ms_data m)).2 ∧ ms_wf m'.
Proof.
  revert m Hm. induction ops as [|op ops IH]; intros m Hm; cbn [run_all]; [by exists m|].
  destruct (run_op_spec op m w Hq Hm) as (m1 & -> & Ed & Hm1).
  destruct (spec_op op (ms_data m)) as [r s1]. cbn [fst snd] in *. subst s1.
  destruct (IH m1 Hm1) as (m2 & -> & Ed2 & Hm2). destruct (run_all spec_op ops (ms_data m1)) as [rs s2].
  by exists m2.
Qed.

(** Content keys.  A key verifies exactly when it is the SHA-256 digest of
    the data; the hexadecimal form of a digest parses back to it, and whatever
    parses is a key of 32 bytes. *)
Theorem content_keys data s key :
  (VerifySHA256Key key data = Ok tt ↔ key = SHA256Key data) ∧
  ParseSHA256KeyHex (SHA256KeyHex data) = Ok (SHA256Key data) ∧
  (ParseSHA256KeyHex s = Ok key → len key = SHA256KeyBytes ∧ hex_DecodeString s = Some key).
Proof.
  split_and!; [apply VerifySHA256Key_Ok| |].
  - unfold ParseSHA256KeyHex, SHA256KeyHex, SHA256Key. rewrite hex_roundtrip.
    unfold ValidateSHA256Key, len. rewrite hex_EncodeToString_len, length_sha256. reflexivity.
  - unfold ParseSHA256KeyHex. rewrite guard_Ok. intros [_ Hs]. destruct (hex_DecodeString s) as [k|]; [|done].
    apply rbind_unit in Hs as [Hv [= ->]]. split; [|done]. unfold ValidateSHA256Key in Hv.
    rewrite guard_Ok, negb_false_iff in Hv. lia.
Qed.

(** *** Concrete runs *)

(** A set of keys is a tree that keeps the laws. *)
#[export] Instance set_tree : BTree (gset bytes) := {|
  bt_New := ∅;
  bt_ReplaceOrInsert k t := {[k]} ∪ t;
  bt_Delete k t := t ∖ {[k]};
  bt_Len t := Z.of_nat (size t);
  bt_Ascend t := sorted_keys (elements t);
  bt_AscendGreaterOrEqual k t := filter (bytes_le k) (sorted_keys (elements t))
|}.
#[export] Instance set_tree_laws : BTreeLaws (gset bytes).
Proof.
  refine {| bt_keys := λ t : gset bytes, t |}; try done.
  intros t. split; [apply sorted_keys_sorted|apply sorted_keys_perm].
Defined.

Definition ex_store_ops : list blob_op :=
  [OpPut (lit "b") (lit "2"); OpPut (lit "a") (lit "1"); OpPage [] 1; OpPage (lit "a") 1; OpDelete (lit "b");
   OpHas (lit "b"); OpGet (lit "c"); OpPut [] []].

Lemma memory_refines_map_witness :
  (run_all run_op ex_store_ops (mkMemoryStore (T := gset bytes) ∅ None, ex_world [])).1 =
  [RUnit; RUnit; RPage [lit "a"] (lit "a"); RPage [lit "b"] (lit "b"); RUnit; RBool false;
   RErr storage_ErrNotFound; RErr storage_ErrKeyEmpty].
Proof.
  destruct (memory_refines_map ex_store_ops (mkMemoryStore (T := gset bytes) ∅ None) (ex_world [])) as (m' & E & _);
    [by split|by split|]. rewrite E. vm_compute. reflexivity.
Defined.
