(* ===== verification/Inventory.v ===== *)
(** * Inventories: fingerprints and integrity of a blob store

    storage/inventory.go and storage/integrity.go.  Both walk the keys of a
    store, in pages when the store has a pager and from the complete list when
    it has not.  [PagerSpec] is what they rely on in a pager. *)
From stdpp Require Import sorting.
From S2P Require Import Prelude Go Bits Text Os Journal Blobs.

(** An interface value of type [BlobKeyLister]: nil, a store that can only list
    its keys, or one that can page through them. *)
Inductive Lister (S : Type) :=
  | NilLister
  | PlainLister (list_keys : M (S * world) (list bytes))
  | PagedLister (list_page : bytes → Z → M (S * world) (list bytes * bytes)).
Arguments NilLister {S}.
Arguments PlainLister {S} _.
Arguments PagedLister {S} _.

(** [sort.Slice] by bytewise order. *)
Definition sort_keys (ks : list bytes) : list bytes := sorted_keys ks.

(** The checks on one page: no empty key, beyond the cursor, strictly sorted. *)
Fixpoint check_page (invalid : error) (cursor prev : option bytes) (keys : list bytes) : M world unit :=
  match keys with
  | [] => ret tt
  | key :: keys' =>
      ctx_Err ;;
      if len key =? 0 then throw storage_ErrInventoryKeyEmpty
      else if (match cursor with Some c => bool_decide (bytes_le key c) | None => false end) then throw invalid
      else if (match prev with Some p => bool_decide (bytes_le key p) | None => false end) then throw invalid
      else check_page invalid cursor (Some key) keys'
  end.
(** The page is too long, or its cursor is not its last key. *)
Definition bad_page (keys : list bytes) (next : bytes) : bool :=
  (DefaultKeyPageSize <? len keys) || (len next =? 0) || negb (bool_decide (next = default [] (last keys))).

(** ** inventory.go *)

Record InventorySummary := mkInventorySummary { KeyCount : Z; KeyBytes : Z; Digest : bytes }.
Definition zero_summary : InventorySummary := mkInventorySummary 0 0 (replicate 32 Byte.x00).
Definition DigestHex (s : InventorySummary) : bytes := hex_EncodeToString (Digest s).

(** [digest] is what has been written to the running hash. *)
Definition appendInventoryKey (summary : InventorySummary) (digest key : bytes) : M world (InventorySummary * bytes) :=
  ctx_Err ;;
  if len key =? 0 then throw storage_ErrInventoryKeyEmpty
  else if 2 ^ 32 - 1 <? len key then throw (ErrText (lit "storage: inventory key too large"))
  else ret (mkInventorySummary (KeyCount summary + 1) (KeyBytes summary + len key) (Digest summary),
            digest ++ be_put 4 (len key) ++ key).
Fixpoint append_keys (summary : InventorySummary) (digest : bytes) (keys : list bytes)
    : M world (InventorySummary * bytes) :=
  match keys with
  | [] => ret (summary, digest)
  | key :: keys' =>
      '(summary, digest) <- appendInventoryKey summary digest key ;
      append_keys summary digest keys'
  end.
Definition sealed (summary : InventorySummary) (digest : bytes) : InventorySummary :=
  mkInventorySummary (KeyCount summary) (KeyBytes summary) (sha256 digest).

Definition summarizeInventoryKeys (keys : list bytes) : M world InventorySummary :=
  '(summary, digest) <- append_keys zero_summary [] keys ;
  ret (sealed summary digest).

Section listers.
Context {S : Type}.

(** Every page that does not end the loop has a key, and the cursor is beyond
    all keys seen: more rounds than keys are never needed. *)
Fixpoint summarize_loop (fuel : nat) (page : bytes → Z → M (S * world) (list bytes * bytes))
    (summary : InventorySummary) (digest : bytes) (cursor : option bytes) : M (S * world) InventorySummary :=
  match fuel with
  | O => throw (ErrText [])
  | Datatypes.S fuel' =>
      io ctx_Err ;;
      '(keys, next) <- page (default [] cursor) DefaultKeyPageSize ;
      if len keys =? 0 then
        if negb (len next =? 0) then throw (EWrap storage_ErrInventoryPagerInvalid)
        else ret (sealed summary digest)
      else if bad_page keys next then throw (EWrap storage_ErrInventoryPagerInvalid)
      else
        io (check_page (EWrap storage_ErrInventoryPagerInvalid) cursor None keys) ;;
        '(summary, digest) <- io (append_keys summary digest keys) ;
        summarize_loop fuel' page summary digest (Some next)
  end.
Definition summarizePagedInventory (fuel : nat) (page : bytes → Z → M (S * world) (list bytes * bytes))
    : M (S * world) InventorySummary :=
  summarize_loop fuel page zero_summary [] None.

Definition SummarizeInventory (fuel : nat) (lister : Lister S) : M (S * world) InventorySummary :=
  match lister with
  | NilLister => throw (ErrText (lit "storage: nil inventory lister"))
  | PagedLister page => io ctx_Err ;; summarizePagedInventory fuel page
  | PlainLister list_keys =>
      io ctx_Err ;;
      keys <- list_keys ;
      io (summarizeInventoryKeys (sort_keys keys))
  end.

End listers.

(** ** integrity.go *)

Record IntegritySummary := mkIntegritySummary {
  IKeyCount : Z;
  IKeyBytes : Z;
  ContentAddressedKeys : Z;
  VerifiedKeys : Z;
  VerifiedBytes : Z;
  OpaqueKeys : Z;
  OpaqueBytes : Z;
  CorruptKeys : Z;
  MissingKeys : Z
}.
Definition zero_integrity : IntegritySummary := mkIntegritySummary 0 0 0 0 0 0 0 0 0.

Definition count_key (key : bytes) (s : IntegritySummary) : IntegritySummary :=
  let addressed := len key =? SHA256KeyBytes in
  mkIntegritySummary (IKeyCount s + 1) (IKeyBytes s + len key)
    (if addressed then ContentAddressedKeys s + 1 else ContentAddressedKeys s)
    (VerifiedKeys s) (VerifiedBytes s)
    (if addressed then OpaqueKeys s else OpaqueKeys s + 1)
    (OpaqueBytes s) (CorruptKeys s) (MissingKeys s).
Definition count_missing (s : IntegritySummary) : IntegritySummary :=
  mkIntegritySummary (IKeyCount s) (IKeyBytes s) (ContentAddressedKeys s) (VerifiedKeys s) (VerifiedBytes s)
    (OpaqueKeys s) (OpaqueBytes s) (CorruptKeys s) (MissingKeys s + 1).
Definition count_corrupt (s : IntegritySummary) : IntegritySummary :=
  mkIntegritySummary (IKeyCount s) (IKeyBytes s) (ContentAddressedKeys s) (VerifiedKeys s) (VerifiedBytes s)
    (OpaqueKeys s) (OpaqueBytes s) (CorruptKeys s + 1) (MissingKeys s).
Definition count_verified (data : bytes) (s : IntegritySummary) : IntegritySummary :=
  mkIntegritySummary (IKeyCount s) (IKeyBytes s) (ContentAddressedKeys s) (VerifiedKeys s + 1)
    (VerifiedBytes s + len data) (OpaqueKeys s) (OpaqueBytes s) (CorruptKeys s) (MissingKeys s).
Definition count_opaque (data : bytes) (s : IntegritySummary) : IntegritySummary :=
  mkIntegritySummary (IKeyCount s) (IKeyBytes s) (ContentAddressedKeys s) (VerifiedKeys s) (VerifiedBytes s)
    (OpaqueKeys s) (OpaqueBytes s + len data) (CorruptKeys s) (MissingKeys s).

Section integrity.
Context {S : Type} `{BlobStore S}.

(** The summary is shared with the caller: it is part of the state, and keeps
    what was counted before an error. *)
Definition on_store {A} (m : M (S * world) A) : M (IntegritySummary * (S * world)) A :=
  zoom snd (λ t s, (s.1, t)) m.
Definition count (f : IntegritySummary → IntegritySummary) : M (IntegritySummary * (S * world)) unit :=
  modify (λ s, (f s.1, s.2)).

Fixpoint inspectInventoryKeys (keys : list bytes) : M (IntegritySummary * (S * world)) unit :=
  match keys with
  | [] => ret tt
  | key :: keys' =>
      on_store (io ctx_Err) ;;
      if len key =? 0 then throw storage_ErrInventoryKeyEmpty
      else
        count (count_key key) ;;
        let contentAddressed := len key =? SHA256KeyBytes in
        attempt (on_store (bs_Get key)) (λ r,
          match r with
          | Err e =>
              if errors_Is e storage_ErrNotFound then count count_missing ;; inspectInventoryKeys keys'
              else if contentAddressed && errors_Is e storage_ErrSHA256Mismatch
              then count count_corrupt ;; inspectInventoryKeys keys'
              else throw e
          | Ok data =>
              on_store (io ctx_Err) ;;
              if contentAddressed then
                match VerifySHA256Key key data with
                | Err e =>
                    if errors_Is e storage_ErrSHA256Mismatch
                    then count count_corrupt ;; inspectInventoryKeys keys'
                    else throw e
                | Ok _ => count (count_verified data) ;; inspectInventoryKeys keys'
                end
              else count (count_opaque data) ;; inspectInventoryKeys keys'
          end)
  end.

Fixpoint inspect_loop (fuel : nat) (page : bytes → Z → M (S * world) (list bytes * bytes)) (cursor : option bytes)
    : M (IntegritySummary * (S * world)) unit :=
  match fuel with
  | O => throw (ErrText [])
  | Datatypes.S fuel' =>
      on_store (io ctx_Err) ;;
      '(keys, next) <- on_store (page (default [] cursor) DefaultKeyPageSize) ;
      if len keys =? 0 then
        if negb (len next =? 0)
        then throw (EJoin storage_ErrInventoryPagerInvalid (ErrText (lit "storage: empty page returned cursor")))
        else ret tt
      else if bad_page keys next then throw storage_ErrInventoryPagerInvalid
      else
        on_store (io (check_page storage_ErrInventoryPagerInvalid cursor None keys)) ;;
        inspectInventoryKeys keys ;;
        inspect_loop fuel' page (Some next)
  end.
Definition inspectPagedInventory (fuel : nat) (page : bytes → Z → M (S * world) (list bytes * bytes))
    : M (IntegritySummary * (S * world)) unit := inspect_loop fuel page None.

(** The paged path returns the summary beside the error; the other path
    returns an empty summary with an error. *)
Definition InspectInventory (fuel : nat) (nil_store : bool) (lister : Lister S) (s : S * world)
    : (IntegritySummary * result unit) * (S * world) :=
  if nil_store then ((zero_integrity, Err (ErrText (lit "storage: nil blob store"))), s)
  else
    let empty (r : result IntegritySummary * (S * world)) :=
      match r with
      | (Ok summary, s') => ((summary, Ok tt), s')
      | (Err e, s') => ((zero_integrity, Err e), s')
      end in
    match lister with
    | NilLister => ((zero_integrity, Err (ErrText (lit "storage: nil inventory lister"))), s)
    | PagedLister page =>
        match io ctx_Err s with
        | (Err e, s') => ((zero_integrity, Err e), s')
        | (Ok _, s') =>
            let '(r, (summary, s'')) := inspectPagedInventory fuel page (zero_integrity, s') in ((summary, r), s'')
        end
    | PlainLister list_keys =>
        empty ((io ctx_Err ;;
                keys <- list_keys ;
                λ s, let '(r, (summary, s')) := inspectInventoryKeys (sort_keys keys) (zero_integrity, s) in
                     (match r with Ok _ => Ok summary | Err e => Err e end, s')) s)
    end.
End integrity.

(** ** What a pager promises *)

(** Without faults a pager returns the pages of a duplicate-free collection of
    keys that no page call changes. *)
Class PagerSpec (S : Type) `{BlobKeyPager S} := {
  pg_wf : S → fs → Prop;
  pg_keys : S → fs → list bytes;
  pg_NoDup : ∀ s f, pg_wf s f → NoDup (pg_keys s f);
  pg_nonempty : ∀ s f, pg_wf s f → [] ∉ pg_keys s f;
  pg_run : ∀ after limit s w, quiet w → pg_wf s (w_fs w) → ∃ s' w',
    bs_ListKeyPage after limit (s, w) =
      (Ok (with_cursor (page_of after (normalizeKeyPageLimit limit) (pg_keys s (w_fs w)))), (s', w')) ∧
    quiet w' ∧ pg_wf s' (w_fs w') ∧ pg_keys s' (w_fs w') = pg_keys s (w_fs w)
}.

#[export] Program Instance memory_PagerSpec {T} `{BTreeLaws T} : PagerSpec (MemoryStore T) := {|
  pg_wf m _ := ms_wf m;
  pg_keys m _ := map_keys (ms_data m)
|}.
Next Obligation. intros T ? ? m f _. apply NoDup_fst_map_to_list. Qed.
Next Obligation.
  intros T ? ? m f Hm. cbn. unfold map_keys. intros ([k v] & E & Hin%elem_of_map_to_list)%list_elem_of_fmap.
  cbn in E. subst k. rewrite (mw_nonempty _ Hm) in Hin. done.
Qed.
Next Obligation.
  intros T ? ? after limit m w Hq Hm. exists m, w. split; [by apply MemoryStore_ListKeyPage_quiet|done].
Qed.

(** ** Facts about pages *)

Lemma in_take {A} n (l : list A) x : x ∈ take n l → x ∈ l.
Proof. intros Hx. rewrite <- (take_drop n l). apply elem_of_app. by left. Qed.
Lemma filter_keep {A} (P : A → Prop) `{∀ x, Decision (P x)} l : Forall P l → filter P l = l.
Proof. induction 1; [done|]. by rewrite filter_cons_True, IHForall. Qed.
Lemma filter_drop {A} (P : A → Prop) `{∀ x, Decision (P x)} l : Forall (λ x, ¬ P x) l → filter P l = [].
Proof. induction 1; [done|]. by rewrite filter_cons_False, IHForall. Qed.

Lemma sorted_app_lt A B :
  StronglySorted bytes_le (A ++ B) → NoDup (A ++ B) → ∀ a b, a ∈ A → b ∈ B → bytes_lt a b.
Proof.
  intros Hs Hd a b Ha Hb. induction A as [|x A IH]; [by apply elem_of_nil in Ha|]. cbn in Hs, Hd.
  apply StronglySorted_cons in Hs as [Hx Hs]. apply NoDup_cons in Hd as [Hnin Hd].
  apply elem_of_cons in Ha as [->|Ha]; [|by apply IH]. rewrite Forall_forall in Hx.
  assert (b ∈ A ++ B) as Hin by (apply elem_of_app; by right).
  destruct (proj1 (bytes_le_lt x b) (Hx b Hin)) as [->|?]; done.
Qed.

(** The page after a prefix of the sorted keys is the next part of them. *)
Lemma page_at done_ rest n ks :
  NoDup ks → [] ∉ ks → sorted_keys ks = done_ ++ rest →
  page_of (default [] (last done_)) n ks = take (Z.to_nat n) rest.
Proof.
  intros Hd Hne EL. unfold page_of. f_equal.
  assert (NoDup (done_ ++ rest)) as Hd' by (rewrite <- EL, sorted_keys_perm; done).
  assert (StronglySorted bytes_le (done_ ++ rest)) as Hs by (rewrite <- EL; apply sorted_keys_sorted).
  assert (filter (in_page (default [] (last done_))) (done_ ++ rest) = rest) as Hf.
  { destruct done_ as [|a l _] using rev_ind.
    - cbn. apply filter_keep. apply Forall_forall. intros x _. by left.
    - rewrite last_snoc. cbn [default]. rewrite filter_app.
      assert (a ≠ []) as Ha.
      { intros ->. apply Hne. rewrite <- (sorted_keys_perm ks), EL. rewrite !elem_of_app. left; right. by apply list_elem_of_singleton. }
      rewrite (filter_drop (in_page a) (l ++ [a])).
      + cbn [app]. apply filter_keep. apply Forall_forall. intros b Hb. right.
        apply (sorted_app_lt (l ++ [a]) rest); [done|done| |done]. apply elem_of_app. right. by apply list_elem_of_singleton.
      + apply Forall_forall. intros x Hx [?|Hlt]; [done|]. apply elem_of_app in Hx as [Hx|Hx]; [|apply list_elem_of_singleton in Hx as ->].
        * rewrite <- app_assoc in Hs, Hd'. assert (bytes_lt x a) as Hxa.
          { apply (sorted_app_lt l ([a] ++ rest)); [done|done|done|]. by left. }
          apply (irreflexivity bytes_lt a). by etrans.
        * by apply (irreflexivity bytes_lt a). }
  apply sorted_keys_unique.
  - assert (∀ A B, StronglySorted bytes_le (A ++ B) → StronglySorted bytes_le B) as Hsuf.
    { intros A B. induction A as [|x A IH]; [done|]. cbn. by intros [_ ?]%StronglySorted_cons; apply IH. }
    by eapply Hsuf.
  - rewrite <- Hf. rewrite <- EL. by rewrite sorted_keys_perm.
Qed.

Lemma check_page_quiet invalid cursor prev keys w :
  quiet w → [] ∉ keys → StronglySorted bytes_le keys → NoDup keys →
  (∀ c k, cursor = Some c → k ∈ keys → bytes_lt c k) → (∀ p k, prev = Some p → k ∈ keys → bytes_lt p k) →
  check_page invalid cursor prev keys w = (Ok tt, w).
Proof.
  intros Hq Hne Hs Hd Hc. revert prev. induction keys as [|k keys IH]; intros prev Hp; cbn [check_page]; [done|].
  apply not_elem_of_cons in Hne as [Hk Hne]. apply StronglySorted_cons in Hs as [Hk2 Hs].
  apply NoDup_cons in Hd as [Hnin Hd]. erewrite bind_step_Ok by by apply quiet_ctx.
  destruct (len k =? 0) eqn:E0; bool_to_prop; [by apply len_zero in E0; subst k|].
  assert (∀ o : option bytes, (∀ c, o = Some c → bytes_lt c k) →
    match o with Some c => bool_decide (bytes_le k c) | None => false end = false) as Hno.
  { intros [c|] Ho; [|done]. apply bool_decide_eq_false_2, bytes_lt_not_le. by apply Ho. }
  rewrite (Hno cursor), (Hno prev).
  - apply IH; [done|done|done| |].
    + intros c k' Hc' Hk'. apply (Hc c); [done|by right].
    + intros p k' [= <-] Hk'. rewrite Forall_forall in Hk2.
      destruct (proj1 (bytes_le_lt k k') (Hk2 k' Hk')) as [->|?]; done.
  - intros p Hp'. apply (Hp p); [done|by left].
  - intros c Hc'. apply (Hc c); [done|by left].
Qed.

(** ** The reference of a summary *)

Definition key_block (k : bytes) : bytes := be_put 4 (len k) ++ k.
Definition sum_len (ks : list bytes) : Z := foldr (λ k n, len k + n) 0 ks.
Definition inventory_of (ks : list bytes) : InventorySummary :=
  mkInventorySummary (len ks) (sum_len ks) (sha256 (concat (key_block <$> ks))).

Lemma append_keys_quiet s d ks w :
  quiet w → Forall (λ k, 0 < len k < 2 ^ 32) ks →
  append_keys s d ks w =
  (Ok (mkInventorySummary (KeyCount s + len ks) (KeyBytes s + sum_len ks) (Digest s),
       d ++ concat (key_block <$> ks)), w).
Proof.
  intros Hq. revert s d. induction ks as [|k ks IH]; intros s d Hk; cbn [append_keys].
  { cbn. rewrite len_nil, !Z.add_0_r, app_nil_r. by destruct s. }
  apply Forall_cons in Hk as [Hk1 Hk]. unfold appendInventoryKey. erewrite bind_step_Ok.
  2:{ erewrite bind_step_Ok by by apply quiet_ctx. decide_ifs. reflexivity. }
  cbv beta iota. rewrite IH by done. cbn [KeyCount KeyBytes Digest fmap list_fmap concat sum_len foldr].
  change (foldr (λ k n, len k + n) 0 ks) with (sum_len ks). rewrite len_cons, <- app_assoc. unfold ret.
  do 3 f_equal. f_equal; lia.
Qed.

Section pager_facts.
Context {S : Type} `{PagerSpec S}.

(** The state of a walk through the pages: [rest] is still to come. *)
Definition at_cursor (s : S) (w : world) (done_ rest : list bytes) : Prop :=
  quiet w ∧ pg_wf s (w_fs w) ∧ sorted_keys (pg_keys s (w_fs w)) = done_ ++ rest.

(** One round: the next page of the walk, which passes all checks. *)
Lemma next_page invalid s w done_ rest :
  at_cursor s w done_ rest →
  ∃ s' w', let page := take 256 rest in
    bs_ListKeyPage (default [] (last done_)) DefaultKeyPageSize (s, w) = (Ok (page, default [] (last page)), (s', w')) ∧
    at_cursor s' w' (done_ ++ page) (drop 256 rest) ∧
    (∀ w2, quiet w2 → check_page invalid (last done_) None page w2 = (Ok tt, w2)) ∧
    (page ≠ [] → bad_page page (default [] (last page)) = false) ∧ last (done_ ++ page) = (if bool_decide (page = []) then last done_ else last page).
Proof.
  intros (Hq & Hwf & EL). set (ks := pg_keys s (w_fs w)) in *.
  destruct (pg_run (default [] (last done_)) DefaultKeyPageSize s w Hq Hwf) as (s' & w' & HP & Hq' & Hwf' & Ek).
  pose proof (pg_NoDup _ _ Hwf) as Hd. pose proof (pg_nonempty _ _ Hwf) as Hne. fold ks in HP, Ek, Hd, Hne.
  rewrite (page_at done_ rest) in HP by done. change (Z.to_nat (normalizeKeyPageLimit DefaultKeyPageSize)) with 256%nat in HP.
  exists s', w'. cbv zeta. unfold with_cursor in HP.
  assert (sorted_keys ks = (done_ ++ take 256 rest) ++ drop 256 rest) as EL'.
  { by rewrite <- app_assoc, take_drop. }
  assert (StronglySorted bytes_le (sorted_keys ks)) as Hs by apply sorted_keys_sorted.
  assert (NoDup (sorted_keys ks)) as Hd2 by by rewrite sorted_keys_perm.
  assert (∀ k, k ∈ take 256 rest → k ∈ ks) as Hin.
  { intros k Hk. rewrite <- (sorted_keys_perm ks), EL. apply elem_of_app. right. by eapply in_take. }
  assert (StronglySorted bytes_le (take 256 rest) ∧ NoDup (take 256 rest)) as [Hsp Hdp].
  { rewrite EL', <- app_assoc in Hs, Hd2. split.
    - clear -Hs. revert Hs. generalize (take 256 rest) as p. generalize (drop 256 rest) as q. intros q p.
      induction done_ as [|x l IH]; cbn; [|by intros [_ ?]%StronglySorted_cons; apply IH].
      induction p as [|y p IHp]; cbn; [constructor|]. intros [Hy ?]%StronglySorted_cons. constructor; [by apply IHp|].
      by apply Forall_app in Hy as [? _].
    - apply NoDup_app in Hd2 as (_ & _ & Hd2). by apply NoDup_app in Hd2 as (? & _ & _). }
  split_and!.
  - exact HP.
  - split_and!; [done|done|]. by rewrite Ek.
  - intros w2 Hq2. apply check_page_quiet; [done| |done|done| |done].
    + intros Hk. by apply Hne, Hin.
    + intros c k Hc Hk. rewrite EL in Hs, Hd2. apply (sorted_app_lt done_ rest); [done|done|by apply last_Some_elem_of|].
      by eapply in_take.
  - intros Hp. unfold bad_page. destruct (last (take 256 rest)) as [x|] eqn:El; [|by apply last_None in El].
    cbn [default]. rewrite bool_decide_eq_true_2 by done. rewrite orb_false_r, orb_false_iff. split.
    + apply Z.ltb_ge. unfold len, DefaultKeyPageSize. rewrite length_take. lia.
    + apply Z.eqb_neq. intros E0%len_zero. cbn in E0. subst x. apply Hne, Hin. by apply last_Some_elem_of.
  - case_bool_decide as Ep; [by rewrite Ep, app_nil_r|]. rewrite last_app.
    destruct (last (take 256 rest)) eqn:El; [done|]. by apply last_None in El.
Qed.

Lemma summarize_loop_exact fuel s w done_ rest sum dig :
  at_cursor s w done_ rest → Forall (λ k, 0 < len k < 2 ^ 32) rest → (length rest < fuel)%nat →
  ∃ s' w', summarize_loop fuel bs_ListKeyPage sum dig (last done_) (s, w) =
    (Ok (mkInventorySummary (KeyCount sum + len rest) (KeyBytes sum + sum_len rest)
          (sha256 (dig ++ concat (key_block <$> rest)))), (s', w')) ∧
    quiet w' ∧ pg_wf s' (w_fs w') ∧ pg_keys s' (w_fs w') = pg_keys s (w_fs w).
Proof.
  revert s w done_ rest sum dig. induction fuel as [|fuel IH]; intros s w done_ rest sum dig Hat Hk Hf; [lia|].
  cbn [summarize_loop]. pose proof Hat as (Hq & Hwf & EL).
  erewrite bind_step_Ok by (apply io_eq; split; [reflexivity|by apply quiet_ctx]).
  destruct (next_page (EWrap storage_ErrInventoryPagerInvalid) s w done_ rest Hat)
    as (s1 & w1 & Hpage & Hat1 & Hcheck & Hbad & Hlast).
  erewrite bind_step_Ok by exact Hpage. cbv beta iota.
  assert (pg_keys s1 (w_fs w1) = pg_keys s (w_fs w)) as Ek1.
  { destruct (pg_run (default [] (last done_)) DefaultKeyPageSize s w Hq Hwf) as (s2 & w2 & HP & _ & _ & Ek).
    rewrite Hpage in HP. unfold with_cursor in HP. by injection HP as _ _ <- <-. }
  destruct rest as [|k rest].
  { cbn. exists s1, w1. rewrite len_nil, app_nil_r, !Z.add_0_r. destruct Hat1 as (? & ? & _). done. }
  assert (take 256 (k :: rest) ≠ []) as Hne by done. rewrite (Hbad Hne).
  destruct (len (take 256 (k :: rest)) =? 0) eqn:E0; bool_to_prop; [by apply len_zero in E0|].
  pose proof Hat1 as (Hq1 & _ & _).
  erewrite bind_step_Ok by (apply io_eq; split; [reflexivity|by apply Hcheck]).
  erewrite bind_step_Ok.
  2:{ apply io_eq. split; [reflexivity|]. apply append_keys_quiet; [done|]. by apply Forall_take. }
  cbv beta iota. rewrite (bool_decide_eq_false_2 _ Hne) in Hlast.
  assert (Some (default [] (last (take 256 (k :: rest)))) = last (done_ ++ take 256 (k :: rest))) as Ecur.
  { rewrite Hlast. destruct (last (take 256 (k :: rest))) eqn:El; [done|]. by apply last_None in El. }
  rewrite Ecur.
  destruct (IH s1 w1 (done_ ++ take 256 (k :: rest)) (drop 256 (k :: rest))
    (mkInventorySummary (KeyCount sum + len (take 256 (k :: rest))) (KeyBytes sum + sum_len (take 256 (k :: rest))) (Digest sum))
    (dig ++ concat (key_block <$> take 256 (k :: rest)))) as (s2 & w2 & E2 & Hq2 & Hwf2 & Ek2).
  - done.
  - by apply Forall_drop.
  - rewrite length_drop. cbn [length] in *. lia.
  - exists s2, w2. split_and!; [|done|done|by rewrite Ek2]. rewrite E2. cbn [KeyCount KeyBytes Digest].
    assert (∀ a b, sum_len (a ++ b) = sum_len a + sum_len b) as Hsum.
    { intros a b. induction a as [|x a IHa]; [done|]. cbn in *. fold (sum_len (a ++ b)) (sum_len a). lia. }
    rewrite <- app_assoc, <- concat_app, <- fmap_app, take_drop.
    rewrite <- !Z.add_assoc, <- Hsum, <- len_app, take_drop. done.
Qed.
End pager_facts.

(** ** The reference of an inspection *)

Definition inspect_key (o : option bytes) (key : bytes) (s : IntegritySummary) : IntegritySummary :=
  let s := count_key key s in
  match o with
  | None => count_missing s
  | Some data =>
      if len key =? SHA256KeyBytes
      then if bool_decide (key = SHA256Key data) then count_verified data s else count_corrupt s
      else count_opaque data s
  end.
Definition integrity_of (m : gmap bytes bytes) (keys : list bytes) (s : IntegritySummary) : IntegritySummary :=
  foldl (λ s k, inspect_key (m !! k) k s) s keys.

(** An entry whose key claims to be the digest of its data and is not. *)
Definition corrupt_entry (m : gmap bytes bytes) (k : bytes) : Prop :=
  len k = SHA256KeyBytes ∧ ∃ d, m !! k = Some d ∧ k ≠ SHA256Key d.

Lemma integrity_of_counts m keys s :
  let s' := integrity_of m keys s in
  IKeyCount s' = IKeyCount s + len keys ∧ IKeyBytes s' = IKeyBytes s + sum_len keys ∧
  ContentAddressedKeys s' + OpaqueKeys s' = ContentAddressedKeys s + OpaqueKeys s + len keys ∧
  CorruptKeys s <= CorruptKeys s' ∧
  (CorruptKeys s' = CorruptKeys s ↔ Forall (λ k, ¬ corrupt_entry m k) keys) ∧
  (Forall (λ k, is_Some (m !! k)) keys → MissingKeys s' = MissingKeys s ∧
     VerifiedKeys s' + CorruptKeys s' - ContentAddressedKeys s' = VerifiedKeys s + CorruptKeys s - ContentAddressedKeys s).
Proof.
  cbv zeta. revert s. induction keys as [|k keys IH]; intros s; cbn [integrity_of foldl sum_len foldr].
  { rewrite len_nil, Forall_nil. split_and!; lia || done. }
  fold (integrity_of m keys (inspect_key (m !! k) k s)). fold (sum_len keys).
  destruct (IH (inspect_key (m !! k) k s)) as (H1 & H2 & H3 & H4 & H5 & H6). clear IH.
  set (s1 := inspect_key (m !! k) k s) in *. set (s2 := integrity_of m keys s1) in *.
  assert (IKeyCount s1 = IKeyCount s + 1 ∧ IKeyBytes s1 = IKeyBytes s + len k ∧
    ContentAddressedKeys s1 + OpaqueKeys s1 = ContentAddressedKeys s + OpaqueKeys s + 1 ∧
    (CorruptKeys s1 = CorruptKeys s ∧ ¬ corrupt_entry m k ∨ CorruptKeys s1 = CorruptKeys s + 1 ∧ corrupt_entry m k) ∧
    (is_Some (m !! k) → MissingKeys s1 = MissingKeys s ∧
     VerifiedKeys s1 + CorruptKeys s1 - ContentAddressedKeys s1 = VerifiedKeys s + CorruptKeys s - ContentAddressedKeys s))
    as (G1 & G2 & G3 & G4 & G5).
  { unfold s1, inspect_key, corrupt_entry. destruct (m !! k) as [d|].
    - destruct (len k =? SHA256KeyBytes) eqn:E; [case_bool_decide|]; cbn -[SHA256Key]; rewrite ?E;
        bool_to_prop; do 3 (split; [lia|]); (split; [|intros _; lia]).
      + left. split; [done|]. intros (_ & d' & [= <-] & Hd). done.
      + right. split; [done|]. split; [done|]. by exists d.
      + left. split; [done|]. by intros (Hl & _).
    - cbn -[SHA256Key]. destruct (len k =? SHA256KeyBytes); do 3 (split; [lia|]); (split; [|by intros [? [=]]]);
        left; (split; [done|]); by intros (_ & d & [=] & _). }
  rewrite len_cons, !Forall_cons. split_and!; try lia.
  - rewrite <- H5. destruct G4 as [[? ?]|[? ?]]; naive_solver lia.
  - intros [Hk Hf]. destruct (G5 Hk), (H6 Hf). split; lia.
Qed.

Section inspection.
Context {T : Type} `{BTreeLaws T}.

Lemma MemoryStore_Get_quiet (m : MemoryStore T) k w :
  quiet w → k ≠ [] →
  MemoryStore_Get k (m, w) = (match ms_data m !! k with Some d => Ok d | None => Err storage_ErrNotFound end, (m, w)).
Proof.
  intros Hq Hk. unfold MemoryStore_Get. erewrite bind_step_Ok by (apply io_eq; split; [reflexivity|by apply quiet_ctx]).
  erewrite bind_step_Ok by (apply lift_Ok; split; [by apply keyString_Ok|reflexivity]).
  erewrite bind_step_Ok by reflexivity. cbn. by destruct (ms_data m !! k).
Qed.

Lemma on_store_ctx s (m : MemoryStore T) w : quiet w → on_store (io ctx_Err) (s, (m, w)) = (Ok tt, (s, (m, w))).
Proof. intros Hq. unfold on_store, zoom. cbn [snd fst]. rewrite io_run, quiet_ctx by done. done. Qed.

Lemma inspectInventoryKeys_quiet keys s (m : MemoryStore T) w :
  quiet w → [] ∉ keys → inspectInventoryKeys keys (s, (m, w)) = (Ok tt, (integrity_of (ms_data m) keys s, (m, w))).
Proof.
  intros Hq. revert s. induction keys as [|k keys IH]; intros s Hne; cbn [inspectInventoryKeys]; [done|].
  apply not_elem_of_cons in Hne as [Hk Hne]. erewrite bind_step_Ok by by apply on_store_ctx.
  destruct (len k =? 0) eqn:E0; bool_to_prop; [by apply len_zero in E0; subst k|].
  erewrite bind_step_Ok by reflexivity. cbn [fst snd]. unfold attempt, on_store at 1, zoom. cbn [fst snd bs_Get memory_BlobStore].
  rewrite MemoryStore_Get_quiet by done. cbn [integrity_of foldl]. unfold inspect_key.
  destruct (ms_data m !! k) as [d|]; cbn [errors_Is].
  - erewrite bind_step_Ok by by apply on_store_ctx. destruct (len k =? SHA256KeyBytes) eqn:E; bool_to_prop.
    + unfold VerifySHA256Key, ValidateSHA256Key. rewrite (proj2 (Z.eqb_eq _ _) E). cbn [negb rbind].
      case_bool_decide; cbn [negb].
      * erewrite bind_step_Ok by reflexivity. cbn [fst snd]. by apply IH.
      * assert (errors_Is storage_ErrSHA256Mismatch storage_ErrSHA256Mismatch = true) as -> by by cbn.
        erewrite bind_step_Ok by reflexivity. cbn [fst snd]. by apply IH.
    + erewrite bind_step_Ok by reflexivity. cbn [fst snd]. by apply IH.
  - assert (bool_decide (storage_ErrNotFound = storage_ErrNotFound) || false = true) as -> by by rewrite bool_decide_eq_true_2.
    erewrite bind_step_Ok by reflexivity. cbn [fst snd]. by apply IH.
Qed.

Lemma inspect_loop_exact fuel (m : MemoryStore T) w done_ rest s :
  at_cursor m w done_ rest → (length rest < fuel)%nat →
  inspect_loop fuel MemoryStore_ListKeyPage (last done_) (s, (m, w)) =
  (Ok tt, (integrity_of (ms_data m) rest s, (m, w))).
Proof.
  revert done_ rest s. induction fuel as [|fuel IH]; intros done_ rest s Hat Hf; [lia|].
  cbn [inspect_loop]. pose proof Hat as (Hq & Hwf & EL). erewrite bind_step_Ok by by apply on_store_ctx.
  destruct (next_page storage_ErrInventoryPagerInvalid m w done_ rest Hat)
    as (m1 & w1 & Hpage & Hat1 & Hcheck & Hbad & Hlast). cbn [bs_ListKeyPage] in Hpage.
  assert (m1 = m ∧ w1 = w) as [-> ->].
  { unfold bs_ListKeyPage, memory_BlobKeyPager in Hpage. rewrite MemoryStore_ListKeyPage_quiet in Hpage by done.
    by injection Hpage as _ _ <- <-. }
  erewrite bind_step_Ok.
  2:{ unfold on_store, zoom. cbn [fst snd]. unfold bs_ListKeyPage, memory_BlobKeyPager in Hpage. by rewrite Hpage. }
  cbv beta iota. destruct rest as [|k rest]; [done|].
  assert (take 256 (k :: rest) ≠ []) as Hne by done. rewrite (Hbad Hne).
  destruct (len (take 256 (k :: rest)) =? 0) eqn:E0; bool_to_prop; [by apply len_zero in E0|].
  erewrite bind_step_Ok.
  2:{ unfold on_store, zoom. cbn [fst snd]. rewrite io_run, Hcheck by done. reflexivity. }
  assert ([] ∉ take 256 (k :: rest)) as Hn.
  { intros Hin%in_take. apply (pg_nonempty m (w_fs w) Hwf). rewrite <- sorted_keys_perm, EL. apply elem_of_app. by right. }
  erewrite bind_step_Ok by by apply inspectInventoryKeys_quiet.
  rewrite (bool_decide_eq_false_2 _ Hne) in Hlast.
  assert (Some (default [] (last (take 256 (k :: rest)))) = last (done_ ++ take 256 (k :: rest))) as ->.
  { rewrite Hlast. destruct (last (take 256 (k :: rest))) eqn:El; [done|]. by apply last_None in El. }
  rewrite (IH _ (drop 256 (k :: rest))); [|done|rewrite length_drop; cbn [length] in *; lia].
  unfold integrity_of. by rewrite <- foldl_app, take_drop.
Qed.
End inspection.

(** ** Claims *)

(** C20: The fingerprint of an inventory does not depend on how the store is
    listed: without faults, paging through any store that keeps the promises of
    a pager and listing any store that returns its keys in any order both give
    the count, the total size and the SHA-256 digest of the length-prefixed
    keys in bytewise order; the paged loop ends within one round per key. *)
Theorem SummarizeInventory_exact {S : Type} `{PagerSpec S} (s : S) (w : world) (ks : list bytes) (fuel : nat) :
  quiet w → pg_wf s (w_fs w) → Forall (λ k, len k < 2 ^ 32) (pg_keys s (w_fs w)) →
  ks ≡ₚ pg_keys s (w_fs w) → (length ks < fuel)%nat →
  let inv := inventory_of (sorted_keys (pg_keys s (w_fs w))) in
  (SummarizeInventory fuel (PagedLister bs_ListKeyPage) (s, w)).1 = Ok inv ∧
  (SummarizeInventory fuel (PlainLister (ret ks)) (s, w)).1 = Ok inv.
Proof.
  intros Hq Hwf Hlen Hks Hf inv. pose proof (pg_nonempty s (w_fs w) Hwf) as Hne.
  assert (Forall (λ k, 0 < len k < 2 ^ 32) (sorted_keys (pg_keys s (w_fs w)))) as Hk.
  { rewrite sorted_keys_perm. apply Forall_forall. intros k Hin. rewrite Forall_forall in Hlen. specialize (Hlen k Hin).
    destruct k as [|b k]; [by apply Hne in Hin|]. rewrite len_cons in *. pose proof (len_nonneg k). lia. }
  split; unfold SummarizeInventory.
  - erewrite bind_step_Ok by (apply io_eq; split; [reflexivity|by apply quiet_ctx]).
    destruct (summarize_loop_exact fuel s w [] (sorted_keys (pg_keys s (w_fs w))) zero_summary [])
      as (s' & w' & E & _); [done|done|by rewrite sorted_keys_perm, <- Hks|].
    unfold summarizePagedInventory. cbn [last] in E. rewrite E. done.
  - erewrite bind_step_Ok by (apply io_eq; split; [reflexivity|by apply quiet_ctx]).
    erewrite bind_step_Ok by reflexivity. unfold sort_keys. rewrite (sorted_keys_proper _ _ Hks).
    unfold summarizeInventoryKeys. rewrite io_run. erewrite bind_step_Ok by by apply append_keys_quiet. done.
Qed.

(** An inspection of a memory store without faults counts every key once
    and the same whether it pages or lists; no key is missing, every key of
    digest length is counted as verified or as corrupt, and the corrupt count
    is zero exactly when every such key is the digest of its data. *)
Theorem InspectInventory_exact {T : Type} `{BTreeLaws T} (m : MemoryStore T) (w : world) (ks : list bytes) (fuel : nat) :
  quiet w → ms_wf m → ks ≡ₚ map_keys (ms_data m) → (length ks < fuel)%nat →
  ∃ s : IntegritySummary,
    InspectInventory fuel false (PagedLister MemoryStore_ListKeyPage) (m, w) = ((s, Ok tt), (m, w)) ∧
    InspectInventory fuel false (PlainLister (ret ks)) (m, w) = ((s, Ok tt), (m, w)) ∧
    IKeyCount s = len ks ∧ ContentAddressedKeys s + OpaqueKeys s = len ks ∧ MissingKeys s = 0 ∧
    ContentAddressedKeys s = VerifiedKeys s + CorruptKeys s ∧
    (CorruptKeys s = 0 ↔ ∀ k, ¬ corrupt_entry (ms_data m) k).
Proof.
  intros Hq Hwf Hks Hf. set (sk := sorted_keys (map_keys (ms_data m))).
  assert ([] ∉ sk) as Hne by (unfold sk; rewrite sorted_keys_perm; apply (pg_nonempty (PagerSpec := memory_PagerSpec) m (w_fs w) Hwf)).
  exists (integrity_of (ms_data m) sk zero_integrity). split; [|split].
  - unfold InspectInventory. rewrite io_run, quiet_ctx by done. unfold inspectPagedInventory.
    rewrite (inspect_loop_exact fuel m w [] sk zero_integrity); [done|done|]. unfold sk. by rewrite sorted_keys_perm, <- Hks.
  - unfold InspectInventory. erewrite bind_step_Ok by (apply io_eq; split; [reflexivity|by apply quiet_ctx]).
    erewrite bind_step_Ok by reflexivity. unfold sort_keys. rewrite (sorted_keys_proper _ _ Hks). by rewrite inspectInventoryKeys_quiet.
  - destruct (integrity_of_counts (ms_data m) sk zero_integrity) as (E1 & E2 & E3 & E4 & E5 & E6). cbn in E1, E2, E3, E4, E5, E6.
    assert (len sk = len ks) as El by (unfold sk, len; by rewrite sorted_keys_perm, Hks).
    assert (∀ k, k ∈ sk ↔ is_Some (ms_data m !! k)) as Hin.
    { intros k. unfold sk. rewrite sorted_keys_perm. unfold map_keys. rewrite list_elem_of_fmap. split.
      - intros ([k' v] & -> & Hin%elem_of_map_to_list). by eexists.
      - intros [v Hv]. exists (k, v). by rewrite elem_of_map_to_list. }
    destruct E6 as [E6 E7]; [by apply Forall_forall; intros k Hk; apply Hin|].
    split_and!; [lia|lia|lia|lia|]. rewrite E5, Forall_forall. split.
    + intros Hall k Hc. apply (Hall k); [|done]. apply Hin. destruct Hc as (_ & d & -> & _). by eexists.
    + intros Hall k _. apply Hall.
Qed.

(** *** Concrete runs *)

#[local] Abbreviation ex_blobs :=
  (mkMemoryStore (T := gset bytes) {[lit "b" := lit "2"; lit "a" := lit "1"]} None) (only parsing).

Lemma SummarizeInventory_exact_witness :
  (SummarizeInventory 3 (PlainLister (ret [lit "b"; lit "a"])) (ex_blobs, ex_world [])).1 =
  Ok (inventory_of [lit "a"; lit "b"]).
Proof.
  destruct (SummarizeInventory_exact ex_blobs (ex_world []) [lit "b"; lit "a"] 3) as [_ E].
  - by split.
  - by split.
  - decide_now.
  - decide_now.
  - cbn. lia.
  - rewrite E. f_equal.
Defined.

(** One key of digest length that is not the digest of its data. *)
#[local] Abbreviation ex_rotten :=
  (mkMemoryStore (T := gset bytes) {[lit "a" := lit "1"; replicate 32 Byte.x00 := lit "2"]} None) (only parsing).

Lemma InspectInventory_exact_witness :
  ∃ s, InspectInventory 3 false (PagedLister MemoryStore_ListKeyPage) (ex_rotten, ex_world []) =
       ((s, Ok tt), (ex_rotten, ex_world [])) ∧ ContentAddressedKeys s = VerifiedKeys s + CorruptKeys s.
Proof.
  destruct (InspectInventory_exact ex_rotten (ex_world []) [lit "a"; replicate 32 Byte.x00] 3)
    as (s & E & _ & _ & _ & _ & E2 & _).
  - by split.
  - by split.
  - decide_now.
  - cbn. lia.
  - exists s. split; [exact E|exact E2].
Defined.
