(* ===== verification/Files.v ===== *)
(** * The file store

    storage/file.go: one file per blob, named by the hex form of its key, in one
    directory, written through a temporary file; and an ordered index of the
    names that is trusted while the directory's modification time stands still.

    The files of the model are regular files and the directory exists from
    [NewFileStore] on.  The temporary files in the directory are those of
    [os.CreateTemp] with the pattern [.streamhive-*].  No other process works
    on the directory while a method runs. *)
From S2P Require Import Prelude Go Bits Text Os Paths Journal Blobs.

(** ** Modification times *)

(** [os.Stat(dir).ModTime()]. *)
Class DirTimes := dir_mtime : fs → bytes → Z.
(** What the index relies on: the time depends on the names in the directory, and
    a time that was seen before means that none has been added or removed since. *)
Class DirTimesLaws `{DirTimes} := {
  dt_same : ∀ f f' d, fs_dir f = fs_dir f' → dir_mtime f d = dir_mtime f' d;
  dt_names : ∀ f f' d, dir_mtime f d = dir_mtime f' d →
    ∀ p, filepath_Dir p = d → is_Some (fs_dir f !! Named p) ↔ is_Some (fs_dir f' !! Named p)
}.

(** [fst_indexModTime] is [None] for the zero time. *)
Record FileStore (T : Type) := mkFileStore { fst_dir : bytes; fst_keys : option T; fst_indexModTime : option Z }.
Arguments mkFileStore {T} _ _ _.
Arguments fst_dir {T} _.
Arguments fst_keys {T} _.
Arguments fst_indexModTime {T} _.

(** ** System calls *)

Definition os_Lstat (path : bytes) : M world nat :=
  syscall (λ f, match fs_dir f !! Named (filepath_Clean path) with
                | Some i => (Ok i, f)
                | None => (Err ErrNotExist, f)
                end).
Definition file_Stat (fd : nat) : M world nat := syscall (with_fd fd (λ i f, (Ok i, f))).
(** [File.Write] reports fewer bytes than it was given as an error. *)
Definition file_WriteAll (fd : nat) (data : bytes) : M world unit :=
  n <- file_Write fd data ;
  if bool_decide (n = length data) then ret tt else throw ErrShortWrite.
Definition dir_entries (dir : bytes) (f : fs) : list entry :=
  filter (λ e, entry_parent e = filepath_Clean dir) (map_to_list (fs_dir f)).*1.

(** ** Helpers *)

Definition temp_prefix : bytes := Eval cbv in lit ".streamhive-".
Definition hidden (name : bytes) : bool := bool_decide (take (length temp_prefix) name = temp_prefix).

Definition isRegularBlobEntry (e : entry) : M world bool :=
  match e with
  | Temp _ _ => ret false
  | Named p =>
      if hidden (base_name p) then ret false
      else attempt (os_Lstat p) (λ r, match r with
                                      | Ok _ => ret true
                                      | Err err => if errors_Is err ErrNotExist then ret false else throw err
                                      end)
  end.
Definition entry_name (e : entry) : bytes := match e with Named p => base_name p | Temp _ _ => temp_prefix end.

Definition validateRegularBlobFile (pathInfo fileInfo : nat) : result unit :=
  if bool_decide (pathInfo = fileInfo) then Ok tt else Err storage_ErrNonRegularEntry.
Definition regularBlobFileInfo (path : bytes) : M world nat :=
  attempt (os_Lstat path) (λ r, match r with
                                | Ok info => ret info
                                | Err err => if errors_Is err ErrNotExist then throw storage_ErrNotFound else throw err
                                end).
Definition openRegularBlobFile (path : bytes) : M world nat :=
  pathInfo <- regularBlobFileInfo path ;
  attempt (os_Open false path) (λ r,
    match r with
    | Err err => if errors_Is err ErrNotExist then throw storage_ErrNotFound else throw err
    | Ok file =>
        on_error
          (fileInfo <- file_Stat file ; lift (validateRegularBlobFile pathInfo fileInfo) ;; ret file)
          (file_Close file)
    end).
(** [io.ReadAll] and [Close], whose errors are checked in this order. *)
Definition read_and_close (file : nat) : M world bytes :=
  attempt (file_ReadAll file) (λ data,
    attempt (file_Close file) (λ closed,
      match data, closed with
      | Err err, _ => throw err
      | Ok _, Err err => throw err
      | Ok d, Ok _ => ret d
      end)).

(** The part of [Put] after which the temporary file is kept. *)
Definition write_temp (tmp : nat) (tmpName : entry) (path data : bytes) : M world unit :=
  on_error (file_WriteAll tmp data) (file_Close tmp) ;;
  on_error (file_Sync tmp) (file_Close tmp) ;;
  file_Close tmp ;;
  ctx_Err ;;
  ctx_Err ;;
  os_Rename tmpName path.

Section file_store.
Context {T : Type} `{BTree T} `{DirTimes}.

Definition NewFileStore (dir : bytes) : M world (FileStore T) :=
  if bool_decide (dir = []) then throw (ErrText (lit "storage: empty directory"))
  else
    syscall (λ f, (Ok tt, f)) ;;                    (* os.MkdirAll *)
    ret (mkFileStore dir None None).

Definition pathFor (s : FileStore T) (key : bytes) : result bytes :=
  if len key =? 0 then Err storage_ErrKeyEmpty else Ok (filepath_Join (fst_dir s) (hex_EncodeToString key)).

Definition os_Stat (dir : bytes) : M world Z := syscall (λ f, (Ok (dir_mtime f (filepath_Clean dir)), f)).

(** *** The index *)

Fixpoint index_entries (es : list entry) (index : T) : M world T :=
  match es with
  | [] => ret index
  | e :: es' =>
      ctx_Err ;;
      regular <- isRegularBlobEntry e ;
      if negb regular then index_entries es' index
      else match hex_DecodeString (entry_name e) with
           | None => throw (EWrap storage_ErrInvalidKeyFilename)
           | Some key => index_entries es' (bt_ReplaceOrInsert key index)
           end
  end.
(** [ReadDir(128)] until the end of the directory. *)
Fixpoint read_batches (fuel : nat) (es : list entry) (index : T) : M world T :=
  match fuel with
  | O => throw (ErrText (lit "fuel"))
  | S fuel' =>
      syscall (λ f, (Ok tt, f)) ;;
      match es with
      | [] => ret index
      | _ => index' <- index_entries (take 128 es) index ; read_batches fuel' (drop 128 es) index'
      end
  end.
Definition readKeyIndex (dir : bytes) : M world T :=
  syscall (λ f, (Ok tt, f)) ;;                      (* os.Open *)
  es <- gets (λ w, dir_entries dir (w_fs w)) ;
  index <- read_batches (S (length es)) es bt_New ;
  ctx_Err ;;
  ret index.

(** The loop of [ensureKeyIndex]: once more while the directory changes. *)
Fixpoint index_loop (fuel : nat) (dir : bytes) (dirInfo : Z) : M world (T * Z) :=
  match fuel with
  | O => throw (ErrText (lit "fuel"))
  | S fuel' =>
      index <- readKeyIndex dir ;
      latestInfo <- os_Stat dir ;
      if latestInfo =? dirInfo then ret (index, latestInfo) else index_loop fuel' dir latestInfo
  end.
Definition ensureKeyIndex : M (FileStore T * world) unit :=
  io ctx_Err ;;
  s <- self ;
  dirInfo <- io (os_Stat (fst_dir s)) ;
  if bool_decide (is_Some (fst_keys s)) && bool_decide (fst_indexModTime s = Some dirInfo) then ret tt
  else
    '(index, latestInfo) <- io (index_loop 2 (fst_dir s) dirInfo) ;
    update (λ s, mkFileStore (fst_dir s) (Some index) (Some latestInfo)).

Definition refreshIndexModTimeLocked : M (FileStore T * world) unit :=
  s <- self ;
  attempt (io (os_Stat (fst_dir s))) (λ r,
    update (λ s, mkFileStore (fst_dir s) (fst_keys s) (match r with Ok info => Some info | Err _ => None end))).
(** Change the index, if there is one, and note the new modification time. *)
Definition update_index (g : T → T) : M (FileStore T * world) unit :=
  s <- self ;
  match fst_keys s with
  | None => ret tt
  | Some _ =>
      update (λ s, mkFileStore (fst_dir s) (g <$> fst_keys s) (fst_indexModTime s)) ;;
      refreshIndexModTimeLocked
  end.

(** *** The store *)

Definition FileStore_Put (key data : bytes) : M (FileStore T * world) unit :=
  io ctx_Err ;;
  s <- self ;
  path <- lift (pathFor s key) ;
  '(tmp, tmpName) <- io (os_CreateTemp (filepath_Clean (fst_dir s))) ;
  io (on_error (write_temp tmp tmpName path data) (os_Remove tmpName)) ;;
  update_index (bt_ReplaceOrInsert key) ;;
  io (syncDirectory (filepath_Clean (fst_dir s))).

Definition FileStore_Get (key : bytes) : M (FileStore T * world) bytes :=
  io ctx_Err ;;
  s <- self ;
  path <- lift (pathFor s key) ;
  file <- io (openRegularBlobFile path) ;
  data <- io (read_and_close file) ;
  match VerifySHA256Key key data with
  | Err err => if errors_Is err storage_ErrInvalidSHA256Key then ret data else throw err
  | Ok _ => ret data
  end.

Definition FileStore_Has (key : bytes) : M (FileStore T * world) bool :=
  io ctx_Err ;;
  s <- self ;
  path <- lift (pathFor s key) ;
  attempt (io (openRegularBlobFile path)) (λ r,
    match r with
    | Err err =>
        if errors_Is err storage_ErrNotFound || errors_Is err storage_ErrNonRegularEntry then ret false else throw err
    | Ok file =>
        if len key =? SHA256KeyBytes then
          data <- io (read_and_close file) ;
          ret (is_Ok (VerifySHA256Key key data))
        else io (file_Close file) ;; ret true
    end).

Definition FileStore_Delete (key : bytes) : M (FileStore T * world) unit :=
  io ctx_Err ;;
  s <- self ;
  path <- lift (pathFor s key) ;
  io ctx_Err ;;
  attempt (io (regularBlobFileInfo path)) (λ r,
    match r with
    | Err infoErr =>
        io ctx_Err ;;
        if errors_Is infoErr storage_ErrNotFound then
          (if bool_decide (is_Some (fst_keys s)) then io ctx_Err else ret tt) ;;
          update_index (bt_Delete key)
        else throw infoErr
    | Ok _ =>
        io ctx_Err ;;
        attempt (io (os_Remove (Named (filepath_Clean path)))) (λ removed,
          let gone := match removed with Ok _ => true | Err err => errors_Is err ErrNotExist end in
          (if gone then update_index (bt_Delete key) else ret tt) ;;
          match removed with
          | Ok _ => io (syncDirectory (filepath_Clean (fst_dir s)))
          | Err err => if gone then ret tt else throw err
          end)
    end).

Definition FileStore_ListKeys : M (FileStore T * world) (list bytes) :=
  ensureKeyIndex ;;
  s <- self ;
  match fst_keys s with
  | Some t => io (collect_keys (bt_Ascend t))
  | None => ret []
  end.

Definition FileStore_ListKeyPage (after : bytes) (limit : Z) : M (FileStore T * world) (list bytes * bytes) :=
  ensureKeyIndex ;;
  let limit := normalizeKeyPageLimit limit in
  s <- self ;
  match fst_keys s with
  | Some t =>
      page <- io (page_walk after limit [] (bt_AscendGreaterOrEqual after t)) ;
      io ctx_Err ;;
      ret (with_cursor page)
  | None => ret ([], [])
  end.

#[export] Instance file_BlobStore : BlobStore (FileStore T) := {|
  bs_Put := FileStore_Put; bs_Get := FileStore_Get; bs_Has := FileStore_Has; bs_Delete := FileStore_Delete
|}.
#[export] Instance file_BlobKeyLister : BlobKeyLister (FileStore T) := FileStore_ListKeys.
#[export] Instance file_BlobKeyPager : BlobKeyPager (FileStore T) := FileStore_ListKeyPage.
End file_store.

(** ** Facts: the temporary file *)

Lemma file_WriteAll_tmp f0 dir data d st w r w' :
  w_fs w = tmp_fs f0 dir d st true → file_WriteAll (fs_next f0) data w = (r, w') →
  ∃ d', w_fs w' = tmp_fs f0 dir d' st true ∧ (r = Ok tt → d' = d ++ data).
Proof.
  intros Hw HW. unfold file_WriteAll in HW.
  assert (fs_fds (w_fs w) !! fs_next f0 = Some (fs_next f0)) as Hfd by (rewrite Hw; apply tmp_fd).
  step HW as n w1 E1; pose proof (file_Write_inv _ _ _ _ _ _ Hfd E1) as (m & Hm & Hfs & Hr);
    rewrite Hw, fs_append_tmp in Hfs; [|eexists; by split].
  subst n. case_bool_decide as El; injection HW as <- <-; (eexists; split; [exact Hfs|]); [|done].
  intros _. by rewrite El, firstn_all.
Qed.

Lemma write_temp_inv f0 dir path data w r w' :
  fs_wf f0 → w_fs w = tmp_fs f0 dir [] [] true →
  write_temp (fs_next f0) (Temp dir (fs_next f0)) path data w = (r, w') →
  (∃ e d st, r = Err e ∧ w_fs w' = tmp_fs f0 dir d st false) ∨ (r = Ok tt ∧ w_fs w' = committed f0 path data).
Proof.
  intros Hwf Hw HW. unfold write_temp in HW.
  step HW as [] w1 E1.
  2:{ apply on_error_Err_inv in E1 as (w2 & E2 & ->). left.
      destruct (file_WriteAll_tmp _ _ _ _ _ _ _ _ Hw E2) as (d & Hd & _).
      destruct (file_Close (fs_next f0) w2) as [rc w3] eqn:E3. eapply file_Close_tmp in E3; eauto. }
  apply on_error_Ok_inv in E1. destruct (file_WriteAll_tmp _ _ _ _ _ _ _ _ Hw E1) as (d & Hd & Hok). rewrite (Hok eq_refl) in Hd.
  step HW as [] w2 E2.
  2:{ apply on_error_Err_inv in E2 as (w3 & E3 & ->). left.
      destruct (file_Sync_tmp _ _ _ _ _ _ _ Hd E3) as [(e' & _ & Hs)|[? _]]; [|done]. rewrite Hd in Hs.
      destruct (file_Close (fs_next f0) w3) as [rc w4] eqn:E4. eapply file_Close_tmp in E4; eauto. }
  apply on_error_Ok_inv in E2. destruct (file_Sync_tmp _ _ _ _ _ _ _ Hd E2) as [(e' & ? & _)|[_ Hs]]; [done|].
  step HW as [] w3 E3; pose proof (file_Close_tmp _ Hwf _ _ _ _ _ _ Hs E3) as Hc; [|left; eauto].
  step HW as [] w4 E4; apply ctx_Err_fs in E4 as [H4 _]; rewrite Hc in H4; [|left; eauto].
  step HW as [] w5 E5; apply ctx_Err_fs in E5 as [H5 _]; rewrite H4 in H5; [|left; eauto].
  destruct (os_Rename_tmp _ Hwf _ _ _ _ _ _ _ H5 HW) as [(e & -> & Hr)|[-> Hr]]; [left; rewrite H5 in Hr; eauto|by right].
Qed.

(** ** Facts: names *)

Lemma hex_chars k c : c ∈ hex_EncodeToString k → ∃ v, 0 <= v < 16 ∧ c = hex_char v.
Proof.
  unfold hex_EncodeToString. induction k as [|b k IH]; [by intros ?%not_elem_of_nil|]. rewrite fmap_cons. cbn [concat app].
  pose proof (byteZ_range b).
  rewrite !elem_of_cons. intros [->|[->|?]]; [..|by apply IH]; (eexists; split; [|done]); Z.to_euclidean_division_equations; lia.
Qed.
Lemma hex_no v c k : byteZ c = v → v < 48 → c ∉ hex_EncodeToString k.
Proof.
  intros Hv Hl (x & Hx & ->)%hex_chars. unfold hex_char in Hv. rewrite byteZ_Zbyte in Hv.
  destruct (x <? 10) eqn:E; bool_to_prop; rewrite Z.mod_small in Hv by lia; lia.
Qed.
Lemma hex_plain k : k ≠ [] → plain (hex_EncodeToString k).
Proof.
  intros Hk. assert (Zbyte 46 ∉ hex_EncodeToString k) as Hd by (apply (hex_no 46); [done|lia]).
  split_and!; [apply (hex_no 47); [done|lia]| |intros E; rewrite E in Hd; by apply Hd; left..].
  intros E%(f_equal length). rewrite hex_EncodeToString_len in E. destruct k; [done|]. cbn in E. lia.
Qed.
Lemma hex_shown k : hidden (hex_EncodeToString k) = false.
Proof.
  apply bool_decide_eq_false. intros E. apply (hex_no 46 (Zbyte 46) k); [done|lia|].
  rewrite <- (take_drop (length temp_prefix) (hex_EncodeToString k)), E. by left.
Qed.
Lemma hex_inj k k' : hex_EncodeToString k = hex_EncodeToString k' → k = k'.
Proof. intros E%(f_equal hex_DecodeString). rewrite !hex_roundtrip in E. by injection E. Qed.

(** The file of a key. *)
Definition key_path (dir k : bytes) : bytes := filepath_Join dir (hex_EncodeToString k).

Section names.
Context (dir : bytes) (Hdir : dir ≠ []).

Lemma key_path_clean k : k ≠ [] → filepath_Clean (key_path dir k) = key_path dir k.
Proof. intros Hk. by apply Join_clean, hex_plain. Qed.
Lemma key_path_dir k : k ≠ [] → filepath_Dir (key_path dir k) = filepath_Clean dir.
Proof. intros Hk. by apply Dir_Join, hex_plain. Qed.
Lemma key_path_base k : k ≠ [] → base_name (key_path dir k) = hex_EncodeToString k.
Proof. intros Hk. by apply base_Join, hex_plain. Qed.
Lemma key_path_inj k k' : k ≠ [] → k' ≠ [] → key_path dir k = key_path dir k' → k = k'.
Proof. intros Hk Hk' E%Join_inj; [by apply hex_inj|done|by apply hex_plain..]. Qed.
End names.

(** ** Facts: what a directory holds *)

Definition entry_key (dir : bytes) (e : entry) : option bytes :=
  match e with
  | Temp _ _ => None
  | Named p =>
      match hex_DecodeString (base_name p) with
      | Some k => if decide (k ≠ [] ∧ p = key_path dir k) then Some k else None
      | None => None
      end
  end.
Definition stored_keys (dir : bytes) (f : fs) : gset bytes := list_to_set (omap (entry_key dir) (map_to_list (fs_dir f)).*1).
(** The blobs of a directory. *)
Definition file_contents (dir : bytes) (f : fs) : gmap bytes bytes :=
  set_to_map (λ k, (k, default [] (file_at f (key_path dir k)))) (stored_keys dir f).

Lemma entry_key_Some dir e k : dir ≠ [] → entry_key dir e = Some k ↔ k ≠ [] ∧ e = Named (key_path dir k).
Proof.
  intros Hd. destruct e as [p|]; cbn; [|naive_solver]. split.
  - destruct (hex_DecodeString (base_name p)); [|done]. case_decide; naive_solver.
  - intros [Hk [= ->]]. rewrite key_path_base, hex_roundtrip by done. by rewrite decide_True.
Qed.
Lemma elem_of_stored_keys dir f k :
  dir ≠ [] → k ∈ stored_keys dir f ↔ k ≠ [] ∧ is_Some (fs_dir f !! Named (key_path dir k)).
Proof.
  intros Hd. unfold stored_keys. rewrite elem_of_list_to_set, list_elem_of_omap. split.
  - intros (e & He & Hk). apply entry_key_Some in Hk as [Hk ->]; [|done]. split; [done|].
    apply list_elem_of_fmap in He as ([e' i] & -> & He%elem_of_map_to_list). by exists i.
  - intros [Hk [i Hi]]. exists (Named (key_path dir k)). split; [|by apply entry_key_Some].
    apply list_elem_of_fmap. exists (Named (key_path dir k), i). split; [done|]. by apply elem_of_map_to_list.
Qed.
Lemma file_contents_lookup dir f k :
  dir ≠ [] → file_contents dir f !! k = if decide (k = []) then None else file_at f (key_path dir k).
Proof.
  intros Hd. apply option_eq. intros d. unfold file_contents. rewrite lookup_set_to_map by (by intros ??? ? [= ->]).
  setoid_rewrite elem_of_stored_keys; [|done]. unfold file_at. split.
  - intros (k' & [Hk [i Hi]] & [= -> <-]). rewrite decide_False by done. by rewrite key_path_clean, Hi.
  - case_decide as Hk; [done|]. rewrite key_path_clean by done. destruct (fs_dir f !! _) as [i|] eqn:Hi; [|done].
    intros [= <-]. exists k. split; [split; [done|]; by exists i|]. by rewrite key_path_clean, Hi.
Qed.
Lemma dom_file_contents dir f : dir ≠ [] → dom (file_contents dir f) = stored_keys dir f.
Proof.
  intros Hd. apply set_eq. intros k. rewrite elem_of_dom, file_contents_lookup, elem_of_stored_keys by done.
  case_decide as Hk; [split; [by intros []|by intros [? _]]|]. unfold file_at. rewrite key_path_clean by done.
  destruct (fs_dir f !! _); split; [done|done|by intros []|by intros [_ []]].
Qed.
(** The contents depend on what the running process sees under the key paths. *)
Lemma file_contents_ext dir f f' :
  dir ≠ [] → (∀ k, k ≠ [] → file_at f' (key_path dir k) = file_at f (key_path dir k)) → file_contents dir f' = file_contents dir f.
Proof.
  intros Hd HE. apply map_eq. intros k. rewrite !file_contents_lookup by done. case_decide; [done|]. by apply HE.
Qed.
Lemma file_contents_insert dir f f' k d :
  dir ≠ [] → k ≠ [] →
  (∀ q, file_at f' q = if bool_decide (filepath_Clean q = filepath_Clean (key_path dir k)) then Some d else file_at f q) →
  file_contents dir f' = <[k := d]> (file_contents dir f).
Proof.
  intros Hd Hk HE. apply map_eq. intros k'. rewrite file_contents_lookup by done.
  destruct (decide (k' = k)) as [->|Hne].
  - rewrite decide_False, lookup_insert_eq, HE by done. by rewrite bool_decide_eq_true_2.
  - rewrite lookup_insert_ne, file_contents_lookup by done. case_decide as Hk'; [done|].
    rewrite HE, bool_decide_eq_false_2; [done|]. rewrite !key_path_clean by done. by intros ?%key_path_inj.
Qed.

(** Every entry that the index would take is the file of a key. *)
Definition names_ok (dir : bytes) (f : fs) : Prop :=
  ∀ p, is_Some (fs_dir f !! Named p) → filepath_Dir p = filepath_Clean dir → hidden (base_name p) = false →
  ∃ k, k ≠ [] ∧ p = key_path dir k.

(** ** Facts: reading *)

Lemma regularBlobFileInfo_run path w r w' :
  regularBlobFileInfo path w = (r, w') →
  w_fs w' = w_fs w ∧
  match r with
  | Ok i => fs_dir (w_fs w) !! Named (filepath_Clean path) = Some i
  | Err e => errors_Is e storage_ErrNotFound = true → fs_dir (w_fs w) !! Named (filepath_Clean path) = None
  end.
Proof.
  unfold regularBlobFileInfo, attempt. destruct (os_Lstat path w) as [rl w1] eqn:E. unfold os_Lstat in E.
  apply syscall_inv in E as [[-> E]|E]; [intros [= <- <-]; split; [exact E|discriminate]|].
  destruct (fs_dir (w_fs w) !! _) eqn:Ei; injection E as <- E; intros [= <- <-]; (split; [by rewrite E|done]).
Qed.

Lemma file_Stat_fs fd w r w' : file_Stat fd w = (r, w') → w_fs w' = w_fs w.
Proof.
  intros [[_ E]|E]%syscall_inv; [done|]. unfold with_fd in E. destruct (fs_fds (w_fs w) !! fd); by injection E as _ <-.
Qed.
Lemma openRegularBlobFile_run path w r w' :
  fs_wf (w_fs w) → openRegularBlobFile path w = (r, w') →
  match r with
  | Ok fd => ∃ i, fd = fs_next (w_fs w) ∧ fs_dir (w_fs w) !! Named (filepath_Clean path) = Some i ∧ w_fs w' = open_read i (w_fs w)
  | Err _ => fs_read (w_fs w) (w_fs w')
  end.
Proof.
  intros Hf HO. unfold openRegularBlobFile in HO.
  step HO as i w1 E1; apply regularBlobFileInfo_run in E1 as [E1 Hi]; [|by apply fs_read_eq].
  unfold attempt in HO. destruct (os_Open false path w1) as [ro w2] eqn:E2.
  assert (match ro with Ok fd => fd = fs_next (w_fs w) ∧ w_fs w2 = open_read i (w_fs w) | Err _ => w_fs w2 = w_fs w end) as Ho.
  { apply syscall_inv in E2 as [[-> E2]|E2]; [by rewrite E2|]. cbv zeta in E2. rewrite E1, Hi in E2. by injection E2 as <- <-. }
  destruct ro as [fd|e].
  2:{ destruct (errors_Is e ErrNotExist); stop HO; by apply fs_read_eq. }
  destruct Ho as [-> Hw2].
  destruct r as [fd|e].
  - apply on_error_Ok_inv in HO. step HO as j w3 E3. step HO as u w4 E4. injection E4 as Ev <-. stop HO.
    exists i. split_and!; [done|done|]. by rewrite (file_Stat_fs _ _ _ _ E3).
  - apply on_error_Err_inv in HO as (w3 & HO & ->).
    assert (w_fs w3 = open_read i (w_fs w)) as Hw3.
    { step HO as j w4 E4; apply file_Stat_fs in E4; rewrite Hw2 in E4; [|done].
      step HO as u w5 E5; [|by injection E5 as _ <-]. stop HO. }
    destruct (file_Close (fs_next (w_fs w)) w3) as [rc w4] eqn:E4. cbn. rewrite (file_Close_read i (w_fs w) _ _ _ Hf Hw3 E4).
    apply read_done_read.
Qed.

Lemma read_and_close_run i f w r w' :
  fs_wf f → w_fs w = open_read i f → read_and_close (fs_next f) w = (r, w') →
  w_fs w' = read_done f ∧ match r with Ok d => d = file_data i f | Err _ => True end.
Proof.
  intros Hf Hw. unfold read_and_close, attempt. destruct (file_ReadAll (fs_next f) w) as [rd w1] eqn:E1.
  eapply file_ReadAll_fs in E1 as [Ew1 Hd]; [|rewrite Hw; cbn; apply lookup_insert_eq].
  rewrite Hw in Ew1. destruct (file_Close (fs_next f) w1) as [rc w2] eqn:E2. eapply file_Close_read in E2; [|done..].
  destruct rd as [d|e]; [|intros [= <- <-]; by split]. destruct rc as [[]|e]; intros [= <- <-]; [|by split]. split; [done|].
  by rewrite Hd, Hw.
Qed.

(** ** Facts: the methods under faults *)

Lemma syncDirectory_run dir w r w' :
  syncDirectory dir w = (r, w') →
  (∃ e, r = Err e ∧ w_fs w' = w_fs w) ∨ (r = Ok tt ∧ w_fs w' = fs_sync_dir dir (w_fs w)).
Proof.
  unfold syncDirectory. intros HS. step HS as v w1 E1; apply syscall_inv in E1 as [[? E1]|[= <- E1]]; try done.
  - apply syscall_inv in HS as [[-> HS]|[= <- HS]]; [left; exists ErrOS; by rewrite HS|right]. by rewrite <- HS, <- E1.
  - left. eauto.
Qed.

Section file_runs.
Context {T : Type} `{BTreeLaws T} `{DirTimes}.
Implicit Types s : FileStore T.

(** The index, once built, holds the keys of the directory. *)
Definition current s (f : fs) : Prop := ∀ t, fst_keys s = Some t → bt_keys t = stored_keys (fst_dir s) f.
Record fstore_wf s (f : fs) : Prop := {
  fw_dir : fst_dir s ≠ [];
  fw_names : names_ok (fst_dir s) f;
  fw_index : current s f
}.

Lemma pathFor_run s k p : pathFor s k = Ok p ↔ k ≠ [] ∧ p = key_path (fst_dir s) k.
Proof.
  unfold pathFor. destruct (len k =? 0) eqn:E; bool_to_prop.
  - split; [done|]. intros [Hk _]. by apply len_zero in E.
  - split; [intros [= <-]; split; [|done]; by intros ->|]. intros [_ ->]. done.
Qed.
Lemma pathFor_nil s : pathFor s [] = Err storage_ErrKeyEmpty.
Proof. done. Qed.

Lemma os_Stat_run dir w r w' :
  os_Stat dir w = (r, w') → w_fs w' = w_fs w ∧ (∀ m, r = Ok m → m = dir_mtime (w_fs w) (filepath_Clean dir)).
Proof. intros [[-> E]|E]%syscall_inv; [done|]. injection E as <- <-. split; [done|]. by intros m [= <-]. Qed.
Lemma update_index_run g s w r s' w' :
  update_index g (s, w) = (r, (s', w')) →
  r = Ok tt ∧ w_fs w' = w_fs w ∧ fst_dir s' = fst_dir s ∧ fst_keys s' = g <$> fst_keys s.
Proof.
  unfold update_index. intros HU. step_Ok HU. cbn [fst] in HU. destruct (fst_keys s) as [t|] eqn:Et; [|stop HU; by rewrite Et].
  step_Ok HU. cbn [fst snd] in HU. unfold refreshIndexModTimeLocked in HU. step_Ok HU. unfold attempt in HU. cbn [fst snd] in HU.
  rewrite io_run in HU. cbn [fst_dir] in HU. destruct (os_Stat (fst_dir s) w) as [rs w1] eqn:E. apply os_Stat_run in E as [E _].
  injection HU as <- <- <-. cbn. by rewrite Et.
Qed.

Lemma aw_names dir k d f r f' :
  dir ≠ [] → (k = [] → f' = f) → fs_wf f → names_ok dir f → aw_result f (key_path dir k) d r f' → names_ok dir f'.
Proof.
  intros Hd Hk Hf Hn HA p Hp Hdir Hh. destruct (decide (k = [])) as [->|Hk0]; [rewrite Hk in Hp by done; by apply Hn|].
  destruct (decide (p = key_path dir k)) as [->|Hne]; [by exists k|]. apply Hn; [|done|done].
  rewrite <- (ff_dir _ _ _ (aw_frame _ _ _ _ _ Hf HA)); [done|]. rewrite key_path_clean by done. by intros <-.
Qed.

(** Every run of [Put]: the file is in place and indexed, or nothing happened. *)
Lemma FileStore_Put_run k d s w r s' w' :
  fs_wf (w_fs w) → fst_dir s ≠ [] → FileStore_Put k d (s, w) = (r, (s', w')) →
  let dir := fst_dir s in
  fst_dir s' = dir ∧ aw_result (w_fs w) (key_path dir k) d r (w_fs w') ∧ (k = [] → w_fs w' = w_fs w) ∧
  ∃ put : bool, (r = Ok tt → put = true) ∧
    fst_keys s' = (if put then bt_ReplaceOrInsert k <$> fst_keys s else fst_keys s) ∧
    file_contents dir (w_fs w') = (if put then <[k := d]> (file_contents dir (w_fs w)) else file_contents dir (w_fs w)).
Proof.
  intros Hf Hd HP dir. unfold FileStore_Put in HP.
  assert (∀ e, w_fs w' = w_fs w → s' = s → r = Err e →
    fst_dir s' = dir ∧ aw_result (w_fs w) (key_path dir k) d r (w_fs w') ∧ (k = [] → w_fs w' = w_fs w) ∧
    ∃ put : bool, (r = Ok tt → put = true) ∧
      fst_keys s' = (if put then bt_ReplaceOrInsert k <$> fst_keys s else fst_keys s) ∧
      file_contents dir (w_fs w') = (if put then <[k := d]> (file_contents dir (w_fs w)) else file_contents dir (w_fs w))) as Hnone.
  { intros e -> -> ->. split_and!; [done|constructor|done|]. by exists false. }
  step HP as [] [s1 w1] E1; apply io_eq in E1 as [-> E1]; apply ctx_Err_fs in E1 as [E1 _]; [|by eapply Hnone].
  step_Ok HP. cbn [fst] in HP. fold dir in HP.
  step HP as path [s2 w2] E2; injection E2 as Ep <- <-; [|by eapply Hnone]. apply pathFor_run in Ep as [Hk ->]. fold dir in HP.
  step HP as [tmp tmpName] [s2 w2] E2; apply io_eq in E2 as [-> E2];
    apply (os_CreateTemp_inv (w_fs w)) in E2 as [(e' & E2 & Hw2)|[E2 Hw2]]; try done; [|by eapply Hnone].
  injection E2 as -> ->. rewrite <- (key_path_dir dir Hd k Hk) in *.
  step HP as [] [s3 w3] E3; apply io_eq in E3 as [-> E3].
  2:{ apply on_error_Err_inv in E3 as (w4 & E3 & ->).
      destruct (write_temp_inv _ _ _ _ _ _ _ Hf Hw2 E3) as [(e2 & d' & st & [= <-] & Hw4)|[? _]]; [|done].
      destruct (os_Remove (Temp (filepath_Dir (key_path dir k)) (fs_next (w_fs w))) w4) as [r5 w5] eqn:E5.
      eapply os_Remove_tmp in E5 as [keep E5]; [|done..]. cbn. rewrite E5.
      split_and!; [done|constructor|done|]. exists false. split_and!; [done|done|]. apply file_contents_ext; [done|]. intros k' _.
      apply file_at_grow; [done|]. destruct keep; [by rewrite lookup_insert_ne|done]. }
  apply on_error_Ok_inv in E3. destruct (write_temp_inv _ _ _ _ _ _ _ Hf Hw2 E3) as [(? & ? & ? & ? & _)|[_ Hw3]]; [done|].
  step HP as u [s4 w4] E4; apply update_index_run in E4 as (Er & Ew4 & Ed4 & Ek4); [|done]. rewrite Hw3 in Ew4.
  apply io_eq in HP as [-> HP].
  apply syncDirectory_run in HP as [(e & -> & Ew)|[-> Ew]]; rewrite Ew, Ew4;
    (split_and!; [done|constructor|done|]); exists true; (split_and!; [done|done|]);
    (apply file_contents_insert; [done|done|]); intros q; by apply file_at_committed.
Qed.

Lemma FileStore_Get_run k s w r s' w' :
  fs_wf (w_fs w) → fst_dir s ≠ [] → FileStore_Get k (s, w) = (r, (s', w')) →
  s' = s ∧ fs_read (w_fs w) (w_fs w') ∧ (∀ d, r = Ok d → file_contents (fst_dir s) (w_fs w) !! k = Some d).
Proof.
  intros Hf Hd HG. unfold FileStore_Get in HG.
  step HG as [] [s1 w1] E1; apply io_eq in E1 as [-> E1]; apply ctx_Err_fs in E1 as [E1 _]; [|by split_and!; [|apply fs_read_eq|]].
  step_Ok HG. cbn [fst] in HG.
  step HG as path [s2 w2] E2; injection E2 as Ep <- <-; [|by split_and!; [|apply fs_read_eq|]]. apply pathFor_run in Ep as [Hk ->].
  step HG as fd [s2 w2] E2; apply io_eq in E2 as [-> E2]; apply openRegularBlobFile_run in E2; rewrite ?E1 in *; try done.
  destruct E2 as (i & -> & Hi & Ew2). rewrite key_path_clean in Hi by done.
  step HG as data [s3 w3] E3; apply io_eq in E3 as [-> E3]; apply (read_and_close_run _ _ _ _ _ Hf Ew2) in E3 as [Ew3 Ed];
    [|rewrite Ew3; split_and!; [done|apply read_done_read|done]].
  assert (s' = s ∧ w' = w3 ∧ ∀ d, r = Ok d → d = data) as (-> & -> & Hr).
  { destruct (VerifySHA256Key k data) as [[]|e]; [|destruct (errors_Is e _)]; stop HG; naive_solver. }
  rewrite Ew3. split_and!; [done|apply read_done_read|]. intros d' ->%Hr. rewrite file_contents_lookup, decide_False by done.
  unfold file_at. rewrite key_path_clean, Hi by done. by subst.
Qed.

(** How a run of [Delete] leaves the file system. *)
Definition removed (f : fs) (path : bytes) : fs :=
  Fs (delete (Named (filepath_Clean path)) (fs_dir f)) (fs_sdir f) (fs_ino f) (fs_fds f) (fs_next f).
Inductive del_result (f : fs) (path : bytes) : result unit → fs → Prop :=
  | del_failed e : del_result f path (Err e) f
  | del_absent : fs_dir f !! Named (filepath_Clean path) = None → del_result f path (Ok tt) f
  | del_unsynced e : del_result f path (Err e) (removed f path)
  | del_done : is_Some (fs_dir f !! Named (filepath_Clean path)) → del_result f path (Ok tt) (fs_sync_dir (filepath_Dir path) (removed f path)).

Lemma file_contents_removed dir f f' k :
  dir ≠ [] → k ≠ [] → (∀ q, file_at f' q = file_at (removed f (key_path dir k)) q) →
  file_contents dir f' = delete k (file_contents dir f).
Proof.
  intros Hd Hk HE. apply map_eq. intros k'. rewrite file_contents_lookup by done.
  destruct (decide (k' = k)) as [->|Hne].
  - rewrite decide_False, lookup_delete_eq, HE by done. unfold file_at, removed. cbn. by rewrite lookup_delete_eq.
  - rewrite lookup_delete_ne, file_contents_lookup by done. case_decide as Hk'; [done|].
    rewrite HE. unfold file_at, removed, file_data. cbn. rewrite lookup_delete_ne; [done|].
    rewrite !key_path_clean by done. by intros [= ?%key_path_inj].
Qed.

(** Every run of [Delete]. *)
Lemma FileStore_Delete_run k s w r s' w' :
  fst_dir s ≠ [] → FileStore_Delete k (s, w) = (r, (s', w')) →
  let dir := fst_dir s in
  fst_dir s' = dir ∧ del_result (w_fs w) (key_path dir k) r (w_fs w') ∧ (k = [] → w_fs w' = w_fs w) ∧
  ∃ gone : bool, (r = Ok tt → gone = true) ∧
    fst_keys s' = (if gone then bt_Delete k <$> fst_keys s else fst_keys s) ∧
    file_contents dir (w_fs w') = (if gone then delete k (file_contents dir (w_fs w)) else file_contents dir (w_fs w)).
Proof.
  intros Hd HD dir. unfold FileStore_Delete in HD.
  assert (∀ e, w_fs w' = w_fs w → s' = s → r = Err e →
    fst_dir s' = dir ∧ del_result (w_fs w) (key_path dir k) r (w_fs w') ∧ (k = [] → w_fs w' = w_fs w) ∧
    ∃ gone : bool, (r = Ok tt → gone = true) ∧
      fst_keys s' = (if gone then bt_Delete k <$> fst_keys s else fst_keys s) ∧
      file_contents dir (w_fs w') = (if gone then delete k (file_contents dir (w_fs w)) else file_contents dir (w_fs w))) as Hnone.
  { intros e -> -> ->. split_and!; [done|constructor|done|]. by exists false. }
  step HD as [] [s1 w1] E1; apply io_eq in E1 as [-> E1]; apply ctx_Err_fs in E1 as [E1 _]; [|by eapply Hnone].
  step_Ok HD. cbn [fst] in HD. fold dir in HD.
  step HD as path [s2 w2] E2; injection E2 as Ep <- <-; [|by eapply Hnone]. apply pathFor_run in Ep as [Hk ->]. fold dir in HD.
  step HD as [] [s2 w2] E2; apply io_eq in E2 as [-> E2]; apply ctx_Err_fs in E2 as [E2 _]; rewrite E1 in E2; [|by eapply Hnone].
  unfold attempt at 1 in HD. rewrite io_run in HD. destruct (regularBlobFileInfo (key_path dir k) w2) as [ri w3] eqn:E3.
  apply regularBlobFileInfo_run in E3 as [E3 Hi]. rewrite E2 in *. cbn [fst snd] in HD. destruct ri as [i|e].
  - step HD as [] [s3 w4] E4; apply io_eq in E4 as [-> E4]; apply ctx_Err_fs in E4 as [E4 _]; rewrite E3 in E4; [|by eapply Hnone].
    unfold attempt at 1 in HD. rewrite io_run in HD.
    destruct (os_Remove (Named (filepath_Clean (key_path dir k))) w4) as [rr w5] eqn:E5. cbn [fst snd] in HD.
    apply syscall_inv in E5 as [[-> E5]|E5].
    { step_Ok HD. stop HD. eapply Hnone; [by rewrite E5|done|done]. }
    rewrite E4, Hi in E5. injection E5 as <- E5. cbv beta zeta iota in HD.
    step HD as u [s6 w6] E6; apply update_index_run in E6 as (? & Ew6 & Ed6 & Ek6); [|done].
    apply io_eq in HD as [-> HD]. rewrite <- (key_path_dir dir Hd k Hk) in HD. rewrite <- E5 in Ew6.
    apply syncDirectory_run in HD as [(e & -> & Ew)|[-> Ew]]; rewrite Ew, Ew6;
      (split_and!; [done|first [apply del_unsynced|apply del_done; by exists i]|done|]); exists true; (split_and!; [done|done|]); by apply file_contents_removed.
  - step HD as [] [s3 w4] E4; apply io_eq in E4 as [-> E4]; apply ctx_Err_fs in E4 as [E4 _]; rewrite E3 in E4; [|by eapply Hnone].
    destruct (errors_Is e storage_ErrNotFound) eqn:En; [|stop HD; by eapply Hnone]. specialize (Hi eq_refl).
    step HD as u [s5 w5] E5.
    2:{ case_bool_decide; [|done]. apply io_eq in E5 as [-> E5]; apply ctx_Err_fs in E5 as [E5 _]. eapply Hnone; [by rewrite E5|done|done]. }
    assert (s5 = s ∧ w_fs w5 = w_fs w) as [-> E5w].
    { case_bool_decide; [|injection E5 as _ <- <-; by split]. apply io_eq in E5 as [-> E5]; apply ctx_Err_fs in E5 as [E5 _].
      by rewrite E5. }
    apply update_index_run in HD as (-> & Ew & Ed & Ek). rewrite Ew, E5w. split_and!; [done|by constructor|done|].
    exists true. split_and!; [done|done|]. rewrite delete_id; [done|]. rewrite file_contents_lookup, decide_False by done.
    unfold file_at. by rewrite Hi.
Qed.

Lemma current_dom s f : fst_dir s ≠ [] → current s f ↔ ∀ t, fst_keys s = Some t → bt_keys t = dom (file_contents (fst_dir s) f).
Proof. intros Hd. unfold current. by rewrite dom_file_contents. Qed.

Definition fstore_owns s (p : bytes) : Prop := filepath_Dir p = filepath_Clean (fst_dir s).

Lemma fs_frame_one (owned : bytes → Prop) p0 f f' : owned p0 → fs_frame (eq p0) f f' → fs_frame owned f f'.
Proof.
  intros Ho [? ? ? D N ?]. split; try done.
  - intros p Hp. apply D. by intros <-.
  - intros p i Hp Hi. destruct (decide (p0 = p)) as [<-|Hne]; [by apply N|]. left. by rewrite <- D.
Qed.
Lemma fstore_wf_read s f f' : fstore_wf s f → fs_read f f' → fstore_wf s f' ∧ file_contents (fst_dir s) f' = file_contents (fst_dir s) f.
Proof.
  intros [Hd Hn Hc] HR. assert (file_contents (fst_dir s) f' = file_contents (fst_dir s) f) as Ec.
  { apply file_contents_ext; [done|]. intros k _. by apply fs_read_at. }
  split; [|done]. split; [done| |apply current_dom; [done|]; rewrite Ec; by apply current_dom].
  intros p. rewrite (fr_dir _ _ HR). apply Hn.
Qed.

#[export] Program Instance file_spec : BlobStoreSpec (FileStore T) := {|
  bs_wf := fstore_wf;
  bs_contents s := file_contents (fst_dir s);
  bs_owns := fstore_owns
|}.
Next Obligation.
  intros k d s w r s' w' Hf [Hd Hn Hc] HP. apply FileStore_Put_run in HP as (Ed & HA & Hk & put & Hok & Ek & Ec); [|done..].
  unfold fstore_owns. rewrite Ed. split_and!; [split; rewrite ?Ed; [done|by eapply aw_names|]|done| |].
  - apply current_dom; rewrite Ed; [done|]. rewrite Ec. intros t'. rewrite Ek. destruct put.
    + intros (t & Ht & ->)%fmap_Some. rewrite bt_keys_insert, (Hc t Ht), dom_insert_L. by rewrite dom_file_contents.
    + rewrite dom_file_contents by done. apply Hc.
  - destruct (decide (k = [])) as [->|Hk0]; [rewrite Hk by done; by apply fs_frame_refl|].
    eapply fs_frame_one; [|by eapply aw_frame]. rewrite key_path_clean by done. by apply key_path_dir.
  - destruct r as [[]|e]; [by rewrite Ec, (Hok eq_refl)|]. rewrite Ec. destruct put; auto.
Qed.
Next Obligation.
  intros k s w r s' w' Hf Hs HG. apply FileStore_Get_run in HG as (-> & HR & Hr); [|done|apply Hs].
  destruct (fstore_wf_read _ _ _ Hs HR) as [Hs' Ec].
  split_and!; [done|done|by apply fs_read_frame|done|]. destruct r; [by apply Hr|done].
Qed.
Next Obligation.
  intros s f f' [Hd Hn Hc] [D I]. assert (file_contents (fst_dir s) f' = file_contents (fst_dir s) f) as Ec.
  { apply file_contents_ext; [done|]. intros k Hk. unfold file_at, file_data. rewrite key_path_clean by done.
    rewrite D by by apply key_path_dir. destruct (fs_dir f !! _) as [i|] eqn:Ei; [|done].
    by rewrite (I _ _ (key_path_dir _ Hd k Hk) Ei). }
  split; [|done]. split; [done| |apply current_dom; [done|]; rewrite Ec; by apply current_dom].
  intros p Hp Hdir. apply Hn; [|done]. by rewrite <- D.
Qed.
End file_runs.

(** ** Facts: the methods without faults *)

Lemma set_fs_same w : set_fs (w_fs w) w = w.
Proof. by destruct w. Qed.

Lemma regularBlobFileInfo_quiet path w :
  quiet w → regularBlobFileInfo path w =
  (match fs_dir (w_fs w) !! Named (filepath_Clean path) with Some i => Ok i | None => Err storage_ErrNotFound end, w).
Proof.
  intros Hq. unfold regularBlobFileInfo, attempt, os_Lstat. rewrite quiet_syscall by done.
  destruct (fs_dir (w_fs w) !! _); cbn [fst snd]; by rewrite set_fs_same.
Qed.
Lemma openRegularBlobFile_quiet path w :
  quiet w → openRegularBlobFile path w =
  match fs_dir (w_fs w) !! Named (filepath_Clean path) with
  | Some i => (Ok (fs_next (w_fs w)), set_fs (open_read i (w_fs w)) w)
  | None => (Err storage_ErrNotFound, w)
  end.
Proof.
  intros Hq. unfold openRegularBlobFile, bind at 1. rewrite regularBlobFileInfo_quiet by done.
  destruct (fs_dir (w_fs w) !! _) as [i|] eqn:Ei; [|done].
  unfold attempt, os_Open. rewrite quiet_syscall by done. cbv zeta. rewrite Ei. cbn [fst snd]. fold (open_read i (w_fs w)).
  unfold on_error, attempt, bind, file_Stat. rewrite quiet_syscall by done. unfold with_fd. cbn. rewrite lookup_insert_eq. cbn.
  unfold validateRegularBlobFile. rewrite bool_decide_eq_true_2 by done. done.
Qed.
Lemma file_Close_quiet i f w :
  quiet w → fs_wf f → w_fs w = open_read i f → file_Close (fs_next f) w = (Ok tt, set_fs (read_done f) w).
Proof.
  intros Hq Hf Hw. destruct (file_Close (fs_next f) w) as [r w'] eqn:E. pose proof (file_Close_read _ _ _ _ _ Hf Hw E) as Hw'.
  unfold file_Close in E. rewrite quiet_next, Hw in E by done. cbn [open_read fs_fds] in E. rewrite lookup_insert_eq in E.
  injection E as <- <-. by rewrite <- Hw'.
Qed.
Lemma read_and_close_quiet i f w :
  quiet w → fs_wf f → w_fs w = open_read i f → read_and_close (fs_next f) w = (Ok (file_data i f), set_fs (read_done f) w).
Proof.
  intros Hq Hf Hw. unfold read_and_close, attempt, file_ReadAll. rewrite quiet_syscall by done.
  unfold with_fd. rewrite Hw. cbn [open_read fs_fds]. rewrite lookup_insert_eq. cbn [fst snd].
  by rewrite (file_Close_quiet i f).
Qed.

Section file_quiet.
Context {T : Type} `{BTreeLaws T} `{DirTimes}.
Implicit Types s : FileStore T.

(** The checks that every method with a key makes first. *)
Lemma key_guard {A} s w key (m : FileStore T → bytes → M (FileStore T * world) A) :
  quiet w → (io ctx_Err ;; s <- self ; path <- lift (pathFor s key) ; m s path) (s, w) =
  if bool_decide (key = []) then (Err storage_ErrKeyEmpty, (s, w)) else m s (key_path (fst_dir s) key) (s, w).
Proof.
  intros Hq. erewrite bind_step_Ok by (apply io_eq; split; [reflexivity|by apply quiet_ctx]).
  erewrite bind_step_Ok by reflexivity. cbn [fst]. case_bool_decide as Hk; [by subst|].
  by erewrite bind_step_Ok by (unfold lift; rewrite (proj2 (pathFor_run s key _) (conj Hk eq_refl)); reflexivity).
Qed.

Lemma update_index_quiet g s w :
  quiet w → update_index g (s, w) =
  (Ok tt, (mkFileStore (fst_dir s) (g <$> fst_keys s)
             (if fst_keys s then Some (dir_mtime (w_fs w) (filepath_Clean (fst_dir s))) else fst_indexModTime s), w)).
Proof.
  intros Hq. unfold update_index. erewrite bind_step_Ok by reflexivity. cbn [fst]. destruct s as [dir [t|] m]; cbn; [|done].
  unfold refreshIndexModTimeLocked, bind, update, modify, self, gets, attempt. cbn. rewrite io_run. unfold os_Stat.
  rewrite quiet_syscall by done. cbn. by rewrite set_fs_same.
Qed.

Lemma file_WriteAll_quiet fd data w i :
  quiet w → fs_fds (w_fs w) !! fd = Some i → file_WriteAll fd data w = (Ok tt, set_fs (fs_append data i (w_fs w)) w).
Proof.
  intros Hq Hi. unfold file_WriteAll, bind, file_Write. rewrite quiet_next, Hi by done. by rewrite bool_decide_eq_true_2.
Qed.
Lemma write_temp_quiet f dir path data w :
  quiet w → fs_wf f → w_fs w = tmp_fs f dir [] [] true →
  write_temp (fs_next f) (Temp dir (fs_next f)) path data w = (Ok tt, set_fs (committed f path data) w).
Proof.
  intros Hq Hf Hw. destruct (write_temp (fs_next f) (Temp dir (fs_next f)) path data w) as [r w'] eqn:E.
  assert (r = Ok tt ∧ quiet w') as [-> Hq'].
  { unfold write_temp, bind at 1 in E. erewrite on_error_Ok in E by (apply file_WriteAll_quiet; [done|rewrite Hw; apply tmp_fd]).
    unfold bind at 1, file_Sync in E. erewrite on_error_Ok in E.
    2:{ rewrite quiet_syscall by done. unfold with_fd. cbn. rewrite Hw. cbn. rewrite lookup_insert_eq. reflexivity. }
    cbv beta iota in E. unfold bind at 1, file_Close in E. rewrite quiet_next in E by done. cbn in E.
    rewrite lookup_insert_eq in E. cbv beta iota in E. unfold bind in E. rewrite !quiet_ctx in E by done. unfold os_Rename in E.
    rewrite quiet_syscall in E by done. cbn in E. rewrite lookup_insert_eq in E. by injection E as <- <-. }
  destruct (write_temp_inv _ _ _ _ _ _ _ Hf Hw E) as [(? & ? & ? & ? & _)|[_ Hw']]; [done|].
  f_equal. destruct w, w', Hq, Hq'. cbn in *. by subst.
Qed.

Lemma FileStore_Put_quiet k d s w :
  quiet w → fs_wf (w_fs w) → fst_dir s ≠ [] → ∃ s' w',
  FileStore_Put k d (s, w) = (if bool_decide (k = []) then Err storage_ErrKeyEmpty else Ok tt, (s', w')) ∧ quiet w' ∧
  (k ≠ [] → is_Some (fst_keys s) → ∃ f, fs_dir f = fs_dir (w_fs w') ∧
     fst_indexModTime s' = Some (dir_mtime f (filepath_Clean (fst_dir s)))).
Proof.
  intros Hq Hf Hd. unfold FileStore_Put. rewrite key_guard by done. case_bool_decide as Hk; [by exists s, w|].
  erewrite bind_step_Ok.
  2:{ apply io_eq. split; [reflexivity|]. unfold os_CreateTemp. rewrite quiet_syscall by done. reflexivity. }
  cbv beta iota. erewrite bind_step_Ok.
  2:{ apply io_eq. split; [reflexivity|]. apply on_error_Ok. by apply (write_temp_quiet (w_fs w)). }
  erewrite bind_step_Ok by by apply update_index_quiet.
  unfold syncDirectory. rewrite io_run. unfold bind. rewrite quiet_syscall by done. cbn [fst snd]. rewrite quiet_syscall by done.
  cbn [fst snd]. eexists _, _. split_and!; [reflexivity|done|]. intros _ [t Ht]. exists (committed (w_fs w) (key_path (fst_dir s) k) d).
  split; [done|]. cbn. by rewrite Ht.
Qed.
Lemma FileStore_Delete_quiet k s w :
  quiet w → fst_dir s ≠ [] → ∃ s' w',
  FileStore_Delete k (s, w) = (if bool_decide (k = []) then Err storage_ErrKeyEmpty else Ok tt, (s', w')) ∧ quiet w'.
Proof.
  intros Hq Hd. unfold FileStore_Delete. rewrite key_guard by done. case_bool_decide as Hk; [by exists s, w|].
  erewrite bind_step_Ok by (apply io_eq; split; [reflexivity|by apply quiet_ctx]).
  unfold attempt at 1. rewrite io_run, regularBlobFileInfo_quiet by done. cbn [fst snd].
  destruct (fs_dir (w_fs w) !! _) as [i|] eqn:Ei.
  - erewrite bind_step_Ok by (apply io_eq; split; [reflexivity|by apply quiet_ctx]).
    unfold attempt at 1. rewrite io_run. unfold os_Remove. rewrite quiet_syscall, Ei by done. cbn [fst snd]. cbv zeta.
    erewrite bind_step_Ok by by apply update_index_quiet.
    unfold syncDirectory. rewrite io_run. unfold bind. rewrite quiet_syscall by done. cbn [fst snd]. rewrite quiet_syscall by done.
    cbn [fst snd]. by eexists _, _.
  - erewrite bind_step_Ok by (apply io_eq; split; [reflexivity|by apply quiet_ctx]).
    change (errors_Is storage_ErrNotFound storage_ErrNotFound) with true. cbv iota.
    erewrite bind_step_Ok; [rewrite update_index_quiet by done; by eexists _, _|].
    case_bool_decide; [apply io_eq; split; [reflexivity|by apply quiet_ctx]|reflexivity].
Qed.

(** What [Get] and [Has] check of a blob under a 32-byte key. *)
Definition intact (k v : bytes) : bool := negb (len k =? SHA256KeyBytes) || bool_decide (k = SHA256Key v).
Lemma intact_verify k v :
  VerifySHA256Key k v =
  if negb (len k =? SHA256KeyBytes) then Err storage_ErrInvalidSHA256Key
  else if intact k v then Ok tt else Err storage_ErrSHA256Mismatch.
Proof.
  unfold VerifySHA256Key, ValidateSHA256Key, intact. destruct (len k =? SHA256KeyBytes); [|done]. cbn [negb orb rbind].
  by destruct (bool_decide (k = SHA256Key v)).
Qed.

Lemma contents_dir s f k :
  fst_dir s ≠ [] → k ≠ [] → file_contents (fst_dir s) f !! k =
  (λ i, file_data i f) <$> fs_dir f !! Named (filepath_Clean (key_path (fst_dir s) k)).
Proof. intros Hd Hk. rewrite file_contents_lookup, decide_False by done. unfold file_at. by destruct (fs_dir f !! _). Qed.

Lemma FileStore_Get_quiet k s w :
  quiet w → fs_wf (w_fs w) → fst_dir s ≠ [] → ∃ w',
  FileStore_Get k (s, w) =
    (if bool_decide (k = []) then Err storage_ErrKeyEmpty
     else match file_contents (fst_dir s) (w_fs w) !! k with
          | Some v => if intact k v then Ok v else Err storage_ErrSHA256Mismatch
          | None => Err storage_ErrNotFound
          end, (s, w')) ∧ quiet w' ∧ fs_read (w_fs w) (w_fs w').
Proof.
  intros Hq Hf Hd. unfold FileStore_Get. rewrite key_guard by done. case_bool_decide as Hk; [by exists w|].
  rewrite contents_dir by done. unfold bind at 1. rewrite io_run, openRegularBlobFile_quiet by done.
  destruct (fs_dir (w_fs w) !! _) as [i|] eqn:Ei; cbn [fmap option_fmap option_map fst snd]; [|by exists w].
  unfold bind at 1. rewrite io_run, (read_and_close_quiet i (w_fs w)) by done. cbn [fst snd]. rewrite intact_verify. unfold intact.
  exists (set_fs (read_done (w_fs w)) w). split; [|split; [done|apply read_done_read]].
  destruct (len k =? SHA256KeyBytes); [cbn [negb orb]|reflexivity].
  by destruct (bool_decide (k = SHA256Key (file_data i (w_fs w)))).
Qed.
Lemma FileStore_Has_quiet k s w :
  quiet w → fs_wf (w_fs w) → fst_dir s ≠ [] → ∃ w',
  FileStore_Has k (s, w) =
    (if bool_decide (k = []) then Err storage_ErrKeyEmpty
     else match file_contents (fst_dir s) (w_fs w) !! k with Some v => Ok (intact k v) | None => Ok false end, (s, w')) ∧
  quiet w' ∧ fs_read (w_fs w) (w_fs w').
Proof.
  intros Hq Hf Hd. unfold FileStore_Has. rewrite key_guard by done. case_bool_decide as Hk; [by exists w|].
  rewrite contents_dir by done. unfold attempt at 1. rewrite io_run, openRegularBlobFile_quiet by done.
  destruct (fs_dir (w_fs w) !! _) as [i|] eqn:Ei; cbn [fmap option_fmap option_map fst snd]; [|by exists w].
  exists (set_fs (read_done (w_fs w)) w). split; [|split; [done|apply read_done_read]].
  unfold intact. destruct (len k =? SHA256KeyBytes) eqn:El; cbn [negb orb].
  - unfold bind. rewrite io_run, (read_and_close_quiet i (w_fs w)) by done. cbn [fst snd]. rewrite intact_verify. unfold intact.
    rewrite El. cbn [negb orb]. by destruct (bool_decide (k = SHA256Key (file_data i (w_fs w)))).
  - unfold bind. by rewrite io_run, (file_Close_quiet i (w_fs w)).
Qed.

(** *** The index *)

Lemma isRegularBlobEntry_quiet dir e w :
  quiet w → names_ok dir (w_fs w) → dir ≠ [] → e ∈ dir_entries dir (w_fs w) →
  isRegularBlobEntry e w = (Ok (bool_decide (is_Some (entry_key dir e))), w) ∧
  (∀ k, entry_key dir e = Some k → hex_DecodeString (entry_name e) = Some k).
Proof.
  intros Hq Hn Hd He. unfold dir_entries in He. apply list_elem_of_filter in He as [Hp He].
  apply list_elem_of_fmap in He as ([e' i] & -> & Hi%elem_of_map_to_list). cbn [fst] in *. destruct e' as [p|d n]; [|done].
  unfold isRegularBlobEntry. destruct (hidden (base_name p)) eqn:Eh.
  - assert (entry_key dir (Named p) = None) as ->; [|done]. destruct (entry_key dir (Named p)) as [k|] eqn:Ek; [|done].
    apply entry_key_Some in Ek as [Hk [= ->]]; [|done]. by rewrite key_path_base, hex_shown in Eh.
  - destruct (Hn p (mk_is_Some _ _ Hi) Hp Eh) as (k & Hk & ->).
    assert (entry_key dir (Named (key_path dir k)) = Some k) as -> by by apply entry_key_Some. split.
    + unfold attempt, os_Lstat. rewrite quiet_syscall by done. rewrite key_path_clean, Hi by done. cbn [fst snd].
      by rewrite set_fs_same.
    + intros k' [= <-]. cbn [entry_name]. by rewrite key_path_base, hex_roundtrip.
Qed.

Lemma index_entries_quiet dir es (t : T) w :
  quiet w → names_ok dir (w_fs w) → dir ≠ [] → (∀ e, e ∈ es → e ∈ dir_entries dir (w_fs w)) →
  ∃ t', index_entries es t w = (Ok t', w) ∧ bt_keys t' = bt_keys t ∪ list_to_set (omap (entry_key dir) es).
Proof.
  intros Hq Hn Hd. revert t. induction es as [|e es IH]; intros t Hes; cbn [index_entries].
  { exists t. split; [done|]. cbn. set_solver. }
  erewrite bind_step_Ok by by apply quiet_ctx.
  destruct (isRegularBlobEntry_quiet dir e w Hq Hn Hd) as [Hr Hk]; [apply Hes; by left|].
  erewrite bind_step_Ok by exact Hr. cbn [omap list_omap].
  assert (∀ e', e' ∈ es → e' ∈ dir_entries dir (w_fs w)) as Hes' by (intros e' ?; apply Hes; by right).
  destruct (entry_key dir e) as [k|].
  - cbn [negb]. rewrite bool_decide_eq_true_2 by done. cbn [negb]. rewrite (Hk k eq_refl).
    destruct (IH (bt_ReplaceOrInsert k t) Hes') as (t' & -> & Ht). exists t'. split; [done|].
    rewrite Ht, bt_keys_insert. cbn. set_solver.
  - rewrite bool_decide_eq_false_2 by by intros []. cbn [negb]. by apply IH.
Qed.
Lemma read_batches_quiet dir fuel es (t : T) w :
  quiet w → names_ok dir (w_fs w) → dir ≠ [] → (∀ e, e ∈ es → e ∈ dir_entries dir (w_fs w)) → (length es < fuel)%nat →
  ∃ t', read_batches fuel es t w = (Ok t', w) ∧ bt_keys t' = bt_keys t ∪ list_to_set (omap (entry_key dir) es).
Proof.
  intros Hq Hn Hd. revert es t. induction fuel as [|fuel IH]; intros es t Hes Hl; [lia|]. cbn [read_batches].
  erewrite bind_step_Ok by (rewrite quiet_syscall by done; cbn; by rewrite set_fs_same).
  destruct es as [|e es']; [exists t; split; [done|]; cbn; set_solver|]. set (es := e :: es') in *.
  destruct (index_entries_quiet dir (take 128 es) t w Hq Hn Hd) as (t1 & E1 & Ht1).
  { intros e' He'. apply Hes. rewrite <- (take_drop 128 es). apply elem_of_app. by left. }
  rewrite (bind_step_Ok _ _ _ _ _ E1).
  destruct (IH (drop 128 es) t1) as (t' & -> & Ht').
  - intros e' He'. apply Hes. rewrite <- (take_drop 128 es). apply elem_of_app. by right.
  - rewrite length_drop. unfold es in *. cbn [length] in *. lia.
  - exists t'. split; [done|]. rewrite Ht', Ht1. rewrite <- (take_drop 128 es) at 3. rewrite omap_app, list_to_set_app_L. set_solver.
Qed.
Lemma readKeyIndex_quiet dir w :
  quiet w → names_ok dir (w_fs w) → dir ≠ [] →
  ∃ t : T, readKeyIndex dir w = (Ok t, w) ∧ bt_keys t = stored_keys dir (w_fs w).
Proof.
  intros Hq Hn Hd. unfold readKeyIndex. erewrite bind_step_Ok by (rewrite quiet_syscall by done; cbn; by rewrite set_fs_same).
  erewrite bind_step_Ok by reflexivity.
  destruct (read_batches_quiet dir (S (length (dir_entries dir (w_fs w)))) (dir_entries dir (w_fs w)) bt_New w) as (t & E & Ht);
    [done|done|done|done|lia|].
  rewrite (bind_step_Ok _ _ _ _ _ E). erewrite bind_step_Ok by by apply quiet_ctx. exists t. split; [done|].
  rewrite Ht, bt_keys_New. apply set_eq. intros k. rewrite elem_of_union, elem_of_list_to_set, list_elem_of_omap.
  rewrite elem_of_stored_keys by done. setoid_rewrite entry_key_Some; [|done]. split.
  - intros [?%elem_of_empty|(e & He & Hk & ->)]; [done|]. split; [done|]. unfold dir_entries in He.
    apply list_elem_of_filter in He as [_ He]. apply list_elem_of_fmap in He as ([e' i] & Ee & Hi%elem_of_map_to_list).
    cbn in Ee. subst. by exists i.
  - intros [Hk [i Hi]]. right. eexists. split; [|by split]. unfold dir_entries. apply list_elem_of_filter. cbn [entry_parent].
    split; [by apply key_path_dir|]. apply list_elem_of_fmap. eexists (_, i). split; [done|]. by apply elem_of_map_to_list.
Qed.

(** An index that is used while its time is the directory's. *)
Definition trusted s (f : fs) : Prop :=
  ∀ t, fst_keys s = Some t → fst_indexModTime s = Some (dir_mtime f (filepath_Clean (fst_dir s))) →
  bt_keys t = stored_keys (fst_dir s) f.
Lemma current_trusted s f : current s f → trusted s f.
Proof. intros Hc t Ht _. by apply Hc. Qed.

Lemma ensureKeyIndex_quiet s w :
  quiet w → fst_dir s ≠ [] → names_ok (fst_dir s) (w_fs w) → trusted s (w_fs w) →
  ∃ t, ensureKeyIndex (s, w) =
       (Ok tt, (mkFileStore (fst_dir s) (Some t) (Some (dir_mtime (w_fs w) (filepath_Clean (fst_dir s)))), w)) ∧
    bt_keys t = stored_keys (fst_dir s) (w_fs w).
Proof.
  intros Hq Hd Hn Ht. unfold ensureKeyIndex. erewrite bind_step_Ok by (apply io_eq; split; [reflexivity|by apply quiet_ctx]).
  erewrite bind_step_Ok by reflexivity. cbn [fst]. set (m := dir_mtime (w_fs w) (filepath_Clean (fst_dir s))).
  assert (os_Stat (fst_dir s) w = (Ok m, w)) as Es by (unfold os_Stat; rewrite quiet_syscall by done; cbn; by rewrite set_fs_same).
  erewrite bind_step_Ok by (apply io_eq; split; [reflexivity|exact Es]).
  destruct (bool_decide (is_Some (fst_keys s)) && bool_decide (fst_indexModTime s = Some m)) eqn:Eb.
  - apply andb_true_iff in Eb as [[t Et]%bool_decide_eq_true_1 Em%bool_decide_eq_true_1]. exists t. split; [|by apply Ht].
    destruct s as [dir ks im]. cbn in *. by subst.
  - destruct (readKeyIndex_quiet (fst_dir s) w Hq Hn Hd) as (t & Er & Hk). exists t. split; [|done].
    erewrite bind_step_Ok.
    2:{ apply io_eq. split; [reflexivity|]. cbn [index_loop]. rewrite (bind_step_Ok _ _ _ _ _ Er), (bind_step_Ok _ _ _ _ _ Es).
        rewrite Z.eqb_refl. reflexivity. }
    done.
Qed.
End file_quiet.

(** ** The specification: a map that checks the digests of 32-byte keys *)

Definition file_spec_op (op : blob_op) (m : gmap bytes bytes) : blob_reply * gmap bytes bytes :=
  let guarded (k : bytes) (answer : blob_reply) := (if bool_decide (k = []) then RErr storage_ErrKeyEmpty else answer, m) in
  match op with
  | OpGet k =>
      guarded k (match m !! k with
                 | Some v => if intact k v then RBytes v else RErr storage_ErrSHA256Mismatch
                 | None => RErr storage_ErrNotFound
                 end)
  | OpHas k => guarded k (RBool (match m !! k with Some v => intact k v | None => false end))
  | _ => spec_op op m
  end.

Section file_refinement.
Context {T : Type} `{BTreeLaws T} `{DirTimes}.
Implicit Types s : FileStore T.

Lemma FileStore_Delete_wf k s w r s' w' :
  fs_wf (w_fs w) → fstore_wf s (w_fs w) → FileStore_Delete k (s, w) = (r, (s', w')) →
  fs_wf (w_fs w') ∧ fstore_wf s' (w_fs w').
Proof.
  intros Hf [Hd Hn Hc] HD. apply FileStore_Delete_run in HD as (Ed & HR & Hk & gone & Hok & Ek & Ec); [|done].
  assert (∀ e, is_Some (fs_dir (w_fs w') !! e) → is_Some (fs_dir (w_fs w) !! e)) as Hsub.
  { destruct HR; cbn; try done; intros e' [i Hi]; apply lookup_delete_Some in Hi as [_ Hi]; by exists i. }
  assert (fs_wf (removed (w_fs w) (key_path (fst_dir s) k))) as Hf'.
  { destruct Hf. split; cbn; intros *; eauto.
    - intros ?. apply lookup_delete_None. eauto.
    - intros [_ ?]%lookup_delete_Some. eauto. }
  split; [destruct HR; [done..|by apply fs_wf_sync_dir]|]. split; rewrite ?Ed; [done|intros p Hp; apply Hn; auto|].
  apply current_dom; rewrite Ed; [done|]. rewrite Ec. intros t'. rewrite Ek. destruct gone.
  - intros (t & Ht & ->)%fmap_Some. rewrite bt_keys_delete, (Hc t Ht), dom_delete_L. by rewrite dom_file_contents.
  - rewrite dom_file_contents by done. apply Hc.
Qed.

Lemma FileStore_ListKeys_quiet s w :
  quiet w → fst_dir s ≠ [] → names_ok (fst_dir s) (w_fs w) → trusted s (w_fs w) → ∃ s',
  FileStore_ListKeys (s, w) = (Ok (sorted_keys (map_keys (file_contents (fst_dir s) (w_fs w)))), (s', w)) ∧
  fst_dir s' = fst_dir s ∧ current s' (w_fs w).
Proof.
  intros Hq Hd Hn Ht. destruct (ensureKeyIndex_quiet s w Hq Hd Hn Ht) as (t & E & Hk). unfold FileStore_ListKeys.
  rewrite (bind_step_Ok _ _ _ _ _ E). erewrite bind_step_Ok by reflexivity. cbn [fst fst_keys].
  rewrite io_run, collect_keys_quiet by done. cbn [fst snd]. eexists (mkFileStore _ (Some t) _). split; [|split; [reflexivity|by intros ? [= <-]]].
  by rewrite (Ascend_sorted (file_contents (fst_dir s) (w_fs w)) t) by by rewrite dom_file_contents.
Qed.
Lemma FileStore_ListKeyPage_quiet after limit s w :
  quiet w → fst_dir s ≠ [] → names_ok (fst_dir s) (w_fs w) → trusted s (w_fs w) → ∃ s',
  FileStore_ListKeyPage after limit (s, w) =
    (Ok (with_cursor (page_of after (normalizeKeyPageLimit limit) (map_keys (file_contents (fst_dir s) (w_fs w))))), (s', w)) ∧
  fst_dir s' = fst_dir s ∧ current s' (w_fs w).
Proof.
  intros Hq Hd Hn Ht. destruct (ensureKeyIndex_quiet s w Hq Hd Hn Ht) as (t & E & Hk). unfold FileStore_ListKeyPage.
  rewrite (bind_step_Ok _ _ _ _ _ E). cbv zeta. erewrite bind_step_Ok by reflexivity. cbn [fst fst_keys].
  eexists (mkFileStore _ (Some t) _). split; [|split; [reflexivity|by intros ? [= <-]]].
  erewrite bind_step_Ok.
  2:{ apply io_eq. split; [reflexivity|]. apply (page_index_quiet _ _ (file_contents (fst_dir s) (w_fs w)));
        [done|apply normalizeKeyPageLimit_pos|by rewrite dom_file_contents]. }
  by erewrite bind_step_Ok by (apply io_eq; split; [reflexivity|by apply quiet_ctx]).
Qed.

Lemma file_op_spec op s w :
  quiet w → fs_wf (w_fs w) → fstore_wf s (w_fs w) →
  let m := file_contents (fst_dir s) (w_fs w) in
  ∃ s' w', run_op op (s, w) = ((file_spec_op op m).1, (s', w')) ∧ fst_dir s' = fst_dir s ∧
    file_contents (fst_dir s) (w_fs w') = (file_spec_op op m).2 ∧ quiet w' ∧ fs_wf (w_fs w') ∧ fstore_wf s' (w_fs w').
Proof.
  intros Hq Hf Hs m. pose proof (fw_dir _ _ Hs) as Hd.
  assert (∀ w', quiet w' → fs_read (w_fs w) (w_fs w') → file_contents (fst_dir s) (w_fs w') = m ∧ quiet w' ∧
    fs_wf (w_fs w') ∧ fstore_wf s (w_fs w')) as Hread.
  { intros w' Hq' HR. destruct (fstore_wf_read _ _ _ Hs HR). split_and!; try done. by eapply fs_read_wf. }
  destruct op as [k d|k|k|k| |after limit];
    cbn [run_op file_spec_op spec_op bs_Put bs_Get bs_Has bs_Delete file_BlobStore fst snd].
  - destruct (FileStore_Put_quiet k d s w Hq Hf Hd) as (s' & w' & E & Hq' & _). rewrite E. exists s', w'.
    destruct (@bs_Put_run (FileStore T) _ file_spec k d s w _ s' w' Hf Hs E) as (Hs' & _ & HF & _).
    apply FileStore_Put_run in E as (Ed & _ & Hk & put & Hok & _ & Ec); [|done..].
    case_bool_decide as Hk0; cbn [reply fst snd]; (split_and!; [done|done| |done|by apply HF|done]).
    + fold m in Ec. rewrite (Hk Hk0). done.
    + by rewrite Ec, (Hok eq_refl).
  - destruct (FileStore_Get_quiet k s w Hq Hf Hd) as (w' & E & Hq' & HR). rewrite E. exists s, w'. fold m.
    split; [|split; [done|by apply Hread]]. case_bool_decide; [done|]. destruct (m !! k) as [v|]; [|done]. by destruct (intact k v).
  - destruct (FileStore_Has_quiet k s w Hq Hf Hd) as (w' & E & Hq' & HR). rewrite E. exists s, w'. fold m.
    split; [|split; [done|by apply Hread]]. case_bool_decide; [done|]. by destruct (m !! k) as [v|].
  - destruct (FileStore_Delete_quiet k s w Hq Hd) as (s' & w' & E & Hq'). rewrite E. exists s', w'.
    destruct (FileStore_Delete_wf _ _ _ _ _ _ Hf Hs E) as [Hf' Hs'].
    apply FileStore_Delete_run in E as (Ed & _ & Hk & gone & Hok & _ & Ec); [|done].
    case_bool_decide as Hk0; cbn [reply fst snd]; (split_and!; [done|done| |done|done|done]).
    + by rewrite (Hk Hk0).
    + by rewrite Ec, (Hok eq_refl).
  - destruct (FileStore_ListKeys_quiet s w) as (s' & E & Ed & Hc); [done|done|apply Hs|by apply current_trusted, Hs|].
    unfold bs_ListKeys, file_BlobKeyLister. rewrite E. exists s', w. split_and!; try done.
    split; rewrite ?Ed; [done|apply Hs|done].
  - destruct (FileStore_ListKeyPage_quiet after limit s w) as (s' & E & Ed & Hc); [done|done|apply Hs|by apply current_trusted, Hs|].
    unfold bs_ListKeyPage, file_BlobKeyPager. rewrite E. exists s', w. split_and!; try done.
    split; rewrite ?Ed; [done|apply Hs|done].
Qed.
End file_refinement.

(** ** Crashes *)

Lemma crash_at_removed f path q c :
  crash_at (removed f path) q c → crash_at f q c ∨ (filepath_Clean q = filepath_Clean path ∧ c = None).
Proof.
  intros (oi & [->| ->] & Hc); cbn in Hc.
  - left. eexists. split; [by left|done].
  - destruct (decide (filepath_Clean q = filepath_Clean path)) as [E|E].
    + right. rewrite E, lookup_delete_eq in Hc. done.
    + left. rewrite lookup_delete_ne in Hc by congruence. eexists. split; [by right|done].
Qed.
Lemma crash_at_gone f path c :
  filepath_Clean path = path → crash_at (fs_sync_dir (filepath_Dir path) (removed f path)) path c → c = None.
Proof.
  intros Hp (oi & Hoi & Hc). assert (oi = None) as ->; [|done]. unfold fs_sync_dir, removed in Hoi. cbn in Hoi.
  destruct Hoi as [->| ->]; [|apply lookup_delete_eq]. apply lookup_union_None. rewrite !map_lookup_filter_None. split.
  - left. apply lookup_delete_eq.
  - right. intros x _. cbn. rewrite Hp. naive_solver.
Qed.
(** What was synced can be found. *)
Lemma crash_at_stable f path : fs_wf f → crash_at f path (stable_at f path).
Proof.
  intros Hf. unfold crash_at, stable_at. eexists. split; [by left|]. destruct (fs_sdir f !! _) as [i|] eqn:Ei; [|done].
  destruct (wf_sdir _ Hf _ _ Ei) as [x Hx]. rewrite Hx. exists (i_stable x). split; [done|]. naive_solver.
Qed.

(** ** Properties *)

(** C18: The file store refines a finite map.  On a directory whose entries are
    the files of keys (and files that the index skips), whatever calls are made
    in whatever order, every reply is the one of a map from keys to data that
    checks the digest of what lies under a 32-byte key: damaged data is never
    returned and not reported as present, lists are sorted and pages are the next
    keys after the cursor, whether the index is built or not. *)
Theorem file_refines_map {T} `{BTreeLaws T} `{DirTimes} (ops : list blob_op) (s : FileStore T) w
    (Hq : quiet w) (Hf : fs_wf (w_fs w)) (Hs : fstore_wf s (w_fs w)) :
  let spec := run_all file_spec_op ops (file_contents (fst_dir s) (w_fs w)) in
  ∃ s' w', run_all run_op ops (s, w) = (spec.1, (s', w')) ∧ file_contents (fst_dir s) (w_fs w') = spec.2 ∧
    fstore_wf s' (w_fs w').
Proof.
  revert s w Hq Hf Hs. induction ops as [|op ops IH]; intros s w Hq Hf Hs; cbn [run_all]; [by exists s, w|].
  destruct (file_op_spec op s w Hq Hf Hs) as (s1 & w1 & -> & Ed & Ec & Hq1 & Hf1 & Hs1).
  destruct (file_spec_op op (file_contents (fst_dir s) (w_fs w))) as [r m1]. cbn [fst snd] in *. subst m1.
  destruct (IH s1 w1 Hq1 Hf1 Hs1) as (s2 & w2 & -> & Ec2 & Hs2). rewrite Ed in *.
  destruct (run_all file_spec_op ops (file_contents (fst_dir s) (w_fs w1))) as [rs m2]. by exists s2, w2.
Qed.

(** C19: Changes of the file store are all or nothing.  Whatever system call
    fails during [Put] or [Delete], and wherever the machine stops, a crash finds
    every path as it could have been found before or, at the key's path, the whole
    new data (after [Delete]: no file); after a successful [Put] only the new data
    can be found, and after the successful [Delete] of a blob that was there it
    can not come back. *)
Theorem FileStore_durable {T} `{BTreeLaws T} `{DirTimes} (s : FileStore T) w k
    (Hf : fs_wf (w_fs w)) (Hd : fst_dir s ≠ []) (Hk : k ≠ []) :
  let path := key_path (fst_dir s) k in
  (∀ d r s' w', FileStore_Put k d (s, w) = (r, (s', w')) →
     (∀ q c, crash_at (w_fs w') q c → crash_at (w_fs w) q c ∨ (filepath_Clean q = path ∧ c = Some d)) ∧
     (r = Ok tt → ∀ c, crash_at (w_fs w') path c → c = Some d)) ∧
  (∀ r s' w', FileStore_Delete k (s, w) = (r, (s', w')) →
     (∀ q c, crash_at (w_fs w') q c → crash_at (w_fs w) q c ∨ (filepath_Clean q = path ∧ c = None)) ∧
     (r = Ok tt → is_Some (file_at (w_fs w) path) → ∀ c, crash_at (w_fs w') path c → c = None)).
Proof.
  intros path. pose proof (key_path_clean _ Hd k Hk) as Hp. fold path in Hp. split.
  - intros d r s' w' HP. apply FileStore_Put_run in HP as (_ & HA & _); [|done..]. fold path in HA. split.
    + intros q c Hc. rewrite <- Hp. by eapply aw_crash_any.
    + intros -> c. inversion HA. by apply crash_at_durable.
  - intros r s' w' HD. apply FileStore_Delete_run in HD as (_ & HR & _); [|done]. fold path in HR. split.
    + intros q c Hc. rewrite <- Hp. destruct HR; [by left|by left|by apply crash_at_removed|]. by apply crash_at_removed, (crash_at_sync_dir _ (filepath_Dir path)).
    + intros -> [v Hv] c. inversion HR as [|Hn| |]; [|by apply crash_at_gone]. unfold file_at in Hv. by rewrite Hn in Hv.
Qed.

(** The key index is coherent with the directory.  Once a handle has
    listed its keys, and whatever names other handles and processes add or remove
    afterwards, the next list of that handle is the exact sorted list of the
    directory, as long as modification times tell. *)
Theorem index_coherent {T} `{BTreeLaws T} `{DirTimesLaws} (s : FileStore T) w ks s' w' w1
    (Hq : quiet w) (Hs : fstore_wf s (w_fs w)) (Hrun : FileStore_ListKeys (s, w) = (Ok ks, (s', w')))
    (Hq1 : quiet w1) (Hn : names_ok (fst_dir s) (w_fs w1)) :
  (FileStore_ListKeys (s', w1)).1 = Ok (sorted_keys (map_keys (file_contents (fst_dir s) (w_fs w1)))).
Proof.
  destruct Hs as [Hd Hn0 Hc]. destruct (ensureKeyIndex_quiet s w Hq Hd Hn0 (current_trusted _ _ Hc)) as (t & E & Ht).
  unfold FileStore_ListKeys in Hrun. rewrite (bind_step_Ok _ _ _ _ _ E) in Hrun. step_Ok Hrun. cbn [fst fst_keys] in Hrun.
  apply io_eq in Hrun as [-> _]. set (s1 := mkFileStore _ _ _).
  destruct (FileStore_ListKeys_quiet s1 w1) as (s2 & -> & _); [done..| |done].
  intros t' [= <-] [= Em]. cbn [s1 fst_dir] in *. rewrite Ht. apply set_eq. intros k. rewrite !elem_of_stored_keys by done.
  split; intros [Hk Hi]; (split; [done|]); (eapply (dt_names _ _ _ Em); [by apply key_path_dir|done]).
Qed.

(** A [Delete] that failed can not be repaired by repeating it.  When the
    entry was removed but syncing the directory failed, the second [Delete]
    finds no file and reports success without syncing: whatever the last sync of
    the directory left under the key, a crash may still bring back. *)
Theorem retried_delete_not_durable {T} `{BTreeLaws T} `{DirTimes} (s : FileStore T) w k e s1 w1 s2 w2
    (Hf : fs_wf (w_fs w)) (Hs : fstore_wf s (w_fs w)) (Hk : k ≠ [])
    (Hfail : FileStore_Delete k (s, w) = (Err e, (s1, w1)))
    (Hgone : file_at (w_fs w1) (key_path (fst_dir s) k) = None)
    (Hretry : FileStore_Delete k (s1, w1) = (Ok tt, (s2, w2))) :
  crash_at (w_fs w2) (key_path (fst_dir s) k) (stable_at (w_fs w) (key_path (fst_dir s) k)).
Proof.
  pose proof (fw_dir _ _ Hs) as Hd. destruct (FileStore_Delete_wf _ _ _ _ _ _ Hf Hs Hfail) as [Hf1 Hs1].
  apply FileStore_Delete_run in Hfail as (Ed & HR & _); [|done]. apply FileStore_Delete_run in Hretry as (_ & HR2 & _); [|apply Hs1].
  rewrite Ed in HR2. set (path := key_path (fst_dir s) k) in *.
  assert (w_fs w2 = w_fs w1) as ->.
  { inversion HR2 as [|Hn E| |[i Hi] E]; [done|]. exfalso. unfold file_at in Hgone. by rewrite Hi in Hgone. }
  assert (stable_at (w_fs w) path = stable_at (w_fs w1) path) as -> by by inversion HR.
  by apply crash_at_stable.
Qed.

(** A [Put] hides what other handles stored.  When another handle or process
    has stored a blob that the index of this handle does not know yet, a [Put] of
    this handle takes the new modification time for its own: the foreign blob is
    in the directory and is left out of the next list. *)
Theorem put_hides_external {T} `{BTreeLaws T} `{DirTimesLaws} (s : FileStore T) t w a d b
    (Hq : quiet w) (Hf : fs_wf (w_fs w)) (Hd : fst_dir s ≠ []) (Ht : fst_keys s = Some t)
    (Ha : a ≠ []) (Hab : b ≠ a) (Hb : b ∉ bt_keys t) (Hin : b ∈ stored_keys (fst_dir s) (w_fs w)) :
  ∃ s' w' ks s'', FileStore_Put a d (s, w) = (Ok tt, (s', w')) ∧ FileStore_ListKeys (s', w') = (Ok ks, (s'', w')) ∧
    b ∈ stored_keys (fst_dir s) (w_fs w') ∧ b ∉ ks.
Proof.
  destruct (FileStore_Put_quiet a d s w Hq Hf Hd) as (s' & w' & E & Hq' & Hm). rewrite bool_decide_eq_false_2 in E by done.
  destruct Hm as (f & Ef & Em); [done|by exists t|]. pose proof E as E2.
  apply FileStore_Put_run in E2 as (Ed & _ & _ & put & Hok & Ek & Ec); [|done..]. rewrite (Hok eq_refl), Ht in *. cbn in Ek.
  rewrite <- dom_file_contents in Hin by done.
  assert (b ∈ stored_keys (fst_dir s) (w_fs w')) as Hin'.
  { rewrite <- dom_file_contents, Ec, dom_insert_L by done. set_solver. }
  exists s', w', (bt_Ascend (bt_ReplaceOrInsert a t)), s'. split_and!; [done| |done|].
  - unfold FileStore_ListKeys, ensureKeyIndex. erewrite bind_step_Ok.
    2:{ erewrite bind_step_Ok by (apply io_eq; split; [reflexivity|by apply quiet_ctx]). erewrite bind_step_Ok by reflexivity.
        cbn [fst]. rewrite Ed. erewrite bind_step_Ok.
        2:{ apply io_eq. split; [reflexivity|]. unfold os_Stat. rewrite quiet_syscall by done. cbn [fst snd]. by rewrite set_fs_same. }
        rewrite Ek, Em. rewrite (dt_same _ _ _ Ef). rewrite !bool_decide_eq_true_2 by done. reflexivity. }
    erewrite bind_step_Ok by reflexivity. cbn [fst]. rewrite Ek. rewrite io_run, collect_keys_quiet by done. done.
  - destruct (bt_keys_Ascend (bt_ReplaceOrInsert a t)) as [_ Hp]. rewrite Hp, elem_of_elements, bt_keys_insert. set_solver.
Qed.

(** *** Concrete runs *)

(** A clock that numbers the sets of names. *)
Definition names_in (d : bytes) (f : fs) : gset bytes :=
  list_to_set (omap (λ e, match e with Named p => if decide (filepath_Dir p = d) then Some p else None | Temp _ _ => None end)
                    (map_to_list (fs_dir f)).*1).
Definition ex_times : DirTimes := λ f d, Zpos (countable.encode (names_in d f)).
#[local] Existing Instance ex_times.

Lemma elem_of_names_in d f p : p ∈ names_in d f ↔ filepath_Dir p = d ∧ is_Some (fs_dir f !! Named p).
Proof.
  unfold names_in. rewrite elem_of_list_to_set, list_elem_of_omap. split.
  - intros (e & He & Hp). apply list_elem_of_fmap in He as ([e' i] & -> & Hi%elem_of_map_to_list). cbn [fst] in Hp.
    destruct e' as [q|]; [|done]. case_decide; [|done]. injection Hp as ->. split; [done|by exists i].
  - intros [Hd [i Hi]]. exists (Named p). split; [|by rewrite decide_True].
    apply list_elem_of_fmap. exists (Named p, i). split; [done|]. by apply elem_of_map_to_list.
Qed.
Lemma ex_times_laws : DirTimesLaws.
Proof.
  split.
  - intros f f' d E. unfold dir_mtime, ex_times, names_in. by rewrite E.
  - intros f f' d E p Hp. unfold dir_mtime, ex_times in E. injection E as E. apply (inj countable.encode) in E.
    pose proof (elem_of_names_in d f p) as H1. pose proof (elem_of_names_in d f' p) as H2. rewrite E in H1. naive_solver.
Qed.

#[local] Abbreviation ex_dir := (mkFileStore (T := gset bytes) (lit "blobs") None None).
Lemma ex_dir_wf : fstore_wf ex_dir fs_empty.
Proof. split; [done| |done]. intros p [i Hi]. cbn in Hi. by rewrite lookup_empty in Hi. Qed.

Lemma file_refines_map_witness :
  (run_all run_op ex_store_ops (ex_dir, ex_world [])).1 =
  [RUnit; RUnit; RPage [lit "a"] (lit "a"); RPage [lit "b"] (lit "b"); RUnit; RBool false;
   RErr storage_ErrNotFound; RErr storage_ErrKeyEmpty].
Proof.
  destruct (file_refines_map ex_store_ops ex_dir (ex_world [])) as (s' & w' & E & _);
    [by split|apply fs_wf_empty|apply ex_dir_wf|]. rewrite E. vm_compute. reflexivity.
Defined.

(** A blob stored without faults, and one handle that listed the directory. *)
#[local] Abbreviation ex_put := (FileStore_Put (lit "b") (lit "2") (ex_dir, ex_world [])).
#[local] Abbreviation ex_listed := (FileStore_ListKeys (ex_dir, ex_world [])).

Lemma ex_put_wf : fs_wf (w_fs ex_put.2.2) ∧ fstore_wf ex_put.2.1 (w_fs ex_put.2.2).
Proof.
  destruct (@bs_Put_run (FileStore (gset bytes)) _ file_spec (lit "b") (lit "2") ex_dir (ex_world [])
    (Ok tt) ex_put.2.1 ex_put.2.2) as (Hs & _ & HF & _); [apply fs_wf_empty|apply ex_dir_wf|apply run_eq2; vm_compute; reflexivity|].
  split; [apply HF|exact Hs].
Qed.

Lemma FileStore_durable_witness :
  (∀ c, crash_at (w_fs ex_put.2.2) (key_path (lit "blobs") (lit "b")) c → c = Some (lit "2")) ∧
  (∀ c, crash_at (w_fs (FileStore_Delete (lit "b") (ex_put.2.1, ex_put.2.2)).2.2) (key_path (lit "blobs") (lit "b")) c → c = None).
Proof.
  split.
  - eapply (proj1 (FileStore_durable ex_dir (ex_world []) (lit "b") fs_wf_empty ltac:(done) ltac:(done)));
      [apply run_eq2; vm_compute; reflexivity|reflexivity].
  - eapply (proj2 (FileStore_durable ex_put.2.1 ex_put.2.2 (lit "b") (proj1 ex_put_wf) ltac:(vm_compute; done) ltac:(done)));
      [apply run_eq2; vm_compute; reflexivity|reflexivity|]. vm_compute. eauto.
Defined.

Lemma index_coherent_witness : (FileStore_ListKeys (ex_listed.2.1, ex_put.2.2)).1 = Ok [lit "b"].
Proof.
  erewrite (@index_coherent _ _ _ _ ex_times_laws ex_dir (ex_world []) [] ex_listed.2.1 ex_listed.2.2 ex_put.2.2).
  - vm_compute. reflexivity.
  - by split.
  - apply ex_dir_wf.
  - apply run_eq2. vm_compute. reflexivity.
  - split; vm_compute; reflexivity.
  - apply (fw_names _ _ (proj2 ex_put_wf)).
Defined.

(** The directory can not be opened for syncing. *)
#[local] Abbreviation ex_fault_world := (World None [OOk; OOk; OFail 0] (w_fs ex_put.2.2)).
#[local] Abbreviation ex_fault := (FileStore_Delete (lit "b") (ex_put.2.1, ex_fault_world)).
#[local] Abbreviation ex_retry := (FileStore_Delete (lit "b") (ex_fault.2.1, ex_fault.2.2)).
#[local] Abbreviation ex_path := (key_path (fst_dir ex_put.2.1) (lit "b")).
Lemma retried_delete_not_durable_witness :
  ex_retry.1 = Ok tt ∧ stable_at (w_fs ex_fault_world) ex_path = Some (lit "2") ∧
  crash_at (w_fs ex_retry.2.2) ex_path (stable_at (w_fs ex_fault_world) ex_path).
Proof.
  split; [vm_compute; reflexivity|]. split; [vm_compute; reflexivity|].
  refine (retried_delete_not_durable ex_put.2.1 ex_fault_world (lit "b") ErrOS ex_fault.2.1 ex_fault.2.2
    ex_retry.2.1 ex_retry.2.2 _ _ _ _ _ _).
  - rewrite w_fs_World. apply ex_put_wf.
  - rewrite w_fs_World. apply ex_put_wf.
  - done.
  - apply run_eq2. vm_compute. reflexivity.
  - vm_compute. reflexivity.
  - apply run_eq2. vm_compute. reflexivity.
Defined.

Lemma put_hides_external_witness :
  ∃ s' w' ks s'', FileStore_Put (lit "a") (lit "1") (ex_listed.2.1, ex_put.2.2) = (Ok tt, (s', w')) ∧
    FileStore_ListKeys (s', w') = (Ok ks, (s'', w')) ∧ lit "b" ∈ stored_keys (fst_dir ex_listed.2.1) (w_fs w') ∧ lit "b" ∉ ks.
Proof.
  refine (@put_hides_external _ _ _ _ ex_times_laws ex_listed.2.1 ∅ ex_put.2.2 (lit "a") (lit "1") (lit "b") _ _ _ _ _ _ _ _).
  - split; vm_compute; reflexivity.
  - apply ex_put_wf.
  - vm_compute. done.
  - vm_compute. reflexivity.
  - done.
  - done.
  - apply not_elem_of_empty.
  - apply elem_of_stored_keys; [vm_compute; done|]. split; [done|]. vm_compute. eauto.
Defined.
