(* ===== verification/Applier.v ===== *)
(** * Applying one lifecycle transition

    internal/lifecycle/apply.go.  The applier joins three components: the raw
    blobs, the logical state and the journal.  A record is accepted only for a
    peer with the capability; the blob of a present record must be stored and
    match its digest; the record is durable in the journal before it shows in
    the state.  The theorems are proved against [BlobStoreSpec], so they hold
    for every blob store that keeps that contract. *)
From S2P Require Import Prelude Go Bits Text Json Os Model Codec Journal Compact Transport Blobs.

(** The interface field [blobs] may be nil. *)
Record Applier (S : Type) := mkApplier {
  a_blobs : option S;
  a_state : Store;
  a_journal : Journal;
  a_limits : Limits
}.
Arguments mkApplier {S} _ _ _ _.
Arguments a_blobs {S} _.
Arguments a_state {S} _.
Arguments a_journal {S} _.
Arguments a_limits {S} _.

Section applier.
Context `{UnicodePrint} {S : Type} `{BlobStore S}.

Definition NewApplier (blobs : option S) (state : option Store) (journal : option Journal) (l : Limits)
    : result (Applier S) :=
  match state, journal with
  | None, _ => Err ErrNilApplierState
  | _, None => Err ErrNilApplierJournal
  | Some st, Some j => Ok (mkApplier blobs st j (normalized l))
  end.

(** Run a method of a field. *)
Definition set_blobs (b : option S) (a : Applier S) : Applier S :=
  mkApplier b (a_state a) (a_journal a) (a_limits a).
Definition on_blobs {A} (m : M (S * world) A) : M (Applier S * world) A := λ aw,
  match a_blobs aw.1 with
  | None => (Err ErrNilApplierBlobStore, aw)
  | Some s => let '(r, (s', w')) := m (s, aw.2) in (r, (set_blobs (Some s') aw.1, w'))
  end.
Definition in_journal {A} (m : M (Journal * world) A) : M (Applier S * world) A :=
  zoom (λ s, (a_journal s.1, s.2))
       (λ t s, (mkApplier (a_blobs s.1) (a_state s.1) t.1 (a_limits s.1), t.2)) m.
Definition in_state {A} (m : M Store A) : M (Applier S * world) A :=
  zoom (λ s, a_state s.1)
       (λ t s, (mkApplier (a_blobs s.1) t (a_journal s.1) (a_limits s.1), s.2)) m.

(** [None] is the nil [suppliedBlob]. *)
Definition ensureBlob (key : bytes) (suppliedBlob : option bytes) : M (Applier S * world) unit :=
  a <- self ;
  if bool_decide (a_blobs a = None) then throw ErrNilApplierBlobStore
  else
    data <- match suppliedBlob with
            | Some data => ret data
            | None =>
                attempt (on_blobs (bs_Get key)) (λ r,
                  match r with
                  | Err e =>
                      if errors_Is e storage_ErrNotFound then throw (EJoin ErrLifecycleBlobMissing e) else throw e
                  | Ok data => ret data
                  end)
            end ;
    lift (VerifySHA256Key key data) ;;
    match suppliedBlob with
    | Some _ => on_blobs (bs_Put key data)
    | None => ret tt
    end.

Definition Applier_Apply (capabilities : list bytes) (r : record) (suppliedBlob : option bytes)
    : M (Applier S * world) ApplyResult :=
  io ctx_Err ;;
  if negb (HasLifecycleCapability capabilities) then throw ErrLifecycleCapabilityRequired
  else
    a <- self ;
    lift (Validate r (a_limits a)) ;;
    classification <- lift (Classify r (a_state a)) ;
    if negb (bool_decide (Outcome classification = OutcomeApplied)) then ret classification
    else
      (if bool_decide (State r = StatePresent) then ensureBlob (BlobKey r) suppliedBlob else ret tt) ;;
      in_journal (Append r) ;;
      in_state (Apply r).

(** The loop over the records of a snapshot. *)
Fixpoint ensure_blobs (rs : list record) : M (Applier S * world) unit :=
  match rs with
  | [] => ret tt
  | r :: rs' =>
      (if bool_decide (State r = StatePresent) then ensureBlob (BlobKey r) None else ret tt) ;;
      ensure_blobs rs'
  end.

Definition ApplySnapshot (capabilities : list bytes) (snapshot : Checkpoint) (checkpointPath : bytes)
    : M (Applier S * world) unit :=
  io ctx_Err ;;
  if negb (HasLifecycleCapability capabilities) then throw ErrLifecycleCapabilityRequired
  else if bool_decide (checkpointPath = []) then throw ErrNilCheckpointPath
  else
    a <- self ;
    '(normal, _) <- lift (normalizeCheckpoint snapshot (a_limits a)) ;
    ensure_blobs (CRecords normal) ;;
    in_journal (InstallSnapshot checkpointPath normal) ;;
    in_state (ReplaceSnapshot (CRecords normal)).
End applier.

(** ** The invariant *)

Section applier_facts.
Context `{UnicodePrint} {S : Type} `{BlobStoreSpec S}.

(** The blob of [k] is stored and is what [k] says. *)
Definition verified (b : option S) (f : fs) (k : bytes) : Prop :=
  ∃ s d, b = Some s ∧ bs_contents s f !! k = Some d ∧ SHA256Key d = k.

(** The store owns neither the name nor the file of the journal. *)
Definition separate (s : S) (j : Journal) (f : fs) : Prop :=
  ¬ bs_owns s (filepath_Clean (j_path j)) ∧
  ∀ p i fd, bs_owns s p → fs_dir f !! Named p = Some i → j_file j = Some fd → fs_fds f !! fd ≠ Some i.

Definition blobs_wf (b : option S) (j : Journal) (f : fs) : Prop :=
  match b with None => True | Some s => bs_wf s f ∧ separate s j f end.

Definition present_verified (st : Store) (b : option S) (f : fs) : Prop :=
  ∀ k r, records st !! k = Some r → State r = StatePresent → verified b f (BlobKey r).

(** [base] is the checkpoint under the journal: the state is what a restart
    replays, and every present record has its blob.  [owned] are the paths of
    the blob store. *)
Record applier_inv (owned : bytes → Prop) (base : list record) (a : Applier S) (w : world) : Prop := {
  ai_journal : jinv (a_journal a) w;
  ai_state : a_state a = apply_all (NewStore (j_limits (a_journal a))) (base ++ j_records (a_journal a));
  ai_blobs : blobs_wf (a_blobs a) (a_journal a) (w_fs w);
  ai_present : present_verified (a_state a) (a_blobs a) (w_fs w);
  ai_owned : ∀ s, a_blobs a = Some s → bs_owns s = owned
}.

(** *** Steps of the blob store *)

(** A step that only uses the blob store: verified blobs stay verified. *)
Record blob_step (a a' : Applier S) (f f' : fs) : Prop := {
  bp_rest : a' = set_blobs (a_blobs a') a;
  bp_wf : fs_wf f';
  bp_frame : match a_blobs a, a_blobs a' with
             | Some s, Some s' => bs_owns s' = bs_owns s ∧ bs_wf s' f' ∧ fs_frame (bs_owns s) f f'
             | None, None => f' = f
             | _, _ => False
             end;
  bp_verified : ∀ k, verified (a_blobs a) f k → verified (a_blobs a') f' k
}.

Lemma set_blobs_same (a : Applier S) : set_blobs (a_blobs a) a = a.
Proof. by destruct a. Qed.

Lemma blob_step_refl a f j : fs_wf f → blobs_wf (a_blobs a) j f → blob_step a a f f.
Proof.
  intros Hf Hb. split; [by rewrite set_blobs_same|done| |done].
  destruct (a_blobs a) as [s|]; [|done]. destruct Hb as [Hb _]. split_and!; [done|done|by apply fs_frame_refl].
Qed.

Lemma blob_step_trans a b c f g h : blob_step a b f g → blob_step b c g h → blob_step a c f h.
Proof.
  intros [R1 W1 F1 V1] [R2 W2 F2 V2]. split; [|done| |by auto].
  - destruct a, b, c. unfold set_blobs in *. cbn in *. by simplify_eq.
  - destruct (a_blobs a), (a_blobs b), (a_blobs c); try done; [|by rewrite F2].
    destruct F1 as (E1 & _ & F1), F2 as (E2 & Hw & F2). split_and!; [by rewrite E2|done|].
    rewrite E1 in F2. by eapply fs_frame_trans.
Qed.

(** One call of the store. *)
Lemma on_blobs_step {A} (m : M (S * world) A) a w r a' w' :
  on_blobs m (a, w) = (r, (a', w')) →
  (a_blobs a = None ∧ a' = a ∧ w' = w ∧ r = Err ErrNilApplierBlobStore) ∨
  ∃ s s', a_blobs a = Some s ∧ a' = set_blobs (Some s') a ∧ m (s, w) = (r, (s', w')).
Proof.
  unfold on_blobs. cbn [fst snd]. destruct (a_blobs a) as [s|] eqn:Es.
  - destruct (m (s, w)) as [r1 [s1 w1]] eqn:Em. intros [= <- <- <-]. right. by exists s, s1.
  - intros [= <- <- <-]. by left.
Qed.

Lemma Get_step key a w r a' w' j :
  fs_wf (w_fs w) → blobs_wf (a_blobs a) j (w_fs w) → on_blobs (bs_Get key) (a, w) = (r, (a', w')) →
  blob_step a a' (w_fs w) (w_fs w') ∧
  ∀ d, r = Ok d → ∃ s, a_blobs a' = Some s ∧ bs_contents s (w_fs w') !! key = Some d.
Proof.
  intros Hf Hb [(? & -> & -> & ->)|(s & s' & Es & -> & HG)]%on_blobs_step; [split; [by eapply blob_step_refl|done]|].
  rewrite Es in Hb. destruct Hb as [Hb _].
  destruct (bs_Get_run _ _ _ _ _ _ Hf Hb HG) as (Hb' & Eo & Hfr & Ec & Hr). split.
  - split; [done|apply Hfr|cbn; by rewrite Es|]. cbn. intros k (s1 & d & E1 & Hd & Hk). rewrite Es in E1.
    injection E1 as <-. exists s', d. by rewrite Ec.
  - intros d ->. exists s'. by rewrite Ec.
Qed.

Lemma Put_step key d a w r a' w' j :
  fs_wf (w_fs w) → blobs_wf (a_blobs a) j (w_fs w) → SHA256Key d = key →
  on_blobs (bs_Put key d) (a, w) = (r, (a', w')) →
  blob_step a a' (w_fs w) (w_fs w') ∧ (is_Ok r = true → verified (a_blobs a') (w_fs w') key).
Proof.
  intros Hf Hb Hd [(? & -> & -> & ->)|(s & s' & Es & -> & HP)]%on_blobs_step; [split; [by eapply blob_step_refl|done]|].
  rewrite Es in Hb. destruct Hb as [Hb _].
  destruct (bs_Put_run _ _ _ _ _ _ _ Hf Hb HP) as (Hb' & Eo & Hfr & Hr).
  assert (∀ k, verified (a_blobs a) (w_fs w) k → bs_contents s' (w_fs w') = <[key := d]> (bs_contents s (w_fs w)) →
    verified (Some s') (w_fs w') k) as Hins.
  { intros k (s1 & d1 & E1 & Hd1 & Hk) Ec. rewrite Es in E1. injection E1 as <-.
    destruct (decide (k = key)) as [->|Hne].
    - exists s', d. by rewrite Ec, lookup_insert_eq.
    - exists s', d1. by rewrite Ec, lookup_insert_ne. }
  split.
  - split; [done|apply Hfr|cbn; by rewrite Es|]. intros k Hk. cbn [set_blobs a_blobs].
    destruct r as [[]|e]; [by apply Hins|]. destruct Hr as [Ec|Ec]; [|by apply Hins].
    destruct Hk as (s1 & d1 & E1 & Hd1 & Hk). rewrite Es in E1. injection E1 as <-. exists s', d1. by rewrite Ec.
  - destruct r as [[]|e]; [|done]. intros _. exists s', d. by rewrite Hr, lookup_insert_eq.
Qed.

(** A component that does not own the journal's path. *)
Lemma jfile_frame owned j f f' fd i x :
  jfile j f fd i x [] → fs_frame owned f f' → ¬ owned (filepath_Clean (j_path j)) → jfile j f' fd i x [].
Proof.
  intros [] F Hn. split; try done; [apply F|by apply (ff_fds _ _ _ F)|by apply (ff_ino _ _ _ F)|by rewrite (ff_dir _ _ _ F)].
Qed.

(** What the journal holds is not touched by the store. *)
Lemma jfile_blob_step a a' f f' fd i x :
  blobs_wf (a_blobs a) (a_journal a) f → jfile (a_journal a) f fd i x [] → blob_step a a' f f' →
  jfile (a_journal a') f' fd i x [] ∧ blobs_wf (a_blobs a') (a_journal a') f'.
Proof.
  intros Hb Hj [R W F _]. rewrite R. cbn [set_blobs a_journal a_blobs].
  destruct (a_blobs a) as [s|], (a_blobs a') as [s'|]; try done; [|by rewrite F].
  destruct F as (Eo & Hb' & F), Hb as (_ & Hn & Hs). split.
  - by eapply jfile_frame.
  - split; [done|]. rewrite <- Eo in *. split; [done|]. intros p i' fd' Hp Hi' Hfd Hbad.
    rewrite (jf_file _ _ _ _ _ _ Hj) in Hfd. injection Hfd as <-.
    rewrite (ff_fds _ _ _ F _ _ (jf_fd _ _ _ _ _ _ Hj)) in Hbad. injection Hbad as <-.
    apply (ff_new _ _ _ F) in Hi' as [Hi'|Hi']; [| |done].
    + by apply (Hs p i fd Hp Hi' (jf_file _ _ _ _ _ _ Hj)), (jf_fd _ _ _ _ _ _ Hj).
    + pose proof (jf_ino _ _ _ _ _ _ Hj) as Hx. by rewrite (wf_fresh_ino _ (jf_wf _ _ _ _ _ _ Hj) _ Hi') in Hx.
Qed.

Lemma ensureBlob_run key sup a w r a' w' j :
  fs_wf (w_fs w) → blobs_wf (a_blobs a) j (w_fs w) → ensureBlob key sup (a, w) = (r, (a', w')) →
  blob_step a a' (w_fs w) (w_fs w') ∧ (is_Ok r = true → verified (a_blobs a') (w_fs w') key).
Proof.
  intros Hf Hb HE. unfold ensureBlob in HE. step_Ok HE. cbn [fst] in HE.
  case_bool_decide as Hn; [stop HE; split; [by eapply blob_step_refl|done]|].
  destruct sup as [d|].
  - step_Ok HE. step HE as [] [a1 w1] E1; injection E1 as Ev <- <-; [|split; [by eapply blob_step_refl|done]].
    apply VerifySHA256Key_Ok in Ev. eapply Put_step; [done|done| |done]. done.
  - step HE as d [a1 w1] E1; unfold attempt in E1;
      destruct (on_blobs (bs_Get key) (a, w)) as [r2 [a2 w2]] eqn:EG;
      destruct (Get_step _ _ _ _ _ _ j Hf Hb EG) as [Hstep Hd].
    + assert (r2 = Ok d ∧ a1 = a2 ∧ w1 = w2) as (-> & -> & ->) by (unfold ret, throw in E1; repeat case_match; by simplify_eq).
      step HE as [] [a3 w3] E3; injection E3 as Ev <- <-; [|by split].
      apply VerifySHA256Key_Ok in Ev. stop HE. split; [done|]. intros _.
      destruct (Hd d eq_refl) as (s & Es & Hs). exists s, d. done.
    + assert (a1 = a2 ∧ w1 = w2) as [-> ->] by (unfold ret, throw in E1; repeat case_match; by simplify_eq). by split.
Qed.

Lemma ensure_blobs_run rs a w r a' w' fd i x :
  blobs_wf (a_blobs a) (a_journal a) (w_fs w) → jfile (a_journal a) (w_fs w) fd i x [] →
  ensure_blobs rs (a, w) = (r, (a', w')) →
  blob_step a a' (w_fs w) (w_fs w') ∧
  (is_Ok r = true → Forall (λ r, State r = StatePresent → verified (a_blobs a') (w_fs w') (BlobKey r)) rs).
Proof.
  revert a w. induction rs as [|y rs IH]; intros a w Hb Hj HE; cbn [ensure_blobs] in HE.
  { stop HE. split; [eapply blob_step_refl; [apply Hj|done]|]. intros _. apply Forall_nil_2. }
  assert (∃ r1 a1 w1, (if bool_decide (State y = StatePresent) then ensureBlob (BlobKey y) None else ret tt) (a, w) = (r1, (a1, w1)) ∧
    blob_step a a1 (w_fs w) (w_fs w1) ∧
    (is_Ok r1 = true → State y = StatePresent → verified (a_blobs a1) (w_fs w1) (BlobKey y))) as (r1 & a1 & w1 & E1 & Hs1 & Hv1).
  { case_bool_decide as Ep.
    - destruct (ensureBlob (BlobKey y) None (a, w)) as [r1 [a1 w1]] eqn:E1. exists r1, a1, w1. split; [done|].
      eapply ensureBlob_run in E1 as [Hs1 Hv1]; [|apply Hj|done]. split; [done|]. intros Hr _. by apply Hv1.
    - exists (Ok tt), a, w. split_and!; [done|eapply blob_step_refl; [apply Hj|done]|by intros _ ?]. }
  destruct r1 as [[]|e]; [rewrite (bind_step_Ok _ _ _ _ _ E1) in HE|rewrite (bind_step_Err _ _ _ _ _ E1) in HE; stop HE; by split].
  destruct (jfile_blob_step _ _ _ _ _ _ _ Hb Hj Hs1) as [Hj1 Hb1].
  destruct (IH _ _ Hb1 Hj1 HE) as [Hs2 Hv2]. split; [by eapply blob_step_trans|]. intros Hr.
  apply Forall_cons. split; [|by apply Hv2]. intros Hp. apply (bp_verified _ _ _ _ Hs2). by apply Hv1.
Qed.

(** *** Steps of the journal *)

(** What happens to other paths does not show in the blobs. *)
Definition blobs_other (b : option S) (f f' : fs) : Prop :=
  match b with Some s => fs_other (bs_owns s) f f' | None => True end.

Lemma verified_other b j f f' :
  blobs_wf b j f → blobs_other b f f' →
  (∀ k, verified b f k → verified b f' k) ∧ ∀ s, b = Some s → bs_wf s f'.
Proof.
  intros Hb Ho. split.
  - intros k (s & d & -> & Hd & Hk). destruct Hb as [Hb _]. destruct (bs_stable _ _ _ Hb Ho) as [_ Ec].
    exists s, d. by rewrite Ec.
  - intros s ->. destruct Hb as [Hb _]. by destruct (bs_stable _ _ _ Hb Ho).
Qed.

(** The journal's own file is foreign to the store. *)
Lemma upd_ino_other g b j f fd i x torn :
  jfile j f fd i x torn → blobs_wf b j f → blobs_other b f (upd_ino g i f).
Proof.
  intros Hj Hb. destruct b as [s|]; [|done]. destruct Hb as (_ & _ & Hs). split; [done|].
  intros p i' Hp Hi'. cbn. apply lookup_alter_ne. intros <-.
  apply (Hs p i fd Hp Hi' (jf_file _ _ _ _ _ _ Hj)), (jf_fd _ _ _ _ _ _ Hj).
Qed.

Lemma present_mono st b b' f f' :
  (∀ k, verified b f k → verified b' f' k) → present_verified st b f → present_verified st b' f'.
Proof. intros Hm Hp k r Hr Hs. by eapply Hm, Hp. Qed.

Lemma present_Apply r st b f :
  present_verified st b f → (State r = StatePresent → verified b f (BlobKey r)) →
  present_verified (Apply r st).2 b f.
Proof.
  intros Hp Hr k x. rewrite Apply_lookup. case_match; [|apply Hp]. by intros [= <-].
Qed.

(** An append changes the journal's own file only. *)
Lemma Append_upd j w r res j' w' fd i x :
  jfile j (w_fs w) fd i x [] → Append r (j, w) = (res, (j', w')) → ∃ g, w_fs w' = upd_ino g i (w_fs w).
Proof.
  intros Hj HA. pose proof (Append_run _ _ _ _ _ _ _ _ _ _ Hj eq_refl HA) as Hr. destruct res as [[]|e].
  - destruct Hr as (_ & _ & ->). eexists. unfold synced, fs_append. by rewrite upd_ino_upd_ino.
  - destruct Hr as [_ [->|(_ & n & _ & ->)]]; [exists id; by rewrite upd_ino_id|by eexists].
Qed.

(** The journal accepted the record: the store sees nothing of it. *)
Lemma Append_blobs a w r w' res j' :
  jinv (a_journal a) w → blobs_wf (a_blobs a) (a_journal a) (w_fs w) →
  Append r (a_journal a, w) = (res, (j', w')) →
  blobs_other (a_blobs a) (w_fs w) (w_fs w') ∧ (is_Ok res = true → blobs_wf (a_blobs a) j' (w_fs w')).
Proof.
  intros (fd & i & x & Hj) Hb HA. pose proof (Append_run _ _ _ _ _ _ _ _ _ _ Hj eq_refl HA) as Hr.
  destruct (Append_upd _ _ _ _ _ _ _ _ _ Hj HA) as [g Eg].
  pose proof (upd_ino_other g _ _ _ _ _ _ _ Hj Hb) as Ho. rewrite Eg. split; [done|].
  destruct res as [[]|e]; [|done]. intros _. destruct Hr as (_ & -> & _).
  destruct (verified_other _ _ _ _ Hb Ho) as [_ Hw]. destruct (a_blobs a) as [s|]; [|done].
  split; [by apply Hw|]. destruct Hb as (_ & Hs). done.
Qed.

(** What a call that returned an error leaves behind. *)
Definition unapplied (a a' : Applier S) (w' : world) : Prop :=
  a_state a' = a_state a ∧ a_journal a' = a_journal a ∧ present_verified (a_state a') (a_blobs a') (w_fs w').

Lemma unapplied_step owned base a a' w w' :
  applier_inv owned base a w → blob_step a a' (w_fs w) (w_fs w') → unapplied a a' w'.
Proof.
  intros Hi Hs. pose proof (bp_rest _ _ _ _ Hs) as ->. split_and!; [done|done|].
  cbn [set_blobs a_state a_blobs]. eapply present_mono; [apply (bp_verified _ _ _ _ Hs)|apply Hi].
Qed.

(** Blob steps keep the invariant. *)
Lemma applier_inv_step owned base a a' w w' :
  applier_inv owned base a w → blob_step a a' (w_fs w) (w_fs w') → applier_inv owned base a' w'.
Proof.
  intros [(fd & i & x & Hj) Est Hb Hp Hown] Hs. destruct (jfile_blob_step _ _ _ _ _ _ _ Hb Hj Hs) as [Hj' Hb'].
  split; [by exists fd, i, x| |done| |].
  - rewrite (bp_rest _ _ _ _ Hs). exact Est.
  - eapply present_mono; [apply (bp_verified _ _ _ _ Hs)|]. rewrite (bp_rest _ _ _ _ Hs). exact Hp.
  - intros s Es. pose proof (bp_frame _ _ _ _ Hs) as Hfr. rewrite Es in Hfr.
    destruct (a_blobs a) as [s0|]; [|done]. destruct Hfr as (-> & _). by apply Hown.
Qed.

Lemma applier_inv_fs owned base a w w' : w_fs w' = w_fs w → applier_inv owned base a w → applier_inv owned base a w'.
Proof. intros E [Hj Est Hb Hp Hown]. unfold jinv in Hj. rewrite <- E in Hj, Hb, Hp. by split. Qed.

Lemma applier_inv_wf owned base a w : applier_inv owned base a w → fs_wf (w_fs w) ∧ blob_step a a (w_fs w) (w_fs w).
Proof.
  intros [(fd & i & x & Hj) _ Hb _ _]. split; [apply Hj|]. eapply blob_step_refl; [apply Hj|done].
Qed.

(** What a component with a path of its own does to that path. *)
Lemma blobs_frame owned b j f f' fd i x p0 :
  jfile j f fd i x [] → blobs_wf b j f → (∀ s, b = Some s → bs_owns s = owned) → fs_frame (eq p0) f f' → ¬ owned p0 →
  blobs_wf b j f' ∧ ∀ k, verified b f k → verified b f' k.
Proof.
  intros Hj Hb Hown F Hfor. pose proof (jf_wf _ _ _ _ _ _ Hj) as Hf.
  assert (blobs_other b f f') as Ho.
  { destruct b as [s|]; [|done]. eapply fs_frame_other; [done|done|by rewrite (Hown s eq_refl)]. }
  destruct (verified_other _ _ _ _ Hb Ho) as [Hm Hw]. split; [|done].
  destruct b as [s|]; [|done]. destruct Hb as (_ & Hn & Hs). split; [by apply Hw|]. split; [done|].
  intros p i' fd' Hp' Hi' Hfd Hbad. rewrite (fo_dir _ _ _ Ho p Hp') in Hi'.
  rewrite (jf_file _ _ _ _ _ _ Hj) in Hfd. injection Hfd as <-.
  rewrite (ff_fds _ _ _ F _ _ (jf_fd _ _ _ _ _ _ Hj)) in Hbad. injection Hbad as <-.
  by apply (Hs p i fd Hp' Hi' (jf_file _ _ _ _ _ _ Hj)), (jf_fd _ _ _ _ _ _ Hj).
Qed.
Lemma applier_inv_frame owned base a w w' p0 :
  applier_inv owned base a w → fs_frame (eq p0) (w_fs w) (w_fs w') → p0 ≠ filepath_Clean (j_path (a_journal a)) →
  ¬ owned p0 → applier_inv owned base a w'.
Proof.
  intros [(fd & i & x & Hj) Est Hb Hp Hown] F Hne Hfor. destruct (blobs_frame _ _ _ _ _ _ _ _ _ Hj Hb Hown F Hfor) as [Hb' Hm].
  split; [exists fd, i, x; by eapply jfile_frame|done|done|by eapply present_mono|done].
Qed.

(** The accepted record: journal first, then the state. *)
Lemma publish_record owned base a w r res a' w' :
  applier_inv owned base a w → version_u64 (RVersion r) →
  (State r = StatePresent → verified (a_blobs a) (w_fs w) (BlobKey r)) →
  (in_journal (Append r) ;; in_state (Apply r)) (a, w) = (res, (a', w')) →
  match res with
  | Ok result => applier_inv owned base a' w' ∧ Classify r (a_state a) = Ok result ∧ a_state a' = (Apply r (a_state a)).2 ∧
      Append r (a_journal a, w) = (Ok tt, (a_journal a', w'))
  | Err _ => Classify r (a_state a) = res ∨ unapplied a a' w'
  end.
Proof.
  intros Hi Hu Hv HR. pose proof Hi as [Hj Est Hb Hp Hown].
  step HR as [] [a1 w1] E1; unfold in_journal, zoom in E1; cbn [fst snd] in E1;
    destruct (Append r (a_journal a, w)) as [rA [j2 w2]] eqn:EA; injection E1 as -> <- <-;
    destruct (Append_blobs _ _ _ _ _ _ Hj Hb EA) as [Ho Hb2];
    destruct (verified_other _ _ _ _ Hb Ho) as [Hm _]; pose proof Hj as (fd & i & x & Hjf).
  - destruct (Append_Ok _ _ _ _ _ _ _ _ _ _ Hjf eq_refl Hu EA) as (Ej & _ & Hj2).
    unfold in_state, zoom in HR. cbn [fst snd a_state a_blobs a_journal a_limits] in HR.
    pose proof (Apply_result r (a_state a)) as Ec. destruct (Apply r (a_state a)) as [r3 st3] eqn:EAp.
    injection HR as <- <- <-. cbn [fst] in Ec. destruct r3 as [result|e]; [|by left]. split_and!; try done.
    split; cbn [a_journal a_state a_blobs]; [by exists fd, i, (Inode (i_data x ++ Codec.entry r) (i_data x ++ Codec.entry r))| |by apply Hb2| |done].
    + rewrite Ej. cbn [appended j_limits j_records]. rewrite app_assoc, apply_all_app, <- Est. cbn. by rewrite EAp.
    + assert (st3 = (Apply r (a_state a)).2) as -> by by rewrite EAp. apply present_Apply; [by eapply present_mono|].
      intros Hs. by apply Hm, Hv.
  - right. destruct (Append_Err _ _ _ _ _ _ _ _ _ _ Hjf eq_refl EA) as (Ej & _). split_and!; [done|done|].
    cbn. by eapply present_mono.
Qed.

(** *** Installing a snapshot *)

Section other_paths.
Context (owned : bytes → Prop).

(** A new file under a foreign name. *)
Lemma new_file_other f f' x :
  fs_wf f → fs_ino f' = <[fs_next f := x]> (fs_ino f) →
  (∀ p, owned p → fs_dir f' !! Named p = fs_dir f !! Named p) → fs_other owned f f'.
Proof.
  intros Hf Ei Hd. split; [done|]. intros p i Hp Hi. rewrite Ei. apply lookup_insert_ne. intros <-.
  apply (wf_dir _ Hf) in Hi as [y Hy]. by rewrite (wf_fresh_ino _ Hf) in Hy.
Qed.
Lemma abandoned_other f dir d st keep : fs_wf f → fs_other owned f (abandoned f dir d st keep).
Proof.
  intros Hf. apply (new_file_other _ _ (Inode d st)); [done|done|]. intros p _. cbn. destruct keep; [|done].
  by rewrite lookup_insert_ne.
Qed.
Lemma committed_other f path data :
  fs_wf f → ¬ owned (filepath_Clean path) → fs_other owned f (committed f path data).
Proof.
  intros Hf Hp. apply (new_file_other _ _ (Inode data data)); [done|done|]. intros p Hp'. cbn.
  apply lookup_insert_ne. intros [= <-]. done.
Qed.
Lemma same_disk_other f f' : same_disk f' f → fs_other owned f f'.
Proof. intros [Ed _ Ei]. split; [by rewrite Ed|]. by rewrite Ei. Qed.
Lemma sync_dir_other f dir : fs_other owned f (fs_sync_dir dir f).
Proof. by split. Qed.

Lemma rw_other f path image r f' :
  fs_wf f → ¬ owned (filepath_Clean path) → rw_result f path image r f' → fs_other owned f f'.
Proof.
  intros Hf Hp [e|e d st keep|e f2 [Hd|Hd]|].
  - done.
  - by apply abandoned_other.
  - etrans; [by apply committed_other|by apply same_disk_other].
  - etrans; [by apply committed_other|]. etrans; [apply sync_dir_other|by apply same_disk_other].
  - etrans; [by apply committed_other|]. by split.
Qed.
Lemma published_other f cp data jp image r f' :
  fs_wf f → ¬ owned (filepath_Clean cp) → ¬ owned (filepath_Clean jp) →
  published f cp data jp image r f' → fs_other owned f f'.
Proof.
  intros Hf Hc Hj [e f2 Ha|r2 f2 Hr].
  - inversion Ha; subst; [done|by apply abandoned_other|by apply committed_other].
  - etrans; [|eapply rw_other; [by apply fs_wf_checkpointed|done|done]].
    unfold checkpointed. etrans; [by apply (committed_other f cp data)|apply sync_dir_other].
Qed.
End other_paths.

Lemma publish_blobs b j w fd i x cp data floor rs res j' w' :
  jfile j (w_fs w) fd i x [] → blobs_wf b j (w_fs w) → (∀ s, b = Some s → ¬ bs_owns s (filepath_Clean cp)) →
  publish cp data j floor rs (j, w) = (res, (j', w')) →
  blobs_other b (w_fs w) (w_fs w') ∧ (is_Ok res = true → blobs_wf b j' (w_fs w')).
Proof.
  intros Hj Hb Hp HP. destruct b as [s|]; [|done]. destruct Hb as (Hw & Hn & Hs). cbn in Hp.
  destruct (publish_run _ _ _ _ _ _ _ _ _ _ _ _ _ _ Hj eq_refl HP) as (r & f2 & Hpub & Hd & Hr).
  assert (fs_other (bs_owns s) (w_fs w) (w_fs w')) as Ho.
  { etrans; [|by apply same_disk_other]. apply (published_other _ _ _ _ _ _ _ _ (jf_wf _ _ _ _ _ _ Hj) (Hp s eq_refl) Hn Hpub). }
  split; [done|]. intros Hok. destruct res as [[]|e]; [|done]. destruct Hr as (_ & -> & _ & Hfd & _).
  destruct (bs_stable _ _ _ Hw Ho) as [Hw' _]. split; [done|]. split; [done|].
  intros p i' fd' Hp' Hi' [= <-]. rewrite Hfd. intros [= <-]. rewrite (fo_dir _ _ _ Ho p Hp') in Hi'.
  apply (wf_dir _ (jf_wf _ _ _ _ _ _ Hj)) in Hi' as [y Hy].
  rewrite (wf_fresh_ino _ (jf_wf _ _ _ _ _ _ Hj)) in Hy; [done|lia].
Qed.

Lemma InstallSnapshot_blobs b j w path c res j' w' :
  jinv j w → blobs_wf b j (w_fs w) → (∀ s, b = Some s → ¬ bs_owns s (filepath_Clean path)) →
  InstallSnapshot path c (j, w) = (res, (j', w')) →
  blobs_other b (w_fs w) (w_fs w') ∧ (is_Ok res = true → blobs_wf b j' (w_fs w')).
Proof.
  intros (fd & i & x & Hj) Hb Hp HI.
  destruct (InstallSnapshot_run _ _ _ _ _ _ _ _ _ _ _ _ Hj eq_refl HI) as [(e & -> & -> & ->)|(data & w1 & Hin & Hw1 & HP)].
  { split; [|done]. destruct b; by split. }
  rewrite <- Hw1 in *. by eapply publish_blobs.
Qed.

(** The whole effect of a snapshot whose blobs are there. *)
Lemma install_snapshot owned base a w path wm rs res a' w' :
  applier_inv owned base a w → ¬ owned (filepath_Clean path) → version_u64 wm → Forall (λ r, version_u64 (RVersion r)) rs →
  sort_records rs = rs →
  Forall (λ r, State r = StatePresent → verified (a_blobs a) (w_fs w) (BlobKey r)) rs →
  (in_journal (InstallSnapshot path (mkCheckpoint wm rs)) ;; in_state (ReplaceSnapshot rs)) (a, w) = (res, (a', w')) →
  match res with
  | Ok _ => applier_inv owned rs a' w' ∧ version_le (j_last (a_journal a)) wm ∧
      j_records (a_journal a') = [] ∧ j_floor (a_journal a') = wm ∧ j_last (a_journal a') = wm ∧
      j_path (a_journal a') = j_path (a_journal a) ∧ (∀ k r, records (a_state a') !! k = Some r ↔ r ∈ rs ∧ key_of r = k) ∧
      ∃ data, file_at (w_fs w') path = Some data ∧ decodeCheckpoint data (j_limits (a_journal a')) = Ok (mkCheckpoint wm rs)
  | Err _ => unapplied a a' w'
  end.
Proof.
  intros Hi Hp Hw Hu Hsort Hv HR. pose proof Hi as [Hj Est Hb Hpr Hown].
  step HR as [] [a1 w1] E1; unfold in_journal, zoom in E1; cbn [fst snd] in E1;
    destruct (InstallSnapshot _ _ (a_journal a, w)) as [rI [j2 w2]] eqn:EI; injection E1 as -> <- <-;
    destruct (InstallSnapshot_blobs _ _ _ _ _ _ _ _ Hj Hb (λ s Es, eq_ind_r (λ o, ¬ o (filepath_Clean path)) Hp (Hown s Es)) EI) as [Ho Hb2];
    destruct (verified_other _ _ _ _ Hb Ho) as [Hm _].
  - destruct (InstallSnapshot_Ok _ _ _ (mkCheckpoint wm rs) _ _ _ Hj Hw Hu EI) as (Hle & Hj2 & Efl & Ela & Erec & Elim & Epath & Hval & Hnd & data & Hdata & Hdec).
    cbn [Watermark CRecords] in *. unfold in_state, zoom in HR. cbn [fst snd a_state a_blobs a_journal a_limits] in HR.
    pose proof Hj as (fd & i & x & Hjf).
    assert (limits (a_state a) = j_limits (a_journal a)) as El.
    { rewrite Est, apply_all_limits. apply (jf_limits _ _ _ _ _ _ Hjf). }
    assert (ReplaceSnapshot rs (a_state a) = (Ok tt, mkStore (limits (a_state a)) (index rs))) as ER.
    { apply ReplaceSnapshot_Ok. rewrite El. done. }
    rewrite ER in HR. injection HR as <- <- <-. cbn [a_journal a_state records]. rewrite Hsort in Hdec.
    split_and!; try done; [|intros; by apply index_lookup|by exists data].
    split; cbn [a_journal a_state a_blobs]; [done| |by apply Hb2| |done].
    + rewrite Erec, app_nil_r, Elim, apply_all_index by done. by rewrite (jf_limits _ _ _ _ _ _ Hjf), El.
    + intros k r. cbn. rewrite index_lookup by done. intros [Hin _] Hs. apply Hm. rewrite Forall_forall in Hv. by apply Hv.
  - split_and!; [done| |by eapply present_mono]. cbn.
    destruct Hj as (fd & i & x & Hjf).
    destruct (InstallSnapshot_run _ _ _ _ _ _ _ _ _ _ _ _ Hjf eq_refl EI) as [(? & _ & -> & _)|(data & w1 & _ & Hw1 & HP)]; [done|].
    by apply (publish_run _ _ _ _ _ _ _ _ _ _ _ _ _ _ Hjf Hw1) in HP as (? & ? & _ & _ & ->).
Qed.

(** *** Whole calls *)

Lemma Applier_Apply_run owned base (a : Applier S) w caps r sup res a' w' :
  applier_inv owned base a w → version_u64 (RVersion r) → Applier_Apply caps r sup (a, w) = (res, (a', w')) →
  match res with
  | Ok result =>
      HasLifecycleCapability caps = true ∧ applier_inv owned base a' w' ∧
      Classify r (a_state a) = Ok result ∧ a_state a' = (Apply r (a_state a)).2 ∧
      if bool_decide (Outcome result = OutcomeApplied)
      then ∃ w1, jinv (a_journal a) w1 ∧ Append r (a_journal a, w1) = (Ok tt, (a_journal a', w'))
      else a_journal a' = a_journal a
  | Err _ => unapplied a a' w'
  end.
Proof.
  intros Hi Hu Hrun. unfold Applier_Apply in Hrun. pose proof (applier_inv_wf _ _ _ _ Hi) as [Hf Hs0].
  step Hrun as [] [a1 w1] E1; apply io_eq in E1 as [-> E1]; apply ctx_Err_fs in E1 as [Ew _];
    pose proof (applier_inv_fs _ _ _ _ _ Ew Hi) as Hi1; pose proof (applier_inv_wf _ _ _ _ Hi1) as [Hf1 Hs1];
    [|by eapply unapplied_step].
  destruct (HasLifecycleCapability caps) eqn:Ecap; cbn [negb] in Hrun; [|stop Hrun; by eapply unapplied_step].
  step_Ok Hrun. cbn [fst] in Hrun.
  step Hrun as [] [a2 w2] E2; injection E2 as _ <- <-; [|by eapply unapplied_step].
  step Hrun as c [a2 w2] E2; injection E2 as Ec <- <-; [|by eapply unapplied_step].
  case_bool_decide as Ho; cbn [negb] in Hrun.
  2:{ stop Hrun. split_and!; [done|done|done| |].
      - rewrite Apply_state, Ec. by rewrite bool_decide_eq_false_2.
      - by rewrite bool_decide_eq_false_2. }
  step Hrun as [] [a2 w2] E2; case_bool_decide as Ep; try (by injection E2); try discriminate E2.
  - destruct (ensureBlob_run _ _ _ _ _ _ _ _ Hf1 (ai_blobs _ _ _ _ Hi1) E2) as [Hs2 Hv2].
    pose proof (bp_rest _ _ _ _ Hs2) as R2. pose proof (publish_record _ _ _ _ _ _ _ _ (applier_inv_step _ _ _ _ _ _ Hi1 Hs2) Hu (λ _, Hv2 eq_refl) Hrun) as HP.
    rewrite R2 in HP. cbn [set_blobs a_state a_journal] in HP. destruct res as [result|e].
    + destruct HP as (Hi' & Ec' & Est & EA). rewrite Ec in Ec'. injection Ec' as <-. rewrite bool_decide_eq_true_2 by done.
      split_and!; [done..|]. exists w2. split; [|done].
      pose proof (ai_journal _ _ _ _ (applier_inv_step _ _ _ _ _ _ Hi1 Hs2)) as Hj2. by rewrite R2 in Hj2.
    + destruct HP as [?|HP]; [congruence|]. exact HP.
  - injection E2 as <- <-.
    pose proof (publish_record _ _ _ _ _ _ _ _ Hi1 Hu (λ E, False_ind _ (Ep E)) Hrun) as HP. destruct res as [result|e].
    + destruct HP as (Hi' & Ec' & Est & EA). rewrite Ec in Ec'. injection Ec' as <-. rewrite bool_decide_eq_true_2 by done.
      split_and!; [done..|]. exists w1. split; [apply Hi1|done].
    + destruct HP as [?|HP]; [congruence|]. exact HP.
  - destruct (ensureBlob_run _ _ _ _ _ _ _ _ Hf1 (ai_blobs _ _ _ _ Hi1) E2) as [Hs2 _]. by eapply unapplied_step.
Qed.

Lemma ApplySnapshot_run owned base (a : Applier S) w caps c path res a' w' :
  applier_inv owned base a w → ¬ owned (filepath_Clean path) → version_u64 (Watermark c) →
  Forall (λ r, version_u64 (RVersion r)) (CRecords c) → ApplySnapshot caps c path (a, w) = (res, (a', w')) →
  match res with
  | Ok _ =>
      let rs := sort_records (CRecords c) in
      HasLifecycleCapability caps = true ∧ applier_inv owned rs a' w' ∧ version_le (j_last (a_journal a)) (Watermark c) ∧
      j_records (a_journal a') = [] ∧ j_last (a_journal a') = Watermark c ∧ j_path (a_journal a') = j_path (a_journal a) ∧
      (∀ k r, records (a_state a') !! k = Some r ↔ r ∈ rs ∧ key_of r = k) ∧
      ∃ data, file_at (w_fs w') path = Some data ∧
        decodeCheckpoint data (j_limits (a_journal a')) = Ok (mkCheckpoint (Watermark c) rs)
  | Err _ => unapplied a a' w'
  end.
Proof.
  intros Hi Hp Hw Hu Hrun. unfold ApplySnapshot in Hrun. pose proof (applier_inv_wf _ _ _ _ Hi) as [Hf Hs0].
  step Hrun as [] [a1 w1] E1; apply io_eq in E1 as [-> E1]; apply ctx_Err_fs in E1 as [Ew _];
    pose proof (applier_inv_fs _ _ _ _ _ Ew Hi) as Hi1; pose proof (applier_inv_wf _ _ _ _ Hi1) as [Hf1 Hs1];
    [|by eapply unapplied_step].
  destruct (HasLifecycleCapability caps) eqn:Ecap; cbn [negb] in Hrun; [|stop Hrun; by eapply unapplied_step].
  case_bool_decide; [stop Hrun; by eapply unapplied_step|]. step_Ok Hrun. cbn [fst] in Hrun.
  step Hrun as [normal l] [a2 w2] E2; injection E2 as En <- <-; [|by eapply unapplied_step].
  unfold normalizeCheckpoint in En. apply rbind_Ok in En as (rs & Hrs & [= <- <-]).
  apply normalizeCheckpointRecords_Ok in Hrs as (_ & _ & Hnd & ->). cbn [CRecords] in Hrun.
  pose proof (ai_journal _ _ _ _ Hi1) as (fd & i & x & Hj).
  step Hrun as [] [a2 w2] E2; destruct (ensure_blobs_run _ _ _ _ _ _ _ _ _ (ai_blobs _ _ _ _ Hi1) Hj E2) as [Hs2 Hv2];
    [|by eapply unapplied_step].
  pose proof (applier_inv_step _ _ _ _ _ _ Hi1 Hs2) as Hi2.
  assert (sort_records (sort_records (CRecords c)) = sort_records (CRecords c)) as Eid.
  { apply sort_records_id; [by rewrite sort_records_Permutation|apply sort_records_sorted]. }
  rewrite <- (sort_records_Permutation (CRecords c)) in Hu.
  pose proof (install_snapshot _ _ _ _ _ _ _ _ _ _ Hi2 Hp Hw Hu Eid (Hv2 eq_refl) Hrun) as HP.
  rewrite (bp_rest _ _ _ _ Hs2) in HP. destruct res as [[]|e]; [|exact HP].
  destruct HP as (? & ? & ? & _ & ? & ? & ? & ?). by split_and!.
Qed.
End applier_facts.

(** ** Properties *)

(** C9: One transition is verified, durable and then visible.  [Apply] keeps the
    applier's invariant: the state is what replaying the checkpoint and the
    journal gives, and every present record has its blob stored under its own
    digest.  It answers what [Classify] says of the current state and the state
    becomes what [Apply] of the store makes of it; when the outcome is
    [OutcomeApplied] the last thing that happened to the disk is a successful
    [Append], and for every other outcome the journal is left alone.  A call that
    fails leaves state and journal as they were and loses no blob. *)
Theorem Applier_Apply_durable `{UnicodePrint} {S : Type} `{BlobStoreSpec S} owned base (a : Applier S) w caps r sup res a' w'
    (Hi : applier_inv owned base a w) (Hu : version_u64 (RVersion r))
    (Hrun : Applier_Apply caps r sup (a, w) = (res, (a', w'))) :
  match res with
  | Ok result =>
      HasLifecycleCapability caps = true ∧ applier_inv owned base a' w' ∧
      Classify r (a_state a) = Ok result ∧ a_state a' = (Apply r (a_state a)).2 ∧
      if bool_decide (Outcome result = OutcomeApplied)
      then ∃ w1, jinv (a_journal a) w1 ∧ Append r (a_journal a, w1) = (Ok tt, (a_journal a', w'))
      else a_journal a' = a_journal a
  | Err _ => unapplied a a' w'
  end.
Proof. exact (Applier_Apply_run _ _ _ _ _ _ _ _ _ _ Hi Hu Hrun). Qed.

(** A snapshot replaces the whole view or nothing.  A successful
    [ApplySnapshot] is not older than the journal; afterwards the journal is
    empty at the snapshot's watermark, the checkpoint file decodes to the
    snapshot, the state holds exactly its records, every present one has its
    verified blob, and the invariant holds with the snapshot as the new base.  A
    failed one leaves state and journal as they were. *)
Theorem ApplySnapshot_installs `{UnicodePrint} {S : Type} `{BlobStoreSpec S} owned base (a : Applier S) w caps c path res a' w'
    (Hi : applier_inv owned base a w) (Hp : ¬ owned (filepath_Clean path)) (Hw : version_u64 (Watermark c))
    (Hu : Forall (λ r, version_u64 (RVersion r)) (CRecords c))
    (Hrun : ApplySnapshot caps c path (a, w) = (res, (a', w'))) :
  match res with
  | Ok _ =>
      let rs := sort_records (CRecords c) in
      HasLifecycleCapability caps = true ∧ applier_inv owned rs a' w' ∧ version_le (j_last (a_journal a)) (Watermark c) ∧
      j_records (a_journal a') = [] ∧ j_last (a_journal a') = Watermark c ∧ j_path (a_journal a') = j_path (a_journal a) ∧
      (∀ k r, records (a_state a') !! k = Some r ↔ r ∈ rs ∧ key_of r = k) ∧
      ∃ data, file_at (w_fs w') path = Some data ∧
        decodeCheckpoint data (j_limits (a_journal a')) = Ok (mkCheckpoint (Watermark c) rs)
  | Err _ => unapplied a a' w'
  end.
Proof. exact (ApplySnapshot_run _ _ _ _ _ _ _ _ _ _ Hi Hp Hw Hu Hrun). Qed.

(** *** Concrete runs *)

#[local] Existing Instance ascii_print.

Definition ex_blob : bytes := lit "hello".
Definition ex_present : record :=
  mkRecord (lit "photos") (lit "a") StatePresent (SHA256Key ex_blob) (mkVersion 1 1) (lit "node-a").
Definition ex_applier : Applier (MemoryStore (gset bytes)) :=
  mkApplier (Some (mkMemoryStore ∅ None)) (NewStore zero_limits) ex_opened.1 (normalized zero_limits).

Lemma ex_applier_inv : applier_inv (λ _, False) [] ex_applier ex_opened.2.
Proof.
  split.
  - exact ex_opened_jinv.
  - vm_compute. reflexivity.
  - split; [by split|]. split; [by intros []|by intros ? ? ? []].
  - intros k r Hr. cbn in Hr. by rewrite lookup_empty in Hr.
  - done.
Qed.

#[local] Abbreviation ex_first := (Applier_Apply [LifecycleCapabilityV1] ex_present (Some ex_blob) (ex_applier, ex_opened.2)).

Lemma Applier_Apply_durable_witness :
  ex_first.1 = Ok (mkApplyResult OutcomeApplied (mkVersion 1 1)) ∧ applier_inv (λ _, False) [] ex_first.2.1 ex_first.2.2.
Proof.
  assert (ex_first.1 = Ok (mkApplyResult OutcomeApplied (mkVersion 1 1))) as E by (vm_compute; reflexivity).
  destruct (Applier_Apply_durable (λ _, False) [] ex_applier ex_opened.2 [LifecycleCapabilityV1] ex_present (Some ex_blob)
    (Ok (mkApplyResult OutcomeApplied (mkVersion 1 1))) ex_first.2.1 ex_first.2.2 ex_applier_inv) as (_ & Hi & _);
    [decide_now|apply run_eq2; exact E|]. split; [exact E|exact Hi].
Defined.

(** The blob of the snapshot's present record is missing: nothing is installed. *)
#[local] Abbreviation ex_refused :=
  (ApplySnapshot [LifecycleCapabilityV1] (mkCheckpoint (mkVersion 2 0) [ex_present]) (lit "state/checkpoint") (ex_applier, ex_opened.2)).
#[local] Abbreviation ex_accepted :=
  (ApplySnapshot [LifecycleCapabilityV1] (mkCheckpoint (mkVersion 2 0) [ex_deleted 97 2]) (lit "state/checkpoint") (ex_applier, ex_opened.2)).

Lemma ApplySnapshot_installs_witness :
  ex_refused.1 = Err (EJoin ErrLifecycleBlobMissing storage_ErrNotFound) ∧ a_journal ex_refused.2.1 = ex_opened.1 ∧
  applier_inv (λ _, False) [ex_deleted 97 2] ex_accepted.2.1 ex_accepted.2.2.
Proof.
  assert (ex_refused.1 = Err (EJoin ErrLifecycleBlobMissing storage_ErrNotFound)) as E by (vm_compute; reflexivity).
  destruct (ApplySnapshot_installs (λ _, False) [] ex_applier ex_opened.2 [LifecycleCapabilityV1] (mkCheckpoint (mkVersion 2 0) [ex_present])
    (lit "state/checkpoint") (Err (EJoin ErrLifecycleBlobMissing storage_ErrNotFound)) ex_refused.2.1 ex_refused.2.2 ex_applier_inv)
    as (_ & Hj & _); [intros []|decide_now|decide_now|apply run_eq2; exact E|].
  destruct (ApplySnapshot_installs (λ _, False) [] ex_applier ex_opened.2 [LifecycleCapabilityV1] (mkCheckpoint (mkVersion 2 0) [ex_deleted 97 2])
    (lit "state/checkpoint") (Ok tt) ex_accepted.2.1 ex_accepted.2.2 ex_applier_inv)
    as (_ & Hi & _); [intros []|decide_now|decide_now|apply run_eq2; vm_compute; reflexivity|].
  split; [exact E|]. split; [exact Hj|exact Hi].
Defined.
