(* ===== verification/Session.v ===== *)
(** * Repair sessions

    internal/lifecycle/session.go: one session plans and sends repair frames to
    a peer, applies the frames the peer sends, and acknowledges them.  The
    applier and the coordinator of a session hold the same [*Journal] (both are
    built over it by openLifecycleRuntime of lifecycle_cli.go), so the model keeps one
    journal, the coordinator's, and lends it to the applier for each call.

    [Handle] is a computation.  [Run] waits for channels that [Handle] fills from
    another goroutine: it is a step relation on a program counter, interleaved
    with calls of [Handle]. *)
From S2P Require Import Prelude Go Bits Text Json Os Model Codec Journal Compact Transport Repair StateFile Watermark Blobs Applier.

(** [RepairFramePeer]: the authenticated peer that frames are written to. *)
Class RepairFramePeer (P : Type) := {
  AuthCapabilities : P → list bytes;
  WriteFrame : bytes → Z → M (P * world) unit
}.

Record RepairSessionOptions (P S : Type) := mkRepairSessionOptions {
  so_Peer : option P;
  so_Coordinator : option RepairCoordinator;
  so_Applier : option (Applier S);
  so_PeerID : bytes;
  so_Snapshot : option Checkpoint;
  so_CheckpointPath : bytes;
  so_MaxFrameBytes : Z;
  so_ReconcilePeer : bool
}.
Arguments so_Peer {P S} _.
Arguments so_Coordinator {P S} _.
Arguments so_Applier {P S} _.
Arguments so_PeerID {P S} _.
Arguments so_Snapshot {P S} _.
Arguments so_CheckpointPath {P S} _.
Arguments so_MaxFrameBytes {P S} _.
Arguments so_ReconcilePeer {P S} _.

(** The channels have room for one token: [true] when it is there. *)
Record RepairSession (P S : Type) := mkRepairSession {
  rs_peer : P;
  rs_coordinator : RepairCoordinator;
  rs_applier : option (Applier S);
  rs_peerID : bytes;
  rs_snapshot : option Checkpoint;
  rs_checkpointPath : bytes;
  rs_maxFrameBytes : Z;
  rs_reconcilePeer : bool;
  rs_ackNotify : bool;
  rs_helloReceived : bool;
  rs_helloNotify : bool
}.
Arguments mkRepairSession {P S} _ _ _ _ _ _ _ _ _ _ _.
Arguments rs_peer {P S} _.
Arguments rs_coordinator {P S} _.
Arguments rs_applier {P S} _.
Arguments rs_peerID {P S} _.
Arguments rs_snapshot {P S} _.
Arguments rs_checkpointPath {P S} _.
Arguments rs_maxFrameBytes {P S} _.
Arguments rs_reconcilePeer {P S} _.
Arguments rs_ackNotify {P S} _.
Arguments rs_helloReceived {P S} _.
Arguments rs_helloNotify {P S} _.

Section session.
Context `{UnicodePrint} {P S : Type} `{RepairFramePeer P} `{BlobStore S}.

Definition NewRepairSession (options : RepairSessionOptions P S) : result (RepairSession P S) :=
  match so_Peer options with
  | None => Err ErrNilRepairSessionPeer
  | Some peer =>
      match so_Coordinator options with
      | None => Err ErrNilRepairSessionCoordinator
      | Some coordinator =>
          _ <-? validatePeer (rc_watermarks coordinator) (so_PeerID options) ;
          let maxFrameBytes := so_MaxFrameBytes options in
          let maxFrameBytes := if maxFrameBytes <=? 0 then MaxFrameBytes (rc_limits coordinator) else maxFrameBytes in
          let maxFrameBytes := if maxFrameBytes <=? 0 then DefaultMaxRepairFrameBytes else maxFrameBytes in
          Ok (mkRepairSession peer coordinator (so_Applier options) (so_PeerID options) (so_Snapshot options)
                (so_CheckpointPath options) maxFrameBytes (so_ReconcilePeer options) false false false)
      end
  end.

(** ** The parts of a session *)

Definition set_parts (p : P) (c : RepairCoordinator) (a : option (Applier S)) (s : RepairSession P S) : RepairSession P S :=
  mkRepairSession p c a (rs_peerID s) (rs_snapshot s) (rs_checkpointPath s) (rs_maxFrameBytes s) (rs_reconcilePeer s)
    (rs_ackNotify s) (rs_helloReceived s) (rs_helloNotify s).
Definition set_channels (ack hello_received hello : bool) (s : RepairSession P S) : RepairSession P S :=
  mkRepairSession (rs_peer s) (rs_coordinator s) (rs_applier s) (rs_peerID s) (rs_snapshot s) (rs_checkpointPath s)
    (rs_maxFrameBytes s) (rs_reconcilePeer s) ack hello_received hello.

Definition on_peer {A} (m : M (P * world) A) : M (RepairSession P S * world) A :=
  zoom (λ s, (rs_peer s.1, s.2)) (λ t s, (set_parts t.1 (rs_coordinator s.1) (rs_applier s.1) s.1, t.2)) m.
Definition on_coordinator {A} (m : M (RepairCoordinator * world) A) : M (RepairSession P S * world) A :=
  zoom (λ s, (rs_coordinator s.1, s.2)) (λ t s, (set_parts (rs_peer s.1) t.1 (rs_applier s.1) s.1, t.2)) m.

(** The applier works on the journal that the coordinator reads. *)
Definition set_journal (j : Journal) (a : Applier S) : Applier S :=
  mkApplier (a_blobs a) (a_state a) j (a_limits a).
Definition set_rc_journal (j : Journal) (c : RepairCoordinator) : RepairCoordinator :=
  mkRepairCoordinator j (rc_watermarks c) (rc_limits c).
Definition on_applier {A} (m : M (Applier S * world) A) : M (RepairSession P S * world) A := λ sw,
  match rs_applier sw.1 with
  | None => (Err ErrNilRepairSessionApplier, sw)
  | Some a =>
      let '(r, (a', w')) := m (set_journal (rc_journal (rs_coordinator sw.1)) a, sw.2) in
      (r, (set_parts (rs_peer sw.1) (set_rc_journal (a_journal a') (rs_coordinator sw.1)) (Some a') sw.1, w'))
  end.

Definition requireCapability (s : RepairSession P S) : result unit :=
  if negb (HasLifecycleCapability (AuthCapabilities (rs_peer s))) then Err ErrLifecycleCapabilityRequired else Ok tt.

(** ** Sending *)

Definition writeAck (watermark : Version) : M (RepairSession P S * world) unit :=
  io ctx_Err ;;
  s <- self ;
  payload <- lift (EncodeRepairAck (mkRepairAck RepairAckMessageType watermark) (rc_limits (rs_coordinator s))) ;
  on_peer (WriteFrame payload (rs_maxFrameBytes s)).

Definition session_watermark (s : RepairSession P S) : Version :=
  BookWatermark (rc_watermarks (rs_coordinator s)) (rs_peerID s).

Definition sendStartupWatermark : M (RepairSession P S * world) unit :=
  s <- self ;
  writeAck (session_watermark s).

Definition SendNext : M (RepairSession P S * world) RepairPlan :=
  io ctx_Err ;;
  s <- self ;
  lift (requireCapability s) ;;
  plan <- on_coordinator (CoordinatorPlan (rs_peerID s) (rs_snapshot s)) ;
  if rs_maxFrameBytes s <? len (PPayload plan) then throw ErrRepairFrameTooLarge
  else on_peer (WriteFrame (PPayload plan) (rs_maxFrameBytes s)) ;; ret plan.

(** ** Receiving *)

Fixpoint apply_records (capabilities : list bytes) (rs : list record) : M (RepairSession P S * world) unit :=
  match rs with
  | [] => ret tt
  | r :: rs' => on_applier (Applier_Apply capabilities r None) ;; apply_records capabilities rs'
  end.

Definition handleBatch (batch : RepairBatch) : M (RepairSession P S * world) unit :=
  s <- self ;
  if bool_decide (rs_applier s = None) then throw ErrNilRepairSessionApplier
  else
    let expected := session_watermark s in
    delivery <- lift (Delivery batch expected (rc_limits (rs_coordinator s))) ;
    match delivery with
    | RepairDeliveryDuplicate => writeAck expected
    | RepairDeliveryReady =>
        apply_records (AuthCapabilities (rs_peer s)) (BRecords batch) ;;
        on_coordinator (CoordinatorAcknowledge (rs_peerID s) (BTo batch)) ;;
        writeAck (BTo batch)
    end.

Definition handleSnapshot (snapshot : RepairSnapshot) : M (RepairSession P S * world) unit :=
  s <- self ;
  if bool_decide (rs_applier s = None) then throw ErrNilRepairSessionApplier
  else
    let expected := session_watermark s in
    if Compare (NWatermark snapshot) expected <=? 0 then writeAck expected
    else
      on_applier (ApplySnapshot (AuthCapabilities (rs_peer s)) (mkCheckpoint (NWatermark snapshot) (NRecords snapshot))
                    (rs_checkpointPath s)) ;;
      on_coordinator (CoordinatorAcknowledge (rs_peerID s) (NWatermark snapshot)) ;;
      writeAck (NWatermark snapshot).

(** Only the first watermark is taken as the startup watermark; a token that
    is already in the channel is enough. *)
Definition acceptStartupWatermark : M (RepairSession P S * world) bool :=
  s <- self ;
  if rs_helloReceived s then ret false
  else update (set_channels (rs_ackNotify s) true true) ;; ret true.
Definition notifyAck : M (RepairSession P S * world) unit :=
  update (λ s, set_channels true (rs_helloReceived s) (rs_helloNotify s) s).

Definition Handle (payload : bytes) : M (RepairSession P S * world) unit :=
  io ctx_Err ;;
  s <- self ;
  lift (requireCapability s) ;;
  frame <- lift (DecodeRepairFrameForPeer payload (AuthCapabilities (rs_peer s)) (rc_limits (rs_coordinator s))) ;
  match FAck frame, FBatch frame, FSnapshot frame with
  | Some ack, _, _ =>
      startup <- (if rs_reconcilePeer s then acceptStartupWatermark else ret false) ;
      if startup then
        if negb (IsZero (LastVersion (rc_journal (rs_coordinator s))))
        then on_coordinator (CoordinatorReconcile (rs_peerID s) (KWatermark ack))
        else ret tt
      else
        on_coordinator (CoordinatorAcknowledge (rs_peerID s) (KWatermark ack)) ;;
        notifyAck
  | None, Some batch, _ => handleBatch batch
  | None, None, Some snapshot => handleSnapshot snapshot
  | None, None, None => throw ErrRepairMalformed
  end.

(** ** Run *)

(** Where [Run] stands: before the startup watermark, waiting for the peer's,
    before the callback, before the next plan, waiting for an acknowledgement
    of a plan, and returned. *)
Inductive run_pc :=
  | RunStart
  | RunHello
  | RunBefore
  | RunPlan
  | RunWait (plan : RepairPlan)
  | RunDone (r : result unit).

(** After [SendNext], and after the acknowledgement it waited for. *)
Definition run_next (plan : RepairPlan) : run_pc := if PMore plan then RunPlan else RunDone (Ok tt).
Definition run_sent (plan : RepairPlan) : run_pc :=
  if 0 <? Compare (PTo plan) (PFrom plan) then RunWait plan else run_next plan.

Definition failed_at (r : result unit) (next : run_pc) : run_pc :=
  match r with Ok _ => next | Err e => RunDone (Err e) end.

(** One step of [Run] with its callback [before].  A [select] takes any branch
    that is ready. *)
Inductive run_step (before : option (M (RepairSession P S * world) unit))
    : run_pc → RepairSession P S * world → run_pc → RepairSession P S * world → Prop :=
  | run_no_hello s w : rs_reconcilePeer s = false → run_step before RunStart (s, w) RunBefore (s, w)
  | run_hello s w r sw' :
      rs_reconcilePeer s = true → sendStartupWatermark (s, w) = (r, sw') →
      run_step before RunStart (s, w)
        (failed_at r (if IsZero (LastVersion (rc_journal (rs_coordinator sw'.1))) then RunBefore else RunHello)) sw'
  | run_hello_received s w : rs_helloReceived s = true → run_step before RunHello (s, w) RunBefore (s, w)
  | run_hello_notified s w :
      rs_helloNotify s = true →
      run_step before RunHello (s, w) RunBefore (set_channels (rs_ackNotify s) (rs_helloReceived s) false s, w)
  | run_hello_cancelled s w w' :
      ctx_Err w = (Err ErrContext, w') → run_step before RunHello (s, w) (RunDone (Err ErrContext)) (s, w')
  | run_no_callback sw : before = None → run_step before RunBefore sw RunPlan sw
  | run_callback callback sw r sw' :
      before = Some callback → callback sw = (r, sw') → run_step before RunBefore sw (failed_at r RunPlan) sw'
  | run_plan sw plan sw' : SendNext sw = (Ok plan, sw') → run_step before RunPlan sw (run_sent plan) sw'
  | run_plan_failed sw e sw' : SendNext sw = (Err e, sw') → run_step before RunPlan sw (RunDone (Err e)) sw'
  | run_acknowledged s w plan :
      0 <= Compare (session_watermark s) (PTo plan) → run_step before (RunWait plan) (s, w) (run_next plan) (s, w)
  | run_woken s w plan :
      Compare (session_watermark s) (PTo plan) < 0 → rs_ackNotify s = true →
      run_step before (RunWait plan) (s, w) (RunWait plan)
        (set_channels false (rs_helloReceived s) (rs_helloNotify s) s, w)
  | run_cancelled s w w' plan :
      Compare (session_watermark s) (PTo plan) < 0 → ctx_Err w = (Err ErrContext, w') →
      run_step before (RunWait plan) (s, w) (RunDone (Err ErrContext)) (s, w').

(** [Run] on one goroutine, [Handle] of incoming frames on another. *)
Inductive session_step (before : option (M (RepairSession P S * world) unit))
    : run_pc * (RepairSession P S * world) → run_pc * (RepairSession P S * world) → Prop :=
  | session_run pc sw pc' sw' : run_step before pc sw pc' sw' → session_step before (pc, sw) (pc', sw')
  | session_handle pc sw payload r sw' : Handle payload sw = (r, sw') → session_step before (pc, sw) (pc, sw').
End session.

(** ** What a decoded frame says *)

Lemma dec_slice_inv {A} (Q : A → Prop) (dec : decoder A) zero old j l :
  Q zero → (∀ o j x, Q o → dec o j = Some x → Q x) → Forall Q old → dec_slice dec zero old j = Some l → Forall Q l.
Proof.
  intros Hz Hd Ho. destruct j as [|b|n|s|js|kvs]; cbn; try done; [by intros [= <-]|].
  revert old l Ho. induction js as [|j js IH]; intros old l Ho; cbn; [by intros [= <-]|].
  intros HE. destruct (dec (hd zero old) j) as [x|] eqn:Ex; [|done].
  destruct (dec_elems _ _ _ js) as [xs|] eqn:Exs; [|done]. injection HE as <-. apply Forall_cons. split.
  - eapply Hd; [|done]. destruct old as [|o old]; [done|]. by apply Forall_cons in Ho as [? _].
  - eapply IH; [|done]. destruct old as [|o old]; [done|]. by apply Forall_cons in Ho as [_ ?].
Qed.

Ltac fields_inv Hin :=
  rewrite !elem_of_cons, elem_of_nil in Hin; destruct_or! Hin; try done; injection Hin as _ ->.

Section frames.
Context `{UnicodePrint}.

Lemma decodeRepairEnvelope_inv {A} (Q : A → Prop) (dec : decoder A) zero payload x :
  (∀ j x, dec zero j = Some x → Q x) → decodeRepairEnvelope dec zero payload = Ok x → Q x.
Proof.
  intros Hd. unfold decodeRepairEnvelope, decode_one. repeat case_match; try done. intros [= <-]. simplify_eq. eauto.
Qed.

Definition batch_u64 (b : RepairBatch) : Prop := version_u64 (BFrom b) ∧ version_u64 (BTo b) ∧ u64_records (BRecords b).
Lemma dec_batch_u64 j b : dec_batch zero_batch j = Some b → batch_u64 b.
Proof.
  apply (dec_struct_inv batch_u64); [|split_and!; [done|done|apply Forall_nil_2]].
  intros k d Hin o j' y (H1 & H2 & H3). fields_inv Hin; intros (x & Hx & ->)%field_inv; try done.
  - split; [by eapply dec_version_u64, Hx|done].
  - split; [done|]. split; [by eapply dec_version_u64, Hx|done].
  - split; [done|]. split; [done|]. eapply dec_slice_inv; [| |exact H3|exact Hx]; [done|]. intros. by eapply dec_record_u64.
Qed.
Definition snapshot_u64 (s : RepairSnapshot) : Prop := version_u64 (NWatermark s) ∧ u64_records (NRecords s).
Lemma dec_snapshot_u64 j s : dec_snapshot zero_snapshot j = Some s → snapshot_u64 s.
Proof.
  apply (dec_struct_inv snapshot_u64); [|split_and!; [done|apply Forall_nil_2]].
  intros k d Hin o j' y (H1 & H3). fields_inv Hin; intros (x & Hx & ->)%field_inv; try done.
  - split; [by eapply dec_version_u64, Hx|done].
  - split; [done|]. eapply dec_slice_inv; [| |exact H3|exact Hx]; [done|]. intros. by eapply dec_record_u64.
Qed.
Lemma dec_ack_u64 j a : dec_ack zero_ack j = Some a → version_u64 (KWatermark a).
Proof.
  apply (dec_struct_inv (λ a, version_u64 (KWatermark a))); [|done].
  intros k d Hin o j' y Ho. fields_inv Hin; intros (x & Hx & ->)%field_inv; try done. by eapply dec_version_u64, Hx.
Qed.

(** The versions of a frame fit 64 bits, and it carries exactly one part. *)
Lemma DecodeRepairFrame_inv payload l f :
  DecodeRepairFrame payload l = Ok f → frame_u64 f ∧
  (∀ b, FBatch f = Some b → good_batch (repair_normalized l) b).
Proof.
  unfold DecodeRepairFrame. cbv zeta. intros HD. apply guard_Ok in HD as [_ HD]. apply rbind_Ok in HD as (t & _ & HD).
  case_bool_decide; [|case_bool_decide; [|case_bool_decide; [|done]]]; apply rbind_Ok in HD as (x & Hx & [= <-]); cbn.
  - unfold DecodeRepairBatch in Hx. cbv zeta in Hx. apply guard_Ok in Hx as [_ Hx]. apply rbind_Ok in Hx as (b & Hb & Hx).
    apply guard_Ok in Hx as [_ Hx]. apply rbind_Ok in Hx as ([] & Hv & [= <-]).
    apply (decodeRepairEnvelope_inv batch_u64) in Hb; [|intros; by eapply dec_batch_u64].
    rewrite repair_normalized_idem in Hv. apply validateRepairBatch_Ok in Hv.
    split; [split_and!; [by intros ? [= <-]|done|done]|by intros ? [= <-]].
  - unfold DecodeRepairSnapshot in Hx. cbv zeta in Hx. apply guard_Ok in Hx as [_ Hx]. apply rbind_Ok in Hx as (s & Hs & Hx).
    apply guard_Ok in Hx as [_ Hx]. apply (decodeRepairEnvelope_inv snapshot_u64) in Hs; [|intros; by eapply dec_snapshot_u64].
    apply normalizeRepairSnapshot_Ok in Hx as (Hn & _ & _ & Ex). apply normalizeCheckpointRecords_Ok in Hn as (_ & _ & _ & En).
    split; [|done]. split_and!; [done| |done]. intros ? [= <-]. rewrite Ex. cbn. rewrite En. destruct Hs as [? Hu].
    split; [done|]. unfold u64_records. by rewrite sort_records_Permutation.
  - unfold DecodeRepairAck in Hx. cbv zeta in Hx. apply guard_Ok in Hx as [_ Hx]. apply rbind_Ok in Hx as (a & Ha & Hx).
    apply guard_Ok in Hx as [_ [= <-]]. apply (decodeRepairEnvelope_inv (λ a, version_u64 (KWatermark a))) in Ha; [|intros; by eapply dec_ack_u64].
    split; [split_and!; [done|done|by intros ? [= <-]]|done].
Qed.
End frames.

(** ** The invariant of a session *)

(** What a session relies on in its peer: writing a frame does not touch the
    disk; after a success the frame is among the frames sent. *)
Class FramePeerSpec (P : Type) `{RepairFramePeer P} := {
  peer_sent : P → list bytes;
  WriteFrame_run : ∀ payload max p w r p' w', WriteFrame payload max (p, w) = (r, (p', w')) →
    w_fs w' = w_fs w ∧ AuthCapabilities p' = AuthCapabilities p ∧
    (peer_sent p' = peer_sent p ++ [payload] ∨ is_Ok r = false ∧ peer_sent p' = peer_sent p)
}.

(** The record, or a newer one for its key, is in the state. *)
Definition incorporated (st : Store) (r : record) : Prop :=
  ∃ x, records st !! key_of r = Some x ∧ version_le (RVersion r) (RVersion x).

Section incorporated.
Context `{UnicodePrint}.

Lemma Classify_incorporated r st res : Classify r st = Ok res → incorporated (Apply r st).2 r.
Proof.
  intros Hc. unfold incorporated. rewrite Apply_lookup. unfold Classify in Hc. apply rbind_Ok in Hc as (u & Hv & Hc).
  apply Validate_Ok in Hv. rewrite Hv, bool_decide_eq_true_2 by done. cbn [andb].
  destruct (records st !! key_of r) as [p|]; [|by exists r].
  case_bool_decide as Hlt; [by exists r|]. exists p. split; [done|]. by apply version_nlt.
Qed.
Lemma incorporated_Apply r x st : incorporated st r → incorporated (Apply x st).2 r.
Proof.
  intros (y & Hy & Hle). unfold incorporated. rewrite Apply_lookup. case_match eqn:Ec; [|by exists y].
  rewrite Hy in Ec. bool_to_prop. destruct_and?. exists x. split; [done|]. etrans; [done|]. by apply version_lt_le.
Qed.
End incorporated.

Section session_facts.
Context `{UnicodePrint} {P S : Type} `{FramePeerSpec P} `{BlobStoreSpec S}.
Implicit Types s : RepairSession P S.

Abbreviation s_journal s := (rc_journal (rs_coordinator s)).
Abbreviation s_book s := (rc_watermarks (rs_coordinator s)).

(** [base] is the checkpoint under the journal, [owned] are the paths of the
    blob store; neither the book nor the checkpoint is among them. *)
Record session_inv (owned : bytes → Prop) (base : list record) (s : RepairSession P S) (w : world) : Prop := {
  si_journal : jinv (s_journal s) w;
  si_applier : ∀ a, rs_applier s = Some a → applier_inv owned base (set_journal (s_journal s) a) w;
  si_book : wb_wf (s_book s);
  si_path : wb_path (s_book s) ≠ filepath_Clean (j_path (s_journal s));
  si_foreign : ¬ owned (wb_path (s_book s)) ∧ ¬ owned (filepath_Clean (rs_checkpointPath s));
  si_bounded : version_le (session_watermark s) (j_last (s_journal s))
}.

(** What no part of a session changes. *)
Record same_session (s s' : RepairSession P S) : Prop := {
  ss_peer : AuthCapabilities (rs_peer s') = AuthCapabilities (rs_peer s);
  ss_id : rs_peerID s' = rs_peerID s;
  ss_limits : rc_limits (rs_coordinator s') = rc_limits (rs_coordinator s);
  ss_path : rs_checkpointPath s' = rs_checkpointPath s;
  ss_applier : rs_applier s' = None ↔ rs_applier s = None
}.
#[export] Instance same_session_refl : Reflexive same_session.
Proof. by split. Qed.
#[export] Instance same_session_trans : Transitive same_session.
Proof. intros s1 s2 s3 [] []. split; try congruence. naive_solver. Qed.

Lemma session_inv_fs owned base s w w' : w_fs w' = w_fs w → session_inv owned base s w → session_inv owned base s w'.
Proof.
  intros E [Hj Ha Hb Hp Hf Hv]. split; try done; [unfold jinv in *; by rewrite E|].
  intros a Ea. eapply applier_inv_fs; [done|by apply Ha].
Qed.

(** *** Writing an acknowledgement *)

Definition ack_of (s : RepairSession P S) (v : Version) : result bytes :=
  EncodeRepairAck (mkRepairAck RepairAckMessageType v) (rc_limits (rs_coordinator s)).

Lemma writeAck_run owned base v s w res s' w' :
  session_inv owned base s w → writeAck v (s, w) = (res, (s', w')) →
  session_inv owned base s' w' ∧ same_session s s' ∧ session_watermark s' = session_watermark s ∧
  rs_applier s' = rs_applier s ∧ rs_coordinator s' = rs_coordinator s ∧
  (is_Ok res = false ∧ peer_sent (rs_peer s') = peer_sent (rs_peer s) ∨
   ∃ ack, ack_of s v = Ok ack ∧ peer_sent (rs_peer s') = peer_sent (rs_peer s) ++ [ack]).
Proof.
  intros Hi HW. unfold writeAck in HW.
  step HW as [] [s1 w1] E1; apply io_eq in E1 as [-> E1]; apply ctx_Err_fs in E1 as [Ew _];
    pose proof (session_inv_fs _ _ _ _ _ Ew Hi) as Hi1; [|split_and!; try done; by left].
  step_Ok HW. cbn [fst] in HW.
  step HW as ack [s2 w2] E2; injection E2 as Ea <- <-; [|split_and!; try done; by left].
  unfold on_peer, zoom in HW. cbn [fst snd] in HW.
  destruct (WriteFrame ack (rs_maxFrameBytes s) (rs_peer s, w1)) as [r2 [p2 w2]] eqn:EW. injection HW as <- <- <-.
  apply WriteFrame_run in EW as (Ef & Ecap & Hsent).
  assert (session_inv owned base (set_parts p2 (rs_coordinator s) (rs_applier s) s) w2) as Hi2.
  { eapply session_inv_fs; [exact Ef|]. destruct Hi1. by split. }
  split_and!; try done. cbn. destruct Hsent as [Hs|[Hr Hs]]; [right; by exists ack|by left].
Qed.

(** *** Applying records *)

(** The applier came back with another journal and state. *)
Lemma session_inv_applier owned base base' s w a' w' :
  session_inv owned base s w → applier_inv owned base' a' w' →
  version_le (j_last (s_journal s)) (j_last (a_journal a')) → j_path (a_journal a') = j_path (s_journal s) →
  session_inv owned base' (set_parts (rs_peer s) (set_rc_journal (a_journal a') (rs_coordinator s)) (Some a') s) w'.
Proof.
  intros [Hj Ha Hb Hp Hf Hv] Hi Hle Ep.
  split; cbn [set_parts set_rc_journal rs_coordinator rc_journal rs_applier rc_watermarks rs_checkpointPath]; try done.
  - apply Hi.
  - intros ? [= <-]. by destruct a'.
  - by rewrite Ep.
  - by trans (j_last (s_journal s)).
Qed.

Lemma on_Apply_run owned base caps r s w res s' w' :
  session_inv owned base s w → version_u64 (RVersion r) →
  on_applier (Applier_Apply caps r None) (s, w) = (res, (s', w')) →
  same_session s s' ∧ rs_peer s' = rs_peer s ∧ s_book s' = s_book s ∧
  (is_Ok res = true → session_inv owned base s' w' ∧
     ∃ a a', rs_applier s = Some a ∧ rs_applier s' = Some a' ∧
       a_state a' = (Apply r (a_state a)).2 ∧ incorporated (a_state a') r).
Proof.
  intros Hi Hu HA. unfold on_applier in HA. cbn [fst snd] in HA.
  destruct (rs_applier s) as [a|] eqn:Ea; [|injection HA as <- <- <-; by split_and!].
  destruct (Applier_Apply caps r None _) as [res1 [a1 w1]] eqn:EA. injection HA as <- <- <-.
  split_and!; try done; [by split; cbn; rewrite ?Ea|]. intros Hok. destruct res1 as [result|]; [|done].
  pose proof (si_applier _ _ _ _ Hi a Ea) as Hia.
  pose proof (Applier_Apply_run _ _ _ _ _ _ _ _ _ _ Hia Hu EA) as (_ & Hi1 & Hc & Est & Hj).
  cbn [set_journal a_state a_journal] in Hc, Est, Hj.
  assert (version_le (j_last (s_journal s)) (j_last (a_journal a1)) ∧ j_path (a_journal a1) = j_path (s_journal s)) as [Hle Epath].
  { case_bool_decide; [|by rewrite Hj]. destruct Hj as (w2 & (fd & i & x & Hj2) & HAp).
    pose proof (Append_run _ _ _ _ _ _ _ _ _ _ Hj2 eq_refl HAp) as (Hap & -> & _). cbn. split; [|done].
    apply version_lt_le. apply (ap_newer _ _ Hap). }
  split; [by eapply session_inv_applier|]. exists a, a1. split_and!; [done|done|done|].
  rewrite Est. by eapply Classify_incorporated.
Qed.

Definition state_holds (s : RepairSession P S) (rs : list record) : Prop :=
  ∃ a, rs_applier s = Some a ∧ Forall (incorporated (a_state a)) rs.

Lemma apply_records_run owned base caps rs : ∀ seen s w res s' w',
  session_inv owned base s w → u64_records rs → state_holds s seen →
  apply_records caps rs (s, w) = (res, (s', w')) →
  same_session s s' ∧ rs_peer s' = rs_peer s ∧ s_book s' = s_book s ∧
  (is_Ok res = true → session_inv owned base s' w' ∧ state_holds s' (seen ++ rs)).
Proof.
  induction rs as [|r rs IH]; intros seen s w res s' w' Hi Hu Hs HA; cbn [apply_records] in HA.
  { stop HA. rewrite app_nil_r. by split_and!. }
  unfold u64_records in Hu. apply Forall_cons in Hu as [Hr Hu].
  step HA as [] [s1 w1] E1; destruct (on_Apply_run _ _ _ _ _ _ _ _ _ Hi Hr E1) as (Hsame & Ep & Eb & Hok);
    [|by split_and!].
  destruct (Hok eq_refl) as (Hi1 & a & a1 & Ea & Ea1 & Est & Hin).
  assert (state_holds s1 (seen ++ [r])) as Hs1.
  { destruct Hs as (a0 & Ea0 & Hs). rewrite Ea in Ea0. injection Ea0 as <-. exists a1. split; [done|].
    apply Forall_app. split; [|by apply Forall_singleton]. rewrite Est. eapply Forall_impl; [exact Hs|].
    intros x. apply incorporated_Apply. }
  destruct (IH _ _ _ _ _ _ Hi1 Hu Hs1 HA) as (Hsame2 & Ep2 & Eb2 & Hok2). rewrite <- app_assoc in Hok2.
  split_and!; [by etrans|congruence|congruence|done].
Qed.

(** *** The book *)

(** Persisting a state changes one path. *)
Lemma persistState_frame es path maxBytes j w r w' :
  fs_wf (w_fs w) → persistState es path maxBytes j w = (r, w') → fs_frame (eq (filepath_Clean path)) (w_fs w) (w_fs w').
Proof.
  intros Hf. unfold persistState. repeat case_match; intros HP;
    [injection HP as _ <-; by apply fs_frame_refl|by eapply atomicWrite_frame|injection HP as _ <-; by apply fs_frame_refl].
Qed.

Lemma commit_frame next b w res b' w' :
  fs_wf (w_fs w) → commit next (b, w) = (res, (b', w')) →
  fs_frame (eq (filepath_Clean (wb_path b))) (w_fs w) (w_fs w') ∧ wb_path b' = wb_path b ∧
  match res with Ok _ => b' = set_watermarks next b | Err _ => b' = b end.
Proof.
  intros Hf HC. unfold commit in HC. step_Ok HC. cbn [fst] in HC.
  step HC as [] [b1 w1] E1; apply io_eq in E1 as [-> E1]; apply persistState_frame in E1; [|done|..|done].
  - injection HC as <- <- <-. by split_and!.
  - by split_and!.
Qed.

Lemma book_step_frame b w next res b' w' :
  fs_wf (w_fs w) → wb_wf b → book_step b w next res b' w' →
  fs_frame (eq (wb_path b)) (w_fs w) (w_fs w') ∧ wb_path b' = wb_path b ∧ wb_wf b' ∧
  (b' = b ∨ is_Ok res = true ∧ b' = set_watermarks next b ∧ wb_wf (set_watermarks next b)).
Proof.
  intros Hf Hb [[-> Ew]|(w1 & Ew & Hn & HC)]; [rewrite Ew; split_and!; [by apply fs_frame_refl|done|done|by left]|].
  rewrite <- Ew in Hf. apply commit_frame in HC as (F & Ep & Hc); [|done]. rewrite (wb_clean _ Hb), Ew in F.
  split; [done|]. split; [done|]. destruct res as [[]|e]; rewrite Hc; [by auto|by auto].
Qed.

Lemma zero_version_le v : version_u64 v → version_le zero_version v.
Proof. intros [? ?]. rewrite version_le_eq. cbn. lia. Qed.

Lemma jinv_last_u64 j w : jinv j w → version_u64 (j_last j).
Proof.
  intros (fd & i & x & Hj). destruct (jfile_records _ _ _ _ _ _ Hj) as (Hf & _ & Hr). rewrite (jf_last _ _ _ _ _ _ Hj).
  unfold last_version. destruct (last (j_records j)) as [r|] eqn:El; [|done].
  rewrite Forall_forall in Hr. apply Hr. by apply last_Some_elem_of.
Qed.

(** An acknowledgement or a reconciliation: the book is the only part that
    changes, and it stays within the journal. *)
Lemma on_book_run (reconcile : bool) owned base v s w res s' w' :
  session_inv owned base s w → version_u64 v →
  on_coordinator ((if reconcile then CoordinatorReconcile else CoordinatorAcknowledge) (rs_peerID s) v) (s, w) = (res, (s', w')) →
  session_inv owned base s' w' ∧ same_session s s' ∧ rs_peer s' = rs_peer s ∧ rs_applier s' = rs_applier s ∧
  s_journal s' = s_journal s ∧
  (is_Ok res = true → v ≠ zero_version → session_watermark s' = v ∧ version_le v (j_last (s_journal s))) ∧
  (reconcile = false → version_le (session_watermark s) (session_watermark s')).
Proof.
  intros Hi Hu HC. unfold on_coordinator, zoom in HC. cbn [fst snd] in HC. pose proof Hi as [Hj Ha Hb Hp Hf Hv].
  destruct ((if reconcile then CoordinatorReconcile else CoordinatorAcknowledge) _ _ _) as [r1 [c1 w1]] eqn:EC. injection HC as <- <- <-.
  assert ((c1 = rs_coordinator s ∧ w_fs w1 = w_fs w ∧ is_Ok r1 = false) ∨
    (v = zero_version ∨ version_le v (j_last (s_journal s))) ∧
    ∃ w2 b2 next, w_fs w2 = w_fs w ∧ c1 = mkRepairCoordinator (s_journal s) b2 (rc_limits (rs_coordinator s)) ∧
      book_step (s_book s) w2 next r1 b2 w1 ∧
      (is_Ok r1 = true → reconcile = true ∨ v ≠ zero_version → BookWatermark b2 (rs_peerID s) = v ∧
         (reconcile = false → version_le (session_watermark s) v)) ∧
      (reconcile = false → next = <[rs_peerID s := v]> (wb_watermarks (s_book s)))) as Hc.
  { destruct reconcile; apply coordinator_run in EC as [(Hr & -> & Ew)|(Hle & w2 & b2 & Ew & Hm & ->)]; try (by left); right; split; try done.
    - destruct (Reconcile_run _ _ _ _ _ _ _ Hb Hu Hm) as ((next & Hst) & Hok & _). exists w2, b2, next.
      split_and!; try done. intros Hr _. by split; [apply Hok|].
    - destruct (Acknowledge_run _ _ _ _ _ _ _ Hb Hu Hm) as (Hst & Hok). eexists w2, b2, _.
      split_and!; [done|done|exact Hst| |done]. intros Hr [?|Hz]; [done|]. destruct (Hok Hr) as [_ Hok2]. by destruct (Hok2 Hz). }
  pose proof Hj as (fd & i & x & Hjf).
  destruct Hc as [(-> & Ew & Hr)|(Hle & w2 & b2 & next & Ew & -> & Hst & Hok & Hnext)].
  { split_and!; try done; [|by rewrite Hr].
    eapply session_inv_fs; [exact Ew|]. by split. }
  assert (fs_wf (w_fs w2)) as Hf2 by (rewrite Ew; apply Hjf).
  destruct (book_step_frame _ _ _ _ _ _ Hf2 Hb Hst) as (F & Ep & Hb2 & Hcase). rewrite Ew in F.
  assert (version_le (BookWatermark b2 (rs_peerID s)) (j_last (s_journal s)) ∧
    (reconcile = false → version_le (session_watermark s) (BookWatermark b2 (rs_peerID s)))) as [Hbound Hmono].
  { destruct Hcase as [->|(Hr & E2 & Hn)]; [done|].
    assert (reconcile = true ∨ v ≠ zero_version) as Hz.
    { destruct reconcile; [by left|right]. rewrite Hnext in Hn by done.
      destruct (wb_entries _ Hn (rs_peerID s) v) as (_ & ? & _); [apply lookup_insert_eq|done]. }
    destruct (Hok Hr Hz) as [-> ?]. split; [|done]. destruct Hle as [->|?]; [|done].
    apply zero_version_le. by eapply jinv_last_u64. }
  split_and!; try done.
  - split; cbn [set_parts rs_coordinator rc_journal rc_watermarks rs_applier rs_checkpointPath]; rewrite ?Ep; try done.
    + exists fd, i, x. eapply jfile_frame; [done|exact F|exact Hp].
    + intros a Ea. eapply applier_inv_frame; [by apply Ha|exact F|exact Hp|apply Hf].
  - intros Hr Hz. destruct (Hok Hr (or_intror Hz)) as [E _]. split; [exact E|]. by destruct Hle.
Qed.

(** *** Snapshots *)

Lemma on_ApplySnapshot_run owned base caps c s w res s' w' :
  session_inv owned base s w → version_u64 (Watermark c) → u64_records (CRecords c) →
  on_applier (ApplySnapshot caps c (rs_checkpointPath s)) (s, w) = (res, (s', w')) →
  same_session s s' ∧ rs_peer s' = rs_peer s ∧ s_book s' = s_book s ∧
  (is_Ok res = true → session_inv owned (sort_records (CRecords c)) s' w' ∧ state_holds s' (CRecords c)).
Proof.
  intros Hi Hw Hu HA. unfold on_applier in HA. cbn [fst snd] in HA.
  destruct (rs_applier s) as [a|] eqn:Ea; [|injection HA as <- <- <-; by split_and!].
  destruct (ApplySnapshot caps c _ _) as [res1 [a1 w1]] eqn:EA. injection HA as <- <- <-.
  split_and!; try done; [by split; cbn; rewrite ?Ea|]. intros Hok. destruct res1 as [[]|]; [|done].
  pose proof (ApplySnapshot_run _ _ _ _ _ _ _ _ _ _ (si_applier _ _ _ _ Hi a Ea) (proj2 (si_foreign _ _ _ _ Hi)) Hw Hu EA)
    as (_ & Hi1 & Hle & _ & Ela & Ep & Hrec & _). cbn [set_journal a_journal] in *. split.
  - eapply session_inv_applier; [done|done| |done]. by rewrite Ela.
  - exists a1. split; [done|]. apply Forall_forall. intros r Hr. exists r. split; [|done].
    apply Hrec. by rewrite sort_records_Permutation.
Qed.

(** *** Frames *)

(** What has left the node: nothing, or the acknowledgement of the watermark
    the book now holds, written when everything before it was done. *)
Definition acknowledged (owned : bytes → Prop) (s s' : RepairSession P S) (w' : world) : Prop :=
  ∃ base' ack, session_inv owned base' s' w' ∧ ack_of s (session_watermark s') = Ok ack ∧
    peer_sent (rs_peer s') = peer_sent (rs_peer s) ++ [ack].

(** The outcome of receiving records [rs] up to [to]. *)
Definition received (owned : bytes → Prop) (rs : list record) (to : Version) (res : result unit)
    (s s' : RepairSession P S) (w' : world) : Prop :=
  same_session s s' ∧
  (is_Ok res = true → acknowledged owned s s' w') ∧
  (peer_sent (rs_peer s') = peer_sent (rs_peer s) ∨
   acknowledged owned s s' w' ∧
   (version_lt (session_watermark s) to → session_watermark s' = to ∧ state_holds s' rs) ∧
   (version_le to (session_watermark s) → rs_applier s' = rs_applier s ∧ rs_coordinator s' = rs_coordinator s)).

Lemma received_silent owned rs to e s s' w' :
  same_session s s' → rs_peer s' = rs_peer s → received owned rs to (Err e) s s' w'.
Proof. intros Hs Ep. split_and!; [done|done|]. left. by rewrite Ep. Qed.

Lemma received_ack owned base rs to v s s1 w1 res s' w' :
  session_inv owned base s1 w1 → same_session s s1 → rs_peer s1 = rs_peer s → session_watermark s1 = v →
  (version_lt (session_watermark s) to → v = to ∧ state_holds s1 rs) →
  (version_le to (session_watermark s) → rs_applier s1 = rs_applier s ∧ rs_coordinator s1 = rs_coordinator s) →
  writeAck v (s1, w1) = (res, (s', w')) → received owned rs to res s s' w'.
Proof.
  intros Hi Hsame Ep Ev Hto Hdup HW. destruct (writeAck_run _ _ _ _ _ _ _ _ Hi HW) as (Hi' & Hs' & Ewm & Ea & Ec & Hsent).
  rewrite Ep in Hsent. split; [by etrans|].
  assert (∀ ack, ack_of s1 v = Ok ack → peer_sent (rs_peer s') = peer_sent (rs_peer s) ++ [ack] → acknowledged owned s s' w') as Hack.
  { intros ack Hack Hp. exists base, ack. split_and!; [done| |done]. unfold ack_of in *. rewrite Ewm, Ev.
    by rewrite (ss_limits _ _ Hsame) in Hack. }
  split.
  - intros Hr. destruct Hsent as [[Hr' _]|(ack & Hok & Hp)]; [congruence|by eapply Hack].
  - destruct Hsent as [[_ ?]|(ack & Hok & Hp)]; [by left|right]. split_and!; [by eapply Hack|..].
    + intros Hlt. destruct (Hto Hlt) as [-> (a & Ha & Hf)]. split; [congruence|]. exists a. by rewrite Ea.
    + intros Hle. by rewrite Ea, Ec; apply Hdup.
Qed.

Lemma handleBatch_run owned base b s w res s' w' :
  session_inv owned base s w → batch_u64 b → handleBatch b (s, w) = (res, (s', w')) →
  received owned (BRecords b) (BTo b) res s s' w'.
Proof.
  intros Hi (Hf & Ht & Hu) HB. unfold handleBatch in HB. step_Ok HB. cbn [fst] in HB.
  case_bool_decide as Hn; [stop HB; by apply received_silent|].
  step HB as delivery [s1 w1] E1; injection E1 as Ed <- <-; [|by apply received_silent].
  unfold Delivery in Ed. cbv zeta in Ed. apply rbind_unit in Ed as [Hg Ed]. apply validateRepairBatch_Ok in Hg.
  destruct (_ <=? 0) eqn:Ele in Ed.
  - injection Ed as <-. eapply received_ack; [done|done|done|done| |done|exact HB].
    intros Hlt. exfalso. bool_to_prop. revert Ele. apply Z.lt_nge. by apply Compare_gt.
  - apply guard_Ok in Ed as [Efrom [= <-]]. apply negb_false_iff, bool_decide_eq_true in Efrom.
    assert (BTo b ≠ zero_version) as Hz.
    { intros Ez. bool_to_prop. apply Compare_gt in Ele. apply version_nle in Ele. apply Ele. rewrite Ez.
      apply zero_version_le. by rewrite <- Efrom. }
    assert (state_holds s []) as Hs0.
    { destruct (rs_applier s) as [a|] eqn:Ea; [|done]. exists a. split; [done|apply Forall_nil_2]. }
    step HB as [] [s1 w1] E1; destruct (apply_records_run _ _ _ _ _ _ _ _ _ _ Hi Hu Hs0 E1) as (Hsame & Ep & Eb & Hok);
      [|by apply received_silent].
    destruct (Hok eq_refl) as [Hi1 Hs1].
    step HB as [] [s2 w2] E2; rewrite <- (ss_id _ _ Hsame) in E2;
      destruct (on_book_run false _ _ _ _ _ _ _ _ Hi1 Ht E2) as (Hi2 & Hsame2 & Ep2 & Ea2 & _ & Hwm & _).
    2:{ apply received_silent; [by etrans|congruence]. }
    destruct (Hwm eq_refl Hz) as [Ewm _].
    eapply received_ack; [exact Hi2|by etrans|congruence|exact Ewm| | |exact HB].
    + intros _. split; [done|]. destruct Hs1 as (a & Ha & Hfa). exists a. by rewrite Ea2.
    + intros Hle. exfalso. bool_to_prop. apply Compare_gt, version_nle in Ele. done.
Qed.

Lemma handleSnapshot_run owned base n s w res s' w' :
  session_inv owned base s w → snapshot_u64 n → handleSnapshot n (s, w) = (res, (s', w')) →
  received owned (NRecords n) (NWatermark n) res s s' w'.
Proof.
  intros Hi (Hw & Hu) HB. unfold handleSnapshot in HB. step_Ok HB. cbn [fst] in HB.
  case_bool_decide as Hn; [stop HB; by apply received_silent|].
  destruct (_ <=? 0) eqn:Ele in HB.
  - eapply received_ack; [done|done|done|done| |done|exact HB].
    intros Hlt. exfalso. bool_to_prop. revert Ele. apply Z.lt_nge. by apply Compare_gt.
  - assert (NWatermark n ≠ zero_version) as Hz.
    { intros Ez. bool_to_prop. apply Compare_gt in Ele. rewrite Ez in Ele.
      assert (version_u64 (session_watermark s)) as Hu0.
      { unfold session_watermark, BookWatermark. destruct (wb_watermarks (s_book s) !! rs_peerID s) as [v|] eqn:Ev; [|done].
        by destruct (wb_entries _ (si_book _ _ _ _ Hi) _ _ Ev) as (_ & _ & ?). }
      apply version_nle in Ele. apply Ele. by apply zero_version_le. }
    step HB as [] [s1 w1] E1;
      destruct (on_ApplySnapshot_run _ _ _ (mkCheckpoint (NWatermark n) (NRecords n)) _ _ _ _ _ Hi Hw Hu E1) as (Hsame & Ep & Eb & Hok);
      [|by apply received_silent].
    destruct (Hok eq_refl) as [Hi1 Hs1].
    step HB as [] [s2 w2] E2; rewrite <- (ss_id _ _ Hsame) in E2;
      destruct (on_book_run false _ _ _ _ _ _ _ _ Hi1 Hw E2) as (Hi2 & Hsame2 & Ep2 & Ea2 & _ & Hwm & _).
    2:{ apply received_silent; [by etrans|congruence]. }
    destruct (Hwm eq_refl Hz) as [Ewm _].
    eapply received_ack; [exact Hi2|by etrans|congruence|exact Ewm| | |exact HB].
    + intros _. split; [done|]. destruct Hs1 as (a & Ha & Hfa). exists a. by rewrite Ea2.
    + intros Hle. exfalso. bool_to_prop. apply Compare_gt, version_nle in Ele. done.
Qed.

Definition frame_records (f : RepairFrame) : list record :=
  match FBatch f, FSnapshot f with Some b, _ => BRecords b | None, Some n => NRecords n | None, None => [] end.
Definition frame_to (f : RepairFrame) : Version :=
  match FBatch f, FSnapshot f with Some b, _ => BTo b | None, Some n => NWatermark n | None, None => zero_version end.

(** Channel tokens are no part of the invariant. *)
Lemma session_inv_channels owned base x y z s w :
  session_inv owned base s w → session_inv owned base (set_channels x y z s) w.
Proof. intros []. by split. Qed.

(** The acknowledgement branch of [Handle]. *)
Lemma handle_ack_run owned base ack s w res s' w' :
  session_inv owned base s w → version_u64 (KWatermark ack) →
  (startup <- (if rs_reconcilePeer s then acceptStartupWatermark else ret false) ;
   if startup then
     if negb (IsZero (LastVersion (s_journal s)))
     then on_coordinator (CoordinatorReconcile (rs_peerID s) (KWatermark ack))
     else ret tt
   else
     on_coordinator (CoordinatorAcknowledge (rs_peerID s) (KWatermark ack)) ;;
     notifyAck) (s, w) = (res, (s', w')) →
  session_inv owned base s' w' ∧ same_session s s' ∧ rs_peer s' = rs_peer s ∧
  (rs_reconcilePeer s = false ∨ rs_helloReceived s = true → version_le (session_watermark s) (session_watermark s')).
Proof.
  intros Hi Hu HH.
  assert (∃ startup s1, (if rs_reconcilePeer s then acceptStartupWatermark else ret false) (s, w) = (Ok startup, (s1, w)) ∧
    (startup = false ∧ s1 = s ∨
     startup = true ∧ rs_reconcilePeer s = true ∧ rs_helloReceived s = false ∧ s1 = set_channels (rs_ackNotify s) true true s))
    as (startup & s1 & E1 & Hs1).
  { unfold acceptStartupWatermark. destruct (rs_reconcilePeer s) eqn:Er; [|eexists _, _; split; [done|by left]].
    erewrite bind_step_Ok by reflexivity. cbn [fst]. destruct (rs_helloReceived s) eqn:Eh; [eexists _, _; split; [done|by left]|].
    erewrite bind_step_Ok by reflexivity. eexists _, _. split; [done|]. by right. }
  rewrite (bind_step_Ok _ _ _ _ _ E1) in HH. destruct Hs1 as [[-> ->]|(-> & Er & Eh & ->)].
  - step HH as [] [s2 w2] E2; destruct (on_book_run false _ _ _ _ _ _ _ _ Hi Hu E2) as (Hi2 & Hsame & Ep & _ & _ & _ & Hm).
    + injection HH as <- <- <-. split; [by apply session_inv_channels|]. split; [|split; [done|intros _; by apply Hm]].
      destruct Hsame. by split.
    + split_and!; try done. intros _. by apply Hm.
  - pose proof (session_inv_channels _ _ (rs_ackNotify s) true true _ _ Hi) as Hi1.
    destruct (negb _).
    + destruct (on_book_run true _ _ _ _ _ _ _ _ Hi1 Hu HH) as (Hi2 & [? ? ? ? ?] & Ep & _).
      split; [done|]. split; [by split|]. split; [done|]. intros [?|?]; congruence.
    + stop HH. split; [done|]. split; [by split|]. split; [done|]. intros _. done.
Qed.
End session_facts.

(** ** Plans *)

Section plans.
Context `{UnicodePrint} {P S : Type} `{RepairFramePeer P} `{BlobStore S}.
Implicit Types s : RepairSession P S.

Lemma PlanRepair_Ok from snapshot l j w plan j' w' :
  PlanRepair from snapshot l (j, w) = (Ok plan, (j', w')) →
  j' = j ∧ PFrom plan = from ∧
  match PMode plan with
  | RepairPlanSnapshot => version_lt from (j_floor j) ∧ PTo plan = j_floor j ∧ PMore plan = false
  | RepairPlanJournal => ∀ v, increasing v (j_records j) → PMore plan = false → after (PTo plan) (j_records j) = []
  end.
Proof.
  intros HP. unfold PlanRepair in HP. step HP as [] [j1 w1] E1; apply io_eq in E1 as [-> E1]. step_Ok HP. cbn [fst] in HP.
  unfold Floor in HP. destruct (_ <? 0) eqn:Elt in HP.
  - destruct snapshot as [c|]; [|stop HP]. case_bool_decide; cbn [negb] in HP; [|stop HP].
    step HP as payload [j2 w2] E2. injection E2 as _ <- <-. stop HP. cbn. bool_to_prop. done.
  - step HP as b [j2 w2] E2. unfold Journal_RepairBatch in E2. step E2 as [] [j3 w3] E3. apply io_eq in E3 as [-> E3].
    step_Ok E2. cbn [fst] in E2. step E2 as fd [j4 w4] E4. injection E4 as _ <- <-.
    destruct (_ <? 0) in E2; [stop E2|]. injection E2 as Eb <- <-.
    step HP as payload [j5 w5] E5. injection E5 as _ <- <-. stop HP. cbn [PMode PFrom PTo PMore].
    assert (clone <$> j_records j = j_records j) as Ecl.
    { rewrite <- list_fmap_id. apply list_fmap_ext. intros ? ? ?. apply clone_id. }
    rewrite Ecl in Eb. apply batch_of_Ok in Eb as (rest & Eaf & _ & Efr & Eto & Em & _). split_and!; [done|done|].
    intros v Hinc Hm. rewrite Em in Hm. apply bool_decide_eq_false in Hm. rewrite Eto.
    rewrite (after_app v from _ (BRecords b) rest Hinc Eaf). destruct rest; [done|]. by destruct Hm.
Qed.

Lemma SendNext_Ok s w plan s' w' :
  SendNext (s, w) = (Ok plan, (s', w')) →
  rs_coordinator s' = rs_coordinator s ∧ rs_peerID s' = rs_peerID s ∧ PFrom plan = session_watermark s ∧
  match PMode plan with
  | RepairPlanSnapshot => PTo plan = j_floor (rc_journal (rs_coordinator s)) ∧ PMore plan = false
  | RepairPlanJournal => ∀ v, increasing v (j_records (rc_journal (rs_coordinator s))) → PMore plan = false →
      after (PTo plan) (j_records (rc_journal (rs_coordinator s))) = []
  end.
Proof.
  intros HS. unfold SendNext in HS. step HS as [] [s1 w1] E1; apply io_eq in E1 as [-> E1]. step_Ok HS. cbn [fst] in HS.
  step HS as [] [s2 w2] E2. injection E2 as _ <- <-. step HS as plan1 [s3 w3] E3.
  unfold on_coordinator, zoom in E3. cbn [fst snd] in E3.
  destruct (CoordinatorPlan _ _ _) as [r4 [c4 w4]] eqn:E4. injection E3 as -> <- <-.
  unfold CoordinatorPlan in E4. step E4 as [] [c5 w5] E5. apply io_eq in E5 as [-> _]. step_Ok E4. cbn [fst] in E4.
  step E4 as [] [c6 w6] E6. injection E6 as _ <- <-. unfold on_journal, zoom in E4. cbn [fst snd] in E4.
  destruct (PlanRepair _ _ _ _) as [r7 [j7 w7]] eqn:E7. injection E4 as -> <- <-.
  apply PlanRepair_Ok in E7 as (-> & Efrom & Hmode).
  destruct (_ <? len _) in HS; [stop HS|]. step HS as [] [s8 w8] E8. stop HS.
  unfold on_peer, zoom in E8. cbn [fst snd] in E8.
  destruct (WriteFrame _ _ _) as [r9 [p9 w9]]. injection E8 as _ <- <-.
  cbn [set_parts rs_coordinator rs_peerID rs_peer rs_applier]. split_and!; [by destruct (rs_coordinator s)|done|done|].
  destruct (PMode plan1); [done|]. by destruct Hmode as (_ & ? & ?).
Qed.
End plans.

(** ** Properties *)


(** [Run] returns without error only when the peer has acknowledged the
    plan it made last.  In every interleaving of [Run] with incoming frames, a
    step that returns nil follows a plan that announced no more frames, and the
    durable watermark of the peer has reached the end of that plan; when the
    plan was taken from the journal, every record the journal held then is at or
    below that watermark. *)
Theorem Run_returns_acknowledged `{UnicodePrint} {P S : Type} `{RepairFramePeer P} `{BlobStore S}
    (before : option (M (RepairSession P S * world) unit)) sw0 pc sw s' w'
    (Hreach : rtc (session_step before) (RunStart, sw0) (pc, sw))
    (Hstep : run_step before pc sw (RunDone (Ok tt)) (s', w')) :
  ∃ sw1 plan sw2,
    rtc (session_step before) (RunStart, sw0) (RunPlan, sw1) ∧ SendNext sw1 = (Ok plan, sw2) ∧
    PMore plan = false ∧ version_le (PTo plan) (session_watermark s') ∧
    (PMode plan = RepairPlanJournal → jinv (rc_journal (rs_coordinator sw1.1)) sw1.2 →
     Forall (λ r, version_le (RVersion r) (PTo plan)) (j_records (rc_journal (rs_coordinator sw1.1)))).
Proof.
  assert (∀ c, rtc (session_step before) (RunStart, sw0) c → ∀ plan, c.1 = RunWait plan →
    ∃ sw1 sw2, rtc (session_step before) (RunStart, sw0) (RunPlan, sw1) ∧ SendNext sw1 = (Ok plan, sw2)) as Hinv.
  { refine (rtc_ind_r _ _ _ _); [done|]. intros c1 c2 Hc Hs IH plan Epc.
    destruct Hs as [pc1 sw1 pc2 sw2 Hr|pc1 sw1 payload r sw2 Hh]; [|by apply IH].
    cbn in Epc. subst pc2. inversion Hr; subst; try (by eauto); try (by unfold failed_at in *; repeat case_match).
    - rename select (run_sent _ = _) into Hse. unfold run_sent, run_next in Hse. repeat case_match; simplify_eq. eauto.
    - rename select (run_next _ = _) into Hse. unfold run_next in Hse. by case_match. }
  assert (∀ (sw1 : RepairSession P S * world) plan sw2, SendNext sw1 = (Ok plan, sw2) → PMore plan = false → PMode plan = RepairPlanJournal →
    jinv (rc_journal (rs_coordinator sw1.1)) sw1.2 →
    Forall (λ r, version_le (RVersion r) (PTo plan)) (j_records (rc_journal (rs_coordinator sw1.1)))) as Hall.
  { intros [s1 w1] plan [s2 w2] HS Hm Hmode (fd & i & x & Hj). apply SendNext_Ok in HS as (_ & _ & _ & Hp). rewrite Hmode in Hp.
    destruct (jfile_records _ _ _ _ _ _ Hj) as (_ & Hinc & _). specialize (Hp _ Hinc Hm).
    apply Forall_forall. intros r Hr. apply version_nlt. intros Hlt. apply Compare_gt in Hlt.
    assert (r ∈ after (PTo plan) (j_records (rc_journal (rs_coordinator s1)))) as Hin by by apply list_elem_of_filter.
    rewrite Hp in Hin. by apply elem_of_nil in Hin. }
  inversion Hstep as [| | | | | |callback sw3 r sw4 Hb Hc Epc Esw Ef|sw3 plan sw4 HS Epc Esw Es| |s3 w3 plan Hle Epc Esw En| | ]; subst.
  - rename select (failed_at _ _ = _) into Hf. unfold failed_at in Hf. by repeat case_match.
  - rename select (failed_at _ _ = _) into Hf. unfold failed_at in Hf. by repeat case_match.
  - unfold run_sent, run_next in Es. destruct (0 <? _) eqn:E0; [done|]. destruct (PMore plan) eqn:Em; [done|].
    exists sw, plan, (s', w'). split_and!; [done|done|done| |by eapply Hall]. destruct sw as [s1 w1].
    apply SendNext_Ok in HS as (Ec & Eid & Efr & _). unfold session_watermark in *. rewrite Ec, Eid, <- Efr.
    bool_to_prop. done.
  - unfold run_next in En. destruct (PMore plan) eqn:Em; [done|].
    destruct (Hinv _ Hreach plan eq_refl) as (sw1 & sw2 & Hr & HS). exists sw1, plan, sw2.
    split_and!; [done|done|done| |by eapply Hall]. apply version_nlt. unfold version_lt. lia.
Qed.

(** *** Concrete runs *)

#[local] Existing Instance ascii_print.

(** A peer that takes every frame. *)
Record script_peer := mkScriptPeer { sp_caps : list bytes; sp_sent : list bytes }.
#[export] Instance script_FramePeer : RepairFramePeer script_peer := {|
  AuthCapabilities := sp_caps;
  WriteFrame payload _ := λ pw, (Ok tt, (mkScriptPeer (sp_caps pw.1) (sp_sent pw.1 ++ [payload]), pw.2))
|}.
#[export] Instance script_FramePeerSpec : FramePeerSpec script_peer.
Proof. refine {| peer_sent := sp_sent |}. intros payload max p w r p' w' [= <- <- <-]. split_and!; [done|done|by left]. Defined.

Definition ex_limits_repair : RepairLimits := repair_normalized (mkRepairLimits 0 0 0 0 zero_limits).
Definition ex_session (j : Journal) (snapshot : option Checkpoint) : RepairSession script_peer (MemoryStore (gset bytes)) :=
  mkRepairSession (mkScriptPeer [LifecycleCapabilityV1] []) (mkRepairCoordinator j ex_book ex_limits_repair)
    (Some ex_applier) (lit "node-b") snapshot (lit "state/checkpoint") 65536 false false false false.

Lemma ex_session_inv : session_inv (λ _, False) [] (ex_session ex_opened.1 None) ex_opened.2.
Proof.
  split.
  - exact ex_opened_jinv.
  - intros ? [= <-]. exact ex_applier_inv.
  - exact ex_book_wf.
  - vm_compute. discriminate.
  - split; intros [].
  - vm_compute. discriminate.
Qed.

Definition payload_of (r : result bytes) : bytes := match r with Ok p => p | Err _ => [] end.
Definition ex_batch_payload : bytes :=
  payload_of (EncodeRepairBatch (mkRepairBatch [] zero_version (mkVersion 1 1) false [ex_deleted 98 1]) ex_limits_repair).
#[local] Abbreviation ex_handled := (Handle ex_batch_payload (ex_session ex_opened.1 None, ex_opened.2)).


(** One record to deliver: [Run] sends it, [Handle] takes the acknowledgement,
    and [Run] returns. *)
Definition zero_plan : RepairPlan := mkRepairPlan RepairPlanJournal zero_version zero_version false [].
Definition plan_of (r : result RepairPlan) : RepairPlan := match r with Ok p => p | Err _ => zero_plan end.
Definition ex_ack_payload (v : Version) : bytes := payload_of (EncodeRepairAck (mkRepairAck RepairAckMessageType v) ex_limits_repair).

#[local] Abbreviation ex_start := (ex_session ex_appended.1 None, ex_appended.2).
#[local] Abbreviation ex_sent := (SendNext ex_start).
#[local] Abbreviation ex_plan := (plan_of ex_sent.1).
#[local] Abbreviation ex_acked_session := (Handle (ex_ack_payload (mkVersion 1 1)) ex_sent.2).

Lemma ex_sent_eq : ex_sent = (Ok ex_plan, ex_sent.2).
Proof. apply run_eq. vm_compute. reflexivity. Qed.
Lemma ex_plan_wait : run_sent ex_plan = RunWait ex_plan.
Proof. vm_compute. reflexivity. Qed.

Lemma ex_run_reaches (before := None) :
  rtc (session_step before) (RunStart, ex_start) (RunWait ex_plan, ex_acked_session.2).
Proof.
  eapply rtc_l; [apply session_run, run_no_hello; reflexivity|].
  eapply rtc_l; [apply session_run, run_no_callback; reflexivity|].
  eapply rtc_l; [apply session_run; apply (run_plan _ _ _ _ ex_sent_eq)|]. rewrite ex_plan_wait.
  eapply rtc_l; [apply session_handle with (payload := ex_ack_payload (mkVersion 1 1)) (r := ex_acked_session.1)|apply rtc_refl].
  apply surjective_pairing.
Qed.

Lemma Run_returns_acknowledged_witness :
  run_step None (RunWait ex_plan) ex_acked_session.2 (RunDone (Ok tt)) ex_acked_session.2 ∧
  session_watermark ex_acked_session.2.1 = mkVersion 1 1 ∧
  ∃ plan, PMore plan = false ∧ version_le (PTo plan) (session_watermark ex_acked_session.2.1).
Proof.
  assert (run_step None (RunWait ex_plan) ex_acked_session.2 (RunDone (Ok tt)) (ex_acked_session.2.1, ex_acked_session.2.2)) as Hs.
  { assert (RunDone (Ok tt) = run_next ex_plan) as -> by (vm_compute; reflexivity).
    rewrite (surjective_pairing ex_acked_session.2) at 1. apply run_acknowledged. vm_compute. discriminate. }
  destruct (Run_returns_acknowledged None ex_start (RunWait ex_plan) ex_acked_session.2 ex_acked_session.2.1 ex_acked_session.2.2
    ex_run_reaches Hs) as (_ & plan & _ & _ & _ & Hm & Hle & _).
  split; [rewrite (surjective_pairing ex_acked_session.2) at 2; exact Hs|].
  split; [vm_compute; reflexivity|]. exists plan. split; [exact Hm|exact Hle].
Defined.

(** A journal whose first record has been compacted away, with one record above
    the checkpoint. *)
#[local] Abbreviation ex_tailed := (Append (ex_deleted 97 2) (Compact ex_request ex_appended).2).2.
#[local] Abbreviation ex_behind :=
  (ex_session ex_tailed.1 (Some (mkCheckpoint (mkVersion 1 1) [ex_deleted 98 1])), ex_tailed.2).
#[local] Abbreviation ex_bootstrap := (SendNext ex_behind).
#[local] Abbreviation ex_bootstrapped := (Handle (ex_ack_payload (mkVersion 1 1)) ex_bootstrap.2).

(** After a snapshot [Run] stops before the journal's tail.  For a peer that
    is behind the floor [SendNext] plans a snapshot and reports that no more
    frames follow; once the peer has acknowledged it, [Run] returns nil although
    the journal holds a record above the snapshot that has never been sent. *)
Theorem snapshot_repair_skips_tail :
  let plan := plan_of ex_bootstrap.1 in
  ex_bootstrap.1 = Ok plan ∧ PMode plan = RepairPlanSnapshot ∧ run_sent plan = RunWait plan ∧
  ex_bootstrapped.1 = Ok tt ∧
  run_step None (RunWait plan) ex_bootstrapped.2 (RunDone (Ok tt)) ex_bootstrapped.2 ∧
  session_watermark ex_bootstrapped.2.1 = mkVersion 1 1 ∧
  j_records (rc_journal (rs_coordinator ex_bootstrapped.2.1)) = [ex_deleted 97 2] ∧
  length (peer_sent (rs_peer ex_bootstrapped.2.1)) = 1%nat.
Proof.
  cbv zeta. split; [vm_compute; reflexivity|]. split; [vm_compute; reflexivity|]. split; [vm_compute; reflexivity|].
  split; [vm_compute; reflexivity|]. split; [|split; [vm_compute; reflexivity|split; vm_compute; reflexivity]].
  assert (RunDone (Ok tt) = run_next (plan_of ex_bootstrap.1)) as -> by (vm_compute; reflexivity).
  rewrite (surjective_pairing ex_bootstrapped.2). apply run_acknowledged. vm_compute. discriminate.
Qed.
