(* ===== verification/Runtime.v ===== *)
(** * The lifecycle runtime of a node

    lifecycle_cli.go: the components of internal/lifecycle put together.
    [openLifecycleRuntime] opens the journal, the authority, the two books and
    the checkpoint of a directory and replays them; [put] and [delete] allocate
    a version and apply a local mutation; [compact] turns the state into a
    checkpoint once every member has caught up.

    The applier, the coordinator and the runtime share one journal, one store
    and one watermark book: the model keeps the journal and the store in the
    applier and the book in the runtime.  A runtime is built by
    [openLifecycleRuntime] only, so none of its fields is nil; the nil receiver
    of the status methods is [None].  Error texts that carry no sentinel are
    [ErrText], and [fmt.Errorf] with a wrapped error is [EWrap]. *)
From S2P Require Import Prelude Go Bits Text Json Os Paths Model Codec Journal Compact Transport Repair StateFile Watermark Authority Membership Blobs Applier Session.

(** ** Configuration *)

Record lifecycleCLIConfig := mkCLIConfig {
  lc_enabled : bool;
  lc_dir : bytes;
  lc_membershipConfigured : bool;
  lc_membershipMembers : list bytes;
  lc_repairLimits : RepairLimits;
  lc_recordLimits : Limits;
  lc_journalLimits : JournalOptions
}.

Definition config_validate {S} (c : lifecycleCLIConfig) (blobStore : option S) (peerAuthToken peerID : bytes) : result unit :=
  if negb (lc_enabled c) then
    if negb (bool_decide (lc_dir c = [])) then Err (ErrText (lit "lifecycle: -lifecycle-dir requires -lifecycle"))
    else if lc_membershipConfigured c then Err (ErrText (lit "lifecycle: -lifecycle-members requires -lifecycle"))
    else Ok tt
  else match blobStore with
       | None => Err (ErrText (lit "lifecycle: -lifecycle requires -replicate"))
       | Some _ =>
           if bool_decide (lc_dir c = []) then Err (ErrText (lit "lifecycle: -lifecycle-dir is required with -lifecycle"))
           else if bool_decide (peerAuthToken = []) then Err (ErrText (lit "lifecycle: -lifecycle requires -peer-auth-token"))
           else if bool_decide (peerID = []) then Err (ErrText (lit "lifecycle: -lifecycle requires -peer-id"))
           else if (MaxRecords (lc_repairLimits c) <? 0) || (RMaxLogicalKeyBytes (lc_repairLimits c) <? 0) ||
                   (MaxMetadataBytes (lc_repairLimits c) <? 0) || (MaxFrameBytes (lc_repairLimits c) <? 0)
           then Err (ErrText (lit "lifecycle: repair limits must be zero or greater"))
           else Ok tt
       end.

(** ** The runtime *)

(** [lifecycleRuntimeMetrics]: counters and one gauge. *)
Inductive runtime_metric :=
  | SessionsStarted | SessionsCompleted | SessionErrors | SessionsActive | FramesReceived | FrameErrors
  | MutationsStarted | MutationsApplied | MutationErrors.
#[export] Instance runtime_metric_eq_dec : EqDecision runtime_metric.
Proof. solve_decision. Defined.
(** An [atomic.Uint64] wraps; the gauge is an [atomic.Int64]. *)
Definition runtimeMetrics := runtime_metric → Z.
Definition runtime_wrap (m : runtime_metric) (z : Z) : Z :=
  if bool_decide (m = SessionsActive) then (z + 2 ^ 63) mod 2 ^ 64 - 2 ^ 63 else z mod 2 ^ 64.
Definition runtime_set (m : runtime_metric) (v : Z) (ms : runtimeMetrics) : runtimeMetrics :=
  λ k, if bool_decide (k = m) then v else ms k.
Definition runtime_add (m : runtime_metric) (n : Z) (ms : runtimeMetrics) : runtimeMetrics :=
  runtime_set m (runtime_wrap m (ms m + n)) ms.

(** [lr_repairLimits] are the coordinator's, normalized by its constructor. *)
Record lifecycleRuntime (S : Type) := mkRuntime {
  lr_checkpointPath : bytes;
  lr_repairLimits : RepairLimits;
  lr_authority : Authority;
  lr_watermarks : WatermarkBook;
  lr_membership : MembershipBook;
  lr_applier : Applier S;
  lr_snapshot : option Checkpoint;
  lr_metrics : runtimeMetrics
}.
(** Which of the pointers of a [lifecycleRuntime] are set. *)
Record runtime_parts := mkParts {
  pt_journal : bool; pt_authority : bool; pt_watermarks : bool; pt_membership : bool; pt_coordinator : bool; pt_state : bool; pt_applier : bool
}.
(** [openLifecycleRuntime] sets them all. *)
Definition opened_parts : runtime_parts := mkParts true true true true true true true.
Arguments mkRuntime {S} _ _ _ _ _ _ _ _.
Arguments lr_checkpointPath {S} _.
Arguments lr_repairLimits {S} _.
Arguments lr_authority {S} _.
Arguments lr_watermarks {S} _.
Arguments lr_membership {S} _.
Arguments lr_applier {S} _.
Arguments lr_snapshot {S} _.
Arguments lr_metrics {S} _.

Definition lr_journal {S} (r : lifecycleRuntime S) : Journal := a_journal (lr_applier r).
Definition lr_state {S} (r : lifecycleRuntime S) : Store := a_state (lr_applier r).

Section runtime.
Context `{UnicodePrint} {S : Type} `{BlobStore S}.

(** Run a method of a field. *)
Definition set_authority (a : Authority) (r : lifecycleRuntime S) : lifecycleRuntime S :=
  mkRuntime (lr_checkpointPath r) (lr_repairLimits r) a (lr_watermarks r) (lr_membership r) (lr_applier r) (lr_snapshot r) (lr_metrics r).
Definition set_applier (a : Applier S) (r : lifecycleRuntime S) : lifecycleRuntime S :=
  mkRuntime (lr_checkpointPath r) (lr_repairLimits r) (lr_authority r) (lr_watermarks r) (lr_membership r) a (lr_snapshot r) (lr_metrics r).
Definition set_snapshot (c : option Checkpoint) (r : lifecycleRuntime S) : lifecycleRuntime S :=
  mkRuntime (lr_checkpointPath r) (lr_repairLimits r) (lr_authority r) (lr_watermarks r) (lr_membership r) (lr_applier r) c (lr_metrics r).
Definition set_metrics (ms : runtimeMetrics) (r : lifecycleRuntime S) : lifecycleRuntime S :=
  mkRuntime (lr_checkpointPath r) (lr_repairLimits r) (lr_authority r) (lr_watermarks r) (lr_membership r) (lr_applier r) (lr_snapshot r) ms.

Definition on_authority {A} (m : M (Authority * world) A) : M (lifecycleRuntime S * world) A :=
  zoom (λ s, (lr_authority s.1, s.2)) (λ t s, (set_authority t.1 s.1, t.2)) m.
Definition in_applier {A} (m : M (Applier S * world) A) : M (lifecycleRuntime S * world) A :=
  zoom (λ s, (lr_applier s.1, s.2)) (λ t s, (set_applier t.1 s.1, t.2)) m.
Definition count_metric (m : runtime_metric) : M (lifecycleRuntime S * world) unit :=
  update (λ r, set_metrics (runtime_add m 1 (lr_metrics r)) r).

(** ** Opening *)

(** [fmt.Errorf] with the error wrapped. *)
Definition wrap {T A} (m : M T A) : M T A :=
  attempt m (λ r, match r with Ok a => ret a | Err e => throw (EWrap e) end).

(** A method of the store that the runtime is opened over. *)
Definition of_store {A} (m : M (S * world) A) : M (option S * world) A := λ sw,
  match sw.1 with
  | None => (Err ErrNilApplierBlobStore, sw)
  | Some s => let '(r, (s', w')) := m (s, sw.2) in (r, (Some s', w'))
  end.

Fixpoint verifyLifecycleRecords (rs : list record) : M (S * world) unit :=
  match rs with
  | [] => ret tt
  | r :: rs' =>
      io ctx_Err ;;
      if negb (bool_decide (State r = StatePresent)) then verifyLifecycleRecords rs'
      else
        attempt (bs_Get (BlobKey r)) (λ got,
          match got with
          | Err e => if errors_Is e storage_ErrNotFound then throw (EJoin ErrLifecycleBlobMissing e) else throw e
          | Ok data => lift (VerifySHA256Key (BlobKey r) data) ;; verifyLifecycleRecords rs'
          end)
  end.

(** The callback of [Replay]. *)
Definition restore_record (r : record) : M ((Store * option S) * world) unit :=
  zoom (λ s, (s.1.2, s.2)) (λ t s, ((s.1.1, t.1), t.2)) (of_store (verifyLifecycleRecords [r])) ;;
  zoom (λ s, s.1.1) (λ t s, ((t, s.1.2), s.2)) (Apply r) ;;
  ret tt.
Definition replay_journal (journal : Journal) (state : Store) : M (option S * world) Store := λ sw,
  let '(r, (_, ((state', s'), w'))) := Replay (Some restore_record) (journal, ((state, sw.1), sw.2)) in
  (match r with Ok _ => Ok state' | Err e => Err (EWrap e) end, (s', w')).

(** The checkpoint, if there is one, and the journal behind it. *)
Definition restoreState (checkpointPath : bytes) (l : Limits) (journal : Journal)
    : M (option S * world) (Store * option Checkpoint) :=
  attempt (io (LoadCheckpoint checkpointPath l)) (λ loaded,
    match loaded with
    | Err e =>
        if negb (errors_Is e ErrNotExist) then throw (EWrap e)
        else if negb (IsZero (Floor journal)) then throw (ErrText (lit "lifecycle: journal floor requires a checkpoint"))
        else state <- replay_journal journal (NewStore l) ; ret (state, None)
    | Ok checkpoint =>
        if negb (bool_decide (Watermark checkpoint = Floor journal))
        then throw (ErrText (lit "lifecycle: checkpoint watermark does not match journal floor"))
        else
          wrap (of_store (verifyLifecycleRecords (CRecords checkpoint))) ;;
          match ReplaceSnapshot (CRecords checkpoint) (NewStore l) with
          | (Err e, _) => throw (EWrap e)
          | (Ok _, state) => state <- replay_journal journal state ; ret (state, Some checkpoint)
          end
    end).

Definition journalName : bytes := lit "journal".
Definition authorityName : bytes := lit "authority".
Definition watermarksName : bytes := lit "watermarks".
Definition membershipName : bytes := lit "membership".
Definition checkpointName : bytes := lit "checkpoint".

(** What is opened behind the journal, which is closed again when it fails. *)
Definition openParts (random : result bytes) (c : lifecycleCLIConfig) (peerID : bytes) (journal : Journal)
    : M (option S * world) (lifecycleRuntime S) :=
  authority <- wrap (io (OpenAuthority random (filepath_Join (lc_dir c) authorityName) peerID
                           (mkAuthorityOptions (lc_recordLimits c) 0 (LastVersion journal)))) ;
  watermarks <- wrap (io (OpenWatermarkBook (filepath_Join (lc_dir c) watermarksName) (mkWatermarkOptions 0 0 0))) ;
  membership <- wrap (io (OpenMembershipBook (filepath_Join (lc_dir c) membershipName) (mkMembershipOptions 0 0 0))) ;
  membership <-
    (if lc_membershipConfigured c then
       wrap (io (λ w, let '(r, (b, w')) := Replace (lc_membershipMembers c) (membership, w) in
                      (match r with Ok _ => Ok b | Err e => Err e end, w')))
     else ret membership) ;
  let checkpointPath := filepath_Join (lc_dir c) checkpointName in
  '(state, snapshot) <- restoreState checkpointPath (lc_recordLimits c) journal ;
  blobs <- self ;
  applier <- wrap (lift (NewApplier blobs (Some state) (Some journal) (lc_recordLimits c))) ;
  coordinator <- wrap (lift (NewRepairCoordinator (Some journal) (Some watermarks) (lc_repairLimits c))) ;
  ret (mkRuntime checkpointPath (rc_limits coordinator) authority watermarks membership applier snapshot (λ _, 0)).

Definition close_journal (journal : Journal) : M (option S * world) unit :=
  io (λ w, let '(r, (_, w')) := Journal_Close (journal, w) in (r, w')).

Definition openLifecycleRuntime (random : result bytes) (c : lifecycleCLIConfig) (peerAuthToken peerID : bytes)
    : M (option S * world) (option (lifecycleRuntime S)) :=
  if negb (lc_enabled c) then ret None
  else
    blobs <- self ;
    lift (config_validate c blobs peerAuthToken peerID) ;;
    wrap (io (syscall (λ f, (Ok tt, f)))) ;;                    (* os.MkdirAll *)
    '(journal, _) <- wrap (io (OpenJournal (filepath_Join (lc_dir c) journalName)
                                 (mkJournalOptions (lc_recordLimits c) (MaxJournalBytes (lc_journalLimits c))
                                    (MaxJournalEntries (lc_journalLimits c))))) ;
    runtime <- on_error (openParts random c peerID journal) (close_journal journal) ;
    ret (Some runtime).

(** ** Mutations *)

Definition nextVersion : M (lifecycleRuntime S * world) Version :=
  r <- self ;
  on_authority (Next (LastVersion (lr_journal r))).

(** Count an error and return it. *)
Definition counted {A} (m : M (lifecycleRuntime S * world) A) : M (lifecycleRuntime S * world) A :=
  attempt m (λ r, match r with Ok a => ret a | Err e => count_metric MutationErrors ;; throw e end).

(** [None] is a nil slice. *)
Definition put (namespace logicalKey : bytes) (data blobKey : option bytes)
    : M (lifecycleRuntime S * world) (record * ApplyResult) :=
  count_metric MutationsStarted ;;
  r <- self ;
  counted (lift (ValidateKey (lr_state r) namespace logicalKey)) ;;
  blobKey <- match blobKey with
             | None => ret (SHA256Key (default [] data))
             | Some key => counted (lift (VerifySHA256Key key (default [] data))) ;; ret key
             end ;
  version <- counted nextVersion ;
  r <- self ;
  let record := mkRecord namespace logicalKey StatePresent blobKey version (a_authorityID (lr_authority r)) in
  result <- counted (in_applier (Applier_Apply [LifecycleCapabilityV1] record data)) ;
  count_metric MutationsApplied ;;
  ret (record, result).

Definition runtime_delete (namespace logicalKey : bytes) : M (lifecycleRuntime S * world) (record * ApplyResult) :=
  count_metric MutationsStarted ;;
  r <- self ;
  counted (lift (ValidateKey (lr_state r) namespace logicalKey)) ;;
  version <- counted nextVersion ;
  r <- self ;
  let record := mkRecord namespace logicalKey StateDeleted [] version (a_authorityID (lr_authority r)) in
  result <- counted (in_applier (Applier_Apply [LifecycleCapabilityV1] record None)) ;
  count_metric MutationsApplied ;;
  ret (record, result).

(** ** Raw blobs that a peer needs first *)

(** [appendRecord] over a list: [seen] are the blob keys selected so far. *)
Fixpoint select_blobs (watermark : Version) (seen : list bytes) (rs : list record) : list record :=
  match rs with
  | [] => []
  | r :: rs' =>
      if negb (bool_decide (State r = StatePresent)) || (Compare (RVersion r) watermark <=? 0)
      then select_blobs watermark seen rs'
      else if bool_decide (BlobKey r ∈ seen) then select_blobs watermark seen rs'
      else r :: select_blobs watermark (BlobKey r :: seen) rs'
  end.
Definition recordsForRawSync (peerID : bytes) : M (lifecycleRuntime S * world) (list record) :=
  rs <- in_applier (in_journal Journal_Records) ;
  r <- self ;
  let watermark := BookWatermark (lr_watermarks r) peerID in
  let rs := if Compare watermark (Floor (lr_journal r)) <? 0
            then rs ++ match lr_snapshot r with Some c => CRecords c | None => [] end
            else rs in
  ret (select_blobs watermark [] rs).

(** ** Waiting for acknowledgements *)

Definition acknowledged_count (b : WatermarkBook) (version : Version) : Z :=
  len (filter (λ kv : bytes * Version, 0 <= Compare kv.2 version) (map_to_list (BookSnapshot b))).
(** [books] are the states of the book at the ticks before the context ends. *)
Fixpoint wait_loop (version : Version) (peerCount : Z) (book : WatermarkBook) (books : list WatermarkBook) : result unit :=
  if peerCount <=? acknowledged_count book version then Ok tt
  else match books with
       | [] => Err ErrContext
       | book' :: books' => wait_loop version peerCount book' books'
       end.
Definition waitForVersion (version : Version) (peerCount : Z) (book : WatermarkBook) (books : list WatermarkBook) : result unit :=
  if peerCount <=? 0 then Ok tt else wait_loop version peerCount book books.

(** ** Compaction *)

Definition compact : M (lifecycleRuntime S * world) unit :=
  r <- self ;
  let target := LastVersion (lr_journal r) in
  if Compare target (Floor (lr_journal r)) <=? 0 then throw ErrCompactionNoProgress
  else
    peerWatermarks <- io (WatermarksAt (lr_membership r) (Some (lr_watermarks r)) target) ;
    let checkpoint := mkCheckpoint target (Snapshot (lr_state r)) in
    in_applier (in_journal (Compact (mkCompactionRequest (lr_checkpointPath r) target (CRecords checkpoint)
                                       (lr_snapshot r) peerWatermarks))) ;;
    update (set_snapshot (Some checkpoint)).

(** The progress for an error-free context; the zero value's target is kept on an error. *)
Definition compactionProgress (p : runtime_parts) (r : lifecycleRuntime S) (w : world) : MembershipProgress :=
  let target := if pt_journal p then LastVersion (lr_journal r) else zero_version in
  if negb (pt_membership p) || negb (pt_watermarks p) then mkMembershipProgress false 0 0 zero_version target
  else
    match (Progress (lr_membership r) (Some (lr_watermarks r)) target (World None [] (w_fs w))).1 with
    | Ok current => current
    | Err _ => mkMembershipProgress false 0 0 zero_version target
    end.
Definition compactionStatus (p : runtime_parts) (r : lifecycleRuntime S) (progress : MembershipProgress) : bool * bytes :=
  if negb (pt_membership p) then (true, lit "membership-unavailable")
  else if negb (pt_watermarks p) || negb (pt_journal p) then (true, lit "compaction-state-unavailable")
  else if negb (PConfigured progress) then (true, lit "membership-missing")
  else if Compare (PTarget progress) (Floor (lr_journal r)) <=? 0 then (true, lit "no-progress")
  else if negb (PMembers progress =? PAcknowledged progress) then (true, lit "member-behind")
  else (false, []).
End runtime.

(** ** Facts: verifying and replaying *)

Section runtime_facts.
Context `{UnicodePrint} {S : Type} `{BlobStoreSpec S}.

Lemma verify_run rs s w r s' w' st j l fd i x :
  jfile j (w_fs w) fd i x [] → blobs_wf (Some s) j (w_fs w) → verifyLifecycleRecords rs (s, w) = (r, (s', w')) →
  blob_step (mkApplier (Some s) st j l) (mkApplier (Some s') st j l) (w_fs w) (w_fs w') ∧
  (r = Ok tt → Forall (λ r, State r = StatePresent → verified (Some s') (w_fs w') (BlobKey r)) rs).
Proof.
  revert s w. induction rs as [|y rs IH]; intros s w Hj Hb HV; cbn [verifyLifecycleRecords] in HV.
  { stop HV. split; [|intros _; apply Forall_nil_2].
    by apply (blob_step_refl (mkApplier (Some s) st j l) _ j (jf_wf _ _ _ _ _ _ Hj)). }
  step HV as [] [s1 w1] E1; apply io_eq in E1 as [-> E1]; apply ctx_Err_fs in E1 as [E1 _]; rewrite <- E1 in *.
  2:{ split; [|done]. by apply (blob_step_refl (mkApplier (Some s) st j l) _ j (jf_wf _ _ _ _ _ _ Hj)). }
  case_bool_decide as Hp; cbn [negb] in HV.
  2:{ destruct (IH s w1 Hj Hb HV) as [Hs Hv]. split; [done|]. intros Hr. apply Forall_cons. split; [done|by apply Hv]. }
  unfold attempt in HV. destruct (bs_Get (BlobKey y) (s, w1)) as [got [s2 w2]] eqn:EG.
  destruct (Get_step (BlobKey y) (mkApplier (Some s) st j l) w1 got (mkApplier (Some s2) st j l) w2 j) as [Hs Hd];
    [apply Hj|done|unfold on_blobs; cbn; by rewrite EG|].
  destruct got as [data|e].
  2:{ assert (s' = s2 ∧ w' = w2 ∧ is_Ok r = false) as (-> & -> & Hr) by (destruct (errors_Is _ _); by stop HV).
      split; [done|]. by intros ->. }
  destruct (jfile_blob_step (mkApplier (Some s) st j l) (mkApplier (Some s2) st j l) _ _ _ _ _ Hb Hj Hs) as [Hj2 Hb2].
  step HV as [] [s3 w3] E3; injection E3 as Ev <- <-; [|by split]. apply VerifySHA256Key_Ok in Ev.
  destruct (IH s2 w2 Hj2 Hb2 HV) as [Hs2 Hv2]. split; [by eapply blob_step_trans|]. intros Hr. apply Forall_cons.
  split; [|by apply Hv2]. intros _. apply (bp_verified _ _ _ _ Hs2). destruct (Hd data eq_refl) as (s0 & Es & Hc).
  exists s0, data. done.
Qed.

(** The journal and the blobs while the state is built up. *)
Record restoring (owned : bytes → Prop) (j : Journal) (s : S) (st : Store) (f : fs) : Prop := {
  rg_journal : ∃ fd i x, jfile j f fd i x [];
  rg_blobs : blobs_wf (Some s) j f;
  rg_owned : bs_owns s = owned;
  rg_present : present_verified st (Some s) f
}.

Lemma verify_restoring owned rs s w r s' w' j st :
  restoring owned j s st (w_fs w) → verifyLifecycleRecords rs (s, w) = (r, (s', w')) →
  restoring owned j s' st (w_fs w') ∧ fs_frame owned (w_fs w) (w_fs w') ∧
  (r = Ok tt → Forall (λ r, State r = StatePresent → verified (Some s') (w_fs w') (BlobKey r)) rs).
Proof.
  intros [(fd & i & x & Hj) Hb Ho Hp] HV. destruct (verify_run _ _ _ _ _ _ st j zero_limits _ _ _ Hj Hb HV) as [Hs Hv].
  destruct (jfile_blob_step (mkApplier (Some s) st j zero_limits) (mkApplier (Some s') st j zero_limits) _ _ _ _ _ Hb Hj Hs) as [Hj' Hb'].
  pose proof (bp_frame _ _ _ _ Hs) as (Eo & _ & HF). rewrite Ho in *. split_and!; [|done|done].
  split; [by exists fd, i, x|done|by rewrite Eo|].
  eapply present_mono; [apply (bp_verified _ _ _ _ Hs)|done].
Qed.

(** [of_store] over a store that is there. *)
Lemma of_store_run {A} (m : M (S * world) A) s w r b w' :
  of_store m (Some s, w) = (r, (b, w')) → ∃ s', b = Some s' ∧ m (s, w) = (r, (s', w')).
Proof. unfold of_store. cbn. destruct (m (s, w)) as [r1 [s1 w1]]. intros [= <- <- <-]. by exists s1. Qed.

Lemma replay_loop_run owned j rs st s w r T' w' :
  restoring owned j s st (w_fs w) → replay_loop restore_record rs ((st, Some s), w) = (r, (T', w')) →
  ∃ st' s', T' = (st', Some s') ∧ restoring owned j s' st' (w_fs w') ∧ fs_frame owned (w_fs w) (w_fs w') ∧
    (r = Ok tt → st' = apply_all st rs).
Proof.
  revert st s w. induction rs as [|y rs IH]; intros st s w Hg HR; cbn [replay_loop] in HR.
  { stop HR. exists st, s. split_and!; try done. destruct Hg as [(fd & i & x & Hj) _ _ _]. apply fs_frame_refl, Hj. }
  step HR as [] [t1 w1] E1; apply io_eq in E1 as [-> E1]; apply ctx_Err_fs in E1 as [E1 _]; rewrite <- E1 in *.
  2:{ exists st, s. split_and!; try done. destruct Hg as [(fd & i & x & Hj) _ _ _]. apply fs_frame_refl, Hj. }
  step HR as [] [t2 w2] E2; unfold restore_record in E2.
  - step E2 as [] [t3 w3] E3. unfold zoom in E3. cbn [fst snd] in E3.
    destruct (of_store (verifyLifecycleRecords [y]) (Some s, w1)) as [rv [b3 w4]] eqn:EV. injection E3 as -> <- <-.
    apply of_store_run in EV as (s3 & -> & EV). destruct (verify_restoring _ _ _ _ _ _ _ _ _ Hg EV) as (Hg3 & HF3 & Hv3).
    step E2 as res [t5 w5] E5. unfold zoom in E5. cbn [fst snd] in E5. destruct (Apply y st) as [ra st5] eqn:EA.
    injection E5 as -> <- <-. injection E2 as <- <-.
    assert (st5 = (Apply y st).2) as Est by by rewrite EA.
    assert (restoring owned j s3 st5 (w_fs w4)) as Hg5.
    { destruct Hg3 as [Hj Hb Ho Hp]. split; [done|done|done|]. rewrite Est. apply present_Apply; [done|].
      specialize (Hv3 eq_refl). by rewrite Forall_singleton in Hv3. }
    destruct (IH _ _ _ Hg5 HR) as (st' & s' & -> & Hg' & HF' & Hr). exists st', s'. split_and!; [done|done|by eapply fs_frame_trans|].
    intros Hok. rewrite (Hr Hok), Est. done.
  - assert (∃ st3 s3, t2 = (st3, Some s3) ∧ restoring owned j s3 st3 (w_fs w2) ∧ fs_frame owned (w_fs w1) (w_fs w2)) as (st3 & s3 & -> & Hg3 & HF3).
    { step E2 as [] [t3 w3] E3; unfold zoom in E3; cbn [fst snd] in E3;
        destruct (of_store (verifyLifecycleRecords [y]) (Some s, w1)) as [rv [b3 w4]] eqn:EV; injection E3 as -> <- <-;
        apply of_store_run in EV as (s3 & -> & EV); destruct (verify_restoring _ _ _ _ _ _ _ _ _ Hg EV) as (Hg3 & HF3 & Hv3);
        [|exists st, s3; by split_and!].
      step E2 as res [t5 w5] E5; unfold zoom in E5; cbn [fst snd] in E5; destruct (Apply y st) as [ra st5] eqn:EA;
        injection E5 as -> <- <-; [stop E2|].
      exists st5, s3. split_and!; [done| |done]. destruct Hg3 as [Hj Hb Ho Hp]. split; [done|done|done|].
      assert (st5 = (Apply y st).2) as -> by by rewrite EA. apply present_Apply; [done|].
      specialize (Hv3 eq_refl). by rewrite Forall_singleton in Hv3. }
    exists st3, s3. by split_and!.
Qed.

Lemma copy_records_run rs w r w' :
  copy_records rs w = (r, w') → w_fs w' = w_fs w ∧ ∀ out, r = Ok out → out = rs.
Proof.
  revert w r w'. induction rs as [|y rs IH]; intros w r w' HC; cbn [copy_records] in HC; [stop HC; split; [done|]; by intros out [= <-]|].
  step HC as [] w1 E1; apply ctx_Err_fs in E1 as [E1 _]; [|done].
  step HC as out w2 E2; apply IH in E2 as [E2 Ho]; rewrite E1 in E2; [|done].
  stop HC. split; [done|]. intros out' [= <-]. by rewrite clone_id, (Ho out eq_refl).
Qed.
Lemma Journal_Records_run j w r j' w' :
  Journal_Records (j, w) = (r, (j', w')) → j' = j ∧ w_fs w' = w_fs w ∧ ∀ out, r = Ok out → out = j_records j.
Proof.
  unfold Journal_Records. intros HR.
  step HR as [] [j1 w1] E1; apply io_eq in E1 as [-> E1]; apply ctx_Err_fs in E1 as [E1 _]; [|done].
  step_Ok HR. cbn [fst] in HR. step HR as fd [j2 w2] E2; injection E2 as _ <- <-; [|done].
  apply io_eq in HR as [-> HR]. apply copy_records_run in HR as [-> Ho]. done.
Qed.

Lemma restoring_fs owned j s st f f' : f' = f → restoring owned j s st f → restoring owned j s st f'.
Proof. by intros ->. Qed.
Lemma restoring_wf owned j s st f : restoring owned j s st f → fs_wf f.
Proof. intros [(fd & i & x & Hj) _ _ _]. apply Hj. Qed.

Lemma replay_journal_run owned j st s w r b w' :
  restoring owned j s st (w_fs w) → replay_journal j st (Some s, w) = (r, (b, w')) →
  ∃ s', b = Some s' ∧ fs_frame owned (w_fs w) (w_fs w') ∧
    ∀ st', r = Ok st' → restoring owned j s' st' (w_fs w') ∧ st' = apply_all st (j_records j).
Proof.
  intros Hg. unfold replay_journal. cbn [fst snd].
  destruct (Replay (Some restore_record) (j, ((st, Some s), w))) as [rr [j1 [[st1 b1] w1]]] eqn:ER. intros [= <- <- <-].
  unfold Replay in ER. step ER as rs [j2 [[st2 b2] w2]] E2; unfold zoom in E2; cbn [fst snd] in E2;
    destruct (Journal_Records (j, w)) as [rj [j3 w3]] eqn:EJ; injection E2 as -> <- <- <- <-;
    apply Journal_Records_run in EJ as (-> & EJ & Ho); pose proof (restoring_fs _ _ _ _ _ _ EJ Hg) as Hg3.
  - unfold zoom in ER. cbn [fst snd] in ER. destruct (replay_loop restore_record rs ((st, Some s), w3)) as [rl [T4 w4]] eqn:EL.
    injection ER as <- <- HT <-. rewrite (Ho rs eq_refl) in EL.
    destruct (replay_loop_run _ _ _ _ _ _ _ _ _ Hg3 EL) as (st' & s' & -> & Hg' & HF & Hr). injection HT as <- <-.
    rewrite EJ in HF. exists s'. split_and!; [done|done|]. destruct rl as [[]|]; [|done]. intros st5 [= <-]. split; [done|by apply Hr].
  - subst b1 w1. exists s. split_and!; [done| |done]. rewrite EJ. apply fs_frame_refl. by eapply restoring_wf.
Qed.

(** *** The checkpoint file *)

Lemma check_records_error wm l rs e : check_records wm l rs = Err e → errors_Is e ErrNotExist = false.
Proof.
  induction rs as [|r rs IH]; cbn [check_records]; [done|]. unfold rbind.
  destruct (Validate r l) as [|e1] eqn:EV.
  - intros HC. repeat (case_match; simplify_eq; try done); eauto.
  - intros [= <-]. unfold Validate, validateAuthorityID, rbind in EV. repeat (case_match; simplify_eq; try done).
Qed.
Lemma decodeCheckpoint_error data l e : decodeCheckpoint data l = Err e → errors_Is e ErrNotExist = false.
Proof.
  unfold decodeCheckpoint, rbind at 1. destruct (decodeEnvelope _ _ _ _ _) as [[payload next]|e1] eqn:ED.
  2:{ intros [= <-]. unfold decodeEnvelope in ED. repeat (case_match; simplify_eq; try done). }
  case_match; [by intros [= <-]|]. case_match; [|by intros [= <-]].
  unfold normalizeCheckpoint, normalizeCheckpointRecords, rbind. intros HN.
  repeat (case_match; simplify_eq; try done). by eapply check_records_error.
Qed.

(** A call that reads through a descriptor. *)
Lemma read_fd_run {A} (g : nat → fs → A) fd i w r w' :
  fs_fds (w_fs w) !! fd = Some i → syscall (with_fd fd (λ i f, (Ok (g i f), f))) w = (r, w') →
  w_fs w' = w_fs w ∧ (r = Err ErrOS ∨ r = Ok (g i (w_fs w))).
Proof.
  intros Hfd [[-> E]|E]%syscall_inv; [auto|]. unfold with_fd in E. rewrite Hfd in E. injection E as <- <-. auto.
Qed.

Lemma LoadCheckpoint_run path l w r w' :
  fs_wf (w_fs w) → LoadCheckpoint path l w = (r, w') →
  fs_read (w_fs w) (w_fs w') ∧
  match r with
  | Ok c => ∃ data, file_at (w_fs w) path = Some data ∧ decodeCheckpoint data (normalized l) = Ok c
  | Err e => errors_Is e ErrNotExist = true → file_at (w_fs w) path = None
  end.
Proof.
  intros Hf HL. unfold LoadCheckpoint in HL. case_bool_decide; [stop HL; by split|].
  step HL as [] w1 E1; pose proof E1 as E1'; apply ctx_Err_fs in E1 as [E1 _].
  2:{ split; [by apply fs_read_eq|]. unfold ctx_Err in E1'. destruct (w_ctx w) as [[]|]; by simplify_eq. }
  cbv zeta in HL.
  step HL as fd w2 E2; unfold os_Open in E2; apply syscall_inv in E2 as [[Ee E2]|E2]; try done; cbv zeta in E2.
  2:{ injection Ee as ->. split; [apply fs_read_eq; by rewrite E2|done]. }
  2:{ rewrite E1 in E2. unfold file_at. destruct (fs_dir (w_fs w) !! _); [by injection E2|]. injection E2 as <- <-.
      split; [by apply fs_read_eq|done]. }
  rewrite E1 in E2. unfold file_at. destruct (fs_dir (w_fs w) !! _) as [i|]; [|by injection E2]. injection E2 as <- Ew2.
  change (Fs _ _ _ _ _) with (open_read i (w_fs w)) in Ew2. symmetry in Ew2.
  unfold with_close, attempt in HL. match type of HL with context [?m w2] => destruct (m w2) as [rm w3] eqn:Em end.
  destruct (file_Close (fs_next (w_fs w)) w3) as [rc w4] eqn:EC. injection HL as <- <-.
  assert (fs_fds (w_fs w2) !! fs_next (w_fs w) = Some i) as Hfd by (rewrite Ew2; apply lookup_insert_eq).
  assert (w_fs w3 = open_read i (w_fs w) ∧ match rm with
    | Ok c => decodeCheckpoint (file_data i (w_fs w)) (normalized l) = Ok c
    | Err e => errors_Is e ErrNotExist = false end) as [Hw3 Hr].
  { step Em as size w5 E5; (eapply read_fd_run in E5 as [E5 Hsz]; [|exact Hfd]); rewrite Ew2 in *;
      (destruct Hsz as [[= ->]|[= ->]]); [|by split].
    destruct (_ <? _) in Em; [stop Em; by split|].
    step Em as data w6 E6; (eapply read_fd_run in E6 as [E6 Hd]; [|rewrite E5; exact Hfd]); rewrite E5 in *;
      (destruct Hd as [[= ->]|[= ->]]); [|by split].
    injection Em as <- <-. split; [done|]. change (file_data i (open_read i (w_fs w))) with (file_data i (w_fs w)).
    destruct (decodeCheckpoint _ _) as [c|e] eqn:ED; [done|]. by eapply decodeCheckpoint_error. }
  rewrite (file_Close_read i (w_fs w) _ _ _ Hf Hw3 EC). split; [apply read_done_read|].
  destruct rm as [c|e]; [by eexists|]. by rewrite Hr.
Qed.

(** What a decoded checkpoint is known to be. *)
Record good_checkpoint (l : Limits) (c : Checkpoint) : Prop := {
  gc_u64 : version_u64 (Watermark c);
  gc_records : Forall (λ r, version_u64 (RVersion r)) (CRecords c);
  gc_valid : Forall (λ r, valid l r = true ∧ version_le (RVersion r) (Watermark c)) (CRecords c);
  gc_keys : NoDup (key_of <$> CRecords c);
  gc_normal : normalizeCheckpoint c l = Ok (c, normalized l)
}.
Lemma decodeCheckpoint_good data l c : decodeCheckpoint data l = Ok c → good_checkpoint l c.
Proof.
  unfold decodeCheckpoint. intros ([payload next] & _ & HD)%rbind_Ok. apply guard_Ok in HD as [_ HD].
  destruct (json_Unmarshal dec_checkpoint zero_checkpoint payload) as [k|] eqn:EU; [|done].
  apply rbind_Ok in HD as ([n l'] & Hn & [= <-]). unfold normalizeCheckpoint in Hn. apply rbind_Ok in Hn as (rs & Hrs & [= <- <-]).
  pose proof (normalizeCheckpointRecords_idem _ _ _ _ Hrs) as Hidem.
  apply normalizeCheckpointRecords_Ok in Hrs as (_ & Hv & Hd & ->).
  assert (version_u64 (Watermark k) ∧ u64_records (CRecords k)) as [Hw Hu].
  { unfold json_Unmarshal in EU. destruct (unmarshal payload) as [jv|]; [|done].
    revert EU. apply (dec_struct_inv (λ c, version_u64 (Watermark c) ∧ u64_records (CRecords c))); [|split; [done|apply Forall_nil_2]].
    intros key d Hin o j' y (H2 & H3). fields_inv Hin; intros (x & Hx & ->)%field_inv.
    - split; [by eapply dec_version_u64, Hx|done].
    - split; [done|]. eapply dec_slice_inv; [| |exact H3|exact Hx]; [done|]. intros. by eapply dec_record_u64. }
  split; cbn [Watermark CRecords]; [done|unfold u64_records in Hu; by rewrite sort_records_Permutation| |by rewrite sort_records_Permutation|].
  { rewrite sort_records_Permutation. eapply Forall_impl; [exact Hv|]. cbn. intros r. by rewrite valid_normalized. }
  unfold normalizeCheckpoint. cbn [Watermark CRecords]. by rewrite Hidem.
Qed.

(** The checkpoint under a journal with this floor, and its file. *)
Definition base_of (snapshot : option Checkpoint) : list record :=
  match snapshot with Some c => CRecords c | None => [] end.
Definition snapshot_saved (l : Limits) (floor : Version) (snapshot : option Checkpoint) (file : option bytes) : Prop :=
  match snapshot with
  | None => floor = zero_version ∧ file = None
  | Some c => Watermark c = floor ∧ ∃ data, file = Some data ∧ decodeCheckpoint data l = Ok c
  end.

Lemma restoreState_run owned j s l cp w r b w' :
  restoring owned j s (NewStore l) (w_fs w) → restoreState cp l j (Some s, w) = (r, (b, w')) →
  ∃ s', b = Some s' ∧ fs_frame owned (w_fs w) (w_fs w') ∧
    ∀ st snap, r = Ok (st, snap) → restoring owned j s' st (w_fs w') ∧
      st = apply_all (NewStore l) (base_of snap ++ j_records j) ∧
      snapshot_saved (normalized l) (j_floor j) snap (file_at (w_fs w) cp).
Proof.
  intros Hg HR. unfold restoreState, attempt at 1 in HR. rewrite io_run in HR. pose proof (restoring_wf _ _ _ _ _ Hg) as Hf.
  destruct (LoadCheckpoint cp l w) as [rl w1] eqn:EL. apply LoadCheckpoint_run in EL as [HRd Hl]; [|done]. cbn [fst snd] in HR.
  pose proof (fs_read_frame owned _ _ Hf HRd) as HF1.
  assert (restoring owned j s (NewStore l) (w_fs w1)) as Hg1.
  { destruct Hg as [(fd & i & x & Hj) Hb Ho Hp]. destruct Hb as (Hw & Hn & Hs).
    assert (fs_other (bs_owns s) (w_fs w) (w_fs w1)) as Hot by (destruct HRd; split; intros; congruence).
    destruct (bs_stable _ _ _ Hw Hot) as [Hw' Ec]. rewrite <- Ho in HF1.
    split; [exists fd, i, x; by eapply jfile_frame|split; [done|split; [done|]]|done|].
    - intros p i' fd' Hp' Hi' Hfd. rewrite (fr_dir _ _ HRd) in Hi'. rewrite (fr_fds _ _ HRd). by eapply Hs.
    - intros k r0 Hr0. cbn in Hr0. by rewrite lookup_empty in Hr0. }
  destruct rl as [c|e].
  - destruct Hl as (data & Hdata & Hdec). pose proof (decodeCheckpoint_good _ _ _ Hdec) as Hgc.
    case_bool_decide as Hwm; cbn [negb] in HR; [|stop HR; exists s; by split_and!].
    unfold bind at 1, wrap, attempt in HR. destruct (of_store _ (Some s, w1)) as [rv [b2 w2]] eqn:EV.
    apply of_store_run in EV as (s2 & -> & EV). destruct (verify_restoring _ _ _ _ _ _ _ _ _ Hg1 EV) as (Hg2 & HF2 & Hv2).
    pose proof (fs_frame_trans _ _ _ _ HF1 HF2) as HF.
    destruct rv as [[]|ev]; [|stop HR; exists s2; by split_and!]. cbn [ret] in HR.
    assert (ReplaceSnapshot (CRecords c) (NewStore l) = (Ok tt, mkStore (normalized l) (index (CRecords c)))) as ER.
    { apply ReplaceSnapshot_Ok. split_and!; [|apply Hgc|done]. eapply Forall_impl; [apply (gc_valid _ _ Hgc)|]. by intros ? [? _]. }
    rewrite ER in HR.
    assert (mkStore (normalized l) (index (CRecords c)) = apply_all (NewStore l) (CRecords c)) as Est.
    { symmetry. apply apply_all_index; [|apply Hgc]. eapply Forall_impl; [apply (gc_valid _ _ Hgc)|].
      intros ? [? _]. by rewrite <- valid_normalized. }
    assert (restoring owned j s2 (mkStore (normalized l) (index (CRecords c))) (w_fs w2)) as Hg3.
    { destruct Hg2 as [Hj Hb Ho _]. split; [done|done|done|]. intros k r0 Hr0 Hst. cbn in Hr0.
      apply index_lookup in Hr0 as [Hin _]; [|apply Hgc]. specialize (Hv2 eq_refl). rewrite Forall_forall in Hv2. by apply Hv2. }
    step HR as st [b3 w3] E3; apply (replay_journal_run owned) in E3 as (s3 & -> & HF3 & Hr3); try done;
      pose proof (fs_frame_trans _ _ _ _ HF HF3) as HF'; [|exists s3; by split_and!].
    stop HR. exists s3. split_and!; [done|done|]. intros st' snap [= <- <-]. destruct (Hr3 st eq_refl) as [Hg' ->].
    split_and!; [done|by rewrite Est, <- apply_all_app|]. split; [done|]. by exists data.
  - destruct (errors_Is e ErrNotExist) eqn:Ee; cbn [negb] in HR; [|stop HR; exists s; by split_and!].
    unfold IsZero in HR. case_bool_decide as Hz; cbn [negb] in HR; [|stop HR; exists s; by split_and!].
    step HR as st [b3 w3] E3; apply (replay_journal_run owned) in E3 as (s3 & -> & HF3 & Hr3); try done;
      pose proof (fs_frame_trans _ _ _ _ HF1 HF3) as HF'; [|exists s3; by split_and!].
    stop HR. exists s3. split_and!; [done|done|]. intros st' snap [= <- <-]. destruct (Hr3 st eq_refl) as [Hg' ->].
    split_and!; [done|done|]. split; [done|by apply Hl].
Qed.
End runtime_facts.
