(* ===== verification/RuntimeInv.v ===== *)
(** * What the lifecycle runtime keeps

    The invariant of lifecycle_cli.go's runtime and what its operations do under
    it: [put] and [delete] publish one newer record, [compact] replaces the
    journal by a checkpoint without changing the state, the status agrees with
    what [compact] decides, and opening a directory establishes the invariant. *)
From S2P Require Import Prelude Go Bits Text Json Os Paths Model Codec Journal Compact Transport Repair StateFile Watermark Authority Membership Blobs Applier Session Runtime.

Section runtime_inv.
Context `{UnicodePrint} {S : Type} `{BlobStoreSpec S}.

(** ** Paths beside the journal *)

(** [p] neither names the journal nor shares its file. *)
Definition aside (p : bytes) (j : Journal) (f : fs) : Prop :=
  p ≠ filepath_Clean (j_path j) ∧
  ∀ i fd, fs_dir f !! Named p = Some i → j_file j = Some fd → fs_fds f !! fd ≠ Some i.

Lemma aside_frame owned j f f' fd i x p :
  jfile j f fd i x [] → fs_frame owned f f' → ¬ owned p → aside p j f → aside p j f'.
Proof.
  intros Hj F Hp [Hn Hs]. split; [done|]. intros i' fd' Hi' Hfd Hbad. rewrite (ff_dir _ _ _ F p Hp) in Hi'.
  rewrite (jf_file _ _ _ _ _ _ Hj) in Hfd. injection Hfd as <-.
  rewrite (ff_fds _ _ _ F _ _ (jf_fd _ _ _ _ _ _ Hj)) in Hbad. injection Hbad as <-.
  by eapply Hs; [|apply Hj|apply Hj].
Qed.
(** Replacing the file at [p] gives it a file of its own. *)
Lemma aside_self j f f' fd i x p : jfile j f fd i x [] → fs_frame (eq p) f f' → aside p j f → aside p j f'.
Proof.
  intros Hj F [Hn Hs]. split; [done|]. intros i' fd' Hi' Hfd Hbad.
  rewrite (jf_file _ _ _ _ _ _ Hj) in Hfd. injection Hfd as <-.
  rewrite (ff_fds _ _ _ F _ _ (jf_fd _ _ _ _ _ _ Hj)) in Hbad. injection Hbad as <-.
  apply (ff_new _ _ _ F) in Hi' as [Hi'|Hi']; [by eapply Hs; [|apply Hj|apply Hj]| |done].
  pose proof (jf_ino _ _ _ _ _ _ Hj) as Hin. by rewrite (wf_fresh_ino _ (jf_wf _ _ _ _ _ _ Hj) _ Hi') in Hin.
Qed.
Lemma file_at_frame owned f f' p :
  fs_wf f → fs_frame owned f f' → ¬ owned (filepath_Clean p) → file_at f' p = file_at f p.
Proof.
  intros Hf F Hp. unfold file_at, file_data. rewrite (ff_dir _ _ _ F _ Hp).
  destruct (fs_dir f !! _) as [i|] eqn:Ei; [|done]. destruct (wf_dir _ Hf _ _ Ei) as [x Hx].
  by rewrite Hx, (ff_ino _ _ _ F _ _ Hx).
Qed.

(** What an operation leaves of a path that is not its own. *)
Definition untouched (p : bytes) (j j' : Journal) (f f' : fs) : Prop :=
  aside p j f → aside p j' f' ∧ file_at f' p = file_at f p.

Lemma untouched_frame owned j f f' fd i x p :
  jfile j f fd i x [] → fs_frame owned f f' → filepath_Clean p = p → ¬ owned p → untouched p j j f f'.
Proof.
  intros Hj F Hc Hp Ha. split; [by eapply aside_frame|]. eapply file_at_frame; [apply Hj|done|by rewrite Hc].
Qed.
Lemma untouched_trans p j j1 j2 f f1 f2 :
  untouched p j j1 f f1 → untouched p j1 j2 f1 f2 → untouched p j j2 f f2.
Proof. intros U1 U2 [Ha E]%U1. destruct (U2 Ha) as [Ha' E']. split; [done|congruence]. Qed.

Lemma untouched_Append j w r res j' w' p :
  jinv j w → filepath_Clean p = p → Append r (j, w) = (res, (j', w')) → untouched p j j' (w_fs w) (w_fs w').
Proof.
  intros (fd & i & x & Hj) Hc HA [Hn Hs]. destruct (Append_upd _ _ _ _ _ _ _ _ _ Hj HA) as [g ->].
  assert (j_path j' = j_path j ∧ j_file j' = j_file j) as [Ep Ef].
  { pose proof (Append_run _ _ _ _ _ _ _ _ _ _ Hj eq_refl HA) as Hr. destruct res as [[]|e]; [by destruct Hr as (_ & -> & _)|by destruct Hr as [-> _]]. }
  unfold aside. rewrite Ep, Ef. split; [done|]. unfold file_at, file_data. cbn. rewrite Hc.
  destruct (fs_dir (w_fs w) !! _) as [i'|] eqn:Ei; [|done]. rewrite lookup_alter_ne; [done|]. intros <-.
  by eapply Hs; [|apply Hj|apply Hj].
Qed.

Lemma untouched_blob_step owned base a a' w w' p :
  applier_inv owned base a w → blob_step a a' (w_fs w) (w_fs w') → filepath_Clean p = p → ¬ owned p →
  untouched p (a_journal a) (a_journal a') (w_fs w) (w_fs w').
Proof.
  intros [(fd & i & x & Hj) _ _ _ Hown] Hs Hc Hp. rewrite (bp_rest _ _ _ _ Hs). cbn [set_blobs a_journal].
  pose proof (bp_frame _ _ _ _ Hs) as HF. destruct (a_blobs a) as [s|], (a_blobs a'); try done.
  - destruct HF as (_ & _ & HF). rewrite (Hown s eq_refl) in HF. by eapply untouched_frame.
  - rewrite HF. by intros ?.
Qed.

(** The applier stays away from such a path. *)
Lemma untouched_Apply owned base (a : Applier S) w caps r sup res a' w' p :
  applier_inv owned base a w → Applier_Apply caps r sup (a, w) = (res, (a', w')) →
  filepath_Clean p = p → ¬ owned p →
  untouched p (a_journal a) (a_journal a') (w_fs w) (w_fs w').
Proof.
  intros Hi HA Hc Hp. unfold Applier_Apply in HA.
  step HA as [] [a1 w1] E1; apply io_eq in E1 as [-> E1]; apply ctx_Err_fs in E1 as [Ew _];
    pose proof (applier_inv_fs _ _ _ _ _ Ew Hi) as Hi1; [|rewrite Ew; by intros ?]. rewrite <- Ew. clear Hi Ew.
  destruct (HasLifecycleCapability caps); cbn [negb] in HA; [|stop HA; by intros ?].
  step_Ok HA. cbn [fst] in HA. step HA as [] [a2 w2] E2; injection E2 as _ <- <-; [|by intros ?].
  step HA as c [a2 w2] E2; injection E2 as _ <- <-; [|by intros ?].
  destruct (negb _); [stop HA; by intros ?|]. pose proof (applier_inv_wf _ _ _ _ Hi1) as [Hf Hs0].
  step HA as [] [a2 w2] E2;
    (assert (blob_step a a2 (w_fs w1) (w_fs w2)) as Hs
      by (case_bool_decide; [by eapply ensureBlob_run in E2 as [? _]; [|done|apply Hi1]|first [discriminate E2|by injection E2 as <- <-]]));
    pose proof (untouched_blob_step _ _ _ _ _ _ _ Hi1 Hs Hc Hp) as Hu; [|done].
  pose proof (applier_inv_step _ _ _ _ _ _ Hi1 Hs) as Hi2.
  step HA as [] [a3 w3] E3; unfold in_journal, zoom in E3; cbn [fst snd] in E3;
    destruct (Append r (a_journal a2, w2)) as [rA [j3 w4]] eqn:EA; injection E3 as -> <- <-;
    pose proof (untouched_Append _ _ _ _ _ _ _ (ai_journal _ _ _ _ Hi2) Hc EA) as Hu2; [|by eapply untouched_trans].
  unfold in_state, zoom in HA. cbn [fst snd] in HA. destruct (Apply r _) as [r4 s4]. injection HA as _ <- <-.
  by eapply untouched_trans.
Qed.

(** ** The invariant *)

(** The state file at [p] belongs to the runtime alone. *)
Definition own_path (owned : bytes → Prop) (p : bytes) (j : Journal) (f : fs) : Prop :=
  filepath_Clean p = p ∧ ¬ owned p ∧ aside p j f.

(** The applier works over the checkpoint that [snapshot] holds, which is the
    one in the checkpoint file and at the journal's floor. *)
Record runtime_inv (owned : bytes → Prop) (r : lifecycleRuntime S) (w : world) : Prop := {
  ri_applier : applier_inv owned (base_of (lr_snapshot r)) (lr_applier r) w;
  ri_snapshot : snapshot_saved (j_limits (lr_journal r)) (j_floor (lr_journal r)) (lr_snapshot r)
                  (file_at (w_fs w) (lr_checkpointPath r));
  ri_authority : authority_wf (lr_authority r);
  ri_watermarks : wb_wf (lr_watermarks r);
  ri_checkpoint_path : own_path owned (lr_checkpointPath r) (lr_journal r) (w_fs w);
  ri_authority_path : own_path owned (a_path (lr_authority r)) (lr_journal r) (w_fs w);
  ri_paths : lr_checkpointPath r ≠ a_path (lr_authority r)
}.

Lemma own_path_untouched owned p j j' f f' :
  own_path owned p j f → untouched p j j' f f' → own_path owned p j' f' ∧ file_at f' p = file_at f p.
Proof. intros (? & ? & Ha) [Ha' ?]%(λ U, U Ha). done. Qed.

Lemma runtime_inv_metrics owned ms r w : runtime_inv owned r w → runtime_inv owned (set_metrics ms r) w.
Proof. by intros []. Qed.

(** The runtime with another book. *)
Definition set_book (b : WatermarkBook) (r : lifecycleRuntime S) : lifecycleRuntime S :=
  mkRuntime (lr_checkpointPath r) (lr_repairLimits r) (lr_authority r) b (lr_membership r) (lr_applier r) (lr_snapshot r) (lr_metrics r).
Lemma runtime_inv_book owned b r w : runtime_inv owned r w → wb_wf b → runtime_inv owned (set_book b r) w.
Proof. by intros []. Qed.

(** The state is a store of records that the checkpoint or the journal holds. *)
Lemma state_wf owned base (a : Applier S) w : applier_inv owned base a w →
  store_wf (a_state a) ∧ limits (a_state a) = j_limits (a_journal a) ∧
  ∀ k x, records (a_state a) !! k = Some x → x ∈ base ++ j_records (a_journal a).
Proof.
  intros [(fd & i & y & Hj) Est _ _ _]. rewrite Est. split_and!.
  - apply apply_all_wf, store_wf_New.
  - rewrite apply_all_limits. apply (jf_limits _ _ _ _ _ _ Hj).
  - intros k x Hk. pose proof (apply_all_latest (j_limits (a_journal a)) (base ++ j_records (a_journal a)) k) as Hl.
    rewrite Hk in Hl. by destruct Hl as (Hin & _).
Qed.

(** Its versions are 64-bit and at or below the journal's last one. *)
Lemma state_versions owned r w k x :
  runtime_inv owned r w → records (lr_state r) !! k = Some x →
  version_le (RVersion x) (j_last (lr_journal r)) ∧ version_u64 (RVersion x).
Proof.
  intros [Ha Hsnap _ _ _ _ _] Hk. apply (state_wf _ _ _ _ Ha) in Hk. destruct Ha as [(fd & i & y & Hj) _ _ _ _].
  destruct (jfile_records _ _ _ _ _ _ Hj) as (_ & Hinc & Hju).
  apply increasing_le in Hinc as [Hfl Hrs]. unfold lr_journal in *. rewrite (jf_last _ _ _ _ _ _ Hj).
  rewrite Forall_forall in Hrs, Hju. apply elem_of_app in Hk as [Hin|Hin]; [|split; [by apply Hrs|by apply Hju]].
  destruct (lr_snapshot r) as [c|]; [|by apply elem_of_nil in Hin].
  destruct Hsnap as (Ew & data & _ & [Hd1 Hd2 Hd3 _ _]%decodeCheckpoint_good). rewrite Forall_forall in Hd2, Hd3.
  split; [|by apply Hd2]. etrans; [|exact Hfl]. rewrite <- Ew. by apply Hd3.
Qed.

Lemma Classify_newer r st c :
  Classify r st = Ok c → (∀ x, records st !! key_of r = Some x → version_lt (RVersion x) (RVersion r)) →
  c = mkApplyResult OutcomeApplied (RVersion r) ∧ (Apply r st).2 = mkStore (limits st) (<[key_of r := r]> (records st)).
Proof.
  intros HC Hn. rewrite Apply_state, HC. apply rbind_Ok in HC as (_ & _ & HC). unfold classifyRecord in HC.
  destruct (records st !! key_of r) as [x|]; [|by injection HC as <-]. specialize (Hn x eq_refl). apply Compare_gt in Hn.
  rewrite (proj2 (Z.ltb_lt _ _)) in HC by lia. by injection HC as <-.
Qed.

(** ** Allocating a version *)

Lemma Next_frame observed a w res a' w' :
  fs_wf (w_fs w) → Next observed (a, w) = (res, (a', w')) → fs_frame (eq (filepath_Clean (a_path a))) (w_fs w) (w_fs w').
Proof.
  intros Hf HN. unfold Next in HN.
  step HN as [] [a1 w1] E1; apply io_eq in E1 as [-> E1]; apply ctx_Err_fs in E1 as [Ew _]; rewrite <- Ew in *;
    [|by apply fs_frame_refl].
  step_Ok HN. cbn [fst] in HN. cbv zeta in HN. destruct (_ && _) in HN; [stop HN; by apply fs_frame_refl|].
  step HN as [] [a2 w2] E2; [|by destruct (0 <? _) in E2].
  assert (a_path a2 = a_path a ∧ w2 = w1) as [Ep ->] by (destruct (0 <? _) in E2; by injection E2 as <- <-). rewrite <- Ep.
  step_Ok HN. cbn [fst] in HN. step HN as next [a3 w3] E3; injection E3 as _ <- <-; [|by apply fs_frame_refl].
  step_Ok HN. step_Ok HN. cbn [fst snd] in HN.
  step HN as [] [a4 w4] E4; apply io_eq in E4 as [-> E4]; apply persistState_frame in E4; try done.
  by injection HN as _ _ <-.
Qed.

Lemma nextVersion_run owned r w res r' w' :
  runtime_inv owned r w → nextVersion (r, w) = (res, (r', w')) →
  ∃ a', r' = set_authority a' r ∧ a_authorityID a' = a_authorityID (lr_authority r) ∧
    runtime_inv owned r' w' ∧ version_le (a_current (lr_authority r)) (a_current a') ∧
    ∀ v, res = Ok v → version_lt (j_last (lr_journal r)) v ∧ version_lt (a_current (lr_authority r)) v ∧
      a_current a' = v ∧ version_u64 v.
Proof.
  intros Hi HN. unfold nextVersion in HN. step_Ok HN. unfold on_authority, zoom in HN. cbn [fst snd] in HN.
  destruct (Next _ _) as [rN [a1 w1]] eqn:EN. injection HN as <- <- <-. destruct Hi as [Ha Hs Hau Hwb Hc Hp Hd].
  pose proof (ai_journal _ _ _ _ Ha) as (fd & i & x & Hj). pose proof (jf_wf _ _ _ _ _ _ Hj) as Hf.
  pose proof (Next_frame _ _ _ _ _ _ Hf EN) as F. rewrite (au_path _ Hau) in F.
  apply Next_run in EN as (Hf' & Hau' & Hle & Ea & Hr); [|done|done|by eapply jinv_last_u64, Ha].
  assert (a_path a1 = a_path (lr_authority r)) as Ep by (rewrite Ea; done).
  destruct (own_path_untouched _ _ _ _ _ _ Hc (untouched_frame _ _ _ _ _ _ _ _ Hj F (proj1 Hc) (λ E, Hd (eq_sym E)))) as [Hc' Ef].
  exists a1. split; [done|]. split; [by rewrite Ea|]. split; [|split; [done|]].
  - split; cbn; try done.
    + eapply applier_inv_frame; [done|done|apply Hp|apply Hp].
    + by rewrite Ef.
    + rewrite Ep. destruct Hp as (? & Ho & Has). split_and!; try done. by eapply aside_self.
    + by rewrite Ep.
  - intros v ->. destruct Hr as (Hinc & Ecur & _). pose proof (version_max_le (LastVersion (lr_journal r)) (a_current (lr_authority r))) as [Hm1 Hm2].
    apply increment_Ok in Hinc as (Hlt & Hu & _).
    2:{ apply version_max_u64; [by eapply jinv_last_u64, Ha|apply Hau]. }
    split_and!; [by eapply version_le_lt_trans|by eapply version_le_lt_trans|done|done].
Qed.

(** ** One mutation *)

Lemma counted_run {A} (m : M (lifecycleRuntime S * world) A) r w res r' w' :
  counted m (r, w) = (res, (r', w')) →
  ∃ r1, m (r, w) = (res, (r1, w')) ∧
    r' = match res with Ok _ => r1 | Err _ => set_metrics (runtime_add MutationErrors 1 (lr_metrics r1)) r1 end.
Proof.
  unfold counted, attempt. destruct (m (r, w)) as [[x|e] [r1 w1]]; intros HC; stop HC; by exists r1.
Qed.

Lemma in_applier_run {A} (m : M (Applier S * world) A) r w res r' w' :
  in_applier m (r, w) = (res, (r', w')) → ∃ a', m (lr_applier r, w) = (res, (a', w')) ∧ r' = set_applier a' r.
Proof.
  unfold in_applier, zoom. cbn. destruct (m _) as [x [a1 w1]]. intros [= <- <- <-]. by exists a1.
Qed.

(** What a mutation that failed leaves behind: a torn append at worst. *)
Record not_mutated (r r' : lifecycleRuntime S) (w' : world) : Prop := {
  nm_applier : unapplied (lr_applier r) (lr_applier r') w';
  nm_snapshot : lr_snapshot r' = lr_snapshot r;
  nm_current : version_le (a_current (lr_authority r)) (a_current (lr_authority r'));
  nm_metrics : lr_metrics r' = runtime_add MutationErrors 1 (runtime_add MutationsStarted 1 (lr_metrics r))
}.

(** The files and the limits that a runtime was opened with. *)
Record same_config (r r' : lifecycleRuntime S) : Prop := {
  sc_checkpoint : lr_checkpointPath r' = lr_checkpointPath r;
  sc_path : j_path (lr_journal r') = j_path (lr_journal r);
  sc_limits : j_limits (lr_journal r') = j_limits (lr_journal r)
}.

(** What a mutation that published [x] has done. *)
Record mutated (owned : bytes → Prop) (x : record) (r r' : lifecycleRuntime S) (w' : world) : Prop := {
  mu_inv : runtime_inv owned r' w';
  mu_config : same_config r r';
  mu_newer : version_lt (j_last (lr_journal r)) (RVersion x) ∧ version_lt (a_current (lr_authority r)) (RVersion x);
  mu_token : a_current (lr_authority r') = RVersion x ∧ AuthorityID x = a_authorityID (lr_authority r);
  mu_state : records (lr_state r') = <[key_of x := x]> (records (lr_state r));
  mu_journal : ∃ w1, jinv (lr_journal r) w1 ∧ Append x (lr_journal r, w1) = (Ok tt, (lr_journal r', w'));
  mu_blob : State x = StatePresent → verified (a_blobs (lr_applier r')) (w_fs w') (BlobKey x);
  mu_metrics : lr_metrics r' = runtime_add MutationsApplied 1 (runtime_add MutationsStarted 1 (lr_metrics r))
}.

(** Allocate, apply, count: the part that [put] and [delete] share. *)
Lemma mutation_run owned (mk : Version → bytes → record) sup r w res r' w' :
  runtime_inv owned r w → (∀ v id, RVersion (mk v id) = v ∧ AuthorityID (mk v id) = id) →
  let r0 := set_metrics (runtime_add MutationsStarted 1 (lr_metrics r)) r in
  (version <- counted nextVersion ;
   r <- self ;
   let record := mk version (a_authorityID (lr_authority r)) in
   result <- counted (in_applier (Applier_Apply [LifecycleCapabilityV1] record sup)) ;
   count_metric MutationsApplied ;;
   ret (record, result)) (r0, w) = (res, (r', w')) →
  match res with
  | Ok (x, result) => mutated owned x r r' w' ∧ result = mkApplyResult OutcomeApplied (RVersion x) ∧
      x = mk (RVersion x) (AuthorityID x)
  | Err _ => not_mutated r r' w'
  end.
Proof.
  intros Hi0 Hmk r0 HR. pose proof (runtime_inv_metrics _ (runtime_add MutationsStarted 1 (lr_metrics r)) _ _ Hi0) as Hi. fold r0 in Hi.
  step HR as v [r2 w2] E2; apply counted_run in E2 as (r1 & E1 & ->);
    apply (nextVersion_run _ _ _ _ _ _ Hi) in E1 as (a1 & -> & Eid & Hi1 & Hle & Hv).
  2:{ split; try done. cbn. destruct (applier_inv_wf _ _ _ _ (ri_applier _ _ _ Hi1)) as [_ Hs].
      apply (unapplied_step _ _ _ _ _ _ (ri_applier _ _ _ Hi1) Hs). }
  destruct (Hv v eq_refl) as (Hj & Hc & Ecur & Hu). clear Hv. step_Ok HR. cbv zeta in HR. cbn [fst] in HR.
  destruct (Hmk v (a_authorityID a1)) as [Ev Ei]. set (x := mk v _) in *. change (mk v _) with x in HR.
  step HR as result [r3 w3] E3; apply counted_run in E3 as (r4 & E4 & ->); apply in_applier_run in E4 as (a4 & E4 & ->);
    pose proof (untouched_Apply _ _ _ _ _ _ _ _ _ _ (lr_checkpointPath r) (ri_applier _ _ _ Hi1) E4 (proj1 (ri_checkpoint_path _ _ _ Hi1)) (proj1 (proj2 (ri_checkpoint_path _ _ _ Hi1)))) as Uc;
    pose proof (untouched_Apply _ _ _ _ _ _ _ _ _ _ (a_path a1) (ri_applier _ _ _ Hi1) E4 (proj1 (ri_authority_path _ _ _ Hi1)) (proj1 (proj2 (ri_authority_path _ _ _ Hi1)))) as Ua;
    pose proof (λ Hu, Applier_Apply_run _ _ _ _ _ _ _ _ _ _ (ri_applier _ _ _ Hi1) Hu E4) as HA.
  2:{ split; try done. apply HA. by rewrite Ev. }
  destruct HA as (_ & Hi4 & HC & Est & HA); [by rewrite Ev|]. step_Ok HR. injection HR as <- <- <-.
  assert (∀ y, records (lr_state r) !! key_of x = Some y → version_lt (RVersion y) (RVersion x)) as Hnew.
  { intros y Hy. rewrite Ev. eapply version_le_lt_trans; [|exact Hj]. by eapply (state_versions _ r). }
  apply Classify_newer in HC as [-> HS]; [|exact Hnew]. rewrite HS in Est. cbn in HA.
  rewrite bool_decide_eq_true_2 in HA by done. destruct HA as (w1 & Hj1 & HA).
  pose proof Hj1 as (fd & i & y & Hjf). pose proof (Append_Ok _ _ _ _ _ _ _ _ _ _ Hjf eq_refl ltac:(by rewrite Ev) HA) as (Ej & _ & _).
  split; [|split; [done|by rewrite Ev, Ei]]. split; cbn; try done.
  - destruct Hi1 as [Ha1 Hs1 Hau Hwb Hc1 Hp1 Hd1].
    destruct (own_path_untouched _ _ _ _ _ _ Hc1 Uc) as [Hc' Ef]. destruct (own_path_untouched _ _ _ _ _ _ Hp1 Ua) as [Hp' _].
    split; cbn; try done. unfold lr_journal. cbn in Ef |- *. rewrite Ef, Ej. exact Hs1.
  - split; [done|..]; unfold lr_journal; cbn; by rewrite Ej.
  - rewrite Ev. by split.
  - rewrite Ev, Ei. by split.
  - unfold lr_state. cbn. by rewrite Est.
  - by exists w1.
  - intros Hp. eapply (ai_present _ _ _ _ Hi4); [|exact Hp]. rewrite Est. cbn. apply lookup_insert_eq.
Qed.

Lemma put_run owned (r : lifecycleRuntime S) w namespace logicalKey data blobKey res r' w' :
  runtime_inv owned r w → put namespace logicalKey data blobKey (r, w) = (res, (r', w')) →
  match res with
  | Ok (x, result) =>
      mutated owned x r r' w' ∧ result = mkApplyResult OutcomeApplied (RVersion x) ∧
      x = mkRecord namespace logicalKey StatePresent (SHA256Key (default [] data)) (RVersion x) (AuthorityID x) ∧
      (∀ key, blobKey = Some key → key = SHA256Key (default [] data))
  | Err _ => not_mutated r r' w'
  end.
Proof.
  intros Hi Hrun. unfold put in Hrun. step_Ok Hrun. step_Ok Hrun. cbn [fst] in Hrun. set (r0 := set_metrics _ r) in *.
  assert (∀ w1, w_fs w1 = w_fs w → not_mutated r (set_metrics (runtime_add MutationErrors 1 (lr_metrics r0)) r0) w1) as Hnot.
  { intros w1 Ew. split; try done. cbn. pose proof (applier_inv_fs _ _ _ _ _ Ew (ri_applier _ _ _ Hi)) as Ha.
    split_and!; [done|done|apply Ha]. }
  step Hrun as [] [r1 w1] E1; apply counted_run in E1 as (r2 & E2 & ->); injection E2 as Ev <- <-; [|by apply Hnot].
  step Hrun as key [r1 w1] E1.
  - assert (r1 = r0 ∧ w1 = w ∧ key = SHA256Key (default [] data) ∧ ∀ k, blobKey = Some k → k = key) as (-> & -> & -> & Hk).
    { destruct blobKey as [k|]; [|by injection E1 as <- <- <-]. step E1 as [] [r2 w2] E2.
      apply counted_run in E2 as (r3 & E3 & ->). injection E3 as Ek <- <-. injection E1 as -> <- <-.
      apply VerifySHA256Key_Ok in Ek. split_and!; [done|done|done|]. by intros ? [= <-]. }
    pose proof (mutation_run owned (λ v id, mkRecord namespace logicalKey StatePresent (SHA256Key (default [] data)) v id)
      data r w res r' w' Hi (λ _ _, conj eq_refl eq_refl) Hrun) as HM.
    destruct res as [[x result]|e]; [|done]. destruct HM as (? & ? & ?). by split_and!.
  - destruct blobKey as [k|]; [|done]. step E1 as [] [r2 w2] E2; [done|].
    apply counted_run in E2 as (r3 & E3 & ->). injection E3 as _ <- <-. by apply Hnot.
Qed.
Lemma delete_run owned (r : lifecycleRuntime S) w namespace logicalKey res r' w' :
  runtime_inv owned r w → runtime_delete namespace logicalKey (r, w) = (res, (r', w')) →
  match res with
  | Ok (x, result) =>
      mutated owned x r r' w' ∧ result = mkApplyResult OutcomeApplied (RVersion x) ∧
      x = mkRecord namespace logicalKey StateDeleted [] (RVersion x) (AuthorityID x)
  | Err _ => not_mutated r r' w'
  end.
Proof.
  intros Hi Hrun. unfold runtime_delete in Hrun. step_Ok Hrun. step_Ok Hrun. cbn [fst] in Hrun.
  step Hrun as [] [r1 w1] E1; apply counted_run in E1 as (r2 & E2 & ->); injection E2 as Ev <- <-.
  - exact (mutation_run owned (λ v id, mkRecord namespace logicalKey StateDeleted [] v id) None r w res r' w' Hi (λ _ _, conj eq_refl eq_refl) Hrun).
  - split; try done. cbn. split_and!; [done|done|apply (ri_applier _ _ _ Hi)].
Qed.

(** ** Compaction *)

(** A published checkpoint and journal have files of their own. *)
Lemma publish_aside j w fd i x cp data floor rs j' w' u p :
  jfile j (w_fs w) fd i x [] → filepath_Clean cp ≠ filepath_Clean (j_path j) →
  publish cp data j floor rs (j, w) = (Ok u, (j', w')) → p ≠ filepath_Clean (j_path j) → aside p j' (w_fs w').
Proof.
  intros Hj Hcp HP Hp.
  destruct (publish_run _ _ _ _ _ _ _ _ _ _ _ _ _ _ Hj eq_refl HP) as (r & f2 & Hpub & [Ed _ _] & -> & -> & _ & Hfd & _).
  split; [done|]. intros i' fd' Hi' [= <-]. rewrite Hfd. intros [= <-]. rewrite Ed in Hi'.
  inversion Hpub as [|r' f' Hr]; subst. inversion Hr; subst. cbn in Hi'.
  rewrite lookup_insert_ne in Hi' by congruence. destruct (decide (p = filepath_Clean cp)) as [->|Hne].
  - rewrite lookup_insert_eq in Hi'. injection Hi' as Hbad. lia.
  - rewrite lookup_insert_ne in Hi' by congruence. apply (wf_dir _ (jf_wf _ _ _ _ _ _ Hj)) in Hi' as [y Hy].
    rewrite (wf_fresh_ino _ (jf_wf _ _ _ _ _ _ Hj)) in Hy; [done|lia].
Qed.

Lemma WatermarksAt_run b wb target w res w' :
  WatermarksAt b (Some wb) target w = (res, w') →
  w_fs w' = w_fs w ∧ ∀ vs, res = Ok vs → mb_configured b = true ∧
    Forall (λ m, version_le target (BookWatermark wb m)) (mb_members b).
Proof.
  intros HW. unfold WatermarksAt in HW. step HW as [] w1 E1; apply ctx_Err_fs in E1 as [Ew _]; [|done].
  destruct (IsZero target); [stop HW; done|]. destruct (mb_configured b); cbn [negb] in HW; [|stop HW; done].
  split.
  - rewrite <- Ew. clear Ew. revert w1 res HW. induction (mb_members b) as [|m ms IH]; intros w1 res HW; cbn [watermarks_loop] in HW; [by stop HW|].
    step HW as [] w2 E2; apply ctx_Err_fs in E2 as [Ew _]; rewrite <- Ew; [|done].
    destruct (_ <? 0) in HW; [by stop HW|]. step HW as rest w3 E3; [stop HW|]; by eapply IH.
  - intros vs ->. apply watermarks_loop_Ok in HW as [-> Hf]. split; [done|]. by rewrite Forall_fmap in Hf.
Qed.

(** With everything up to the last version in the prefix, nothing is kept. *)
Lemma compactable_no_tail j f fd i x req base prefix tail data :
  jfile j f fd i x [] → compactable j req base prefix tail data → CWatermark req = j_last j → tail = [].
Proof.
  intros Hj Hc Ew. destruct tail as [|y tail]; [done|]. exfalso. destruct (jfile_records _ _ _ _ _ _ Hj) as (_ & Hinc & _).
  apply increasing_le in Hinc as [_ Hle]. rewrite Forall_forall in Hle.
  assert (version_le (RVersion y) (j_last j)) as Hy.
  { rewrite (jf_last _ _ _ _ _ _ Hj). apply Hle. rewrite (cp_split _ _ _ _ _ _ Hc). set_solver. }
  pose proof (cp_tail _ _ _ _ _ _ Hc) as Ht. rewrite Ew in Ht. by apply version_nlt in Hy.
Qed.

Lemma compact_run owned r w res r' w' :
  runtime_inv owned r w → compact (r, w) = (res, (r', w')) →
  match res with
  | Ok _ =>
      runtime_inv owned r' w' ∧ lr_state r' = lr_state r ∧
      lr_snapshot r' = Some (mkCheckpoint (j_last (lr_journal r)) (Snapshot (lr_state r))) ∧
      j_records (lr_journal r') = [] ∧ j_floor (lr_journal r') = j_last (lr_journal r) ∧
      j_last (lr_journal r') = j_last (lr_journal r) ∧
      version_lt (j_floor (lr_journal r)) (j_floor (lr_journal r')) ∧ mb_configured (lr_membership r) = true ∧
      Forall (λ m, version_le (j_floor (lr_journal r')) (BookWatermark (lr_watermarks r) m)) (mb_members (lr_membership r)) ∧
      same_config r r'
  | Err _ => r' = r
  end.
Proof.
  intros Hi HC. unfold compact in HC. step_Ok HC. cbv zeta in HC. cbn [fst] in HC.
  destruct (_ <=? 0) eqn:Ep in HC; [by stop HC|].
  step HC as vs [r1 w1] E1; apply io_eq in E1 as [-> E1]; apply WatermarksAt_run in E1 as [Ew Hvs]; [|done].
  destruct (Hvs vs eq_refl) as [Hconf Hmem].
  pose proof Hi as [Ha Hs Hau Hwb Hcp Hap Hd]. pose proof (applier_inv_fs _ _ _ _ _ Ew Ha) as Ha1.
  pose proof Ha1 as [(fd & i & x & Hj) Est Hb Hpr Hown].
  step HC as [] [r2 w2] E2; apply in_applier_run in E2 as (a2 & E2 & ->); unfold in_journal, zoom in E2; cbn [fst snd] in E2;
    destruct (Compact _ _) as [rC [j2 w3]] eqn:EC; injection E2 as -> <- <-.
  2:{ assert (j2 = lr_journal r) as ->.
      { destruct (Compact_run _ _ _ _ _ _ _ _ _ _ Hj eq_refl EC) as [(e' & _ & -> & _)|(base & prefix & tail & data & w4 & Hc & Hw4 & HP)]; [done|].
        by apply (publish_run _ _ _ _ _ _ _ _ _ _ _ _ _ _ Hj Hw4) in HP as (? & ? & _ & _ & ->). }
      by destruct r as [? ? ? ? ? [] ? ?]. }
  stop HC.
  destruct (Compact_run _ _ _ _ _ _ _ _ _ _ Hj eq_refl EC) as [(? & ? & _)|(base & prefix & tail & data & w4 & Hc & Hw4 & HP)]; [done|].
  pose proof (compactable_no_tail _ _ _ _ _ _ _ _ _ _ Hj Hc eq_refl) as ->. rewrite <- Hw4 in Hj, Hb, Hpr.
  pose proof (jinv_last_u64 _ _ (ai_journal _ _ _ _ Ha)) as Hu. cbn [CheckpointPath CWatermark] in *.
  pose proof Hcp as (Ecl & Hno & _).
  destruct (publish_blobs _ _ _ _ _ _ _ _ _ _ _ _ _ Hj Hb (λ s Es, eq_ind_r (λ o, ¬ o (filepath_Clean (lr_checkpointPath r))) (eq_ind_r (λ p, ¬ owned p) Hno Ecl) (Hown s Es)) HP) as [Ho Hb2].
  destruct (verified_other _ _ _ _ Hb Ho) as [Hm _].
  pose proof (λ p, publish_aside _ _ _ _ _ _ _ _ _ _ _ _ p Hj (cp_path _ _ _ _ _ _ Hc) HP) as Has.
  apply (publish_jfile _ _ _ _ _ _ _ _ _ _ _ _ _ _ Hj) in HP as (-> & Hfile & i' & x' & Hj');
    [|done|apply Hc|done|by apply Forall_nil_2|done|apply len_nonneg].
  destruct (cp_data _ _ _ _ _ _ Hc) as [l Hdata]. cbn [CWatermark CReqRecords] in Hdata.
  destruct (state_wf _ _ _ _ Ha) as (Hst & El & _). fold (lr_state r) in Hst, El. pose proof (Snapshot_sorted (lr_state r)) as Hsort.
  assert (sort_records (Snapshot (lr_state r)) = Snapshot (lr_state r)) as Eid.
  { apply sort_records_id; [by apply Snapshot_NoDup|done]. }
  cbn [CRecords] in Hdata. rewrite !Eid in Hdata. apply decodeCheckpoint_encode in Hdata as Hdec; [|done|].
  2:{ apply Forall_forall. intros y Hy. apply elem_of_Snapshot in Hy; [|done]. by eapply (state_versions _ r). }
  cbn [Watermark CRecords] in Hdec. rewrite (jf_limits _ _ _ _ _ _ Hj), Eid in Hdec.
  unfold lr_state, lr_journal. cbn. split_and!; try done; [|apply Compare_gt, Z.leb_gt, Ep].
  split; unfold lr_journal; cbn; try done.
  - split; cbn; [by eexists _, _, _| |by apply Hb2|by eapply present_mono|done].
    rewrite app_nil_r. symmetry. rewrite <- El. by apply apply_all_Snapshot.
  - split; [done|]. exists data. by rewrite Hfile.
  - split_and!; [done|done|apply Has, Hcp].
  - destruct Hap as (? & ? & [? _]). split_and!; [done|done|by apply Has].
Qed.

(** ** Opening *)

(** A successful [OpenJournal] works on one file: the one that was at its path,
    or a new one. *)
Lemma OpenJournal_file path options w j rec w' :
  fs_wf (w_fs w) → OpenJournal path options w = (Ok (j, rec), w') →
  let p := filepath_Clean path in
  j_limits j = normalized (OLimits options) ∧
  ∃ fd i, j_file j = Some fd ∧ fs_fds (w_fs w') !! fd = Some i ∧
    (fs_dir (w_fs w) !! Named p = Some i ∨ fs_ino (w_fs w) !! i = None) ∧
    (∀ q, q ≠ p → fs_dir (w_fs w') !! Named q = fs_dir (w_fs w) !! Named q) ∧
    (∀ i', i' ≠ i → fs_ino (w_fs w') !! i' = fs_ino (w_fs w) !! i').
Proof.
  intros Hf HO p. unfold OpenJournal in HO. case_bool_decide; [stop HO|].
  step HO as opts w0 E0. apply lift_Ok in E0 as [Eo ->]. step HO as fd w1 E1.
  assert (OLimits opts = normalized (OLimits options)) as El.
  { unfold options_normalized in Eo. rewrite !guard_Ok in Eo. by destruct Eo as (_ & _ & [= <-]). }
  assert (∃ i, fd = fs_next (w_fs w) ∧ fs_fds (w_fs w1) !! fd = Some i ∧
    (fs_dir (w_fs w) !! Named p = Some i ∨ fs_ino (w_fs w) !! i = None) ∧
    (∀ q, q ≠ p → fs_dir (w_fs w1) !! Named q = fs_dir (w_fs w) !! Named q) ∧
    (∀ i', i' ≠ i → fs_ino (w_fs w1) !! i' = fs_ino (w_fs w) !! i')) as (i & _ & Hfd & Hi & Hd & Hino).
  { unfold os_Open in E1. apply syscall_inv in E1 as [[Ee _]|E1]; [done|]. cbv zeta in E1. fold p in E1.
    destruct (fs_dir (w_fs w) !! Named p) as [i|] eqn:Ei; injection E1 as <- <-.
    - exists i. cbn. rewrite lookup_insert_eq. split_and!; try done. by left.
    - exists (fs_next (w_fs w)). cbn. rewrite lookup_insert_eq. split_and!; try done.
      + right. by apply (wf_fresh_ino _ Hf).
      + intros q Hq. rewrite lookup_insert_ne; congruence.
      + intros i' Hne. by rewrite lookup_insert_ne. }
  assert (∃ g, (j_file j = Some fd ∧ j_limits j = OLimits opts) ∧ w_fs w' = upd_ino g i (w_fs w1)) as (g & [Ef Ej] & ->).
  { apply on_error_Ok_inv in HO. step HO as size w2 E2. eapply file_Size_fs in E2 as [Ew2 _]; [|done].
    destruct (_ <? _) in HO; [stop HO|]. destruct (_ =? 0) in HO.
    - step HO as [] w3 E3. eapply writeFull_inv in E3 as (n & _ & Ew3 & _); [|by rewrite Ew2].
      step HO as [] w4 E4. apply (file_Sync_fs _ i) in E4; [|by rewrite Ew3, Ew2].
      step HO as [] w5 E5. apply file_Seek_fs in E5. stop HO. eexists. split; [done|]. rewrite E5, E4, Ew3, Ew2.
      unfold synced, fs_append. by rewrite upd_ino_upd_ino.
    - step HO as data w3 E3. eapply readBounded_inv in E3 as [Ew3 _]; [|by rewrite Ew2].
      step HO as [[[floor rs] validSize] truncated] w4 E4. apply lift_Ok in E4 as [_ ->].
      step HO as [] w5 E5. step HO as [] w6 E6. apply file_Seek_fs in E6. destruct (_ <? _) in HO; [stop HO|]. stop HO.
      rewrite E6. destruct truncated.
      + step E5 as [] w7 E7. apply (file_Truncate_fs _ i) in E7; [|by rewrite Ew3, Ew2].
        apply (file_Sync_fs _ i) in E5; [|by rewrite E7, Ew3, Ew2]. eexists. split; [done|]. rewrite E5, E7, Ew3, Ew2.
        unfold synced. by rewrite upd_ino_upd_ino.
      + stop E5. exists id. split; [done|]. rewrite Ew3, Ew2. symmetry. apply upd_ino_id. }
  split; [congruence|]. exists fd, i. cbn. split_and!; try done. intros i' Hne. rewrite lookup_alter_ne by done. by apply Hino.
Qed.

Lemma OpenAuthority_frame random path id options w res w' :
  fs_wf (w_fs w) → OpenAuthority random path id options w = (res, w') →
  fs_frame (eq (filepath_Clean path)) (w_fs w) (w_fs w').
Proof.
  intros Hf HO. unfold OpenAuthority in HO. case_bool_decide; [stop HO; by apply fs_frame_refl|]. cbv zeta in HO.
  step HO as [] w1 E1; injection E1 as _ <-; [|by apply fs_frame_refl].
  step HO as [] w1 E1; apply ctx_Err_fs in E1 as [Ew1 _]; [|rewrite Ew1; by apply fs_frame_refl].
  step HO as loaded w2 E2; apply loadState_run in E2 as [Ew2 _]; rewrite Ew1 in Ew2; [|rewrite Ew2; by apply fs_frame_refl].
  assert (∀ a, a_path a = path → (persistAuthority a ;; ret a) w2 = (res, w') → fs_frame (eq (filepath_Clean path)) (w_fs w) (w_fs w')) as HP.
  { intros a <- HP. rewrite <- Ew2 in Hf |- *. step HP as [] w3 E3; apply persistState_frame in E3; try done. by injection HP as _ <-. }
  destruct loaded as [state|].
  - destruct (negb _); [stop HO; rewrite Ew2; by apply fs_frame_refl|].
    step HO as [] w3 E3; injection E3 as _ <-; [|rewrite Ew2; by apply fs_frame_refl].
    destruct (0 <? _) in HO; [|stop HO; rewrite Ew2; by apply fs_frame_refl].
    destruct (_ =? 0) in HO; [stop HO; rewrite Ew2; by apply fs_frame_refl|]. by eapply HP, HO.
  - step HO as current w3 E3; injection E3 as _ <-; [|rewrite Ew2; by apply fs_frame_refl]. by eapply HP, HO.
Qed.

Lemma OpenMembershipBook_fs path options w b w' :
  OpenMembershipBook path options w = (Ok b, w') → w_fs w' = w_fs w ∧ mb_path b = path.
Proof.
  intros HO. unfold OpenMembershipBook in HO. case_bool_decide; [stop HO|]. cbv zeta in HO.
  step HO as loaded w1 E1. apply loadState_run in E1 as [Ew _]. destruct loaded as [state|]; [|stop HO; by split].
  destruct (normalizeMembers _ _) in HO; stop HO. by split.
Qed.
Lemma Replace_frame members b w res b' w' :
  fs_wf (w_fs w) → Replace members (b, w) = (res, (b', w')) → fs_frame (eq (filepath_Clean (mb_path b))) (w_fs w) (w_fs w').
Proof.
  intros Hf HR. unfold Replace in HR.
  step HR as [] [b1 w1] E1; apply io_eq in E1 as [-> E1]; apply ctx_Err_fs in E1 as [Ew _]; rewrite <- Ew in *; [|by apply fs_frame_refl].
  step_Ok HR. cbn [fst] in HR. step HR as out [b2 w2] E2; injection E2 as _ <- <-; [|by apply fs_frame_refl].
  step HR as [] [b3 w3] E3; apply io_eq in E3 as [-> E3]; apply persistState_frame in E3; try done. by injection HR as _ _ <-.
Qed.

Lemma wrap_Ok {T A} (m : M T A) t a t' : wrap m t = (Ok a, t') → m t = (Ok a, t').
Proof. unfold wrap, attempt. destruct (m t) as [[x|e] t1]; intros HW; stop HW. done. Qed.

Lemma restoring_frame owned j s st f f' p :
  restoring owned j s st f → fs_frame (eq p) f f' → p ≠ filepath_Clean (j_path j) → ¬ owned p → restoring owned j s st f'.
Proof.
  intros [(fd & i & x & Hj) Hb Ho Hp] F Hne Hfor.
  destruct (blobs_frame _ _ _ _ _ _ _ _ _ Hj Hb (λ s' E, eq_trans (f_equal bs_owns (eq_sym (Some_inj _ _ E))) Ho) F Hfor) as [Hb' Hm].
  split; [exists fd, i, x; by eapply jfile_frame|done|done|by eapply present_mono].
Qed.
Lemma own_path_frame owned O p j s st f f' :
  restoring owned j s st f → fs_frame O f f' → ¬ O p → own_path owned p j f →
  own_path owned p j f' ∧ file_at f' p = file_at f p.
Proof.
  intros [(fd & i & x & Hj) _ _ _] F Hp Ho. eapply own_path_untouched; [done|].
  eapply untouched_frame; [done|done|apply Ho|done].
Qed.
Lemma own_path_self owned p j s st f f' :
  restoring owned j s st f → fs_frame (eq p) f f' → own_path owned p j f → own_path owned p j f'.
Proof. intros [(fd & i & x & Hj) _ _ _] F (? & ? & ?). split_and!; [done|done|by eapply aside_self]. Qed.

Lemma names_plain n : n ∈ [journalName; authorityName; watermarksName; membershipName; checkpointName] → plain n.
Proof.
  intros Hn. repeat (apply elem_of_cons in Hn as [->|Hn]; [split_and!; [unfold slash; decide_now|done|done|done]|]).
  by apply elem_of_nil in Hn.
Qed.
Lemma Join_ne d n n' :
  d ≠ [] → n ∈ [journalName; authorityName; watermarksName; membershipName; checkpointName] →
  n' ∈ [journalName; authorityName; watermarksName; membershipName; checkpointName] → n ≠ n' →
  filepath_Join d n ≠ filepath_Join d n'.
Proof. intros Hd Hn Hn' Hne E. by apply Hne, (Join_inj d); [| apply names_plain..|]. Qed.

(** The state files behind the journal. *)
Definition beside (owned : bytes → Prop) (d : bytes) (j : Journal) (f : fs) : Prop :=
  ∀ n, n ∈ [authorityName; watermarksName; membershipName; checkpointName] → own_path owned (filepath_Join d n) j f.

Lemma beside_frame owned d j s st f f' n :
  d ≠ [] → n ∈ [authorityName; watermarksName; membershipName; checkpointName] →
  restoring owned j s st f → fs_frame (eq (filepath_Join d n)) f f' → beside owned d j f →
  restoring owned j s st f' ∧ beside owned d j f' ∧
  ∀ n', n' ∈ [authorityName; watermarksName; membershipName; checkpointName] → n' ≠ n →
    file_at f' (filepath_Join d n') = file_at f (filepath_Join d n').
Proof.
  intros Hd Hn Hg F Hb. destruct (Hb n Hn) as (? & Hno & Has & _).
  assert (∀ n', n' ∈ [authorityName; watermarksName; membershipName; checkpointName] → n' ≠ n →
    filepath_Join d n ≠ filepath_Join d n') as Hne.
  { intros n' Hn' Hne. apply Join_ne; [done|by right|by right|done]. }
  split_and!.
  - by eapply restoring_frame.
  - intros n' Hn'. destruct (decide (n' = n)) as [->|Hne']; [by eapply own_path_self, Hb|].
    eapply own_path_frame; [done|done| |by apply Hb]. intros E. by apply (Hne n').
  - intros n' Hn' Hne'. eapply own_path_frame; [done|done| |by apply Hb]. intros E. by apply (Hne n').
Qed.

Lemma openParts_run owned random c peerID j s w r b w' :
  lc_dir c ≠ [] → random_ok random → restoring owned j s (NewStore (lc_recordLimits c)) (w_fs w) →
  beside owned (lc_dir c) j (w_fs w) → j_limits j = normalized (lc_recordLimits c) →
  openParts random c peerID j (Some s, w) = (Ok r, (b, w')) →
  runtime_inv owned r w' ∧ lr_journal r = j ∧ lr_checkpointPath r = filepath_Join (lc_dir c) checkpointName ∧
  a_authorityID (lr_authority r) = peerID ∧
  version_le (j_last j) (a_current (lr_authority r)) ∧ adopts (w_fs w) (lr_authority r) ∧
  snapshot_saved (j_limits j) (j_floor j) (lr_snapshot r) (file_at (w_fs w) (filepath_Join (lc_dir c) checkpointName)) ∧
  wb_saved (lr_watermarks r) (file_at (w_fs w) (filepath_Join (lc_dir c) watermarksName)).
Proof.
  intros Hd Hrnd Hg Hb El HO. unfold openParts in HO. set (d := lc_dir c) in *.
  assert (∀ n, n ∈ [authorityName; watermarksName; membershipName; checkpointName] → filepath_Clean (filepath_Join d n) = filepath_Join d n) as Hcl.
  { intros n Hn. apply Join_clean, names_plain; [done|by right]. }
  assert (authorityName ∈ [authorityName; watermarksName; membershipName; checkpointName]) as Na by set_solver.
  assert (watermarksName ∈ [authorityName; watermarksName; membershipName; checkpointName]) as Nw by set_solver.
  assert (membershipName ∈ [authorityName; watermarksName; membershipName; checkpointName]) as Nm by set_solver.
  assert (checkpointName ∈ [authorityName; watermarksName; membershipName; checkpointName]) as Nc by set_solver.
  pose proof (restoring_wf _ _ _ _ _ Hg) as Hf.
  step HO as a [b1 w1] E1. apply wrap_Ok, io_eq in E1 as [-> E1].
  pose proof (OpenAuthority_frame _ _ _ _ _ _ _ Hf E1) as F1. rewrite (Hcl _ Na) in F1.
  destruct (beside_frame _ _ _ _ _ _ _ _ Hd Na Hg F1 Hb) as (Hg1 & Hb1 & Hx1).
  apply OpenAuthority_run in E1 as (_ & [[? _]|(a0 & Hau & Epa & Eid & Ea & Had & Hob & _)]);
    [done| |done|by apply Hcl|done|destruct Hg as [(fd & i & x & Hj) _ _ _]; apply (jinv_last_u64 j w); by exists fd, i, x].
  rewrite <- (Ea a eq_refl) in *. clear Ea a0. cbn [Observed] in Hob.
  step HO as wm [b2 w2] E2. apply wrap_Ok, io_eq in E2 as [-> E2].
  apply OpenWatermarkBook_Ok in E2 as (_ & _ & Hwb & Ew2 & Hsw); [|by apply Hcl]. rewrite Hx1 in Hsw by done.
  step HO as mb0 [b3 w3] E3. apply wrap_Ok, io_eq in E3 as [-> E3]. apply OpenMembershipBook_fs in E3 as [Ew3 Emb]. rewrite Ew2 in Ew3.
  step HO as mb [b4 w4] E4.
  assert (b4 = Some s ∧ restoring owned j s (NewStore (lc_recordLimits c)) (w_fs w4) ∧ beside owned d j (w_fs w4) ∧
    file_at (w_fs w4) (filepath_Join d checkpointName) = file_at (w_fs w1) (filepath_Join d checkpointName)) as (-> & Hg4 & Hb4 & Hx4).
  { destruct (lc_membershipConfigured c); [|injection E4 as <- <- <-; by rewrite Ew3].
    apply wrap_Ok, io_eq in E4 as [-> E4]. destruct (Replace _ _) as [rr [b5 w5]] eqn:ER.
    assert (w5 = w4) as -> by (destruct rr; by simplify_eq). apply Replace_frame in ER; [|rewrite Ew3; by eapply restoring_wf].
    rewrite Emb, (Hcl _ Nm), Ew3 in ER. destruct (beside_frame _ _ _ _ _ _ _ _ Hd Nm Hg1 ER Hb1) as (? & ? & Hx). split_and!; auto. }
  rewrite Hx1 in Hx4 by done. step HO as [st snap] [b5 w5] E5. cbv zeta in E5.
  apply (restoreState_run _ _ _ _ _ _ _ _ _ Hg4) in E5 as (s5 & -> & F5 & Hr5). destruct (Hr5 st snap eq_refl) as (Hg5 & Est & Hsnap).
  destruct (own_path_frame _ _ _ _ _ _ _ _ Hg4 F5 (proj1 (proj2 (Hb4 _ Na))) (Hb4 _ Na)) as [Ha5 _].
  destruct (own_path_frame _ _ _ _ _ _ _ _ Hg4 F5 (proj1 (proj2 (Hb4 _ Nc))) (Hb4 _ Nc)) as [Hc5 Hx5].
  step_Ok HO. cbn [fst NewApplier] in HO. step_Ok HO. step_Ok HO. stop HO. rewrite Hx4 in Hsnap. rewrite <- El in Hsnap.
  unfold lr_journal. cbn. split_and!; try done. destruct Hg5 as [Hj5 Hbl Ho Hpv].
  split; cbn; try done.
  - split; cbn; [done| |done|done|by intros ? [= <-]]. by rewrite El, NewStore_normalized.
  - rewrite <- Hx4, <- Hx5 in Hsnap. exact Hsnap.
  - by rewrite Epa.
  - rewrite Epa. apply (Join_ne d checkpointName authorityName); [done|by right|by right|done].
Qed.

(** A store and a state directory that can be opened together: the store owns
    none of the state files, and nothing else is linked to the journal's file. *)
Record openable (owned : bytes → Prop) (d : bytes) (s : S) (f : fs) : Prop := {
  op_wf : fs_wf f;
  op_store : bs_wf s f;
  op_owns : bs_owns s = owned;
  op_foreign : ∀ n, n ∈ [journalName; authorityName; watermarksName; membershipName; checkpointName] → ¬ owned (filepath_Join d n);
  op_unlinked : ∀ p i, fs_dir f !! Named p = Some i → fs_dir f !! Named (filepath_Join d journalName) = Some i →
    p = filepath_Join d journalName
}.

Lemma OpenJournal_beside owned d s options st w j rec w' :
  d ≠ [] → openable owned d s (w_fs w) → records st = ∅ →
  OpenJournal (filepath_Join d journalName) options w = (Ok (j, rec), w') →
  restoring owned j s st (w_fs w') ∧ beside owned d j (w_fs w') ∧ j_limits j = normalized (OLimits options) ∧
  ∀ n, n ∈ [authorityName; watermarksName; membershipName; checkpointName] →
    file_at (w_fs w') (filepath_Join d n) = file_at (w_fs w) (filepath_Join d n).
Proof.
  intros Hd [Hf Hw Hown Hfor Hun] Hst HO. set (jp := filepath_Join d journalName) in *.
  pose proof (OpenJournal_Ok _ _ _ _ _ _ Hf HO) as (Epath & (fd & i & x & Hj) & _).
  apply OpenJournal_file in HO as (El & fd' & i' & Efd & Hfd & Hi & Hdir & Hino); [|done].
  assert (fd' = fd) as -> by (rewrite (jf_file _ _ _ _ _ _ Hj) in Efd; congruence).
  assert (i' = i) as -> by (rewrite (jf_fd _ _ _ _ _ _ Hj) in Hfd; congruence). clear Efd Hfd.
  assert (filepath_Clean jp = jp) as Ecl by (apply Join_clean, names_plain; set_solver).
  rewrite Ecl in *.
  assert (∀ p k, p ≠ jp → fs_dir (w_fs w) !! Named p = Some k → k ≠ i) as Hsep.
  { intros p k Hp Hk ->. destruct Hi as [Hi|Hi]; [by apply Hp, (Hun p i)|]. apply (wf_dir _ Hf) in Hk as [y Hy]. by rewrite Hi in Hy. }
  assert (¬ owned jp) as Hjp by (apply Hfor; set_solver).
  assert (∀ p fd1 k, p ≠ jp → fs_dir (w_fs w') !! Named p = Some k → j_file j = Some fd1 → fs_fds (w_fs w') !! fd1 ≠ Some k) as Has.
  { intros p fd1 k Hp Hk Hfd1. rewrite (jf_file _ _ _ _ _ _ Hj) in Hfd1. injection Hfd1 as <-.
    rewrite (jf_fd _ _ _ _ _ _ Hj). intros [= <-]. rewrite Hdir in Hk by done. by eapply Hsep. }
  assert (∀ n, n ∈ [authorityName; watermarksName; membershipName; checkpointName] → filepath_Join d n ≠ jp) as Hne.
  { intros n Hn. apply Join_ne; [done|by right|by left|]. intros ->. revert Hn. decide_now. }
  split_and!; [| |done|].
  - destruct (bs_stable s (w_fs w) (w_fs w')) as [Hw' _]; [done| |].
    { rewrite Hown. split; [intros p Hp; apply Hdir; by intros ->|]. intros p k Hp Hk. apply Hino. eapply Hsep; [|done]. by intros ->. }
    split; [by exists fd, i, x| |done|]; rewrite ?Hst.
    + split; [done|]. unfold separate. rewrite Hown, Epath, Ecl. split; [done|]. intros p k fd1 Hp. apply Has. by intros ->.
    + intros k r Hr. by rewrite Hst, lookup_empty in Hr.
  - intros n Hn. split_and!; [apply Join_clean, names_plain; [done|by right]|apply Hfor; by right|].
    unfold aside. rewrite Epath, Ecl. split; [by apply Hne|]. intros k fd1. by apply Has, Hne.
  - intros n Hn. unfold file_at, file_data. rewrite (Join_clean d n) by (done || apply names_plain; by right).
    rewrite Hdir by by apply Hne. destruct (fs_dir (w_fs w) !! Named (filepath_Join d n)) as [k|] eqn:Ek; [|done]. rewrite Hino; [done|]. eapply Hsep; [|done]. by apply Hne.
Qed.

Lemma open_run owned random c token peerID s w r b w' :
  openable owned (lc_dir c) s (w_fs w) → random_ok random →
  openLifecycleRuntime random c token peerID (Some s, w) = (Ok (Some r), (b, w')) →
  let at_dir n := file_at (w_fs w) (filepath_Join (lc_dir c) n) in
  runtime_inv owned r w' ∧ j_path (lr_journal r) = filepath_Join (lc_dir c) journalName ∧
  j_limits (lr_journal r) = normalized (lc_recordLimits c) ∧
  lr_checkpointPath r = filepath_Join (lc_dir c) checkpointName ∧
  a_authorityID (lr_authority r) = peerID ∧ version_le (j_last (lr_journal r)) (a_current (lr_authority r)) ∧
  snapshot_saved (j_limits (lr_journal r)) (j_floor (lr_journal r)) (lr_snapshot r) (at_dir checkpointName) ∧
  wb_saved (lr_watermarks r) (at_dir watermarksName) ∧
  match default [] (at_dir journalName) with
  | [] => j_floor (lr_journal r) = zero_version ∧ j_records (lr_journal r) = []
  | data => ∃ size truncated, parseJournal data (j_limits (lr_journal r)) = Ok (j_floor (lr_journal r), j_records (lr_journal r), size, truncated)
  end.
Proof.
  intros Hop Hrnd HO at_dir. unfold openLifecycleRuntime in HO. destruct (lc_enabled c) eqn:Een; cbn [negb] in HO; [|stop HO].
  step_Ok HO. cbn [fst] in HO. step HO as [] [b1 w1] E1. injection E1 as Ev <- <-.
  assert (lc_dir c ≠ []) as Hd.
  { unfold config_validate in Ev. rewrite Een in Ev. cbn [negb] in Ev. apply guard_Ok in Ev as [Ev _]. by apply bool_decide_eq_false in Ev. }
  step HO as [] [b1 w1] E1. apply wrap_Ok, io_eq in E1 as [-> E1].
  assert (w_fs w1 = w_fs w) as Ew by (apply syscall_inv in E1 as [[_ ->]|E1]; congruence).
  step HO as [j rec] [b2 w2] E2. apply wrap_Ok, io_eq in E2 as [-> E2]. rewrite <- Ew in Hop.
  destruct (OpenJournal_beside _ _ _ _ (NewStore (lc_recordLimits c)) _ _ _ _ Hd Hop eq_refl E2) as (Hg & Hb & El & Hx).
  apply OpenJournal_Ok in E2 as (Ep & _ & _ & Hparse); [|apply Hop]. rewrite Ew in *.
  step HO as rt [b3 w3] E3. stop HO. apply on_error_Ok_inv in E3. cbn [OLimits] in El.
  destruct (openParts_run _ _ _ _ _ _ _ _ _ _ Hd Hrnd Hg Hb El E3) as (Hi & Ej & Ec & Hid & Hle & _ & Hsn & Hws).
  rewrite Ej. rewrite Hx in Hsn, Hws by set_solver. split_and!; try done.
  unfold at_dir. destruct (default [] _) as [|]; [by destruct Hparse as (? & ? & _)|]. by eexists _, _.
Qed.
End runtime_inv.
(** ** Properties *)

(** Opening a state directory gives a runtime that satisfies the invariant:
    the state is what replaying the checkpoint and the journal gives, every
    present record has its verified blob, the in-memory snapshot is the one in
    the checkpoint file and lies at the journal's floor.  Nothing is invented:
    floor and records are what the journal file parses to, the snapshot is what
    the checkpoint file decodes to, the acknowledgements are the saved ones, the
    authority is the peer's own and not behind the journal. *)
Theorem open_establishes `{UnicodePrint} {S : Type} `{BlobStoreSpec S} owned random c token peerID (s : S) w r b w'
    (Hop : openable owned (lc_dir c) s (w_fs w)) (Hrandom : random_ok random)
    (Hrun : openLifecycleRuntime random c token peerID (Some s, w) = (Ok (Some r), (b, w'))) :
  let at_dir n := file_at (w_fs w) (filepath_Join (lc_dir c) n) in
  runtime_inv owned r w' ∧ j_path (lr_journal r) = filepath_Join (lc_dir c) journalName ∧
  j_limits (lr_journal r) = normalized (lc_recordLimits c) ∧
  lr_checkpointPath r = filepath_Join (lc_dir c) checkpointName ∧
  a_authorityID (lr_authority r) = peerID ∧ version_le (j_last (lr_journal r)) (a_current (lr_authority r)) ∧
  snapshot_saved (j_limits (lr_journal r)) (j_floor (lr_journal r)) (lr_snapshot r) (at_dir checkpointName) ∧
  wb_saved (lr_watermarks r) (at_dir watermarksName) ∧
  match default [] (at_dir journalName) with
  | [] => j_floor (lr_journal r) = zero_version ∧ j_records (lr_journal r) = []
  | data => ∃ size truncated, parseJournal data (j_limits (lr_journal r)) = Ok (j_floor (lr_journal r), j_records (lr_journal r), size, truncated)
  end.
Proof. exact (open_run _ _ _ _ _ _ _ _ _ _ Hop Hrandom Hrun). Qed.

(** ** Restarts *)

(** A start over the journal and checkpoint files of a runtime within its
    invariant, with the same record limits. *)
Lemma reopen_runtime_same `{UnicodePrint} {S : Type} `{BlobStoreSpec S} owned0 owned (r0 : lifecycleRuntime S) w0
    random c token peerID (s : S) w r b w'
    (Hi : runtime_inv owned0 r0 w0) (Hop : openable owned (lc_dir c) s (w_fs w)) (Hrandom : random_ok random)
    (Hlimits : normalized (lc_recordLimits c) = j_limits (lr_journal r0))
    (Hjournal : file_at (w_fs w) (filepath_Join (lc_dir c) journalName) = file_at (w_fs w0) (j_path (lr_journal r0)))
    (Hcheckpoint : file_at (w_fs w) (filepath_Join (lc_dir c) checkpointName) = file_at (w_fs w0) (lr_checkpointPath r0))
    (Hrun : openLifecycleRuntime random c token peerID (Some s, w) = (Ok (Some r), (b, w'))) :
  lr_state r = lr_state r0 ∧ lr_snapshot r = lr_snapshot r0 ∧
  j_records (lr_journal r) = j_records (lr_journal r0) ∧ j_floor (lr_journal r) = j_floor (lr_journal r0) ∧
  version_le (j_last (lr_journal r0)) (a_current (lr_authority r)).
Proof.
  destruct (open_run _ _ _ _ _ _ _ _ _ _ Hop Hrandom Hrun) as (Hr & _ & El & _ & _ & Hle & Hsn & _ & Hj).
  rewrite Hlimits in El. rewrite Hjournal, El in Hj. rewrite Hcheckpoint, El in Hsn.
  destruct Hi as [[(fd & i & x & Hjf) Est _ _ _] Hsn0 _ _ _ _ _]. unfold lr_journal in Hj, Hsn, Hsn0, Hle, El, Hlimits |- *.
  assert (file_at (w_fs w0) (j_path (a_journal (lr_applier r0))) = Some (i_data x)) as Ef.
  { unfold file_at, file_data. by rewrite (jf_dir _ _ _ _ _ _ Hjf), (jf_ino _ _ _ _ _ _ Hjf). }
  destruct (jf_parse _ _ _ _ _ _ Hjf) as (data & Ed & Hp). rewrite app_nil_r in Ed. rewrite Ef, Ed in Hj. cbn in Hj.
  assert (j_floor (a_journal (lr_applier r)) = j_floor (a_journal (lr_applier r0)) ∧
          j_records (a_journal (lr_applier r)) = j_records (a_journal (lr_applier r0))) as [Efl Erec].
  { destruct data as [|y data]; [done|]. destruct Hj as (size & tr & Hj). rewrite Hp in Hj. by simplify_eq. }
  rewrite Efl in Hsn. assert (lr_snapshot r = lr_snapshot r0) as Esn.
  { destruct (lr_snapshot r) as [k|], (lr_snapshot r0) as [k0|]; try done.
    - destruct Hsn as (_ & d & E1 & D1), Hsn0 as (_ & d0 & E0 & D0). rewrite E0 in E1. injection E1 as <-. congruence.
    - destruct Hsn as (_ & d & E1 & _), Hsn0 as (_ & E0). congruence.
    - destruct Hsn as (_ & E1), Hsn0 as (_ & d & E0 & _). congruence. }
  destruct Hr as [[(fd' & i' & x' & Hjf') Est' _ _ _] _ _ _ _ _ _]. unfold lr_state.
  rewrite Est, Est', El, Esn, Erec. split_and!; try done.
  rewrite (jf_last _ _ _ _ _ _ Hjf'), Efl, Erec in Hle. by rewrite (jf_last _ _ _ _ _ _ Hjf).
Qed.

(** The runtimes of one process: opened with the configuration [c], then any
    successful local writes, deletes and compactions.  Snapshots that peers send
    are not among them; see [Peers.installed_snapshot_not_served]. *)
Inductive lived `{UnicodePrint} {S : Type} `{BlobStoreSpec S} (owned : bytes → Prop) (c : lifecycleCLIConfig) (peerID : bytes)
    : lifecycleRuntime S → world → Prop :=
  | lived_open random token s w r b w' : openable owned (lc_dir c) s (w_fs w) → random_ok random →
      openLifecycleRuntime random c token peerID (Some s, w) = (Ok (Some r), (b, w')) → lived owned c peerID r w'
  | lived_put r w namespace logicalKey data blobKey x r' w' : lived owned c peerID r w →
      put namespace logicalKey data blobKey (r, w) = (Ok x, (r', w')) → lived owned c peerID r' w'
  | lived_delete r w namespace logicalKey x r' w' : lived owned c peerID r w →
      runtime_delete namespace logicalKey (r, w) = (Ok x, (r', w')) → lived owned c peerID r' w'
  | lived_compact r w x r' w' : lived owned c peerID r w → compact (r, w) = (Ok x, (r', w')) → lived owned c peerID r' w'.

Lemma lived_inv `{UnicodePrint} {S : Type} `{BlobStoreSpec S} owned c peerID (r : lifecycleRuntime S) w : lived owned c peerID r w →
  runtime_inv owned r w ∧ j_path (lr_journal r) = filepath_Join (lc_dir c) journalName ∧
  j_limits (lr_journal r) = normalized (lc_recordLimits c) ∧ lr_checkpointPath r = filepath_Join (lc_dir c) checkpointName.
Proof.
  assert (∀ r r' : lifecycleRuntime S, same_config r r' → ∀ p l q,
    j_path (lr_journal r) = p ∧ j_limits (lr_journal r) = l ∧ lr_checkpointPath r = q →
    j_path (lr_journal r') = p ∧ j_limits (lr_journal r') = l ∧ lr_checkpointPath r' = q) as Hsame.
  { intros ? ? [E1 E2 E3] p l q. by rewrite E1, E2, E3. }
  induction 1 as [random token s w r b w' Hop Hr Hrun|r w ns lk data bk [x result] r' w' _ [Hi Hc] Hrun|r w ns lk [x result] r' w' _ [Hi Hc] Hrun|r w x r' w' _ [Hi Hc] Hrun].
  - destruct (open_run _ _ _ _ _ _ _ _ _ _ Hop Hr Hrun) as (Hi & ? & ? & ? & _). done.
  - apply (put_run _ _ _ _ _ _ _ _ _ _ Hi) in Hrun as ([Hi' Hsc _ _ _ _ _ _] & _). split; [done|]. by apply (Hsame r).
  - apply (delete_run _ _ _ _ _ _ _ _ Hi) in Hrun as ([Hi' Hsc _ _ _ _ _ _] & _). split; [done|]. by apply (Hsame r).
  - apply (compact_run _ _ _ _ _ _ Hi) in Hrun as (Hi' & _ & _ & _ & _ & _ & _ & _ & _ & Hsc). split; [done|]. by apply (Hsame r).
Qed.

(** C6: A restart brings the same state back.  Take a runtime that was opened
    with a configuration and has since done any successful local writes, deletes
    and compactions, and a later start with the same directory and record limits,
    over the journal and checkpoint files that it left and a blob store that the
    directory is free of.  If that start succeeds it has the same logical state,
    the same journal records, the same floor and the same snapshot, and its
    authority is not behind the journal.  (Snapshots installed from peers are not
    local operations and are not covered.) *)
Theorem restart_same_state `{UnicodePrint} {S : Type} `{BlobStoreSpec S} owned0 owned c0 peerID0 (r0 : lifecycleRuntime S) w0
    random c token peerID (s : S) w r b w'
    (Hlife : lived owned0 c0 peerID0 r0 w0) (Hop : openable owned (lc_dir c) s (w_fs w)) (Hrandom : random_ok random)
    (Hdir : lc_dir c = lc_dir c0) (Hlimits : lc_recordLimits c = lc_recordLimits c0)
    (Hjournal : file_at (w_fs w) (filepath_Join (lc_dir c) journalName) = file_at (w_fs w0) (filepath_Join (lc_dir c) journalName))
    (Hcheckpoint : file_at (w_fs w) (filepath_Join (lc_dir c) checkpointName) = file_at (w_fs w0) (filepath_Join (lc_dir c) checkpointName))
    (Hrun : openLifecycleRuntime random c token peerID (Some s, w) = (Ok (Some r), (b, w'))) :
  lr_state r = lr_state r0 ∧ lr_snapshot r = lr_snapshot r0 ∧
  j_records (lr_journal r) = j_records (lr_journal r0) ∧ j_floor (lr_journal r) = j_floor (lr_journal r0) ∧
  version_le (j_last (lr_journal r0)) (a_current (lr_authority r)).
Proof.
  destruct (lived_inv _ _ _ _ _ Hlife) as (Hi & Ep & El & Ec).
  apply (reopen_runtime_same owned0 owned r0 w0 random c token peerID s w r b w'); try done; congruence.
Qed.

(** C5: A local write publishes one record, newest of all, or none.  A
    successful [put] has allocated a version above every version the journal and
    the authority have seen, so the outcome is always [OutcomeApplied]; the
    record names the data's digest and the runtime's own authority, it was
    appended durably before the state took it, the state differs in that key
    only, the blob is stored and matches, and the invariant holds again.  A
    failed one leaves the logical state, the journal in memory and the snapshot as
    they were, every present record of the state still has its verified blob, and
    the authority is not lowered; the new blob may be in the store by then, and the
    journal's file may hold an entry, or a part of one, that was not published.
    Either way one start and one end are counted. *)
Theorem put_publishes `{UnicodePrint} {S : Type} `{BlobStoreSpec S} owned (r : lifecycleRuntime S) w namespace logicalKey data blobKey res r' w'
    (Hi : runtime_inv owned r w) (Hrun : put namespace logicalKey data blobKey (r, w) = (res, (r', w'))) :
  match res with
  | Ok (x, result) =>
      mutated owned x r r' w' ∧ result = mkApplyResult OutcomeApplied (RVersion x) ∧
      x = mkRecord namespace logicalKey StatePresent (SHA256Key (default [] data)) (RVersion x) (AuthorityID x) ∧
      (∀ key, blobKey = Some key → key = SHA256Key (default [] data))
  | Err _ => not_mutated r r' w'
  end.
Proof. exact (put_run _ _ _ _ _ _ _ _ _ _ Hi Hrun). Qed.

(** A local delete publishes one tombstone, newest of all, or nothing: the
    key is deleted in the state at a version above every other, durably, with no
    blob; a failed one leaves state, journal and snapshot as they were. *)
Theorem delete_publishes `{UnicodePrint} {S : Type} `{BlobStoreSpec S} owned (r : lifecycleRuntime S) w namespace logicalKey res r' w'
    (Hi : runtime_inv owned r w) (Hrun : runtime_delete namespace logicalKey (r, w) = (res, (r', w'))) :
  match res with
  | Ok (x, result) =>
      mutated owned x r r' w' ∧ result = mkApplyResult OutcomeApplied (RVersion x) ∧
      x = mkRecord namespace logicalKey StateDeleted [] (RVersion x) (AuthorityID x)
  | Err _ => not_mutated r r' w'
  end.
Proof. exact (delete_run _ _ _ _ _ _ _ _ Hi Hrun). Qed.

(** C14: Compaction forgets history and nothing else.  A successful [compact] leaves
    the logical state as it was, writes it as the checkpoint that is now both in
    memory and in the file, empties the journal at the version it had reached,
    and was fenced: the membership was configured and every member had
    acknowledged everything that was dropped.  The invariant holds again; a
    failed [compact] leaves the runtime as it was. *)
Theorem compact_publishes `{UnicodePrint} {S : Type} `{BlobStoreSpec S} owned (r : lifecycleRuntime S) w res r' w'
    (Hi : runtime_inv owned r w) (Hrun : compact (r, w) = (res, (r', w'))) :
  match res with
  | Ok _ =>
      runtime_inv owned r' w' ∧ lr_state r' = lr_state r ∧
      lr_snapshot r' = Some (mkCheckpoint (j_last (lr_journal r)) (Snapshot (lr_state r))) ∧
      j_records (lr_journal r') = [] ∧ j_floor (lr_journal r') = j_last (lr_journal r) ∧
      j_last (lr_journal r') = j_last (lr_journal r) ∧
      version_lt (j_floor (lr_journal r)) (j_floor (lr_journal r')) ∧ mb_configured (lr_membership r) = true ∧
      Forall (λ m, version_le (j_floor (lr_journal r')) (BookWatermark (lr_watermarks r) m)) (mb_members (lr_membership r))
  | Err _ => r' = r
  end.
Proof. pose proof (compact_run _ _ _ _ _ _ Hi Hrun) as HC. destruct res; [|done]. destruct HC as (? & ? & ? & ? & ? & ? & ? & ? & ? & _). by split_and!. Qed.

(** *** Concrete runs *)

#[local] Existing Instance ascii_print.

Definition ex_cli : lifecycleCLIConfig :=
  mkCLIConfig true (lit "state") true [lit "node-b"] (mkRepairLimits 0 0 0 0 zero_limits) zero_limits (mkJournalOptions zero_limits 0 0).
Definition ex_random : result bytes := Ok (replicate 8 (Zbyte 1)).
Definition ex_blobs : MemoryStore (gset bytes) := mkMemoryStore ∅ None.
Definition ex_start_over (s : MemoryStore (gset bytes)) (w : world)
    : result (option (lifecycleRuntime (MemoryStore (gset bytes)))) * (option (MemoryStore (gset bytes)) * world) :=
  openLifecycleRuntime ex_random ex_cli (lit "token") (lit "node-a") (Some s, w).
Definition ex_start (w : world) : result (option (lifecycleRuntime (MemoryStore (gset bytes)))) * (option (MemoryStore (gset bytes)) * world) :=
  ex_start_over ex_blobs w.
Definition runtime_of (r : result (option (lifecycleRuntime (MemoryStore (gset bytes))))) : lifecycleRuntime (MemoryStore (gset bytes)) :=
  match r with
  | Ok (Some r) => r
  | _ => mkRuntime [] (mkRepairLimits 0 0 0 0 zero_limits) ex_auth ex_book ex_members ex_applier None (λ _, 0)
  end.
Definition started (r : result (option (lifecycleRuntime (MemoryStore (gset bytes))))) : bool :=
  match r with Ok (Some _) => true | _ => false end.
Lemma started_eq r : started r = true → r = Ok (Some (runtime_of r)).
Proof. by destruct r as [[r|]|e]. Qed.
Definition ex_runtime : lifecycleRuntime (MemoryStore (gset bytes)) := runtime_of (ex_start (ex_world [])).1.
Definition ex_runtime_world : world := (ex_start (ex_world [])).2.2.

Lemma ex_start_eq : ex_start (ex_world []) = (Ok (Some ex_runtime), ((ex_start (ex_world [])).2.1, ex_runtime_world)).
Proof.
  unfold ex_runtime, ex_runtime_world. assert (started (ex_start (ex_world [])).1 = true) as E by (vm_compute; reflexivity).
  exact (run_eq2 (ex_start (ex_world [])) _ (started_eq _ E)).
Qed.
Lemma ex_openable : openable (λ _, False) (lc_dir ex_cli) ex_blobs (w_fs (ex_world [])).
Proof. split; [apply fs_wf_empty|done|done|by intros ? ? ?|]. intros p i Hp. cbn in Hp. by rewrite lookup_empty in Hp. Qed.
Lemma ex_random_ok : random_ok ex_random.
Proof. intros raw [= <-]. reflexivity. Qed.

Lemma open_establishes_witness :
  ex_start (ex_world []) = (Ok (Some ex_runtime), ((ex_start (ex_world [])).2.1, ex_runtime_world)) ∧
  runtime_inv (λ _, False) ex_runtime ex_runtime_world.
Proof.
  split; [exact ex_start_eq|].
  exact (proj1 (open_establishes (λ _, False) ex_random ex_cli (lit "token") (lit "node-a") ex_blobs (ex_world []) ex_runtime
    (ex_start (ex_world [])).2.1 ex_runtime_world ex_openable ex_random_ok ex_start_eq)).
Defined.

Lemma ex_runtime_inv : runtime_inv (λ _, False) ex_runtime ex_runtime_world.
Proof. exact (proj1 (open_run _ _ _ _ _ _ _ _ _ _ ex_openable ex_random_ok ex_start_eq)). Qed.

#[local] Abbreviation ex_put := (put (lit "photos") (lit "a") (Some ex_blob) None (ex_runtime, ex_runtime_world)).
Definition ex_put_record : record :=
  match ex_put.1 with Ok (x, _) => x | Err _ => ex_deleted 97 1 end.

Lemma put_publishes_witness :
  ex_put.1 = Ok (ex_put_record, mkApplyResult OutcomeApplied (RVersion ex_put_record)) ∧
  mutated (λ _, False) ex_put_record ex_runtime ex_put.2.1 ex_put.2.2.
Proof.
  assert (ex_put.1 = Ok (ex_put_record, mkApplyResult OutcomeApplied (RVersion ex_put_record))) as E by (vm_compute; reflexivity).
  destruct (put_publishes (λ _, False) ex_runtime ex_runtime_world (lit "photos") (lit "a") (Some ex_blob) None
    (Ok (ex_put_record, mkApplyResult OutcomeApplied (RVersion ex_put_record))) ex_put.2.1 ex_put.2.2 ex_runtime_inv) as (Hm & _);
    [apply run_eq2; exact E|]. split; [exact E|exact Hm].
Defined.

Lemma ex_put_inv : runtime_inv (λ _, False) ex_put.2.1 ex_put.2.2.
Proof.
  pose proof (put_run (λ _, False) ex_runtime ex_runtime_world (lit "photos") (lit "a") (Some ex_blob) None
    (Ok (ex_put_record, mkApplyResult OutcomeApplied (RVersion ex_put_record))) ex_put.2.1 ex_put.2.2 ex_runtime_inv) as Hp.
  destruct Hp as ([Hi _ _ _ _ _ _] & _); [apply run_eq2; vm_compute; reflexivity|exact Hi].
Qed.

(** The key is deleted again. *)
#[local] Abbreviation ex_removed := (runtime_delete (lit "photos") (lit "a") ex_put.2).
Definition ex_tombstone : record := match ex_removed.1 with Ok (x, _) => x | Err _ => ex_deleted 97 1 end.

Lemma delete_publishes_witness :
  ex_removed.1 = Ok (ex_tombstone, mkApplyResult OutcomeApplied (RVersion ex_tombstone)) ∧
  mutated (λ _, False) ex_tombstone ex_put.2.1 ex_removed.2.1 ex_removed.2.2.
Proof.
  assert (ex_removed.1 = Ok (ex_tombstone, mkApplyResult OutcomeApplied (RVersion ex_tombstone))) as E by (vm_compute; reflexivity).
  destruct (delete_publishes (λ _, False) ex_put.2.1 ex_put.2.2 (lit "photos") (lit "a")
    (Ok (ex_tombstone, mkApplyResult OutcomeApplied (RVersion ex_tombstone))) ex_removed.2.1 ex_removed.2.2 ex_put_inv) as (Hm & _);
    [rewrite <- surjective_pairing; apply run_eq2; exact E|]. split; [exact E|exact Hm].
Defined.

(** The peer has acknowledged everything. *)
Definition ex_acks : WatermarkBook := set_watermarks {[ lit "node-b" := mkVersion MaxUint64 0 ]} (lr_watermarks ex_put.2.1).
Lemma ex_acks_wf : wb_wf ex_acks.
Proof.
  split; [vm_compute; reflexivity| |vm_compute; discriminate].
  intros k v. unfold ex_acks. cbn [set_watermarks wb_watermarks]. rewrite lookup_singleton_Some. intros [<- <-].
  split; [vm_compute; reflexivity|]. split; [done|decide_now].
Qed.
Definition ex_caught_up : lifecycleRuntime (MemoryStore (gset bytes)) := set_book ex_acks ex_put.2.1.
Lemma ex_caught_up_inv : runtime_inv (λ _, False) ex_caught_up ex_put.2.2.
Proof. exact (runtime_inv_book _ _ _ _ ex_put_inv ex_acks_wf). Qed.

Definition ex_put_world : world := ex_put.2.2.
Lemma ex_put_world_inv : runtime_inv (λ _, False) ex_caught_up ex_put_world.
Proof. exact ex_caught_up_inv. Qed.

#[local] Abbreviation ex_compact := (compact (ex_caught_up, ex_put.2.2)).
Lemma compact_publishes_witness :
  ex_compact.1 = Ok tt ∧ runtime_inv (λ _, False) ex_compact.2.1 ex_compact.2.2 ∧ lr_state ex_compact.2.1 = lr_state ex_caught_up.
Proof.
  assert (ex_compact.1 = Ok tt) as E by (vm_compute; reflexivity).
  destruct (compact_publishes (λ _, False) ex_caught_up ex_put.2.2 (Ok tt) ex_compact.2.1 ex_compact.2.2 ex_caught_up_inv) as (Hi & Es & _);
    [apply run_eq2; exact E|]. split; [exact E|]. split; [exact Hi|exact Es].
Defined.

(** A restart over the compacted directory. *)
Lemma ex_compact_inv : runtime_inv (λ _, False) ex_compact.2.1 ex_compact.2.2.
Proof.
  pose proof (compact_run (λ _, False) ex_caught_up ex_put.2.2 (Ok tt) ex_compact.2.1 ex_compact.2.2 ex_caught_up_inv) as Hc.
  destruct Hc as (Hi & _); [apply run_eq2; vm_compute; reflexivity|exact Hi].
Qed.
(** *** A restart after a write and a delete *)

(** Opened, a local write, a delete. *)
Lemma ex_removed_lived : lived (λ _, False) ex_cli (lit "node-a") ex_removed.2.1 ex_removed.2.2.
Proof.
  eapply (lived_delete _ _ _ ex_put.2.1 ex_put.2.2 (lit "photos") (lit "a") (ex_tombstone, mkApplyResult OutcomeApplied (RVersion ex_tombstone))).
  - eapply (lived_put _ _ _ ex_runtime ex_runtime_world (lit "photos") (lit "a") (Some ex_blob) None
      (ex_put_record, mkApplyResult OutcomeApplied (RVersion ex_put_record))).
    + exact (lived_open _ _ _ _ _ _ _ _ _ _ ex_openable ex_random_ok ex_start_eq).
    + apply run_eq2. vm_compute. reflexivity.
  - rewrite <- surjective_pairing. apply run_eq2. vm_compute. reflexivity.
Qed.
Definition ex_left : lifecycleRuntime (MemoryStore (gset bytes)) := ex_removed.2.1.
Definition ex_left_world : world := ex_removed.2.2.
Lemma ex_left_lived : lived (λ _, False) ex_cli (lit "node-a") ex_left ex_left_world.
Proof. exact ex_removed_lived. Qed.
Definition ex_restart_store : MemoryStore (gset bytes) := default ex_blobs (a_blobs (lr_applier ex_left)).
Definition ex_restart_world : world := World None [] (w_fs ex_left_world).
Definition ex_restart : result (option (lifecycleRuntime (MemoryStore (gset bytes)))) * (option (MemoryStore (gset bytes)) * world) :=
  ex_start_over ex_restart_store ex_restart_world.

Lemma Named_inj p q : Named p = Named q → p = q.
Proof. by intros [= ->]. Qed.
Lemma ex_restart_openable : openable (λ _, False) (lc_dir ex_cli) ex_restart_store (w_fs ex_restart_world).
Proof.
  destruct (lived_inv _ _ _ _ _ ex_left_lived) as ([[(fd & i & x & Hj) _ Hb _ _] _ _ _ _ _ _] & _).
  unfold ex_restart_world. rewrite w_fs_World. split.
  - exact (jf_wf _ _ _ _ _ _ Hj).
  - unfold ex_restart_store. destruct (a_blobs (lr_applier ex_left)) as [s|]; [exact (proj1 Hb)|done].
  - reflexivity.
  - by intros ? ? ?.
  - intros p k Hp Hk.
    assert (map_Forall (λ e k, fs_dir (w_fs ex_left_world) !! Named (filepath_Join (lc_dir ex_cli) journalName) = Some k →
      e = Named (filepath_Join (lc_dir ex_cli) journalName)) (fs_dir (w_fs ex_left_world))) as Hall by decide_now.
    exact (Named_inj _ _ (Hall _ _ Hp Hk)).
Qed.

Lemma restart_same_state_witness :
  ex_restart.1 = Ok (Some (runtime_of ex_restart.1)) ∧ lr_state (runtime_of ex_restart.1) = lr_state ex_left.
Proof.
  assert (started ex_restart.1 = true) as Es by (vm_compute; reflexivity). pose proof (started_eq _ Es) as E.
  split; [exact E|].
  refine (proj1 (restart_same_state (λ _, False) (λ _, False) ex_cli (lit "node-a") ex_left ex_left_world ex_random ex_cli (lit "token") (lit "node-a")
    ex_restart_store ex_restart_world (runtime_of ex_restart.1) ex_restart.2.1 ex_restart.2.2 ex_left_lived ex_restart_openable ex_random_ok
    eq_refl eq_refl _ _ _)).
  - unfold ex_restart_world. by rewrite w_fs_World.
  - unfold ex_restart_world. by rewrite w_fs_World.
  - exact (run_eq2 ex_restart _ E).
Defined.
