(* ===== verification/RuntimeLive.v ===== *)
(** * When the lifecycle runtime makes progress

    Without faults, a compaction that the status calls unblocked succeeds, and a
    blocked one is refused without effect; the raw blobs a peer is sent before a
    repair are all it can need.  The last part runs the runtime on concrete
    inputs, and shows two ways in which it gets stuck. *)
From S2P Require Import Prelude Go Bits Text Json Os Paths Model Codec Journal Compact Transport Repair StateFile Watermark Authority Membership Blobs Applier Session Runtime RuntimeInv.

(** ** Replaying a well-formed history never fails *)

Section replay.
Context `{UnicodePrint}.

(** A record that is valid and newer than what its key holds is applied. *)
Lemma Apply_newer r st :
  valid (limits st) r = true → (∀ x, records st !! key_of r = Some x → version_lt (RVersion x) (RVersion r)) →
  Apply r st = (Ok (mkApplyResult OutcomeApplied (RVersion r)), (Apply r st).2).
Proof.
  intros Hv Hn. pose proof (Apply_result r st) as Hr. assert (Classify r st = Ok (mkApplyResult OutcomeApplied (RVersion r))) as HC.
  { unfold Classify. apply valid_Validate in Hv. rewrite Hv. cbn [rbind]. unfold classifyRecord.
    destruct (records st !! key_of r) as [x|]; [|done]. specialize (Hn x eq_refl). apply Compare_gt in Hn.
    by rewrite (proj2 (Z.ltb_lt _ _)) by lia. }
  rewrite HC in Hr. destruct (Apply r st) as [ra s']. cbn in Hr. by rewrite Hr.
Qed.

(** A checkpoint: distinct keys. *)
Lemma apply_base_total st rs :
  Forall (λ r, valid (limits st) r = true) rs → NoDup (key_of <$> rs) → (∀ r, r ∈ rs → records st !! key_of r = None) →
  apply_base st rs = Ok (apply_all st rs).
Proof.
  revert st. induction rs as [|r rs IH]; intros st Hv Hd Hf; cbn [apply_base]; [done|].
  apply Forall_cons in Hv as [Hr Hv]. apply NoDup_cons in Hd as [Hn Hd].
  assert (records st !! key_of r = None) as Hnone by (apply Hf; by left).
  rewrite Apply_newer; [|done|by rewrite Hnone]. apply IH; [by rewrite Apply_limits|done|].
  intros x Hx. rewrite Apply_lookup, bool_decide_eq_false_2; [rewrite andb_false_r; apply Hf; by right|].
  intros E. apply Hn. rewrite E. by apply list_elem_of_fmap_2.
Qed.

(** A journal: increasing versions above everything in the state. *)
Lemma apply_prefix_total w v st rs :
  increasing v rs → Forall (λ r, valid (limits st) r = true) rs → Forall (λ r, version_le (RVersion r) w) rs →
  (∀ k x, records st !! k = Some x → version_le (RVersion x) v) →
  apply_prefix w st rs = Ok (rs, apply_all st rs).
Proof.
  revert v st. induction rs as [|r rs IH]; intros v st Hi Hv Hw Hs; cbn [apply_prefix]; [done|].
  destruct Hi as [Hlt Hi]. apply Forall_cons in Hv as [Hr Hv], Hw as [Hrw Hw].
  rewrite (proj2 (Z.ltb_ge _ _)) by exact Hrw.
  rewrite Apply_newer; [|done|intros x Hx; by eapply version_le_lt_trans; [eapply Hs|]].
  erewrite (IH (RVersion r)); [done|done|by rewrite Apply_limits|done|].
  intros k x. rewrite Apply_lookup. case_match; [by intros [= <-]|]. intros Hx. apply version_lt_le. eapply version_le_lt_trans; [by eapply Hs|done].
Qed.
End replay.

(** ** Publishing without faults *)

Section publish.
Context `{UnicodePrint}.

Lemma Close_quiet_at fd i w :
  quiet w → fs_fds (w_fs w) !! fd = Some i →
  file_Close fd w = (Ok tt, set_fs (Fs (fs_dir (w_fs w)) (fs_sdir (w_fs w)) (fs_ino (w_fs w)) (delete fd (fs_fds (w_fs w))) (fs_next (w_fs w))) w).
Proof. intros Hq Hfd. unfold file_Close. by rewrite (quiet_next _ Hq), Hfd. Qed.

Lemma rewriteLocked_quiet j floor w :
  fs_wf (w_fs w) → quiet w →
  ∃ w', rewriteLocked j floor [] w = (Ok (Datatypes.S (fs_next (w_fs w)), len (encodeJournalHeader floor)), w') ∧ quiet w' ∧
    ∀ fd i, fs_fds (w_fs w) !! fd = Some i → fs_fds (w_fs w') !! fd = Some i.
Proof.
  intros Hf Hq. unfold rewriteLocked. cbv zeta. set (n := fs_next (w_fs w)). set (dir := filepath_Dir (j_path j)).
  erewrite bind_step_Ok by (unfold os_CreateTemp; by rewrite quiet_syscall). cbv beta iota. cbn [fst snd]. fold n.
  set (w1 := set_fs _ w). assert (quiet w1) as Hq1 by done.
  assert (fs_fds (w_fs w1) !! n = Some n) as Hn1 by apply lookup_insert_eq.
  set (f2 := fs_append (encodeJournalHeader floor) n (w_fs w1)).
  assert (fill_journal n (j_maxBytes j) floor [] w1 = (Ok (len (encodeJournalHeader floor)), set_fs (synced n f2) w)) as Efill.
  { unfold fill_journal. cbv zeta. erewrite bind_step_Ok by by apply writeFull_quiet. cbn [write_entries].
    erewrite (bind_step_Ok (ret _)) by reflexivity. erewrite bind_step_Ok; [reflexivity|].
    unfold file_Sync. rewrite quiet_syscall by done. unfold with_fd. cbn. by rewrite lookup_insert_eq. }
  set (f3 := Fs (fs_dir (w_fs w1)) (fs_sdir (w_fs w)) (fs_ino (synced n f2)) (fs_fds (w_fs w)) (Datatypes.S n)).
  assert (file_Close n (set_fs (synced n f2) w) = (Ok tt, set_fs f3 w)) as Ecl.
  { erewrite Close_quiet_at; [|done|exact Hn1]. cbn. unfold f3. cbn.
    rewrite delete_insert_id; [done|]. apply (wf_fresh_fd _ Hf). lia. }
  set (p := Named (filepath_Clean (j_path j))).
  set (f4 := Fs (<[p := n]> (fs_dir (w_fs w))) (fs_sdir (w_fs w)) (fs_ino (synced n f2)) (fs_fds (w_fs w)) (Datatypes.S n)).
  assert (os_Rename (Temp dir n) (j_path j) (set_fs f3 w) = (Ok tt, set_fs f4 w)) as Ern.
  { unfold os_Rename. rewrite quiet_syscall by done. cbn. rewrite lookup_insert_eq. cbn. unfold f4.
    rewrite delete_insert_id; [done|]. apply (wf_fresh_tmp _ Hf). lia. }
  erewrite bind_step_Ok.
  2:{ apply on_error_Ok. erewrite bind_step_Ok by (by apply on_error_Ok; exact Efill).
      erewrite bind_step_Ok by exact Ecl. erewrite bind_step_Ok by by apply quiet_ctx. erewrite bind_step_Ok by exact Ern. reflexivity. }
  erewrite bind_step_Ok by (unfold syncDirectory, bind; by rewrite !quiet_syscall). cbn [fst snd].
  set (f5 := fs_sync_dir _ _).
  erewrite bind_step_Ok.
  2:{ unfold os_Open. rewrite quiet_syscall by done. cbn. fold p. rewrite lookup_insert_eq. reflexivity. }
  cbn [fst snd]. erewrite bind_step_Ok.
  2:{ apply on_error_Ok. unfold file_Seek. rewrite quiet_syscall by done. unfold with_fd. cbn. rewrite lookup_insert_eq. reflexivity. }
  eexists. split; [reflexivity|]. split; [done|]. intros fd i Hfd. cbn. rewrite lookup_insert_ne; [done|].
  intros <-. rewrite (wf_fresh_fd _ Hf) in Hfd; [done|lia].
Qed.

Lemma publish_quiet j f fd i x cp data floor w :
  jfile j f fd i x [] → w_fs w = f → quiet w → ∃ j' w', publish cp data j floor [] (j, w) = (Ok tt, (j', w')).
Proof.
  intros Hj Hw Hq. pose proof (jf_wf _ _ _ _ _ _ Hj) as Hf. rewrite <- Hw in Hf.
  pose proof (atomicWrite_quiet cp data w Hf Hq) as Ea. pose proof (atomicWrite_view _ _ _ _ _ Hf Ea) as [[Hf1 Ef1 _] _].
  set (w1 := set_fs _ w) in *.
  destruct (rewriteLocked_quiet j floor w1 Hf1 Hq) as (w2 & Er & Hq2 & Hfds).
  unfold publish. erewrite bind_step_Ok by (rewrite io_run, Ea; reflexivity). cbn [snd].
  erewrite bind_step_Ok by (rewrite io_run, Er; reflexivity). cbn [snd].
  unfold swapFile. erewrite bind_step_Ok by reflexivity. cbn [fst]. rewrite (jf_file _ _ _ _ _ _ Hj).
  unfold attempt. rewrite io_run. erewrite Close_quiet_at; [|done|].
  2:{ apply Hfds. rewrite Ef1, Hw. apply (jf_fd _ _ _ _ _ _ Hj). }
  by eexists _, _.
Qed.
End publish.

(** ** Compaction *)

Section compaction.
Context `{UnicodePrint} {S : Type} `{BlobStoreSpec S}.

Lemma WatermarksAt_quiet b wb target w : quiet w → (WatermarksAt b (Some wb) target w).2 = w.
Proof.
  intros Hq. unfold WatermarksAt. erewrite bind_step_Ok by by apply quiet_ctx.
  destruct (IsZero target); [done|]. destruct (mb_configured b); [|done]. cbn [negb]. by apply watermarks_loop_quiet.
Qed.

(** The guards of [compact], in the terms of the status. *)
Lemma compaction_guards (r : lifecycleRuntime S) w :
  quiet w → version_u64 (j_floor (lr_journal r)) →
  (compactionStatus opened_parts r (compactionProgress opened_parts r w)).1 = false ↔
  version_lt (j_floor (lr_journal r)) (j_last (lr_journal r)) ∧
  is_Ok (WatermarksAt (lr_membership r) (Some (lr_watermarks r)) (j_last (lr_journal r)) w).1 = true.
Proof.
  intros Hq [? ?]. assert (World None [] (w_fs w) = w) as Ew by (destruct w as [c os f]; destruct Hq as [Ec Eo]; cbn in *; by subst).
  destruct (Progress_agrees (lr_membership r) (lr_watermarks r) (j_last (lr_journal r)) w Hq)
    as (p & Hp & _ & _ & Et & _ & _ & _ & HW).
  unfold compactionProgress. cbn [opened_parts pt_journal pt_membership pt_watermarks negb orb]. cbv zeta. rewrite Ew. unfold LastVersion. rewrite Hp. cbn [fst].
  rewrite HW. unfold compactionStatus. rewrite Et. unfold Floor.
  destruct (PConfigured p); cbn [negb]; [|cbn; naive_solver].
  destruct (Compare (j_last (lr_journal r)) (j_floor (lr_journal r)) <=? 0) eqn:Ec; cbn [fst].
  { split; [done|]. intros [Hlt%Compare_gt _]. apply Z.leb_le in Ec. lia. }
  apply Z.leb_gt, Compare_gt in Ec.
  destruct (PMembers p =? PAcknowledged p) eqn:Em; cbn [negb fst]; bool_to_prop; split; try done.
  - intros _. split_and!; try done. intros Ez. rewrite Ez in Ec. apply version_lt_eq in Ec. cbn in Ec. lia.
  - intros (_ & _ & _ & E). congruence.
Qed.

Lemma peers_reached_quiet b wb target w vs w' :
  WatermarksAt b (Some wb) target w = (Ok vs, w') → peers_reached target vs = true.
Proof.
  intros HW. apply peers_reached_spec. unfold WatermarksAt in HW. step HW as [] w1 E1.
  destruct (IsZero target); [stop HW|]. destruct (negb _); [stop HW|]. by apply watermarks_loop_Ok in HW as [_ ?].
Qed.

(** The checkpoint that [compact] hands to [Compact] as its base. *)
Lemma base_ok owned r w : runtime_inv (S := S) owned r w →
  ∃ base, compactionBaseLocked (lr_journal r) (lr_snapshot r) = Ok base ∧ CRecords base = base_of (lr_snapshot r) ∧
    Forall (λ x, valid (j_limits (lr_journal r)) x = true ∧ version_le (RVersion x) (j_floor (lr_journal r))) (CRecords base) ∧
    NoDup (key_of <$> CRecords base).
Proof.
  intros Hi. pose proof (ri_snapshot _ _ _ Hi) as Hs. unfold compactionBaseLocked, IsZero.
  destruct (lr_snapshot r) as [c|].
  - destruct Hs as (Ew & data & _ & [_ _ Hv Hd Hn]%decodeCheckpoint_good). rewrite Hn. cbn [rbind]. rewrite Ew in *.
    exists c. case_bool_decide; cbn [negb]; rewrite ?bool_decide_eq_true_2 by done; by split_and!.
  - destruct Hs as [Ez _]. rewrite Ez. cbn. exists zero_checkpoint. split_and!; try done. apply NoDup_nil_2.
Qed.

Lemma compact_quiet owned r w :
  runtime_inv (S := S) owned r w → quiet w → (compactionStatus opened_parts r (compactionProgress opened_parts r w)).1 = false →
  is_Ok (encodeCheckpoint (mkCheckpoint (j_last (lr_journal r)) (Snapshot (lr_state r))) (j_limits (lr_journal r))) = true →
  ∃ r' w', compact (r, w) = (Ok tt, (r', w')).
Proof.
  intros Hi Hq Hb Henc. pose proof Hi as [Ha _ _ _ (Ecl & _ & Hne & _) _ _].
  destruct (state_wf _ _ _ _ Ha) as (Hst & El & _). pose proof Ha as [(fd & i & x & Hj) Est _ _ _].
  change (jfile (lr_journal r) (w_fs w) fd i x []) in Hj. destruct (jfile_records _ _ _ _ _ _ Hj) as (Hfu & Hinc & Hjr).
  apply (compaction_guards _ _ Hq Hfu) in Hb as [Hlt HW].
  destruct (WatermarksAt _ _ _ w) as [[vs|e] w1] eqn:EW; [|done].
  pose proof (WatermarksAt_quiet (lr_membership r) (lr_watermarks r) (j_last (lr_journal r)) w Hq) as Ew1. rewrite EW in Ew1. cbn in Ew1. subst w1.
  pose proof (peers_reached_quiet _ _ _ _ _ _ EW) as Hpr.
  destruct (base_ok _ _ _ Hi) as (base & Hbase & Ebase & Hbv & Hbd).
  destruct (encodeCheckpoint _ _) as [[data l]|e] eqn:Eenc; [|done]. clear Henc.
  apply encodeCheckpoint_Ok in Eenc as He. destruct He as (rs & Hrs & _). cbn [CRecords Watermark] in Hrs.
  assert (normalizeCheckpoint (mkCheckpoint (j_last (lr_journal r)) (Snapshot (lr_state r))) (j_limits (lr_journal r)) =
    Ok (mkCheckpoint (j_last (lr_journal r)) (Snapshot (lr_state r)), normalized (j_limits (lr_journal r)))) as Hnorm.
  { unfold normalizeCheckpoint. cbn [CRecords Watermark]. rewrite normalizeCheckpointRecords_normalized, Hrs. cbn [rbind]. do 3 f_equal.
    apply normalizeCheckpointRecords_Ok in Hrs as (_ & _ & Hd & ->). apply sort_records_id; [done|apply Snapshot_sorted]. }
  set (l0 := j_limits (lr_journal r)) in *. set (s0 := NewStore l0).
  assert (limits s0 = l0) as Es0 by apply (jf_limits _ _ _ _ _ _ Hj).
  assert (apply_base s0 (CRecords base) = Ok (apply_all s0 (CRecords base))) as Hab.
  { apply apply_base_total; [rewrite Es0; eapply Forall_impl; [exact Hbv|by intros ? []]|done|]. intros y _. apply lookup_empty. }
  assert (apply_prefix (j_last (lr_journal r)) (apply_all s0 (CRecords base)) (j_records (lr_journal r)) =
    Ok (j_records (lr_journal r), lr_state r)) as Hap.
  { unfold lr_state. rewrite Est, <- Ebase, apply_all_app. change (NewStore (j_limits (a_journal (lr_applier r)))) with s0. apply increasing_le in Hinc as Hle. destruct Hle as [_ Hle].
    apply (apply_prefix_total _ (j_floor (lr_journal r))); [done| | |].
    - rewrite apply_all_limits, Es0. eapply Forall_impl; [exact Hjr|]. by intros ? [].
    - by rewrite (jf_last _ _ _ _ _ _ Hj).
    - intros k y Hy. pose proof (apply_all_latest l0 (CRecords base) k) as Hlat. fold s0 in Hlat. rewrite Hy in Hlat.
      destruct Hlat as (Hin & _). rewrite Forall_forall in Hbv. by apply Hbv. }
  destruct (publish_quiet _ _ _ _ _ (lr_checkpointPath r) data (j_last (lr_journal r)) w Hj eq_refl Hq) as (j' & w' & HP).
  unfold compact. erewrite bind_step_Ok by reflexivity. cbn [fst]. cbv zeta. unfold LastVersion, Floor.
  rewrite (proj2 (Z.leb_gt _ _)) by by apply Compare_gt.
  erewrite bind_step_Ok by (rewrite io_run, EW; reflexivity). cbn [snd].
  match goal with |- context [Compact ?req] => assert (Compact req (lr_journal r, w) = (Ok tt, (j', w'))) as HC end.
  { unfold Compact. cbn [CheckpointPath CWatermark CReqRecords PeerWatermarks Base CRecords].
    rewrite bool_decide_eq_false_2 by (intros E; rewrite E in Ecl; done).
    erewrite bind_step_Ok by (rewrite io_run, quiet_ctx by done; reflexivity). erewrite bind_step_Ok by reflexivity. cbn [fst snd].
    erewrite bind_step_Ok by (unfold lift; rewrite (jfile_ensureOpen _ _ _ _ _ _ Hj); reflexivity).
    rewrite bool_decide_eq_false_2 by by rewrite Ecl. rewrite (proj2 (Z.leb_gt _ _)) by by apply Compare_gt.
    rewrite (proj2 (Z.ltb_ge _ _)) by (by apply (reflexivity (R := version_le))). rewrite Hpr. cbn [negb].
    erewrite bind_step_Ok by (unfold lift; rewrite Hbase; reflexivity).
    erewrite bind_step_Ok by (unfold lift; fold l0; rewrite Hnorm; reflexivity). cbv beta iota.
    erewrite bind_step_Ok by (unfold lift; fold l0; fold s0; rewrite Hab; reflexivity).
    erewrite bind_step_Ok by (unfold lift; rewrite Hap; reflexivity). cbv beta iota.
    rewrite (proj2 (Z.eqb_neq _ _)).
    2:{ intros E%len_zero. rewrite (jf_last _ _ _ _ _ _ Hj), E in Hlt. by apply (irreflexivity version_lt) in Hlt. }
    rewrite (proj2 (recordsEqual_spec _ _) eq_refl). cbn [negb CRecords]. fold l0.
    erewrite bind_step_Ok by (unfold lift; rewrite Eenc; reflexivity). cbv beta iota. rewrite drop_all. exact HP. }
  erewrite bind_step_Ok.
  2:{ unfold in_applier, in_journal, zoom. cbn [fst snd]. fold (lr_journal r). rewrite HC. reflexivity. }
  by eexists _, _.
Qed.

(** The status tells the truth about compaction.  Without faults, a
    compaction that [compactionStatus] reports as blocked is refused and changes
    nothing at all; one that it reports as open succeeds, unless the checkpoint
    itself is over its size limit, and is then given no reason. *)
Theorem compaction_status_decides owned (r : lifecycleRuntime S) w (Hi : runtime_inv owned r w) (Hq : quiet w) :
  let status := compactionStatus opened_parts r (compactionProgress opened_parts r w) in
  if status.1 then ∃ e, compact (r, w) = (Err e, (r, w))
  else status.2 = [] ∧
    (is_Ok (encodeCheckpoint (mkCheckpoint (j_last (lr_journal r)) (Snapshot (lr_state r))) (j_limits (lr_journal r))) = true →
     ∃ r' w', compact (r, w) = (Ok tt, (r', w'))).
Proof.
  intros status. pose proof Hi as [Ha _ _ _ _ _ _]. destruct Ha as [(fd & i & x & Hj) _ _ _ _].
  destruct (jfile_records _ _ _ _ _ _ Hj) as (Hfu & _). pose proof (compaction_guards r w Hq Hfu) as Hg. fold status in Hg.
  destruct status.1 eqn:Es.
  - unfold compact. erewrite bind_step_Ok by reflexivity. cbn [fst]. cbv zeta. unfold LastVersion, Floor.
    destruct (_ <=? 0) eqn:Ec; [by eexists|]. apply Z.leb_gt, Compare_gt in Ec.
    pose proof (WatermarksAt_quiet (lr_membership r) (lr_watermarks r) (j_last (lr_journal r)) w Hq) as Ew.
    destruct (WatermarksAt _ _ _ w) as [[vs|e] w1] eqn:EW; cbn in Ew; subst w1; [discriminate (proj2 Hg (conj Ec eq_refl))|].
    erewrite bind_step_Err by (rewrite io_run, EW; reflexivity). by exists e.
  - split; [|intros He; by eapply compact_quiet].
    unfold status, compactionStatus in Es |- *. repeat case_match; done.
Qed.
End compaction.

(** ** Raw blobs before a repair *)

Section raw_sync.
Context `{UnicodePrint} {S : Type} `{BlobStoreSpec S}.

Definition wanted (wm : Version) (x : record) : Prop := State x = StatePresent ∧ version_lt wm (RVersion x).

Lemma select_blobs_spec wm seen rs :
  let out := select_blobs wm seen rs in
  NoDup (BlobKey <$> out) ∧ (∀ k, k ∈ BlobKey <$> out → k ∉ seen) ∧ (∀ x, x ∈ out → x ∈ rs ∧ wanted wm x) ∧
  ∀ x, x ∈ rs → wanted wm x → BlobKey x ∈ seen ∨ BlobKey x ∈ BlobKey <$> out.
Proof.
  revert seen. induction rs as [|y rs IH]; intros seen; cbn [select_blobs].
  { split_and!; [apply NoDup_nil_2|set_solver..]. }
  assert (negb (bool_decide (State y = StatePresent)) || (Compare (RVersion y) wm <=? 0) = false ↔ wanted wm y) as Hw.
  { rewrite orb_false_iff, negb_false_iff, bool_decide_eq_true, Z.leb_gt, Compare_gt. done. }
  destruct (_ || _).
  - destruct (IH seen) as (? & ? & Hs & Hc). split_and!; [done|done| |].
    + intros x [? ?]%Hs. split; [by right|done].
    + intros x [->|?]%elem_of_cons Hx; [by apply Hw in Hx|by apply Hc].
  - destruct (proj1 Hw eq_refl) as [Hp Hv]. case_bool_decide as Hin.
    + destruct (IH seen) as (? & ? & Hs & Hc). split_and!; [done|done| |].
      * intros x [? ?]%Hs. split; [by right|done].
      * intros x [->|?]%elem_of_cons Hx; [by left|by apply Hc].
    + destruct (IH (BlobKey y :: seen)) as (Hd & Hn & Hs & Hc). cbn [fmap list_fmap]. split_and!.
      * apply NoDup_cons. split; [|done]. intros Hbad%Hn. set_solver.
      * intros k [->|Hk]%elem_of_cons; [done|]. apply Hn in Hk. set_solver.
      * intros x [->|[? ?]%Hs]%elem_of_cons; (split; [set_solver|done]).
      * intros x [->|Hin']%elem_of_cons Hx; [right; by left|]. destruct (Hc x Hin' Hx) as [[->|?]%elem_of_cons|?]; set_solver.
Qed.

(** The blobs a peer is sent before a repair are all it can need.
    [recordsForRawSync] changes nothing and selects present records above the
    peer's watermark, each blob once, all of them from the journal or the
    checkpoint; and every present record of the state above that watermark has
    its blob among them, also when it survives in the checkpoint only. *)
Theorem raw_sync_complete owned peerID (r : lifecycleRuntime S) w rs r' w' (Hi : runtime_inv owned r w)
    (Hrun : recordsForRawSync peerID (r, w) = (Ok rs, (r', w'))) :
  let wm := BookWatermark (lr_watermarks r) peerID in
  r' = r ∧ w_fs w' = w_fs w ∧ NoDup (BlobKey <$> rs) ∧
  (∀ x, x ∈ rs → x ∈ base_of (lr_snapshot r) ++ j_records (lr_journal r) ∧ wanted wm x) ∧
  ∀ k x, records (lr_state r) !! k = Some x → wanted wm x → BlobKey x ∈ BlobKey <$> rs.
Proof.
  intros wm. unfold recordsForRawSync in Hrun. step Hrun as js [r1 w1] E1.
  apply in_applier_run in E1 as (a1 & E1 & ->). unfold in_journal, zoom in E1. cbn [fst snd] in E1.
  destruct (Journal_Records _) as [rj [j1 w2]] eqn:EJ. injection E1 as -> <- <-.
  apply Journal_Records_run in EJ as (-> & Ew & Ho). rewrite (Ho js eq_refl) in Hrun. fold (lr_journal r) in Hrun.
  assert (∀ a, mkApplier (a_blobs a) (a_state a) (a_journal a) (a_limits a) = (a : Applier S)) as Ea by by intros [].
  assert (set_applier (lr_applier r) r = r) as Er by by destruct r. rewrite Ea, Er in Hrun.
  step_Ok Hrun. cbv zeta in Hrun. cbn [fst] in Hrun. injection Hrun as <- <- <-. fold wm. fold (base_of (lr_snapshot r)).
  match goal with |- context [select_blobs wm [] ?l] => set (all := l) end.
  destruct (select_blobs_spec wm [] all) as (Hd & _ & Hs & Hc).
  split_and!; [done|done|done| |].
  - intros x [Hx ?]%Hs. split; [|done]. unfold all in Hx. case_match; set_solver.
  - intros k x Hk Hx. destruct (Hc x) as [Hbad|?]; [|done|by apply elem_of_nil in Hbad|done].
    destruct (state_wf _ _ _ _ (ri_applier _ _ _ Hi)) as (_ & _ & Hin). apply Hin in Hk. unfold all. case_match eqn:El.
    + rewrite elem_of_app in Hk |- *. tauto.
    + apply elem_of_app in Hk as [Hk|Hk]; [|done]. exfalso. destruct (base_ok _ _ _ Hi) as (base & _ & Eb & Hv & _).
      rewrite <- Eb in Hk. rewrite Forall_forall in Hv. apply Hv in Hk as [_ Hle]. destruct Hx as [_ Hlt].
      assert (version_le (j_floor (lr_journal r)) wm) as Hfl by (apply version_nlt; unfold version_lt; apply Z.ltb_ge in El; unfold Floor in El; lia).
      apply version_nlt in Hle. apply Hle. eapply version_le_lt_trans; [exact Hfl|exact Hlt].
Qed.
End raw_sync.

(** ** Concrete runs *)

#[local] Existing Instance ascii_print.

Lemma compaction_status_decides_witness :
  (compactionStatus opened_parts ex_caught_up (compactionProgress opened_parts ex_caught_up ex_put_world)).1 = false ∧
  ∃ r' w', compact (ex_caught_up, ex_put_world) = (Ok tt, (r', w')).
Proof.
  assert (quiet ex_put_world) as Hq by decide_now.
  assert ((compactionStatus opened_parts ex_caught_up (compactionProgress opened_parts ex_caught_up ex_put_world)).1 = false) as Es by (vm_compute; reflexivity).
  pose proof (compaction_status_decides (λ _, False) ex_caught_up ex_put_world ex_put_world_inv Hq) as HS. cbv zeta in HS.
  rewrite Es in HS. split; [reflexivity|]. apply (proj2 HS). vm_compute. reflexivity.
Defined.

#[local] Abbreviation ex_selected := (recordsForRawSync (lit "node-c") (ex_caught_up, ex_put_world)).
Lemma raw_sync_complete_witness : ex_selected.1 = Ok [ex_put_record] ∧ NoDup (BlobKey <$> [ex_put_record]).
Proof.
  assert (ex_selected.1 = Ok [ex_put_record]) as E by (vm_compute; reflexivity). split; [exact E|].
  exact (proj1 (proj2 (proj2 (raw_sync_complete (λ _, False) (lit "node-c") ex_caught_up ex_put_world [ex_put_record]
    ex_selected.2.1 ex_selected.2.2 ex_put_world_inv (run_eq2 ex_selected _ E))))).
Defined.

(** ** A compaction that is interrupted *)

(** The checkpoint is written and the journal's temporary file cannot be made. *)
#[local] Abbreviation ex_interrupted :=
  (compact (ex_caught_up, World None (repeat OOk 7 ++ [OFail 0]) (w_fs ex_put_world))).

(** An interrupted compaction locks the node out.  [Compact] makes the new
    checkpoint durable before it rewrites the journal; when the rewrite fails or
    the machine stops in between, the old journal and the new checkpoint are
    both intact and hold the whole state, but [openLifecycleRuntime] insists that
    the checkpoint's watermark equals the journal's floor and refuses every later
    start. *)
Theorem interrupted_compaction_blocks_start :
  ex_interrupted.1 = Err ErrOS ∧
  (ex_start_over (default ex_blobs (a_blobs (lr_applier ex_interrupted.2.1))) (World None [] (w_fs ex_interrupted.2.2))).1 =
  Err (ErrText (lit "lifecycle: checkpoint watermark does not match journal floor")).
Proof. split; vm_compute; reflexivity. Qed.
