(* ===== verification/Protocol.v ===== *)
(** * The blob replication protocol

    replication/protocol.go: the JSON messages that peers exchange about blobs,
    their limits, and the application of a received blob to a store. *)
From S2P Require Import Prelude Go Bits Text Json Os Model Codec Journal Blobs Inventory.

Definition MessageTypeBlobPut : bytes := Eval cbv in lit "blob.put".
Definition MessageTypeBlobHas : bytes := Eval cbv in lit "blob.has".
Definition MessageTypeBlobGet : bytes := Eval cbv in lit "blob.get".
Definition MessageTypeBlobMissing : bytes := Eval cbv in lit "blob.missing".
Definition MessageTypeBlobAck : bytes := Eval cbv in lit "blob.ack".
Definition DefaultMaxKeyBytes : Z := 512.
Definition DefaultMaxKeys : Z := 4096.
Definition DefaultMaxDataBytes : Z := Z.shiftl 4 20.
Definition DefaultMaxRepairBytes : Z := Z.shiftl 64 20.

(** The type [Limits] of package replication. *)
Record ReplicationLimits := mkReplicationLimits {
  MaxKeyBytes : Z;
  MaxKeys : Z;
  MaxDataBytes : Z;
  MaxRepairBytes : Z
}.
Definition normalizeLimits (l : ReplicationLimits) : ReplicationLimits :=
  mkReplicationLimits (or_default (MaxKeyBytes l) DefaultMaxKeyBytes) (or_default (MaxKeys l) DefaultMaxKeys)
    (or_default (MaxDataBytes l) DefaultMaxDataBytes) (or_default (MaxRepairBytes l) DefaultMaxRepairBytes).

Record Message := mkMessage { MType : bytes; MKey : bytes; MKeys : list bytes; MData : bytes }.
Definition zero_message : Message := mkMessage [] [] [] [].

(** Empty fields are left out. *)
Definition omitempty {A} (x : list A) (member : bytes * json) : list (bytes * json) :=
  match x with [] => [] | _ => [member] end.
Definition json_message (m : Message) : json :=
  JObj ([(lit "type", JStr (MType m))] ++
        omitempty (MKey m) (lit "key", json_bytes (MKey m)) ++
        omitempty (MKeys m) (lit "keys", JArr (json_bytes <$> MKeys m)) ++
        omitempty (MData m) (lit "data", json_bytes (MData m))).
Definition dec_message : decoder Message :=
  dec_struct false
    [(lit "type", field MType (λ x m, mkMessage x (MKey m) (MKeys m) (MData m)) dec_string);
     (lit "key", field MKey (λ x m, mkMessage (MType m) x (MKeys m) (MData m)) dec_bytes);
     (lit "keys", field MKeys (λ x m, mkMessage (MType m) (MKey m) x (MData m)) (dec_slice dec_bytes []));
     (lit "data", field MData (λ x m, mkMessage (MType m) (MKey m) (MKeys m) x) dec_bytes)].

(** ** Validation *)

Definition validateKey (key : bytes) (l : ReplicationLimits) : result unit :=
  if len key =? 0 then Err replication_ErrKeyEmpty
  else if MaxKeyBytes l <? len key then Err replication_ErrKeyTooLarge
  else Ok tt.

Fixpoint validate_each (keys : list bytes) (l : ReplicationLimits) : result unit :=
  match keys with
  | [] => Ok tt
  | key :: keys' => _ <-? validateKey key l ; validate_each keys' l
  end.
Definition validateKeys (keys : list bytes) (l : ReplicationLimits) : result unit :=
  if len keys =? 0 then Err replication_ErrKeysEmpty
  else if MaxKeys l <? len keys then Err replication_ErrTooManyKeys
  else validate_each keys l.

Definition validateBlobPut (msg : Message) (l : ReplicationLimits) : result unit :=
  _ <-? validateKey (MKey msg) l ;
  if MaxDataBytes l <? len (MData msg) then Err replication_ErrDataTooLarge else Ok tt.

Definition cloneKeys (keys : list bytes) : list bytes := (λ key, [] ++ key) <$> keys.

(** ** Encoding *)

Definition EncodeBlobPut (key data : bytes) (l : ReplicationLimits) : result bytes :=
  let msg := mkMessage MessageTypeBlobPut ([] ++ key) [] ([] ++ data) in
  _ <-? validateBlobPut msg (normalizeLimits l) ;
  Ok (marshal (json_message msg)).
Definition encodeKeyListMessage (messageType : bytes) (keys : list bytes) (l : ReplicationLimits) : result bytes :=
  let msg := mkMessage messageType [] (cloneKeys keys) [] in
  _ <-? validateKeys (MKeys msg) (normalizeLimits l) ;
  Ok (marshal (json_message msg)).
Definition EncodeBlobHas : list bytes → ReplicationLimits → result bytes := encodeKeyListMessage MessageTypeBlobHas.
Definition EncodeBlobMissing : list bytes → ReplicationLimits → result bytes := encodeKeyListMessage MessageTypeBlobMissing.
Definition EncodeBlobGet (key : bytes) (l : ReplicationLimits) : result bytes :=
  let msg := mkMessage MessageTypeBlobGet ([] ++ key) [] [] in
  _ <-? validateKey (MKey msg) (normalizeLimits l) ;
  Ok (marshal (json_message msg)).
Definition EncodeBlobAck (key : bytes) (l : ReplicationLimits) : result bytes :=
  let msg := mkMessage MessageTypeBlobAck ([] ++ key) [] [] in
  _ <-? validateKey (MKey msg) (normalizeLimits l) ;
  Ok (marshal (json_message msg)).

(** ** Decoding *)

Definition Decode (payload : bytes) (l : ReplicationLimits) : result Message :=
  match json_Unmarshal dec_message zero_message payload with
  | None => Err (EWrap ErrJSON)
  | Some msg =>
      let l := normalizeLimits l in
      _ <-? (if bool_decide (MType msg = MessageTypeBlobPut) then validateBlobPut msg l
             else if bool_decide (MType msg = MessageTypeBlobGet) || bool_decide (MType msg = MessageTypeBlobAck)
             then validateKey (MKey msg) l
             else if bool_decide (MType msg = MessageTypeBlobHas) || bool_decide (MType msg = MessageTypeBlobMissing)
             then validateKeys (MKeys msg) l
             else Err replication_ErrUnknownMessageType) ;
      Ok (mkMessage (MType msg) ([] ++ MKey msg) (cloneKeys (MKeys msg)) ([] ++ MData msg))
  end.

(** Keys that are not digests are opaque and not checked. *)
Definition verifyContentKey (key data : bytes) : result unit :=
  match ValidateSHA256Key key with
  | Err _ => Ok tt
  | Ok _ => VerifySHA256Key key data
  end.

Section apply.
Context {S : Type} `{BlobStore S}.

(** [Apply] of package replication; [nil_store] is [store == nil]. *)
Definition Replication_Apply (nil_store : bool) (payload : bytes) (l : ReplicationLimits) : M (S * world) unit :=
  io ctx_Err ;;
  if nil_store then throw replication_ErrNilStore
  else
    msg <- lift (Decode payload l) ;
    if bool_decide (MType msg = MessageTypeBlobPut) then
      lift (verifyContentKey (MKey msg) (MData msg)) ;;
      bs_Put (MKey msg) (MData msg)
    else throw replication_ErrMessageNotApplicable.
End apply.

(** ** Facts *)

Lemma cloneKeys_id keys : cloneKeys keys = keys.
Proof. unfold cloneKeys. rewrite <- (list_fmap_id keys) at 2. by apply list_fmap_ext. Qed.

Lemma validateKey_Ok key l : validateKey key l = Ok tt ↔ 0 < len key <= MaxKeyBytes l.
Proof.
  unfold validateKey. rewrite !guard_Ok. pose proof (len_nonneg key).
  split; [intros (? & ? & ?); lia|intros ?; split_and!; [lia|lia|done]].
Qed.
Lemma validate_each_Ok keys l : validate_each keys l = Ok tt ↔ Forall (λ k, 0 < len k <= MaxKeyBytes l) keys.
Proof.
  induction keys as [|k keys IH]; cbn; [split; [intros _; apply Forall_nil_2|done]|].
  by rewrite rbind_unit, validateKey_Ok, IH, Forall_cons.
Qed.
Lemma validateKeys_Ok keys l :
  validateKeys keys l = Ok tt ↔ 0 < len keys <= MaxKeys l ∧ Forall (λ k, 0 < len k <= MaxKeyBytes l) keys.
Proof.
  unfold validateKeys. rewrite !guard_Ok, validate_each_Ok. pose proof (len_nonneg keys).
  split; [intros (? & ? & ?); split; [lia|done]|intros [? ?]; split_and!; [lia|lia|done]].
Qed.

(** The messages of the protocol within given limits. *)
Definition message_ok (l : ReplicationLimits) (m : Message) : Prop :=
  (MType m = MessageTypeBlobPut ∧ 0 < len (MKey m) <= MaxKeyBytes l ∧ len (MData m) <= MaxDataBytes l) ∨
  ((MType m = MessageTypeBlobGet ∨ MType m = MessageTypeBlobAck) ∧ 0 < len (MKey m) <= MaxKeyBytes l) ∨
  ((MType m = MessageTypeBlobHas ∨ MType m = MessageTypeBlobMissing) ∧
   0 < len (MKeys m) <= MaxKeys l ∧ Forall (λ k, 0 < len k <= MaxKeyBytes l) (MKeys m)).

(** [Decode] accepts the messages of the protocol within the limits, and no
    others. *)
Lemma Decode_Ok payload l m :
  Decode payload l = Ok m ↔
  json_Unmarshal dec_message zero_message payload = Some m ∧ message_ok (normalizeLimits l) m.
Proof.
  unfold Decode. destruct (json_Unmarshal _ _ payload) as [x|]; [|naive_solver].
  rewrite rbind_unit, cloneKeys_id. cbn [app].
  assert (mkMessage (MType x) (MKey x) (MKeys x) (MData x) = x) as -> by by destruct x.
  assert ((if bool_decide (MType x = MessageTypeBlobPut) then validateBlobPut x (normalizeLimits l)
    else if bool_decide (MType x = MessageTypeBlobGet) || bool_decide (MType x = MessageTypeBlobAck)
      then validateKey (MKey x) (normalizeLimits l)
      else if bool_decide (MType x = MessageTypeBlobHas) || bool_decide (MType x = MessageTypeBlobMissing)
        then validateKeys (MKeys x) (normalizeLimits l) else Err replication_ErrUnknownMessageType) = Ok tt ↔
    message_ok (normalizeLimits l) x) as Hv; [|naive_solver].
  unfold message_ok, validateBlobPut.
  destruct (decide (MType x = MessageTypeBlobPut)) as [E|E1]; [|destruct (decide (MType x = MessageTypeBlobGet ∨ MType x = MessageTypeBlobAck)) as [E|E2];
    [|destruct (decide (MType x = MessageTypeBlobHas ∨ MType x = MessageTypeBlobMissing)) as [E|E3]]].
  - rewrite E. rewrite bool_decide_eq_true_2 by done. rewrite rbind_unit, guard_Ok, validateKey_Ok, Z.ltb_ge.
    split; [intros (? & ? & _); by left|]. intros [(_ & ? & ?)|[([?|?] & _)|([?|?] & _)]]; done.
  - rewrite bool_decide_eq_false_2 by (intros E'; destruct E as [E|E]; rewrite E in E'; discriminate E').
    assert (bool_decide (MType x = MessageTypeBlobGet) || bool_decide (MType x = MessageTypeBlobAck) = true) as ->.
    { rewrite orb_true_iff, !bool_decide_eq_true. done. }
    rewrite validateKey_Ok. split; [intros ?; right; by left|].
    intros [(E' & _)|[(_ & ?)|(E' & _)]]; [|done|]; exfalso; destruct E as [E|E]; rewrite E in E'; (discriminate E' || destruct E' as [E'|E']; discriminate E').
  - rewrite bool_decide_eq_false_2 by (intros E'; destruct E as [E|E]; rewrite E in E'; discriminate E').
    assert (bool_decide (MType x = MessageTypeBlobGet) || bool_decide (MType x = MessageTypeBlobAck) = false) as ->.
    { rewrite orb_false_iff, !bool_decide_eq_false. naive_solver. }
    assert (bool_decide (MType x = MessageTypeBlobHas) || bool_decide (MType x = MessageTypeBlobMissing) = true) as ->.
    { rewrite orb_true_iff, !bool_decide_eq_true. done. }
    rewrite validateKeys_Ok. split; [intros ?; right; by right|].
    intros [(E' & _)|[(E' & _)|(_ & ?)]]; [| |done]; exfalso; naive_solver.
  - rewrite bool_decide_eq_false_2 by done.
    assert (bool_decide (MType x = MessageTypeBlobGet) || bool_decide (MType x = MessageTypeBlobAck) = false) as ->.
    { rewrite orb_false_iff, !bool_decide_eq_false. naive_solver. }
    assert (bool_decide (MType x = MessageTypeBlobHas) || bool_decide (MType x = MessageTypeBlobMissing) = false) as ->.
    { rewrite orb_false_iff, !bool_decide_eq_false. naive_solver. }
    naive_solver.
Qed.

Lemma dec_message_json m : dec_message zero_message (json_message m) = Some m.
Proof.
  unfold dec_message, json_message, dec_struct. cbn [app]. json_member; [|reflexivity].
  destruct m as [ty key keys data]. cbn [MType MKey MKeys MData].
  destruct key as [|k0 key]; cbn [omitempty app]; [|json_member; [|apply dec_bytes_json]].
  all: destruct keys as [|k1 keys]; cbn [omitempty app];
    [|json_member; [|apply dec_slice_json; [done|intros; apply dec_bytes_json]]].
  all: destruct data as [|d0 data]; cbn [omitempty app]; [|json_member; [|apply dec_bytes_json]].
  all: done.
Qed.

Lemma Forall_omitempty {A} (P : bytes * json → Prop) (x : list A) kv : P kv → Forall P (omitempty x kv).
Proof. intros Hkv. destruct x; [apply Forall_nil_2|by apply Forall_singleton]. Qed.

Lemma json_message_ok m :
  utf8_ValidString (MType m) = true → json_ok (json_message m) ∧ json_depth (json_message m) <= max_depth.
Proof.
  intros Ht.
  assert (∀ b : bytes, json_ok (json_bytes b) ∧ json_depth (json_bytes b) <= 0) as Hb.
  { intros b. split; [cbn; apply b64_valid|done]. }
  assert (json_ok (JArr (json_bytes <$> MKeys m)) ∧ json_depth (JArr (json_bytes <$> MKeys m)) <= 1 + 0) as [Ha1 Ha2].
  { apply json_array_ok; [done|]. intros x _. apply Hb. }
  destruct (json_fields_ok ([(lit "type", JStr (MType m))] ++ omitempty (MKey m) (lit "key", json_bytes (MKey m)) ++
    omitempty (MKeys m) (lit "keys", JArr (json_bytes <$> MKeys m)) ++ omitempty (MData m) (lit "data", json_bytes (MData m))) 1) as [Hok Hd].
  - done.
  - rewrite !Forall_app, Forall_singleton.
    split_and!; try (apply Forall_omitempty; split_and!); try apply Hb; try done.
  - split; [exact Hok|]. unfold json_message. unfold max_depth. lia.
Qed.

Lemma Decode_marshal m l :
  message_ok (normalizeLimits l) m → Decode (marshal (json_message m)) l = Ok m.
Proof.
  intros Hm. apply Decode_Ok. split; [|done]. unfold json_Unmarshal.
  assert (utf8_ValidString (MType m) = true) as Ht.
  { destruct Hm as [(-> & _)|[([-> | ->] & _)|([-> | ->] & _)]]; vm_compute; reflexivity. }
  destruct (json_message_ok m Ht) as [Hok Hd]. rewrite unmarshal_marshal by done. apply dec_message_json.
Qed.

Lemma verifyContentKey_Ok key data :
  verifyContentKey key data = Ok tt ↔ (len key = SHA256KeyBytes → key = SHA256Key data).
Proof.
  unfold verifyContentKey. destruct (ValidateSHA256Key key) as [[]|e] eqn:Ev.
  - assert (len key = SHA256KeyBytes) as El.
    { unfold ValidateSHA256Key in Ev. destruct (len key =? SHA256KeyBytes) eqn:E; [by bool_to_prop|done]. }
    rewrite VerifySHA256Key_Ok. naive_solver.
  - split; [|done]. intros _ El. unfold ValidateSHA256Key in Ev. rewrite El in Ev. done.
Qed.

(** Storing a checked blob makes no key corrupt. *)
Lemma insert_not_corrupt m key data k :
  (len key = SHA256KeyBytes → key = SHA256Key data) → corrupt_entry (<[key := data]> m) k → corrupt_entry m k.
Proof.
  intros Hv (Hl & d & Hd & Hk). split; [done|]. exists d. split; [|done].
  apply lookup_insert_Some in Hd as [[<- <-]|[_ Hd]]; [|done]. by apply Hv in Hl.
Qed.

(** The messages a node can send, and their encoders. *)
Inductive outgoing :=
  | OutPut (key data : bytes) | OutHas (keys : list bytes) | OutGet (key : bytes) | OutMissing (keys : list bytes)
  | OutAck (key : bytes).
Definition message_of (o : outgoing) : Message :=
  match o with
  | OutPut key data => mkMessage MessageTypeBlobPut key [] data
  | OutHas keys => mkMessage MessageTypeBlobHas [] keys []
  | OutGet key => mkMessage MessageTypeBlobGet key [] []
  | OutMissing keys => mkMessage MessageTypeBlobMissing [] keys []
  | OutAck key => mkMessage MessageTypeBlobAck key [] []
  end.
Definition encode_message (o : outgoing) (l : ReplicationLimits) : result bytes :=
  match o with
  | OutPut key data => EncodeBlobPut key data l
  | OutHas keys => EncodeBlobHas keys l
  | OutGet key => EncodeBlobGet key l
  | OutMissing keys => EncodeBlobMissing keys l
  | OutAck key => EncodeBlobAck key l
  end.

Lemma encode_message_eq o l :
  (∃ e, encode_message o l = Err e ∧ ¬ message_ok (normalizeLimits l) (message_of o)) ∨
  encode_message o l = Ok (marshal (json_message (message_of o))) ∧ message_ok (normalizeLimits l) (message_of o).
Proof.
  assert (∀ (v : result unit) payload Q, (v = Ok tt ↔ Q) →
    (∃ e, rbind v (λ _, Ok payload) = Err e ∧ ¬ Q) ∨ @rbind unit bytes v (λ _, Ok payload) = Ok payload ∧ Q) as Hv.
  { intros [[]|e] payload Q HQ; cbn; [right; naive_solver|left; exists e; naive_solver]. }
  destruct o; cbn [encode_message]; unfold EncodeBlobPut, EncodeBlobHas, EncodeBlobGet, EncodeBlobMissing, EncodeBlobAck,
    encodeKeyListMessage; rewrite ?cloneKeys_id; cbn [app]; apply Hv; unfold message_ok, message_of;
    cbn [MType MKey MKeys MData]; unfold validateBlobPut; cbn [MType MKey MKeys MData];
    rewrite ?rbind_unit, ?guard_Ok, ?validateKey_Ok, ?validateKeys_Ok, ?Z.ltb_ge; naive_solver.
Qed.

(** ** Properties *)

(** Messages survive the wire.  Every message that an encoder of the protocol
    produces is decoded by a peer with the same limits to exactly the message
    that was meant; an encoder refuses exactly the messages that the limits
    exclude (and that [Decode] would therefore refuse). *)
Theorem message_roundtrip (o : outgoing) (l : ReplicationLimits) :
  match encode_message o l with
  | Ok payload => Decode payload l = Ok (message_of o)
  | Err _ => ¬ message_ok (normalizeLimits l) (message_of o)
  end.
Proof.
  destruct (encode_message_eq o l) as [(e & -> & Hn)|[-> Hm]]; [done|]. by apply Decode_marshal.
Qed.

(** A received blob is stored only under a key it matches.  [Apply] succeeds
    only for a put message within the limits, whose data is the preimage of the
    key whenever the key has the length of a digest, and then replaces exactly
    that entry; on an error the store is as it was, or holds the checked entry
    when the store's own [Put] failed half way.  No run makes a key corrupt. *)
Theorem Replication_Apply_verified {S : Type} `{BlobStoreSpec S} nil_store payload l (s : S) w res s' w'
    (Hf : fs_wf (w_fs w)) (Hb : bs_wf s (w_fs w))
    (Hrun : Replication_Apply nil_store payload l (s, w) = (res, (s', w'))) :
  bs_wf s' (w_fs w') ∧
  (∀ k, corrupt_entry (bs_contents s' (w_fs w')) k → corrupt_entry (bs_contents s (w_fs w)) k) ∧
  match res with
  | Ok _ => ∃ m, Decode payload l = Ok m ∧ MType m = MessageTypeBlobPut ∧
      (len (MKey m) = SHA256KeyBytes → MKey m = SHA256Key (MData m)) ∧
      bs_contents s' (w_fs w') = <[MKey m := MData m]> (bs_contents s (w_fs w))
  | Err _ => bs_contents s' (w_fs w') = bs_contents s (w_fs w) ∨
      ∃ m, Decode payload l = Ok m ∧ (len (MKey m) = SHA256KeyBytes → MKey m = SHA256Key (MData m)) ∧
        bs_contents s' (w_fs w') = <[MKey m := MData m]> (bs_contents s (w_fs w))
  end.
Proof.
  unfold Replication_Apply in Hrun.
  step Hrun as [] [s1 w1] E1; apply io_eq in E1 as [-> E1]; apply ctx_Err_fs in E1 as [Ew _];
    [|rewrite Ew; split_and!; by auto].
  destruct nil_store; [stop Hrun; rewrite Ew; split_and!; by auto|].
  step Hrun as m [s2 w2] E2; injection E2 as Em <- <-; [|rewrite Ew; split_and!; by auto].
  case_bool_decide as Et; [|stop Hrun; rewrite Ew; split_and!; by auto].
  step Hrun as [] [s2 w2] E2; injection E2 as Ev <- <-; [|rewrite Ew; split_and!; by auto].
  pose proof (proj1 (verifyContentKey_Ok _ _) Ev) as Hv. rewrite <- Ew in Hf, Hb |- *.
  destruct (bs_Put_run _ _ _ _ _ _ _ Hf Hb Hrun) as (Hb' & _ & _ & Hr). split; [done|].
  destruct res as [[]|e].
  - split; [intros k; rewrite Hr; by apply insert_not_corrupt|]. by exists m.
  - destruct Hr as [Hr|Hr]; (split; [intros k; rewrite Hr; try done; by apply insert_not_corrupt|]); [by left|].
    right. by exists m.
Qed.

(** *** Concrete runs *)

#[local] Abbreviation ex_put := (match EncodeBlobPut (SHA256Key (lit "hello")) (lit "hello") (mkReplicationLimits 0 0 0 0) with Ok p => p | Err _ => [] end).
#[local] Abbreviation ex_forged := (match EncodeBlobPut (SHA256Key (lit "hello")) (lit "world") (mkReplicationLimits 0 0 0 0) with Ok p => p | Err _ => [] end).
#[local] Abbreviation ex_nothing := (mkMemoryStore (T := gset bytes) ∅ None, ex_world []).
#[local] Abbreviation ex_stored := (Replication_Apply false ex_put (mkReplicationLimits 0 0 0 0) ex_nothing).

Lemma Replication_Apply_verified_witness :
  ex_stored.1 = Ok tt ∧ (∀ k, ¬ corrupt_entry (ms_data ex_stored.2.1) k) ∧
  (Replication_Apply false ex_forged (mkReplicationLimits 0 0 0 0) ex_nothing).1 = Err storage_ErrSHA256Mismatch.
Proof.
  assert (ex_stored.1 = Ok tt) as E by (vm_compute; reflexivity).
  destruct (Replication_Apply_verified false ex_put (mkReplicationLimits 0 0 0 0) ex_nothing.1 ex_nothing.2 (Ok tt)
    ex_stored.2.1 ex_stored.2.2) as (_ & Hc & _); [exact fs_wf_empty|by split|apply run_eq2; exact E|].
  split; [exact E|]. split; [|vm_compute; reflexivity]. intros k Hk. destruct (Hc k Hk) as (_ & d & Hd & _).
  cbn in Hd. by rewrite lookup_empty in Hd.
Defined.
