(* ===== verification/Peers.v ===== *)
(** * Peers of the lifecycle runtime

    lifecycle_cli.go from [AttachPeer] on, and [repairPeerKey] of main.go: which
    peers have a repair session, who runs it, and what the runtime reports.

    A session is an object shared by the session table and by the goroutine that
    runs it, so the model keeps session objects in a heap: an entry of the table
    holds the object's address, and an object keeps its goroutine also when the
    entry is gone or replaced.  The journal,
    the state, the book and the limits inside a session are the runtime's own:
    they are lent to the session for each call and taken back after it. *)
From S2P Require Import Prelude Go Bits Text Json Os Paths Model Codec Journal Compact Transport Repair StateFile Watermark Authority Membership Blobs Applier Session Runtime RuntimeInv Protocol.

(** What the runtime asks of a [p2p.Peer].  [None] stands for an interface that
    the dynamic type does not have. *)
Class NodePeer (P : Type) := {
  LocalAddr : P → option bytes;
  RemoteAddr : P → bytes;
  IsOutbound : P → bool;
  AuthIdentity : P → option bytes;
  AuthCapabilitiesOf : P → option (list bytes);
  WritesFrames : P → bool
}.

Definition authIdentityForPeer `{NodePeer P} (peer : P) : bytes := default [] (AuthIdentity peer).
Definition authCapabilitiesForPeer `{NodePeer P} (peer : P) : list bytes := default [] (AuthCapabilitiesOf peer).

(** The separator is a NUL byte. *)
Definition repairPeerKey `{NodePeer P} (peer : P) : bytes :=
  let direction := if IsOutbound peer then lit "outbound" else lit "inbound" in
  default [] (LocalAddr peer) ++ Zbyte 0 :: RemoteAddr peer ++ Zbyte 0 :: direction.

(** ** Status *)

Record lifecycleStatus := mkStatus {
  st_Enabled : bool; st_Ready : bool; st_Readiness : bytes;
  st_AuthorityID : bytes; st_AuthorityVersion : Version;
  st_JournalFloor : Version; st_JournalTail : Version; st_JournalEntries : Z; st_JournalBytes : Z;
  st_LogicalRecords : Z; st_Tombstones : Z;
  st_MembershipConfigured : bool; st_MembershipMembers : Z; st_MembershipAcknowledged : Z; st_MembershipMinimum : Version;
  st_CompactionTarget : Version; st_CompactionBlocked : bool; st_CompactionBlockedReason : bytes;
  st_RepairSessionsActive : Z; st_RepairSessionsStarted : Z; st_RepairSessionsCompleted : Z; st_RepairSessionErrors : Z;
  st_RepairFramesReceived : Z; st_RepairFrameErrors : Z
}.

(** [None]: the nil runtime of a node without lifecycle. *)
Definition Ready (r : option runtime_parts) : bool :=
  match r with
  | None => true
  | Some p => pt_journal p && pt_authority p && pt_watermarks p && pt_membership p && pt_coordinator p && pt_state p && pt_applier p
  end.
Definition Status {S} (r : option (runtime_parts * lifecycleRuntime S)) (w : world) : lifecycleStatus :=
  match r with
  | None => mkStatus false true (lit "raw-only") [] zero_version zero_version zero_version 0 0 0 0 false 0 0 zero_version
              zero_version false [] 0 0 0 0 0 0
  | Some (p, rt) =>
      let ready := Ready (Some p) in
      let authority := if pt_authority p then (a_authorityID (lr_authority rt), Current (lr_authority rt)) else ([], zero_version) in
      let journal := if pt_journal p then Journal_Stats (lr_journal rt) else mkJournalStats zero_version zero_version 0 0 in
      let state := if pt_state p then Stats (lr_state rt) else mkStoreStats 0 0 in
      let progress := compactionProgress p rt w in
      let blocked := compactionStatus p rt progress in
      mkStatus true ready (if ready then lit "ready" else lit "lifecycle-state-unavailable")
        authority.1 authority.2
        (SFloor journal) (SLast journal) (SEntries journal) (SBytes journal) (Records state) (Tombstones state)
        (PConfigured progress) (PMembers progress) (PAcknowledged progress) (PMinimum progress) (PTarget progress)
        blocked.1 blocked.2
        (lr_metrics rt SessionsActive) (lr_metrics rt SessionsStarted) (lr_metrics rt SessionsCompleted)
        (lr_metrics rt SessionErrors) (lr_metrics rt FramesReceived) (lr_metrics rt FrameErrors)
  end.

Definition boolMetric (value : bool) : Z := if value then 1 else 0.
(** Conversion of a [uint64] to [int64]. *)
Definition to_int64 (z : Z) : Z := (z + 2 ^ 63) mod 2 ^ 64 - 2 ^ 63.
Definition Metrics {S} (r : option (runtime_parts * lifecycleRuntime S)) (w : world) : list (bytes * Z) :=
  match r with
  | None => []
  | Some (_, rt) =>
      let status := Status r w in
      let metric m := to_int64 (lr_metrics rt m) in
      [(lit "lifecycle_enabled", 1);
       (lit "lifecycle_ready", boolMetric (st_Ready status));
       (lit "lifecycle_authority_epoch", to_int64 (Epoch (st_AuthorityVersion status)));
       (lit "lifecycle_authority_sequence", to_int64 (Sequence (st_AuthorityVersion status)));
       (lit "lifecycle_journal_floor_epoch", to_int64 (Epoch (st_JournalFloor status)));
       (lit "lifecycle_journal_floor_sequence", to_int64 (Sequence (st_JournalFloor status)));
       (lit "lifecycle_journal_tail_epoch", to_int64 (Epoch (st_JournalTail status)));
       (lit "lifecycle_journal_tail_sequence", to_int64 (Sequence (st_JournalTail status)));
       (lit "lifecycle_journal_entries", st_JournalEntries status);
       (lit "lifecycle_journal_bytes", st_JournalBytes status);
       (lit "lifecycle_logical_records", st_LogicalRecords status);
       (lit "lifecycle_tombstones", st_Tombstones status);
       (lit "lifecycle_membership_configured", boolMetric (st_MembershipConfigured status));
       (lit "lifecycle_membership_members", st_MembershipMembers status);
       (lit "lifecycle_membership_acknowledged", st_MembershipAcknowledged status);
       (lit "lifecycle_membership_min_epoch", to_int64 (Epoch (st_MembershipMinimum status)));
       (lit "lifecycle_membership_min_sequence", to_int64 (Sequence (st_MembershipMinimum status)));
       (lit "lifecycle_compaction_target_epoch", to_int64 (Epoch (st_CompactionTarget status)));
       (lit "lifecycle_compaction_target_sequence", to_int64 (Sequence (st_CompactionTarget status)));
       (lit "lifecycle_compaction_blocked", boolMetric (st_CompactionBlocked status));
       (lit "lifecycle_repair_sessions_started", metric SessionsStarted);
       (lit "lifecycle_repair_sessions_completed", metric SessionsCompleted);
       (lit "lifecycle_repair_sessions_active", lr_metrics rt SessionsActive);
       (lit "lifecycle_repair_session_errors", metric SessionErrors);
       (lit "lifecycle_repair_frames_received", metric FramesReceived);
       (lit "lifecycle_repair_frame_errors", metric FrameErrors);
       (lit "lifecycle_mutations_started", metric MutationsStarted);
       (lit "lifecycle_mutations_applied", metric MutationsApplied);
       (lit "lifecycle_mutation_errors", metric MutationErrors)]
  end.

(** ** Routing of frames *)

Definition isLifecycleRepairPayload (payload : bytes) : bool :=
  match json_Unmarshal dec_type [] payload with
  | None => false
  | Some type => bool_decide (type = RepairBatchMessageType) || bool_decide (type = RepairSnapshotMessageType) ||
                 bool_decide (type = RepairAckMessageType)
  end.

(** ** The node *)

Record lifecycleSessionEntry := mkSessionEntry { se_session : nat; se_active : bool }.
(** A session object with its goroutine: where [Run] stands, whether its
    context was cancelled and whether it has not returned yet. *)
Record sessionObject (P S : Type) := mkSessionObject {
  so_session : RepairSession P S;
  so_peer : P;
  so_key : bytes;
  so_pc : run_pc;
  so_cancelled : bool;
  so_running : bool
}.
Arguments mkSessionObject {P S} _ _ _ _ _ _.
Arguments so_session {P S} _.
Arguments so_peer {P S} _.
Arguments so_key {P S} _.
Arguments so_pc {P S} _.
Arguments so_cancelled {P S} _.
Arguments so_running {P S} _.

Record lifecycleNode (P S : Type) := mkNode {
  ln_runtime : lifecycleRuntime S;
  ln_sessions : gmap bytes lifecycleSessionEntry;
  ln_objects : gmap nat (sessionObject P S);
  ln_next : nat
}.
Arguments mkNode {P S} _ _ _ _.
Arguments ln_runtime {P S} _.
Arguments ln_sessions {P S} _.
Arguments ln_objects {P S} _.
Arguments ln_next {P S} _.

Section node.
Context `{UnicodePrint} {P S : Type} `{NodePeer P} `{RepairFramePeer P} `{BlobStore S}.
Implicit Types n : lifecycleNode P S.

Definition on_runtime (g : lifecycleRuntime S → lifecycleRuntime S) n : lifecycleNode P S :=
  mkNode (g (ln_runtime n)) (ln_sessions n) (ln_objects n) (ln_next n).
Definition add_metric (m : runtime_metric) (z : Z) n : lifecycleNode P S :=
  on_runtime (λ r, set_metrics (runtime_add m z (lr_metrics r)) r) n.
Definition set_sessions (ss : gmap bytes lifecycleSessionEntry) n : lifecycleNode P S :=
  mkNode (ln_runtime n) ss (ln_objects n) (ln_next n).
Definition set_objects (os : gmap nat (sessionObject P S)) n : lifecycleNode P S :=
  mkNode (ln_runtime n) (ln_sessions n) os (ln_next n).

(** The [cancel] of an entry. *)
Definition cancel (e : lifecycleSessionEntry) n : lifecycleNode P S :=
  set_objects (alter (λ o, mkSessionObject (so_session o) (so_peer o) (so_key o) (so_pc o) true (so_running o)) (se_session e) (ln_objects n)) n.
(** [SessionsActive.Add(-1)] when the entry is active. *)
Definition retire (e : lifecycleSessionEntry) n : lifecycleNode P S :=
  if se_active e then add_metric SessionsActive (-1) n else n.

(** The session with the runtime's parts in it, and the runtime after a call. *)
Definition lend (r : lifecycleRuntime S) (s : RepairSession P S) : RepairSession P S :=
  set_parts (rs_peer s) (mkRepairCoordinator (lr_journal r) (lr_watermarks r) (lr_repairLimits r)) (Some (lr_applier r)) s.
Definition take_back (s : RepairSession P S) (r : lifecycleRuntime S) : lifecycleRuntime S :=
  mkRuntime (lr_checkpointPath r) (lr_repairLimits r) (lr_authority r) (rc_watermarks (rs_coordinator s)) (lr_membership r)
    match rs_applier s with Some a => set_journal (rc_journal (rs_coordinator s)) a | None => lr_applier r end
    (lr_snapshot r) (lr_metrics r).

(** ** Operations *)

(** [reconcile] is what [ReconcilePeer] is set to from the capabilities. *)
Definition AttachPeer (peer : P) (maxFrameBytes : Z) n : lifecycleNode P S :=
  if negb (HasLifecycleCapability (authCapabilitiesForPeer peer)) then n
  else if negb (WritesFrames peer) then add_metric SessionErrors 1 n
  else
    let remoteID := authIdentityForPeer peer in
    if bool_decide (remoteID = []) then add_metric SessionErrors 1 n
    else
      let r := ln_runtime n in
      match NewRepairSession (mkRepairSessionOptions _ _ (Some peer)
              (Some (mkRepairCoordinator (lr_journal r) (lr_watermarks r) (lr_repairLimits r))) (Some (lr_applier r)) remoteID
              (lr_snapshot r) (lr_checkpointPath r) maxFrameBytes
              (HasRepairReconciliationCapability (authCapabilitiesForPeer peer))) with
      | Err _ => add_metric SessionErrors 1 n
      | Ok session =>
          let key := repairPeerKey peer in
          let n := match ln_sessions n !! key with
                   | Some previous => retire previous (cancel previous n)
                   | None => n
                   end in
          let id := ln_next n in
          let n := mkNode (ln_runtime n) (<[key := mkSessionEntry id true]> (ln_sessions n))
                     (<[id := mkSessionObject session peer key RunStart false true]> (ln_objects n)) (Datatypes.S id) in
          add_metric SessionsActive 1 (add_metric SessionsStarted 1 n)
      end.

Definition finishSession (key : bytes) (session : nat) n : lifecycleNode P S :=
  match ln_sessions n !! key with
  | None => n
  | Some e =>
      if negb (se_session e =? session)%nat || negb (se_active e) then n
      else add_metric SessionsActive (-1) (set_sessions (<[key := mkSessionEntry (se_session e) false]> (ln_sessions n)) n)
  end.

Definition ForgetPeer (peer : P) n : lifecycleNode P S :=
  let key := repairPeerKey peer in
  match ln_sessions n !! key with
  | None => n
  | Some e => retire e (cancel e (set_sessions (delete key (ln_sessions n)) n))
  end.

(** The frame goes to the session object of the peer's entry; its goroutine may
    have returned.  An entry's address is never dangling ([entry_object]). *)
Definition HandleFrame (peer : P) (payload : bytes) : M (lifecycleNode P S * world) unit := λ nw,
  let '(n, w) := nw in
  match ln_sessions n !! repairPeerKey peer with
  | None => (Err (ErrText (lit "lifecycle: repair session unavailable")), (n, w))
  | Some e =>
      let n := add_metric FramesReceived 1 n in
      match ln_objects n !! se_session e with
      | None => (Err ErrNilRepairSessionPeer, (n, w))
      | Some o =>
          let '(r, (s', w')) := Handle payload (lend (ln_runtime n) (so_session o), w) in
          let n := mkNode (take_back s' (ln_runtime n)) (ln_sessions n)
                     (<[se_session e := mkSessionObject s' (so_peer o) (so_key o) (so_pc o) (so_cancelled o) (so_running o)]> (ln_objects n)) (ln_next n) in
          match r with
          | Ok _ => (Ok tt, (n, w'))
          | Err err => (Err err, (add_metric FrameErrors 1 n, w'))
          end
      end
  end.

(** Every context is cancelled and every entry removed, then the goroutines are
    waited for and the journal closed. *)
Definition cancel_all n : lifecycleNode P S :=
  foldr (λ e n, cancel e n) n (map_to_list (ln_sessions n)).*2.
Definition Close_sessions n : lifecycleNode P S :=
  on_runtime (λ r, set_metrics (runtime_set SessionsActive 0 (lr_metrics r)) r) (set_sessions ∅ (cancel_all n)).
Definition Close_journal : M (lifecycleNode P S * world) unit :=
  zoom (λ s, (ln_runtime s.1, s.2)) (λ t s, (on_runtime (λ _, t.1) s.1, t.2)) (in_applier (in_journal Journal_Close)).

(** ** The goroutines *)

(** A cancelled context ends the calls of its goroutine. *)
Definition in_context (o : sessionObject P S) (w : world) : Prop := so_cancelled o = true → w_ctx w = Some 0%nat.

Definition set_object (id : nat) (o : sessionObject P S) n : lifecycleNode P S := set_objects (<[id := o]> (ln_objects n)) n.
(** The goroutine after a step of [Run]. *)
Definition ran (id : nat) (o : sessionObject P S) (pc : run_pc) (s : RepairSession P S) n : lifecycleNode P S :=
  set_object id (mkSessionObject s (so_peer o) (so_key o) pc (so_cancelled o) (so_running o)) (on_runtime (take_back s) n).

(** [beforeRepair]: select the records, then send their blobs. *)
Definition beforeRepair (rawSync : P → list record → M world unit) (o : sessionObject P S) : M (lifecycleNode P S * world) unit :=
  attempt
    (records <- zoom (λ s, (ln_runtime s.1, s.2)) (λ t s, (on_runtime (λ _, t.1) s.1, t.2))
                  (recordsForRawSync (rs_peerID (so_session o))) ;
     io (rawSync (so_peer o) records))
    (λ r, match r with
          | Ok _ => ret tt
          | Err e => (if errors_Is e ErrContext then ret tt else update (add_metric SessionErrors 1)) ;; throw e
          end).

(** The end of the goroutine: count the result, then [finishSession]. *)
Definition returned (id : nat) (o : sessionObject P S) (r : result unit) n : lifecycleNode P S :=
  let n := match r with
           | Ok _ => add_metric SessionsCompleted 1 n
           | Err e => if errors_Is e ErrContext then n else add_metric SessionErrors 1 n
           end in
  finishSession (so_key o) id
    (set_object id (mkSessionObject (so_session o) (so_peer o) (so_key o) (so_pc o) (so_cancelled o) false) n).

(** The local commands. *)
Inductive runtime_call : M (lifecycleRuntime S * world) unit → Prop :=
  | call_put namespace logicalKey data blobKey : runtime_call (put namespace logicalKey data blobKey ;; ret tt)
  | call_delete namespace logicalKey : runtime_call (runtime_delete namespace logicalKey ;; ret tt)
  | call_compact : runtime_call compact.

(** One step of the node: a connection event, a frame, a step of a goroutine, a
    local command, a shutdown.  The state is the node and the disk; every call
    comes with its own context and meets its own system-call outcomes. *)
Inductive node_step (rawSync : option (P → list record → M world unit))
    : lifecycleNode P S * fs → lifecycleNode P S * fs → Prop :=
  | node_attach peer max n f : node_step rawSync (n, f) (AttachPeer peer max n, f)
  | node_forget peer n f : node_step rawSync (n, f) (ForgetPeer peer n, f)
  | node_frame peer payload n w r n' w' :
      HandleFrame peer payload (n, w) = (r, (n', w')) → node_step rawSync (n, w_fs w) (n', w_fs w')
  | node_run id o n w pc s w' :
      ln_objects n !! id = Some o → so_running o = true → so_pc o ≠ RunBefore → in_context o w →
      run_step None (so_pc o) (lend (ln_runtime n) (so_session o), w) pc (s, w') →
      node_step rawSync (n, w_fs w) (ran id o pc s n, w_fs w')
  | node_no_callback id o n f :
      ln_objects n !! id = Some o → so_running o = true → so_pc o = RunBefore → rawSync = None →
      node_step rawSync (n, f) (ran id o RunPlan (lend (ln_runtime n) (so_session o)) n, f)
  | node_callback sync id o n w r n' w' :
      ln_objects n !! id = Some o → so_running o = true → so_pc o = RunBefore → in_context o w → rawSync = Some sync →
      beforeRepair sync o (n, w) = (r, (n', w')) →
      node_step rawSync (n, w_fs w)
        (set_object id (mkSessionObject (so_session o) (so_peer o) (so_key o) (failed_at r RunPlan) (so_cancelled o) true) n', w_fs w')
  | node_return id o r n f :
      ln_objects n !! id = Some o → so_running o = true → so_pc o = RunDone r →
      node_step rawSync (n, f) (returned id o r n, f)
  | node_command call n w r rt w' :
      runtime_call call → call (ln_runtime n, w) = (r, (rt, w')) →
      node_step rawSync (n, w_fs w) (on_runtime (λ _, rt) n, w_fs w')
  | node_close n f : node_step rawSync (n, f) (Close_sessions n, f)
  | node_closed n w r n' w' :
      ln_sessions n = ∅ → (∀ id o, ln_objects n !! id = Some o → so_running o = false) →
      Close_journal (n, w) = (r, (n', w')) → node_step rawSync (n, w_fs w) (n', w_fs w').
End node.

(** ** The gauge of active sessions *)

Definition active_count (ss : gmap bytes lifecycleSessionEntry) : Z :=
  len (filter (λ kv : bytes * lifecycleSessionEntry, se_active kv.2 = true) (map_to_list ss)).
Definition active_at (ss : gmap bytes lifecycleSessionEntry) (key : bytes) : Z :=
  match ss !! key with Some e => if se_active e then 1 else 0 | None => 0 end.

Lemma active_count_split ss key : active_count ss = active_count (delete key ss) + active_at ss key.
Proof.
  unfold active_at. destruct (ss !! key) as [e|] eqn:Ee; [|by rewrite delete_id, Z.add_0_r].
  unfold active_count, len at 1. erewrite Permutation_length.
  2:{ apply filter_Permutation. rewrite <- (insert_delete_id ss key e Ee) at 1.
      apply map_to_list_insert, lookup_delete_eq. }
  rewrite filter_cons. cbn [snd]. destruct (se_active e); [rewrite decide_True by done|rewrite decide_False by done]; cbn [length]; unfold len; lia.
Qed.
Lemma active_count_insert ss key e :
  active_count (<[key := e]> ss) = active_count ss - active_at ss key + (if se_active e then 1 else 0).
Proof.
  rewrite (active_count_split (<[key := e]> ss) key), (active_count_split ss key), delete_insert_eq.
  assert (active_at (<[key := e]> ss) key = if se_active e then 1 else 0) as -> by (unfold active_at; by rewrite lookup_insert_eq). lia.
Qed.
Lemma active_count_delete ss key : active_count (delete key ss) = active_count ss - active_at ss key.
Proof. rewrite (active_count_split ss key). lia. Qed.

Lemma sessions_gauge_add z ms c :
  ms SessionsActive = runtime_wrap SessionsActive c →
  runtime_add SessionsActive z ms SessionsActive = runtime_wrap SessionsActive (c + z).
Proof.
  intros Hc. unfold runtime_add, runtime_set. rewrite bool_decide_eq_true_2 by done. rewrite Hc.
  unfold runtime_wrap. rewrite bool_decide_eq_true_2 by done. f_equal.
  replace ((c + 2 ^ 63) mod 2 ^ 64 - 2 ^ 63 + z + 2 ^ 63) with ((c + 2 ^ 63) mod 2 ^ 64 + z) by lia.
  rewrite Zplus_mod_idemp_l. f_equal. lia.
Qed.
Lemma gauge_other m z ms : m ≠ SessionsActive → runtime_add m z ms SessionsActive = ms SessionsActive.
Proof. intros Hm. unfold runtime_add, runtime_set. by rewrite bool_decide_eq_false_2. Qed.

(** Calls of the runtime that leave the gauge alone. *)
Section gauge.
Context `{UnicodePrint} {S : Type} `{BlobStore S}.

Definition keeps_gauge {A} (m : M (lifecycleRuntime S * world) A) : Prop :=
  ∀ t, lr_metrics (m t).2.1 SessionsActive = lr_metrics t.1 SessionsActive.

Lemma keeps_bind {A B} (m : M (lifecycleRuntime S * world) A) (k : A → M (lifecycleRuntime S * world) B) :
  keeps_gauge m → (∀ a, keeps_gauge (k a)) → keeps_gauge (bind m k).
Proof.
  intros Hm Hk t. unfold bind. specialize (Hm t). destruct (m t) as [[a|e] t1]; [|done]. by rewrite Hk.
Qed.
Lemma keeps_attempt {A B} (m : M (lifecycleRuntime S * world) A) (k : result A → M (lifecycleRuntime S * world) B) :
  keeps_gauge m → (∀ r, keeps_gauge (k r)) → keeps_gauge (attempt m k).
Proof. intros Hm Hk t. unfold attempt. specialize (Hm t). destruct (m t) as [r t1]. by rewrite Hk. Qed.
Lemma keeps_count m : m ≠ SessionsActive → keeps_gauge (count_metric m).
Proof. intros Hm t. by apply gauge_other. Qed.
Lemma keeps_counted {A} (m : M (lifecycleRuntime S * world) A) : keeps_gauge m → keeps_gauge (counted m).
Proof.
  intros Hm. apply keeps_attempt; [done|]. intros [a|e]; [by intros t|]. apply keeps_bind; [by apply keeps_count|]. by intros ? t.
Qed.
Lemma keeps_applier {A} (m : M (Applier S * world) A) : keeps_gauge (in_applier m).
Proof. intros t. unfold in_applier, zoom. by destruct (m _). Qed.
Lemma keeps_authority {A} (m : M (Authority * world) A) : keeps_gauge (on_authority m).
Proof. intros t. unfold on_authority, zoom. by destruct (m _). Qed.
Lemma keeps_io {A} (m : M world A) : keeps_gauge (io m).
Proof. intros [r w]. by rewrite io_run. Qed.
Lemma keeps_pure {A} (r : result A) : keeps_gauge (lift r).
Proof. by intros t. Qed.

Ltac gauges := repeat first
  [ done | apply keeps_pure | apply keeps_applier | apply keeps_authority | apply keeps_io | by apply keeps_count
  | apply keeps_counted | apply keeps_bind | apply keeps_attempt | by intros t | intros ? | case_match ].

Lemma keeps_call (call : M (lifecycleRuntime S * world) unit) : runtime_call call → keeps_gauge call.
Proof.
  intros [ns key data bk|ns key|].
  - apply keeps_bind; [|by intros ? t]. unfold put, nextVersion. gauges.
  - apply keeps_bind; [|by intros ? t]. unfold runtime_delete, nextVersion. gauges.
  - unfold compact. gauges.
Qed.
Lemma keeps_raw_sync peerID : keeps_gauge (recordsForRawSync peerID).
Proof. unfold recordsForRawSync. gauges. Qed.
End gauge.

(** ** The invariant of the session table *)

Section node_facts.
Context `{UnicodePrint} {P S : Type} `{NodePeer P} `{RepairFramePeer P} `{BlobStore S}.
Implicit Types n : lifecycleNode P S.

(** The gauge counts the active entries; an entry holds an object of its key,
    whose goroutine runs while the entry is active; a goroutine that runs and is
    not cancelled is the active one of its key. *)
Record node_inv n : Prop := {
  ni_gauge : lr_metrics (ln_runtime n) SessionsActive = runtime_wrap SessionsActive (active_count (ln_sessions n));
  ni_entry : ∀ key e, ln_sessions n !! key = Some e → ∃ o, ln_objects n !! se_session e = Some o ∧ so_key o = key ∧
    (se_active e = true → so_running o = true);
  ni_fresh : ∀ id o, ln_objects n !! id = Some o → (id < ln_next n)%nat;
  ni_live : ∀ id o, ln_objects n !! id = Some o → so_running o = true → so_cancelled o = false →
    ln_sessions n !! so_key o = Some (mkSessionEntry id true)
}.

(** An object changed in place: same key, no more alive than before. *)
Record same_object (o o' : sessionObject P S) : Prop := {
  sb_key : so_key o' = so_key o;
  sb_running : so_running o' = so_running o;
  sb_cancelled : so_cancelled o' = so_cancelled o
}.

(** Changes that do not concern the table. *)
Lemma node_inv_runtime rt n :
  lr_metrics rt SessionsActive = lr_metrics (ln_runtime n) SessionsActive → node_inv n → node_inv (on_runtime (λ _, rt) n).
Proof. intros E [G ? ? ?]. split; try done. cbn. by rewrite E. Qed.
Lemma node_inv_metric m z n : m ≠ SessionsActive → node_inv n → node_inv (add_metric m z n).
Proof. intros Hm. apply (node_inv_runtime _ n). by apply gauge_other. Qed.
Lemma node_inv_object id o o' n :
  ln_objects n !! id = Some o → same_object o o' → node_inv n → node_inv (set_object id o' n).
Proof.
  intros Ho [Ek Er Ec] [G E F L]. split; cbn; [done| | |].
  - intros key e He. destruct (E key e He) as (x & Hx & Hk & Hr). destruct (decide (id = se_session e)) as [->|Hne].
    + rewrite lookup_insert_eq. exists o'. rewrite Ho in Hx. injection Hx as <-. split_and!; [done|congruence|]. by rewrite Er.
    + rewrite lookup_insert_ne by done. by exists x.
  - intros id' x. rewrite lookup_insert_Some. intros [[<- <-]|[_ Hx]]; by eapply F.
  - intros id' x. rewrite lookup_insert_Some. intros [[<- <-]|[_ Hx]]; [|by apply L]. rewrite Ek, Er, Ec. by apply L.
Qed.

Lemma ran_inv id o pc s n : ln_objects n !! id = Some o → node_inv n → node_inv (ran id o pc s n).
Proof. intros Ho Hn. apply (node_inv_object id o); [done|done|]. by apply (node_inv_runtime (take_back s (ln_runtime n))). Qed.

Lemma HandleFrame_inv peer payload n w r n' w' :
  node_inv n → HandleFrame peer payload (n, w) = (r, (n', w')) → node_inv n'.
Proof.
  intros Hn HF. unfold HandleFrame in HF. destruct (ln_sessions n !! _) as [e|]; [|by injection HF as _ <- _].
  pose proof (node_inv_metric FramesReceived 1 n ltac:(done) Hn) as Hn1. set (n1 := add_metric FramesReceived 1 n) in *.
  destruct (ln_objects n1 !! se_session e) as [o|] eqn:Eo; [|by injection HF as _ <- _].
  destruct (Handle payload _) as [rh [s' w1]].
  pose proof (ran_inv (se_session e) o (so_pc o) s' n1 Eo Hn1) as Hn2.
  destruct rh; injection HF as _ <- _; [exact Hn2|]. by apply node_inv_metric.
Qed.

(** A call of the runtime on the node. *)
Lemma on_runtime_inv {A} (m : M (lifecycleRuntime S * world) A) n w r n' w' :
  keeps_gauge m → node_inv n →
  zoom (λ s, (ln_runtime s.1, s.2)) (λ t s, (on_runtime (λ _, t.1) s.1, t.2)) m (n, w) = (r, (n', w')) →
  node_inv n' ∧ ln_objects n' = ln_objects n.
Proof.
  intros Hm Hn. unfold zoom. cbn [fst snd]. specialize (Hm (ln_runtime n, w)).
  destruct (m _) as [r3 [rt w3]]. intros [= <- <- <-]. split; [|done]. by apply node_inv_runtime.
Qed.

Lemma beforeRepair_inv sync o n w r n' w' :
  node_inv n → beforeRepair sync o (n, w) = (r, (n', w')) → node_inv n' ∧ ln_objects n' = ln_objects n.
Proof.
  intros Hn HB. unfold beforeRepair, attempt in HB.
  match type of HB with context [let '(_, _) := ?m (n, w) in _] => destruct (m (n, w)) as [r1 [n1 w1]] eqn:E1 end.
  assert (node_inv n1 ∧ ln_objects n1 = ln_objects n) as [Hn1 Eo].
  { step E1 as rs [n2 w2] E2; apply on_runtime_inv in E2; try done; try apply keeps_raw_sync. apply io_eq in E1 as [-> _]. done. }
  destruct r1 as [[]|e]; [injection HB as _ <- _; done|]. unfold bind in HB. destruct (errors_Is e ErrContext); injection HB as _ <- _; [done|].
  split; [by apply node_inv_metric|done].
Qed.

(** *** Cancelling *)

Lemma cancel_lookup e n id :
  ln_objects (cancel e n) !! id =
  (λ o, mkSessionObject (so_session o) (so_peer o) (so_key o) (so_pc o) (so_cancelled o || (se_session e =? id)%nat) (so_running o)) <$> ln_objects n !! id.
Proof.
  cbn. destruct (Nat.eqb_spec (se_session e) id) as [->|Hne].
  - rewrite lookup_alter_eq. destruct (ln_objects n !! id) as [o|]; [|done]. cbn. by rewrite orb_true_r.
  - rewrite lookup_alter_ne by done. destruct (ln_objects n !! id) as [o|]; [|done]. cbn. rewrite orb_false_r. by destruct o.
Qed.

Lemma retire_sessions e n : ln_sessions (retire e n) = ln_sessions n.
Proof. by destruct e as [? []]. Qed.
Lemma retire_objects e n : ln_objects (retire e n) = ln_objects n.
Proof. by destruct e as [? []]. Qed.
Lemma retire_next e n : ln_next (retire e n) = ln_next n.
Proof. by destruct e as [? []]. Qed.
Lemma retire_gauge e n c :
  lr_metrics (ln_runtime n) SessionsActive = runtime_wrap SessionsActive c →
  lr_metrics (ln_runtime (retire e n)) SessionsActive = runtime_wrap SessionsActive (c - if se_active e then 1 else 0).
Proof.
  intros G. unfold retire. destruct (se_active e); [|by rewrite Z.sub_0_r]. cbn. by rewrite (sessions_gauge_add _ _ _ G).
Qed.

(** Removing an entry after its context was cancelled. *)
Definition drop_entry (key : bytes) (e : lifecycleSessionEntry) n : lifecycleNode P S :=
  retire e (cancel e (set_sessions (delete key (ln_sessions n)) n)).
Lemma drop_entry_inv key e n : ln_sessions n !! key = Some e → node_inv n → node_inv (drop_entry key e n).
Proof.
  intros He [G E F L]. unfold drop_entry. split; rewrite ?retire_sessions, ?retire_objects, ?retire_next.
  - rewrite (retire_gauge _ _ (active_count (ln_sessions n))) by exact G. f_equal. cbn. rewrite active_count_delete. unfold active_at. by rewrite He.
  - intros k e'. change (ln_sessions (cancel _ _)) with (delete key (ln_sessions n)). rewrite lookup_delete_Some. intros [Hne He']. destruct (E k e' He') as (o & Ho & Hk & Hr).
    rewrite cancel_lookup. cbn. rewrite Ho. eexists. split; [done|]. by split.
  - intros id o. rewrite cancel_lookup. intros (x & Hx & _)%fmap_Some. by eapply F.
  - intros id o. rewrite cancel_lookup. cbn. intros (x & Hx & ->)%fmap_Some. cbn. intros Hr [Hc Hid]%orb_false_iff.
    rewrite lookup_delete_ne; [by apply L|]. intros ->. rewrite (L id x Hx Hr Hc) in He. injection He as <-. cbn in Hid.
    by apply Nat.eqb_neq in Hid.
Qed.

Lemma add_session_inv key session peer n :
  ln_sessions n !! key = None → node_inv n →
  node_inv (add_metric SessionsActive 1 (add_metric SessionsStarted 1
    (mkNode (ln_runtime n) (<[key := mkSessionEntry (ln_next n) true]> (ln_sessions n))
       (<[ln_next n := mkSessionObject session peer key RunStart false true]> (ln_objects n)) (Datatypes.S (ln_next n))))).
Proof.
  intros Hno [G E F L].
  assert (ln_objects n !! ln_next n = None) as Hnew.
  { destruct (ln_objects n !! ln_next n) as [o|] eqn:Eo; [|done]. apply F in Eo. lia. }
  split; cbn.
  - rewrite (sessions_gauge_add _ _ (active_count (ln_sessions n))) by (by rewrite gauge_other). f_equal.
    rewrite active_count_insert. unfold active_at. rewrite Hno. cbn. lia.
  - intros k e. rewrite lookup_insert_Some. intros [[<- <-]|[Hne He]].
    + eexists. cbn. rewrite lookup_insert_eq. by split.
    + destruct (E k e He) as (o & Ho & Hk & Hr). exists o. rewrite lookup_insert_ne; [done|]. congruence.
  - intros id o. rewrite lookup_insert_Some. intros [[<- <-]|[_ Ho]]; [lia|]. apply F in Ho. lia.
  - intros id o. rewrite lookup_insert_Some. intros [[<- <-]|[_ Ho]]; [cbn; by rewrite lookup_insert_eq|]. intros Hr Hc.
    pose proof (L id o Ho Hr Hc) as Hl. rewrite lookup_insert_ne; [done|]. intros Hk. rewrite <- Hk in Hl. by rewrite Hno in Hl.
Qed.

Lemma AttachPeer_inv peer max n : node_inv n → node_inv (AttachPeer peer max n).
Proof.
  intros Hn. unfold AttachPeer. cbv zeta. destruct (negb _); [done|]. destruct (negb _); [by apply node_inv_metric|].
  case_bool_decide; [by apply node_inv_metric|]. destruct (NewRepairSession _) as [session|e]; [|by apply node_inv_metric].
  set (key := repairPeerKey peer). destruct (ln_sessions n !! key) as [e|] eqn:Ee.
  - pose proof (drop_entry_inv key e n Ee Hn) as Hd.
    pose proof (add_session_inv key session peer (drop_entry key e n)) as Ha. unfold drop_entry in Ha, Hd.
    rewrite retire_sessions, retire_objects, retire_next in Ha. cbn [cancel set_sessions set_objects ln_sessions ln_objects ln_next] in Ha.
    rewrite insert_delete_eq in Ha. rewrite retire_sessions, retire_objects, retire_next.
    destruct e as [i []]; (apply Ha; [apply lookup_delete_eq|exact Hd]).
  - by apply add_session_inv.
Qed.

(** The goroutine returns: its entry, if it is still there, turns inactive. *)
Lemma finish_inv id o n :
  ln_objects n !! id = Some o → node_inv n →
  node_inv (finishSession (so_key o) id
    (set_object id (mkSessionObject (so_session o) (so_peer o) (so_key o) (so_pc o) (so_cancelled o) false) n)).
Proof.
  intros Ho [G E F L]. set (o' := mkSessionObject _ _ _ _ _ false).
  assert (∀ id' x, ln_objects (set_object id o' n) !! id' = Some x → (id' < ln_next n)%nat) as F'.
  { intros id' x. cbn. rewrite lookup_insert_Some. intros [[<- _]|[_ Hx]]; by eapply F. }
  assert (∀ id' x, ln_objects (set_object id o' n) !! id' = Some x → so_running x = true → so_cancelled x = false →
    id' ≠ id ∧ ln_sessions n !! so_key x = Some (mkSessionEntry id' true)) as L'.
  { intros id' x. cbn. rewrite lookup_insert_Some. intros [[<- <-]|[Hne Hx]]; [done|]. intros Hr Hc. split; [done|by apply L]. }
  assert (∀ key e, ln_sessions n !! key = Some e → (se_session e = id → key = so_key o) ∧
    ∃ x, ln_objects (set_object id o' n) !! se_session e = Some x ∧ so_key x = key ∧
      (se_active e = true → se_session e ≠ id → so_running x = true)) as E'.
  { intros key e He. destruct (E key e He) as (x & Hx & Hk & Hr). cbn. destruct (decide (id = se_session e)) as [Hid|Hne].
    - rewrite <- Hid in *. rewrite Ho in Hx. injection Hx as <-. rewrite lookup_insert_eq. split; [done|]. by exists o'.
    - rewrite lookup_insert_ne by done. split; [by intros <-|]. exists x. split_and!; auto. }
  unfold finishSession. change (ln_sessions (set_object id o' n)) with (ln_sessions n).
  destruct (ln_sessions n !! so_key o) as [e|] eqn:Ee.
  - destruct (negb _ || negb _) eqn:Eg.
    + split; cbn; try done.
      * intros key e' He'. destruct (E' key e' He') as (Hid & x & Hx & Hk & Hr). exists x. split_and!; [done|done|]. intros Ha. apply Hr; [done|].
        intros Hbad. rewrite (Hid Hbad), Ee in He'. injection He' as <-. rewrite Hbad, Nat.eqb_refl, Ha in Eg. done.
      * intros id' x Hx Hr Hc. by apply (L' id' x).
    + apply orb_false_iff in Eg as [Eid%negb_false_iff%Nat.eqb_eq Ea%negb_false_iff]. split; cbn.
      * rewrite (sessions_gauge_add _ _ _ G). f_equal. rewrite active_count_insert. unfold active_at. rewrite Ee, Ea. cbn. lia.
      * intros key e'. rewrite lookup_insert_Some. intros [[<- <-]|[Hne He']].
        { cbn. rewrite Eid, lookup_insert_eq. exists o'. by split. }
        destruct (E' key e' He') as (Hid & x & Hx & Hk & Hr). exists x. split_and!; [done|done|]. intros Ha. apply Hr; [done|]. intros Hbad. by rewrite (Hid Hbad) in Hne.
      * done.
      * intros id' x Hx Hr Hc. destruct (L' id' x Hx Hr Hc) as [Hne Hl]. rewrite lookup_insert_ne; [done|]. intros Hk.
        rewrite <- Hk, Ee in Hl. injection Hl as ->. done.
  - split; cbn; try done.
    + intros key e' He'. destruct (E' key e' He') as (Hid & x & Hx & Hk & Hr). exists x. split_and!; [done|done|]. intros Ha. apply Hr; [done|].
      intros Hbad. by rewrite (Hid Hbad), Ee in He'.
    + intros id' x Hx Hr Hc. by apply (L' id' x).
Qed.

Lemma returned_inv id o r n : ln_objects n !! id = Some o → node_inv n → node_inv (returned id o r n).
Proof.
  intros Ho Hn. unfold returned. destruct r as [[]|e]; [|destruct (errors_Is e ErrContext)]; apply finish_inv; try done; by apply node_inv_metric.
Qed.

(** Closing: every entry's context is cancelled. *)
Lemma cancel_list_lookup es n id :
  ln_objects (foldr (λ e n, cancel e n) n es) !! id =
  (λ o, mkSessionObject (so_session o) (so_peer o) (so_key o) (so_pc o) (so_cancelled o || bool_decide (id ∈ se_session <$> es)) (so_running o))
    <$> ln_objects n !! id.
Proof.
  induction es as [|e es IH]; cbn [foldr fmap list_fmap].
  - destruct (ln_objects n !! id) as [o|]; [|done]. cbn. rewrite orb_false_r. by destruct o.
  - rewrite cancel_lookup, IH. destruct (ln_objects n !! id) as [o|]; [|done]. cbn. do 2 f_equal. rewrite <- orb_assoc. f_equal.
    destruct (Nat.eqb_spec (se_session e) id) as [->|Hne]; [rewrite orb_true_r; symmetry; apply bool_decide_eq_true_2; by left|].
    rewrite orb_false_r. apply bool_decide_ext. rewrite elem_of_cons. naive_solver.
Qed.
Lemma cancel_list_rest es n :
  ln_runtime (foldr (λ e n, cancel e n) n es) = ln_runtime n ∧ ln_next (foldr (λ e n, cancel e n) n es) = ln_next n.
Proof. induction es as [|e es [IH1 IH2]]; [done|]. cbn. by rewrite IH1, IH2. Qed.

Lemma Close_inv n : node_inv n → node_inv (Close_sessions n).
Proof.
  intros [G E F L]. unfold Close_sessions, cancel_all. set (es := (map_to_list (ln_sessions n)).*2).
  destruct (cancel_list_rest es n) as [Er En]. split; cbn.
  - unfold runtime_set. by rewrite bool_decide_eq_true_2.
  - intros key e He. by rewrite lookup_empty in He.
  - intros id o. rewrite cancel_list_lookup, En. intros (x & Hx & _)%fmap_Some. by eapply F.
  - intros id o. rewrite cancel_list_lookup. intros (x & Hx & ->)%fmap_Some. cbn. intros Hr [Hc Hb]%orb_false_iff.
    exfalso. apply bool_decide_eq_false in Hb. apply Hb. apply list_elem_of_fmap. exists (mkSessionEntry id true). split; [done|].
    apply list_elem_of_fmap. exists (so_key x, mkSessionEntry id true). split; [done|]. apply elem_of_map_to_list. by apply L.
Qed.

Lemma node_step_inv rawSync nf nf' : node_step rawSync nf nf' → node_inv nf.1 → node_inv nf'.1.
Proof.
  intros Hs Hn. destruct Hs as [peer max n f|peer n f|peer payload n w r n' w' HF|id o n w pc s w' Ho _ _ _ _|id o n f Ho _ _ _
    |sync id o n w r n' w' Ho Hr _ _ _ HB|id o r n f Ho _ _|call n w r rt w' Hc HR|n f|n w r n' w' _ _ HC]; cbn in *.
  - by apply AttachPeer_inv.
  - unfold ForgetPeer. cbv zeta. destruct (ln_sessions n !! _) as [e|] eqn:Ee; [|done]. by apply drop_entry_inv.
  - by eapply HandleFrame_inv.
  - by apply ran_inv.
  - by apply ran_inv.
  - apply beforeRepair_inv in HB as [Hn' Eo]; [|done]. apply (node_inv_object id o); [by rewrite Eo| |done]. split; [done|done|done].
  - by apply returned_inv.
  - apply node_inv_runtime; [|done]. pose proof (keeps_call call Hc (ln_runtime n, w)) as Hk. by rewrite HR in Hk.
  - by apply Close_inv.
  - apply on_runtime_inv in HC as [? _]; [done|apply keeps_applier|done].
Qed.
End node_facts.

(** ** Which handler a payload reaches *)

Section routing.
Context `{UnicodePrint}.

Lemma decode_one_Unmarshal {A} (dec : decoder A) zero payload x :
  decode_one dec zero payload = Some (x, TrailingEOF) → json_Unmarshal dec zero payload = Some x.
Proof.
  unfold decode_one, json_Unmarshal, unmarshal. destruct (next_value _) as [[j rest]|]; [|done].
  destruct (dec zero j) as [y|] eqn:Ed; [|done]. intros [= -> ->]. done.
Qed.

(** Both decoders read the same member. *)
Lemma dec_members_type kvs m t m' t' :
  MType m = t →
  dec_members false
    [(lit "type", field MType (λ x m, mkMessage x (MKey m) (MKeys m) (MData m)) dec_string);
     (lit "key", field MKey (λ x m, mkMessage (MType m) x (MKeys m) (MData m)) dec_bytes);
     (lit "keys", field MKeys (λ x m, mkMessage (MType m) (MKey m) x (MData m)) (dec_slice dec_bytes []));
     (lit "data", field MData (λ x m, mkMessage (MType m) (MKey m) (MKeys m) x) dec_bytes)] m kvs = Some m' →
  dec_members false [(lit "type", field id (λ x _, x) dec_string)] t kvs = Some t' → MType m' = t'.
Proof.
  revert m t. induction kvs as [|[k v] kvs IH]; intros m t Et; cbn [dec_members find_field]; [congruence|].
  case_bool_decide.
  - destruct (field MType _ _ m v) as [y|] eqn:E1; [|done]. apply field_inv in E1 as (x & Hx & ->).
    destruct (field id _ _ t v) as [t1|] eqn:E2; [|done]. apply field_inv in E2 as (x' & Hx' & ->).
    rewrite Et in Hx. unfold id in Hx'. rewrite Hx in Hx'. injection Hx' as <-. by apply IH.
  - repeat case_bool_decide; try by apply IH.
    all: match goal with |- context [match field ?g ?s ?d ?o ?j with _ => _ end] => destruct (field g s d o j) as [y|] eqn:E1; [|done] end;
      apply field_inv in E1 as (x & _ & ->); by apply IH.
Qed.

(** Every payload reaches the right handler.  A payload that the repair
    protocol accepts is recognised by [isLifecycleRepairPayload], and a message
    that the raw replication protocol accepts never is: the two protocols share
    the wire without stealing each other's frames. *)
Theorem payloads_routed payload :
  (∀ l f, DecodeRepairFrame payload l = Ok f → isLifecycleRepairPayload payload = true) ∧
  (∀ l m, Decode payload l = Ok m → isLifecycleRepairPayload payload = false).
Proof.
  split.
  - intros l f HD. unfold DecodeRepairFrame in HD. cbv zeta in HD. apply guard_Ok in HD as [_ HD]. apply rbind_Ok in HD as (t & Ht & HD).
    unfold decodeRepairType in Ht. destruct (decode_one dec_type [] payload) as [[t1 tr]|] eqn:E1; [|done].
    destruct tr; try done. apply guard_Ok in Ht as [_ [= <-]]. apply decode_one_Unmarshal in E1. unfold isLifecycleRepairPayload. rewrite E1.
    repeat case_bool_decide; done.
  - intros l m [HU Hm]%Decode_Ok. unfold isLifecycleRepairPayload, json_Unmarshal in HU |- *. destruct (unmarshal payload) as [j|]; [|done].
    destruct (dec_type [] j) as [t|] eqn:Et; [|done].
    assert (MType m = t) as <-.
    { destruct j; try done; [cbn in HU, Et; by injection HU as <-; injection Et as <-|]. by eapply dec_members_type; [|exact HU|exact Et]. }
    assert (MType m ∈ [MessageTypeBlobPut; MessageTypeBlobGet; MessageTypeBlobAck; MessageTypeBlobHas; MessageTypeBlobMissing]) as Hin.
    { destruct Hm as [(-> & _)|[([->| ->] & _)|([->| ->] & _)]]; set_solver. }
    repeat (apply elem_of_cons in Hin as [->|Hin]; [reflexivity|]). by apply elem_of_nil in Hin.
Qed.
End routing.

(** ** Sessions *)

(** C15: The session table is accounted for in every interleaving of connection
    events, frames, goroutine steps, local commands and shutdowns.  The gauge of
    active sessions is the number of active entries; an entry holds a session of
    its own key, whose goroutine has not returned while the entry is active; and
    of the goroutines that still run for one peer at most one is not cancelled. *)
Theorem sessions_accounted `{UnicodePrint} {P S : Type} `{NodePeer P} `{RepairFramePeer P} `{BlobStore S} rawSync
    (r : lifecycleRuntime S) f (n : lifecycleNode P S) f' (Hgauge : lr_metrics r SessionsActive = 0)
    (Hrun : rtc (node_step rawSync) (mkNode r ∅ ∅ 0, f) (n, f')) :
  lr_metrics (ln_runtime n) SessionsActive = runtime_wrap SessionsActive (active_count (ln_sessions n)) ∧
  (∀ key e, ln_sessions n !! key = Some e → ∃ o, ln_objects n !! se_session e = Some o ∧ so_key o = key ∧
     (se_active e = true → so_running o = true)) ∧
  (∀ id id' o o', ln_objects n !! id = Some o → ln_objects n !! id' = Some o' → so_key o = so_key o' →
     so_running o = true → so_running o' = true → so_cancelled o = false → so_cancelled o' = false → id = id').
Proof.
  assert (node_inv n) as [G E F L].
  { assert (node_inv (mkNode r ∅ ∅ 0 : lifecycleNode P S, f).1) as Hn0.
    { split; cbn; [by rewrite Hgauge|intros ? ? Hx..]; by rewrite lookup_empty in Hx. }
    revert Hn0. change (node_inv n) with (node_inv (n, f').1).
    induction Hrun as [t|t1 t2 t3 Hs _ IH]; [done|]. intros Hn. by eapply IH, node_step_inv. }
  split_and!; [done|done|]. intros id id' o o' Ho Ho' Ek Hr Hr' Hc Hc'.
  pose proof (L id o Ho Hr Hc) as L1. pose proof (L id' o' Ho' Hr' Hc') as L2. rewrite Ek, L2 in L1. by injection L1 as <-.
Qed.

(** *** Concrete runs *)

#[local] Existing Instance ascii_print.

#[export] Instance script_NodePeer : NodePeer script_peer := {|
  LocalAddr _ := None;
  RemoteAddr _ := lit "10.0.0.2:7000";
  IsOutbound _ := false;
  AuthIdentity _ := Some (lit "node-b");
  AuthCapabilitiesOf p := Some (sp_caps p);
  WritesFrames _ := true
|}.
Definition ex_peer : script_peer := mkScriptPeer [LifecycleCapabilityV1] [].
Definition ex_node : lifecycleNode script_peer (MemoryStore (gset bytes)) := mkNode ex_runtime ∅ ∅ 0.
Definition ex_attached : lifecycleNode script_peer (MemoryStore (gset bytes)) := AttachPeer ex_peer 65536 ex_node.

(** The peer connects twice: the first session is cancelled. *)
Lemma sessions_accounted_witness :
  lr_metrics (ln_runtime (AttachPeer ex_peer 65536 ex_attached)) SessionsActive = 1 ∧
  active_count (ln_sessions (AttachPeer ex_peer 65536 ex_attached)) = 1 ∧
  so_cancelled <$> (ln_objects (AttachPeer ex_peer 65536 ex_attached) !! 0%nat) = Some true.
Proof.
  assert (rtc (node_step None) (ex_node, w_fs ex_runtime_world) (AttachPeer ex_peer 65536 ex_attached, w_fs ex_runtime_world)) as Hr.
  { eapply rtc_l; [apply node_attach|]. eapply rtc_l; [apply node_attach|]. apply rtc_refl. }
  assert (lr_metrics ex_runtime SessionsActive = 0) as Hg by (vm_compute; reflexivity).
  pose proof (proj1 (sessions_accounted None ex_runtime _ _ _ Hg Hr)) as G.
  assert (active_count (ln_sessions (AttachPeer ex_peer 65536 ex_attached)) = 1) as Ec by (vm_compute; reflexivity).
  rewrite Ec in G. split; [exact G|]. split; [exact Ec|]. vm_compute. reflexivity.
Defined.

(** ** A snapshot from a peer *)

Definition ex_snapshot_frame : bytes :=
  payload_of (EncodeRepairSnapshot (mkRepairSnapshot [] (mkVersion 2 0) [ex_deleted 99 5]) ex_limits_repair).
#[local] Abbreviation ex_installed := (HandleFrame ex_peer ex_snapshot_frame (ex_attached, ex_runtime_world)).
(** The peer that connects next, under another identity. *)
Record other_peer := mkOtherPeer { op_peer : script_peer }.
#[export] Instance other_FramePeer : RepairFramePeer other_peer := {|
  AuthCapabilities p := AuthCapabilities (op_peer p);
  WriteFrame payload max := zoom (λ s, (op_peer s.1, s.2)) (λ t _, (mkOtherPeer t.1, t.2)) (WriteFrame payload max)
|}.
#[export] Instance other_NodePeer : NodePeer other_peer := {|
  LocalAddr _ := None;
  RemoteAddr _ := lit "10.0.0.3:7000";
  IsOutbound _ := false;
  AuthIdentity _ := Some (lit "node-c");
  AuthCapabilitiesOf p := Some (sp_caps (op_peer p));
  WritesFrames _ := true
|}.

(** What the node first sends to it. *)
Definition first_plan (rt : lifecycleRuntime (MemoryStore (gset bytes))) (w : world) : result RepairPlan :=
  match ln_objects (AttachPeer (mkOtherPeer ex_peer) 65536 (mkNode rt ∅ ∅ 0)) !! 0%nat with
  | Some o => (SendNext (lend rt (so_session o), w)).1
  | None => Err ErrNilRepairSessionPeer
  end.
#[local] Abbreviation ex_reopened :=
  (openLifecycleRuntime ex_random ex_cli (lit "token") (lit "node-a")
     (a_blobs (lr_applier (ln_runtime ex_installed.2.1)), World None [] (w_fs ex_installed.2.2))).

(** A snapshot that came from a peer is not served to others before a restart.
    [HandleFrame] installs it in the journal, the state and the checkpoint file,
    but the runtime's own snapshot, which [AttachPeer], [recordsForRawSync] and
    [compact] use, stays the one it was opened with: a peer that connects later
    and is behind the floor gets no plan.  After a restart the same peer is sent
    the snapshot. *)
Theorem installed_snapshot_not_served :
  ex_installed.1 = Ok tt ∧ j_floor (lr_journal (ln_runtime ex_installed.2.1)) = mkVersion 2 0 ∧
  lr_snapshot (ln_runtime ex_installed.2.1) = None ∧
  first_plan (ln_runtime ex_installed.2.1) ex_installed.2.2 = Err ErrRepairSnapshotRequired ∧
  PMode <$> (match first_plan (runtime_of ex_reopened.1) ex_reopened.2.2 with Ok p => Some p | Err _ => None end) = Some RepairPlanSnapshot.
Proof. split_and!; vm_compute; reflexivity. Qed.
