(* ===== verification/Wire.v ===== *)
(** * Frames, capabilities and the authentication handshake

    p2p/frame.go, p2p/capabilities.go and p2p/handshake.go.  A connection is
    the sequence of bytes written to it; a reader is the bytes still to come,
    and the end of the list is the end of the stream. *)
From stdpp Require Import sorting.
From S2P Require Import Prelude Go Bits Text Json Os Model Codec Journal Blobs Protocol.

(** ** frame.go *)

Definition FrameMagic : bytes := Eval cbv in lit "SHV1".
Definition DefaultMaxFrameBytes : Z := Z.shiftl 4 20.

(** [io.Writer.Write]: all of the data, or a part of it and an error. *)
Definition conn_Write (data : bytes) : M (bytes * world) unit := λ cw,
  let '(o, w') := next_outcome cw.2 in
  match o with
  | OOk => (Ok tt, (cw.1 ++ data, w'))
  | OShort n => (Err ErrShortWrite, (cw.1 ++ take n data, w'))
  | OFail n => (Err ErrOS, (cw.1 ++ take n data, w'))
  end.

Definition p2p_WriteFrame (payload : bytes) (maxPayload : Z) : M (bytes * world) unit :=
  let maxPayload := or_default maxPayload DefaultMaxFrameBytes in
  if maxPayload <? len payload then throw p2p_ErrFrameTooLarge
  else
    conn_Write (FrameMagic ++ be_put 4 (len payload mod 2 ^ 32)) ;;
    conn_Write payload.

(** [io.ReadFull]: EOF when nothing is left, an unexpected EOF in the middle. *)
Definition io_ReadFull (n : nat) : M bytes bytes := λ s,
  if decide (n <= length s)%nat then (Ok (take n s), drop n s)
  else (Err (match s with [] => ErrEOF | _ => ErrUnexpectedEOF end), []).

Definition ReadFrame (maxPayload : Z) : M bytes bytes :=
  let maxPayload := or_default maxPayload DefaultMaxFrameBytes in
  magic <- io_ReadFull 4 ;
  if negb (bool_decide (magic = FrameMagic)) then throw p2p_ErrBadMagic
  else
    lenBuf <- io_ReadFull 4 ;
    let n := be_get lenBuf in
    if maxPayload <? n then throw p2p_ErrFrameTooLarge
    else if n =? 0 then ret []
    else io_ReadFull (Z.to_nat n).

(** ** capabilities.go *)

Inductive CapabilityStatus :=
  | CapabilityStatusReady
  | CapabilityStatusOptionalRawOnly
  | CapabilityStatusRequiredUnavailable.

Definition CapabilityLifecycleV1 : bytes := Eval cbv in lit "lifecycle.v1".
Definition CapabilityLifecycleRepairReconcileV1 : bytes := Eval cbv in lit "lifecycle.repair-reconcile.v1".

Fixpoint HasCapability (capabilities : list bytes) (capability : bytes) : bool :=
  match capabilities with
  | [] => false
  | candidate :: cs => if bool_decide (candidate = capability) then true else HasCapability cs capability
  end.

Definition LifecycleCapabilityStatus (capabilities : list bytes) (required : bool) : CapabilityStatus :=
  if HasCapability capabilities CapabilityLifecycleV1 then CapabilityStatusReady
  else if required then CapabilityStatusRequiredUnavailable
  else CapabilityStatusOptionalRawOnly.

(** ** handshake.go *)

Definition HandshakeVersionV1 : bytes := Eval cbv in lit "streamhive/1".
Definition handshakeTypePeerAuth : bytes := Eval cbv in lit "peer.auth".
Definition handshakeTypePeerAuthOK : bytes := Eval cbv in lit "peer.auth.ok".
Definition handshakeTypePeerAuthReject : bytes := Eval cbv in lit "peer.auth.reject".
Definition MaxPeerAuthIdentityBytes : Z := 128.
Definition MaxPeerAuthCapabilities : Z := 16.
Definition MaxPeerAuthCapabilityBytes : Z := 64.
Definition MaxPeerAuthCapabilitiesBytes : Z := 512.
Definition MaxPeerAuthPayloadBytes : Z := Z.shiftl 4 10.

Record peerAuthMessage := mkPeerAuthMessage {
  pa_Type : bytes;
  pa_Version : bytes;
  pa_Token : bytes;
  pa_Identity : bytes;
  pa_Error : bytes;
  pa_Capabilities : list bytes
}.
Definition zero_auth : peerAuthMessage := mkPeerAuthMessage [] [] [] [] [] [].
Definition json_auth (m : peerAuthMessage) : json :=
  JObj ([(lit "type", JStr (pa_Type m)); (lit "version", JStr (pa_Version m))] ++
        omitempty (pa_Token m) (lit "token", JStr (pa_Token m)) ++
        omitempty (pa_Identity m) (lit "identity", JStr (pa_Identity m)) ++
        omitempty (pa_Error m) (lit "error", JStr (pa_Error m)) ++
        omitempty (pa_Capabilities m) (lit "capabilities", JArr (JStr <$> pa_Capabilities m))).
Definition dec_auth : decoder peerAuthMessage :=
  dec_struct false
    [(lit "type", field pa_Type (λ x m, mkPeerAuthMessage x (pa_Version m) (pa_Token m) (pa_Identity m) (pa_Error m) (pa_Capabilities m)) dec_string);
     (lit "version", field pa_Version (λ x m, mkPeerAuthMessage (pa_Type m) x (pa_Token m) (pa_Identity m) (pa_Error m) (pa_Capabilities m)) dec_string);
     (lit "token", field pa_Token (λ x m, mkPeerAuthMessage (pa_Type m) (pa_Version m) x (pa_Identity m) (pa_Error m) (pa_Capabilities m)) dec_string);
     (lit "identity", field pa_Identity (λ x m, mkPeerAuthMessage (pa_Type m) (pa_Version m) (pa_Token m) x (pa_Error m) (pa_Capabilities m)) dec_string);
     (lit "error", field pa_Error (λ x m, mkPeerAuthMessage (pa_Type m) (pa_Version m) (pa_Token m) (pa_Identity m) x (pa_Capabilities m)) dec_string);
     (lit "capabilities", field pa_Capabilities (λ x m, mkPeerAuthMessage (pa_Type m) (pa_Version m) (pa_Token m) (pa_Identity m) (pa_Error m) x) (dec_slice dec_string []))].

(** Bytes from [!] to [~]. *)
Definition visible (s : bytes) : bool := forallb (λ b, (0x21 <=? byteZ b) && (byteZ b <=? 0x7e)) s.
Definition known_capability (c : bytes) : bool :=
  bool_decide (c = CapabilityLifecycleV1) || bool_decide (c = CapabilityLifecycleRepairReconcileV1).

(** The loop of [normalizePeerAuthCapabilities]. *)
Fixpoint normalize_capabilities (rejectUnknown : bool) (seen : gset bytes) (totalBytes : Z) (normal cs : list bytes)
    : result (list bytes) :=
  match cs with
  | [] => Ok normal
  | capability :: cs' =>
      if MaxPeerAuthCapabilityBytes <? len capability then Err p2p_ErrPeerAuthCapabilityTooLarge
      else
        let totalBytes := totalBytes + len capability in
        if MaxPeerAuthCapabilitiesBytes <? totalBytes then Err p2p_ErrPeerAuthCapabilitiesTooLarge
        else if bool_decide (capability = []) then Err p2p_ErrPeerAuthCapabilityInvalid
        else if negb (visible capability) then Err p2p_ErrPeerAuthCapabilityInvalid
        else if bool_decide (capability ∈ seen) then Err p2p_ErrPeerAuthCapabilityDuplicate
        else
          let seen := {[capability]} ∪ seen in
          if negb (known_capability capability) then
            if rejectUnknown then Err p2p_ErrPeerAuthCapabilityUnknown
            else normalize_capabilities rejectUnknown seen totalBytes normal cs'
          else normalize_capabilities rejectUnknown seen totalBytes (normal ++ [capability]) cs'
  end.
Definition normalizePeerAuthCapabilities (capabilities : list bytes) (rejectUnknown : bool) : result (list bytes) :=
  if MaxPeerAuthCapabilities <? len capabilities then Err p2p_ErrPeerAuthCapabilitiesTooMany
  else
    normal <-? normalize_capabilities rejectUnknown ∅ 0 [] capabilities ;
    Ok (sorted_keys normal).

Definition validatePeerIdentity (identity : bytes) : result unit :=
  if bool_decide (identity = []) then Ok tt
  else if MaxPeerAuthIdentityBytes <? len identity then Err p2p_ErrPeerAuthIdentityInvalid
  else if negb (visible identity) then Err p2p_ErrPeerAuthIdentityInvalid
  else Ok tt.
Fixpoint validatePeerAuthAllowlist (identities : list bytes) : result unit :=
  match identities with
  | [] => Ok tt
  | identity :: ids =>
      if bool_decide (identity = []) then Err p2p_ErrPeerAuthIdentityInvalid
      else _ <-? validatePeerIdentity identity ; validatePeerAuthAllowlist ids
  end.
Fixpoint peerAuthIdentityAllowed (identity : bytes) (allowedIdentities : list bytes) : bool :=
  match allowedIdentities with
  | [] => false
  | allowed :: ids => if bool_decide (identity = allowed) then true else peerAuthIdentityAllowed identity ids
  end.

Definition marshalPeerAuthMessage (message : peerAuthMessage) : result bytes :=
  let payload := marshal (json_auth message) in
  if MaxPeerAuthPayloadBytes <? len payload then Err p2p_ErrPeerAuthPayloadTooLarge else Ok payload.

Definition encodePeerAuth (token identity : bytes) (capabilities : list bytes) : result bytes :=
  normal <-? normalizePeerAuthCapabilities capabilities true ;
  marshalPeerAuthMessage (mkPeerAuthMessage handshakeTypePeerAuth HandshakeVersionV1 token identity [] normal).
Definition encodePeerAuthOK (identity : bytes) (capabilities : list bytes) : result bytes :=
  normal <-? normalizePeerAuthCapabilities capabilities true ;
  marshalPeerAuthMessage (mkPeerAuthMessage handshakeTypePeerAuthOK HandshakeVersionV1 [] identity [] normal).
Definition encodePeerAuthReject : result bytes :=
  marshalPeerAuthMessage (mkPeerAuthMessage handshakeTypePeerAuthReject HandshakeVersionV1 [] [] (lit "unauthorized") []).

(** [subtle.ConstantTimeCompare] is the equality of the bytes. *)
Definition validatePeerAuthPayload (payload token : bytes) (allowedIdentities : list bytes)
    : result (bytes * list bytes) :=
  if MaxPeerAuthPayloadBytes <? len payload then Err p2p_ErrPeerAuthPayloadTooLarge
  else
    match json_Unmarshal dec_auth zero_auth payload with
    | None => Err (EJoin p2p_ErrPeerAuthFailed ErrJSON)
    | Some msg =>
        if negb (bool_decide (pa_Type msg = handshakeTypePeerAuth)) || negb (bool_decide (pa_Version msg = HandshakeVersionV1))
        then Err p2p_ErrPeerAuthFailed
        else if negb (bool_decide (pa_Token msg = token)) then Err p2p_ErrPeerAuthRejected
        else
          _ <-? validatePeerIdentity (pa_Identity msg) ;
          if (0 <? len allowedIdentities) && negb (peerAuthIdentityAllowed (pa_Identity msg) allowedIdentities)
          then Err p2p_ErrPeerAuthIdentityNotAllowed
          else
            capabilities <-? normalizePeerAuthCapabilities (pa_Capabilities msg) false ;
            Ok (pa_Identity msg, capabilities)
    end.

Definition validatePeerAuthAck (payload : bytes) : result (bytes * list bytes) :=
  if MaxPeerAuthPayloadBytes <? len payload then Err p2p_ErrPeerAuthPayloadTooLarge
  else
    match json_Unmarshal dec_auth zero_auth payload with
    | None => Err (EJoin p2p_ErrPeerAuthFailed ErrJSON)
    | Some msg =>
        if negb (bool_decide (pa_Version msg = HandshakeVersionV1)) then Err p2p_ErrPeerAuthFailed
        else if bool_decide (pa_Type msg = handshakeTypePeerAuthOK) then
          _ <-? validatePeerIdentity (pa_Identity msg) ;
          capabilities <-? normalizePeerAuthCapabilities (pa_Capabilities msg) false ;
          Ok (pa_Identity msg, capabilities)
        else if bool_decide (pa_Type msg = handshakeTypePeerAuthReject) then Err p2p_ErrPeerAuthRejected
        else Err p2p_ErrPeerAuthFailed
    end.

(** ** Streams of frames *)

Definition frame (payload : bytes) : bytes := FrameMagic ++ be_put 4 (len payload mod 2 ^ 32) ++ payload.

Fixpoint write_frames (ps : list bytes) (maxPayload : Z) : M (bytes * world) unit :=
  match ps with
  | [] => ret tt
  | p :: ps' => p2p_WriteFrame p maxPayload ;; write_frames ps' maxPayload
  end.

(** Read frames until an error. *)
Fixpoint read_frames (fuel : nat) (maxPayload : Z) (s : bytes) : list bytes * error :=
  match fuel with
  | O => ([], ErrText [])
  | S fuel' =>
      match ReadFrame maxPayload s with
      | (Err e, _) => ([], e)
      | (Ok p, s') => let '(ps, e) := read_frames fuel' maxPayload s' in (p :: ps, e)
      end
  end.

Definition end_of_stream (e : error) : Prop := e = ErrEOF ∨ e = ErrUnexpectedEOF.

Lemma ReadFull_app n x s : length x = n → io_ReadFull n (x ++ s) = (Ok x, s).
Proof.
  intros <-. unfold io_ReadFull. rewrite decide_True by (rewrite length_app; lia).
  by rewrite take_app_length, drop_app_length.
Qed.
Lemma ReadFull_short n s : (length s < n)%nat → ∃ e, end_of_stream e ∧ io_ReadFull n s = (Err e, []).
Proof.
  intros Hn. unfold io_ReadFull. rewrite decide_False by lia. destruct s; eexists; (split; [|reflexivity]); [by left|by right].
Qed.

Section frames.
Context (max : Z) (Hmax : or_default max DefaultMaxFrameBytes < 2 ^ 32).

Lemma be_get_len (p : bytes) : len p <= or_default max DefaultMaxFrameBytes → be_get (be_put 4 (len p mod 2 ^ 32)) = len p.
Proof.
  intros Hp. pose proof (len_nonneg p). rewrite Z.mod_small by lia. apply be_get_put.
  change (256 ^ Z.of_nat 4) with (2 ^ 32). lia.
Qed.

Lemma ReadFrame_frame p rest :
  len p <= or_default max DefaultMaxFrameBytes → ReadFrame max (frame p ++ rest) = (Ok p, rest).
Proof.
  intros Hp. unfold ReadFrame, frame. rewrite <- !app_assoc. erewrite bind_step_Ok by by apply ReadFull_app.
  rewrite bool_decide_eq_true_2 by done. cbn [negb].
  erewrite bind_step_Ok by (apply ReadFull_app; apply length_be_put). cbv zeta. rewrite be_get_len by done.
  rewrite (proj2 (Z.ltb_ge _ _)) by lia. destruct (len p =? 0) eqn:E0; bool_to_prop.
  - apply len_zero in E0. by subst p.
  - apply ReadFull_app. unfold len. lia.
Qed.

(** A frame that was cut off is never taken for a frame. *)
Lemma ReadFrame_cut p n :
  len p <= or_default max DefaultMaxFrameBytes → (n < length (frame p))%nat →
  ∃ e s, end_of_stream e ∧ ReadFrame max (take n (frame p)) = (Err e, s).
Proof.
  intros Hp Hn. unfold ReadFrame, frame in *. rewrite !length_app, length_be_put in Hn. cbn [length FrameMagic] in Hn.
  destruct (decide (n < 4)%nat) as [H4|H4].
  { destruct (ReadFull_short 4 (take n (FrameMagic ++ be_put 4 (len p mod 2 ^ 32) ++ p))) as (e & He & Er); [rewrite length_take; lia|].
    rewrite (bind_step_Err _ _ _ _ _ Er). eauto. }
  rewrite take_app, (take_ge FrameMagic) by (cbn; lia). erewrite bind_step_Ok by by apply ReadFull_app.
  rewrite bool_decide_eq_true_2 by done. cbn [negb]. cbn [length FrameMagic].
  destruct (decide (n < 8)%nat) as [H8|H8].
  { destruct (ReadFull_short 4 (take (n - 4) (be_put 4 (len p mod 2 ^ 32) ++ p))) as (e & He & Er); [rewrite length_take; lia|].
    rewrite (bind_step_Err _ _ _ _ _ Er). eauto. }
  rewrite take_app, (take_ge (be_put 4 _)) by (rewrite length_be_put; lia).
  erewrite bind_step_Ok by (apply ReadFull_app; apply length_be_put). cbv zeta. rewrite be_get_len by done.
  rewrite (proj2 (Z.ltb_ge _ _)) by lia. destruct (len p =? 0) eqn:E0; bool_to_prop.
  { apply len_zero in E0. subst p. cbn in Hn. lia. }
  rewrite length_be_put.
  destruct (ReadFull_short (Z.to_nat (len p)) (take (n - 4 - 4) p)) as (e & He & Er); [rewrite length_take; unfold len; lia|].
  eauto.
Qed.

Lemma conn_Write_inv data c w r c' w' :
  conn_Write data (c, w) = (r, (c', w')) → ∃ n, c' = c ++ take n data ∧ (is_Ok r = true → take n data = data).
Proof.
  unfold conn_Write. cbn [fst snd]. destruct (next_outcome w) as [[|n|n] w1]; intros [= <- <- <-].
  - exists (length data). by rewrite firstn_all.
  - by exists n.
  - by exists n.
Qed.

(** What a run of [WriteFrame] puts on the wire. *)
Lemma WriteFrame_inv p c w r c' w' :
  p2p_WriteFrame p max (c, w) = (r, (c', w')) →
  match r with
  | Ok _ => c' = c ++ frame p ∧ len p <= or_default max DefaultMaxFrameBytes
  | Err _ => c' = c ∨ len p <= or_default max DefaultMaxFrameBytes ∧ ∃ n, c' = c ++ take n (frame p)
  end.
Proof.
  intros HW. unfold p2p_WriteFrame in HW. destruct (_ <? len p) eqn:El; [stop HW; by left|]. bool_to_prop.
  set (hdr := FrameMagic ++ be_put 4 (len p mod 2 ^ 32)) in *.
  assert (frame p = hdr ++ p) as Ef by (unfold frame, hdr; by rewrite app_assoc).
  assert (∀ n, ∃ m, take n hdr = take m (hdr ++ p)) as Hpre.
  { intros n. exists (min n (length hdr)). rewrite take_app_le by lia.
    destruct (decide (n <= length hdr)%nat); [by rewrite Nat.min_l|rewrite Nat.min_r, !take_ge by lia; done]. }
  step HW as [] [c1 w1] E1; apply conn_Write_inv in E1 as (n1 & Ec1 & Hok1).
  - rewrite Hok1 in Ec1 by done. apply conn_Write_inv in HW as (n2 & -> & Hok2). subst c1. destruct r as [[]|e].
    + split; [|done]. rewrite Hok2 by done. by rewrite Ef, app_assoc.
    + right. split; [done|]. exists (length hdr + n2)%nat. rewrite Ef, take_app_add, <- app_assoc. done.
  - right. split; [done|]. destruct (Hpre n1) as [m Hm]. exists m. by rewrite Ec1, Ef, Hm.
Qed.

Abbreviation fits p := (len p <= or_default max DefaultMaxFrameBytes).

(** What is left of the stream after its last whole frame. *)
Definition fragment (tail : bytes) : Prop :=
  tail = [] ∨ ∃ p n, fits p ∧ (n < length (frame p))%nat ∧ tail = take n (frame p).

Lemma write_frames_inv ps c w r c' w' :
  write_frames ps max (c, w) = (r, (c', w')) →
  ∃ k tail, c' = c ++ concat (frame <$> take k ps) ++ tail ∧ Forall (λ p, fits p) (take k ps) ∧ fragment tail ∧
    (is_Ok r = true → take k ps = ps).
Proof.
  revert c w. induction ps as [|p ps IH]; intros c w HW; cbn [write_frames] in HW.
  { injection HW as <- <- <-. exists O, []. rewrite app_nil_r. split; [done|]. split; [apply Forall_nil_2|]. by split; [left|]. }
  step HW as [] [c1 w1] E1; apply WriteFrame_inv in E1.
  - destruct E1 as [-> Hp]. apply IH in HW as (k & tail & -> & Hk & Ht & Hr). exists (S k), tail. cbn.
    rewrite <- !app_assoc. split; [done|]. split; [by constructor|]. split; [done|]. intros Hok. by rewrite Hr.
  - destruct E1 as [-> |(Hp & n & ->)].
    + exists O, []. rewrite app_nil_r. split; [done|]. split; [apply Forall_nil_2|]. by split; [left|].
    + destruct (decide (n < length (frame p))%nat) as [Hn|Hn].
      * exists O, (take n (frame p)). cbn. split; [done|]. split; [apply Forall_nil_2|]. split; [right; eauto|done].
      * exists 1%nat, []. cbn. rewrite take_0, (take_ge (frame p)), !app_nil_r by lia.
        split; [done|]. split; [by constructor|]. split; [by left|done].
Qed.

Lemma ReadFrame_fragment tail : fragment tail → ∃ e s, end_of_stream e ∧ ReadFrame max tail = (Err e, s).
Proof.
  intros [-> |(p & n & Hp & Hn & ->)]; [|by apply ReadFrame_cut]. exists ErrEOF, []. split; [by left|reflexivity].
Qed.

Lemma read_frames_app qs tail fuel :
  Forall (λ p, fits p) qs → fragment tail → (length qs < fuel)%nat →
  ∃ e, end_of_stream e ∧ read_frames fuel max (concat (frame <$> qs) ++ tail) = (qs, e).
Proof.
  intros Hqs Ht. revert fuel. induction Hqs as [|q qs Hq Hqs IH]; intros [|fuel] Hf; cbn in Hf; try lia;
    cbn [fmap list_fmap concat read_frames].
  - cbn [app]. destruct (ReadFrame_fragment tail Ht) as (e & s & He & ->). eauto.
  - rewrite <- app_assoc, ReadFrame_frame by done. destruct (IH fuel) as (e & He & ->); [lia|]. eauto.
Qed.
End frames.

(** C21: whatever a sender gets onto a connection with [WriteFrame], with any
    write failing or stopping part way, [ReadFrame] on the other side returns a
    prefix of the payloads it sent, each one whole and unchanged, and then the
    end of the stream; when every write succeeded it returns all of them. *)
Theorem frame_stream ps max w res c w' :
  or_default max DefaultMaxFrameBytes < 2 ^ 32 →
  write_frames ps max ([], w) = (res, (c, w')) →
  ∃ k e, read_frames (S (length ps)) max c = (take k ps, e) ∧ end_of_stream e ∧
    (is_Ok res = true → take k ps = ps).
Proof.
  intros Hmax HW. apply write_frames_inv in HW as (k & tail & -> & Hk & Ht & Hr). cbn [app].
  destruct (read_frames_app max Hmax (take k ps) tail (S (length ps)) Hk Ht) as (e & He & HR);
    [rewrite length_take; lia|]. eauto.
Qed.

Lemma frame_stream_witness :
  (∃ k e, read_frames 3 0 (write_frames [lit "one"; lit "two"] 0 ([], ex_world [OOk; OOk; OOk; OShort 1])).2.1 =
      (take k [lit "one"; lit "two"], e) ∧ end_of_stream e ∧
      (is_Ok (write_frames [lit "one"; lit "two"] 0 ([], ex_world [OOk; OOk; OOk; OShort 1])).1 = true →
        take k [lit "one"; lit "two"] = [lit "one"; lit "two"])) ∧
  read_frames 3 0 (write_frames [lit "one"; lit "two"] 0 ([], ex_world [OOk; OOk; OOk; OShort 1])).2.1 =
    ([lit "one"], ErrUnexpectedEOF).
Proof.
  split; [|vm_compute; reflexivity].
  eapply (frame_stream [lit "one"; lit "two"] 0 (ex_world [OOk; OOk; OOk; OShort 1])); [reflexivity|].
  apply run_eq2. reflexivity.
Defined.

(** ** The handshake *)

Definition identity_ok (identity : bytes) : Prop :=
  identity = [] ∨ len identity <= MaxPeerAuthIdentityBytes ∧ visible identity = true.
Definition capability_ok (c : bytes) : Prop :=
  len c <= MaxPeerAuthCapabilityBytes ∧ c ≠ [] ∧ visible c = true.
Definition total_len (cs : list bytes) : Z := foldr (λ c n, len c + n) 0 cs.
(** The capability declarations a node accepts: at most 16 distinct names of
    visible characters, each at most 64 bytes and all at most 512; a node's own
    configuration must name known ones only. *)
Definition capabilities_ok (rejectUnknown : bool) (cs : list bytes) : Prop :=
  len cs <= MaxPeerAuthCapabilities ∧ Forall capability_ok cs ∧ total_len cs <= MaxPeerAuthCapabilitiesBytes ∧
  NoDup cs ∧ (rejectUnknown = true → Forall (λ c, known_capability c = true) cs).
Definition known_capabilities (cs : list bytes) : list bytes := sorted_keys (filter (λ c, known_capability c = true) cs).

Lemma validatePeerIdentity_Ok identity : validatePeerIdentity identity = Ok tt ↔ identity_ok identity.
Proof.
  unfold validatePeerIdentity, identity_ok. case_bool_decide as E0; [naive_solver|].
  destruct (_ <? len identity) eqn:El; bool_to_prop; [split; [done|]; intros [?|[? _]]; [done|lia]|].
  destruct (visible identity); cbn [negb]; naive_solver.
Qed.

Lemma total_len_nonneg cs : 0 <= total_len cs.
Proof. induction cs as [|c cs IH]; cbn; [done|]. pose proof (len_nonneg c). fold (total_len cs) in *. lia. Qed.

#[export] Instance total_len_perm : Proper ((≡ₚ) ==> (=)) total_len.
Proof. intros l k Hp. unfold total_len. induction Hp; cbn; lia. Qed.

Lemma normalize_loop_Ok rej seen total normal cs out :
  normalize_capabilities rej seen total normal cs = Ok out ↔
  Forall capability_ok cs ∧ (cs = [] ∨ total + total_len cs <= MaxPeerAuthCapabilitiesBytes) ∧ NoDup cs ∧
  Forall (λ c, c ∉ seen) cs ∧
  (rej = true → Forall (λ c, known_capability c = true) cs) ∧ out = normal ++ filter (λ c, known_capability c = true) cs.
Proof.
  revert seen total normal. induction cs as [|c cs IH]; intros seen total normal.
  { cbn. rewrite app_nil_r. split; [intros [= <-]|naive_solver].
    split_and!; try (intros _); try constructor; done. }
  cbn [normalize_capabilities]. cbv zeta. rewrite !Forall_cons, NoDup_cons, filter_cons.
  change (total_len (c :: cs)) with (len c + total_len cs). pose proof (total_len_nonneg cs).
  unfold capability_ok at 1.
  destruct (_ <? len c) eqn:E1; bool_to_prop; [split; [done|]; intros ([[? _] _] & _); lia|].
  destruct (_ <? total + len c) eqn:E2; bool_to_prop; [split; [done|]; intros (_ & [?|?] & _); [done|lia]|].
  case_bool_decide as E3; [naive_solver|].
  destruct (visible c) eqn:E4; cbn [negb]; [|naive_solver].
  case_bool_decide as E5; [naive_solver|].
  assert (Forall (λ x, x ∉ {[c]} ∪ seen) cs ↔ c ∉ cs ∧ Forall (λ x, x ∉ seen) cs) as Hseen.
  { rewrite !Forall_forall. set_solver. }
  destruct (known_capability c) eqn:Ek; cbn [negb]; [|destruct rej]; rewrite ?IH, ?Hseen, ?(decide_True (P := true = true)),
    ?(decide_False (P := false = true)) by done.
  - rewrite <- (app_assoc normal [c]). cbn [app]. split.
    + intros (? & Ht & ? & [? ?] & ? & ->). split_and!; try done; [|intros Erej; auto].
      right. destruct Ht as [-> |]; cbn [total_len foldr] in *; lia.
    + intros ([_ ?] & Ht & [? ?] & [_ ?] & Hr & ->). split_and!; [done|right; destruct Ht; [done|lia]|done..| |done].
      intros Erej. by destruct (Hr Erej).
  - split; [done|]. intros (_ & _ & _ & _ & Hr & _). by destruct (Hr eq_refl).
  - split.
    + intros (? & Ht & ? & [? ?] & ? & ->). split_and!; try done.
      right. destruct Ht as [-> |]; cbn [total_len foldr] in *; lia.
    + intros ([_ ?] & Ht & [? ?] & [_ ?] & Hr & ->). split_and!; [done|right; destruct Ht; [done|lia]|done..| |done].
      intros Erej. by destruct (Hr Erej).
Qed.

Lemma normalizePeerAuthCapabilities_Ok cs rej out :
  normalizePeerAuthCapabilities cs rej = Ok out ↔ capabilities_ok rej cs ∧ out = known_capabilities cs.
Proof.
  unfold normalizePeerAuthCapabilities, capabilities_ok.
  destruct (_ <? len cs) eqn:El; bool_to_prop; [split; [done|]; intros [[? _] _]; lia|].
  destruct (normalize_capabilities rej ∅ 0 [] cs) as [normal|e] eqn:En; cbn [rbind].
  - apply normalize_loop_Ok in En as (? & Ht & ? & _ & ? & ->). cbn [app]. split; [intros [= <-]|by intros [_ ->]].
    split_and!; try done. destruct Ht as [-> |]; [done|lia].
  - split; [done|]. intros [(_ & ? & ? & ? & ?) _]. enough (Err e = Ok (filter (λ c, known_capability c = true) cs)) by done.
    rewrite <- En. apply normalize_loop_Ok. split_and!; try done; [by right|]. rewrite Forall_forall. set_solver.
Qed.

Lemma visible_utf8 s : visible s = true → utf8_ValidString s = true.
Proof.
  intros Hv. apply ascii_valid. unfold visible in Hv. rewrite forallb_forall in Hv. apply Forall_forall.
  intros b Hb. apply list_elem_of_In in Hb. specialize (Hv b Hb). bool_to_prop. lia.
Qed.
Lemma identity_utf8 s : identity_ok s → utf8_ValidString s = true.
Proof. intros [-> |[_ Hv]]; [done|by apply visible_utf8]. Qed.

Lemma dec_auth_json m : dec_auth zero_auth (json_auth m) = Some m.
Proof.
  unfold dec_auth, json_auth, dec_struct. cbn [app]. json_member; [|reflexivity]. json_member; [|reflexivity].
  destruct m as [ty v token id err caps]. cbn [pa_Type pa_Version pa_Token pa_Identity pa_Error pa_Capabilities].
  destruct token as [|t0 token]; cbn [omitempty app]; [|json_member; [|reflexivity]].
  all: destruct id as [|i0 id]; cbn [omitempty app]; [|json_member; [|reflexivity]].
  all: destruct err as [|e0 err]; cbn [omitempty app]; [|json_member; [|reflexivity]].
  all: destruct caps as [|c0 caps]; cbn [omitempty app]; [|json_member; [|apply dec_slice_json; done]].
  all: done.
Qed.

Record auth_utf8 (m : peerAuthMessage) : Prop := {
  au_type : utf8_ValidString (pa_Type m) = true;
  au_version : utf8_ValidString (pa_Version m) = true;
  au_token : utf8_ValidString (pa_Token m) = true;
  au_identity : utf8_ValidString (pa_Identity m) = true;
  au_error : utf8_ValidString (pa_Error m) = true;
  au_capabilities : Forall (λ c, utf8_ValidString c = true) (pa_Capabilities m)
}.

Lemma unmarshal_auth m : auth_utf8 m → json_Unmarshal dec_auth zero_auth (marshal (json_auth m)) = Some m.
Proof.
  intros []. unfold json_Unmarshal. enough (json_ok (json_auth m) ∧ json_depth (json_auth m) <= 1 + 1) as [Hok Hd].
  { rewrite unmarshal_marshal; [apply dec_auth_json|done|]. unfold max_depth. lia. }
  assert (json_ok (JArr (JStr <$> pa_Capabilities m)) ∧ json_depth (JArr (JStr <$> pa_Capabilities m)) <= 1 + 0) as [Ha1 Ha2].
  { apply json_array_ok; [done|]. intros x Hx. split; [|done]. rewrite Forall_forall in au_capabilities0. by apply au_capabilities0. }
  apply json_fields_ok; [done|]. rewrite !Forall_app, Forall_cons, Forall_singleton.
  split_and!; try (apply Forall_omitempty; split_and!); try done.
Qed.

Lemma marshalPeerAuthMessage_Ok m p :
  marshalPeerAuthMessage m = Ok p → p = marshal (json_auth m) ∧ len p <= MaxPeerAuthPayloadBytes.
Proof. unfold marshalPeerAuthMessage. case_match eqn:E; [done|]. intros [= <-]. bool_to_prop. split; [done|lia]. Qed.

Lemma known_is_ok c : known_capability c = true → utf8_ValidString c = true.
Proof. unfold known_capability. intros [H|H]%orb_prop; apply bool_decide_eq_true in H; subst c; vm_compute; reflexivity. Qed.

Lemma known_all cs : Forall (λ c, known_capability c = true) cs → known_capabilities cs = sorted_keys cs.
Proof. intros H. unfold known_capabilities. f_equal. induction H; [done|]. rewrite filter_cons_True by done. by f_equal. Qed.

(** What a node declares is accepted, and read back, by every other node. *)
Lemma declared_accepted cs :
  capabilities_ok true cs →
  Forall (λ c, utf8_ValidString c = true) (known_capabilities cs) ∧
  normalizePeerAuthCapabilities (known_capabilities cs) false = Ok (sorted_keys cs).
Proof.
  intros (Hn & Hok & Ht & Hd & Hk). specialize (Hk eq_refl). rewrite known_all by done.
  assert (Forall (λ c, known_capability c = true) (sorted_keys cs)) as Hk' by by rewrite sorted_keys_perm.
  split; [eapply Forall_impl; [exact Hk'|apply known_is_ok]|].
  apply normalizePeerAuthCapabilities_Ok. split.
  - split_and!; [|by rewrite sorted_keys_perm| |by rewrite sorted_keys_perm|done].
    + unfold len. by rewrite sorted_keys_perm.
    + by rewrite sorted_keys_perm.
  - rewrite known_all by done. symmetry. apply sorted_keys_unique; [apply sorted_keys_sorted|done].
Qed.

Lemma allowed_spec {A} identity (allowed : list bytes) (x y : A) :
  (if (0 <? len allowed) && negb (peerAuthIdentityAllowed identity allowed) then x else y) =
  if decide (allowed = [] ∨ identity ∈ allowed) then y else x.
Proof.
  assert (peerAuthIdentityAllowed identity allowed = bool_decide (identity ∈ allowed)) as ->.
  { induction allowed as [|a l IH]; cbn; [done|]. rewrite IH. repeat case_bool_decide; set_solver. }
  destruct allowed as [|a l]; [done|]. case_bool_decide; case_decide; try done; set_solver.
Qed.

(** The two sides of the handshake agree.  Of the authentication message of
    a node with a given token and identity, a node that expects [expected] says
    exactly this: rejected when its token differs, not allowed when it has an
    allowlist without that identity, and otherwise it learns that identity and
    the sorted capabilities; the acknowledgement it sends back tells the other
    side its own identity and capabilities, and a rejection is read as one. *)
Lemma handshake_messages token identity capabilities (Ht : utf8_ValidString token = true) (Hid : identity_ok identity) :
  (∀ payload expected allowed, encodePeerAuth token identity capabilities = Ok payload →
    validatePeerAuthPayload payload expected allowed =
      if decide (token = expected) then
        if decide (allowed = [] ∨ identity ∈ allowed) then Ok (identity, sorted_keys capabilities)
        else Err p2p_ErrPeerAuthIdentityNotAllowed
      else Err p2p_ErrPeerAuthRejected) ∧
  (∀ payload, encodePeerAuthOK identity capabilities = Ok payload →
    validatePeerAuthAck payload = Ok (identity, sorted_keys capabilities)) ∧
  (∀ payload, encodePeerAuthReject = Ok payload → validatePeerAuthAck payload = Err p2p_ErrPeerAuthRejected).
Proof.
  pose proof (identity_utf8 _ Hid) as Hi. apply validatePeerIdentity_Ok in Hid. split_and!.
  - intros payload expected allowed. unfold encodePeerAuth. intros (normal & Hc & Hp)%rbind_Ok.
    apply normalizePeerAuthCapabilities_Ok in Hc as [Hc ->]. destruct (declared_accepted _ Hc) as [Hu Hn].
    apply marshalPeerAuthMessage_Ok in Hp as [-> Hl].
    unfold validatePeerAuthPayload. rewrite (proj2 (Z.ltb_ge _ _)) by lia. rewrite unmarshal_auth by by split.
    cbn [pa_Type pa_Version pa_Token pa_Identity pa_Capabilities]. rewrite !bool_decide_eq_true_2 by done. cbn [negb orb].
    case_bool_decide; [rewrite decide_True by done|by rewrite decide_False]. cbn [negb]. rewrite Hid. cbn [rbind].
    rewrite allowed_spec. case_decide; [|done]. by rewrite Hn.
  - intros payload. unfold encodePeerAuthOK. intros (normal & Hc & Hp)%rbind_Ok.
    apply normalizePeerAuthCapabilities_Ok in Hc as [Hc ->]. destruct (declared_accepted _ Hc) as [Hu Hn].
    apply marshalPeerAuthMessage_Ok in Hp as [-> Hl].
    unfold validatePeerAuthAck. rewrite (proj2 (Z.ltb_ge _ _)) by lia. rewrite unmarshal_auth by by split.
    cbn [pa_Type pa_Version pa_Token pa_Identity pa_Capabilities]. rewrite !bool_decide_eq_true_2 by done. cbn [negb].
    rewrite Hid. cbn [rbind]. by rewrite Hn.
  - intros payload [-> Hl]%marshalPeerAuthMessage_Ok.
    unfold validatePeerAuthAck. rewrite (proj2 (Z.ltb_ge _ _)) by lia. by rewrite unmarshal_auth by by split.
Qed.
