(* ===== verification/Exchange.v ===== *)
(** * Inventory exchange

    inventory.go and the advertising functions of main.go: a node tells a peer
    which keys it holds, in frames that fit the protocol's limits, the frame
    size and a budget per exchange; an exchange that runs out of budget returns
    the cursor at which the next one resumes.  [int] values are sizes and counts
    of data in memory and are kept as [Z]. *)
From stdpp Require Import sorting.
From S2P Require Import Prelude Go Bits Text Json Os Model Codec Journal Transport Repair Blobs Inventory Applier Session Runtime Protocol Peers Wire.

(** ** The counters of the replication *)

(** The counters of [replicationMetrics]; its other fields are pointers to the
    tracker, the limiter and the queue of repairs. *)
Inductive repl_metric :=
  | BlobsStored | BytesStored | DuplicateBlobs | DuplicateBytes | ApplyErrors | BlobsSent | BytesSent | BlobsSkipped
  | BlobAcksSent | BlobAcksReceived | BlobAcksMatched | BlobAcksPending | BlobAckTimeouts | BlobRetries
  | BlobPutsAccepted | BlobPutFailures | BlobWriteErrors | SendErrors
  | InventoryStatusScansStarted | InventoryStatusScansCompleted | InventoryStatusScansFailed
  | InventoryStatusKeysScanned | InventoryStatusKeyBytesScanned | InventoryStatusScanDurationMS
  | StorageIntegrityScansStarted | StorageIntegrityScansCompleted | StorageIntegrityScansFailed
  | StorageIntegrityKeysScanned | StorageIntegrityKeyBytesScanned | StorageIntegrityContentAddressedKeys
  | StorageIntegrityVerifiedKeys | StorageIntegrityVerifiedBytes | StorageIntegrityOpaqueKeys | StorageIntegrityOpaqueBytes
  | StorageIntegrityCorruptKeys | StorageIntegrityMissingKeys | StorageIntegrityScanDurationMS
  | InventoryAdvertisements | InventoryBytesSent | InventoryKeysSent | InventoryKeysProbed
  | InventoryExchangesStarted | InventoryExchangesCompleted | InventoryExchangesLimited | InventoryExchangesDropped
  | InventoryExchangesActive | MissingKeysRequested | RepairBlobsSent | RepairBlobsDeferred | CorruptBlobsDetected
  | RepairContinuationsScheduled | RepairContinuationsCompleted | RepairContinuationsDropped | RepairContinuationsActive
  | RepairContinuationKeysPending | RepairIOOpsStarted | RepairIOOpsCompleted | RepairIOOpsWaited | RepairIOOpsRejected
  | RepairIOOpsInFlight | RepairIOOpsQueued.
#[export] Instance repl_metric_eq_dec : EqDecision repl_metric.
Proof. solve_decision. Defined.

(** The [atomic.Int64] fields; the others are [atomic.Uint64]. *)
Definition repl_gauge (m : repl_metric) : bool :=
  match m with
  | BlobAcksPending | InventoryExchangesActive | RepairContinuationsActive | RepairContinuationKeysPending
  | RepairIOOpsInFlight | RepairIOOpsQueued => true
  | _ => false
  end.
Definition replicationMetrics := repl_metric → Z.
Definition repl_store (m : repl_metric) (v : Z) (ms : replicationMetrics) : replicationMetrics :=
  λ k, if bool_decide (k = m) then v else ms k.
Definition repl_add (m : repl_metric) (n : Z) (ms : replicationMetrics) : replicationMetrics :=
  repl_store m (if repl_gauge m then to_int64 (ms m + n) else (ms m + n) mod 2 ^ 64) ms.

(** ** What the functions work on *)

(** The peer they write to, the node's blobs and the counters. *)
Record replicator (P S : Type) := mkReplicator { rp_peer : P; rp_store : S; rp_metrics : replicationMetrics }.
Arguments mkReplicator {P S} _ _ _.
Arguments rp_peer {P S} _.
Arguments rp_store {P S} _.
Arguments rp_metrics {P S} _.

Section replicator.
Context {P S : Type}.
Definition on_peer {A} (m : M (P * world) A) : M (replicator P S * world) A :=
  zoom (λ s, (rp_peer s.1, s.2)) (λ t s, (mkReplicator t.1 (rp_store s.1) (rp_metrics s.1), t.2)) m.
Definition on_blobs {A} (m : M (S * world) A) : M (replicator P S * world) A :=
  zoom (λ s, (rp_store s.1, s.2)) (λ t s, (mkReplicator (rp_peer s.1) t.1 (rp_metrics s.1), t.2)) m.
Definition tally (m : repl_metric) (n : Z) : M (replicator P S * world) unit :=
  update (λ r, mkReplicator (rp_peer r) (rp_store r) (repl_add m n (rp_metrics r))).

Definition writePeerFrame `{NodePeer P} `{RepairFramePeer P} (payload : bytes) (maxFrameBytes : Z)
    : M (replicator P S * world) unit :=
  r <- self ;
  if WritesFrames (rp_peer r) then on_peer (WriteFrame payload maxFrameBytes)
  else throw (ErrText (lit "peer cannot write frames")).
End replicator.

(** ** Batches *)

Record inventoryExchangeBudget := mkBudget { maxBytes : Z; maxKeys : Z }.
Definition defaultMaxInventoryBytes : Z := Z.shiftl 16 20.
Definition defaultMaxInventoryKeys : Z := DefaultMaxKeys * 4.

Definition inventoryBatchSize (limits : ReplicationLimits) : Z :=
  if 0 <? MaxKeys limits then MaxKeys limits else DefaultMaxKeys.

Section exchange.
Context {P S : Type} `{NodePeer P} `{RepairFramePeer P}.
Context (limits : ReplicationLimits) (maxFrameBytes : Z).
Let maxPayload : Z := or_default maxFrameBytes DefaultMaxFrameBytes.

Definition over_bytes (budget : inventoryExchangeBudget) (sentBytes : Z) (payload : bytes) : bool :=
  (0 <? maxBytes budget) && (maxBytes budget <? sentBytes + len payload).

Definition advertise (payload : bytes) (n : nat) : M (replicator P S * world) unit :=
  writePeerFrame payload maxFrameBytes ;;
  tally InventoryAdvertisements 1 ;;
  tally InventoryBytesSent (len payload) ;;
  tally InventoryKeysSent (Z.of_nat n).

(** The inner loop: [keys] are [keys[start:]] and [n] is [end-start], which is
    halved until the frame fits.  [None] is the return at the end of the
    budget; else the number of keys and of bytes that were sent. *)
Fixpoint send_batch (fuel : nat) (budget : inventoryExchangeBudget) (keys : list bytes) (n : nat) (sentKeys sentBytes : Z)
    : M (replicator P S * world) (option (nat * Z)) :=
  match fuel with
  | O => throw (ErrText [])
  | Datatypes.S fuel' =>
      io ctx_Err ;;
      payload <- lift (EncodeBlobHas (take n keys) limits) ;
      if maxPayload <? len payload then
        if (n =? 1)%nat then throw p2p_ErrFrameTooLarge
        else send_batch fuel' budget keys (Nat.div n 2) sentKeys sentBytes
      else if over_bytes budget sentBytes payload && (1 <? n)%nat
      then send_batch fuel' budget keys (Nat.div n 2) sentKeys sentBytes
      else if over_bytes budget sentBytes payload && (0 <? sentKeys) then ret None
      else advertise payload n ;; ret (Some (n, len payload))
  end.

(** How many keys the next frame should hold. *)
Definition batch_len (budget : inventoryExchangeBudget) (keys : list bytes) (sentKeys : Z) : Z :=
  let n := Z.min (inventoryBatchSize limits) (len keys) in
  if (0 <? maxKeys budget) && (maxKeys budget - sentKeys <? n) then maxKeys budget - sentKeys else n.

(** The outer loop; a batch has at least one key. *)
Fixpoint send_keys (fuel : nat) (budget : inventoryExchangeBudget) (keys : list bytes) (cursor : bytes) (sentKeys sentBytes : Z)
    : M (replicator P S * world) (bytes * bool * Z * Z) :=
  match keys, fuel with
  | [], _ => ret (cursor, true, sentKeys, sentBytes)
  | _, O => throw (ErrText [])
  | _, Datatypes.S fuel' =>
      if (0 <? maxKeys budget) && (maxKeys budget <=? sentKeys) then ret (cursor, false, sentKeys, sentBytes)
      else
        let n := Z.to_nat (batch_len budget keys sentKeys) in
        sent <- send_batch (Datatypes.S n) budget keys n sentKeys sentBytes ;
        match sent with
        | None => ret (cursor, false, sentKeys, sentBytes)
        | Some (n, size) =>
            send_keys fuel' budget (drop n keys) (at_ keys (n - 1)) (sentKeys + Z.of_nat n) (sentBytes + size)
        end
  end.
Definition sendBlobHasKeysBudget (keys : list bytes) (budget : inventoryExchangeBudget) (sentKeys sentBytes : Z)
    : M (replicator P S * world) (bytes * bool * Z * Z) :=
  send_keys (length keys) budget keys [] sentKeys sentBytes.

(** ** Exchanges *)

Definition bad_cursor (keys : list bytes) (next : bytes) : bool :=
  (len next =? 0) || negb (bool_decide (next = default [] (last keys))).
Definition not_advanced (cursor next : bytes) : bool := (0 <? len cursor) && bool_decide (bytes_le next cursor).

Definition page_size (budget : inventoryExchangeBudget) : Z :=
  let pageSize := inventoryBatchSize limits in
  let pageSize := if (0 <? maxKeys budget) && (maxKeys budget <? pageSize) then maxKeys budget else pageSize in
  if pageSize <=? 0 then 1 else pageSize.

(** The rounds of the loop.  Every round but the last sends a key and moves the
    cursor forwards: more rounds than keys are never needed. *)
Fixpoint send_pages (fuel : nat) (page : bytes → Z → M (S * world) (list bytes * bytes)) (budget : inventoryExchangeBudget)
    (cursor : bytes) (sentKeys sentBytes : Z) : M (replicator P S * world) (bytes * bool) :=
  match fuel with
  | O => throw (ErrText [])
  | Datatypes.S fuel' =>
      io ctx_Err ;;
      if (0 <? maxKeys budget) && (maxKeys budget <=? sentKeys) then ret (cursor, false)
      else
        let pageSize := page_size budget in
        let limit := if (0 <? maxKeys budget) && (maxKeys budget - sentKeys <? pageSize) then maxKeys budget - sentKeys else pageSize in
        '(keys, next) <- on_blobs (page cursor limit) ;
        if len keys =? 0 then ret (cursor, true)
        else if bad_cursor keys next then throw (ErrText (lit "replication: blob key page cursor must be last key"))
        else if not_advanced cursor next then throw (ErrText (lit "replication: blob key page cursor did not advance"))
        else
          '(last, complete, totalKeys, totalBytes) <- sendBlobHasKeysBudget keys budget sentKeys sentBytes ;
          if negb complete then ret (last, false)
          else send_pages fuel' page budget next totalKeys totalBytes
  end.
Definition sendPagedBlobHasBudget (fuel : nat) (page : bytes → Z → M (S * world) (list bytes * bytes))
    (budget : inventoryExchangeBudget) (after : bytes) : M (replicator P S * world) (bytes * bool) :=
  send_pages fuel page budget ([] ++ after) 0 0.

(** The node starts exchanges only when it has a lister. *)
Definition sendInventoryExchange (fuel : nat) (lister : Lister S) (budget : inventoryExchangeBudget) (after : bytes)
    : M (replicator P S * world) (bytes * bool) :=
  match lister with
  | NilLister => throw (ErrText [])
  | PagedLister page => sendPagedBlobHasBudget fuel page budget after
  | PlainLister list_keys =>
      keys <- on_blobs list_keys ;
      let keys := sort_keys keys in
      let start := sort_Search (length keys) (λ i, (len after =? 0) || bool_decide (bytes_lt after (at_ keys i))) in
      if (start =? length keys)%nat then ret ([] ++ after, true)
      else
        '(last, complete, _, _) <- sendBlobHasKeysBudget (drop start keys) budget 0 0 ;
        ret (last, complete)
  end.

(** ** The advertisement of all keys in one go *)

Fixpoint send_all_batch (fuel : nat) (keys : list bytes) (n : nat) : M (replicator P S * world) nat :=
  match fuel with
  | O => throw (ErrText [])
  | Datatypes.S fuel' =>
      io ctx_Err ;;
      payload <- lift (EncodeBlobHas (take n keys) limits) ;
      if maxPayload <? len payload then
        if (n =? 1)%nat then throw p2p_ErrFrameTooLarge else send_all_batch fuel' keys (Nat.div n 2)
      else advertise payload n ;; ret n
  end.
Fixpoint send_all_keys (fuel : nat) (keys : list bytes) : M (replicator P S * world) unit :=
  match keys, fuel with
  | [], _ => ret tt
  | _, O => throw (ErrText [])
  | _, Datatypes.S fuel' =>
      let n := Z.to_nat (Z.min (inventoryBatchSize limits) (len keys)) in
      n <- send_all_batch (Datatypes.S n) keys n ;
      send_all_keys fuel' (drop n keys)
  end.
Definition sendBlobHasKeys (keys : list bytes) : M (replicator P S * world) unit := send_all_keys (length keys) keys.

Fixpoint send_all_pages (fuel : nat) (page : bytes → Z → M (S * world) (list bytes * bytes)) (cursor : bytes)
    : M (replicator P S * world) unit :=
  match fuel with
  | O => throw (ErrText [])
  | Datatypes.S fuel' =>
      '(keys, next) <- on_blobs (page cursor (inventoryBatchSize limits)) ;
      if len keys =? 0 then ret tt
      else if bad_cursor keys next then throw (ErrText (lit "replication: blob key page cursor must be last key"))
      else if not_advanced cursor next then throw (ErrText (lit "replication: blob key page cursor did not advance"))
      else sendBlobHasKeys keys ;; send_all_pages fuel' page next
  end.
Definition sendPagedBlobHas (fuel : nat) (page : bytes → Z → M (S * world) (list bytes * bytes)) : M (replicator P S * world) unit :=
  send_all_pages fuel page [].
Definition sendBlobHas (fuel : nat) (lister : Lister S) : M (replicator P S * world) unit :=
  match lister with
  | NilLister => throw (ErrText [])
  | PagedLister page => sendPagedBlobHas fuel page
  | PlainLister list_keys => keys <- on_blobs list_keys ; sendBlobHasKeys keys
  end.
End exchange.

(** ** What a run puts on the wire *)

Section sending.
Context {P S : Type} `{NodePeer P} `{FramePeerSpec P}.
Context (limits : ReplicationLimits) (maxFrameBytes : Z).
Implicit Types (r : replicator P S) (budget : inventoryExchangeBudget).

Lemma inventoryBatchSize_normal : inventoryBatchSize limits = MaxKeys (normalizeLimits limits).
Proof. unfold inventoryBatchSize, normalizeLimits, or_default. cbn. repeat case_match; bool_to_prop; lia. Qed.
Lemma inventoryBatchSize_pos : 0 < inventoryBatchSize limits.
Proof. unfold inventoryBatchSize, DefaultMaxKeys. destruct (0 <? MaxKeys limits) eqn:E; lia. Qed.

(** The frame [f] advertises the keys [b], within the limits. *)
Record batch_frame (b : list bytes) (f : bytes) : Prop := {
  bf_encode : EncodeBlobHas b limits = Ok f;
  bf_nonempty : b ≠ [];
  bf_keys : len b <= inventoryBatchSize limits;
  bf_size : len f <= or_default maxFrameBytes DefaultMaxFrameBytes
}.

Lemma EncodeBlobHas_Ok b f :
  EncodeBlobHas b limits = Ok f ↔
  f = marshal (json_message (mkMessage MessageTypeBlobHas [] b [])) ∧
  0 < len b <= inventoryBatchSize limits ∧ Forall (λ k, 0 < len k <= MaxKeyBytes (normalizeLimits limits)) b.
Proof.
  unfold EncodeBlobHas, encodeKeyListMessage. cbn [MKeys]. rewrite cloneKeys_id, rbind_unit, validateKeys_Ok, inventoryBatchSize_normal.
  naive_solver.
Qed.

(** [f] is what the store and the peer see of a call. *)
Definition wrote r r' (fs : list bytes) : Prop :=
  rp_store r' = rp_store r ∧ peer_sent (rp_peer r') = peer_sent (rp_peer r) ++ fs.

Lemma wrote_refl r : wrote r r [].
Proof. split; [done|by rewrite app_nil_r]. Qed.
Lemma wrote_trans r1 r2 r3 fs gs : wrote r1 r2 fs → wrote r2 r3 gs → wrote r1 r3 (fs ++ gs).
Proof. intros [E1 E2] [E3 E4]. split; [by rewrite E3|]. by rewrite E4, E2, <- app_assoc. Qed.

Lemma advertise_run payload n r w res r' w' :
  advertise maxFrameBytes payload n (r, w) = (res, (r', w')) →
  w_fs w' = w_fs w ∧ (wrote r r' [payload] ∨ is_Ok res = false ∧ wrote r r' []).
Proof.
  unfold advertise, writePeerFrame. intros HA.
  step HA as [] [r1 w1] E1; [cbn in HA; injection HA as <- <- <-|].
  all: erewrite bind_step_Ok in E1 by reflexivity; cbn [fst] in E1; destruct (WritesFrames (rp_peer r));
    [|stop E1; (split; [done|right; split; [done|apply wrote_refl]])].
  all: unfold on_peer, zoom in E1; cbn [fst snd] in E1;
    destruct (WriteFrame payload maxFrameBytes (rp_peer r, w)) as [x [p2 w2]] eqn:EW; cbn [fst snd] in E1; injection E1 as -> <- <-.
  all: apply WriteFrame_run in EW as (Hf & _ & Hs); split; [done|]; unfold wrote; cbn [rp_store rp_peer];
    rewrite ?app_nil_r; destruct Hs as [Hs|[? Hs]]; [by left|by right].
Qed.

(** The batch that the halving settles on: the whole one when it fits; over the
    byte budget only a single key with which the exchange begins. *)
Record picked budget (keys : list bytes) (n : nat) (sk sb : Z) (m : nat) (f : bytes) : Prop := {
  pk_len : (0 < m <= n)%nat;
  pk_frame : batch_frame (take m keys) f;
  pk_over : over_bytes budget sb f = true → m = 1%nat ∧ sk <= 0;
  pk_fits : ∀ g, EncodeBlobHas (take n keys) limits = Ok g → len g <= or_default maxFrameBytes DefaultMaxFrameBytes →
    over_bytes budget sb g = false → m = n
}.

Lemma take_batch m n (keys : list bytes) f :
  (0 < m <= n)%nat → (n <= length keys)%nat → EncodeBlobHas (take m keys) limits = Ok f →
  len f <= or_default maxFrameBytes DefaultMaxFrameBytes → batch_frame (take m keys) f.
Proof.
  intros Hm Hn He Hs. split; [done| | |done]; apply EncodeBlobHas_Ok in He as (_ & Hl & _); [|lia].
  intros E. rewrite (proj2 (len_zero _) E) in Hl. lia.
Qed.

Lemma send_batch_run fuel budget keys n sk sb r w res r' w' :
  (0 < n <= length keys)%nat → (n < fuel)%nat →
  send_batch limits maxFrameBytes fuel budget keys n sk sb (r, w) = (res, (r', w')) →
  w_fs w' = w_fs w ∧
  match res with
  | Ok None => r' = r ∧ 0 < sk ∧ ∃ f, EncodeBlobHas (take 1 keys) limits = Ok f ∧ over_bytes budget sb f = true
  | Ok (Some (m, size)) => ∃ f, picked budget keys n sk sb m f ∧ size = len f ∧ wrote r r' [f]
  | Err _ => wrote r r' [] ∨ ∃ m f, picked budget keys n sk sb m f ∧ wrote r r' [f]
  end.
Proof.
  revert n r w. induction fuel as [|fuel IH]; intros n r w Hn Hf HR; [lia|]. cbn [send_batch] in HR.
  step HR as [] [r1 w1] E1; apply io_eq in E1 as [-> E1]; apply ctx_Err_fs in E1 as [Ew _];
    [|split; [done|left; apply wrote_refl]].
  step HR as payload [r2 w2] E2; injection E2 as E2 <- <-; [|split; [done|left; apply wrote_refl]].
  assert ((1 < n)%nat → (∀ g, EncodeBlobHas (take n keys) limits = Ok g → len g <= or_default maxFrameBytes DefaultMaxFrameBytes →
      over_bytes budget sb g = false → False) →
    send_batch limits maxFrameBytes fuel budget keys (n / 2) sk sb (r, w1) = (res, (r', w')) →
    w_fs w' = w_fs w ∧ match res with
      | Ok None => r' = r ∧ 0 < sk ∧ ∃ f, EncodeBlobHas (take 1 keys) limits = Ok f ∧ over_bytes budget sb f = true
      | Ok (Some (m, size)) => ∃ f, picked budget keys n sk sb m f ∧ size = len f ∧ wrote r r' [f]
      | Err _ => wrote r r' [] ∨ ∃ m f, picked budget keys n sk sb m f ∧ wrote r r' [f] end) as Hhalf.
  { intros Hn1 Hno HH. rewrite <- Ew.
    pose proof (Nat.div_le_lower_bound n 2 1 ltac:(lia) ltac:(lia)). pose proof (Nat.div_lt n 2 ltac:(lia) ltac:(lia)).
    apply IH in HH as [Hfs HH]; [|lia|lia]. split; [done|].
    assert (∀ m f, picked budget keys (n / 2) sk sb m f → picked budget keys n sk sb m f) as Hp.
    { intros m f [P1 P2 P3 _]. split; [lia|done|done|]. intros g G1 G2 G3. by destruct (Hno g). }
    destruct res as [[[m size]|]|e]; [naive_solver|done|naive_solver]. }
  destruct (_ <? len payload) eqn:Elen; bool_to_prop.
  { destruct (n =? 1)%nat eqn:En; [stop HR; split; [done|left; apply wrote_refl]|]. apply Nat.eqb_neq in En.
    apply Hhalf; [lia| |done]. intros g Hg ? _. rewrite E2 in Hg. injection Hg as <-. lia. }
  destruct (over_bytes budget sb payload) eqn:Eov; cbn [andb] in HR.
  - destruct (1 <? n)%nat eqn:En.
    { apply Nat.ltb_lt in En. apply Hhalf; [lia| |done]. intros g Hg _ Hov. rewrite E2 in Hg. injection Hg as <-. congruence. }
    apply Nat.ltb_ge in En. assert (n = 1%nat) as -> by lia. destruct (0 <? sk) eqn:Esk; bool_to_prop.
    { stop HR. split; [done|]. split; [done|]. split; [lia|]. by exists payload. }
    assert (picked budget keys 1 sk sb 1 payload) as Hp by (split; [lia|apply (take_batch 1 1); (done || lia)|intros _; lia|done]).
    step HR as [] [r3 w3] E3; apply advertise_run in E3 as [Ew3 Hs]; rewrite <- Ew, <- Ew3.
    + stop HR. split; [done|]. destruct Hs as [Hs|[? ?]]; [by exists payload|done].
    + split; [done|]. destruct Hs as [Hs|[_ Hs]]; [right; by eauto|by left].
  - assert (picked budget keys n sk sb n payload) as Hp by (split; [lia|apply (take_batch n n); (done || lia)|congruence|done]).
    step HR as [] [r3 w3] E3; apply advertise_run in E3 as [Ew3 Hs]; rewrite <- Ew, <- Ew3.
    + stop HR. split; [done|]. destruct Hs as [Hs|[? ?]]; [by exists payload|done].
    + split; [done|]. destruct Hs as [Hs|[_ Hs]]; [right; by eauto|by left].
Qed.

(** The batches [bs], sent as [fs] after [sk] keys and [sb] bytes of the
    exchange, are within its budget. *)
Record within budget (sk sb : Z) (bs : list (list bytes)) (fs : list bytes) : Prop := {
  sp_frames : Forall2 batch_frame bs fs;
  sp_keys : 0 < maxKeys budget → sk + len (concat bs) <= Z.max sk (maxKeys budget);
  sp_bytes : 0 < maxBytes budget → sb + sum_len fs <= Z.max sb (maxBytes budget) ∨ sk = 0 ∧ ∃ k, bs = [[k]];
  sp_full : 0 < maxBytes budget → maxBytes budget < sb → 0 < sk → bs = []
}.
(** They come from the front of [keys]. *)
Definition sent_part budget (keys : list bytes) (sk sb : Z) (bs : list (list bytes)) (fs : list bytes) : Prop :=
  within budget sk sb bs fs ∧ concat bs `prefix_of` keys.

Lemma sum_len_nonneg fs : 0 <= sum_len fs.
Proof. induction fs as [|f fs IH]; [done|]. cbn. fold (sum_len fs). pose proof (len_nonneg f). lia. Qed.
Lemma sum_len_app fs gs : sum_len (fs ++ gs) = sum_len fs + sum_len gs.
Proof. induction fs as [|f fs IH]; [done|]. cbn in *. fold (sum_len (fs ++ gs)) (sum_len fs). lia. Qed.

Lemma sent_part_nil budget keys sk sb : sent_part budget keys sk sb [] [].
Proof.
  split; [|apply prefix_nil]. split; [constructor| |intros _; left; cbn; lia|done]. intros _. cbn [concat]. rewrite len_nil. lia.
Qed.

Lemma over_bytes_true budget sb f : over_bytes budget sb f = true ↔ 0 < maxBytes budget ∧ maxBytes budget < sb + len f.
Proof. unfold over_bytes. rewrite andb_true_iff, !Z.ltb_lt. done. Qed.

Lemma batch_len_range budget keys sk :
  keys ≠ [] → (0 <? maxKeys budget) && (maxKeys budget <=? sk) = false →
  let n := Z.to_nat (batch_len limits budget keys sk) in
  (0 < n <= length keys)%nat ∧ (0 < maxKeys budget → sk + Z.of_nat n <= maxKeys budget).
Proof.
  intros Hk Hb n. assert (0 < len keys) as Hl by (destruct keys; [done|rewrite len_cons; pose proof (len_nonneg keys); lia]).
  pose proof inventoryBatchSize_pos. subst n. unfold batch_len. unfold len in *.
  destruct (0 <? maxKeys budget) eqn:E; cbn [andb] in *; [|split; lia].
  destruct (_ <? Z.min _ _) eqn:E2; bool_to_prop; split; lia.
Qed.

Lemma sent_part_cons budget keys n sk sb m f bs fs :
  0 <= sk → (0 < maxKeys budget → sk + Z.of_nat n <= maxKeys budget) → (n <= length keys)%nat →
  picked budget keys n sk sb m f → (over_bytes budget sb f = true → bs = []) →
  sent_part budget (drop m keys) (sk + Z.of_nat m) (sb + len f) bs fs →
  sent_part budget keys sk sb (take m keys :: bs) (f :: fs).
Proof.
  intros Hsk Hmax Hnl [P1 P2 P3 _] Hov [[S1 S3 S4 S5] S2]. assert (len (take m keys) = Z.of_nat m) as Elen.
  { unfold len. rewrite length_take. lia. }
  split; [split|cbn; destruct S2 as [rest E]; exists rest; by rewrite <- app_assoc, <- E, take_drop].
  - by constructor.
  - intros Hm. specialize (S3 Hm). cbn. rewrite len_app, Elen. specialize (Hmax Hm). lia.
  - intros Hb. cbn. fold (sum_len fs). destruct (over_bytes budget sb f) eqn:Eov.
    + right. destruct (P3 eq_refl) as [-> ?]. split; [lia|]. rewrite (Hov eq_refl). destruct keys as [|k keys]; [cbn in *; lia|].
      by exists k.
    + left. unfold over_bytes in Eov. destruct (S4 Hb) as [?|[? _]]; [|lia]. destruct (0 <? maxBytes budget) eqn:E; lia.
  - intros Hb Hfull Hpos. destruct (over_bytes budget sb f) eqn:Eov; [destruct (P3 eq_refl); lia|].
    unfold over_bytes in Eov. pose proof (len_nonneg f). destruct (0 <? maxBytes budget) eqn:E; lia.
Qed.

Lemma send_keys_run fuel budget keys cursor sk sb r w res r' w' :
  0 <= sk → (length keys <= fuel)%nat →
  send_keys limits maxFrameBytes fuel budget keys cursor sk sb (r, w) = (res, (r', w')) →
  w_fs w' = w_fs w ∧ ∃ bs fs, sent_part budget keys sk sb bs fs ∧ wrote r r' fs ∧
  match res with
  | Ok (c, complete, sk', sb') =>
      c = default cursor (last (concat bs)) ∧ sk' = sk + len (concat bs) ∧ sb' = sb + sum_len fs ∧
      (if complete : bool then concat bs = keys
       else (0 < maxKeys budget ∧ maxKeys budget <= sk') ∨
            0 < sk' ∧ ∃ k rest f, keys = concat bs ++ k :: rest ∧ EncodeBlobHas [k] limits = Ok f ∧ over_bytes budget sb' f = true)
  | Err _ => True
  end.
Proof.
  revert keys cursor sk sb r w. induction fuel as [|fuel IH]; intros keys cursor sk sb r w Hsk Hf HR.
  { destruct keys; [|cbn in Hf; lia]. cbn in HR. stop HR. split; [done|]. exists [], [].
    split; [apply sent_part_nil|]. split; [apply wrote_refl|]. cbn. rewrite len_nil. split_and!; (done || lia). }
  destruct keys as [|k keys]; [cbn in HR; stop HR; split; [done|]; exists [], [];
    split; [apply sent_part_nil|]; split; [apply wrote_refl|]; cbn; rewrite len_nil; split_and!; (done || lia)|].
  cbn [send_keys] in HR. set (ks := k :: keys) in *.
  destruct ((0 <? maxKeys budget) && (maxKeys budget <=? sk)) eqn:Ek.
  { stop HR. split; [done|]. exists [], []. split; [apply sent_part_nil|]. split; [apply wrote_refl|]. cbn. rewrite len_nil.
    apply andb_true_iff in Ek as [? ?]. split_and!; (done || lia). }
  destruct (batch_len_range budget ks sk ltac:(done) Ek) as [Hn Hmax]. cbv zeta in HR, Hn, Hmax.
  set (n := Z.to_nat (batch_len limits budget ks sk)) in *.
  step HR as sent [r1 w1] E1; apply send_batch_run in E1 as [Ew E1]; [|lia|lia| |lia|lia].
  2:{ split; [done|]. destruct E1 as [E1|(m & f & Hp & E1)].
      - exists [], []. split; [apply sent_part_nil|done].
      - exists [take m ks], [f]. split; [|done]. eapply sent_part_cons; [done|exact Hmax|lia|exact Hp|done|].
        apply sent_part_nil. }
  destruct sent as [[m size]|].
  2:{ stop HR. destruct E1 as (-> & Hpos & f & Hf1 & Hov). split; [done|]. exists [], [].
      split; [apply sent_part_nil|]. split; [apply wrote_refl|]. cbn. rewrite len_nil. split_and!; try (done || lia).
      right. split; [lia|]. exists k, keys, f. done. }
  destruct E1 as (f & Hp & -> & Hw). pose proof (pk_len _ _ _ _ _ _ _ Hp) as Hm.
  apply IH in HR as (Ew2 & bs & fs & Hsp & Hw2 & HR); [|lia|rewrite length_drop; cbn [length] in *; lia].
  split; [by rewrite Ew2|]. exists (take m ks :: bs), (f :: fs). split.
  { eapply sent_part_cons; [done|exact Hmax|lia|exact Hp| |exact Hsp]. intros [Hb Ho]%over_bytes_true.
    apply (sp_full _ _ _ _ _ (proj1 Hsp)); lia. }
  split; [apply (wrote_trans r r1 r' [f] fs Hw Hw2)|]. destruct res as [[[[c complete] sk'] sb']|e]; [|done].
  destruct HR as (-> & -> & -> & HC). assert (len (take m ks) = Z.of_nat m) as Elen by (unfold len; rewrite length_take; lia).
  cbn [concat]. rewrite len_app, Elen. cbn [sum_len foldr]. fold (sum_len fs). split_and!; [|lia|lia|].
  - rewrite last_app. destruct (last (concat bs)) as [x|]; [done|]. cbn [default].
    unfold at_. rewrite last_lookup, length_take, Nat.min_l by lia.
    rewrite lookup_take_lt by lia. replace (Nat.pred m) with (m - 1)%nat by lia.
    by destruct (lookup_lt_is_Some_2 ks (m - 1) ltac:(lia)) as [x ->].
  - destruct complete; [by rewrite HC, take_drop|]. destruct HC as [HC|(? & k' & rest & g & Eks & Hg)]; [left; lia|].
    right. split; [lia|]. exists k', rest, g. rewrite <- app_assoc, <- Eks, take_drop. split; [done|].
    done.
Qed.

(** What one part of an exchange leaves of the budget is the next part's. *)
Lemma within_app budget sk sb bs1 fs1 bs2 fs2 :
  0 <= sk → within budget sk sb bs1 fs1 → within budget (sk + len (concat bs1)) (sb + sum_len fs1) bs2 fs2 →
  within budget sk sb (bs1 ++ bs2) (fs1 ++ fs2).
Proof.
  intros Hsk [F1 K1 B1 U1] [F2 K2 B2 U2].
  assert (bs1 = [] ∨ 0 < len (concat bs1)) as Hpos.
  { destruct bs1 as [|b bs1]; [by left|right]. apply Forall2_cons_inv_l in F1 as (f & fs & [_ Hb _ _] & _ & _).
    cbn. rewrite len_app. destruct b as [|x b]; [done|]. rewrite len_cons. pose proof (len_nonneg b). pose proof (len_nonneg (concat bs1)). lia. }
  split.
  - by apply Forall2_app.
  - intros Hm. specialize (K1 Hm). specialize (K2 Hm). rewrite concat_app, len_app. lia.
  - intros Hb. rewrite sum_len_app. destruct Hpos as [->|Hpos].
    { apply Forall2_nil_inv_l in F1 as ->. cbn [concat app] in *. change (len (@nil bytes)) with 0 in *. change (sum_len []) with 0 in *.
      rewrite !Z.add_0_r in *. by apply B2. }
    destruct (B2 Hb) as [HB|[HB _]]; [|lia]. destruct (B1 Hb) as [?|[-> [k ->]]]; [left; lia|].
    destruct (decide (maxBytes budget < sb + sum_len fs1)) as [Hfull|]; [|left; lia].
    right. split; [done|]. exists k. by rewrite (U2 Hb Hfull) by lia.
  - intros Hb Hfull Hp. rewrite (U1 Hb Hfull Hp) in *. apply Forall2_nil_inv_l in F1 as ->. cbn [concat app] in *. change (len (@nil bytes)) with 0 in *.
    change (sum_len []) with 0 in *. apply U2; lia.
Qed.

Lemma on_blobs_run {A} (m : M (S * world) A) r w res r' w' :
  on_blobs m (r, w) = (res, (r', w')) → rp_peer r' = rp_peer r ∧ m (rp_store r, w) = (res, (rp_store r', w')).
Proof. unfold on_blobs, zoom. cbn [fst snd]. destruct (m (rp_store r, w)) as [x [s2 w2]]. by intros [= <- <- <-]. Qed.

Lemma send_pages_within fuel page budget cursor sk sb r w res r' w' :
  0 <= sk → send_pages limits maxFrameBytes fuel page budget cursor sk sb (r, w) = (res, (r', w')) →
  ∃ bs fs, within budget sk sb bs fs ∧ peer_sent (rp_peer r') = peer_sent (rp_peer r) ++ fs.
Proof.
  revert cursor sk sb r w. induction fuel as [|fuel IH]; intros cursor sk sb r w Hsk HR.
  all: assert (∀ r, ∃ bs fs, within budget sk sb bs fs ∧ peer_sent (rp_peer r) = peer_sent (rp_peer r) ++ fs) as Hnone
    by (intros; exists [], []; split; [apply (sent_part_nil budget [])|by rewrite app_nil_r]).
  { stop HR. apply Hnone. }
  cbn [send_pages] in HR. step HR as [] [r1 w1] E1; apply io_eq in E1 as [-> E1]; [|apply Hnone].
  destruct (_ && _); [stop HR; apply Hnone|].
  step HR as [keys next] [r2 w2] E2; apply on_blobs_run in E2 as [Ep E2]; [|rewrite Ep; apply Hnone].
  destruct (len keys =? 0); [stop HR; rewrite Ep; apply Hnone|].
  destruct (bad_cursor keys next); [stop HR; rewrite Ep; apply Hnone|].
  destruct (not_advanced cursor next); [stop HR; rewrite Ep; apply Hnone|].
  step HR as [[[c complete] sk'] sb'] [r3 w3] E3; unfold sendBlobHasKeysBudget in E3;
    (apply send_keys_run in E3 as (_ & bs & fs & [Hw _] & [_ Hs] & HC); [|done|done]); rewrite Ep in Hs; [|by exists bs, fs].
  destruct HC as (-> & -> & -> & _). destruct complete; cbn [negb] in HR; [|stop HR; by exists bs, fs].
  apply IH in HR as (bs2 & fs2 & Hw2 & Hs2); [|pose proof (len_nonneg (concat bs)); lia].
  exists (bs ++ bs2), (fs ++ fs2). split; [by apply within_app|]. by rewrite Hs2, Hs, <- app_assoc.
Qed.
End sending.

(** ** Runs without faults *)

(** A connected peer takes every frame within the limit. *)
Class OpenPeerSpec (P : Type) `{NodePeer P} `{FramePeerSpec P} := {
  peer_open : P → Prop;
  open_writes : ∀ p, peer_open p → WritesFrames p = true;
  open_WriteFrame : ∀ payload max p w, quiet w → peer_open p → len payload <= or_default max DefaultMaxFrameBytes →
    ∃ p', WriteFrame payload max (p, w) = (Ok tt, (p', w)) ∧ peer_open p'
}.

Section quiet_runs.
Context {P S : Type} `{OpenPeerSpec P}.
Context (limits : ReplicationLimits) (maxFrameBytes : Z).
Implicit Types (r : replicator P S) (budget : inventoryExchangeBudget).

(** A key that can be advertised. *)
Definition sendable (k : bytes) : Prop :=
  ∃ f, EncodeBlobHas [k] limits = Ok f ∧ len f <= or_default maxFrameBytes DefaultMaxFrameBytes.

Lemma EncodeBlobHas_sendable keys :
  keys ≠ [] → len keys <= inventoryBatchSize limits → Forall sendable keys → ∃ f, EncodeBlobHas keys limits = Ok f.
Proof.
  intros Hne Hl Hk. eexists. apply EncodeBlobHas_Ok. split; [reflexivity|]. split.
  - destruct keys as [|k keys]; [done|]. rewrite len_cons in *. pose proof (len_nonneg keys). lia.
  - eapply Forall_impl; [exact Hk|]. intros k (f & (_ & _ & Hf)%EncodeBlobHas_Ok & _). exact (proj1 (Forall_singleton _ _) Hf).
Qed.

Lemma advertise_open payload n r w :
  quiet w → peer_open (rp_peer r) → len payload <= or_default maxFrameBytes DefaultMaxFrameBytes →
  ∃ r', advertise maxFrameBytes payload n (r, w) = (Ok tt, (r', w)) ∧ peer_open (rp_peer r').
Proof.
  intros Hq Ho Hl. destruct (open_WriteFrame payload maxFrameBytes (rp_peer r) w Hq Ho Hl) as (p' & EW & Ho').
  unfold advertise, writePeerFrame. eexists. split; [erewrite bind_step_Ok|].
  2:{ erewrite bind_step_Ok by reflexivity. cbn [fst]. rewrite open_writes by done. unfold on_peer, zoom. cbn [fst snd]. by rewrite EW. }
  - reflexivity.
  - done.
Qed.

Lemma send_batch_open fuel budget keys n sk sb r w :
  quiet w → peer_open (rp_peer r) → Forall sendable keys → (0 < n <= length keys)%nat → Z.of_nat n <= inventoryBatchSize limits →
  (n < fuel)%nat →
  ∃ v r', send_batch limits maxFrameBytes fuel budget keys n sk sb (r, w) = (Ok v, (r', w)) ∧ peer_open (rp_peer r').
Proof.
  intros Hq Ho Hk. revert n. induction fuel as [|fuel IH]; intros n Hn Hb Hf; [lia|]. cbn [send_batch].
  erewrite bind_step_Ok by (apply io_eq; split; [reflexivity|by apply quiet_ctx]).
  destruct (EncodeBlobHas_sendable (take n keys)) as [payload Ep].
  { intros E%(f_equal length). rewrite length_take in E. cbn in E. lia. }
  { unfold len. rewrite length_take. lia. }
  { by apply Forall_take. }
  rewrite (bind_step_Ok _ _ _ payload (r, w)) by by rewrite Ep.
  assert ((1 < n)%nat → ∃ v r', send_batch limits maxFrameBytes fuel budget keys (n / 2) sk sb (r, w) = (Ok v, (r', w)) ∧ peer_open (rp_peer r')) as Hhalf.
  { intros Hn1. pose proof (Nat.div_le_lower_bound n 2 1 ltac:(lia) ltac:(lia)). pose proof (Nat.div_lt n 2 ltac:(lia) ltac:(lia)).
    apply IH; lia. }
  destruct (_ <? len payload) eqn:El; bool_to_prop.
  { destruct (n =? 1)%nat eqn:En; [|apply Nat.eqb_neq in En; apply Hhalf; lia]. apply Nat.eqb_eq in En. subst n.
    destruct keys as [|k keys]; [cbn in *; lia|]. apply Forall_cons in Hk as [(f & Ef & Hfl) _]. change (take 1 (k :: keys)) with [k] in Ep. rewrite Ef in Ep.
    injection Ep as ->. lia. }
  destruct (_ && (1 <? n)%nat) eqn:E2; [apply andb_true_iff in E2 as [_ En]; apply Nat.ltb_lt in En; by apply Hhalf|].
  destruct (_ && (0 <? sk)); [by eauto|].
  destruct (advertise_open payload n r w Hq Ho El) as (r' & EA & Ho'). erewrite bind_step_Ok by exact EA. by eauto.
Qed.

Lemma send_keys_open fuel budget keys cursor sk sb r w :
  quiet w → peer_open (rp_peer r) → Forall sendable keys → 0 <= sk → (length keys <= fuel)%nat →
  ∃ v r', send_keys limits maxFrameBytes fuel budget keys cursor sk sb (r, w) = (Ok v, (r', w)) ∧ peer_open (rp_peer r').
Proof.
  intros Hq. revert keys cursor sk sb r. induction fuel as [|fuel IH]; intros keys cursor sk sb r Ho Hk Hsk Hf.
  { destruct keys; [|cbn in Hf; lia]. cbn. by eauto. }
  destruct keys as [|k keys]; [cbn; by eauto|]. cbn [send_keys]. set (ks := k :: keys) in *.
  destruct ((0 <? maxKeys budget) && (maxKeys budget <=? sk)) eqn:Ek; [by eauto|].
  destruct (batch_len_range limits budget ks sk ltac:(done) Ek) as [Hn Hmax]. cbv zeta in Hn.
  set (n := Z.to_nat (batch_len limits budget ks sk)) in *.
  assert (Z.of_nat n <= inventoryBatchSize limits) as Hb.
  { subst n. unfold batch_len in *. pose proof (inventoryBatchSize_pos limits). destruct (_ && (_ <? Z.min _ _)) eqn:E; [apply andb_true_iff in E as [_ E]|]; lia. }
  destruct (send_batch_open (Datatypes.S n) budget ks n sk sb r w) as (v & r1 & E1 & Ho1); [done|done|done|lia|done|lia|].
  cbv zeta. erewrite bind_step_Ok by exact E1. destruct v as [[m size]|]; [|by eauto].
  apply send_batch_run in E1 as (_ & f & Hp & _); [|lia|lia]. pose proof (pk_len _ _ _ _ _ _ _ _ _ Hp).
  apply IH; [done|by apply Forall_drop|lia|rewrite length_drop; cbn [length] in *; lia].
Qed.
End quiet_runs.

Section pages.
Context {P S : Type} `{OpenPeerSpec P} `{PagerSpec S}.
Context (limits : ReplicationLimits) (maxFrameBytes : Z).
Implicit Types (r : replicator P S) (budget : inventoryExchangeBudget).

Lemma take_nonempty {A} n (l : list A) : (0 < n)%nat → l ≠ [] → take n l ≠ [].
Proof. destruct n, l; cbn; [lia|lia|done|done]. Qed.
Lemma last_default {A} (d : A) l k : k ≠ [] → default d (last (l ++ k)) = default d (last k).
Proof. intros Hk. rewrite last_app. destruct (last k) eqn:E; [done|]. by apply last_None in E. Qed.

(** The next page of a walk through a store, which passes the checks. *)
Lemma next_keys s w done_ rest limit :
  at_cursor s w done_ rest → 0 < limit →
  let keys := take (Z.to_nat limit) rest in
  ∃ s' w', bs_ListKeyPage (default [] (last done_)) limit (s, w) = (Ok (keys, default [] (last keys)), (s', w')) ∧
    at_cursor s' w' done_ rest ∧
    (keys ≠ [] → bad_cursor keys (default [] (last keys)) = false ∧
      not_advanced (default [] (last done_)) (default [] (last keys)) = false).
Proof.
  intros (Hq & Hwf & EL) Hl keys. destruct (pg_run (default [] (last done_)) limit s w Hq Hwf) as (s' & w' & HP & Hq' & Hwf' & Ek).
  pose proof (pg_NoDup _ _ Hwf) as Hd. pose proof (pg_nonempty _ _ Hwf) as Hne.
  rewrite (page_at done_ rest) in HP by done. unfold normalizeKeyPageLimit in HP. destruct (limit <=? 0) eqn:E0; [lia|].
  fold keys in HP. exists s', w'. split; [exact HP|]. split; [split_and!; [done|done|by rewrite Ek]|].
  intros Hk. destruct (last keys) as [x|] eqn:Ex; [|by apply last_None in Ex]. cbn [default from_option id].
  apply last_Some_elem_of in Ex as Hx. apply in_take in Hx. split.
  - unfold bad_cursor. rewrite Ex. cbn [default from_option id]. rewrite bool_decide_eq_true_2 by done. rewrite orb_false_r. apply Z.eqb_neq.
    intros ->%len_zero. apply Hne. rewrite <- (sorted_keys_perm (pg_keys s (w_fs w))), EL. apply elem_of_app. by right.
  - unfold not_advanced. destruct (last done_) as [c|] eqn:Ec; [|done]. cbn [default from_option id]. apply last_Some_elem_of in Ec.
    rewrite andb_false_iff. right. apply bool_decide_eq_false_2, bytes_lt_not_le.
    apply (sorted_app_lt done_ rest); [rewrite <- EL; apply sorted_keys_sorted| |done|done].
    by rewrite <- EL, sorted_keys_perm.
Qed.

(** How an exchange ends: [bs] has been advertised, [rest] is left. *)
Record exchanged budget (done_ : list bytes) (bs : list (list bytes)) (rest : list bytes) (c : bytes) (complete : bool) : Prop := {
  xc_rest : complete = true → rest = [];
  xc_cursor : c = default [] (last (done_ ++ concat bs)) ∨ 0 < maxBytes budget ∧ complete = false ∧ c = []
}.

Lemma send_pages_open fuel budget done_ rest sk sb r w :
  at_cursor (rp_store r) w done_ rest → peer_open (rp_peer r) → Forall (sendable limits maxFrameBytes) rest → 0 <= sk →
  (length rest < fuel)%nat →
  ∃ c complete bs fs rest' r' w',
    send_pages limits maxFrameBytes fuel bs_ListKeyPage budget (default [] (last done_)) sk sb (r, w) = (Ok (c, complete), (r', w')) ∧
    Forall2 (batch_frame limits maxFrameBytes) bs fs ∧ peer_sent (rp_peer r') = peer_sent (rp_peer r) ++ fs ∧
    peer_open (rp_peer r') ∧ rest = concat bs ++ rest' ∧ at_cursor (rp_store r') w' (done_ ++ concat bs) rest' ∧
    exchanged budget done_ bs rest' c complete ∧ (sk = 0 → rest ≠ [] → concat bs ≠ []).
Proof.
  revert done_ rest sk sb r w. induction fuel as [|fuel IH]; intros done_ rest sk sb r w Hat Ho Hk Hsk Hf; [lia|].
  cbn [send_pages]. pose proof Hat as (Hq & Hwf & EL).
  erewrite bind_step_Ok by (apply io_eq; split; [reflexivity|by apply quiet_ctx]).
  destruct ((0 <? maxKeys budget) && (maxKeys budget <=? sk)) eqn:Ek.
  { exists (default [] (last done_)), false, [], [], rest, r, w. cbn [concat app]. rewrite !app_nil_r.
    split_and!; try done; [split; [done|left; by rewrite app_nil_r]|]. intros ->. apply andb_true_iff in Ek as [? ?]. lia. }
  cbv zeta. set (limit := if _ && _ then _ else _).
  assert (0 < limit) as Hl.
  { subst limit. unfold page_size. pose proof (inventoryBatchSize_pos limits).
    destruct (0 <? maxKeys budget) eqn:E1; cbn [andb] in *; repeat case_match; bool_to_prop; lia. }
  destruct (next_keys (rp_store r) w done_ rest limit Hat Hl) as (s1 & w1 & HP & Hat1 & Hchk).
  erewrite bind_step_Ok. 2:{ unfold on_blobs, zoom. cbn [fst snd]. rewrite HP. reflexivity. }
  cbn [fst snd rp_peer]. set (r1 := mkReplicator (rp_peer r) s1 (rp_metrics r)). set (keys := take (Z.to_nat limit) rest) in *.
  destruct (len keys =? 0) eqn:E0; bool_to_prop.
  { apply len_zero in E0. assert (rest = []) as -> by (destruct rest; [done|]; by apply take_nonempty in E0; [|lia|]).
    exists (default [] (last done_)), true, [], [], [], r1, w1. cbn [concat app]. rewrite !app_nil_r.
    split_and!; try done. split; [done|left; by rewrite app_nil_r]. }
  assert (keys ≠ []) as Hne by (intros E; by rewrite E in E0). destruct (Hchk Hne) as [-> ->]. cbv beta iota.
  pose proof Hat1 as (Hq1 & Hwf1 & EL1).
  destruct (send_keys_open limits maxFrameBytes (length keys) budget keys [] sk sb r1 w1) as (v & r2 & E2 & Ho2);
    [done|done|by apply Forall_take|done|done|].
  erewrite bind_step_Ok by exact E2.
  apply send_keys_run in E2 as (_ & bs & fs & [Hw Hpre] & [Est Hsent] & HC); [|done|done].
  destruct v as [[[c complete] sk'] sb']. destruct HC as (-> & -> & -> & HC). change (rp_store r1) with s1 in Est. change (rp_peer r1) with (rp_peer r) in Hsent.
  destruct complete; cbn [negb].
  - assert (default [] (last keys) = default [] (last (done_ ++ concat bs))) as -> by (rewrite HC; by rewrite last_default).
    destruct (IH (done_ ++ concat bs) (drop (Z.to_nat limit) rest) (sk + len (concat bs)) (sb + sum_len fs) r2 w1)
      as (c & complete & bs2 & fs2 & rest' & r3 & w3 & HR & HF2 & Hs3 & Ho3 & Er & Hat3 & [X1 X2] & _).
    + split_and!; [done|by rewrite Est|]. rewrite Est, EL1, HC. unfold keys. by rewrite <- app_assoc, take_drop.
    + done.
    + by apply Forall_drop.
    + pose proof (len_nonneg (concat bs)). lia.
    + rewrite length_drop. assert (rest ≠ []) by (intros E; apply Hne; subst keys; rewrite E; by rewrite take_nil).
      destruct rest; [done|]. cbn [length] in *. lia.
    + exists c, complete, (bs ++ bs2), (fs ++ fs2), rest', r3, w3. rewrite concat_app, !app_assoc.
      split_and!; [exact HR|apply Forall2_app; [by destruct Hw|done]|by rewrite Hs3, Hsent|done| |done| |].
      * rewrite <- app_assoc, <- Er, HC. unfold keys. by rewrite take_drop.
      * split; [done|]. by rewrite concat_app, app_assoc.
      * intros _ _. rewrite HC. intros E%app_nil. by destruct E.
  - exists (default [] (last (concat bs))), false, bs, fs. destruct Hpre as [rest1 E1].
    exists (rest1 ++ drop (Z.to_nat limit) rest), r2, w1.
    assert (rest = concat bs ++ rest1 ++ drop (Z.to_nat limit) rest) as Erest by (rewrite app_assoc, <- E1; unfold keys; by rewrite take_drop).
    split_and!; [reflexivity|by destruct Hw|done|done|done| | |].
    + split_and!; [done|by rewrite Est|]. by rewrite Est, EL1, <- app_assoc, <- Erest.
    + split; [done|]. destruct (decide (concat bs = [])) as [Eb|Eb]; [right|left; by rewrite last_default].
      rewrite Eb in *. change (len (@nil bytes)) with 0 in HC. rewrite Z.add_0_r in HC. split_and!; [|done|done].
      destruct HC as [[? ?]|(_ & k & rest0 & f & _ & _ & Hov)]; [|by apply over_bytes_true in Hov as [? _]].
      lia.
    + intros -> _ Eb. rewrite Eb in HC. change (len (@nil bytes)) with 0 in HC. destruct HC as [[? ?]|[? _]]; lia.
Qed.
End pages.

(** ** Exchange after exchange *)

(** The scheduler's exchanges with a peer that stays connected, each from the
    cursor that the one before has returned, until one is complete. *)
Fixpoint exchanges {P S} `{NodePeer P} `{RepairFramePeer P} (rounds : nat) limits maxFrameBytes fuel (lister : Lister S) budget
    (after : bytes) : M (replicator P S * world) (bytes * bool) :=
  match rounds with
  | O => ret (after, false)
  | Datatypes.S rounds' =>
      '(next, complete) <- sendInventoryExchange limits maxFrameBytes fuel lister budget after ;
      if complete : bool then ret (next, true)
      else exchanges rounds' limits maxFrameBytes fuel lister budget next
  end.

Section rounds.
Context {P S : Type} `{OpenPeerSpec P} `{PagerSpec S}.
Context (limits : ReplicationLimits) (maxFrameBytes : Z) (fuel : nat) (lister : Lister S) (budget : inventoryExchangeBudget).
Implicit Types (r : replicator P S).

(** One exchange from a cursor, when the cursor it returns is right. *)
Definition advances : Prop := ∀ done_ rest r w,
  at_cursor (rp_store r) w done_ rest → peer_open (rp_peer r) → Forall (sendable limits maxFrameBytes) rest → (length rest < fuel)%nat →
  ∃ complete bs fs rest' r' w',
    sendInventoryExchange limits maxFrameBytes fuel lister budget (default [] (last done_)) (r, w) =
      (Ok (default [] (last (done_ ++ concat bs)), complete), (r', w')) ∧
    Forall2 (batch_frame limits maxFrameBytes) bs fs ∧ peer_sent (rp_peer r') = peer_sent (rp_peer r) ++ fs ∧
    peer_open (rp_peer r') ∧ rest = concat bs ++ rest' ∧ at_cursor (rp_store r') w' (done_ ++ concat bs) rest' ∧
    (complete = true → rest' = []) ∧ (rest ≠ [] → concat bs ≠ []) ∧ (rest = [] → complete = true).

Lemma exchanges_advertise : advances → ∀ rounds done_ rest r w,
  at_cursor (rp_store r) w done_ rest → peer_open (rp_peer r) → Forall (sendable limits maxFrameBytes) rest → (length rest < fuel)%nat →
  (length rest < rounds)%nat →
  ∃ bs fs r' w',
    exchanges rounds limits maxFrameBytes fuel lister budget (default [] (last done_)) (r, w) =
      (Ok (default [] (last (done_ ++ rest)), true), (r', w')) ∧
    Forall2 (batch_frame limits maxFrameBytes) bs fs ∧ peer_sent (rp_peer r') = peer_sent (rp_peer r) ++ fs ∧ concat bs = rest.
Proof.
  intros Hadv rounds. induction rounds as [|rounds IH]; intros done_ rest r w Hat Ho Hk Hf Hr; [lia|]. cbn [exchanges].
  destruct (Hadv done_ rest r w Hat Ho Hk Hf) as (complete & bs & fs & rest' & r1 & w1 & HR & HF & Hs & Ho1 & -> & Hat1 & Hc & Hpr & Hend).
  erewrite bind_step_Ok by exact HR. destruct complete.
  { rewrite (Hc eq_refl), !app_nil_r. by exists bs, fs, r1, w1. }
  assert (concat bs ≠ []) as Hne by (apply Hpr; intros E; discriminate (Hend E)).
  rewrite length_app in Hf, Hr. assert (0 < length (concat bs))%nat by (destruct (concat bs); [done|cbn; lia]).
  apply Forall_app in Hk as [_ Hk].
  destruct (IH (done_ ++ concat bs) rest' r1 w1) as (bs2 & fs2 & r2 & w2 & HR2 & HF2 & Hs2 & E2); [done|done|done|lia|lia|].
  exists (bs ++ bs2), (fs ++ fs2), r2, w2. rewrite app_assoc. split_and!; [exact HR2|by apply Forall2_app| |by rewrite concat_app, E2].
  by rewrite Hs2, Hs, app_assoc.
Qed.
End rounds.

Section listers.
Context {P S : Type} `{OpenPeerSpec P} `{PagerSpec S}.
Context (limits : ReplicationLimits) (maxFrameBytes : Z) (fuel : nat) (budget : inventoryExchangeBudget).
Implicit Types (r : replicator P S).

Lemma paged_advances :
  maxBytes budget <= 0 → advances (P := P) (S := S) limits maxFrameBytes fuel (PagedLister bs_ListKeyPage) budget.
Proof.
  intros Hb done_ rest r w Hat Ho Hk Hf.
  destruct (send_pages_open limits maxFrameBytes fuel budget done_ rest 0 0 r w)
    as (c & complete & bs & fs & rest' & r' & w' & HR & HF & Hs & Ho' & Er & Hat' & [X1 X2] & Hpr); [done|done|done|done|done|].
  destruct X2 as [->|[? _]]; [|lia]. exists complete, bs, fs, rest', r', w'. split_and!; [exact HR|done|done|done|done|done|done|by apply Hpr|].
  intros ->. symmetry in Er. apply app_nil in Er as [Eb ->]. destruct complete; [done|exfalso].
  (* an empty inventory is complete in the first round *)
  clear X1 Hpr. pose proof Hat as (Hq & _ & _). destruct fuel as [|fuel']; [cbn in Hf; lia|]. cbn [send_pages] in HR.
  erewrite bind_step_Ok in HR by (apply io_eq; split; [reflexivity|by apply quiet_ctx]).
  destruct ((0 <? maxKeys budget) && (maxKeys budget <=? 0)) eqn:Ek; [apply andb_true_iff in Ek as [? ?]; lia|]. cbv zeta in HR.
  set (limit := if _ && _ then _ else _) in HR.
  assert (0 < limit) as Hl.
  { subst limit. unfold page_size. pose proof (inventoryBatchSize_pos limits).
    destruct (0 <? maxKeys budget) eqn:E1; cbn [andb] in *; repeat case_match; bool_to_prop; lia. }
  destruct (next_keys (rp_store r) w done_ [] limit Hat Hl) as (s1 & w1 & HP & _ & _). rewrite take_nil in HP.
  erewrite bind_step_Ok in HR. 2:{ unfold on_blobs, zoom. cbn [fst snd]. rewrite HP. reflexivity. }
  cbn in HR. discriminate HR.
Qed.

Lemma search_after keys done_ rest :
  NoDup keys → [] ∉ keys → sorted_keys keys = done_ ++ rest →
  sort_Search (length (sorted_keys keys))
    (λ i, (len (default [] (last done_)) =? 0) || bool_decide (bytes_lt (default [] (last done_)) (at_ (sorted_keys keys) i))) = length done_.
Proof.
  intros Hd Hne EL. rewrite EL. assert (NoDup (done_ ++ rest)) as Hd' by (by rewrite <- EL, sorted_keys_perm).
  assert (StronglySorted bytes_le (done_ ++ rest)) as Hs by (rewrite <- EL; apply sorted_keys_sorted).
  apply sort_Search_split; [rewrite length_app; lia| |].
  - intros i Hi. destruct done_ as [|c l _] using rev_ind; [cbn in Hi; lia|]. rewrite last_snoc. cbn [default from_option id].
    assert (c ≠ []) as Hc.
    { intros ->. apply Hne. rewrite <- (sorted_keys_perm keys), EL, !elem_of_app. left; right. by apply list_elem_of_singleton. }
    rewrite orb_false_iff. split; [apply Z.eqb_neq; by intros ?%len_zero|]. apply bool_decide_eq_false_2.
    unfold at_. rewrite lookup_app_l by done. rewrite length_app in Hi. cbn in Hi.
    destruct (decide (i < length l)%nat) as [Hil|Hil].
    + rewrite lookup_app_l by done. destruct (lookup_lt_is_Some_2 l i Hil) as [x Hx]. rewrite Hx. cbn.
      rewrite <- app_assoc in Hs, Hd'. intros Hlt. apply (irreflexivity bytes_lt c). transitivity x; [done|].
      apply (sorted_app_lt l ([c] ++ rest)); [done|done|by eapply list_elem_of_lookup_2|by left].
    + replace i with (length l) by lia. rewrite list_lookup_middle by done. cbn. apply (irreflexivity bytes_lt).
  - intros i Hi. rewrite length_app in Hi. rewrite orb_true_iff.
    destruct (last done_) as [c|] eqn:Ec; [right|by left]. cbn [default from_option id]. apply bool_decide_eq_true_2. unfold at_. rewrite lookup_app_r by lia.
    destruct (lookup_lt_is_Some_2 rest (i - length done_)%nat ltac:(lia)) as [x Hx]. rewrite Hx. cbn.
    apply (sorted_app_lt done_ rest); [done|done|by apply last_Some_elem_of|by eapply list_elem_of_lookup_2].
Qed.

(** [ListKeys] lists the keys of the store, in some order. *)
Definition lists_keys (list_keys : M (S * world) (list bytes)) : Prop := ∀ s w, quiet w → pg_wf s (w_fs w) →
  ∃ ks s' w', list_keys (s, w) = (Ok ks, (s', w')) ∧ quiet w' ∧ pg_wf s' (w_fs w') ∧ pg_keys s' (w_fs w') = pg_keys s (w_fs w) ∧
    ks ≡ₚ pg_keys s (w_fs w).

Lemma plain_advances list_keys :
  lists_keys list_keys → advances (P := P) limits maxFrameBytes fuel (PlainLister list_keys) budget.
Proof.
  intros Hlist done_ rest r w (Hq & Hwf & EL) Ho Hk Hf.
  destruct (Hlist (rp_store r) w Hq Hwf) as (ks & s1 & w1 & EP & Hq1 & Hwf1 & Ek & Hks).
  cbn [sendInventoryExchange]. erewrite bind_step_Ok. 2:{ unfold on_blobs, zoom. cbn [fst snd]. rewrite EP. reflexivity. }
  cbv zeta. unfold sort_keys. rewrite (sorted_keys_proper _ _ Hks).
  rewrite (search_after (pg_keys (rp_store r) (w_fs w)) done_ rest); [|by apply pg_NoDup|by apply pg_nonempty|done].
  cbn [fst snd]. set (r1 := mkReplicator (rp_peer r) s1 (rp_metrics r)). rewrite EL, length_app, drop_app_length.
  assert (∀ bs rest', rest = concat bs ++ rest' → at_cursor s1 w1 (done_ ++ concat bs) rest') as Hat.
  { intros bs rest' ->. split_and!; [done|done|]. by rewrite Ek, EL, app_assoc. }
  destruct (length done_ =? _)%nat eqn:E0.
  { apply Nat.eqb_eq in E0. assert (rest = []) as -> by (destruct rest; [done|cbn in E0; lia]).
    exists true, [], [], [], r1, w1. cbn [concat]. rewrite !app_nil_r. split_and!; try done. by rewrite <- (app_nil_r done_); apply (Hat []). }
  apply Nat.eqb_neq in E0. assert (rest ≠ []) as Hne by (intros ->; cbn in E0; lia).
  destruct (send_keys_open limits maxFrameBytes (length rest) budget rest [] 0 0 r1 w1) as (v & r2 & E2 & Ho2); [done..|].
  erewrite bind_step_Ok by exact E2.
  apply send_keys_run in E2 as (_ & bs & fs & [Hw [rest' Er]] & [Est Hsent] & HC); [|done|done].
  destruct v as [[[c complete] sk'] sb']. destruct HC as (-> & -> & -> & HC).
  change (rp_store r1) with s1 in Est. change (rp_peer r1) with (rp_peer r) in Hsent.
  assert (concat bs ≠ []) as Hpr.
  { intros Eb. rewrite Eb in HC. destruct complete; [by rewrite <- HC in Hne|]. change (len (@nil bytes)) with 0 in HC.
    destruct HC as [[? ?]|[? _]]; lia. }
  exists complete, bs, fs, rest', r2, w1. cbv beta iota. rewrite last_default by done.
  split_and!; [reflexivity|by destruct Hw|done|done|done|rewrite Est; by apply Hat| |done|done].
  intros ->. rewrite <- HC in Er. rewrite <- (app_nil_r (concat bs)) in Er at 1. by apply app_inv_head in Er.
Qed.
End listers.

(** ** The end of a byte budget *)

Section stuck.
Context {P S : Type} `{OpenPeerSpec P} `{PagerSpec S}.
Context (limits : ReplicationLimits) (maxFrameBytes : Z) (budget : inventoryExchangeBudget).
Implicit Types (r : replicator P S).

(** A page that fits into one frame is sent in one frame. *)
Lemma send_keys_one keys cursor sk sb f r w :
  quiet w → peer_open (rp_peer r) → batch_frame limits maxFrameBytes keys f → maxKeys budget <= 0 → over_bytes budget sb f = false →
  ∃ r', send_keys limits maxFrameBytes (length keys) budget keys cursor sk sb (r, w) =
      (Ok (default [] (last keys), true, sk + len keys, sb + len f), (r', w)) ∧
    wrote r r' [f] ∧ peer_open (rp_peer r').
Proof.
  intros Hq Ho [He Hne Hn Hs] Hk Hov. destruct (advertise_open maxFrameBytes f (length keys) r w Hq Ho Hs) as (r' & EA & Ho').
  exists r'. split; [|split; [|done]; apply advertise_run in EA as [_ [?|[? _]]]; done].
  destruct (length keys) as [|n] eqn:El; [by destruct keys|]. cbn [send_keys].
  destruct keys as [|k keys]; [done|]. set (ks := k :: keys) in *.
  replace ((0 <? maxKeys budget) && (maxKeys budget <=? sk)) with false by lia. cbv zeta.
  assert (Z.to_nat (batch_len limits budget ks sk) = length ks) as ->.
  { unfold batch_len. replace ((0 <? maxKeys budget) && (maxKeys budget - sk <? Z.min (inventoryBatchSize limits) (len ks))) with false by lia.
    unfold len in *. lia. }
  erewrite bind_step_Ok.
  2:{ cbn [send_batch]. erewrite bind_step_Ok by (apply io_eq; split; [reflexivity|by apply quiet_ctx]).
      rewrite firstn_all. rewrite (bind_step_Ok _ _ _ f (r, w)) by by rewrite He.
      destruct (_ <? len f) eqn:Elen; [lia|]. rewrite Hov. cbn [andb]. rewrite El. erewrite bind_step_Ok by exact EA. reflexivity. }
  cbv beta iota. rewrite <- El, drop_all.
  assert (at_ ks (length ks - 1) = default [] (last ks)) as ->.
  { unfold at_. by rewrite last_lookup, Nat.sub_1_r. }
  destruct n; cbn [send_keys]; reflexivity.
Qed.

(** When no batch fits any more, nothing is sent and no cursor is returned. *)
Lemma send_keys_none keys sk sb r w :
  quiet w → peer_open (rp_peer r) → Forall (sendable limits maxFrameBytes) keys → keys ≠ [] → 0 < sk → maxKeys budget <= 0 →
  0 < maxBytes budget → sb <= maxBytes budget →
  (∀ m f, EncodeBlobHas (take m keys) limits = Ok f → maxBytes budget < sb + len f) →
  ∃ r', send_keys limits maxFrameBytes (length keys) budget keys [] sk sb (r, w) = (Ok ([], false, sk, sb), (r', w)) ∧
    wrote r r' [] ∧ peer_open (rp_peer r').
Proof.
  intros Hq Ho Hk Hne Hsk Hmk Hb Hsb Hno.
  destruct (send_keys_open limits maxFrameBytes (length keys) budget keys [] sk sb r w) as (v & r' & E & Ho'); [done|done|done|lia|done|].
  exists r'. rewrite E. apply send_keys_run in E as (_ & bs & fs & [[HF _ HB _] Hpre] & Hw & HC); [|lia|done].
  assert (bs = []) as ->.
  { destruct bs as [|b bs]; [done|exfalso]. inversion HF as [|b' f bs' fs' [He _ _ _] HF']; subst.
    destruct Hpre as [rest Epre]. cbn [concat] in Epre.
    assert (b = take (length b) keys) as Eb by (by rewrite Epre, <- app_assoc, take_app_length).
    rewrite Eb in He. apply Hno in He. destruct (HB Hb) as [HB'|[? _]]; [|lia]. cbn in HB'. fold (sum_len fs') in HB'.
    pose proof (sum_len_nonneg fs'). lia. }
  apply Forall2_nil_inv_l in HF as ->. destruct v as [[[c complete] sk'] sb']. destruct HC as (-> & -> & -> & HC).
  destruct complete; [by cbn in HC|]. cbn [concat last default from_option id]. change (len (@nil bytes)) with 0. change (sum_len []) with 0. rewrite !Z.add_0_r. done.
Qed.

(** One exchange sends the first page and returns no cursor. *)
Lemma exchange_stuck fuel page rest f r w :
  at_cursor (rp_store r) w [] (page ++ rest) → peer_open (rp_peer r) → Forall (sendable limits maxFrameBytes) rest → rest ≠ [] →
  len page = inventoryBatchSize limits → batch_frame limits maxFrameBytes page f → maxKeys budget <= 0 → len f <= maxBytes budget →
  (∀ m g, EncodeBlobHas (take m rest) limits = Ok g → maxBytes budget < len f + len g) → (2 <= fuel)%nat →
  ∃ r' w', sendInventoryExchange limits maxFrameBytes fuel (PagedLister bs_ListKeyPage) budget [] (r, w) = (Ok ([], false), (r', w')) ∧
    at_cursor (rp_store r') w' [] (page ++ rest) ∧ peer_open (rp_peer r') ∧ peer_sent (rp_peer r') = peer_sent (rp_peer r) ++ [f].
Proof.
  intros Hat Ho Hk Hne Hlen Hbf Hmk Hfits Hno Hf. pose proof (inventoryBatchSize_pos limits) as Hpos.
  assert (0 < len f) as Hf0.
  { destruct f as [|b f]; [|rewrite len_cons; pose proof (len_nonneg f); lia]. destruct Hbf as [He _ _ _].
    apply EncodeBlobHas_Ok in He as [He _]. apply (f_equal (take 1)) in He. cbn in He. discriminate He. }
  destruct fuel as [|[|fuel]]; [lia|lia|]. unfold sendInventoryExchange, sendPagedBlobHasBudget. cbn [send_pages app].
  assert (page_size limits budget = inventoryBatchSize limits) as Eps.
  { unfold page_size. cbv zeta. replace ((0 <? maxKeys budget) && (maxKeys budget <? inventoryBatchSize limits)) with false by lia.
    destruct (_ <=? 0) eqn:E; lia. }
  assert (∀ sk, (0 <? maxKeys budget) && (maxKeys budget <=? sk) = false) as Hm1 by (intros; lia).
  assert (∀ sk, (0 <? maxKeys budget) && (maxKeys budget - sk <? inventoryBatchSize limits) = false) as Hm2 by (intros; lia).
  pose proof Hat as (Hq & _ & _).
  erewrite bind_step_Ok by (apply io_eq; split; [reflexivity|by apply quiet_ctx]). rewrite Eps, !Hm1, !Hm2. cbv zeta.
  destruct (next_keys (rp_store r) w [] (page ++ rest) (inventoryBatchSize limits) Hat Hpos) as (s1 & w1 & HP & Hat1 & Hchk).
  rewrite take_app_le, take_ge in HP, Hchk by (unfold len in Hlen; lia). pose proof Hat1 as (Hq1 & Hwf1 & EL1).
  erewrite bind_step_Ok. 2:{ unfold on_blobs, zoom. cbn [fst snd]. change (@nil byte) with (default [] (last (@nil bytes))) at 1. rewrite HP. reflexivity. }
  cbn [fst snd]. set (r1 := mkReplicator (rp_peer r) s1 (rp_metrics r)).
  destruct (len page =? 0) eqn:E0; [lia|]. destruct (Hchk (bf_nonempty _ _ _ _ Hbf)) as [-> Hadv]. cbn [last default from_option id] in Hadv. rewrite Hadv.
  assert (over_bytes budget 0 f = false) as Hov by (apply not_true_iff_false; intros [? ?]%over_bytes_true; lia).
  destruct (send_keys_one page [] 0 0 f r1 w1 Hq1 Ho Hbf Hmk Hov) as (r2 & E2 & [Es2 Hs2] & Ho2).
  erewrite bind_step_Ok by exact E2. cbn [negb]. change (rp_store r1) with s1 in Es2. change (rp_peer r1) with (rp_peer r) in Hs2.
  erewrite bind_step_Ok by (apply io_eq; split; [reflexivity|by apply quiet_ctx]). rewrite Hm1, Hm2. cbv zeta.
  assert (at_cursor (rp_store r2) w1 page rest) as Hat2 by (split_and!; [done|by rewrite Es2|by rewrite Es2, EL1]).
  destruct (next_keys (rp_store r2) w1 page rest (inventoryBatchSize limits) Hat2 Hpos) as (s3 & w3 & HP3 & Hat3 & Hchk3).
  erewrite bind_step_Ok. 2:{ unfold on_blobs, zoom. cbn [fst snd]. rewrite HP3. reflexivity. }
  cbn [fst snd]. set (r3 := mkReplicator (rp_peer r2) s3 (rp_metrics r2)). set (keys := take _ rest) in *.
  assert (keys ≠ []) as Hkne by (apply take_nonempty; [lia|done]). destruct (Hchk3 Hkne) as [-> ->].
  destruct (len keys =? 0) eqn:E3; [bool_to_prop; by apply len_zero in E3|]. pose proof Hat3 as (Hq3 & Hwf3 & EL3).
  destruct (send_keys_none keys (0 + len page) (0 + len f) r3 w3) as (r4 & E4 & [Es4 Hs4] & Ho4);
    [done|done|by apply Forall_take|done|lia|lia|lia|lia| |].
  { intros m g Hg. unfold keys in Hg. rewrite take_take in Hg. apply Hno in Hg. lia. }
  unfold sendBlobHasKeysBudget. erewrite bind_step_Ok by exact E4. cbn [negb]. exists r4, w3. split; [reflexivity|].
  change (rp_store r3) with s3 in Es4. change (rp_peer r3) with (rp_peer r2) in Hs4.
  split; [split_and!; [done|by rewrite Es4|by rewrite Es4, EL3]|]. split; [done|]. by rewrite Hs4, Hs2, app_nil_r.
Qed.
End stuck.

(** A frame of a batch is received as that batch. *)
Lemma batch_frame_decodes limits maxFrameBytes b f :
  batch_frame limits maxFrameBytes b f →
  Decode f limits = Ok (message_of (OutHas b)) ∧ len f <= or_default maxFrameBytes DefaultMaxFrameBytes.
Proof.
  intros [(-> & Hl & Hk)%EncodeBlobHas_Ok _ _ Hs]. split; [|done]. apply Decode_marshal. right; right.
  split; [by left|]. split; [|done]. by rewrite <- inventoryBatchSize_normal.
Qed.

(** Without a budget the batches are those of [sendBlobHasKeys]. *)
Section unbudgeted.
Context {P S : Type} `{NodePeer P} `{RepairFramePeer P}.
Context (limits : ReplicationLimits) (maxFrameBytes : Z) (budget : inventoryExchangeBudget).
Hypothesis (Hb : maxBytes budget <= 0) (Hk : maxKeys budget <= 0).
Implicit Types s : replicator P S * world.

Definition forget {A B} (g : A → B) (p : result A * (replicator P S * world)) : result B * (replicator P S * world) :=
  (match p.1 with Ok a => Ok (g a) | Err e => Err e end, p.2).

Lemma send_all_batch_eq fuel keys n sk sb s :
  forget Some (send_all_batch limits maxFrameBytes fuel keys n s) =
  forget (option_map fst) (send_batch limits maxFrameBytes fuel budget keys n sk sb s).
Proof.
  revert n s. induction fuel as [|fuel IH]; intros n s; [done|]. cbn [send_all_batch send_batch].
  unfold bind at 1 4. destruct (io ctx_Err s) as [[[]|e] s1]; [|done].
  unfold bind at 1 3. destruct (lift _ s1) as [[payload|e] s2]; [|done].
  destruct (_ <? len payload); [destruct (n =? 1)%nat; [done|apply IH]|].
  assert (over_bytes budget sb payload = false) as -> by (unfold over_bytes; lia). cbn [andb].
  unfold bind. destruct (advertise maxFrameBytes payload n s2) as [[[]|e] s3]; done.
Qed.

Lemma send_all_keys_eq fuel keys cursor sk sb s :
  send_all_keys limits maxFrameBytes fuel keys s =
  forget (λ _, tt) (send_keys limits maxFrameBytes fuel budget keys cursor sk sb s).
Proof.
  revert keys cursor sk sb s. induction fuel as [|fuel IH]; intros keys cursor sk sb s; [by destruct keys|].
  destruct keys as [|k keys]; [done|]. cbn [send_all_keys send_keys].
  replace ((0 <? maxKeys budget) && (maxKeys budget <=? sk)) with false by lia. cbv zeta.
  assert (batch_len limits budget (k :: keys) sk = Z.min (inventoryBatchSize limits) (len (k :: keys))) as ->.
  { unfold batch_len. cbv zeta.
    by replace ((0 <? maxKeys budget) && (maxKeys budget - sk <? Z.min (inventoryBatchSize limits) (len (k :: keys)))) with false by lia. }
  set (n := Z.to_nat _). pose proof (send_all_batch_eq (Datatypes.S n) (k :: keys) n sk sb s) as E. unfold bind, forget in *.
  destruct (send_all_batch _ _ _ _ _ s) as [[m|e] s1]; destruct (send_batch _ _ _ _ _ _ _ _ s) as [[[[m' size]|]|e'] s2];
    cbn in E; try discriminate E; injection E as E1 E2; subst; [apply IH|done].
Qed.
End unbudgeted.

(** ** Claims *)

(** C30: an inventory exchange stays within its budget whatever the lister, the
    peer and the context do, also when it fails: every frame it writes is a
    well-formed message of at most the configured number of keys and of bytes;
    together they hold no more keys than the key budget, and no more bytes than
    the byte budget unless a single key alone exceeds it. *)
Theorem exchange_within_budget {P S : Type} `{NodePeer P} `{FramePeerSpec P} limits maxFrameBytes fuel (lister : Lister S)
    budget after (r : replicator P S) w res r' w'
    (Hrun : sendInventoryExchange limits maxFrameBytes fuel lister budget after (r, w) = (res, (r', w'))) :
  ∃ bs fs, peer_sent (rp_peer r') = peer_sent (rp_peer r) ++ fs ∧ Forall2 (batch_frame limits maxFrameBytes) bs fs ∧
    (0 < maxKeys budget → len (concat bs) <= maxKeys budget) ∧
    (0 < maxBytes budget → sum_len fs <= maxBytes budget ∨ ∃ k, bs = [[k]]).
Proof.
  assert (∃ bs fs, within limits maxFrameBytes budget 0 0 bs fs ∧ peer_sent (rp_peer r') = peer_sent (rp_peer r) ++ fs)
    as (bs & fs & [F K B _] & Hs).
  { assert (∀ r : replicator P S, ∃ bs fs, within limits maxFrameBytes budget 0 0 bs fs ∧ peer_sent (rp_peer r) = peer_sent (rp_peer r) ++ fs) as Hnone
      by (intros; exists [], []; split; [apply (sent_part_nil limits maxFrameBytes budget [])|by rewrite app_nil_r]).
    destruct lister as [|list_keys|page]; cbn [sendInventoryExchange] in Hrun; [stop Hrun; apply Hnone| |by eapply send_pages_within].
    step Hrun as keys [r1 w1] E1; apply on_blobs_run in E1 as [Ep _]; [|rewrite Ep; apply Hnone]. cbv zeta in Hrun.
    destruct (_ =? _)%nat; [stop Hrun; rewrite Ep; apply Hnone|]. unfold sendBlobHasKeysBudget in Hrun.
    step Hrun as [[[c complete] sk'] sb'] [r3 w3] E3;
      (apply send_keys_run in E3 as (_ & bs & fs & [Hw _] & [_ Hs] & _); [|done|done]); rewrite Ep in Hs; [stop Hrun|]; by exists bs, fs. }
  exists bs, fs. split_and!; [done|done|intros Hk; specialize (K Hk); lia|]. intros Hb. destruct (B Hb) as [?|[_ ?]]; [left; lia|by right].
Qed.

(** C29: the exchanges with a peer that stays connected advertise the whole
    inventory: without faults, when every key fits into a frame, no more
    exchanges than keys plus one are needed until one is complete, and the
    frames written on the way decode to messages whose keys, put together, are
    the keys of the store, each once and in order.  This holds for a store that
    pages, whatever the key budget, when there is no byte budget, and for one
    that only lists its keys under any budget. *)
Theorem inventory_advertised {P S : Type} `{OpenPeerSpec P} `{PagerSpec S} limits maxFrameBytes budget (lister : Lister S)
    (r : replicator P S) w rounds fuel :
  (lister = PagedLister bs_ListKeyPage ∧ maxBytes budget <= 0 ∨ ∃ list_keys, lister = PlainLister list_keys ∧ lists_keys list_keys) →
  quiet w → pg_wf (rp_store r) (w_fs w) → peer_open (rp_peer r) →
  let inventory := sorted_keys (pg_keys (rp_store r) (w_fs w)) in
  Forall (sendable limits maxFrameBytes) inventory → (length inventory < fuel)%nat → (length inventory < rounds)%nat →
  ∃ bs fs r' w',
    exchanges rounds limits maxFrameBytes fuel lister budget [] (r, w) = (Ok (default [] (last inventory), true), (r', w')) ∧
    peer_sent (rp_peer r') = peer_sent (rp_peer r) ++ fs ∧
    Forall2 (λ b f, Decode f limits = Ok (message_of (OutHas b)) ∧ len f <= or_default maxFrameBytes DefaultMaxFrameBytes) bs fs ∧
    concat bs = inventory.
Proof.
  intros Hlister Hq Hwf Ho inventory Hk Hf Hr.
  assert (advances (P := P) limits maxFrameBytes fuel lister budget) as Hadv.
  { destruct Hlister as [[-> Hb]|(list_keys & -> & Hlist)]; [by apply paged_advances|by apply plain_advances]. }
  destruct (exchanges_advertise limits maxFrameBytes fuel lister budget Hadv rounds [] inventory r w)
    as (bs & fs & r' & w' & HR & HF & Hs & Hc); [done|done|done|done|done|].
  exists bs, fs, r', w'. split_and!; [exact HR|done| |done]. eapply Forall2_impl; [exact HF|]. intros b f Hbf.
  by apply batch_frame_decodes.
Qed.

(** C39: a byte budget can end an exchange where it cannot be resumed.  When there
    is no budget of keys and the first page fills the byte budget so far that not even a part of the second
    page fits, the exchange returns the empty cursor: the next exchange starts
    from the beginning, sends the same page again and ends the same way.  No
    number of exchanges completes, and no key after the first page is ever
    advertised. *)
Theorem exchange_restarts {P S : Type} `{OpenPeerSpec P} `{PagerSpec S} limits maxFrameBytes budget page rest f
    (r : replicator P S) w fuel :
  quiet w → pg_wf (rp_store r) (w_fs w) → peer_open (rp_peer r) →
  sorted_keys (pg_keys (rp_store r) (w_fs w)) = page ++ rest → rest ≠ [] → Forall (sendable limits maxFrameBytes) rest →
  len page = inventoryBatchSize limits → batch_frame limits maxFrameBytes page f → maxKeys budget <= 0 →
  len f <= maxBytes budget → (∀ m g, EncodeBlobHas (take m rest) limits = Ok g → maxBytes budget < len f + len g) → (2 <= fuel)%nat →
  ∀ rounds, ∃ r' w',
    exchanges rounds limits maxFrameBytes fuel (PagedLister bs_ListKeyPage) budget [] (r, w) = (Ok ([], false), (r', w')) ∧
    peer_sent (rp_peer r') = peer_sent (rp_peer r) ++ replicate rounds f.
Proof.
  intros Hq Hwf Ho EL Hne Hk Hlen Hbf Hmk Hfits Hno Hf rounds.
  assert (at_cursor (rp_store r) w [] (page ++ rest)) as Hat by done. clear Hq Hwf EL. revert r w Ho Hat.
  induction rounds as [|rounds IH]; intros r w Ho Hat; cbn [exchanges].
  { exists r, w. split; [done|]. by rewrite app_nil_r. }
  destruct (exchange_stuck limits maxFrameBytes budget fuel page rest f r w) as (r1 & w1 & E1 & Hat1 & Ho1 & Hs1); [done..|].
  erewrite bind_step_Ok by exact E1. cbv beta iota. destruct (IH r1 w1 Ho1 Hat1) as (r2 & w2 & E2 & Hs2). exists r2, w2.
  split; [exact E2|]. by rewrite Hs2, Hs1, <- app_assoc.
Qed.

(** *** Concrete runs *)

#[export] Instance script_OpenPeerSpec : OpenPeerSpec script_peer.
Proof.
  refine {| peer_open _ := True |}; [done|]. intros payload max p w _ _ _. by exists (mkScriptPeer (sp_caps p) (sp_sent p ++ [payload])).
Defined.

Lemma memory_lists_keys {T} `{BTreeLaws T} : lists_keys (S := MemoryStore T) MemoryStore_ListKeys.
Proof.
  intros m w Hq Hm. unfold MemoryStore_ListKeys. destruct (ms_keys m) as [t|] eqn:Et.
  - exists (bt_Ascend t), m, w. split; [|split; [done|split; [done|split; [done|]]]].
    + erewrite bind_step_Ok by (apply io_eq; split; [reflexivity|by apply quiet_ctx]). erewrite bind_step_Ok by reflexivity.
      cbn [fst]. rewrite Et. apply io_eq. split; [done|]. by apply collect_keys_quiet.
    + cbn. rewrite (Ascend_sorted (ms_data m) t) by by apply (mw_index _ Hm). apply sorted_keys_perm.
  - exists (merge_sort bytes_le (map_keys (ms_data m))), m, w. split; [|split; [done|split; [done|split; [done|]]]].
    + erewrite bind_step_Ok by (apply io_eq; split; [reflexivity|by apply quiet_ctx]). erewrite bind_step_Ok by reflexivity.
      cbn [fst]. by rewrite Et.
    + apply sorted_keys_perm.
Qed.

(** Two blobs, one key per frame. *)
Definition ex_ab : MemoryStore (gset bytes) := mkMemoryStore {[lit "a" := lit "1"; lit "b" := lit "2"]} None.
Definition ex_one_key : ReplicationLimits := mkReplicationLimits 0 1 0 0.
Definition ex_replicator : replicator script_peer (MemoryStore (gset bytes)) := mkReplicator (mkScriptPeer [] []) ex_ab (λ _, 0).
Definition ex_has (k : bytes) : bytes := match EncodeBlobHas [k] ex_one_key with Ok f => f | Err _ => [] end.

Lemma ex_ab_wf : ms_wf ex_ab.
Proof. split; [done|]. vm_compute. reflexivity. Qed.
Lemma ex_ab_keys : sorted_keys (pg_keys (rp_store ex_replicator) (w_fs (ex_world []))) = [lit "a"; lit "b"].
Proof. vm_compute. reflexivity. Qed.
Lemma ex_ab_sendable : Forall (sendable ex_one_key 0) [lit "a"; lit "b"].
Proof.
  repeat constructor; [exists (ex_has (lit "a"))|exists (ex_has (lit "b"))]; (split; [vm_compute; reflexivity|]); vm_compute; discriminate.
Qed.

Lemma exchange_within_budget_witness :
  ∃ bs fs, peer_sent (rp_peer (sendInventoryExchange ex_one_key 0 3 (PagedLister MemoryStore_ListKeyPage) (mkBudget 0 1) []
      (ex_replicator, ex_world [])).2.1) = fs ∧ Forall2 (batch_frame ex_one_key 0) bs fs ∧ len (concat bs) <= 1.
Proof.
  destruct (exchange_within_budget ex_one_key 0 3 (PagedLister MemoryStore_ListKeyPage) (mkBudget 0 1) [] ex_replicator (ex_world [])
    _ _ _ (run_eq2 _ _ eq_refl)) as (bs & fs & Hs & HF & Hk & _).
  exists bs, fs. split; [exact Hs|]. split; [exact HF|]. apply Hk. reflexivity.
Defined.

(** With a budget of one key per exchange, three exchanges do. *)
Lemma inventory_advertised_witness :
  (∃ bs fs r' w', exchanges 3 ex_one_key 0 3 (PagedLister MemoryStore_ListKeyPage) (mkBudget 0 1) [] (ex_replicator, ex_world []) =
    (Ok (lit "b", true), (r', w')) ∧ sp_sent (rp_peer r') = fs ∧ concat bs = [lit "a"; lit "b"]) ∧
  ∃ bs fs r' w', exchanges 3 ex_one_key 0 3 (PlainLister MemoryStore_ListKeys) (mkBudget 40 1) [] (ex_replicator, ex_world []) =
    (Ok (lit "b", true), (r', w')) ∧ sp_sent (rp_peer r') = fs ∧ concat bs = [lit "a"; lit "b"].
Proof.
  assert (Forall (sendable ex_one_key 0) (sorted_keys (pg_keys (rp_store ex_replicator) (w_fs (ex_world []))))) as Hk
    by (rewrite ex_ab_keys; exact ex_ab_sendable).
  assert (length (sorted_keys (pg_keys (rp_store ex_replicator) (w_fs (ex_world [])))) < 3)%nat as Hl by (rewrite ex_ab_keys; cbn; lia).
  split.
  - destruct (inventory_advertised ex_one_key 0 (mkBudget 0 1) (PagedLister MemoryStore_ListKeyPage) ex_replicator (ex_world []) 3 3)
      as (bs & fs & r' & w' & HR & Hs & _ & Hc); [left; by split|done|exact ex_ab_wf|exact I|exact Hk|exact Hl|exact Hl|].
    exists bs, fs, r', w'. rewrite ex_ab_keys in HR, Hc. split; [exact HR|]. split; [exact Hs|exact Hc].
  - destruct (inventory_advertised ex_one_key 0 (mkBudget 40 1) (PlainLister MemoryStore_ListKeys) ex_replicator (ex_world []) 3 3)
      as (bs & fs & r' & w' & HR & Hs & _ & Hc);
      [right; exists MemoryStore_ListKeys; split; [done|exact memory_lists_keys]|done|exact ex_ab_wf|exact I|exact Hk|exact Hl|exact Hl|].
    exists bs, fs, r', w'. rewrite ex_ab_keys in HR, Hc. split; [exact HR|]. split; [exact Hs|exact Hc].
Defined.

(** The byte budget is the size of the first frame: after a thousand exchanges
    the peer has been sent the first key a thousand times. *)
Lemma exchange_restarts_witness :
  ∃ r' w', exchanges 1000 ex_one_key 0 2 (PagedLister MemoryStore_ListKeyPage) (mkBudget (len (ex_has (lit "a"))) 0) []
      (ex_replicator, ex_world []) = (Ok ([], false), (r', w')) ∧
    sp_sent (rp_peer r') = replicate 1000 (ex_has (lit "a")).
Proof.
  destruct (exchange_restarts ex_one_key 0 (mkBudget (len (ex_has (lit "a"))) 0) [lit "a"] [lit "b"] (ex_has (lit "a"))
    ex_replicator (ex_world []) 2) with (rounds := 1000%nat) as (r' & w' & HR & Hs).
  - done.
  - exact ex_ab_wf.
  - exact I.
  - exact ex_ab_keys.
  - done.
  - exact (proj2 (proj1 (Forall_cons _ _ _) ex_ab_sendable)).
  - vm_compute. reflexivity.
  - split; [vm_compute; reflexivity|done|vm_compute; discriminate|vm_compute; discriminate].
  - cbn. lia.
  - cbn. lia.
  - intros [|m] g Hg; [discriminate Hg|]. assert (take (S m) [lit "b"] = [lit "b"]) as E by (by destruct m). rewrite E in Hg.
    assert (EncodeBlobHas [lit "b"] ex_one_key = Ok (ex_has (lit "b"))) as Eb by (vm_compute; reflexivity).
    rewrite Eb in Hg. injection Hg as <-. vm_compute. reflexivity.
  - lia.
  - exists r', w'. split; [exact HR|exact Hs].
Defined.
