(* ===== verification/Replicate.v ===== *)
(** * Replication between two nodes

    The replication half of main.go: the frame handler, the answers to the five
    kinds of messages, the tracker of acknowledgements, the limit on repair
    reads, and the queue of blobs that a repair budget has deferred.

    A handler runs in the goroutine of its peer's connection.  Its [select] on a
    repair slot and on the context is modelled by a poll of the context: when
    both are ready, Go takes one of them at random, and taking the slot is the
    run in which the context is done one poll later. *)
From stdpp Require Import sorting.
From S2P Require Import Prelude Go Bits Text Json Os Model Codec Journal Transport Repair Blobs Inventory Applier Session Runtime Protocol Peers Wire Exchange.

(** ** Keys *)

(** Keys that are not digests are opaque and not checked. *)
Definition verifyContentKeyIfSHA256 (key data : bytes) : result unit :=
  match ValidateSHA256Key key with
  | Err _ => Ok tt
  | Ok _ => VerifySHA256Key key data
  end.

Definition cloneBlobKeys (keys : list bytes) : list bytes := (λ key, [] ++ key) <$> keys.

Definition missingKeys (remoteKeys localKeys : list bytes) : list bytes :=
  let local : gset bytes := list_to_set localKeys in
  cloneBlobKeys (filter (λ key, key ∉ local) remoteKeys).

Definition resolvePutKey (key data : bytes) (contentKey : bool) : bytes * bytes :=
  if contentKey then (SHA256Key data, SHA256KeyHex data) else (key, key).

Definition formatBlobKey (key : bytes) : bytes :=
  match ValidateSHA256Key key with
  | Ok _ => hex_EncodeToString key
  | Err _ => key
  end.

(** ** The tracker of acknowledgements *)

(** A channel is a number; [tr_closed] are the channels that were closed. *)
Record putAckTracker := mkTracker {
  tr_pending : gmap (bytes * bytes) nat;
  tr_closed : gset nat;
  tr_next : nat
}.
Definition newPutAckTracker : putAckTracker := mkTracker ∅ ∅ 0.

(** Each operation returns its change of the counters. *)
Definition tracker_register (remote key : bytes) (t : putAckTracker) : nat * putAckTracker * list (repl_metric * Z) :=
  (tr_next t, mkTracker (<[(remote, key) := tr_next t]> (tr_pending t)) (tr_closed t) (S (tr_next t)), [(BlobAcksPending, 1)]).
Definition tracker_ack (remote key : bytes) (t : putAckTracker) : bool * putAckTracker * list (repl_metric * Z) :=
  match tr_pending t !! (remote, key) with
  | None => (false, t, [])
  | Some c => (true, mkTracker (delete (remote, key) (tr_pending t)) ({[c]} ∪ tr_closed t) (tr_next t),
               [(BlobAcksPending, -1); (BlobAcksMatched, 1)])
  end.
Definition tracker_remove (remote key : bytes) (t : putAckTracker) : bool * putAckTracker * list (repl_metric * Z) :=
  match tr_pending t !! (remote, key) with
  | None => (false, t, [])
  | Some _ => (true, mkTracker (delete (remote, key) (tr_pending t)) (tr_closed t) (tr_next t), [(BlobAcksPending, -1)])
  end.
Definition apply_counts (cs : list (repl_metric * Z)) (ms : replicationMetrics) : replicationMetrics :=
  foldl (λ ms c, repl_add c.1 c.2 ms) ms cs.

(** ** The queue of deferred repairs *)

Definition maxRepairContinuationAttempts : Z := 1.

(** [rc_peer] is the peer object; [rc_pending] maps every key to itself. *)
Record repairContinuationEntry := mkContinuation {
  rc_peer : nat;
  rc_pending : gset bytes;
  rc_inFlight : Z;
  rc_attempt : Z;
  rc_running : bool;
  rc_scheduled : bool
}.
Definition continuations := gmap bytes repairContinuationEntry.

Fixpoint merge_keys (dst : gset bytes) (keys : list bytes) (maxKeys : Z) (dropped : bool) : gset bytes * bool :=
  match keys with
  | [] => (dst, dropped)
  | key :: keys' =>
      if bool_decide (key ∈ dst) then merge_keys dst keys' maxKeys dropped
      else if maxKeys <=? Z.of_nat (size dst) then merge_keys dst keys' maxKeys true
      else merge_keys ({[key]} ∪ dst) keys' maxKeys dropped
  end.
Definition mergeRepairContinuationKeys (dst : gset bytes) (keys : list bytes) (maxKeys : Z) : gset bytes * bool :=
  let maxKeys := if maxKeys <=? 0 then DefaultMaxKeys else maxKeys in
  merge_keys dst keys maxKeys false.

Definition repairContinuationKeys (pending : gset bytes) : list bytes := sorted_keys (base.elements pending).

(** The two gauges that [updateGaugesLocked] stores. *)
Definition continuations_active (es : continuations) : Z :=
  map_fold (λ _ e n, (if rc_scheduled e || rc_running e then 1 else 0) + n) 0 es.
Definition continuations_pending (es : continuations) : Z :=
  map_fold (λ _ e n, Z.of_nat (size (rc_pending e)) + rc_inFlight e + n) 0 es.
Definition updateGaugesLocked (es : continuations) (ms : replicationMetrics) : replicationMetrics :=
  repl_store RepairContinuationKeysPending (continuations_pending es)
    (repl_store RepairContinuationsActive (continuations_active es) ms).

(** The part of [Schedule] under the lock: the new table, whether keys were
    dropped and whether a goroutine is to be started. *)
Definition schedule_entry (peer : nat) (id : bytes) (keys : list bytes) (maxKeys : Z) (es : continuations)
    : continuations * bool * bool :=
  let entry := default (mkContinuation peer ∅ 0 0 false false) (es !! id) in
  let '(pending, dropped) := mergeRepairContinuationKeys (rc_pending entry) keys maxKeys in
  let launch := negb (rc_running entry) && negb (rc_scheduled entry) in
  let attempt := if rc_running entry || launch then 0 else rc_attempt entry in
  (<[id := mkContinuation peer pending (rc_inFlight entry) attempt (rc_running entry) (rc_scheduled entry || launch)]> es,
   dropped, launch).

(** ** The node as a handler sees it *)

(** The peer of the connection with its address in the node, the blobs and the
    counters; the tracker, the free repair slots and the deferred repairs are
    behind pointers that may be nil.  [rn_waits] are the goroutines started by
    [go s.wait(id)]. *)
Record rnode (P S : Type) := mkRnode {
  rn_rep : replicator P S;
  rn_addr : nat;
  rn_tracker : option putAckTracker;
  rn_slots : option Z;
  rn_repairs : option continuations;
  rn_waits : list bytes
}.
Arguments mkRnode {P S} _ _ _ _ _ _.
Arguments rn_rep {P S} _.
Arguments rn_addr {P S} _.
Arguments rn_tracker {P S} _.
Arguments rn_slots {P S} _.
Arguments rn_repairs {P S} _.
Arguments rn_waits {P S} _.

(** What the closure of [sendRequestedBlobsResult] decides about one key. *)
Inductive blob_step := SNext (repairBytes : Z) | SDefer.

Section handlers.
Context {P S : Type} `{NodePeer P} `{RepairFramePeer P} `{BlobStore S}.
Context (limits : ReplicationLimits) (maxFrameBytes : Z).
Implicit Types n : rnode P S.

Definition set_rep (x : replicator P S) n : rnode P S :=
  mkRnode x (rn_addr n) (rn_tracker n) (rn_slots n) (rn_repairs n) (rn_waits n).
Definition rep {A} (m : M (replicator P S * world) A) : M (rnode P S * world) A :=
  zoom (λ s, (rn_rep s.1, s.2)) (λ t s, (set_rep t.1 s.1, t.2)) m.
Definition counts (cs : list (repl_metric * Z)) : M (rnode P S * world) unit :=
  rep (update (λ r, mkReplicator (rp_peer r) (rp_store r) (apply_counts cs (rp_metrics r)))).
Definition set_slots (z : Z) n : rnode P S :=
  mkRnode (rn_rep n) (rn_addr n) (rn_tracker n) (Some z) (rn_repairs n) (rn_waits n).
Definition set_tracker (t : putAckTracker) n : rnode P S :=
  mkRnode (rn_rep n) (rn_addr n) (Some t) (rn_slots n) (rn_repairs n) (rn_waits n).
Definition set_repairs (es : continuations) (waits : list bytes) n : rnode P S :=
  mkRnode (rn_rep n) (rn_addr n) (rn_tracker n) (rn_slots n) (Some es) (rn_waits n ++ waits).

(** [repairIOLimiter.acquire]: true when there is a limiter.  Without a free
    slot the caller waits until another holder hands one over. *)
Definition acquire : M (rnode P S * world) bool :=
  n <- self ;
  match rn_slots n with
  | None => ret false
  | Some z =>
      attempt (io ctx_Err) (λ c,
      match c with
      | Err e => counts [(RepairIOOpsRejected, 1)] ;; throw e
      | Ok _ =>
          counts [(RepairIOOpsQueued, 1)] ;;
          (if 0 <? z then ret tt else counts [(RepairIOOpsWaited, 1)]) ;;
          attempt (io ctx_Err) (λ c,
          match c with
          | Err e => counts [(RepairIOOpsQueued, -1); (RepairIOOpsRejected, 1)] ;; throw e
          | Ok _ =>
              update (λ n, if 0 <? z then set_slots (z - 1) n else n) ;;
              counts [(RepairIOOpsQueued, -1); (RepairIOOpsStarted, 1); (RepairIOOpsInFlight, 1)] ;;
              ret true
          end)
      end)
  end.
Definition release : M (rnode P S * world) unit :=
  counts [(RepairIOOpsCompleted, 1); (RepairIOOpsInFlight, -1)] ;;
  update (λ n, match rn_slots n with Some z => set_slots (z + 1) n | None => n end).

Definition with_slot {A} (repair : bool) (body : M (rnode P S * world) A) : M (rnode P S * world) A :=
  if repair then
    held <- acquire ;
    attempt body (λ r, (if held : bool then release else ret tt) ;; lift r)
  else body.

(** ** Sending blobs that a peer asked for *)

Definition repair_budget : Z := if 0 <? MaxRepairBytes limits then MaxRepairBytes limits else DefaultMaxRepairBytes.

Definition skip (cs : list (repl_metric * Z)) (repairBytes : Z) : M (rnode P S * world) blob_step :=
  counts cs ;; ret (SNext repairBytes).

(** The closure for the key [key] with [rest] keys after it. *)
Definition send_one (key : bytes) (rest : list bytes) (repair : bool) (repairBytes : Z) : M (rnode P S * world) blob_step :=
  attempt (rep (on_blobs (bs_Get key))) (λ got,
  match got with
  | Err e =>
      if errors_Is e storage_ErrNotFound then ret (SNext repairBytes)
      else if errors_Is e storage_ErrSHA256Mismatch then skip [(CorruptBlobsDetected, 1); (BlobsSkipped, 1)] repairBytes
      else
        io ctx_Err ;;
        if errors_Is e ErrContext then throw e
        else skip [(SendErrors, 1); (BlobsSkipped, 1)] repairBytes
  | Ok data =>
      io ctx_Err ;;
      match verifyContentKeyIfSHA256 key data with
      | Err _ => skip [(CorruptBlobsDetected, 1); (BlobsSkipped, 1)] repairBytes
      | Ok _ =>
          if repair && (0 <? repairBytes) && (repair_budget <? repairBytes + len data) then
            counts [(RepairBlobsDeferred, len (key :: rest))] ;; ret SDefer
          else
            match EncodeBlobPut key data limits with
            | Err _ => skip [(SendErrors, 1); (BlobsSkipped, 1)] repairBytes
            | Ok payload =>
                io ctx_Err ;;
                attempt (rep (writePeerFrame payload maxFrameBytes)) (λ written,
                match written with
                | Err e => counts [(SendErrors, 1)] ;; throw e
                | Ok _ =>
                    counts [(BlobsSent, 1); (BytesSent, len data)] ;;
                    if repair then counts [(RepairBlobsSent, 1)] ;; ret (SNext (repairBytes + len data))
                    else ret (SNext repairBytes)
                end)
            end
      end
  end).

(** Returns the deferred keys. *)
Fixpoint send_requested (keys : list bytes) (repair : bool) (repairBytes : Z) : M (rnode P S * world) (list bytes) :=
  match keys with
  | [] => ret []
  | key :: rest =>
      io ctx_Err ;;
      next <- with_slot repair (send_one key rest repair repairBytes) ;
      match next with
      | SDefer => ret (cloneBlobKeys (key :: rest))
      | SNext repairBytes => send_requested rest repair repairBytes
      end
  end.
Definition sendRequestedBlobsResult (keys : list bytes) (repair : bool) : M (rnode P S * world) (list bytes) :=
  send_requested keys repair 0.
Definition sendRequestedBlobs (keys : list bytes) (repair : bool) : M (rnode P S * world) unit :=
  sendRequestedBlobsResult keys repair ;; ret tt.

(** ** Answers *)

Definition sendBlobAck (key : bytes) : M (rnode P S * world) unit :=
  match EncodeBlobAck key limits with
  | Err e => counts [(SendErrors, 1)] ;; throw e
  | Ok payload =>
      attempt (rep (writePeerFrame payload maxFrameBytes)) (λ written,
      match written with
      | Err e => counts [(SendErrors, 1)] ;; throw e
      | Ok _ => counts [(BlobAcksSent, 1)]
      end)
  end.

Fixpoint missing_loop (keys : list bytes) : M (S * world) (list bytes) :=
  match keys with
  | [] => ret []
  | key :: keys' =>
      has <- bs_Has key ;
      missing <- missing_loop keys' ;
      ret (if has : bool then missing else ([] ++ key) :: missing)
  end.
Definition missingKeysFromStore (remoteKeys : list bytes) : M (S * world) (list bytes) := missing_loop remoteKeys.

(** [Schedule] of the queue, when there is one. *)
Definition Schedule (keys : list bytes) : M (rnode P S * world) unit :=
  n <- self ;
  match rn_repairs n with
  | None => ret tt
  | Some es =>
      if len keys =? 0 then ret tt
      else
        attempt (io ctx_Err) (λ c,
        match c with
        | Err _ => ret tt
        | Ok _ =>
            let id := repairPeerKey (rp_peer (rn_rep n)) in
            let maxKeys := if MaxKeys limits <=? 0 then DefaultMaxKeys else MaxKeys limits in
            let '(es', dropped, launch) := schedule_entry (rn_addr n) id keys maxKeys es in
            update (set_repairs es' (if launch : bool then [id] else [])) ;;
            counts (if dropped : bool then [(RepairContinuationsDropped, 1)] else []) ;;
            rep (update (λ r, mkReplicator (rp_peer r) (rp_store r) (updateGaugesLocked es' (rp_metrics r)))) ;;
            counts (if launch : bool then [(RepairContinuationsScheduled, 1)] else [])
        end)
  end.

Definition handlePut (key data : bytes) : M (rnode P S * world) unit :=
  lift (verifyContentKeyIfSHA256 key data) ;;
  attempt (rep (on_blobs (bs_Get key))) (λ existing,
  (match existing with
   | Err e =>
       if errors_Is e storage_ErrSHA256Mismatch then counts [(CorruptBlobsDetected, 1)]
       else if errors_Is e storage_ErrNotFound then ret tt
       else throw e
   | Ok _ => ret tt
   end) ;;
  if bool_decide (existing = Ok data) then
    counts [(DuplicateBlobs, 1); (DuplicateBytes, len data)] ;; sendBlobAck key
  else
    rep (on_blobs (bs_Put key data)) ;;
    counts [(BlobsStored, 1); (BytesStored, len data)] ;; sendBlobAck key).

(** Without a store the missing keys are found by the lister, which may be nil. *)
Definition handleHas (nil_store : bool) (lister : option (M (S * world) (list bytes))) (keys : list bytes) : M (rnode P S * world) unit :=
  let answer (missing : list bytes) : M (rnode P S * world) unit :=
    if len missing =? 0 then ret tt
    else
      payload <- lift (EncodeBlobMissing missing limits) ;
      attempt (rep (writePeerFrame payload maxFrameBytes)) (λ written,
      match written with
      | Err e => counts [(SendErrors, 1)] ;; throw e
      | Ok _ => counts [(MissingKeysRequested, len missing)]
      end) in
  if negb nil_store then
    counts [(InventoryKeysProbed, len keys)] ;;
    missing <- rep (on_blobs (missingKeysFromStore keys)) ; answer missing
  else match lister with
  | Some list_keys => localKeys <- rep (on_blobs list_keys) ; answer (missingKeys keys localKeys)
  | None => ret tt
  end.

Definition handleMissing (keys : list bytes) : M (rnode P S * world) unit :=
  deferred <- sendRequestedBlobsResult keys true ;
  if 0 <? len deferred then Schedule deferred else ret tt.

Definition handleAck (key : bytes) : M (rnode P S * world) unit :=
  counts [(BlobAcksReceived, 1)] ;;
  n <- self ;
  match rn_tracker n with
  | None => ret tt
  | Some t =>
      let '(_, t', cs) := tracker_ack (RemoteAddr (rp_peer (rn_rep n))) key t in
      update (set_tracker t') ;; counts cs
  end.

Definition handleReplicationMessage (nil_store : bool) (lister : option (M (S * world) (list bytes))) (msg : Message) : M (rnode P S * world) unit :=
  if bool_decide (MType msg = MessageTypeBlobPut) then handlePut (MKey msg) (MData msg)
  else if bool_decide (MType msg = MessageTypeBlobHas) then handleHas nil_store lister (MKeys msg)
  else if bool_decide (MType msg = MessageTypeBlobMissing) then handleMissing (MKeys msg)
  else if bool_decide (MType msg = MessageTypeBlobGet) then sendRequestedBlobs [MKey msg] false
  else if bool_decide (MType msg = MessageTypeBlobAck) then handleAck (MKey msg)
  else throw replication_ErrUnknownMessageType.

(** The frame handler of the node.  [repair] is the lifecycle runtime's. *)
Definition FrameHandler (repair : option (bytes → M (rnode P S * world) unit)) (nil_store : bool)
    (lister : option (M (S * world) (list bytes))) (payload : bytes) : M (rnode P S * world) unit :=
  match (if isLifecycleRepairPayload payload then repair else None) with
  | Some handle => handle payload
  | None =>
      match Decode payload limits with
      | Err e => counts [(ApplyErrors, 1)] ;; throw e
      | Ok msg =>
          if nil_store && negb (bool_decide (MType msg = MessageTypeBlobAck)) then ret tt
          else
            io ctx_Err ;;
            attempt (handleReplicationMessage nil_store lister msg) (λ r,
            match r with
            | Err e => counts [(ApplyErrors, 1)] ;; throw e
            | Ok _ => ret tt
            end)
      end
  end.
End handlers.

(** ** Facts *)

(** Everything but the counters, the slots and the queues is the same. *)
Definition same_io {P S} (n n' : rnode P S) : Prop :=
  rp_peer (rn_rep n') = rp_peer (rn_rep n) ∧ rp_store (rn_rep n') = rp_store (rn_rep n).

Section facts.
Context {P S : Type} `{NodePeer P} `{FramePeerSpec P} `{BlobStoreSpec S}.
Context (limits : ReplicationLimits) (maxFrameBytes : Z).
Implicit Types n : rnode P S.

#[local] Instance same_io_refl : Reflexive (@same_io P S).
Proof. by intros n. Qed.
#[local] Instance same_io_trans : Transitive (@same_io P S).
Proof. intros x y z [? ?] [? ?]. split; congruence. Qed.

Lemma counts_run cs n w : ∃ n', counts cs (n, w) = (Ok tt, (n', w)) ∧ same_io n n'.
Proof. eexists. split; [reflexivity|done]. Qed.

Lemma counts_inv cs n w res n' w' : counts cs (n, w) = (res, (n', w')) → res = Ok tt ∧ w' = w ∧ same_io n n'.
Proof. by intros [= <- <- <-]. Qed.

Lemma acquire_run n w res n' w' : acquire (n, w) = (res, (n', w')) → w_fs w' = w_fs w ∧ same_io n n'.
Proof.
  unfold acquire. intros HA. step_Ok HA. cbn [fst] in HA. destruct (rn_slots n) as [z|]; [|stop HA; done].
  unfold attempt in HA. rewrite io_run in HA. destruct (ctx_Err w) as [[[]|e] w1] eqn:E1; apply ctx_Err_fs in E1 as [E1 _]; cbn [fst snd] in HA;
    [|step_Ok HA; stop HA; done].
  step_Ok HA. destruct (0 <? z); step_Ok HA.
  all: rewrite io_run in HA; cbn [fst snd] in HA; destruct (ctx_Err w1) as [[[]|e] w2] eqn:E2; apply ctx_Err_fs in E2 as [E2 _]; cbn [fst snd] in HA;
    rewrite <- E1, <- E2; [step_Ok HA; step_Ok HA; by stop HA|step_Ok HA; by stop HA].
Qed.

Lemma release_run n w : ∃ n', release (n, w) = (Ok tt, (n', w)) ∧ same_io n n'.
Proof.
  unfold release. eexists. split; [erewrite bind_step_Ok by reflexivity; reflexivity|]. cbn [fst].
  by destruct (rn_slots _).
Qed.

(** The limiter changes neither what the body does nor what it returns. *)
Lemma with_slot_run {A} repair (body : M (rnode P S * world) A) n w res n' w' :
  with_slot repair body (n, w) = (res, (n', w')) →
  (w_fs w' = w_fs w ∧ same_io n n' ∧ is_Ok res = false) ∨
  ∃ n1 w1 n2, w_fs w1 = w_fs w ∧ same_io n n1 ∧ body (n1, w1) = (res, (n2, w')) ∧ same_io n2 n'.
Proof.
  unfold with_slot. destruct repair; [|intros HB; right; by exists n, w, n']. intros HB.
  step HB as held [n1 w1] E1; apply acquire_run in E1 as [Ew E1]; [|left; done].
  unfold attempt in HB. destruct (body (n1, w1)) as [r [n2 w2]] eqn:Eb. right. exists n1, w1, n2.
  destruct held.
  - destruct (release_run n2 w2) as (n3 & ER & E3). rewrite (bind_step_Ok _ _ _ _ _ ER) in HB. injection HB as <- <- <-. done.
  - step_Ok HB. injection HB as <- <- <-. done.
Qed.

(** The blobs are what they were, and [fs] was written to the peer. *)
Record served n w n' w' (fs : list bytes) : Prop := {
  sv_fs : fs_wf (w_fs w');
  sv_wf : bs_wf (rp_store (rn_rep n')) (w_fs w');
  sv_blobs : bs_contents (rp_store (rn_rep n')) (w_fs w') = bs_contents (rp_store (rn_rep n)) (w_fs w);
  sv_sent : peer_sent (rp_peer (rn_rep n')) = peer_sent (rp_peer (rn_rep n)) ++ fs
}.

Lemma served_same n w n' w' :
  fs_wf (w_fs w) → bs_wf (rp_store (rn_rep n)) (w_fs w) → w_fs w' = w_fs w → same_io n n' → served n w n' w' [].
Proof. intros Hf Hb Ew [Ep Es]. split; rewrite ?Ew, ?Es, ?Ep, ?app_nil_r; done. Qed.
Lemma served_trans n1 w1 n2 w2 n3 w3 fs gs : served n1 w1 n2 w2 fs → served n2 w2 n3 w3 gs → served n1 w1 n3 w3 (fs ++ gs).
Proof. intros [] []. split; [done|done|congruence|]. by rewrite sv_sent1, sv_sent0, app_assoc. Qed.
Lemma served_then n1 w1 n2 w2 n3 w3 fs : served n1 w1 n2 w2 fs → w_fs w3 = w_fs w2 → same_io n2 n3 → served n1 w1 n3 w3 fs.
Proof. intros Hs Ew Hn. rewrite <- (app_nil_r fs). eapply served_trans; [exact Hs|]. destruct Hs. by apply served_same. Qed.

Lemma rep_Get_run key n w res n' w' :
  fs_wf (w_fs w) → bs_wf (rp_store (rn_rep n)) (w_fs w) → rep (on_blobs (bs_Get key)) (n, w) = (res, (n', w')) →
  served n w n' w' [] ∧ match res with Ok d => bs_contents (rp_store (rn_rep n)) (w_fs w) !! key = Some d | Err _ => True end.
Proof.
  intros Hf Hb. unfold rep, on_blobs, zoom. cbn [fst snd].
  destruct (bs_Get key (rp_store (rn_rep n), w)) as [r [s1 w1]] eqn:EG. intros [= <- <- <-]. cbn [fst snd].
  apply bs_Get_run in EG as (Hb' & _ & Hfr & Ec & Hr); [|done|done]. destruct Hfr as [Hf' _ _ _ _ _].
  split; [|done]. split; cbn; [done|done|done|by rewrite app_nil_r].
Qed.

Lemma rep_write_run payload n w res n' w' :
  fs_wf (w_fs w) → bs_wf (rp_store (rn_rep n)) (w_fs w) → rep (writePeerFrame payload maxFrameBytes) (n, w) = (res, (n', w')) →
  served n w n' w' [payload] ∨ is_Ok res = false ∧ served n w n' w' [].
Proof.
  intros Hf Hb. unfold rep, zoom. cbn [fst snd].
  destruct (writePeerFrame payload maxFrameBytes (rn_rep n, w)) as [r [r1 w1]] eqn:EW. intros [= <- <- <-]. cbn [fst snd].
  unfold writePeerFrame in EW. step_Ok EW. cbn [fst] in EW. destruct (WritesFrames _);
    [|stop EW; right; split; [done|]; apply served_same; done].
  unfold on_peer, zoom in EW. cbn [fst snd] in EW.
  destruct (WriteFrame payload maxFrameBytes (rp_peer (rn_rep n), w)) as [x [p2 w2]] eqn:EF. injection EW as <- <- <-.
  apply WriteFrame_run in EF as (Ew & _ & Hs). cbn [fst snd].
  destruct Hs as [Hs|[? Hs]]; [left|right; split; [done|]]; split; cbn; rewrite ?Ew, ?app_nil_r; done.
Qed.

(** A blob that may be sent: stored under its key, with the key it should have. *)
Record sendable_blob (c : gmap bytes bytes) (kd : bytes * bytes) (f : bytes) : Prop := {
  sb_stored : c !! kd.1 = Some kd.2;
  sb_verified : len kd.1 = SHA256KeyBytes → kd.1 = SHA256Key kd.2;
  sb_frame : EncodeBlobPut kd.1 kd.2 limits = Ok f
}.

Lemma verifyContentKeyIfSHA256_Ok key data :
  verifyContentKeyIfSHA256 key data = Ok tt ↔ (len key = SHA256KeyBytes → key = SHA256Key data).
Proof. apply verifyContentKey_Ok. Qed.

(** Within the repair budget, or the first blob. *)
Definition repair_ok (repair : bool) (rb : Z) (d : bytes) : Prop := repair = true → rb <= 0 ∨ rb + len d <= repair_budget limits.

Lemma send_one_run key rest repair rb n w res n' w' :
  fs_wf (w_fs w) → bs_wf (rp_store (rn_rep n)) (w_fs w) →
  send_one limits maxFrameBytes key rest repair rb (n, w) = (res, (n', w')) →
  let c := bs_contents (rp_store (rn_rep n)) (w_fs w) in
  (∃ d f, served n w n' w' [f] ∧ sendable_blob c (key, d) f ∧ repair_ok repair rb d ∧
     match res with Ok st => st = SNext (if repair then rb + len d else rb) | Err _ => True end) ∨
  (served n w n' w' [] ∧
   match res with
   | Ok (SNext rb') => rb' = rb
   | Ok SDefer => repair = true ∧ 0 < rb ∧ ∃ d, c !! key = Some d ∧ repair_budget limits < rb + len d
   | Err _ => True
   end).
Proof.
  intros Hf Hb HR c. unfold send_one, attempt in HR. destruct (rep (on_blobs (bs_Get key)) (n, w)) as [got [n1 w1]] eqn:EG.
  apply rep_Get_run in EG as [Hs1 Hgot]; [|done|done]. pose proof (sv_fs _ _ _ _ _ Hs1) as Hf1. pose proof (sv_wf _ _ _ _ _ Hs1) as Hb1.
  assert (∀ cs res, skip cs rb (n1, w1) = (res, (n', w')) → served n w n' w' [] ∧ res = Ok (SNext rb)) as Hskip.
  { intros cs r HS. unfold skip in HS. step_Ok HS. stop HS. split; [|done]. eapply served_then; [exact Hs1|done|done]. }
  destruct got as [data|e].
  - step HR as [] [n2 w2] E2; apply io_eq in E2 as [-> E2]; apply ctx_Err_fs in E2 as [Ew2 _];
      [|right; split; [by eapply served_then|done]].
    destruct (verifyContentKeyIfSHA256 key data) as [[]|e] eqn:Ev.
    2:{ right. unfold skip in HR. step_Ok HR. stop HR. split; [by eapply served_then|done]. }
    destruct (repair && (0 <? rb) && (repair_budget limits <? rb + len data)) eqn:Ed.
    { right. step_Ok HR. stop HR. split; [by eapply served_then|]. rewrite !andb_true_iff in Ed. destruct Ed as [[-> ?] ?].
      split; [done|]. split; [lia|]. exists data. split; [done|lia]. }
    destruct (EncodeBlobPut key data limits) as [payload|e] eqn:Ep.
    2:{ right. unfold skip in HR. step_Ok HR. stop HR. split; [by eapply served_then|done]. }
    assert (sendable_blob c (key, data) payload ∧ repair_ok repair rb data) as [Hsb Hok].
    { split; [split; [done|by apply verifyContentKeyIfSHA256_Ok|done]|]. intros ->. cbn [andb] in Ed. lia. }
    step HR as [] [n3 w3] E3; apply io_eq in E3 as [-> E3]; apply ctx_Err_fs in E3 as [Ew3 _]; rewrite Ew2 in Ew3;
      [|right; split; [by eapply served_then|done]].
    assert (served n w n1 w3 []) as Hs3 by by eapply served_then.
    unfold attempt in HR. destruct (rep (writePeerFrame payload maxFrameBytes) (n1, w3)) as [written [n4 w4]] eqn:EW.
    apply rep_write_run in EW; [|by rewrite Ew3|by rewrite Ew3].
    destruct written as [[]|e].
    + destruct EW as [EW|[? _]]; [|done]. left. exists data, payload. step_Ok HR.
      pose proof (served_trans _ _ _ _ _ _ _ _ Hs3 EW) as Hs4.
      destruct repair; [step_Ok HR|]; stop HR; (split; [by eapply served_then|done]).
    + step_Ok HR. stop HR. destruct EW as [EW|[_ EW]]; pose proof (served_trans _ _ _ _ _ _ _ _ Hs3 EW) as Hs4.
      * left. exists data, payload. split; [by eapply served_then|done].
      * right. split; [by eapply served_then|done].
  - destruct (errors_Is e storage_ErrNotFound); [stop HR; right; split; [done|done]|].
    destruct (errors_Is e storage_ErrSHA256Mismatch).
    { right. apply Hskip in HR as [? ->]. done. }
    step HR as [] [n2 w2] E2; apply io_eq in E2 as [-> E2]; apply ctx_Err_fs in E2 as [Ew2 _];
      [|right; split; [by eapply served_then|done]].
    destruct (errors_Is e ErrContext); [stop HR; right; split; [by eapply served_then|done]|].
    right. unfold skip in HR. step_Ok HR. stop HR. split; [by eapply served_then|done].
Qed.

Lemma cloneBlobKeys_id keys : cloneBlobKeys keys = keys.
Proof. unfold cloneBlobKeys. rewrite <- (list_fmap_id keys) at 2. by apply list_fmap_ext. Qed.

(** The bytes of a repair are within the budget, or those of a single blob. *)
Definition within_repair (repair : bool) (rb : Z) (ds : list bytes) : Prop :=
  repair = true → rb + sum_len ds <= Z.max rb (repair_budget limits) ∨ rb = 0 ∧ ∃ d, d ∈ ds ∧ sum_len ds = len d.

Lemma within_repair_cons repair rb d ds :
  0 <= rb → repair_ok repair rb d → within_repair repair (if repair then rb + len d else rb) ds → within_repair repair rb (d :: ds).
Proof.
  intros Hrb Hok Hw ->. specialize (Hok eq_refl). specialize (Hw eq_refl). cbn [sum_len foldr]. fold (sum_len ds).
  pose proof (len_nonneg d). pose proof (sum_len_nonneg ds).
  destruct Hw as [Hw|[E (d2 & Hin & E2)]].
  - destruct (decide (rb + len d + sum_len ds <= repair_budget limits)); [left; lia|]. destruct Hok as [Hok|Hok]; [|left; lia].
    right. split; [lia|]. exists d. split; [by left|lia].
  - right. split; [lia|]. exists d2. split; [by right|lia].
Qed.

(** What is deferred: nothing, or from the key on whose blob is stored and
    would have taken the repair beyond its budget. *)
Definition deferral (repair : bool) (c : gmap bytes bytes) (sent : Z) (deferred : list bytes) : Prop :=
  deferred = [] ∨
  repair = true ∧ 0 < sent ∧ ∃ k rest d, deferred = k :: rest ∧ c !! k = Some d ∧ repair_budget limits < sent + len d.

Lemma send_requested_run keys repair rb n w res n' w' :
  0 <= rb → fs_wf (w_fs w) → bs_wf (rp_store (rn_rep n)) (w_fs w) →
  send_requested limits maxFrameBytes keys repair rb (n, w) = (res, (n', w')) →
  ∃ kds fs, served n w n' w' fs ∧ Forall2 (sendable_blob (bs_contents (rp_store (rn_rep n)) (w_fs w))) kds fs ∧
    within_repair repair rb kds.*2 ∧
    match res with
    | Ok deferred => ∃ tried, keys = tried ++ deferred ∧ kds.*1 `sublist_of` tried ∧
        deferral repair (bs_contents (rp_store (rn_rep n)) (w_fs w)) (if repair then rb + sum_len kds.*2 else rb) deferred
    | Err _ => kds.*1 `sublist_of` keys
    end.
Proof.
  revert rb n w. induction keys as [|key keys IH]; intros rb n w Hrb Hf Hb HR; cbn [send_requested] in HR.
  all: assert (∀ rb, 0 <= rb → within_repair repair rb []) as Hw0 by (intros rb' ? _; left; cbn; lia).
  { stop HR. exists [], []. split; [by apply served_same|]. split; [constructor|]. split; [by apply Hw0|]. exists []. split; [done|]. split; [done|by left]. }
  assert (∀ n' w' e, w_fs w' = w_fs w → same_io n n' → ∃ kds fs, served n w n' w' fs ∧
    Forall2 (sendable_blob (bs_contents (rp_store (rn_rep n)) (w_fs w))) kds fs ∧ within_repair repair rb kds.*2 ∧
    match Err e : result (list bytes) with Ok _ => False | Err _ => kds.*1 `sublist_of` key :: keys end) as Hfail.
  { intros n2 w2 e Ew En. exists [], []. split; [by apply served_same|]. split; [constructor|]. split; [by apply Hw0|apply sublist_nil_l]. }
  step HR as [] [n1 w1] E1; apply io_eq in E1 as [-> E1]; apply ctx_Err_fs in E1 as [Ew1 _];
    [|exact (Hfail n w1 ErrContext Ew1 (reflexivity _))].
  step HR as st [n2 w2] EW; apply with_slot_run in EW as [(Ew2 & En2 & Herr)|(n3 & w3 & n4 & Ew3 & En3 & EO & En4)].
  - done.
  - rewrite Ew1 in Ew3. assert (served n w n3 w3 []) as Hs3 by by apply served_same.
    apply send_one_run in EO; [|by rewrite Ew3|destruct Hs3; done]. cbv zeta in EO. rewrite (sv_blobs _ _ _ _ _ Hs3) in EO.
    destruct EO as [(d & f & Hs & Hsb & Hok & ->)|[Hs EO]].
    + pose proof (served_trans _ _ _ _ _ _ _ _ Hs3 Hs) as Hs4. apply (served_then _ _ _ _ n2 w2) in Hs4; [|done|done].
      pose proof (len_nonneg d). destruct Hs4 as [Hf4 Hb4 Hc4 Hp4] eqn:E4. clear E4.
      apply IH in HR as (kds & fs & Hs5 & HF & Hw & HR); [|destruct repair; lia|done|done]. rewrite Hc4 in HF.
      exists ((key, d) :: kds), (f :: fs). split; [by apply (served_trans _ _ _ _ _ _ [f] fs Hs4)|].
      split; [by constructor|]. split; [by apply within_repair_cons|]. destruct res as [deferred|e].
      * destruct HR as (tried & -> & Hsub & Hd). exists (key :: tried). split; [done|]. split; [by apply sublist_skip|].
        rewrite Hc4 in Hd. cbn [fmap list_fmap snd sum_len foldr]. fold (sum_len kds.*2). by destruct repair; rewrite ?Z.add_assoc.
      * by apply sublist_skip.
    + pose proof (served_trans _ _ _ _ _ _ _ _ Hs3 Hs) as Hs4. apply (served_then _ _ _ _ n2 w2) in Hs4; [|done|done].
      destruct st as [rb'|].
      * subst rb'. apply IH in HR as (kds & fs & Hs5 & HF & Hw & HR); [|done|by destruct Hs4|by destruct Hs4]. rewrite (sv_blobs _ _ _ _ _ Hs4) in HF.
        exists kds, fs. split; [by apply (served_trans _ _ _ _ _ _ [] fs Hs4)|]. split; [done|]. split; [done|]. destruct res as [deferred|e].
        -- destruct HR as (tried & -> & Hsub & Hd). exists (key :: tried). split; [done|]. split; [by apply sublist_cons|].
           by rewrite (sv_blobs _ _ _ _ _ Hs4) in Hd.
        -- by apply sublist_cons.
      * stop HR. exists [], []. split; [done|]. split; [constructor|]. split; [by apply Hw0|]. exists [].
        rewrite cloneBlobKeys_id. destruct EO as (-> & Hrb' & d & Hd & Hbud). split; [done|]. split; [done|right].
        cbn. rewrite Z.add_0_r. split_and!; [done|done|]. by exists key, keys, d.
  - apply (Hfail n2 w2 ErrContext); [by rewrite Ew2|done].
  - rewrite Ew1 in Ew3. assert (served n w n3 w3 []) as Hs3 by by apply served_same.
    apply send_one_run in EO; [|by rewrite Ew3|destruct Hs3; done]. cbv zeta in EO. rewrite (sv_blobs _ _ _ _ _ Hs3) in EO.
    destruct EO as [(d & f & Hs & Hsb & Hok & _)|[Hs _]];
      pose proof (served_trans _ _ _ _ _ _ _ _ Hs3 Hs) as Hs4; apply (served_then _ _ _ _ n2 w2) in Hs4; try done.
    + exists [(key, d)], [f]. split; [done|]. split; [by constructor|]. split; [|apply sublist_skip, sublist_nil_l].
      apply (within_repair_cons _ _ d []); [done|done|]. apply Hw0. pose proof (len_nonneg d). destruct repair; lia.
    + exists [], []. split; [done|]. split; [constructor|]. split; [by apply Hw0|apply sublist_nil_l].
Qed.

Lemma sendBlobAck_run key n w res n' w' :
  fs_wf (w_fs w) → bs_wf (rp_store (rn_rep n)) (w_fs w) → sendBlobAck limits maxFrameBytes key (n, w) = (res, (n', w')) →
  (∃ ack, EncodeBlobAck key limits = Ok ack ∧ served n w n' w' [ack]) ∨ is_Ok res = false ∧ served n w n' w' [].
Proof.
  intros Hf Hb HA. unfold sendBlobAck in HA. destruct (EncodeBlobAck key limits) as [ack|e] eqn:Ea.
  2:{ step_Ok HA. stop HA. right. split; [done|]. by apply served_same. }
  unfold attempt in HA. destruct (rep (writePeerFrame ack maxFrameBytes) (n, w)) as [x [n1 w1]] eqn:EW.
  apply rep_write_run in EW; [|done|done]. destruct x as [[]|e].
  - destruct EW as [EW|[? _]]; [|done]. apply counts_inv in HA as (-> & -> & HA). left. exists ack. split; [done|by eapply served_then].
  - step_Ok HA. stop HA. destruct EW as [EW|[_ EW]]; [left; exists ack; split; [done|]|right; split; [done|]]; by eapply served_then.
Qed.

(** What a put may do to the blobs [c]. *)
Definition put_effect (c c' : gmap bytes bytes) (key data : bytes) : Prop :=
  c' = c ∨ c' = <[key := data]> c ∧ (len key = SHA256KeyBytes → key = SHA256Key data).

Lemma handlePut_run key data n w res n' w' :
  fs_wf (w_fs w) → bs_wf (rp_store (rn_rep n)) (w_fs w) → handlePut limits maxFrameBytes key data (n, w) = (res, (n', w')) →
  let c := bs_contents (rp_store (rn_rep n)) (w_fs w) in
  let c' := bs_contents (rp_store (rn_rep n')) (w_fs w') in
  fs_wf (w_fs w') ∧ bs_wf (rp_store (rn_rep n')) (w_fs w') ∧ put_effect c c' key data ∧
  ((∃ ack, EncodeBlobAck key limits = Ok ack ∧ c' = <[key := data]> c ∧
      peer_sent (rp_peer (rn_rep n')) = peer_sent (rp_peer (rn_rep n)) ++ [ack]) ∨
   is_Ok res = false ∧ peer_sent (rp_peer (rn_rep n')) = peer_sent (rp_peer (rn_rep n))).
Proof.
  intros Hf Hb HR c. cbv zeta. unfold handlePut in HR.
  assert (∀ n1 w1, served n w n1 w1 [] → is_Ok res = false → (n1, w1) = (n', w') →
    fs_wf (w_fs w') ∧ bs_wf (rp_store (rn_rep n')) (w_fs w') ∧ put_effect c (bs_contents (rp_store (rn_rep n')) (w_fs w')) key data ∧
    ((∃ ack, EncodeBlobAck key limits = Ok ack ∧ bs_contents (rp_store (rn_rep n')) (w_fs w') = <[key := data]> c ∧
      peer_sent (rp_peer (rn_rep n')) = peer_sent (rp_peer (rn_rep n)) ++ [ack]) ∨
     is_Ok res = false ∧ peer_sent (rp_peer (rn_rep n')) = peer_sent (rp_peer (rn_rep n)))) as Hfail.
  { intros n1 w1 [S1 S2 S3 S4] He [= -> ->]. rewrite app_nil_r in S4. split_and!; [done|done|by left|by right]. }
  step HR as [] [n0 w0] E0; injection E0 as Ev <- <-; [|eapply Hfail; [by apply served_same|done|done]].
  pose proof (proj1 (verifyContentKeyIfSHA256_Ok _ _) Ev) as Hv. unfold attempt in HR.
  destruct (rep (on_blobs (bs_Get key)) (n, w)) as [existing [n1 w1]] eqn:EG. apply rep_Get_run in EG as [Hs1 Hgot]; [|done|done].
  destruct (match existing with Ok _ => ret tt | Err e => if errors_Is e storage_ErrSHA256Mismatch then counts [(CorruptBlobsDetected, 1)]
     else if errors_Is e storage_ErrNotFound then ret tt else throw e end (n1, w1)) as [[[]|e] [n2 w2]] eqn:E2.
  2:{ erewrite bind_step_Err in HR by exact E2. injection HR as <- <- <-. eapply Hfail; [|done|reflexivity].
      destruct existing; [stop E2|]. destruct (errors_Is _ _); [by apply counts_inv in E2 as (? & _)|]. destruct (errors_Is _ _); stop E2. done. }
  erewrite bind_step_Ok in HR by exact E2.
  assert (served n w n2 w2 []) as Hs2.
  { destruct existing; [stop E2; done|]. destruct (errors_Is _ _); [apply counts_inv in E2 as (_ & -> & ?); by eapply served_then|].
    destruct (errors_Is _ _); stop E2. done. }
  clear E2. destruct Hs2 as [Hf2 Hb2 Hc2 Hp2] eqn:Es2. clear Es2. rewrite app_nil_r in Hp2.
  case_bool_decide as Edup.
  - subst existing. step_Ok HR. apply sendBlobAck_run in HR; [|done|done]. cbn [rn_rep set_rep rp_store rp_peer] in HR.
    assert (<[key := data]> c = c) as Eid by by apply insert_id. destruct HR as [(ack & Ea & [T1 T2 T3 T4])|[He [T1 T2 T3 T4]]];
      cbn in T3, T4; fold c in Hc2; rewrite T3, T4, Hc2, Hp2, ?app_nil_r, ?Eid.
    + split_and!; [done|done|by left|left; by exists ack].
    + split_and!; [done|done|by left|by right].
  - step HR as [] [n3 w3] E3.
    + unfold rep, on_blobs, zoom in E3. cbn [fst snd] in E3. destruct (bs_Put key data (rp_store (rn_rep n2), w2)) as [x [s3 w3']] eqn:EP.
      injection E3 as -> <- <-. apply bs_Put_run in EP as (Hb3 & _ & [Hf3 _ _ _ _ _] & Hc3); [|done|done]. cbn [fst snd] in *.
      step_Ok HR. apply sendBlobAck_run in HR; [|done|done]. fold c in Hc2. rewrite Hc2 in Hc3.
      destruct HR as [(ack & Ea & [T1 T2 T3 T4])|[He [T1 T2 T3 T4]]]; cbn in T3, T4; rewrite T3, T4, Hc3, Hp2, ?app_nil_r.
      * split_and!; [done|done|by right|left; by exists ack].
      * split_and!; [done|done|by right|by right].
    + unfold rep, on_blobs, zoom in E3. cbn [fst snd] in E3. destruct (bs_Put key data (rp_store (rn_rep n2), w2)) as [x [s3 w3']] eqn:EP.
      injection E3 as -> <- <-. apply bs_Put_run in EP as (Hb3 & _ & [Hf3 _ _ _ _ _] & Hc3); [|done|done]. cbn [fst snd] in *.
      fold c in Hc2. rewrite Hc2 in Hc3. cbn. split_and!; [done|done| |right; by split]. destruct Hc3 as [->| ->]; [by left|by right].
Qed.
End facts.

(** ** Claims *)

(** C27: a put is acknowledged only when it is stored.  Whatever the store, the
    peer and the context do, handling a put writes at most one frame to the
    peer, the acknowledgement of its key, and when it does, or when it reports
    success, the store holds the data under that key; the data matches the key
    whenever the key has the length of a digest, no other entry changes, and no
    entry becomes corrupt. *)
Theorem put_acknowledged {P S : Type} `{NodePeer P} `{FramePeerSpec P} `{BlobStoreSpec S} limits maxFrameBytes nil_store lister msg
    (n : rnode P S) w res n' w'
    (Hf : fs_wf (w_fs w)) (Hb : bs_wf (rp_store (rn_rep n)) (w_fs w)) (Ht : MType msg = MessageTypeBlobPut)
    (Hrun : handleReplicationMessage limits maxFrameBytes nil_store lister msg (n, w) = (res, (n', w'))) :
  let c := bs_contents (rp_store (rn_rep n)) (w_fs w) in
  let c' := bs_contents (rp_store (rn_rep n')) (w_fs w') in
  bs_wf (rp_store (rn_rep n')) (w_fs w') ∧ put_effect c c' (MKey msg) (MData msg) ∧ (∀ k, corrupt_entry c' k → corrupt_entry c k) ∧
  ((∃ ack, EncodeBlobAck (MKey msg) limits = Ok ack ∧ c' !! MKey msg = Some (MData msg) ∧
      peer_sent (rp_peer (rn_rep n')) = peer_sent (rp_peer (rn_rep n)) ++ [ack]) ∨
   is_Ok res = false ∧ peer_sent (rp_peer (rn_rep n')) = peer_sent (rp_peer (rn_rep n))).
Proof.
  cbv zeta. unfold handleReplicationMessage in Hrun. rewrite bool_decide_eq_true_2 in Hrun by done.
  apply handlePut_run in Hrun as (_ & Hb' & He & HR); [|done|done]. split_and!; [done|done| |].
  - intros k Hk. destruct He as [E|[E Hv]]; rewrite E in Hk; [done|]. by eapply insert_not_corrupt.
  - destruct HR as [(ack & Ea & Ec & Hs)|HR]; [left|by right]. exists ack. split; [done|]. split; [|done].
    rewrite Ec. apply lookup_insert_eq.
Qed.

(** C28: a node sends only blobs that it holds and that match their keys.
    Whatever the store, the peer and the context do, every frame written while
    answering a request is a put of a stored blob, whose key is its digest when
    it has the length of one, for a requested key and in the order of the
    request; the store is unchanged.  A repair keeps to its byte budget, or
    sends a single blob that exceeds it alone.  What it returns as deferred is an
    end of the request: every key sent comes before it, and it is empty, or it
    begins with a key whose stored blob would have taken what was sent beyond the
    budget; a request that is not a repair defers nothing. *)
Theorem requested_blobs_verified {P S : Type} `{NodePeer P} `{FramePeerSpec P} `{BlobStoreSpec S} limits maxFrameBytes keys repair
    (n : rnode P S) w res n' w'
    (Hf : fs_wf (w_fs w)) (Hb : bs_wf (rp_store (rn_rep n)) (w_fs w))
    (Hrun : sendRequestedBlobsResult limits maxFrameBytes keys repair (n, w) = (res, (n', w'))) :
  ∃ kds fs, served n w n' w' fs ∧ Forall2 (sendable_blob limits (bs_contents (rp_store (rn_rep n)) (w_fs w))) kds fs ∧
    (repair = true → sum_len kds.*2 <= repair_budget limits ∨ ∃ d, d ∈ kds.*2 ∧ sum_len kds.*2 = len d) ∧
    match res with
    | Ok deferred => ∃ tried, keys = tried ++ deferred ∧ kds.*1 `sublist_of` tried ∧ (repair = false → deferred = []) ∧
        (deferred = [] ∨ 0 < sum_len kds.*2 ∧ ∃ k rest d, deferred = k :: rest ∧
           bs_contents (rp_store (rn_rep n)) (w_fs w) !! k = Some d ∧ repair_budget limits < sum_len kds.*2 + len d)
    | Err _ => kds.*1 `sublist_of` keys
    end.
Proof.
  unfold sendRequestedBlobsResult in Hrun. apply send_requested_run in Hrun as (kds & fs & Hs & HF & Hw & HR); [|done|done|done]. exists kds, fs. split_and!; [done|done| |].
  2:{ destruct res as [deferred|e]; [|done]. destruct HR as (tried & Ek & Hsub & Hd). exists tried. split_and!; [done|done|..].
      - intros ->. by destruct Hd as [?|[? _]].
      - destruct Hd as [?|(-> & Hp & Hd)]; [by left|by right]. }
  intros Hr. destruct (Hw Hr) as [Hl|[_ Hd]]; [left|by right].
  assert (0 < repair_budget limits) by (unfold repair_budget; destruct (0 <? MaxRepairBytes limits) eqn:E; [lia|reflexivity]). lia.
Qed.

(** *** Concrete runs *)

#[local] Existing Instance ascii_print.

Definition ex_rnode (blobs : gmap bytes bytes) : rnode script_peer (MemoryStore (gset bytes)) :=
  mkRnode (mkReplicator (mkScriptPeer [] []) (mkMemoryStore blobs None) (λ _, 0)) 0 (Some newPutAckTracker) (Some 4) (Some ∅) [].
Definition ex_put_run := handleReplicationMessage (mkReplicationLimits 0 0 0 0) 0 false None
  (mkMessage MessageTypeBlobPut (lit "k") [] (lit "hello")) (ex_rnode ∅, ex_world []).

Lemma put_acknowledged_witness :
  ex_put_run.1 = Ok tt ∧ ms_data (rp_store (rn_rep ex_put_run.2.1)) !! lit "k" = Some (lit "hello") ∧
  length (sp_sent (rp_peer (rn_rep ex_put_run.2.1))) = 1%nat.
Proof.
  assert (ex_put_run.1 = Ok tt) as E by (vm_compute; reflexivity).
  destruct (put_acknowledged (mkReplicationLimits 0 0 0 0) 0 false None (mkMessage MessageTypeBlobPut (lit "k") [] (lit "hello"))
    (ex_rnode ∅) (ex_world []) (Ok tt) ex_put_run.2.1 ex_put_run.2.2) as (_ & _ & _ & [(ack & _ & Hc & Hs)|[He _]]).
  - exact fs_wf_empty.
  - by split.
  - reflexivity.
  - exact (run_eq2 ex_put_run _ E).
  - cbn [MKey MData] in Hc. split; [exact E|]. split; [exact Hc|]. exact (f_equal length Hs).
  - discriminate He.
Defined.

(** Three blobs of two bytes and a budget of four: the third is deferred. *)
Definition ex_three : gmap bytes bytes := {[lit "a" := lit "11"; lit "b" := lit "22"; lit "c" := lit "33"]}.
Definition ex_request_run := sendRequestedBlobsResult (mkReplicationLimits 0 0 0 4) 0 [lit "a"; lit "b"; lit "c"] true (ex_rnode ex_three, ex_world []).

Lemma requested_blobs_verified_witness :
  ex_request_run.1 = Ok [lit "c"] ∧
  ∃ kds fs, sp_sent (rp_peer (rn_rep ex_request_run.2.1)) = fs ∧
    Forall2 (sendable_blob (mkReplicationLimits 0 0 0 4) ex_three) kds fs ∧ kds.*1 `sublist_of` [lit "a"; lit "b"].
Proof.
  assert (ex_request_run.1 = Ok [lit "c"]) as E by (vm_compute; reflexivity).
  destruct (requested_blobs_verified (mkReplicationLimits 0 0 0 4) 0 [lit "a"; lit "b"; lit "c"] true (ex_rnode ex_three) (ex_world [])
    (Ok [lit "c"]) ex_request_run.2.1 ex_request_run.2.2) as (kds & fs & [_ _ _ Hs] & HF & _ & tried & Et & Hsub & _).
  - exact fs_wf_empty.
  - split; [done|]. vm_compute. reflexivity.
  - exact (run_eq2 ex_request_run _ E).
  - split; [exact E|]. exists kds, fs. split; [exact Hs|]. split; [exact HF|].
    assert (tried = [lit "a"; lit "b"]) as <-; [|exact Hsub].
    apply (app_inv_tail [lit "c"]). symmetry. exact Et.
Defined.
