(* ===== verification/AntiEntropy.v ===== *)
(** * A round of anti-entropy

    Two nodes with the frame handlers of Replicate.v, over any blob stores that
    answer as a map: one advertises keys, the other asks for those it lacks, the
    first sends the blobs, the other stores them.  The memory store and the file
    store both answer as a map ([MapStore]); the file store checks content keys
    when it reads, so for it a corrupt blob counts as missing. *)
From stdpp Require Import sorting.
From S2P Require Import Prelude Go Bits Text Json Os Paths Model Codec Journal Transport Repair Blobs Inventory Files Applier Session Runtime Protocol Peers Wire Exchange Replicate.

(** ** Stores that answer as a map *)

(** Without faults; [ms_checks] tells whether reads check content keys. *)
Class MapStore (S : Type) `{BlobStore S} := {
  mp_ok : S → world → Prop;
  mp_map : S → world → gmap bytes bytes;
  mp_checks : bool;
  mp_quiet : ∀ s w, mp_ok s w → quiet w;
  mp_Get : ∀ k s w, mp_ok s w → k ≠ [] → ∃ s' w',
    bs_Get k (s, w) = (match mp_map s w !! k with
                       | Some v => if negb mp_checks || intact k v then Ok v else Err storage_ErrSHA256Mismatch
                       | None => Err storage_ErrNotFound
                       end, (s', w')) ∧ mp_ok s' w' ∧ mp_map s' w' = mp_map s w;
  mp_Has : ∀ k s w, mp_ok s w → k ≠ [] → ∃ s' w',
    bs_Has k (s, w) = (Ok (match mp_map s w !! k with Some v => negb mp_checks || intact k v | None => false end), (s', w')) ∧
    mp_ok s' w' ∧ mp_map s' w' = mp_map s w;
  mp_Put : ∀ k d s w, mp_ok s w → k ≠ [] → ∃ s' w',
    bs_Put k d (s, w) = (Ok tt, (s', w')) ∧ mp_ok s' w' ∧ mp_map s' w' = <[k := d]> (mp_map s w)
}.
Arguments mp_checks S {_ _}.

(** A reply determines the result it is the reply to. *)
Section replies.
Context {S : Type} `{BlobStore S} `{BlobKeyLister S} `{BlobKeyPager S}.
Lemma run_op_Put k d (s : S * world) x : run_op (OpPut k d) s = (RUnit, x) → bs_Put k d s = (Ok tt, x).
Proof. cbn. destruct (bs_Put k d s) as [[[]|e] y]; cbn; intros E; [by injection E as ->|discriminate E]. Qed.
Lemma run_op_Get k (s : S * world) (r : result bytes) x : run_op (OpGet k) s = (reply RBytes r, x) → bs_Get k s = (r, x).
Proof.
  cbn. destruct (bs_Get k s) as [[v|e] y], r as [v'|e']; cbn; intros E; try discriminate E; by injection E as -> ->.
Qed.
Lemma run_op_Has k (s : S * world) b x : run_op (OpHas k) s = (RBool b, x) → bs_Has k s = (Ok b, x).
Proof. cbn. destruct (bs_Has k s) as [[v|e] y]; cbn; intros E; [by injection E as -> ->|discriminate E]. Qed.
End replies.

#[export] Program Instance memory_MapStore {T} `{BTreeLaws T} : MapStore (MemoryStore T) := {|
  mp_ok m w := quiet w ∧ ms_wf m;
  mp_map m _ := ms_data m;
  mp_checks := false
|}.
Next Obligation. by intros T ? ? m w [? ?]. Qed.
Next Obligation.
  intros T ? ? k m w [Hq Hm] Hk. destruct (run_op_spec (OpGet k) m w Hq Hm) as (m' & E & Ed & Hm'). cbn [spec_op] in E, Ed.
  rewrite bool_decide_eq_false_2 in E, Ed by done. exists m', w. split; [|done]. apply run_op_Get. rewrite E. by destruct (ms_data m !! k).
Qed.
Next Obligation.
  intros T ? ? k m w [Hq Hm] Hk. destruct (run_op_spec (OpHas k) m w Hq Hm) as (m' & E & Ed & Hm'). cbn [spec_op] in E, Ed.
  rewrite bool_decide_eq_false_2 in E, Ed by done. exists m', w. split; [|done]. apply run_op_Has. rewrite E. by destruct (ms_data m !! k).
Qed.
Next Obligation.
  intros T ? ? k d m w [Hq Hm] Hk. destruct (run_op_spec (OpPut k d) m w Hq Hm) as (m' & E & Ed & Hm'). cbn [spec_op] in E, Ed.
  rewrite bool_decide_eq_false_2 in E, Ed by done. exists m', w. split; [by apply run_op_Put|done].
Qed.

#[export] Program Instance file_MapStore {T} `{BTreeLaws T} `{DirTimes} : MapStore (FileStore T) := {|
  mp_ok s w := quiet w ∧ fs_wf (w_fs w) ∧ fstore_wf s (w_fs w);
  mp_map s w := file_contents (fst_dir s) (w_fs w);
  mp_checks := true
|}.
Next Obligation. by intros T ? ? ? s w [? ?]. Qed.
Next Obligation.
  intros T ? ? ? k s w (Hq & Hf & Hs) Hk. destruct (file_op_spec (OpGet k) s w Hq Hf Hs) as (s' & w' & E & Ed & Em & ?). cbn [file_spec_op] in E, Em.
  rewrite bool_decide_eq_false_2 in E by done. exists s', w'. rewrite Ed. split; [|done]. apply run_op_Get. rewrite E.
  destruct (file_contents _ _ !! k) as [v|]; [|done]. cbn [negb orb]. by destruct (intact k v).
Qed.
Next Obligation.
  intros T ? ? ? k s w (Hq & Hf & Hs) Hk. destruct (file_op_spec (OpHas k) s w Hq Hf Hs) as (s' & w' & E & Ed & Em & ?). cbn [file_spec_op] in E, Em.
  rewrite bool_decide_eq_false_2 in E by done. exists s', w'. rewrite Ed. split; [|done]. apply run_op_Has. rewrite E.
  by destruct (file_contents _ _ !! k) as [v|].
Qed.
Next Obligation.
  intros T ? ? ? k d s w (Hq & Hf & Hs) Hk. destruct (file_op_spec (OpPut k d) s w Hq Hf Hs) as (s' & w' & E & Ed & Em & ?). cbn [file_spec_op spec_op] in E, Em.
  rewrite bool_decide_eq_false_2 in E, Em by done. exists s', w'. rewrite Ed. split; [by apply run_op_Put|done].
Qed.

(** ** Runs without faults *)

(** [c] holds the key, as far as its [Has] can tell. *)
Definition holds (checks : bool) (c : gmap bytes bytes) (k : bytes) : bool :=
  match c !! k with Some v => negb checks || intact k v | None => false end.

(** What a repair sends of the requested keys, and what it defers. *)
Fixpoint repair_plan (limits : ReplicationLimits) (c : gmap bytes bytes) (keys : list bytes) (rb : Z)
    : list (bytes * bytes) * list bytes :=
  match keys with
  | [] => ([], [])
  | k :: rest =>
      match c !! k with
      | None => repair_plan limits c rest rb
      | Some d =>
          if negb (intact k d) then repair_plan limits c rest rb
          else if (0 <? rb) && (repair_budget limits <? rb + len d) then ([], k :: rest)
          else match EncodeBlobPut k d limits with
               | Err _ => repair_plan limits c rest rb
               | Ok _ => let '(kds, deferred) := repair_plan limits c rest (rb + len d) in ((k, d) :: kds, deferred)
               end
      end
  end.

Section quiet_handlers.
Context {P S : Type} `{OpenPeerSpec P} `{MapStore S}.
Context (limits : ReplicationLimits) (maxFrameBytes : Z).
Implicit Types (n : rnode P S) (w : world).

(** A node that works: its store answers, its peer is connected. *)
Definition working n w : Prop := mp_ok (rp_store (rn_rep n)) w ∧ peer_open (rp_peer (rn_rep n)).
Definition node_map n w : gmap bytes bytes := mp_map (rp_store (rn_rep n)) w.

(** One call: the blobs become [c], the frames [fs] are written. *)
Record goes n w n' w' (c : gmap bytes bytes) (fs : list bytes) : Prop := {
  go_working : working n' w';
  go_map : node_map n' w' = c;
  go_sent : peer_sent (rp_peer (rn_rep n')) = peer_sent (rp_peer (rn_rep n)) ++ fs;
  go_repairs : rn_repairs n' = rn_repairs n ∧ rn_addr n' = rn_addr n
}.

(** Only counters and slots differ. *)
Definition same_node n n' : Prop := same_io n n' ∧ rn_repairs n' = rn_repairs n ∧ rn_addr n' = rn_addr n.

Lemma goes_same n w n' : working n w → same_node n n' → goes n w n' w (node_map n w) [].
Proof.
  intros [Hw Ho] [[Ep Es] Er]. split; [split; [by rewrite Es|by rewrite Ep]|unfold node_map; by rewrite Es|by rewrite Ep, app_nil_r|done].
Qed.
Lemma goes_trans n1 w1 n2 w2 n3 w3 c2 c3 fs gs : goes n1 w1 n2 w2 c2 fs → goes n2 w2 n3 w3 c3 gs → goes n1 w1 n3 w3 c3 (fs ++ gs).
Proof.
  intros [_ _ S1 [R1 A1]] [W2 M2 S2 [R2 A2]]. split; [done|done|by rewrite S2, S1, app_assoc|]. by rewrite R2, A2.
Qed.
Lemma goes_after n1 w1 n2 w2 n3 c fs : goes n1 w1 n2 w2 c fs → same_node n2 n3 → goes n1 w1 n3 w2 c fs.
Proof.
  intros HG HS. rewrite <- (app_nil_r fs). eapply goes_trans; [exact HG|]. rewrite <- (go_map _ _ _ _ _ _ HG).
  apply goes_same; [exact (go_working _ _ _ _ _ _ HG)|done].
Qed.
Lemma same_node_refl n : same_node n n.
Proof. done. Qed.
Lemma same_node_trans n1 n2 n3 : same_node n1 n2 → same_node n2 n3 → same_node n1 n3.
Proof. intros [[? ?] [? ?]] [[? ?] [? ?]]. split; [split; congruence|split; congruence]. Qed.

Lemma working_same n w n' : working n w → same_node n n' → working n' w.
Proof. intros [Hw Ho] [[Ep Es] _]. split; [by rewrite Es|by rewrite Ep]. Qed.

Lemma counts_same cs n w : ∃ n', counts cs (n, w) = (Ok tt, (n', w)) ∧ same_node n n'.
Proof. by eexists. Qed.

Lemma poll_ok n w : working n w → io ctx_Err (n, w) = (Ok tt, (n, w)).
Proof. intros [Hw _]. apply io_eq. split; [done|]. apply quiet_ctx. by eapply mp_quiet. Qed.

Lemma get_ok k n w : working n w → k ≠ [] → ∃ n' w',
  rep (on_blobs (bs_Get k)) (n, w) =
    (match node_map n w !! k with
     | Some v => if negb (mp_checks S) || intact k v then Ok v else Err storage_ErrSHA256Mismatch
     | None => Err storage_ErrNotFound
     end, (n', w')) ∧ goes n w n' w' (node_map n w) [].
Proof.
  intros [Hw Ho] Hk. destruct (mp_Get k _ _ Hw Hk) as (s' & w' & E & Hw' & Em). unfold rep, on_blobs, zoom. cbn [fst snd]. rewrite E.
  eexists _, w'. split; [reflexivity|]. split; [done|done|by rewrite app_nil_r|done].
Qed.
Lemma put_ok k d n w : working n w → k ≠ [] → ∃ n' w',
  rep (on_blobs (bs_Put k d)) (n, w) = (Ok tt, (n', w')) ∧ goes n w n' w' (<[k := d]> (node_map n w)) [].
Proof.
  intros [Hw Ho] Hk. destruct (mp_Put k d _ _ Hw Hk) as (s' & w' & E & Hw' & Em). unfold rep, on_blobs, zoom. cbn [fst snd]. rewrite E.
  eexists _, w'. split; [reflexivity|]. split; [done|done|by rewrite app_nil_r|done].
Qed.
Lemma write_ok payload n w : working n w → len payload <= or_default maxFrameBytes DefaultMaxFrameBytes → ∃ n',
  rep (writePeerFrame payload maxFrameBytes) (n, w) = (Ok tt, (n', w)) ∧ goes n w n' w (node_map n w) [payload].
Proof.
  intros [Hw Ho] Hl. pose proof (mp_quiet _ _ Hw) as Hq.
  destruct (open_WriteFrame payload maxFrameBytes (rp_peer (rn_rep n)) w Hq Ho Hl) as (p' & EW & Ho').
  assert (writePeerFrame payload maxFrameBytes (rn_rep n, w) =
    (Ok tt, (mkReplicator p' (rp_store (rn_rep n)) (rp_metrics (rn_rep n)), w))) as E.
  { unfold writePeerFrame. erewrite bind_step_Ok by reflexivity. cbn [fst]. rewrite open_writes by done. unfold on_peer, zoom. cbn [fst snd]. by rewrite EW. }
  unfold rep, zoom. cbn [fst snd]. rewrite E. eexists. split; [reflexivity|]. split; [done|done| |done].
  cbn. apply WriteFrame_run in EW as (_ & _ & [Hs|[? _]]); done.
Qed.

Lemma acquire_ok n w : working n w → ∃ held n', acquire (n, w) = (Ok held, (n', w)) ∧ same_node n n'.
Proof.
  intros Hw. unfold acquire. erewrite bind_step_Ok by reflexivity. cbn [fst]. destruct (rn_slots n) as [z|]; [|by exists false, n].
  exists true. unfold attempt at 1. rewrite poll_ok by done. erewrite bind_step_Ok by reflexivity.
  destruct (0 <? z); (erewrite bind_step_Ok by reflexivity; unfold attempt; rewrite poll_ok by (by eapply working_same);
    eexists; split; [erewrite bind_step_Ok by reflexivity; erewrite bind_step_Ok by reflexivity; reflexivity|done]).
Qed.

Lemma with_slot_ok {A} repair (body : M (rnode P S * world) A) n w a c fs :
  working n w → (∀ n1, same_node n n1 → ∃ n2 w2, body (n1, w) = (Ok a, (n2, w2)) ∧ goes n1 w n2 w2 c fs) →
  ∃ n' w', with_slot repair body (n, w) = (Ok a, (n', w')) ∧ goes n w n' w' c fs.
Proof.
  intros Hw Hbody. unfold with_slot. destruct repair; [|by apply Hbody].
  destruct (acquire_ok n w Hw) as (held & n1 & EA & Hs). erewrite bind_step_Ok by exact EA.
  destruct (Hbody n1 Hs) as (n2 & w2 & EB & HG). unfold attempt. rewrite EB.
  assert (goes n w n2 w2 c fs) as HG2 by (apply (goes_trans n w n1 w n2 w2 (node_map n w) c [] fs); [by apply goes_same|done]).
  destruct held.
  - eexists _, w2. split; [unfold release; erewrite bind_step_Ok; [reflexivity|erewrite bind_step_Ok by reflexivity; reflexivity]|].
    eapply goes_after; [exact HG2|]. cbn [fst]. by destruct (rn_slots _).
  - eexists _, w2. split; [erewrite bind_step_Ok by reflexivity; reflexivity|done].
Qed.

Lemma intact_spec k d : intact k d = true ↔ (len k = SHA256KeyBytes → k = SHA256Key d).
Proof. unfold intact. rewrite orb_true_iff, negb_true_iff, Z.eqb_neq, bool_decide_eq_true. destruct (decide (len k = SHA256KeyBytes)); naive_solver. Qed.
Lemma verify_intact k d : is_Ok (verifyContentKeyIfSHA256 k d) = intact k d.
Proof.
  apply eq_bool_prop_intro. rewrite !Is_true_true, intact_spec, <- verifyContentKeyIfSHA256_Ok.
  destruct (verifyContentKeyIfSHA256 k d) as [[]|]; cbn; naive_solver.
Qed.

(** The frames of the blobs [kds]. *)
Definition put_frames (kds : list (bytes * bytes)) (fs : list bytes) : Prop :=
  Forall2 (λ kd f, EncodeBlobPut kd.1 kd.2 limits = Ok f) kds fs.
(** Every blob of [c] that can be encoded fits into a frame. *)
Definition fits (c : gmap bytes bytes) : Prop := ∀ k d f, c !! k = Some d → EncodeBlobPut k d limits = Ok f →
  len f <= or_default maxFrameBytes DefaultMaxFrameBytes.

Lemma skip_ok cs rb n0 w0 n w c fs : goes n0 w0 n w c fs → ∃ n' w', skip cs rb (n, w) = (Ok (SNext rb), (n', w')) ∧ goes n0 w0 n' w' c fs.
Proof. intros HG. eexists _, w. split; [unfold skip; erewrite bind_step_Ok by reflexivity; reflexivity|]. by eapply goes_after. Qed.

Lemma send_one_ok k rest rb n w :
  working n w → k ≠ [] → fits (node_map n w) →
  ∃ st fs, (∃ n' w', send_one limits maxFrameBytes k rest true rb (n, w) = (Ok st, (n', w')) ∧ goes n w n' w' (node_map n w) fs) ∧
    match node_map n w !! k with
    | None => st = SNext rb ∧ fs = []
    | Some d =>
        if negb (intact k d) then st = SNext rb ∧ fs = []
        else if (0 <? rb) && (repair_budget limits <? rb + len d) then st = SDefer ∧ fs = []
        else match EncodeBlobPut k d limits with
             | Err _ => st = SNext rb ∧ fs = []
             | Ok f => st = SNext (rb + len d) ∧ fs = [f]
             end
    end.
Proof.
  intros Hw Hk Hfits. destruct (get_ok k n w Hw Hk) as (n1 & w1 & EG & HG1). pose proof (go_working _ _ _ _ _ _ HG1) as Hw1.
  unfold send_one, attempt. rewrite EG. destruct (node_map n w !! k) as [d|] eqn:Ed.
  2:{ exists (SNext rb), []. split; [|done]. by exists n1, w1. }
  destruct (intact k d) eqn:Ei; cbn [negb].
  2:{ exists (SNext rb), []. split; [|done]. rewrite orb_false_r. destruct (mp_checks S); cbn [negb orb].
      - by apply skip_ok.
      - erewrite bind_step_Ok by by apply poll_ok. pose proof (verify_intact k d) as Hv. rewrite Ei in Hv.
        destruct (verifyContentKeyIfSHA256 k d); [done|]. by apply skip_ok. }
  rewrite orb_true_r. erewrite bind_step_Ok by by apply poll_ok.
  pose proof (verify_intact k d) as Hv. rewrite Ei in Hv. destruct (verifyContentKeyIfSHA256 k d); [|done]. cbn [andb].
  destruct ((0 <? rb) && (repair_budget limits <? rb + len d)).
  { exists SDefer, []. split; [|done]. eexists _, w1. split; [erewrite bind_step_Ok by reflexivity; reflexivity|]. by eapply goes_after. }
  destruct (EncodeBlobPut k d limits) as [f|e] eqn:Ef.
  2:{ exists (SNext rb), []. split; [|done]. by apply skip_ok. }
  exists (SNext (rb + len d)), [f]. split; [|done]. erewrite bind_step_Ok by by apply poll_ok.
  destruct (write_ok f n1 w1 Hw1 (Hfits _ _ _ Ed Ef)) as (n2 & EW & HG2). rewrite EW.
  rewrite (go_map _ _ _ _ _ _ HG1) in HG2. pose proof (goes_trans _ _ _ _ _ _ _ _ _ _ HG1 HG2) as HG3.
  eexists _, w1. split; [erewrite bind_step_Ok by reflexivity; erewrite bind_step_Ok by reflexivity; reflexivity|]. by eapply goes_after.
Qed.

(** A blob whose put frame the connection refuses as too large ends the answer at
    its key: neither it nor any later key is sent. *)
Lemma oversized_blob_aborts k rest d f n w :
  working n w → k ≠ [] → node_map n w !! k = Some d → intact k d = true → EncodeBlobPut k d limits = Ok f →
  (∀ p w, WriteFrame f maxFrameBytes (p, w) = (Err p2p_ErrFrameTooLarge, (p, w))) →
  ∃ n' w', sendRequestedBlobsResult limits maxFrameBytes (k :: rest) true (n, w) = (Err p2p_ErrFrameTooLarge, (n', w')) ∧
    goes n w n' w' (node_map n w) [].
Proof.
  intros Hw Hk Ed Ei Ef Hlarge. unfold sendRequestedBlobsResult. cbn [send_requested]. erewrite bind_step_Ok by by apply poll_ok.
  destruct (acquire_ok n w Hw) as (held & n1 & EA & Hs1). pose proof (working_same _ _ _ Hw Hs1) as Hw1.
  assert (∃ n2 w2, send_one limits maxFrameBytes k rest true 0 (n1, w) = (Err p2p_ErrFrameTooLarge, (n2, w2)) ∧ goes n w n2 w2 (node_map n w) [])
    as (n2 & w2 & EO & HG2).
  { destruct (get_ok k n1 w Hw1 Hk) as (n3 & w3 & EG & HG3). pose proof (go_working _ _ _ _ _ _ HG3) as Hw3.
    assert (node_map n1 w = node_map n w) as Em by (unfold node_map; by destruct Hs1 as [[_ ->] _]).
    unfold send_one, attempt. rewrite EG, Em, Ed, Ei, orb_true_r. erewrite bind_step_Ok by by apply poll_ok.
    pose proof (verify_intact k d) as Hv. rewrite Ei in Hv. destruct (verifyContentKeyIfSHA256 k d); [|done].
    change (true && (0 <? 0) && (repair_budget limits <? 0 + len d)) with false. rewrite Ef.
    cbn match. erewrite bind_step_Ok by by apply poll_ok.
    assert (rep (writePeerFrame f maxFrameBytes) (n3, w3) = (Err p2p_ErrFrameTooLarge, (n3, w3))) as ->.
    { unfold rep, zoom. cbn [fst snd]. unfold writePeerFrame. erewrite bind_step_Ok by reflexivity. cbn [fst].
      rewrite open_writes by apply Hw3. unfold on_peer, zoom. cbn [fst snd]. rewrite Hlarge. by destruct n3 as [[]]. }
    rewrite Em in HG3. eexists _, w3. split; [erewrite bind_step_Ok by reflexivity; reflexivity|].
    apply (goes_after n w n3 w3); [|done]. apply (goes_trans n w n1 w n3 w3 (node_map n w) (node_map n w) [] []); [by apply goes_same|done]. }
  unfold with_slot, bind. rewrite EA. unfold attempt. rewrite EO. destruct held.
  - eexists _, w2. split; [reflexivity|]. eapply goes_after; [exact HG2|]. cbn. by destruct (rn_slots _).
  - eexists _, w2. split; [reflexivity|done].
Qed.

Lemma send_requested_ok keys rb n w :
  working n w → [] ∉ keys → fits (node_map n w) →
  let '(kds, deferred) := repair_plan limits (node_map n w) keys rb in
  ∃ n' w' fs, send_requested limits maxFrameBytes keys true rb (n, w) = (Ok deferred, (n', w')) ∧
    goes n w n' w' (node_map n w) fs ∧ put_frames kds fs.
Proof.
  revert rb n w. induction keys as [|k keys IH]; intros rb n w Hw Hne Hfits; cbn [repair_plan send_requested].
  { exists n, w, []. split; [done|]. split; [by apply goes_same|constructor]. }
  apply not_elem_of_cons in Hne as [Hk Hne]. erewrite bind_step_Ok by by apply poll_ok.
  destruct (send_one_ok k keys rb n w Hw (not_eq_sym Hk) Hfits) as (st & fs & Hrun & Hst).
  assert (∃ n' w', with_slot true (send_one limits maxFrameBytes k keys true rb) (n, w) = (Ok st, (n', w')) ∧ goes n w n' w' (node_map n w) fs)
    as (n1 & w1 & E1 & HG1).
  { apply with_slot_ok; [done|]. intros n1 Hs. pose proof (working_same _ _ _ Hw Hs) as Hw1.
    assert (node_map n1 w = node_map n w) as Em by (unfold node_map; destruct Hs as [[_ ->] _]; done).
    destruct (send_one_ok k keys rb n1 w Hw1 (not_eq_sym Hk)) as (st1 & fs1 & (n2 & w2 & E2 & HG2) & Hst1); [by rewrite Em|].
    rewrite Em in Hst1, HG2. exists n2, w2.
    assert (st1 = st ∧ fs1 = fs) as [-> ->]; [|done]. clear -Hst Hst1.
    destruct (node_map n w !! k) as [d|]; [|naive_solver]. destruct (negb _); [naive_solver|]. destruct (_ && _); [naive_solver|].
    destruct (EncodeBlobPut k d limits); naive_solver. }
  erewrite bind_step_Ok by exact E1. pose proof (go_working _ _ _ _ _ _ HG1) as Hw1. pose proof (go_map _ _ _ _ _ _ HG1) as Em1.
  assert (∀ rb', st = SNext rb' → let '(kds, deferred) := repair_plan limits (node_map n w) keys rb' in ∃ n' w' fs2,
    match st with SNext rb => send_requested limits maxFrameBytes keys true rb | SDefer => ret (cloneBlobKeys (k :: keys)) end (n1, w1) =
      (Ok deferred, (n', w')) ∧ goes n w n' w' (node_map n w) (fs ++ fs2) ∧ put_frames kds fs2) as Hnext.
  { intros rb' ->. specialize (IH rb' n1 w1 Hw1 Hne). rewrite Em1 in IH. specialize (IH Hfits).
    destruct (repair_plan limits (node_map n w) keys rb') as [kds deferred]. destruct IH as (n2 & w2 & fs2 & E2 & HG2 & HF2).
    exists n2, w2, fs2. split; [exact E2|]. split; [by eapply goes_trans|done]. }
  assert (∀ rb', st = SNext rb' ∧ fs = [] → let '(kds, deferred) := repair_plan limits (node_map n w) keys rb' in ∃ n' w' fs2,
    match st with SNext rb => send_requested limits maxFrameBytes keys true rb | SDefer => ret (cloneBlobKeys (k :: keys)) end (n1, w1) =
      (Ok deferred, (n', w')) ∧ goes n w n' w' (node_map n w) fs2 ∧ put_frames kds fs2) as Hskip.
  { intros rb' [Es ->]. by apply Hnext. }
  destruct (node_map n w !! k) as [d|]; [|by apply Hskip]. destruct (negb (intact k d)); [by apply Hskip|]. destruct (_ && _).
  { destruct Hst as [-> ->]. exists n1, w1, []. rewrite cloneBlobKeys_id. split; [done|]. split; [done|constructor]. }
  destruct (EncodeBlobPut k d limits) as [f|e] eqn:Ef; [|by apply Hskip]. destruct Hst as [Est Efs]. specialize (Hnext _ Est).
  destruct (repair_plan limits (node_map n w) keys (rb + len d)) as [kds deferred]. destruct Hnext as (n2 & w2 & fs2 & E2 & HG2 & HF2).
  exists n2, w2, (fs ++ fs2). split; [exact E2|]. split; [done|]. subst fs. by constructor.
Qed.

Lemma has_ok k n w : working n w → k ≠ [] → ∃ s' w',
  bs_Has k (rp_store (rn_rep n), w) = (Ok (holds (mp_checks S) (node_map n w) k), (s', w')) ∧
  mp_ok s' w' ∧ mp_map s' w' = node_map n w.
Proof. intros [Hw _] Hk. exact (mp_Has k _ _ Hw Hk). Qed.

Lemma missing_ok keys s w :
  mp_ok s w → [] ∉ keys → ∃ s' w',
  missingKeysFromStore keys (s, w) = (Ok (filter (λ k, holds (mp_checks S) (mp_map s w) k = false) keys), (s', w')) ∧
  mp_ok s' w' ∧ mp_map s' w' = mp_map s w.
Proof.
  unfold missingKeysFromStore. revert s w. induction keys as [|k keys IH]; intros s w Hw Hne; cbn [missing_loop]; [by exists s, w|].
  apply not_elem_of_cons in Hne as [Hk Hne]. destruct (mp_Has k s w Hw (not_eq_sym Hk)) as (s1 & w1 & E1 & Hw1 & Em1).
  erewrite bind_step_Ok by exact E1. destruct (IH s1 w1 Hw1 Hne) as (s2 & w2 & E2 & Hw2 & Em2). erewrite bind_step_Ok by exact E2.
  exists s2, w2. rewrite Em2, Em1. split; [|done]. fold (holds (mp_checks S) (mp_map s w) k). rewrite filter_cons.
  destruct (holds (mp_checks S) (mp_map s w) k); [rewrite decide_False by done|rewrite decide_True by done]; done.
Qed.

Lemma handleHas_ok keys n w :
  working n w → [] ∉ keys →
  let missing := filter (λ k, holds (mp_checks S) (node_map n w) k = false) keys in
  (∀ g, EncodeBlobMissing missing limits = Ok g → len g <= or_default maxFrameBytes DefaultMaxFrameBytes) →
  (missing ≠ [] → is_Ok (EncodeBlobMissing missing limits) = true) →
  ∃ n' w' fs, handleHas limits maxFrameBytes false None keys (n, w) = (Ok tt, (n', w')) ∧ goes n w n' w' (node_map n w) fs ∧
    (missing = [] ∧ fs = [] ∨ ∃ g, EncodeBlobMissing missing limits = Ok g ∧ fs = [g]).
Proof.
  intros Hw Hne missing Hfit Henc. unfold handleHas. cbn [negb]. erewrite bind_step_Ok by reflexivity. cbn [fst snd].
  destruct Hw as [Hw Ho]. destruct (missing_ok keys _ _ Hw Hne) as (s2 & w2 & E2 & Hw2 & Em2). fold (node_map n w) in E2, Em2. fold missing in E2.
  unfold bind at 1. unfold rep at 1, on_blobs at 1, zoom at 1 2. cbn [fst snd rn_rep set_rep rp_store].
  rewrite E2. cbn [fst snd rn_rep set_rep rp_store rp_peer rp_metrics].
  set (n2 := set_rep _ _). assert (goes n w n2 w2 (node_map n w) []) as HG2 by (split; [done|done|by rewrite app_nil_r|done]).
  destruct (len missing =? 0) eqn:E0; bool_to_prop.
  { apply len_zero in E0. exists n2, w2, []. split; [done|]. split; [done|]. by left. }
  assert (missing ≠ []) as Hmne by (intros E; by rewrite E in E0).
  destruct (EncodeBlobMissing missing limits) as [g|e] eqn:Eg; [|by specialize (Henc Hmne)].
  erewrite bind_step_Ok by reflexivity. destruct (write_ok g n2 w2) as (n3 & EW & HG3); [exact (go_working _ _ _ _ _ _ HG2)|by apply Hfit|].
  unfold attempt. rewrite EW. rewrite (go_map _ _ _ _ _ _ HG2) in HG3. pose proof (goes_trans _ _ _ _ _ _ _ _ _ _ HG2 HG3) as HG.
  eexists _, w2, [g]. split; [reflexivity|]. split; [by eapply goes_after|]. right. by exists g.
Qed.

Lemma handlePut_ok k d n w :
  working n w → k ≠ [] → intact k d = true →
  (∀ g, EncodeBlobAck k limits = Ok g → len g <= or_default maxFrameBytes DefaultMaxFrameBytes) → is_Ok (EncodeBlobAck k limits) = true →
  ∃ n' w' fs, handlePut limits maxFrameBytes k d (n, w) = (Ok tt, (n', w')) ∧ goes n w n' w' (<[k := d]> (node_map n w)) fs.
Proof.
  intros Hw Hk Hi Hfit Henc. unfold handlePut. pose proof (verify_intact k d) as Hv. rewrite Hi in Hv.
  destruct (verifyContentKeyIfSHA256 k d) as [[]|]; [|done]. erewrite bind_step_Ok by reflexivity.
  destruct (EncodeBlobAck k limits) as [ack|] eqn:Ea; [|done].
  assert (∀ n1 w1 c fs, goes n w n1 w1 c fs → ∃ n' w' gs, sendBlobAck limits maxFrameBytes k (n1, w1) = (Ok tt, (n', w')) ∧ goes n w n' w' c gs) as Hack.
  { intros n1 w1 c fs HG. unfold sendBlobAck. rewrite Ea. destruct (write_ok ack n1 w1) as (n2 & EW & HG2); [exact (go_working _ _ _ _ _ _ HG)|by apply Hfit|].
    unfold attempt. rewrite EW. rewrite (go_map _ _ _ _ _ _ HG) in HG2. pose proof (goes_trans _ _ _ _ _ _ _ _ _ _ HG HG2) as HG3.
    eexists _, w1, (fs ++ [ack]). split; [reflexivity|]. by eapply goes_after. }
  destruct (get_ok k n w Hw Hk) as (n1 & w1 & EG & HG1). unfold attempt at 1. rewrite EG. clear EG.
  set (got := match node_map n w !! k with Some v => _ | None => _ end).
  assert (∃ n2, match got with Ok _ => ret tt | Err e => if errors_Is e storage_ErrSHA256Mismatch then counts [(CorruptBlobsDetected, 1)]
     else if errors_Is e storage_ErrNotFound then ret tt else throw e end (n1, w1) = (Ok tt, (n2, w1)) ∧ goes n w n2 w1 (node_map n w) []) as (n2 & E2 & HG2).
  { unfold got. destruct (node_map n w !! k) as [v|]; [destruct (negb (mp_checks S) || intact k v)|]; eexists; (split; [reflexivity|]); [done|by eapply goes_after|done]. }
  erewrite bind_step_Ok by exact E2. case_bool_decide as Edup.
  - erewrite bind_step_Ok by reflexivity. assert (<[k := d]> (node_map n w) = node_map n w) as ->.
    { apply insert_id. unfold got in Edup. destruct (node_map n w !! k) as [v|]; [|done]. destruct (negb (mp_checks S) || intact k v); [|done].
      by injection Edup as ->. }
    eapply Hack. eapply goes_after; [exact HG2|done].
  - destruct (put_ok k d n2 w1 (go_working _ _ _ _ _ _ HG2) Hk) as (n3 & w3 & EP & HG3). rewrite (go_map _ _ _ _ _ _ HG2) in HG3.
    erewrite bind_step_Ok by exact EP. erewrite bind_step_Ok by reflexivity. eapply Hack.
    eapply goes_after; [eapply goes_trans; [exact HG2|exact HG3]|done].
Qed.

(** The frame handler of a node with a store, without a lifecycle runtime. *)
Definition receive (payload : bytes) : M (rnode P S * world) unit := FrameHandler limits maxFrameBytes None false None payload.
Fixpoint receive_all (frames : list bytes) : M (rnode P S * world) unit :=
  match frames with
  | [] => ret tt
  | f :: frames' => receive f ;; receive_all frames'
  end.

Lemma receive_ok payload msg n w n' w' :
  working n w → Decode payload limits = Ok msg →
  handleReplicationMessage limits maxFrameBytes false None msg (n, w) = (Ok tt, (n', w')) → receive payload (n, w) = (Ok tt, (n', w')).
Proof.
  intros Hw Hd Hh. unfold receive, FrameHandler. replace (if isLifecycleRepairPayload payload then None else None) with (@None (bytes → M (rnode P S * world) unit))
    by by destruct (isLifecycleRepairPayload payload).
  rewrite Hd. cbn [andb]. erewrite bind_step_Ok by by apply poll_ok. unfold attempt. by rewrite Hh.
Qed.

Lemma decode_outgoing o f : encode_message o limits = Ok f → Decode f limits = Ok (message_of o) ∧ message_ok (normalizeLimits limits) (message_of o).
Proof.
  intros Ho. destruct (encode_message_eq o limits) as [(e & E & _)|[E Hm]]; rewrite E in Ho; [done|]. injection Ho as <-.
  split; [by apply Decode_marshal|done].
Qed.

Lemma message_types : MessageTypeBlobHas ≠ MessageTypeBlobPut ∧ MessageTypeBlobMissing ≠ MessageTypeBlobPut ∧ MessageTypeBlobMissing ≠ MessageTypeBlobHas.
Proof. split_and!; intros E; vm_compute in E; discriminate E. Qed.

(** Keys of a message are not empty. *)
Lemma message_keys o : message_ok (normalizeLimits limits) (message_of o) →
  match o with OutHas keys | OutMissing keys => [] ∉ keys | OutPut k _ | OutGet k | OutAck k => k ≠ [] end.
Proof.
  intros Hm. assert (∀ k : bytes, 0 < len k → k ≠ []) as Hk by (by intros ? ? ->). assert (∀ ks : list bytes, Forall (λ k, 0 < len k <= MaxKeyBytes (normalizeLimits limits)) ks → [] ∉ ks) as Hks.
  { intros ks HF Hin. rewrite Forall_forall in HF. destruct (HF [] Hin) as [HF' _]. discriminate HF'. }
  destruct o; destruct Hm as [(E & Hm)|[([E|E] & Hm)|([E|E] & Hm)]]; cbn in E, Hm; try (exfalso; vm_compute in E; discriminate E); try (apply Hk; lia); apply Hks; apply Hm.
Qed.

Lemma receive_put k d f n w :
  working n w → EncodeBlobPut k d limits = Ok f → intact k d = true →
  (∀ g, EncodeBlobAck k limits = Ok g → len g <= or_default maxFrameBytes DefaultMaxFrameBytes) →
  ∃ n' w' fs, receive f (n, w) = (Ok tt, (n', w')) ∧ goes n w n' w' (<[k := d]> (node_map n w)) fs.
Proof.
  intros Hw Hf Hi Hfit. destruct (decode_outgoing (OutPut k d) f Hf) as [Hd Hm]. pose proof (message_keys _ Hm) as Hk.
  assert (is_Ok (EncodeBlobAck k limits) = true) as Ha.
  { destruct (encode_message_eq (OutAck k) limits) as [(e & _ & Hn)|[E _]]; [|by cbn in E; rewrite E]. exfalso. apply Hn. right; left.
    split; [by right|]. destruct Hm as [(_ & Hm & _)|[([E|E] & _)|([E|E] & _)]]; [exact Hm|..]; vm_compute in E; discriminate E. }
  destruct (handlePut_ok k d n w Hw Hk Hi Hfit Ha) as (n' & w' & fs & E & HG). exists n', w', fs. split; [|done].
  eapply receive_ok; [done|exact Hd|]. unfold handleReplicationMessage. by rewrite bool_decide_eq_true_2.
Qed.

Lemma receive_puts kds fs n w :
  working n w → put_frames kds fs → Forall (λ kd, intact kd.1 kd.2 = true) kds →
  Forall (λ kd, ∀ g, EncodeBlobAck kd.1 limits = Ok g → len g <= or_default maxFrameBytes DefaultMaxFrameBytes) kds →
  ∃ n' w' gs, receive_all fs (n, w) = (Ok tt, (n', w')) ∧
    goes n w n' w' (foldl (λ m kd, <[kd.1 := kd.2]> m) (node_map n w) kds) gs.
Proof.
  intros Hw HF. revert n w Hw. induction HF as [|[k d] f kds fs Hf HF IH]; intros n w Hw Hi Ha; cbn [receive_all foldl].
  { exists n, w, []. split; [done|]. by apply goes_same. }
  apply Forall_cons in Hi as [Hi1 Hi]. apply Forall_cons in Ha as [Ha1 Ha]. cbn in Hf, Hi1, Ha1.
  destruct (receive_put k d f n w Hw Hf Hi1 Ha1) as (n1 & w1 & fs1 & E1 & HG1). erewrite bind_step_Ok by exact E1.
  destruct (IH n1 w1 (go_working _ _ _ _ _ _ HG1) Hi Ha) as (n2 & w2 & fs2 & E2 & HG2). rewrite (go_map _ _ _ _ _ _ HG1) in HG2.
  exists n2, w2, (fs1 ++ fs2). split; [exact E2|]. by eapply goes_trans.
Qed.

(** What remains of a request is queued for the peer. *)
Definition queued n n' (deferred : list bytes) : Prop :=
  rn_repairs n' =
  match rn_repairs n with
  | None => None
  | Some es =>
      if len deferred =? 0 then Some es
      else let maxKeys := if MaxKeys limits <=? 0 then DefaultMaxKeys else MaxKeys limits in
           Some (schedule_entry (rn_addr n) (repairPeerKey (rp_peer (rn_rep n'))) deferred maxKeys es).1.1
  end.

Lemma Schedule_ok deferred n w :
  working n w → deferred ≠ [] → ∃ n', Schedule limits deferred (n, w) = (Ok tt, (n', w)) ∧ same_io n n' ∧ queued n n' deferred.
Proof.
  intros Hw Hne. assert (len deferred =? 0 = false) as El by (apply Z.eqb_neq; by intros ?%len_zero).
  unfold Schedule, queued. rewrite El. erewrite bind_step_Ok by reflexivity. cbn [fst].
  destruct (rn_repairs n) as [es|] eqn:Er; [|exists n; by rewrite Er]. unfold attempt. rewrite poll_ok by done. cbv zeta.
  set (mk := if MaxKeys limits <=? 0 then DefaultMaxKeys else MaxKeys limits).
  set (id := repairPeerKey (rp_peer (rn_rep n))).
  destruct (schedule_entry (rn_addr n) id deferred mk es) as [[es' dropped] launch] eqn:Ese.
  eexists. split; [do 3 (erewrite bind_step_Ok by reflexivity); reflexivity|]. cbn. unfold same_io. cbn. split; [done|]. fold id. by rewrite Ese.
Qed.

Lemma receive_missing keys f n w :
  working n w → EncodeBlobMissing keys limits = Ok f → fits (node_map n w) →
  let '(kds, deferred) := repair_plan limits (node_map n w) keys 0 in
  ∃ n' w' fs, receive f (n, w) = (Ok tt, (n', w')) ∧ working n' w' ∧ node_map n' w' = node_map n w ∧
    peer_sent (rp_peer (rn_rep n')) = peer_sent (rp_peer (rn_rep n)) ++ fs ∧ put_frames kds fs ∧ queued n n' deferred.
Proof.
  intros Hw Hf Hfits. destruct (decode_outgoing (OutMissing keys) f Hf) as [Hd Hm]. pose proof (message_keys _ Hm) as Hk. cbn in Hk.
  pose proof (send_requested_ok keys 0 n w Hw Hk Hfits) as Hs. destruct (repair_plan limits (node_map n w) keys 0) as [kds deferred].
  destruct Hs as (n1 & w1 & fs & E1 & HG & HF).
  assert (∃ n', (if 0 <? len deferred then Schedule limits deferred else ret tt) (n1, w1) = (Ok tt, (n', w1)) ∧ same_io n1 n' ∧ queued n1 n' deferred) as (n2 & E2 & Hio & Hq).
  { destruct (0 <? len deferred) eqn:El; bool_to_prop.
    - apply Schedule_ok; [exact (go_working _ _ _ _ _ _ HG)|]. intros ->. discriminate El.
    - exists n1. split; [done|]. split; [done|]. unfold queued. pose proof (len_nonneg deferred). assert (len deferred =? 0 = true) as -> by lia. by destruct (rn_repairs n1). }
  exists n2, w1, fs. destruct HG as [[W1 W2] Gm Gs [Gr Ga]], Hio as [Ip Is]. split_and!.
  - eapply receive_ok; [done|exact Hd|]. unfold handleReplicationMessage. destruct message_types as (_ & T2 & T3). cbn [MType message_of].
    rewrite !bool_decide_eq_false_2 by done. rewrite bool_decide_eq_true_2 by done. unfold handleMissing, sendRequestedBlobsResult.
    erewrite bind_step_Ok by exact E1. exact E2.
  - split; [by rewrite Is|by rewrite Ip].
  - unfold node_map in *. by rewrite Is.
  - by rewrite Ip.
  - done.
  - unfold queued in *. by rewrite Hq, Gr, Ga.
Qed.

Lemma receive_has keys f n w :
  working n w → EncodeBlobHas keys limits = Ok f →
  let missing := filter (λ k, holds (mp_checks S) (node_map n w) k = false) keys in
  (∀ g, EncodeBlobMissing missing limits = Ok g → len g <= or_default maxFrameBytes DefaultMaxFrameBytes) →
  ∃ n' w' fs, receive f (n, w) = (Ok tt, (n', w')) ∧ goes n w n' w' (node_map n w) fs ∧
    (missing = [] ∧ fs = [] ∨ ∃ g, EncodeBlobMissing missing limits = Ok g ∧ fs = [g]).
Proof.
  intros Hw Hf missing Hfit. destruct (decode_outgoing (OutHas keys) f Hf) as [Hd Hm]. pose proof (message_keys _ Hm) as Hk. cbn in Hk.
  destruct (handleHas_ok keys n w Hw Hk Hfit) as (n' & w' & fs & E & HG & Hfs).
  { intros Hne. destruct (encode_message_eq (OutMissing missing) limits) as [(e & _ & Hn)|[E _]];
      [|change (encode_message (OutMissing missing) limits) with (EncodeBlobMissing missing limits) in E; fold missing; by rewrite E]. exfalso. apply Hn.
    apply EncodeBlobHas_Ok in Hf as (_ & Hl & HF). rewrite inventoryBatchSize_normal in Hl. right; right. split; [by right|].
    change (MKeys (message_of (OutMissing missing))) with missing.
    assert (length missing <= length keys)%nat as Hlen by apply length_filter. split.
    - unfold len in *. assert (length missing ≠ 0%nat) by (intros E0; apply Hne; by apply nil_length_inv). lia.
    - apply Forall_forall. intros k [_ Hin]%list_elem_of_filter. rewrite Forall_forall in HF. by apply HF. }
  exists n', w', fs. split; [|done]. eapply receive_ok; [done|exact Hd|]. unfold handleReplicationMessage. destruct message_types as (T1 & _ & _).
  cbn [MType message_of MKeys]. rewrite (bool_decide_eq_false_2 _ T1), (bool_decide_eq_true_2 _ eq_refl). exact E.
Qed.
End quiet_handlers.

(** ** The plan of a repair *)

Section plan.
Context (limits : ReplicationLimits) (c : gmap bytes bytes).

Lemma plan_sound keys rb : let '(kds, deferred) := repair_plan limits c keys rb in
  Forall (λ kd, c !! kd.1 = Some kd.2 ∧ intact kd.1 kd.2 = true ∧ kd.1 ∈ keys) kds ∧ deferred ⊆ keys.
Proof.
  revert rb. induction keys as [|k keys IH]; intros rb; cbn [repair_plan]; [done|].
  assert (∀ rb, let '(kds, deferred) := repair_plan limits c keys rb in
    Forall (λ kd, c !! kd.1 = Some kd.2 ∧ intact kd.1 kd.2 = true ∧ kd.1 ∈ k :: keys) kds ∧ deferred ⊆ k :: keys) as Hskip.
  { intros rb'. specialize (IH rb'). destruct (repair_plan limits c keys rb') as [kds deferred]. destruct IH as [IH1 IH2]. split; [|set_solver].
    eapply Forall_impl; [exact IH1|]. intros kd (? & ? & ?). split_and!; [done|done|by right]. }
  destruct (c !! k) as [d|] eqn:Ed; [|apply Hskip]. destruct (intact k d) eqn:Ei; [cbn [negb]|apply Hskip]. destruct (_ && _); [done|].
  destruct (EncodeBlobPut k d limits); [|apply Hskip]. specialize (Hskip (rb + len d)).
  destruct (repair_plan limits c keys (rb + len d)) as [kds deferred]. destruct Hskip as [H1 H2]. split; [|done].
  constructor; [|done]. split_and!; [done|done|by left].
Qed.

Lemma plan_complete keys rb k d :
  k ∈ keys → c !! k = Some d → intact k d = true → is_Ok (EncodeBlobPut k d limits) = true →
  let '(kds, deferred) := repair_plan limits c keys rb in (k, d) ∈ kds ∨ k ∈ deferred.
Proof.
  intros Hin Hd Hi He. revert rb Hin. induction keys as [|x keys IH]; intros rb Hin; [by apply elem_of_nil in Hin|]. cbn [repair_plan].
  destruct (decide (k = x)) as [<-|Hne].
  - rewrite Hd, Hi. cbn [negb]. destruct (_ && _); [right; by left|]. destruct (EncodeBlobPut k d limits); [|done].
    destruct (repair_plan limits c keys (rb + len d)) as [kds deferred]. left. by left.
  - apply elem_of_cons in Hin as [?|Hin]; [done|].
    destruct (c !! x) as [v|]; [|by apply IH]. destruct (negb (intact x v)); [by apply IH|]. destruct (_ && _); [right; by right|].
    destruct (EncodeBlobPut x v limits); [|by apply IH]. specialize (IH (rb + len v) Hin).
    destruct (repair_plan limits c keys (rb + len v)) as [kds deferred]. destruct IH; [left; by right|by right].
Qed.

(** A request that fits the repair budget is answered at once. *)
Lemma plan_small keys rb :
  0 <= rb → rb + sum_len (omap (c !!.) keys) <= repair_budget limits → (repair_plan limits c keys rb).2 = [].
Proof.
  revert rb. induction keys as [|k keys IH]; intros rb Hrb Hs; [done|]. cbn [repair_plan].
  change (omap (c !!.) (k :: keys)) with (match c !! k with Some d => d :: omap (c !!.) keys | None => omap (c !!.) keys end) in Hs.
  destruct (c !! k) as [d|]; [|by apply IH]. change (sum_len (d :: omap (c !!.) keys)) with (len d + sum_len (omap (c !!.) keys)) in Hs.
  pose proof (len_nonneg d). pose proof (sum_len_nonneg (omap (c !!.) keys)).
  destruct (negb (intact k d)); [apply IH; lia|]. destruct ((0 <? rb) && (repair_budget limits <? rb + len d)) eqn:E; [lia|].
  destruct (EncodeBlobPut k d limits); [|apply IH; lia]. specialize (IH (rb + len d)).
  destruct (repair_plan limits c keys (rb + len d)). apply IH; lia.
Qed.

Lemma foldl_insert_lookup (m : gmap bytes bytes) kds k :
  Forall (λ kd, c !! kd.1 = Some kd.2) kds →
  foldl (λ m kd, <[kd.1 := kd.2]> m) m kds !! k = if decide (k ∈ kds.*1) then c !! k else m !! k.
Proof.
  revert m. induction kds as [|[x d] kds IH]; intros m Hc; cbn [foldl]; [done|]. apply Forall_cons in Hc as [Hx Hc]. cbn in Hx.
  rewrite IH by done. cbn [fmap list_fmap fst]. destruct (decide (k ∈ kds.*1)) as [Hin|Hnin].
  - rewrite decide_True; [done|by right].
  - cbn [fst snd]. destruct (decide (k = x)) as [->|Hne].
    + rewrite lookup_insert_eq, decide_True; [done|by left].
    + rewrite lookup_insert_ne, decide_False; [done| |done]. intros [?|?]%elem_of_cons; done.
Qed.
End plan.

(** ** Claims *)


(** *** A concrete round *)

Lemma fits_check (limits : ReplicationLimits) (maxFrameBytes : Z) (c : gmap bytes bytes) :
  map_Forall (λ k d, match EncodeBlobPut k d limits with
                     | Ok f => len f <=? or_default maxFrameBytes DefaultMaxFrameBytes
                     | Err _ => true
                     end = true) c → fits limits maxFrameBytes c.
Proof. intros HF k d f Hd Hf. specialize (HF k d Hd). cbn in HF. rewrite Hf in HF. lia. Qed.

Definition ex_limits0 : ReplicationLimits := mkReplicationLimits 0 0 0 0.
Definition ex_sender : gmap bytes bytes := {[lit "a" := lit "11"; lit "b" := lit "22"]}.
Definition ex_receiver : gmap bytes bytes := {[lit "b" := lit "33"]}.
Definition ex_has_ab : bytes := match EncodeBlobHas [lit "a"; lit "b"] ex_limits0 with Ok f => f | Err _ => [] end.

Lemma ex_rnode_working c : c !! [] = None → working (ex_rnode c) (ex_world []).
Proof. intros Hc. split; [|exact I]. split; [by split|]. by split. Qed.

