(* ===== verification/Delivery.v ===== *)
(** * Delivery of blobs with acknowledgements

    [sendBlobWithAck] of main.go with the delays between its attempts, the
    tracker it shares with the frame handler, and [syncLifecycleRawRecords],
    which delivers the blobs of lifecycle records before they are repaired.

    Senders run in goroutines.  A sender is a program counter over the shared
    tracker; what its [select] finds ready, whether a write succeeds and when an
    acknowledgement arrives are events.  The critical sections of the tracker
    are its operations of Replicate.v. *)
From S2P Require Import Prelude Go Bits Text Json Os Model Codec Journal Transport Repair Blobs Inventory Applier Session Runtime Protocol Peers Wire Exchange Replicate.

(** ** Durations, in nanoseconds *)

Definition Second : Z := 1000000000.
Definition maxPutRetryDelay : Z := 500000000.
Definition maxDuration : Z := 2 ^ 63 - 1.
Definition maxPutRetries : Z := 10.

Fixpoint doubled (attempt : nat) (delay : Z) : Z :=
  match attempt with
  | O => if maxPutRetryDelay <? delay then maxPutRetryDelay else delay
  | S attempt' => if maxPutRetryDelay / 2 <=? delay then maxPutRetryDelay else doubled attempt' (delay * 2)
  end.
Definition retryDelayForAttempt (base : Z) (attempt : nat) : Z :=
  if base <=? 0 then 0 else if maxPutRetryDelay <=? base then maxPutRetryDelay else doubled attempt base.

(** On [int64]. *)
Definition addDuration (left right : Z) : Z :=
  if (0 <? right) && (maxDuration - right <? left) then maxDuration else to_int64 (left + right).

Definition add_times (times : nat) (ackTimeout total : Z) : Z := Nat.iter times (λ total, addDuration total ackTimeout) total.
Fixpoint add_delays (attempt retries : nat) (retryDelay total : Z) : Z :=
  match retries with
  | O => total
  | S retries' => add_delays (S attempt) retries' retryDelay (addDuration total (retryDelayForAttempt retryDelay attempt))
  end.
Definition putWaitTimeout (ackTimeout retryDelay : Z) (retries : nat) : Z :=
  add_delays 0 retries retryDelay (add_times (S retries) ackTimeout Second).

(** ** One sender *)

Inductive deliveryKind := WriteError | AckTimeout | Canceled.
Record blobDeliveryError := mkDeliveryError { de_kind : deliveryKind; de_attempts : nat; de_err : error }.
Definition errBlobAckTimeout : error := ErrText (lit "replication: timed out waiting for blob acknowledgment").
Definition outcome_name (r : option deliveryKind) : bytes :=
  match r with
  | None => lit "accepted" | Some AckTimeout => lit "ack-timeout" | Some WriteError => lit "write-error" | Some Canceled => lit "canceled"
  end.

(** Where a sender stands; [c] is the channel it waits on.  [PAccepted] is the
    return of nil. *)
Inductive sender_pc :=
  | PRegister (attempt : nat)
  | PWrite (attempt c : nat)
  | PSelect (attempt c : nat)
  | PSleep (attempt : nat)
  | PAccepted (attempt c : nat)
  | PFailed (e : blobDeliveryError).
Record sender := mkSender { sd_remote : bytes; sd_key : bytes; sd_bytes : Z; sd_retries : nat; sd_waited : Z; sd_pc : sender_pc }.

(** What a blocked sender finds: the end of a write, or what its [select] or
    its sleep ends with, after [elapsed] nanoseconds. *)
Inductive sender_event :=
  | EvRun
  | EvWritten (r : result unit)
  | EvAcked (elapsed : Z) | EvDone (elapsed : Z) | EvTimer (elapsed : Z)
  | EvSlept | EvSleepDone (elapsed : Z).

Section sender.
Context (ackTimeout retryDelay : Z).

Definition at_pc (s : sender) (elapsed : Z) (pc : sender_pc) : sender :=
  mkSender (sd_remote s) (sd_key s) (sd_bytes s) (sd_retries s) (sd_waited s + elapsed) pc.

(** One step: the sender, the tracker and the changes of the counters. *)
Definition sender_step (ev : sender_event) (s : sender) (t : putAckTracker) : option (sender * putAckTracker * list (repl_metric * Z)) :=
  match sd_pc s, ev with
  | PRegister attempt, EvRun =>
      if (sd_retries s <? attempt)%nat
      then Some (at_pc s 0 (PFailed (mkDeliveryError AckTimeout (S (sd_retries s)) errBlobAckTimeout)), t, [])
      else let '(c, t', cs) := tracker_register (sd_remote s) (sd_key s) t in Some (at_pc s 0 (PWrite attempt c), t', cs)
  | PWrite attempt c, EvWritten (Err e) =>
      let '(_, t', cs) := tracker_remove (sd_remote s) (sd_key s) t in
      Some (at_pc s 0 (PFailed (mkDeliveryError WriteError (S attempt) (EWrap e))), t',
            cs ++ [(SendErrors, 1); (BlobWriteErrors, 1); (BlobPutFailures, 1)])
  | PWrite attempt c, EvWritten (Ok _) =>
      Some (at_pc s 0 (PSelect attempt c), t, [(BlobsSent, 1); (BytesSent, sd_bytes s)])
  | PSelect attempt c, EvAcked elapsed =>
      if bool_decide (c ∈ tr_closed t) && (0 <=? elapsed) && (elapsed <=? ackTimeout)
      then Some (at_pc s elapsed (PAccepted attempt c), t, [(BlobPutsAccepted, 1)])
      else None
  | PSelect attempt c, EvDone elapsed =>
      if (0 <=? elapsed) && (elapsed <=? ackTimeout) then
        let '(removed, t', cs) := tracker_remove (sd_remote s) (sd_key s) t in
        if negb removed then Some (at_pc s elapsed (PAccepted attempt c), t', cs ++ [(BlobPutsAccepted, 1)])
        else Some (at_pc s elapsed (PFailed (mkDeliveryError Canceled (S attempt) ErrContext)), t', cs ++ [(BlobPutFailures, 1)])
      else None
  | PSelect attempt c, EvTimer elapsed =>
      if elapsed =? ackTimeout then
        let '(removed, t', cs) := tracker_remove (sd_remote s) (sd_key s) t in
        if negb removed then Some (at_pc s elapsed (PAccepted attempt c), t', cs ++ [(BlobPutsAccepted, 1)])
        else if (attempt =? sd_retries s)%nat
        then Some (at_pc s elapsed (PFailed (mkDeliveryError AckTimeout (S attempt) errBlobAckTimeout)), t',
                   cs ++ [(BlobAckTimeouts, 1); (BlobPutFailures, 1)])
        else Some (at_pc s elapsed (PSleep attempt), t', cs ++ [(BlobAckTimeouts, 1); (BlobRetries, 1)])
      else None
  | PSleep attempt, EvSlept =>
      Some (at_pc s (retryDelayForAttempt retryDelay attempt) (PRegister (S attempt)), t, [])
  | PSleep attempt, EvSleepDone elapsed =>
      if (0 <=? elapsed) && (elapsed <=? retryDelayForAttempt retryDelay attempt)
      then Some (at_pc s elapsed (PFailed (mkDeliveryError Canceled (S attempt) ErrContext)), t, [(BlobPutFailures, 1)])
      else None
  | _, _ => None
  end.

(** ** The senders of a node *)

(** [dl_acked] lists the acknowledgements that were matched, with the channel
    each one closed. *)
Record deliveries := mkDeliveries {
  dl_tracker : putAckTracker;
  dl_senders : gmap nat sender;
  dl_metrics : replicationMetrics;
  dl_acked : list (bytes * bytes * nat)
}.
Definition no_deliveries : deliveries := mkDeliveries newPutAckTracker ∅ (λ _, 0) [].

Inductive delivery_action :=
  | Spawn (i : nat) (remote key : bytes) (size : Z) (retries : nat)
  | Run (i : nat) (ev : sender_event)
  | Acked (remote key : bytes).

Definition delivery_step (a : delivery_action) (n : deliveries) : option deliveries :=
  match a with
  | Spawn i remote key size retries =>
      match dl_senders n !! i with
      | Some _ => None
      | None => Some (mkDeliveries (dl_tracker n) (<[i := mkSender remote key size retries 0 (PRegister 0)]> (dl_senders n))
                        (dl_metrics n) (dl_acked n))
      end
  | Run i ev =>
      match dl_senders n !! i with
      | None => None
      | Some s =>
          match sender_step ev s (dl_tracker n) with
          | None => None
          | Some (s', t', cs) =>
              Some (mkDeliveries t' (<[i := s']> (dl_senders n)) (apply_counts cs (dl_metrics n)) (dl_acked n))
          end
      end
  | Acked remote key =>
      let '(_, t', cs) := tracker_ack remote key (dl_tracker n) in
      Some (mkDeliveries t' (dl_senders n) (apply_counts ((BlobAcksReceived, 1) :: cs) (dl_metrics n))
              (match tr_pending (dl_tracker n) !! (remote, key) with Some c => (remote, key, c) :: dl_acked n | None => dl_acked n end))
  end.
Definition delivery_steps (acts : list delivery_action) (n : deliveries) : option deliveries :=
  foldl (λ n a, n ≫= delivery_step a) (Some n) acts.

Inductive reached (allowed : delivery_action → deliveries → Prop) : deliveries → Prop :=
  | reached_start : reached allowed no_deliveries
  | reached_step n a n' : reached allowed n → allowed a n → delivery_step a n = Some n' → reached allowed n'.
End sender.

(** ** Blobs of lifecycle records *)

(** [deliver] is [sendBlobWithAck] to the peer. *)
Section raw_records.
Context {S : Type} `{BlobStore S}.
Context (limits : ReplicationLimits) (deliver : bytes → bytes → Z → M (S * world) unit).

Definition sync_record (r : record) : M (S * world) unit :=
  attempt (bs_Get (BlobKey r)) (λ got,
  match got with
  | Err e => if errors_Is e storage_ErrNotFound then throw (EJoin ErrLifecycleBlobMissing e) else throw e
  | Ok data =>
      lift (VerifySHA256Key (BlobKey r) data) ;;
      payload <- lift (EncodeBlobPut (BlobKey r) data limits) ;
      deliver payload (BlobKey r) (len data)
  end).
Fixpoint sync_records (records : list record) : M (S * world) unit :=
  match records with
  | [] => ret tt
  | r :: records' => sync_record r ;; sync_records records'
  end.
Definition syncLifecycleRawRecords (nil_store : bool) (records : list record) : M (S * world) unit :=
  if len records =? 0 then ret tt
  else if nil_store then throw (ErrText (lit "lifecycle: raw blob preflight store unavailable"))
  else sync_records records.

(** The blob of [r] was read, matched its key and was delivered. *)
Definition delivered (r : record) : Prop := ∃ data payload x y z,
  bs_Get (BlobKey r) x = (Ok data, y) ∧ VerifySHA256Key (BlobKey r) data = Ok tt ∧
  EncodeBlobPut (BlobKey r) data limits = Ok payload ∧ deliver payload (BlobKey r) (len data) y = (Ok tt, z).
End raw_records.

Definition accepted (s : sender) : bool := match sd_pc s with PAccepted _ _ => true | _ => false end.
Definition failed (s : sender) : bool := match sd_pc s with PFailed _ => true | _ => false end.
Definition finished (s : sender) : bool := accepted s || failed s.
Definition waits_on (s : sender) : option nat :=
  match sd_pc s with PWrite _ c | PSelect _ c => Some c | _ => None end.
Definition sends (s : sender) (remote key : bytes) : Prop := sd_remote s = remote ∧ sd_key s = key.

Definition anything (a : delivery_action) (n : deliveries) : Prop := True.
(** A key is sent to a remote by one sender at a time. *)
Definition alone (a : delivery_action) (n : deliveries) : Prop :=
  match a with
  | Spawn _ remote key _ _ => map_Forall (λ _ s, sends s remote key → finished s = true) (dl_senders n)
  | _ => True
  end.
#[export] Instance alone_dec a n : Decision (alone a n).
Proof. destruct a; unfold alone, sends; apply _. Defined.

(** ** Counters *)

Definition wrap (m : repl_metric) (z : Z) : Z := if repl_gauge m then to_int64 z else z mod 2 ^ 64.
Definition gain (m : repl_metric) (cs : list (repl_metric * Z)) : Z :=
  foldr (λ c z, if bool_decide (c.1 = m) then c.2 + z else z) 0 cs.

Lemma wrap_add m a b : wrap m (wrap m a + b) = wrap m (a + b).
Proof.
  unfold wrap, to_int64. destruct (repl_gauge m).
  - replace ((a + 2 ^ 63) mod 2 ^ 64 - 2 ^ 63 + b + 2 ^ 63) with ((a + 2 ^ 63) mod 2 ^ 64 + b) by lia.
    rewrite Zplus_mod_idemp_l. do 2 f_equal. lia.
  - apply Zplus_mod_idemp_l.
Qed.
Lemma repl_add_wrap m d x ms v : ms m = wrap m v → repl_add x d ms m = wrap m (v + (if bool_decide (x = m) then d else 0)).
Proof.
  intros Hv. unfold repl_add, repl_store. case_bool_decide as Hm; [subst|]; case_bool_decide; try congruence.
  - fold (wrap x (ms x + d)). by rewrite Hv, wrap_add.
  - by rewrite Z.add_0_r.
Qed.
(** What [apply_counts] adds to a counter. *)
Lemma apply_counts_wrap m cs ms v : ms m = wrap m v → apply_counts cs ms m = wrap m (v + gain m cs).
Proof.
  unfold apply_counts. revert ms v. induction cs as [|[x d] cs IH]; intros ms v Hv; cbn.
  - by rewrite Z.add_0_r.
  - rewrite (IH _ (v + (if bool_decide (x = m) then d else 0))) by by apply repl_add_wrap.
    f_equal. fold (gain m cs). case_bool_decide; lia.
Qed.
Lemma gain_app m a b : gain m (a ++ b) = gain m a + gain m b.
Proof. induction a as [|[x d] a IH]; [done|]. cbn. fold (gain m (a ++ b)) (gain m a). rewrite IH. case_bool_decide; lia. Qed.

(** How many goroutines a predicate holds of. *)
Definition tally_of {A} (P : A → bool) (m : gmap nat A) : Z := Z.of_nat (size (filter (λ p, P p.2 = true) m)).
Lemma tally_insert {A} (P : A → bool) m i x :
  tally_of P (<[i:=x]> m) = tally_of P m - from_option (λ y, Z.b2z (P y)) 0 (m !! i) + Z.b2z (P x).
Proof.
  unfold tally_of. destruct (P x) eqn:EP; cbn [Z.b2z].
  - rewrite map_filter_insert_True by done. destruct (m !! i) as [y|] eqn:E; cbn; [destruct (P y) eqn:Ey; cbn [Z.b2z]|].
    + rewrite map_size_insert_Some; [lia|]. exists y. by apply map_lookup_filter_Some.
    + rewrite map_size_insert_None; [lia|]. apply map_lookup_filter_None. right. intros ? Hy. simplify_eq. cbn. congruence.
    + rewrite map_size_insert_None; [lia|]. apply map_lookup_filter_None. by left.
  - rewrite map_filter_insert_False by (cbn; congruence). rewrite map_filter_delete.
    destruct (m !! i) as [y|] eqn:E; cbn; [destruct (P y) eqn:Ey; cbn [Z.b2z]|].
    + rewrite map_size_delete_Some by (exists y; by apply map_lookup_filter_Some).
      assert (size (filter (λ p, P p.2 = true) m) ≠ 0%nat); [|lia].
      apply (map_size_ne_0_lookup_2 _ i). exists y. by apply map_lookup_filter_Some.
    + rewrite delete_id; [lia|]. apply map_lookup_filter_None. right. intros ? Hy. simplify_eq. cbn. congruence.
    + rewrite delete_id; [lia|]. apply map_lookup_filter_None. by left.
Qed.

(** ** Delays *)

Lemma doubled_spec attempt delay : 0 < delay → doubled attempt delay = Z.min maxPutRetryDelay (delay * 2 ^ Z.of_nat attempt).
Proof.
  revert delay. induction attempt as [|attempt IH]; intros delay Hd; cbn [doubled].
  - rewrite Z.mul_1_r. destruct (Z.ltb_spec maxPutRetryDelay delay); lia.
  - rewrite Nat2Z.inj_succ, Z.pow_succ_r by lia.
    assert (1 <= 2 ^ Z.of_nat attempt) by (apply Z.lt_pred_le, Z.pow_pos_nonneg; lia).
    change (maxPutRetryDelay / 2) with 250000000. destruct (Z.leb_spec 250000000 delay).
    + rewrite Z.min_l; [done|]. unfold maxPutRetryDelay. nia.
    + rewrite IH by lia. f_equal. lia.
Qed.
Lemma retryDelayForAttempt_spec base attempt : retryDelayForAttempt base attempt = Z.max 0 (Z.min maxPutRetryDelay (base * 2 ^ Z.of_nat attempt)).
Proof.
  unfold retryDelayForAttempt. assert (1 <= 2 ^ Z.of_nat attempt) by (apply Z.lt_pred_le, Z.pow_pos_nonneg; lia).
  destruct (Z.leb_spec base 0); [unfold maxPutRetryDelay; nia|].
  destruct (Z.leb_spec maxPutRetryDelay base); [unfold maxPutRetryDelay in *; nia|].
  rewrite doubled_spec by done. unfold maxPutRetryDelay in *. nia.
Qed.

(** The delays after the first [attempts] attempts. *)
Fixpoint delays (base : Z) (attempts : nat) : Z :=
  match attempts with O => 0 | S attempts' => delays base attempts' + retryDelayForAttempt base attempts' end.

Lemma retry_delay_bounds base attempt : 0 <= retryDelayForAttempt base attempt <= maxPutRetryDelay.
Proof. rewrite retryDelayForAttempt_spec. unfold maxPutRetryDelay. lia. Qed.
Lemma delays_mono base a b : (a <= b)%nat → 0 <= delays base a <= delays base b.
Proof.
  assert (∀ n, 0 <= delays base n) by (induction n; cbn; [|pose proof (retry_delay_bounds base n)]; lia).
  induction 1 as [|b Hb IH]; [auto with lia|]. cbn. pose proof (retry_delay_bounds base b). lia.
Qed.
Lemma addDuration_min a b : 0 <= a → 0 <= b <= maxDuration → addDuration (Z.min maxDuration a) b = Z.min maxDuration (a + b).
Proof.
  unfold addDuration, maxDuration, to_int64. intros Ha Hb. destruct (Z.ltb_spec 0 b); cbn [andb].
  - destruct (Z.ltb_spec (2 ^ 63 - 1 - b) (Z.min (2 ^ 63 - 1) a)); [lia|]. rewrite Z.mod_small; lia.
  - replace b with 0 by lia. rewrite Z.mod_small; lia.
Qed.
Lemma add_times_min n ack a : 0 <= a → 0 <= ack <= maxDuration →
  add_times n ack (Z.min maxDuration a) = Z.min maxDuration (a + Z.of_nat n * ack).
Proof.
  intros Ha Hack. unfold add_times. induction n as [|n IH]; cbn [Nat.iter nat_rect]; [f_equal; lia|].
  unfold Nat.iter in IH. rewrite IH, addDuration_min by nia. f_equal. lia.
Qed.
Lemma add_delays_min base retries attempt a : 0 <= a →
  add_delays attempt retries base (Z.min maxDuration a) = Z.min maxDuration (a + (delays base (attempt + retries) - delays base attempt)).
Proof.
  revert attempt a. induction retries as [|retries IH]; intros attempt a Ha; cbn [add_delays].
  - rewrite Nat.add_0_r. f_equal. lia.
  - pose proof (retry_delay_bounds base attempt) as Hd.
    rewrite addDuration_min, IH by (unfold maxDuration, maxPutRetryDelay in *; lia).
    rewrite <- Nat.add_succ_comm. cbn [delays]. f_equal. lia.
Qed.
(** The sum of all waits, saturating at the largest duration. *)
Lemma putWaitTimeout_sum ack base retries : 0 <= ack <= maxDuration →
  putWaitTimeout ack base retries = Z.min maxDuration (Second + Z.of_nat (S retries) * ack + delays base retries).
Proof.
  intros Hack. unfold putWaitTimeout. replace Second with (Z.min maxDuration Second) at 1 by done.
  rewrite add_times_min, add_delays_min by (unfold Second; nia). f_equal. cbn [Nat.add delays]. lia.
Qed.

(** ** Every sender ends, is counted once and within its time *)

Section runs.
Context (ackTimeout retryDelay : Z).
#[local] Abbreviation step := (sender_step ackTimeout retryDelay).
#[local] Abbreviation reached' := (reached ackTimeout retryDelay).

(** The attempt a sender is at and the longest it can have waited there. *)
Definition attempts_ok (s : sender) : Prop :=
  match sd_pc s with
  | PRegister a | PWrite a _ | PSelect a _ | PAccepted a _ => (a <= sd_retries s)%nat
  | PSleep a => (a < sd_retries s)%nat
  | PFailed e => (1 <= de_attempts e <= S (sd_retries s))%nat
  end.
Definition longest (s : sender) : Z :=
  match sd_pc s with
  | PRegister a | PWrite a _ | PSelect a _ => Z.of_nat a * ackTimeout + delays retryDelay a
  | PSleep a | PAccepted a _ => Z.of_nat (S a) * ackTimeout + delays retryDelay a
  | PFailed _ => Z.of_nat (S (sd_retries s)) * ackTimeout + delays retryDelay (sd_retries s)
  end.
Record sender_ok (s : sender) : Prop := {
  so_attempts : attempts_ok s;
  so_waited : 0 <= sd_waited s <= longest s
}.

(** The steps of a sender, one case each. *)
Ltac sender_cases s ev H :=
  destruct s as [r k b n w pc]; cbn in *;
  destruct pc as [a|a c|a c|a|a c|e], ev as [|[[]|e']|el|el|el| |el]; try discriminate H;
  unfold sender_step, tracker_register, tracker_remove in H; cbn -[Nat.ltb Nat.eqb] in H;
  repeat case_match; simplify_eq; cbn -[Nat.ltb Nat.eqb] in *; rewrite ?andb_true_iff in *; destruct_and?;
  rewrite ?Nat.ltb_lt, ?Nat.ltb_ge, ?Nat.eqb_eq, ?Nat.eqb_neq, ?Z.leb_le, ?Z.eqb_eq, ?bool_decide_eq_true in *.

Lemma step_ok ev s t s' t' cs : 0 <= ackTimeout → step ev s t = Some (s', t', cs) → sender_ok s → sender_ok s'.
Proof.
  intros Hack H [Ha Hw]. unfold attempts_ok, longest in *. sender_cases s ev H; try lia.
  all: split; unfold attempts_ok, longest; cbn -[Z.of_nat]; try lia.
  all: pose proof (delays_mono retryDelay a n ltac:(lia)); try nia.
  all: pose proof (retry_delay_bounds retryDelay a); try nia.
  pose proof (delays_mono retryDelay (S a) n ltac:(lia)) as Hm; cbn [delays] in Hm; nia.
Qed.
Lemma step_same ev s t s' t' cs : step ev s t = Some (s', t', cs) →
  sd_remote s' = sd_remote s ∧ sd_key s' = sd_key s ∧ sd_retries s' = sd_retries s ∧ finished s = false.
Proof. intros H. sender_cases s ev H; done. Qed.
(** A sender that ends adds one to one of two counters. *)
Lemma step_gains ev s t s' t' cs : step ev s t = Some (s', t', cs) → attempts_ok s →
  gain BlobPutsAccepted cs = Z.b2z (accepted s') ∧ gain BlobPutFailures cs = Z.b2z (failed s').
Proof. intros H Ha. unfold attempts_ok in Ha. sender_cases s ev H; try done; lia. Qed.

Lemma reached_mono (P Q : delivery_action → deliveries → Prop) n : (∀ a n, P a n → Q a n) → reached' P n → reached' Q n.
Proof. intros HPQ. induction 1; econstructor; eauto. Qed.
Lemma reached_ok n : 0 <= ackTimeout → reached' anything n → map_Forall (λ _, sender_ok) (dl_senders n).
Proof.
  intros Hack. induction 1 as [|n a n' Hr IH _ Hs]; [apply map_Forall_empty|].
  destruct a; cbn in Hs; repeat case_match; simplify_eq; cbn; try done; (apply map_Forall_insert_2; [|done]).
  - split; unfold attempts_ok, longest; cbn; lia.
  - eapply step_ok; eauto.
Qed.

Lemma reached_counted n : 0 <= ackTimeout → reached' anything n →
  dl_metrics n BlobPutsAccepted = tally_of accepted (dl_senders n) mod 2 ^ 64 ∧
  dl_metrics n BlobPutFailures = tally_of failed (dl_senders n) mod 2 ^ 64.
Proof.
  intros Hack. induction 1 as [|n a n' Hr IH _ Hs]; [done|]. pose proof (reached_ok n Hack Hr) as Hok. destruct IH as [IHa IHf].
  destruct a as [i r k b m|i ev|r k]; cbn [delivery_step] in Hs.
  - destruct (dl_senders n !! i) eqn:E; [done|]. injection Hs as <-. cbn.
    rewrite !tally_insert, E. cbn. by rewrite !Z.sub_0_r, !Z.add_0_r.
  - destruct (dl_senders n !! i) as [s|] eqn:E; [|done].
    destruct (step ev s (dl_tracker n)) as [[[s' t'] cs]|] eqn:Es; [|done]. injection Hs as <-. cbn.
    destruct (step_gains _ _ _ _ _ _ Es (so_attempts _ (Hok _ _ E))) as [Ga Gf].
    destruct (step_same _ _ _ _ _ _ Es) as (_ & _ & _ & [Hna Hnf]%orb_false_iff).
    rewrite !tally_insert, E. cbn. rewrite Hna, Hnf, !Z.sub_0_r.
    rewrite (apply_counts_wrap BlobPutsAccepted _ _ _ IHa), (apply_counts_wrap BlobPutFailures _ _ _ IHf), Ga, Gf. done.
  - destruct (tracker_ack r k (dl_tracker n)) as [[b t'] cs] eqn:Et. injection Hs as <-. cbn [dl_metrics dl_senders].
    assert (gain BlobPutsAccepted cs = 0 ∧ gain BlobPutFailures cs = 0) as [G1 G2].
    { unfold tracker_ack in Et. case_match; by simplify_eq. }
    set (ms := repl_add BlobAcksReceived 1 (dl_metrics n)).
    rewrite (apply_counts_wrap BlobPutsAccepted cs ms _ IHa), (apply_counts_wrap BlobPutFailures cs ms _ IHf).
    by rewrite G1, G2, !Z.add_0_r.
Qed.

(** ** Acknowledgements *)

Definition busy (n : deliveries) (i : nat) (remote key : bytes) : Prop :=
  ∃ s, dl_senders n !! i = Some s ∧ finished s = false ∧ sends s remote key.

(** Each channel of the tracker is the one its only sender waits on; the channel
    of a waiting or accepted sender that is not in the tracker was closed by an
    acknowledgement. *)
Record acks_ok (n : deliveries) : Prop := {
  ao_alone i j remote key : busy n i remote key → busy n j remote key → i = j;
  ao_pending remote key c : tr_pending (dl_tracker n) !! (remote, key) = Some c →
    (c < tr_next (dl_tracker n))%nat ∧ c ∉ tr_closed (dl_tracker n) ∧
    ∃ i s, dl_senders n !! i = Some s ∧ sends s remote key ∧ waits_on s = Some c;
  ao_inj id id' c : tr_pending (dl_tracker n) !! id = Some c → tr_pending (dl_tracker n) !! id' = Some c → id = id';
  ao_closed c : c ∈ tr_closed (dl_tracker n) → (c < tr_next (dl_tracker n))%nat;
  ao_waiting i s c : dl_senders n !! i = Some s → waits_on s = Some c →
    tr_pending (dl_tracker n) !! (sd_remote s, sd_key s) = Some c ∨
    tr_pending (dl_tracker n) !! (sd_remote s, sd_key s) = None ∧ (sd_remote s, sd_key s, c) ∈ dl_acked n;
  ao_accepted i s a c : dl_senders n !! i = Some s → sd_pc s = PAccepted a c → (sd_remote s, sd_key s, c) ∈ dl_acked n;
  ao_gauge : dl_metrics n BlobAcksPending = to_int64 (Z.of_nat (size (tr_pending (dl_tracker n))))
}.

(** What a step of the only sender of a key does to the tracker. *)
Lemma step_tracker ev s t s' t' cs : step ev s t = Some (s', t', cs) →
  tr_closed t' = tr_closed t ∧ (tr_next t <= tr_next t')%nat ∧
  (match waits_on s' with
   | Some c => tr_pending t' = tr_pending t ∧ waits_on s = Some c ∧ gain BlobAcksPending cs = 0 ∨
               c = tr_next t ∧ tr_next t' = S c ∧ waits_on s = None ∧ gain BlobAcksPending cs = 1 ∧
               tr_pending t' = <[(sd_remote s, sd_key s) := c]> (tr_pending t)
   | None => tr_pending t' = delete (sd_remote s, sd_key s) (tr_pending t) ∧
             gain BlobAcksPending cs = (if tr_pending t !! (sd_remote s, sd_key s) then -1 else 0) ∨
             tr_pending t' = tr_pending t ∧ gain BlobAcksPending cs = 0 ∧
             (waits_on s = None ∨ ∃ c, waits_on s = Some c ∧ c ∈ tr_closed t)
   end) ∧
  (∀ a c, sd_pc s' = PAccepted a c → waits_on s = Some c ∧ (c ∈ tr_closed t ∨ tr_pending t !! (sd_remote s, sd_key s) = None)).
Proof.
  intros H. sender_cases s ev H; repeat match goal with H : tr_pending _ !! _ = _ |- _ => rewrite H end;
    rewrite ?delete_id by done; repeat (split || intros); simplify_eq; eauto 10 with lia.
Qed.

Lemma waits_not_finished s c : waits_on s = Some c → finished s = false.
Proof. unfold waits_on, finished, accepted, failed. by destruct (sd_pc s). Qed.
Lemma pending_waits n i s c : acks_ok n → dl_senders n !! i = Some s → finished s = false →
  tr_pending (dl_tracker n) !! (sd_remote s, sd_key s) = Some c → waits_on s = Some c.
Proof.
  intros Hok Hi Hf Hp. destruct (ao_pending _ Hok _ _ _ Hp) as (_ & _ & j & sj & Hj & Hs & Hw).
  assert (j = i) as ->; [|by simplify_eq].
  eapply (ao_alone _ Hok); [exists sj|exists s]; split_and!; eauto using waits_not_finished; done.
Qed.

(** What the tracker holds after a step of a sender. *)
Lemma step_pending n i s ev s' t' cs : acks_ok n → dl_senders n !! i = Some s → step ev s (dl_tracker n) = Some (s', t', cs) →
  let id := (sd_remote s, sd_key s) in
  (∀ id', id' ≠ id → tr_pending t' !! id' = tr_pending (dl_tracker n) !! id') ∧
  (∀ c, tr_pending t' !! id = Some c →
     waits_on s' = Some c ∧ (c < tr_next t')%nat ∧ c ∉ tr_closed t' ∧
     ∀ id', id' ≠ id → tr_pending (dl_tracker n) !! id' ≠ Some c) ∧
  (∀ c, waits_on s' = Some c → tr_pending t' !! id = Some c ∨ tr_pending t' !! id = None ∧ (id, c) ∈ dl_acked n) ∧
  Z.of_nat (size (tr_pending t')) = Z.of_nat (size (tr_pending (dl_tracker n))) + gain BlobAcksPending cs.
Proof.
  intros Hok Hi Hstep id. destruct (step_same _ _ _ _ _ _ Hstep) as (_ & _ & _ & Hf).
  destruct (step_tracker _ _ _ _ _ _ Hstep) as (Hcl & Hnext & Hp & _).
  assert (∀ c, tr_pending (dl_tracker n) !! id = Some c → waits_on s = Some c) as Hown by eauto using pending_waits.
  assert (∀ c, tr_pending (dl_tracker n) !! id = Some c → (c < tr_next (dl_tracker n))%nat ∧ c ∉ tr_closed (dl_tracker n) ∧
     ∀ id', id' ≠ id → tr_pending (dl_tracker n) !! id' ≠ Some c) as Hold.
  { intros c Hc. destruct (ao_pending _ Hok _ _ _ Hc) as (? & ? & _). split_and!; [done..|]. intros id' Hne Hc'. apply Hne.
    by eapply (ao_inj _ Hok). }
  rewrite Hcl. destruct (waits_on s') as [c'|] eqn:Ew; destruct Hp as [Hp|Hp]; destruct_and?.
  - rewrite H. split_and!; [done| |intros ? [= <-]; by eapply (ao_waiting _ Hok)|lia].
    intros c Hc. destruct (Hold c Hc) as (? & ? & ?). pose proof (Hown c Hc). split_and!; auto; congruence || lia.
  - subst c'. assert (tr_pending (dl_tracker n) !! id = None) as Hnone.
    { apply eq_None_not_Some. intros [c E]. apply Hown in E. congruence. }
    rewrite H4. split_and!.
    + intros. by rewrite lookup_insert_ne.
    + intros c. rewrite lookup_insert_eq. intros [= <-]. split_and!; [done|lia| |].
      * intros Hc%(ao_closed _ Hok). lia.
      * intros [r' k'] _ Hc%(ao_pending _ Hok). lia.
    + intros c [= <-]. left. apply lookup_insert_eq.
    + rewrite map_size_insert_None by done. lia.
  - rewrite H. split_and!.
    + intros. by rewrite lookup_delete_ne.
    + intros c. by rewrite lookup_delete_eq.
    + done.
    + rewrite H0. destruct (tr_pending (dl_tracker n) !! _) eqn:E.
      * rewrite map_size_delete_Some by done. pose proof (map_size_ne_0_lookup_2 _ _ (mk_is_Some _ _ E)). lia.
      * rewrite delete_id by done. lia.
  - rewrite H. split_and!; [done| |done|lia]. intros c Hc. exfalso. destruct (Hold c Hc) as (_ & Hn & _). apply Hown in Hc.
    destruct H2 as [|(c0 & ? & ?)]; simplify_eq; done.
Qed.

Lemma busy_insert t ms acked senders i s j r k : busy (mkDeliveries t (<[i:=s]> senders) ms acked) j r k →
  j = i ∧ finished s = false ∧ sends s r k ∨ j ≠ i ∧ ∃ s0, senders !! j = Some s0 ∧ finished s0 = false ∧ sends s0 r k.
Proof.
  intros (sj & Hj & ? & ?). cbn in Hj. apply lookup_insert_Some in Hj as [[-> ->]|[? ?]]; [by left|right]. split; [done|]. by exists sj.
Qed.

Lemma spawn_acks n i r k b m : acks_ok n → dl_senders n !! i = None → alone (Spawn i r k b m) n →
  acks_ok (mkDeliveries (dl_tracker n) (<[i := mkSender r k b m 0 (PRegister 0)]> (dl_senders n)) (dl_metrics n) (dl_acked n)).
Proof.
  intros Hok Hi Hal. split; cbn [dl_tracker dl_senders dl_metrics dl_acked]; try apply Hok.
  - assert (∀ j s0 r' k', dl_senders n !! j = Some s0 → finished s0 = false → sends s0 r' k' →
      sends (mkSender r k b m 0 (PRegister 0)) r' k' → False) as Hno.
    { intros j s0 r' k' Hj Hf Hs [<- <-]. by rewrite (Hal j s0 Hj Hs) in Hf. }
    intros j j' r' k' [(-> & _ & Hs)|(Hj & s0 & H0 & Hf0 & Hs0)]%busy_insert [(-> & _ & Hs')|(Hj' & s1 & H1 & Hf1 & Hs1)]%busy_insert;
      [done|exfalso; eauto..|]. eapply (ao_alone _ Hok); [exists s0|exists s1]; eauto.
  - intros r' k' c Hc. destruct (ao_pending _ Hok _ _ _ Hc) as (? & ? & j & s & Hj & ? & ?). split_and!; [done..|].
    exists j, s. rewrite lookup_insert_ne by congruence. auto.
  - intros j s c [[<- <-]|[? Hj]]%lookup_insert_Some; [done|]. by apply (ao_waiting _ Hok j).
  - intros j s a c [[<- <-]|[? Hj]]%lookup_insert_Some; [done|]. by apply (ao_accepted _ Hok j s a).
Qed.

Lemma run_acks n i s ev s' t' cs : acks_ok n → dl_senders n !! i = Some s → step ev s (dl_tracker n) = Some (s', t', cs) →
  acks_ok (mkDeliveries t' (<[i := s']> (dl_senders n)) (apply_counts cs (dl_metrics n)) (dl_acked n)).
Proof.
  intros Hok Hi Hstep. destruct (step_same _ _ _ _ _ _ Hstep) as (Hr & Hk & _ & Hf).
  destruct (step_tracker _ _ _ _ _ _ Hstep) as (Hcl & Hnext & _ & Hacc).
  destruct (step_pending _ _ _ _ _ _ _ Hok Hi Hstep) as (Hother & Hmine & Hwait & Hsize). set (id := (sd_remote s, sd_key s)) in *.
  assert (∀ j s0, dl_senders n !! j = Some s0 → finished s0 = false → j ≠ i → (sd_remote s0, sd_key s0) ≠ id) as Hne.
  { intros j s0 Hj Hf0 Hji [= ? ?]. apply Hji. eapply (ao_alone _ Hok); [exists s0|exists s]; unfold sends; eauto. }
  split; cbn [dl_tracker dl_senders dl_metrics dl_acked].
  - intros j j' r k [(-> & _ & Hs)|(Hj & s0 & H0 & Hf0 & Hs0)]%busy_insert [(-> & _ & Hs')|(Hj' & s1 & H1 & Hf1 & Hs1)]%busy_insert;
      unfold sends in *; destruct_and?; [done|..].
    + destruct (Hne j' s1); auto. unfold id. congruence.
    + destruct (Hne j s0); auto. unfold id. congruence.
    + eapply (ao_alone _ Hok); [exists s0|exists s1]; unfold sends; eauto.
  - intros r k c Hc. destruct (decide ((r, k) = id)) as [E|E].
    + rewrite E in Hc. destruct (Hmine c Hc) as (? & ? & ? & _). split_and!; [done..|]. exists i, s'. rewrite lookup_insert_eq.
      unfold sends, id in *. split_and!; congruence.
    + rewrite Hother in Hc by done. destruct (ao_pending _ Hok _ _ _ Hc) as (? & ? & j & s0 & Hj & [Hs1 Hs2] & ?).
      rewrite Hcl. split_and!; [lia|done|]. exists j, s0. rewrite lookup_insert_ne; [done|]. intros ->. apply E. unfold id. congruence.
  - intros id1 id2 c H1 H2. destruct (decide (id1 = id)) as [->|E1], (decide (id2 = id)) as [->|E2]; [done|..].
    + rewrite Hother in H2 by done. apply Hmine in H1 as (_ & _ & _ & Hno). by destruct (Hno id2).
    + rewrite Hother in H1 by done. apply Hmine in H2 as (_ & _ & _ & Hno). by destruct (Hno id1).
    + rewrite Hother in H1, H2 by done. by apply (ao_inj _ Hok _ _ c).
  - rewrite Hcl. intros c Hc%(ao_closed _ Hok). lia.
  - intros j s0 c [[<- <-]|[Hji Hj]]%lookup_insert_Some Hw; [rewrite Hr, Hk; by apply Hwait|].
    rewrite Hother by eauto using waits_not_finished. by apply (ao_waiting _ Hok j).
  - intros j s0 a c [[<- <-]|[Hji Hj]]%lookup_insert_Some Hpc; [|by apply (ao_accepted _ Hok j s0 a)].
    rewrite Hr, Hk. destruct (Hacc _ _ Hpc) as [Hw Hc]. destruct (ao_waiting _ Hok _ _ _ Hi Hw) as [Hp|[_ Ha]]; [|done].
    destruct Hc as [Hc|Hc]; [|unfold id in Hc; congruence]. by destruct (ao_pending _ Hok _ _ _ Hp) as (_ & [] & _).
  - rewrite Hsize. by apply (apply_counts_wrap BlobAcksPending), Hok.
Qed.

Lemma ack_acks n r k n' : acks_ok n → delivery_step ackTimeout retryDelay (Acked r k) n = Some n' → acks_ok n'.
Proof.
  intros Hok Hs. cbn [delivery_step] in Hs. unfold tracker_ack in Hs.
  pose proof (ao_gauge _ Hok) as Hg.
  destruct (tr_pending (dl_tracker n) !! (r, k)) as [c|] eqn:Ep; injection Hs as <-.
  2: { split; cbn [dl_tracker dl_senders dl_metrics dl_acked]; apply Hok. }
  destruct (ao_pending _ Hok _ _ _ Ep) as (Hlt & Hncl & _).
  split; cbn [dl_tracker dl_senders dl_metrics dl_acked tr_pending tr_closed tr_next]; try apply Hok.
  - intros r' k' c' [Hne Hc]%lookup_delete_Some. destruct (ao_pending _ Hok _ _ _ Hc) as (? & ? & ?). split_and!; [done| |done].
    intros [->%elem_of_singleton|]%elem_of_union; [|done]. apply Hne. by apply (ao_inj _ Hok _ _ c).
  - intros id id' c' [_ H1]%lookup_delete_Some [_ H2]%lookup_delete_Some. by apply (ao_inj _ Hok _ _ c').
  - intros c' [->%elem_of_singleton|Hc]%elem_of_union; [done|]. by apply (ao_closed _ Hok).
  - intros i s c' Hi Hw. destruct (decide ((r, k) = (sd_remote s, sd_key s))) as [E|E].
    + right. rewrite E, lookup_delete_eq. split; [done|]. destruct (ao_waiting _ Hok _ _ _ Hi Hw) as [Hp|[_ Ha]]; [|by right].
      assert (c' = c) as -> by congruence. left.
    + rewrite lookup_delete_ne by done. destruct (ao_waiting _ Hok _ _ _ Hi Hw) as [|[? ?]]; [by left|right]. split; [done|by right].
  - intros i s a c' Hi Hp. right. by apply (ao_accepted _ Hok i s a).
  - etrans; [exact (apply_counts_wrap BlobAcksPending [(BlobAcksReceived, 1); (BlobAcksPending, -1); (BlobAcksMatched, 1)] _ _ Hg)|].
    rewrite map_size_delete_Some by done. unfold wrap. cbn [repl_gauge].
    pose proof (map_size_ne_0_lookup_2 _ _ (mk_is_Some _ _ Ep)). change (gain _ _) with (-1). f_equal. lia.
Qed.

Lemma reached_acks n : reached' alone n → acks_ok n.
Proof.
  induction 1 as [|n a n' Hr IH Hal Hs]; [split; unfold busy; cbn; try done; setoid_rewrite lookup_empty; naive_solver|].
  destruct a as [i r k b m|i ev|r k]; [..|by eapply ack_acks]; cbn [delivery_step] in Hs.
  - destruct (dl_senders n !! i) eqn:E; [done|]. injection Hs as <-. by apply spawn_acks.
  - destruct (dl_senders n !! i) as [s|] eqn:E; [|done].
    destruct (step ev s (dl_tracker n)) as [[[s' t'] cs]|] eqn:Es; [|done]. injection Hs as <-. by eapply run_acks.
Qed.
End runs.

(** ** What a delivery promises *)

(** C34: whatever the senders, the acknowledgements and the cancellations do, a
    sender makes at most [retries + 1] attempts, ends as accepted or failed with
    exactly one of the two counters raised by one, and never waits longer than
    the time [run] gives it: the waits fit [putWaitTimeout] with a second to
    spare, up to the largest duration; the delay after attempt [k] is
    [retryDelay * 2^k], at most half a second. *)
Theorem deliveries_bounded ackTimeout retryDelay n :
  0 <= ackTimeout <= maxDuration → reached ackTimeout retryDelay anything n →
  (∀ i s, dl_senders n !! i = Some s →
     (∀ e, sd_pc s = PFailed e → (1 <= de_attempts e <= S (sd_retries s))%nat) ∧
     (∀ a c, sd_pc s = PAccepted a c → (a <= sd_retries s)%nat) ∧
     Z.min maxDuration (Second + sd_waited s) <= putWaitTimeout ackTimeout retryDelay (sd_retries s)) ∧
  (∀ attempt, retryDelayForAttempt retryDelay attempt = Z.max 0 (Z.min maxPutRetryDelay (retryDelay * 2 ^ Z.of_nat attempt))) ∧
  dl_metrics n BlobPutsAccepted = tally_of accepted (dl_senders n) mod 2 ^ 64 ∧
  dl_metrics n BlobPutFailures = tally_of failed (dl_senders n) mod 2 ^ 64.
Proof.
  intros Hack Hr. split; [|split; [apply retryDelayForAttempt_spec|apply (reached_counted ackTimeout retryDelay); [lia|done]]].
  intros i s Hi. destruct (reached_ok ackTimeout retryDelay n ltac:(lia) Hr i s Hi) as [Ha Hw]. unfold attempts_ok in Ha.
  split; [by intros e He; rewrite He in Ha|split; [by intros a c He; rewrite He in Ha|]].
  rewrite putWaitTimeout_sum by done. assert (sd_waited s <= Z.of_nat (S (sd_retries s)) * ackTimeout + delays retryDelay (sd_retries s)); [|lia].
  etrans; [apply Hw|]. unfold longest. destruct (sd_pc s); try lia;
    match goal with a : nat |- _ => pose proof (delays_mono retryDelay a (sd_retries s) ltac:(lia)) end; nia.
Qed.

(** C33: when no two senders send one key to one remote at a time, a sender
    reports a blob as accepted only if an acknowledgement of its key from its
    remote closed the channel it waited on; and the tracker holds exactly the
    channels of the senders that still wait, which the gauge counts, so it is
    empty and the gauge is zero once every sender is done. *)
Theorem accepted_means_acknowledged ackTimeout retryDelay n : reached ackTimeout retryDelay alone n →
  (∀ i s a c, dl_senders n !! i = Some s → sd_pc s = PAccepted a c → (sd_remote s, sd_key s, c) ∈ dl_acked n) ∧
  (∀ remote key c, tr_pending (dl_tracker n) !! (remote, key) = Some c →
     ∃ i s, dl_senders n !! i = Some s ∧ sends s remote key ∧ waits_on s = Some c) ∧
  dl_metrics n BlobAcksPending = to_int64 (Z.of_nat (size (tr_pending (dl_tracker n)))) ∧
  (map_Forall (λ _ s, finished s = true) (dl_senders n) → tr_pending (dl_tracker n) = ∅ ∧ dl_metrics n BlobAcksPending = 0).
Proof.
  intros Hr. pose proof (reached_acks _ _ n Hr) as Hok.
  assert (∀ remote key c, tr_pending (dl_tracker n) !! (remote, key) = Some c →
     ∃ i s, dl_senders n !! i = Some s ∧ sends s remote key ∧ waits_on s = Some c) as Hp.
  { intros r k c Hc. by destruct (ao_pending _ Hok _ _ _ Hc) as (_ & _ & ?). }
  split_and!; [apply Hok|exact Hp|apply Hok|]. intros Hdone.
  assert (tr_pending (dl_tracker n) = ∅) as E.
  { apply map_empty. intros [r k]. apply eq_None_not_Some. intros [c Hc]. destruct (Hp _ _ _ Hc) as (i & s & Hi & _ & Hw).
    apply waits_not_finished in Hw. by rewrite (Hdone i s Hi) in Hw. }
  split; [done|]. by rewrite (ao_gauge _ Hok), E.
Qed.

(** Two senders of one key to one remote that nobody answers. *)
Definition unanswered (remote key : bytes) (size ackTimeout : Z) : list delivery_action :=
  [Spawn 0 remote key size 0; Spawn 1 remote key size 0; Run 0 EvRun; Run 1 EvRun;
   Run 0 (EvWritten (Ok tt)); Run 1 (EvWritten (Ok tt)); Run 0 (EvTimer ackTimeout); Run 1 (EvTimer ackTimeout)].

(** C38: two senders of one key to one remote share one entry of the tracker, as
    when a node puts a blob of its journal to a peer whose repair session sends
    the same blob.  When neither retries and both time out unanswered, the second finds the entry
    removed by the first and reports the blob as accepted and counts it so,
    although no acknowledgement ever arrived; and the gauge of pending
    acknowledgements stays at one with nothing pending. *)
Theorem unanswered_put_accepted remote key size ackTimeout retryDelay : ∃ n,
  delivery_steps ackTimeout retryDelay (unanswered remote key size ackTimeout) no_deliveries = Some n ∧
  dl_acked n = [] ∧ dl_metrics n BlobAcksReceived = 0 ∧
  (∃ s, dl_senders n !! 1%nat = Some s ∧ sends s remote key ∧ sd_pc s = PAccepted 0 1) ∧
  dl_metrics n BlobPutsAccepted = 1 ∧
  tr_pending (dl_tracker n) = ∅ ∧ dl_metrics n BlobAcksPending = 1.
Proof.
  unfold delivery_steps, unanswered. eexists. split.
  - repeat (progress (cbn -[insert lookup delete apply_counts Z.eqb]; unfold tracker_remove; rewrite ?Z.eqb_refl;
      rewrite ?lookup_insert_eq, ?lookup_delete_eq, ?lookup_empty; repeat rewrite lookup_insert_ne by done)). reflexivity.
  - cbn -[insert lookup delete]. split_and!; try done.
    + eexists. rewrite lookup_insert_eq. done.
    + by rewrite !delete_insert_eq.
Qed.

(** ** Blobs before their records *)

Section raw_records.
Context {S : Type} `{BlobStore S}.
Context (limits : ReplicationLimits) (deliver : bytes → bytes → Z → M (S * world) unit).

Lemma sync_record_Ok r x y : sync_record limits deliver r x = (Ok tt, y) → delivered limits deliver r.
Proof.
  unfold sync_record, attempt. destruct (bs_Get (BlobKey r) x) as [[data|e] x1] eqn:Eg; [|by destruct (errors_Is _ _)].
  intros Hs. run_inv. destruct x0. by exists data, x3, x, x1, y.
Qed.
(** The blobs are delivered in the order of the records, up to the first
    failure; the call succeeds only after the last one. *)
Lemma sync_records_prefix records x res y : sync_records limits deliver records x = (res, y) →
  ∃ sent rest, records = sent ++ rest ∧ Forall (delivered limits deliver) sent ∧ (res = Ok tt ↔ rest = []).
Proof.
  revert x. induction records as [|r records IH]; intros x Hs; cbn [sync_records] in Hs.
  - stop Hs. by exists [], [].
  - step Hs as [] x1 E.
    + destruct (IH _ Hs) as (sent & rest & -> & Hall & Hres). exists (r :: sent), rest. split_and!; [done| |done].
      constructor; [by eapply sync_record_Ok|done].
    + by exists [], (r :: records).
Qed.
End raw_records.

(** ** Examples *)

Definition ex_remote : bytes := lit "peer:1".
Definition ex_key : bytes := lit "k".
Definition ex_retried : list delivery_action :=
  [Spawn 0 ex_remote ex_key 5 1; Run 0 EvRun; Run 0 (EvWritten (Ok tt)); Run 0 (EvTimer 100); Run 0 EvSlept; Run 0 EvRun;
   Run 0 (EvWritten (Ok tt)); Acked ex_remote ex_key; Run 0 (EvAcked 40)].

(** Every step of [acts] is allowed. *)
Fixpoint all_allowed (ack delay : Z) (acts : list delivery_action) (n : deliveries) : bool :=
  match acts with
  | [] => true
  | a :: acts' => bool_decide (alone a n) && match delivery_step ack delay a n with Some n' => all_allowed ack delay acts' n' | None => false end
  end.
Definition run_all (ack delay : Z) (acts : list delivery_action) (n : deliveries) : deliveries :=
  foldl (λ n a, default n (delivery_step ack delay a n)) n acts.
Lemma all_allowed_reached ack delay acts n :
  reached ack delay alone n → all_allowed ack delay acts n = true → reached ack delay alone (run_all ack delay acts n).
Proof.
  revert n. induction acts as [|a acts IH]; intros n Hn Hall; [done|]. cbn in Hall. apply andb_true_iff in Hall as [Ha Hall].
  destruct (delivery_step ack delay a n) as [n'|] eqn:E; [|done]. unfold run_all. cbn. rewrite E. apply IH; [|done].
  econstructor; [done|by apply bool_decide_eq_true in Ha|done].
Qed.
Definition ex_done : deliveries := run_all 100 20 ex_retried no_deliveries.
Lemma ex_done_reached : reached 100 20 alone ex_done.
Proof. apply all_allowed_reached; [constructor|vm_compute; reflexivity]. Qed.

Lemma accepted_means_acknowledged_witness :
  (ex_remote, ex_key, 1%nat) ∈ dl_acked ex_done ∧ dl_metrics ex_done BlobAcksPending = 0.
Proof.
  destruct (accepted_means_acknowledged 100 20 ex_done ex_done_reached) as (Hacc & _ & _ & Hdone). split.
  - apply (Hacc 0%nat (mkSender ex_remote ex_key 5 1 160 (PAccepted 1 1)) 1%nat 1%nat); vm_compute; reflexivity.
  - apply Hdone. apply (bool_decide_unpack (map_Forall _ _)). vm_compute. reflexivity.
Defined.
Lemma deliveries_bounded_witness : 160 + Second <= putWaitTimeout 100 20 1 ∧ dl_metrics ex_done BlobPutsAccepted = 1.
Proof.
  destruct (deliveries_bounded 100 20 ex_done ltac:(unfold maxDuration; lia) (reached_mono _ _ _ _ _ (λ _ _ _, I) ex_done_reached))
    as (Hs & _ & Ha & _). split.
  - destruct (Hs 0%nat (mkSender ex_remote ex_key 5 1 160 (PAccepted 1 1))) as (_ & _ & Hw); [vm_compute; reflexivity|].
    revert Hw. vm_compute. done.
  - rewrite Ha. vm_compute. reflexivity.
Defined.
