(* ===== verification/Schedulers.v ===== *)
(** * The background schedulers of replication

    [inventoryExchangeScheduler] of inventory.go, [repairContinuationScheduler]
    and [repairIOLimiter] of main.go: tables and counters that the goroutines of
    a node share.  A goroutine is a program counter; one step is one critical
    section of the mutex, one atomic counter that matters for a theorem, or one
    channel operation.  A goroutine that ends with [go s.wait(id)] goes on as the
    new one.  What a goroutine does between its critical sections (the exchange
    of Exchange.v, the blobs sent by Replicate.v) enters as the result of an
    event, so the theorems hold for every outcome.  A peer is the address of its
    connection object, and [peers] gives the object; the tables are keyed by
    [repairPeerKey], the two addresses and the direction of the connection. *)
From S2P Require Import Prelude Go Bits Text Json Os Model Codec Journal Transport Repair Blobs Inventory Applier Session Runtime Protocol Peers Wire Exchange Replicate Delivery.

(** ** Inventory exchanges *)

Record inventoryExchangeEntry := mkExchange {
  ie_peer : nat;
  ie_cursor : bytes;
  ie_running : bool;
  ie_scheduled : bool
}.

(** [IRun]: about to call [run]; [IExchange]: in [sendInventoryExchange];
    [ILimited]: it returned at the end of the budget; [IRemove]: about to call
    [finish] or [forgetID]; [IGauge]: the entry is removed and the gauge is not
    lowered yet. *)
Inductive inventory_pc :=
  | IRun (id : bytes)
  | IExchange (id : bytes) (peer : nat) (cursor : bytes)
  | ILimited (id next : bytes)
  | IWait (id : bytes)
  | IRemove (id : bytes)
  | IGauge
  | IDone.

Record inventoryExchangeScheduler := mkInventoryScheduler {
  is_entries : gmap bytes inventoryExchangeEntry;
  is_threads : gmap nat inventory_pc;
  is_metrics : replicationMetrics;
  is_cancelled : bool;
  is_closed : list nat
}.
Definition newInventoryExchangeScheduler : inventoryExchangeScheduler := mkInventoryScheduler ∅ ∅ (λ _, 0) false [].

(** [IsForget] starts a goroutine at [forgetID], which is the caller of [Forget]. *)
Inductive inventory_action :=
  | IsCancel
  | IsStart (t : nat) (peer : nat)
  | IsForget (t : nat) (peer : nat)
  | IsRun (t : nat)
  | IsExchanged (t : nat) (r : result (bytes * bool))
  | IsTimer (t : nat)
  | IsDone (t : nat).

Definition start_entry (id : bytes) (peer : nat) (es : gmap bytes inventoryExchangeEntry)
    : gmap bytes inventoryExchangeEntry * bool * list (repl_metric * Z) :=
  let entry := default (mkExchange peer [] false false) (es !! id) in
  let launch := negb (ie_running entry) && negb (ie_scheduled entry) in
  (<[id := mkExchange peer (ie_cursor entry) (ie_running entry) (ie_scheduled entry || launch)]> es, launch,
   match es !! id with None => [(InventoryExchangesActive, 1)] | Some _ => [] end).

Definition with_thread (t : nat) (pc : inventory_pc) (s : inventoryExchangeScheduler) : inventoryExchangeScheduler :=
  mkInventoryScheduler (is_entries s) (<[t := pc]> (is_threads s)) (is_metrics s) (is_cancelled s) (is_closed s).
Definition with_entries (es : gmap bytes inventoryExchangeEntry) (s : inventoryExchangeScheduler) : inventoryExchangeScheduler :=
  mkInventoryScheduler es (is_threads s) (is_metrics s) (is_cancelled s) (is_closed s).
Definition with_counts (cs : list (repl_metric * Z)) (s : inventoryExchangeScheduler) : inventoryExchangeScheduler :=
  mkInventoryScheduler (is_entries s) (is_threads s) (apply_counts cs (is_metrics s)) (is_cancelled s) (is_closed s).
Definition closes (peer : nat) (s : inventoryExchangeScheduler) : inventoryExchangeScheduler :=
  mkInventoryScheduler (is_entries s) (is_threads s) (is_metrics s) (is_cancelled s) (peer :: is_closed s).

Section inventory_peers.
Context {P : Type} `{NodePeer P} (peers : nat → P).

Definition inventory_Start (t : nat) (peer : nat) (s : inventoryExchangeScheduler) : option inventoryExchangeScheduler :=
  if is_cancelled s then Some s
  else
    let id := repairPeerKey (peers peer) in
    let '(es, launch, cs) := start_entry id peer (is_entries s) in
    let s := with_counts cs (with_entries es s) in
    if launch : bool then match is_threads s !! t with None => Some (with_thread t (IRun id) s) | Some _ => None end else Some s.

(** The caller goes on in [forgetID]. *)
Definition inventory_Forget (t : nat) (peer : nat) (s : inventoryExchangeScheduler) : option inventoryExchangeScheduler :=
  match is_threads s !! t with None => Some (with_thread t (IRemove (repairPeerKey (peers peer))) s) | Some _ => None end.

(** The first critical section of [run]. *)
Definition inventory_run (t : nat) (id : bytes) (s : inventoryExchangeScheduler) : inventoryExchangeScheduler :=
  match is_entries s !! id with
  | None => with_thread t IDone s
  | Some e =>
      with_counts [(InventoryExchangesStarted, 1)]
        (with_thread t (IExchange id (ie_peer e) ([] ++ ie_cursor e))
           (with_entries (<[id := mkExchange (ie_peer e) (ie_cursor e) true false]> (is_entries s)) s))
  end.
(** What [run] does with the result of the exchange. *)
Definition inventory_exchanged (t : nat) (id : bytes) (peer : nat) (r : result (bytes * bool)) (s : inventoryExchangeScheduler)
    : inventoryExchangeScheduler :=
  match r with
  | Err e =>
      if negb (errors_Is e ErrContext)
      then with_thread t (IRemove id) (closes peer (with_counts [(SendErrors, 1); (InventoryExchangesDropped, 1)] s))
      else with_thread t (IRemove id) (with_counts [(InventoryExchangesDropped, 1)] s)
  | Ok (_, true) => with_thread t (IRemove id) (with_counts [(InventoryExchangesCompleted, 1)] s)
  | Ok (next, false) => with_thread t (ILimited id next) (with_counts [(InventoryExchangesLimited, 1)] s)
  end.
(** Its second critical section. *)
Definition inventory_limited (t : nat) (id next : bytes) (s : inventoryExchangeScheduler) : inventoryExchangeScheduler :=
  match is_entries s !! id with
  | None => with_thread t IDone s
  | Some e => with_thread t (IWait id) (with_entries (<[id := mkExchange (ie_peer e) ([] ++ next) false true]> (is_entries s)) s)
  end.
(** [finish] and [forgetID]. *)
Definition inventory_remove (t : nat) (id : bytes) (s : inventoryExchangeScheduler) : inventoryExchangeScheduler :=
  match is_entries s !! id with
  | None => with_thread t IDone s
  | Some _ => with_thread t IGauge (with_entries (delete id (is_entries s)) s)
  end.

Definition inventory_step (a : inventory_action) (s : inventoryExchangeScheduler) : option inventoryExchangeScheduler :=
  match a with
  | IsCancel => Some (mkInventoryScheduler (is_entries s) (is_threads s) (is_metrics s) true (is_closed s))
  | IsStart t peer => inventory_Start t peer s
  | IsForget t peer => inventory_Forget t peer s
  | IsRun t =>
      match is_threads s !! t with
      | Some (IRun id) => Some (inventory_run t id s)
      | Some (ILimited id next) => Some (inventory_limited t id next s)
      | Some (IRemove id) => Some (inventory_remove t id s)
      | Some IGauge => Some (with_thread t IDone (with_counts [(InventoryExchangesActive, -1)] s))
      | _ => None
      end
  | IsExchanged t r =>
      match is_threads s !! t with Some (IExchange id peer _) => Some (inventory_exchanged t id peer r s) | _ => None end
  | IsTimer t => match is_threads s !! t with Some (IWait id) => Some (with_thread t (IRun id) s) | _ => None end
  | IsDone t =>
      match is_threads s !! t with
      | Some (IWait id) => if is_cancelled s then Some (with_thread t (IRemove id) s) else None
      | _ => None
      end
  end.

Inductive inventory_reached : inventoryExchangeScheduler → Prop :=
  | inventory_start : inventory_reached newInventoryExchangeScheduler
  | inventory_next s a s' : inventory_reached s → inventory_step a s = Some s' → inventory_reached s'.
End inventory_peers.

(** ** Goroutines of a table *)

Definition some_thread {A} (P : A → bool) (m : gmap nat A) : Prop := ∃ t pc, m !! t = Some pc ∧ P pc = true.
Lemma some_thread_here {A} (P : A → bool) m t pc : P pc = true → some_thread P (<[t:=pc]> m).
Proof. intros HP. exists t, pc. by rewrite lookup_insert_eq. Qed.
Lemma some_thread_insert {A} (P : A → bool) m t pc :
  some_thread P m → (from_option P false (m !! t) = true → P pc = true) → some_thread P (<[t:=pc]> m).
Proof.
  intros (t' & pc' & Ht & HP) Hpc. destruct (decide (t' = t)) as [->|]; [|exists t', pc'; by rewrite lookup_insert_ne].
  apply some_thread_here. rewrite Ht in Hpc. auto.
Qed.
Lemma some_thread_app {A} (P Q : A → bool) m : (∀ pc, P pc = true → Q pc = true) → some_thread P m → some_thread Q m.
Proof. intros HPQ (t & pc & ? & ?). exists t, pc. auto. Qed.

(** ** Every exchange is served *)

Section exchanges_served.
Context {P : Type} `{NodePeer P} (peers : nat → P).

(** Goroutines that will start, or that will end, the exchange with [id]. *)
Definition starts (id : bytes) (pc : inventory_pc) : bool :=
  match pc with IRun i | IWait i | IRemove i => bool_decide (i = id) | _ => false end.
Definition ends (id : bytes) (pc : inventory_pc) : bool :=
  match pc with IExchange i _ _ | ILimited i _ | IRemove i => bool_decide (i = id) | _ => false end.
Definition lowers (pc : inventory_pc) : bool := match pc with IGauge => true | _ => false end.

Record exchange_ok (m : gmap nat inventory_pc) (id : bytes) (e : inventoryExchangeEntry) : Prop := {
  xo_active : ie_scheduled e || ie_running e = true;
  xo_scheduled : ie_scheduled e = true → some_thread (starts id) m;
  xo_running : ie_running e = true → some_thread (ends id) m
}.
Record inventory_ok (s : inventoryExchangeScheduler) : Prop := {
  io_entries : map_Forall (exchange_ok (is_threads s)) (is_entries s);
  io_gauge : is_metrics s InventoryExchangesActive =
             to_int64 (Z.of_nat (size (is_entries s)) + tally_of lowers (is_threads s));
  io_ids : map_Forall (λ id e, repairPeerKey (peers (ie_peer e)) = id) (is_entries s)
}.

(** A goroutine moves on: it still serves the entries it served. *)
Lemma exchange_ok_moved m t pc id e : exchange_ok m id e →
  (from_option (starts id) false (m !! t) = true → starts id pc = true) →
  (from_option (ends id) false (m !! t) = true → ends id pc = true) → exchange_ok (<[t:=pc]> m) id e.
Proof. intros [Ha Hs Hr] ? ?. split; eauto using some_thread_insert. Qed.

Ltac serve :=
  unfold starts, ends, lowers in *; cbn in *;
  rewrite ?bool_decide_eq_true, ?bool_decide_eq_false in *; try done; try congruence.

(** The gauge after a step, from its change. *)
Lemma active_gauge s cs z : inventory_ok s →
  z = Z.of_nat (size (is_entries s)) + tally_of lowers (is_threads s) + gain InventoryExchangesActive cs →
  apply_counts cs (is_metrics s) InventoryExchangesActive = to_int64 z.
Proof. intros [_ Hg _] ->. exact (apply_counts_wrap InventoryExchangesActive cs _ _ Hg). Qed.
Ltac gauge Hok cs := refine (active_gauge _ cs _ Hok _).

Lemma inventory_Start_ok t peer s s' : inventory_ok s → inventory_Start peers t peer s = Some s' → inventory_ok s'.
Proof.
  intros Hok. unfold inventory_Start, start_entry. destruct (is_cancelled s); [by intros [= <-]|].
  set (id := repairPeerKey (peers peer)). destruct (is_entries s !! id) as [e|] eqn:Ee; cbn -[apply_counts].
  - pose proof (io_entries _ Hok _ _ Ee) as [Ha Hs Hr].
    destruct (ie_running e) eqn:Er, (ie_scheduled e) eqn:Es; cbn -[apply_counts] in *; try done; intros [= <-];
      (split; cbn -[apply_counts]; [apply map_Forall_insert_2; [split; cbn; auto|apply Hok]|
        rewrite map_size_insert_Some by eauto; apply Hok|apply map_Forall_insert_2; [done|apply Hok]]).
  - destruct (is_threads s !! t) eqn:Et; [done|]. intros [= <-]. split; cbn -[apply_counts].
    + apply map_Forall_insert_2; [split; cbn; try done; intros _; apply some_thread_here; serve|].
      intros id' e' He'. apply exchange_ok_moved; [by apply (io_entries _ Hok)|rewrite Et; done..].
    + rewrite map_size_insert_None, tally_insert, Et by done. cbn -[apply_counts].
      gauge Hok [(InventoryExchangesActive, 1)]. change (gain _ _) with 1. lia.
    + apply map_Forall_insert_2; [done|apply Hok].
Qed.

(** A step of the goroutine [t] that turns the table into [es]. *)
Lemma moved_ok s t pc0 pc es cs c cl : inventory_ok s → is_threads s !! t = Some pc0 →
  (∀ id e, es !! id = Some e → exchange_ok (<[t:=pc]> (is_threads s)) id e ∨
     is_entries s !! id = Some e ∧ (starts id pc0 = true → starts id pc = true) ∧ (ends id pc0 = true → ends id pc = true)) →
  Z.of_nat (size es) + Z.b2z (lowers pc) =
    Z.of_nat (size (is_entries s)) + Z.b2z (lowers pc0) + gain InventoryExchangesActive cs →
  (∀ id e, es !! id = Some e → ∃ e0, is_entries s !! id = Some e0 ∧ ie_peer e0 = ie_peer e) →
  inventory_ok (mkInventoryScheduler es (<[t:=pc]> (is_threads s)) (apply_counts cs (is_metrics s)) c cl).
Proof.
  intros Hok Ht Hes Hsize Hids. split; cbn -[apply_counts].
  - intros id e He. destruct (Hes id e He) as [?|(He0 & ? & ?)]; [done|].
    apply exchange_ok_moved; [by apply (io_entries _ Hok)|by rewrite Ht..].
  - rewrite tally_insert, Ht. cbn -[apply_counts]. gauge Hok cs. lia.
  - intros id e He. destruct (Hids id e He) as (e0 & He0 & <-). by apply (io_ids _ Hok).
Qed.

Ltac move_thread cs :=
  match goal with Hok : inventory_ok ?s, Ht : is_threads ?s !! ?t = Some ?pc0 |- _ =>
    eapply (moved_ok s t pc0 _ _ cs _ _ Hok Ht); [..|try by cbn; eauto];
    let z := eval vm_compute in (gain InventoryExchangesActive cs) in
    try change (gain InventoryExchangesActive cs) with z; cbn -[Z.of_nat]
  end.

Lemma inventory_run_ok t id s : inventory_ok s → is_threads s !! t = Some (IRun id) → inventory_ok (inventory_run t id s).
Proof.
  intros Hok Ht. unfold inventory_run. destruct (is_entries s !! id) as [e|] eqn:Ee.
  - move_thread [(InventoryExchangesStarted, 1)].
    + intros id' e' [[<- <-]|[Hne He]]%lookup_insert_Some; [left|right; by serve].
      split; cbn; try done. intros _. apply some_thread_here. serve.
    + rewrite map_size_insert_Some by eauto. lia.
    + intros id' e' [[<- <-]|[Hne He]]%lookup_insert_Some; eauto.
  - move_thread (@nil (repl_metric * Z)); [|lia]. intros id' e' He. right. split_and!; intros; serve.
Qed.
Lemma inventory_exchanged_ok t id peer cursor r s : inventory_ok s → is_threads s !! t = Some (IExchange id peer cursor) →
  inventory_ok (inventory_exchanged t id peer r s).
Proof.
  intros Hok Ht. unfold inventory_exchanged. destruct r as [[next []]|e]; [..|destruct (negb _)].
  - move_thread [(InventoryExchangesCompleted, 1)]; [|lia]. intros id' e' He. right. by serve.
  - move_thread [(InventoryExchangesLimited, 1)]; [|lia]. intros id' e' He. right. by serve.
  - move_thread [(SendErrors, 1); (InventoryExchangesDropped, 1)]; [|lia]. intros id' e' He. right. by serve.
  - move_thread [(InventoryExchangesDropped, 1)]; [|lia]. intros id' e' He. right. by serve.
Qed.
Lemma inventory_limited_ok t id next s : inventory_ok s → is_threads s !! t = Some (ILimited id next) →
  inventory_ok (inventory_limited t id next s).
Proof.
  intros Hok Ht. unfold inventory_limited. destruct (is_entries s !! id) as [e|] eqn:Ee.
  - move_thread (@nil (repl_metric * Z)).
    + intros id' e' [[<- <-]|[Hne He]]%lookup_insert_Some; [left|right; by serve].
      split; cbn; try done. intros _. apply some_thread_here. serve.
    + rewrite map_size_insert_Some by eauto. lia.
    + intros id' e' [[<- <-]|[Hne He]]%lookup_insert_Some; eauto.
  - move_thread (@nil (repl_metric * Z)); [|lia]. intros id' e' He. right. split_and!; intros; serve.
Qed.
Lemma inventory_remove_ok t id s : inventory_ok s → is_threads s !! t = Some (IRemove id) → inventory_ok (inventory_remove t id s).
Proof.
  intros Hok Ht. unfold inventory_remove. destruct (is_entries s !! id) as [e|] eqn:Ee.
  - move_thread (@nil (repl_metric * Z)).
    + intros id' e' [Hne He]%lookup_delete_Some. right. by serve.
    + rewrite map_size_delete_Some by eauto. pose proof (map_size_ne_0_lookup_2 _ _ (mk_is_Some _ _ Ee)). lia.
    + intros id' e' [_ He]%lookup_delete_Some. eauto.
  - move_thread (@nil (repl_metric * Z)); [|lia]. intros id' e' He. right. split_and!; intros; serve.
Qed.

Lemma inventory_step_ok a s s' : inventory_ok s → inventory_step peers a s = Some s' → inventory_ok s'.
Proof.
  intros Hok. destruct a as [|t peer|t peer|t|t r|t|t]; cbn [inventory_step].
  - intros [= <-]. split; apply Hok.
  - by apply inventory_Start_ok.
  - unfold inventory_Forget. destruct (is_threads s !! t) eqn:Et; [done|]. intros [= <-]. split; cbn; [..|apply Hok].
    + intros id' e' He'. apply exchange_ok_moved; [by apply (io_entries _ Hok)|rewrite Et; done..].
    + rewrite tally_insert, Et. cbn. rewrite Z.sub_0_r, Z.add_0_r. apply Hok.
  - destruct (is_threads s !! t) as [[id|? ? ?|id next|id|id| |]|] eqn:Et; try done; intros [= <-].
    + by apply inventory_run_ok.
    + by apply inventory_limited_ok.
    + by apply inventory_remove_ok.
    + move_thread [(InventoryExchangesActive, -1)]; [|lia]. intros id' e' He. right. by serve.
  - destruct (is_threads s !! t) as [[]|] eqn:Et; try done; intros [= <-]. by eapply inventory_exchanged_ok.
  - destruct (is_threads s !! t) as [[]|] eqn:Et; try done; intros [= <-].
    move_thread (@nil (repl_metric * Z)); [|lia]. intros id' e' He. right. by serve.
  - destruct (is_threads s !! t) as [[]|] eqn:Et; try done. destruct (is_cancelled s); [|done]. intros [= <-].
    move_thread (@nil (repl_metric * Z)); [|lia]. intros id' e' He. right. by serve.
Qed.
Lemma inventory_reached_ok s : inventory_reached peers s → inventory_ok s.
Proof. induction 1; [by split|]. by eapply inventory_step_ok. Qed.
End exchanges_served.

(** C31: in every interleaving of peers that come and go, exchanges that end,
    fail or run out of budget, timers and cancellation, a scheduled exchange has
    a goroutine that will start or remove it and a running one a goroutine that
    will end it, so none is left behind in the table; every entry is under the
    key of the connection it holds; the gauge of active
    exchanges is the number of entries, up to the decrements that are about to
    happen, and when the goroutines are done the table is empty and the gauge
    is zero. *)
Theorem inventory_exchanges_served {P : Type} `{NodePeer P} (peers : nat → P) s : inventory_reached peers s →
  (∀ id e, is_entries s !! id = Some e →
     (ie_scheduled e = true ∧ some_thread (starts id) (is_threads s)) ∨
     (ie_running e = true ∧ some_thread (ends id) (is_threads s))) ∧
  (∀ id e, is_entries s !! id = Some e → id = repairPeerKey (peers (ie_peer e))) ∧
  is_metrics s InventoryExchangesActive = to_int64 (Z.of_nat (size (is_entries s)) + tally_of lowers (is_threads s)) ∧
  (map_Forall (λ _ pc, pc = IDone) (is_threads s) → is_entries s = ∅ ∧ is_metrics s InventoryExchangesActive = 0).
Proof.
  intros [He Hg Hid]%inventory_reached_ok.
  assert (∀ id e, is_entries s !! id = Some e →
     (ie_scheduled e = true ∧ some_thread (starts id) (is_threads s)) ∨
     (ie_running e = true ∧ some_thread (ends id) (is_threads s))) as Hserved.
  { intros id e Hi. destruct (He id e Hi) as [Ha Hs Hr]. apply orb_true_iff in Ha as [Ha|Ha]; auto. }
  split_and!; [done|intros id e Hi; by rewrite (Hid id e Hi)|done|]. intros Hdone. assert (is_entries s = ∅) as E.
  { apply map_empty. intros id. apply eq_None_not_Some. intros [e Hi].
    destruct (Hserved id e Hi) as [[_ (t & pc & Ht & Hp)]|[_ (t & pc & Ht & Hp)]]; by rewrite (Hdone t pc Ht) in Hp. }
  split; [done|]. rewrite Hg, E. unfold tally_of. rewrite map_empty_filter_2; [done|].
  intros t pc Ht. cbn. by rewrite (Hdone t pc Ht).
Qed.

(** ** Deferred repairs *)

(** [RWait]: in [wait]; [RSending]: in [sendRequestedBlobsResult]. *)
Inductive repair_pc :=
  | RWait (id : bytes)
  | RSending (id : bytes) (peer : nat) (keys : list bytes) (attempt : Z)
  | RDone.
Record repairContinuationScheduler := mkRepairScheduler {
  cs_entries : continuations;
  cs_threads : gmap nat repair_pc;
  cs_metrics : replicationMetrics;
  cs_cancelled : bool
}.
Definition newRepairContinuationScheduler : repairContinuationScheduler := mkRepairScheduler ∅ ∅ (λ _, 0) false.

Inductive repair_action :=
  | RsCancel
  | RsSchedule (t : nat) (peer : nat) (keys : list bytes)
  | RsForget (peer : nat)
  | RsTimer (t : nat)
  | RsSent (t : nat) (r : result (list bytes))
  | RsStop (t : nat).

Section repair_peers.
Context {P : Type} `{NodePeer P} (peers : nat → P) (limits : ReplicationLimits).
Definition continuation_max : Z := if MaxKeys limits <=? 0 then DefaultMaxKeys else MaxKeys limits.

(** The table, the gauges stored from it and a goroutine. *)
Definition publish (es : continuations) (t : option (nat * repair_pc)) (before after : list (repl_metric * Z)) (s : repairContinuationScheduler)
    : repairContinuationScheduler :=
  mkRepairScheduler es (match t with Some (t, pc) => <[t := pc]> (cs_threads s) | None => cs_threads s end)
    (apply_counts after (updateGaugesLocked es (apply_counts before (cs_metrics s)))) (cs_cancelled s).

Definition repair_Schedule (t : nat) (peer : nat) (keys : list bytes) (s : repairContinuationScheduler)
    : option repairContinuationScheduler :=
  if (len keys =? 0) || cs_cancelled s then Some s
  else
    let id := repairPeerKey (peers peer) in
    let '(es, dropped, launch) := schedule_entry peer id keys continuation_max (cs_entries s) in
    let before := if dropped : bool then [(RepairContinuationsDropped, 1)] else [] in
    if launch : bool then
      match cs_threads s !! t with
      | None => Some (publish es (Some (t, RWait id)) before [(RepairContinuationsScheduled, 1)] s)
      | Some _ => None
      end
    else Some (publish es None before [] s).

(** The first critical section of [run]. *)
Definition repair_run (t : nat) (id : bytes) (s : repairContinuationScheduler) : repairContinuationScheduler :=
  match cs_entries s !! id with
  | None => mkRepairScheduler (cs_entries s) (<[t := RDone]> (cs_threads s)) (cs_metrics s) (cs_cancelled s)
  | Some e =>
      let keys := repairContinuationKeys (rc_pending e) in
      publish (<[id := mkContinuation (rc_peer e) ∅ (len keys) (rc_attempt e) true false]> (cs_entries s))
        (Some (t, RSending id (rc_peer e) keys (rc_attempt e))) [] [] s
  end.

(** Its second one, after the blobs were sent with the result [r]. *)
Definition repair_sent (t : nat) (id : bytes) (attempt : Z) (r : result (list bytes)) (s : repairContinuationScheduler)
    : repairContinuationScheduler :=
  match cs_entries s !! id with
  | None => mkRepairScheduler (cs_entries s) (<[t := RDone]> (cs_threads s))
              (apply_counts [(RepairContinuationsCompleted, 1)] (cs_metrics s)) (cs_cancelled s)
  | Some e =>
      let again := match r with Ok deferred => (0 <? len deferred) && (attempt <? maxRepairContinuationAttempts) | Err _ => false end in
      let '(pending, dropped) :=
        if again then mergeRepairContinuationKeys (rc_pending e) (match r with Ok deferred => deferred | Err _ => [] end) continuation_max
        else (rc_pending e, false) in
      let before := (RepairContinuationsCompleted, 1) :: (if dropped : bool then [(RepairContinuationsDropped, 1)] else []) in
      let attempt := if again then attempt + 1 else rc_attempt e in
      if 0 <? Z.of_nat (size pending)
      then publish (<[id := mkContinuation (rc_peer e) pending 0 attempt false true]> (cs_entries s)) (Some (t, RWait id)) before
             [(RepairContinuationsScheduled, 1)] s
      else publish (delete id (cs_entries s)) (Some (t, RDone)) before [] s
  end.

Definition repair_forgetID (t : option (nat * repair_pc)) (id : bytes) (s : repairContinuationScheduler) : repairContinuationScheduler :=
  let dropped := match cs_entries s !! id with
                 | Some e => rc_scheduled e || rc_running e || (0 <? Z.of_nat (size (rc_pending e))) || (0 <? rc_inFlight e)
                 | None => false
                 end in
  publish (delete id (cs_entries s)) t [] (if dropped then [(RepairContinuationsDropped, 1)] else []) s.

Definition repair_Forget (peer : nat) (s : repairContinuationScheduler) : repairContinuationScheduler :=
  repair_forgetID None (repairPeerKey (peers peer)) s.

Definition repair_step (a : repair_action) (s : repairContinuationScheduler) : option repairContinuationScheduler :=
  match a with
  | RsCancel => Some (mkRepairScheduler (cs_entries s) (cs_threads s) (cs_metrics s) true)
  | RsSchedule t peer keys => repair_Schedule t peer keys s
  | RsForget peer => Some (repair_Forget peer s)
  | RsTimer t => match cs_threads s !! t with Some (RWait id) => Some (repair_run t id s) | _ => None end
  | RsSent t r => match cs_threads s !! t with Some (RSending id _ _ attempt) => Some (repair_sent t id attempt r s) | _ => None end
  | RsStop t =>
      match cs_threads s !! t with
      | Some (RWait id) => if cs_cancelled s then Some (repair_forgetID (Some (t, RDone)) id s) else None
      | _ => None
      end
  end.
Inductive repair_reached : repairContinuationScheduler → Prop :=
  | repair_start : repair_reached newRepairContinuationScheduler
  | repair_next s a s' : repair_reached s → repair_step a s = Some s' → repair_reached s'.
End repair_peers.

(** ** Every deferred repair is served *)

(** Keys are added up to the limit, and a key that is not is reported. *)
Lemma merge_keys_spec dst keys m d dst' d' : merge_keys dst keys m d = (dst', d') →
  dst ⊆ dst' ∧ Z.of_nat (size dst') <= Z.max m (Z.of_nat (size dst)) ∧
  (d' = false → d = false ∧ Forall (λ k, k ∈ dst') keys).
Proof.
  revert dst d. induction keys as [|k keys IH]; intros dst d H; cbn [merge_keys] in H.
  - injection H as -> ->. split_and!; [done|lia|by auto].
  - case_bool_decide as Hk; [|destruct (Z.leb_spec m (Z.of_nat (size dst)))].
    + apply IH in H as (? & ? & Hd). split_and!; [done..|]. intros [? ?]%Hd. split; [done|]. constructor; auto.
    + apply IH in H as (? & ? & Hd). split_and!; [done..|]. by intros [? ?]%Hd.
    + apply IH in H as (Hsub & Hs & Hd). rewrite size_union, size_singleton in Hs by (by apply disjoint_singleton_l).
      split_and!; [by etrans; [apply union_subseteq_r|]|lia|]. intros [? ?]%Hd. split; [done|]. constructor; [|done].
      apply Hsub, elem_of_union_l, elem_of_singleton_2. done.
Qed.
Lemma repairContinuationKeys_elements pending : repairContinuationKeys pending ≡ₚ base.elements pending.
Proof. apply sorted_keys_perm. Qed.

Section repair_scheduler.
Context {P : Type} `{NodePeer P} (peers : nat → P) (limits : ReplicationLimits).
#[local] Abbreviation max_keys := (continuation_max limits).

Lemma continuation_max_pos : 0 < max_keys.
Proof. unfold continuation_max, DefaultMaxKeys. destruct (Z.leb_spec (MaxKeys limits) 0); lia. Qed.
Lemma merge_spec dst keys dst' d : mergeRepairContinuationKeys dst keys max_keys = (dst', d) →
  dst ⊆ dst' ∧ Z.of_nat (size dst') <= Z.max max_keys (Z.of_nat (size dst)) ∧ (d = false → Forall (λ k, k ∈ dst') keys).
Proof.
  pose proof continuation_max_pos. unfold mergeRepairContinuationKeys. destruct (Z.leb_spec max_keys 0); [lia|].
  intros (? & ? & Hd)%merge_keys_spec. naive_solver.
Qed.

Definition waits_for (id : bytes) (pc : repair_pc) : bool := match pc with RWait i => bool_decide (i = id) | _ => false end.
Definition sends_for (id : bytes) (pc : repair_pc) : bool := match pc with RSending i _ _ _ => bool_decide (i = id) | _ => false end.

Definition attempt_ok (a : Z) : Prop := 0 <= a <= maxRepairContinuationAttempts.
Record continuation_ok (m : gmap nat repair_pc) (id : bytes) (e : repairContinuationEntry) : Prop := {
  co_active : rc_scheduled e || rc_running e = true;
  co_scheduled : rc_scheduled e = true → some_thread (waits_for id) m;
  co_running : rc_running e = true → some_thread (sends_for id) m;
  co_pending : Z.of_nat (size (rc_pending e)) <= max_keys;
  co_inFlight : 0 <= rc_inFlight e <= max_keys;
  co_attempt : attempt_ok (rc_attempt e)
}.
Definition sending_ok (pc : repair_pc) : Prop :=
  match pc with RSending _ _ keys a => len keys <= max_keys ∧ NoDup keys ∧ attempt_ok a | _ => True end.
Record repairs_ok (s : repairContinuationScheduler) : Prop := {
  ro_entries : map_Forall (continuation_ok (cs_threads s)) (cs_entries s);
  ro_threads : map_Forall (λ _, sending_ok) (cs_threads s);
  ro_active : cs_metrics s RepairContinuationsActive = continuations_active (cs_entries s);
  ro_pending : cs_metrics s RepairContinuationKeysPending = continuations_pending (cs_entries s)
}.

Lemma continuation_ok_moved m t pc id e : continuation_ok m id e →
  (from_option (waits_for id) false (m !! t) = true → waits_for id pc = true) →
  (from_option (sends_for id) false (m !! t) = true → sends_for id pc = true) → continuation_ok (<[t:=pc]> m) id e.
Proof. intros [] ? ?. split; eauto using some_thread_insert. Qed.

(** The counters of a list that leaves both gauges out. *)
Definition no_gauges (cs : list (repl_metric * Z)) : bool :=
  forallb (λ c, negb (bool_decide (c.1 = RepairContinuationsActive)) && negb (bool_decide (c.1 = RepairContinuationKeysPending))) cs.
Lemma no_gauges_keep cs ms : no_gauges cs = true →
  apply_counts cs ms RepairContinuationsActive = ms RepairContinuationsActive ∧
  apply_counts cs ms RepairContinuationKeysPending = ms RepairContinuationKeysPending.
Proof.
  revert ms. induction cs as [|[m d] cs IH]; intros ms Hn; [done|]. cbn [no_gauges forallb] in Hn.
  rewrite !andb_true_iff, !negb_true_iff, !bool_decide_eq_false in Hn. destruct Hn as [[H1 H2] Hn].
  destruct (IH (repl_add m d ms) Hn) as [E1 E2]. unfold apply_counts in *. cbn [foldl fst snd].
  unfold repl_add, repl_store in *. by rewrite E1, E2, !bool_decide_eq_false_2 by (cbn in *; congruence).
Qed.

Lemma publish_ok es t before after s : no_gauges after = true → repairs_ok s →
  map_Forall (continuation_ok (match t with Some (t, pc) => <[t := pc]> (cs_threads s) | None => cs_threads s end)) es →
  (∀ i pc, t = Some (i, pc) → sending_ok pc) → repairs_ok (publish es t before after s).
Proof.
  intros Ha Hok Hes Ht. split; cbn [publish cs_entries cs_threads cs_metrics]; [done| |..].
  2, 3: by destruct (no_gauges_keep after (updateGaugesLocked es (apply_counts before (cs_metrics s))) Ha) as [E1 E2]; rewrite ?E1, ?E2.
  destruct t as [[t pc]|]; [|apply Hok]. apply map_Forall_insert_2; [by eapply Ht|apply Hok].
Qed.

Ltac served := unfold waits_for, sends_for in *; cbn in *; rewrite ?bool_decide_eq_true in *; try done; try congruence.
Ltac kept Hok Ht := apply continuation_ok_moved; [by apply (ro_entries _ Hok)|rewrite Ht; intros; served..].

Lemma repair_Schedule_ok t peer keys s s' : repairs_ok s → repair_Schedule peers limits t peer keys s = Some s' → repairs_ok s'.
Proof.
  intros Hok. unfold repair_Schedule. destruct (_ || _); [by intros [= <-]|]. unfold schedule_entry. set (id := repairPeerKey (peers peer)).
  destruct (mergeRepairContinuationKeys _ _ _) as [pending d] eqn:Em. apply merge_spec in Em as (_ & Hsize & _).
  pose proof continuation_max_pos as Hmax.
  destruct (cs_entries s !! id) as [e|] eqn:Ee; cbn [default from_option Datatypes.id rc_pending rc_running rc_scheduled rc_inFlight rc_attempt] in *.
  - pose proof (ro_entries _ Hok _ _ Ee) as [Ha Hs Hr Hp Hf Hat].
    destruct (rc_running e) eqn:Er, (rc_scheduled e) eqn:Es; cbn in *; try done; intros [= <-]; apply publish_ok; try done;
      (apply map_Forall_insert_2; [|apply Hok]); split; cbn; auto with lia; try (unfold attempt_ok, maxRepairContinuationAttempts; lia).
  - rewrite size_empty in Hsize. cbn. destruct (cs_threads s !! t) eqn:Et; [done|]. intros [= <-]. apply publish_ok; try done.
    2: by intros ? ? [= <- <-].
    apply map_Forall_insert_2.
    + split; cbn; try done; [intros _; apply some_thread_here; served|lia..|unfold attempt_ok, maxRepairContinuationAttempts; lia].
    + intros id' e' He'. kept Hok Et.
Qed.
Lemma repair_run_ok t id s : repairs_ok s → cs_threads s !! t = Some (RWait id) → repairs_ok (repair_run t id s).
Proof.
  intros Hok Ht. unfold repair_run. destruct (cs_entries s !! id) as [e|] eqn:Ee.
  - pose proof (ro_entries _ Hok _ _ Ee) as [Ha Hs Hr Hp Hf Hat].
    assert (len (repairContinuationKeys (rc_pending e)) <= max_keys ∧ NoDup (repairContinuationKeys (rc_pending e))) as [Hl Hnd].
    { unfold len. rewrite repairContinuationKeys_elements. split; [exact Hp|apply NoDup_elements]. }
    pose proof continuation_max_pos. apply publish_ok; try done; [|by intros ? ? [= <- <-]].
    intros id' e' [[<- <-]|[Hne He]]%lookup_insert_Some; [|kept Hok Ht].
    split; cbn; try done; [intros _; apply some_thread_here; served|rewrite size_empty; lia|unfold len in *; lia].
  - split; cbn; try apply Hok; [|apply map_Forall_insert_2; [done|apply Hok]]. intros id' e' He'. kept Hok Ht.
Qed.
Lemma repair_sent_ok t id peer keys attempt r s : repairs_ok s → cs_threads s !! t = Some (RSending id peer keys attempt) →
  repairs_ok (repair_sent limits t id attempt r s).
Proof.
  intros Hok Ht. destruct (ro_threads _ Hok _ _ Ht) as (_ & _ & Hatt). unfold repair_sent.
  destruct (cs_entries s !! id) as [e|] eqn:Ee.
  2: { split; cbn -[apply_counts]; try apply Hok; [|apply map_Forall_insert_2; [done|apply Hok]]. intros id' e' He'. kept Hok Ht. }
  pose proof (ro_entries _ Hok _ _ Ee) as [Ha Hs Hr Hp Hf Hat]. pose proof continuation_max_pos.
  set (again := match r with Ok deferred => _ | Err _ => _ end).
  destruct (if again then _ else _) as [pending d] eqn:Ed.
  assert (Z.of_nat (size pending) <= max_keys ∧ attempt_ok (if again then attempt + 1 else rc_attempt e)) as [Hsize Hatt'].
  { destruct again eqn:Eg; [|by injection Ed as <- <-]. apply merge_spec in Ed as (_ & Hsize & _). split; [lia|].
    unfold again, attempt_ok, maxRepairContinuationAttempts in *. destruct r; [|done]. lia. }
  destruct (0 <? _); apply publish_ok; try done; try (by intros ? ? [= <- <-]).
  - intros id' e' [[<- <-]|[Hne He]]%lookup_insert_Some; [|kept Hok Ht].
    split; cbn; try done; [intros _; apply some_thread_here; served|lia].
  - intros id' e' [Hne He]%lookup_delete_Some. kept Hok Ht.
Qed.
Lemma repair_forgetID_ok t id s : repairs_ok s → (t = None ∨ ∃ i, t = Some (i, RDone) ∧ cs_threads s !! i = Some (RWait id)) →
  repairs_ok (repair_forgetID t id s).
Proof.
  intros Hok Ht. unfold repair_forgetID. apply publish_ok; [by destruct (match _ with Some _ => _ | None => _ end)|done| |].
  - intros id' e' [Hne He]%lookup_delete_Some. destruct Ht as [->|(i & -> & Ht)]; [by apply (ro_entries _ Hok)|]. kept Hok Ht.
  - intros i pc ->. by destruct Ht as [|(? & [= -> ->] & _)].
Qed.
Lemma repair_reached_ok s : repair_reached peers limits s → repairs_ok s.
Proof.
  induction 1 as [|s a s' _ Hok Hs]; [by split|]. destruct a as [|t peer keys|peer|t|t r|t]; cbn [repair_step] in Hs.
  - injection Hs as <-. split; apply Hok.
  - by eapply repair_Schedule_ok.
  - injection Hs as <-. apply repair_forgetID_ok; auto.
  - destruct (cs_threads s !! t) as [[]|] eqn:Et; try done. injection Hs as <-. by apply repair_run_ok.
  - destruct (cs_threads s !! t) as [[]|] eqn:Et; try done. injection Hs as <-. by eapply repair_sent_ok.
  - destruct (cs_threads s !! t) as [[]|] eqn:Et; try done. destruct (cs_cancelled s); [|done]. injection Hs as <-.
    apply repair_forgetID_ok; eauto.
Qed.
End repair_scheduler.

Lemma continuations_active_size es : map_Forall (λ _ e, rc_scheduled e || rc_running e = true) es →
  continuations_active es = Z.of_nat (size es).
Proof.
  unfold continuations_active, continuations in *. apply (map_fold_weak_ind (λ r (m : gmap bytes repairContinuationEntry),
    map_Forall (λ _ e, rc_scheduled e || rc_running e = true) m → r = Z.of_nat (size m))).
  - done.
  - intros i e m r Hi IH [He Hm]%map_Forall_insert; [|done]. rewrite He, IH, map_size_insert_None by done. lia.
Qed.

(** C32: in every interleaving of deferred repairs, disconnections, timers,
    cancellation and repairs that end in any way, an entry of the queue that is
    scheduled has a goroutine that waits for its timer and a running one has a
    goroutine that sends, so no deferred key is left behind; queues and batches
    stay within the key limit, an entry is retried at most once, both gauges
    equal the table at every moment, and [Schedule] queues every key under the
    key of the peer's connection, for that peer, or counts the drop. *)
Theorem deferred_repairs_served {P : Type} `{NodePeer P} (peers : nat → P) limits s : repair_reached peers limits s →
  (∀ id e, cs_entries s !! id = Some e →
     ((rc_scheduled e = true ∧ some_thread (waits_for id) (cs_threads s)) ∨
      (rc_running e = true ∧ some_thread (sends_for id) (cs_threads s))) ∧
     Z.of_nat (size (rc_pending e)) <= continuation_max limits ∧ 0 <= rc_attempt e <= maxRepairContinuationAttempts) ∧
  (∀ t id peer keys a, cs_threads s !! t = Some (RSending id peer keys a) → len keys <= continuation_max limits ∧ NoDup keys) ∧
  cs_metrics s RepairContinuationsActive = Z.of_nat (size (cs_entries s)) ∧
  cs_metrics s RepairContinuationKeysPending = continuations_pending (cs_entries s) ∧
  (map_Forall (λ _ pc, pc = RDone) (cs_threads s) → cs_entries s = ∅) ∧
  (∀ t peer keys s', cs_cancelled s = false → repair_Schedule peers limits t peer keys s = Some s' →
     cs_metrics s' RepairContinuationsDropped = (cs_metrics s RepairContinuationsDropped + 1) mod 2 ^ 64 ∨
     ∀ k, k ∈ keys → ∃ e, cs_entries s' !! repairPeerKey (peers peer) = Some e ∧ rc_peer e = peer ∧ k ∈ rc_pending e).
Proof.
  intros Hok%repair_reached_ok. pose proof Hok as [He Ht Ha Hp].
  assert (∀ id e, cs_entries s !! id = Some e →
     (rc_scheduled e = true ∧ some_thread (waits_for id) (cs_threads s)) ∨
     (rc_running e = true ∧ some_thread (sends_for id) (cs_threads s))) as Hserved.
  { intros id e Hi. destruct (He id e Hi) as [Hact Hs Hr _ _ _]. apply orb_true_iff in Hact as [Hact|Hact]; auto. }
  split_and!.
  - intros id e Hi. destruct (He id e Hi). auto.
  - intros t id peer keys a Hi. by destruct (Ht _ _ Hi) as (? & ? & _).
  - rewrite Ha. apply continuations_active_size. intros id e Hi. by destruct (He id e Hi).
  - done.
  - intros Hdone. apply map_empty. intros id. apply eq_None_not_Some. intros [e Hi].
    destruct (Hserved id e Hi) as [[_ (t & pc & Hpc & Hw)]|[_ (t & pc & Hpc & Hw)]]; by rewrite (Hdone t pc Hpc) in Hw.
  - intros t peer keys s' Hc Hs. unfold repair_Schedule in Hs. rewrite Hc, orb_false_r in Hs.
    destruct (Z.eqb_spec (len keys) 0) as [E|_]; [right; apply len_zero in E; subst keys; by intros k ?%elem_of_nil|].
    unfold schedule_entry in Hs. destruct (mergeRepairContinuationKeys _ _ _) as [pending []] eqn:Em.
    + left. destruct (negb _ && negb _); [destruct (cs_threads s !! t); [done|]|]; by injection Hs as <-.
    + right. apply merge_spec in Em as (_ & _ & Hall). specialize (Hall eq_refl). rewrite Forall_forall in Hall.
      intros k Hk. destruct (negb _ && negb _); [destruct (cs_threads s !! t); [done|]|]; injection Hs as <-;
        (eexists; split; [apply lookup_insert_eq|split; [done|by apply Hall]]).
Qed.

(** ** The limit on repair reads and writes *)

Definition defaultMaxRepairOps : Z := 4.

(** [LTry]: counted as queued, before the first [select]; [LBlocked]: before the
    second; [LTaken]: has the slot, not counted as started; [LHolding]: until
    [release] is called; [LReturning]: before the slot is put back. *)
Inductive limiter_pc := LCall | LTry | LBlocked | LTaken | LHolding | LReturning | LRejected | LDone.
Record repairIOLimiter := mkLimiter {
  lm_slots : Z;
  lm_capacity : Z;
  lm_threads : gmap nat limiter_pc;
  lm_metrics : replicationMetrics;
  lm_cancelled : bool
}.
Definition newRepairIOLimiter (maxOps : Z) : repairIOLimiter :=
  let maxOps := if maxOps <=? 0 then defaultMaxRepairOps else maxOps in mkLimiter maxOps maxOps ∅ (λ _, 0) false.

Inductive limiter_action :=
  | LmCancel | LmAcquire (t : nat) | LmRun (t : nat) | LmTake (t : nat) | LmGiveUp (t : nat) | LmBlock (t : nat).

Definition at_limiter (t : nat) (pc : limiter_pc) (d : Z) (cs : list (repl_metric * Z)) (l : repairIOLimiter) : repairIOLimiter :=
  mkLimiter (lm_slots l + d) (lm_capacity l) (<[t := pc]> (lm_threads l)) (apply_counts cs (lm_metrics l)) (lm_cancelled l).
Definition in_queue (pc : limiter_pc) : bool := match pc with LTry | LBlocked | LTaken => true | _ => false end.
Definition selecting (pc : limiter_pc) : bool := match pc with LTry | LBlocked => true | _ => false end.
Definition holding (pc : limiter_pc) : bool := match pc with LHolding => true | _ => false end.
Definition has_slot (pc : limiter_pc) : bool := match pc with LTaken | LHolding | LReturning => true | _ => false end.

Definition limiter_step (a : limiter_action) (l : repairIOLimiter) : option repairIOLimiter :=
  match a with
  | LmCancel => Some (mkLimiter (lm_slots l) (lm_capacity l) (lm_threads l) (lm_metrics l) true)
  | LmAcquire t => match lm_threads l !! t with None => Some (at_limiter t LCall 0 [] l) | Some _ => None end
  | LmRun t =>
      match lm_threads l !! t with
      | Some LCall =>
          if lm_cancelled l then Some (at_limiter t LRejected 0 [(RepairIOOpsRejected, 1)] l)
          else Some (at_limiter t LTry 0 [(RepairIOOpsQueued, 1)] l)
      | Some LTaken =>
          Some (at_limiter t LHolding 0 [(RepairIOOpsQueued, -1); (RepairIOOpsStarted, 1); (RepairIOOpsInFlight, 1)] l)
      | Some LHolding => Some (at_limiter t LReturning 0 [(RepairIOOpsCompleted, 1); (RepairIOOpsInFlight, -1)] l)
      | Some LReturning => if lm_slots l <? lm_capacity l then Some (at_limiter t LDone 1 [] l) else None
      | _ => None
      end
  | LmTake t =>
      match lm_threads l !! t with
      | Some pc => if selecting pc && (0 <? lm_slots l) then Some (at_limiter t LTaken (-1) [] l) else None
      | None => None
      end
  | LmGiveUp t =>
      match lm_threads l !! t with
      | Some pc => if selecting pc && lm_cancelled l
                   then Some (at_limiter t LRejected 0 [(RepairIOOpsQueued, -1); (RepairIOOpsRejected, 1)] l) else None
      | None => None
      end
  | LmBlock t =>
      match lm_threads l !! t with
      | Some LTry => if (lm_slots l <=? 0) && negb (lm_cancelled l) then Some (at_limiter t LBlocked 0 [(RepairIOOpsWaited, 1)] l) else None
      | _ => None
      end
  end.
Inductive limiter_reached (maxOps : Z) : repairIOLimiter → Prop :=
  | limiter_start : limiter_reached maxOps (newRepairIOLimiter maxOps)
  | limiter_next l a l' : limiter_reached maxOps l → limiter_step a l = Some l' → limiter_reached maxOps l'.

Record limiter_ok (cap : Z) (l : repairIOLimiter) : Prop := {
  lo_capacity : lm_capacity l = cap;
  lo_slots : 0 <= lm_slots l;
  lo_balance : lm_slots l + tally_of has_slot (lm_threads l) = cap;
  lo_queued : lm_metrics l RepairIOOpsQueued = to_int64 (tally_of in_queue (lm_threads l));
  lo_inFlight : lm_metrics l RepairIOOpsInFlight = to_int64 (tally_of holding (lm_threads l))
}.

Lemma at_limiter_ok cap l t pc d cs : limiter_ok cap l → 0 <= lm_slots l + d →
  let was P := from_option (λ y, Z.b2z (P y)) 0 (lm_threads l !! t) in
  d = was has_slot - Z.b2z (has_slot pc) →
  gain RepairIOOpsQueued cs = Z.b2z (in_queue pc) - was in_queue →
  gain RepairIOOpsInFlight cs = Z.b2z (holding pc) - was holding → limiter_ok cap (at_limiter t pc d cs l).
Proof.
  intros [Hc Hs Hb Hq Hf] Hd was E1 E2 E3. subst was. cbn beta in *.
  split; cbn [at_limiter lm_capacity lm_slots lm_threads lm_metrics]; rewrite ?tally_insert; [done..|lia| |].
  - etrans; [exact (apply_counts_wrap RepairIOOpsQueued cs _ _ Hq)|]. unfold wrap. cbn [repl_gauge]. f_equal. lia.
  - etrans; [exact (apply_counts_wrap RepairIOOpsInFlight cs _ _ Hf)|]. unfold wrap. cbn [repl_gauge]. f_equal. lia.
Qed.
Lemma limiter_reached_ok maxOps l : limiter_reached maxOps l → limiter_ok (if maxOps <=? 0 then defaultMaxRepairOps else maxOps) l.
Proof.
  induction 1 as [|l a l' _ Hok Hs].
  - unfold newRepairIOLimiter, defaultMaxRepairOps.
    split; cbn [lm_capacity lm_slots lm_threads lm_metrics]; try done; destruct (Z.leb_spec maxOps 0); try done; try lia.
    change (tally_of has_slot ∅) with 0. lia.
  - destruct a as [|t|t|t|t|t]; cbn [limiter_step] in Hs; [injection Hs as <-; split; apply Hok|..];
      destruct (lm_threads l !! t) as [pc|] eqn:Et; try done; try (destruct pc); cbn [selecting andb] in Hs; try done;
      repeat match type of Hs with context [if ?b then _ else _] => destruct b eqn:?; try done end; injection Hs as <-;
      apply at_limiter_ok; rewrite ?Et; try done; pose proof (lo_slots _ _ Hok); lia.
Qed.

(** at most [maxOps] repair operations, or the default, hold a slot at any
    time, whatever the peers and the cancellation do; the gauges of queued and of
    running operations are exact, giving a slot back never blocks, and when all
    operations are over every slot is back. *)
Theorem repair_io_bounded maxOps l : limiter_reached maxOps l →
  let cap := if maxOps <=? 0 then defaultMaxRepairOps else maxOps in
  tally_of has_slot (lm_threads l) <= cap ∧
  lm_metrics l RepairIOOpsQueued = to_int64 (tally_of in_queue (lm_threads l)) ∧
  lm_metrics l RepairIOOpsInFlight = to_int64 (tally_of holding (lm_threads l)) ∧
  (∀ t, lm_threads l !! t = Some LReturning → ∃ l', limiter_step (LmRun t) l = Some l') ∧
  (map_Forall (λ _ pc, has_slot pc = false) (lm_threads l) → lm_slots l = cap).
Proof.
  intros [Hc Hs Hb Hq Hf]%limiter_reached_ok cap. split_and!; [lia|done..| |].
  - intros t Ht. cbn. rewrite Ht. assert (lm_slots l < lm_capacity l) as Hlt%Z.ltb_lt; [|rewrite Hlt; eauto].
    assert (1 <= tally_of has_slot (lm_threads l)); [|lia]. unfold tally_of.
    assert (size (filter (λ p, has_slot p.2 = true) (lm_threads l)) ≠ 0%nat); [|lia].
    apply (map_size_ne_0_lookup_2 _ t). exists LReturning. by apply map_lookup_filter_Some.
  - intros Hno. assert (tally_of has_slot (lm_threads l) = 0); [|lia]. unfold tally_of. rewrite map_empty_filter_2; [done|].
    intros t pc Ht. cbn. by rewrite (Hno t pc Ht).
Qed.

(** ** Examples *)

Definition run_inventory {P : Type} `{NodePeer P} (peers : nat → P) (acts : list inventory_action) (s : inventoryExchangeScheduler) : inventoryExchangeScheduler :=
  foldl (λ s a, default s (inventory_step peers a s)) s acts.
Lemma run_inventory_reached {P : Type} `{NodePeer P} (peers : nat → P) acts s :
  inventory_reached peers s → inventory_reached peers (run_inventory peers acts s).
Proof.
  unfold run_inventory. revert s. induction acts as [|a acts IH]; intros s Hs; cbn [foldl]; [done|].
  apply IH. destruct (inventory_step peers a s) eqn:E; [by econstructor|done].
Qed.
Definition run_repairs {P : Type} `{NodePeer P} (peers : nat → P) limits (acts : list repair_action) (s : repairContinuationScheduler) : repairContinuationScheduler :=
  foldl (λ s a, default s (repair_step peers limits a s)) s acts.
Lemma run_repairs_reached {P : Type} `{NodePeer P} (peers : nat → P) limits acts s :
  repair_reached peers limits s → repair_reached peers limits (run_repairs peers limits acts s).
Proof.
  unfold run_repairs. revert s. induction acts as [|a acts IH]; intros s Hs; cbn [foldl]; [done|].
  apply IH. destruct (repair_step peers limits a s) eqn:E; [by econstructor|done].
Qed.
Definition run_limiter (acts : list limiter_action) (l : repairIOLimiter) : repairIOLimiter :=
  foldl (λ l a, default l (limiter_step a l)) l acts.
Lemma run_limiter_reached maxOps acts l : limiter_reached maxOps l → limiter_reached maxOps (run_limiter acts l).
Proof.
  unfold run_limiter. revert l. induction acts as [|a acts IH]; intros l Hl; cbn [foldl]; [done|].
  apply IH. destruct (limiter_step a l) eqn:E; [by econstructor|done].
Qed.

(** Connections of one remote node, from different ports. *)
Record tcp_endpoints := mkEndpoints { ep_local : bytes; ep_remote : bytes; ep_outbound : bool }.
#[export] Instance endpoints_NodePeer : NodePeer tcp_endpoints := {|
  LocalAddr p := Some (ep_local p);
  RemoteAddr := ep_remote;
  IsOutbound := ep_outbound;
  AuthIdentity _ := None;
  AuthCapabilitiesOf _ := None;
  WritesFrames _ := true
|}.
Definition ex_endpoints (peer : nat) : tcp_endpoints :=
  mkEndpoints (lit "10.0.0.1:7000") (lit "10.0.0.2:" ++ [Zbyte (48 + Z.of_nat peer mod 10)]) false.
Definition ex_id : bytes := repairPeerKey (ex_endpoints 7).
(** An exchange that runs out of budget once, is resumed and completes; the
    connection that replaces the peer's has an exchange of its own. *)
Definition ex_exchange : inventoryExchangeScheduler :=
  run_inventory ex_endpoints [IsStart 0 7; IsRun 0; IsExchanged 0 (Ok (lit "k", false)); IsRun 0; IsTimer 0; IsRun 0;
                 IsStart 1 8; IsExchanged 0 (Ok ([], true)); IsRun 0; IsRun 0; IsRun 1; IsExchanged 1 (Ok ([], true)); IsRun 1; IsRun 1] newInventoryExchangeScheduler.
Lemma ex_exchange_done : is_threads ex_exchange = {[0%nat := IDone; 1%nat := IDone]}.
Proof. vm_compute. reflexivity. Qed.
Lemma inventory_exchanges_served_witness :
  is_threads ex_exchange = {[0%nat := IDone; 1%nat := IDone]} ∧ is_entries ex_exchange = ∅ ∧ is_metrics ex_exchange InventoryExchangesActive = 0.
Proof.
  split; [exact ex_exchange_done|].
  apply (inventory_exchanges_served ex_endpoints ex_exchange (run_inventory_reached _ _ _ (inventory_start _))).
  rewrite ex_exchange_done. apply map_Forall_insert_2; [done|]. by apply map_Forall_singleton.
Defined.

(** Two keys are deferred; the first run sends one and defers the other again. *)
Definition ex_limits : ReplicationLimits := mkReplicationLimits 0 0 0 0.
Definition ex_repairs : repairContinuationScheduler :=
  run_repairs ex_endpoints ex_limits [RsSchedule 0 7 [lit "a"; lit "b"]; RsTimer 0; RsSent 0 (Ok [lit "b"])] newRepairContinuationScheduler.
Lemma deferred_repairs_served_witness :
  cs_metrics ex_repairs RepairContinuationsActive = Z.of_nat (size (cs_entries ex_repairs)) ∧
  some_thread (waits_for ex_id) (cs_threads ex_repairs).
Proof.
  destruct (deferred_repairs_served ex_endpoints ex_limits ex_repairs (run_repairs_reached _ _ _ _ (repair_start _ _))) as (He & _ & Ha & _).
  split; [exact Ha|].
  destruct (He ex_id (mkContinuation 7 {[lit "b"]} 0 1 false true)) as [[[_ Hw]|[Hr _]] _]; [vm_compute; reflexivity|exact Hw|done].
Defined.

Definition ex_limiter : repairIOLimiter :=
  run_limiter [LmAcquire 0; LmAcquire 1; LmRun 0; LmRun 1; LmTake 0; LmBlock 1; LmRun 0; LmRun 0; LmRun 0; LmTake 1; LmRun 1]
    (newRepairIOLimiter 1).
Lemma repair_io_bounded_witness : tally_of has_slot (lm_threads ex_limiter) <= 1 ∧ lm_metrics ex_limiter RepairIOOpsInFlight = 1.
Proof.
  destruct (repair_io_bounded 1 ex_limiter (run_limiter_reached 1 _ _ (limiter_start 1))) as (Hc & _ & Hf & _).
  split; [exact Hc|]. rewrite Hf. vm_compute. reflexivity.
Defined.
