(* ===== verification/Reconnect.v ===== *)
(** * Reconnecting to the configured peers

    [peerReconnector] of main.go with its backoff and the flags that configure
    it.  The reconnector's goroutines and the callbacks of the transport run
    concurrently over its two tables; a goroutine is a program counter, and one
    step is one critical section, one check of the context, one sleep or one
    dial.  [TCPTransport.Dial] and the connections it makes are events; [Dial]
    returns nil both when it has registered a connection and when the transport
    has closed it, because its address is taken or there are enough peers. *)
From S2P Require Import Prelude Go Bits Text Json Os Model Codec Journal Transport Repair Blobs Inventory Applier Session Runtime Protocol Peers Wire Exchange Replicate Delivery Schedulers.

(** ** Configuration *)

(** [strings.TrimSpace]: the encodings of the runes that are white space. *)
Definition space_encodings : list (list Z) :=
  [[9]; [10]; [11]; [12]; [13]; [32]; [194; 133]; [194; 160]; [225; 154; 128]] ++
  map (λ i, [226; 128; 128 + Z.of_nat i]) (seq 0 11) ++ [[226; 128; 168]; [226; 128; 169]; [226; 128; 175]; [226; 129; 159]; [227; 128; 128]].
Definition spaces : list bytes := map (map Zbyte) space_encodings.

Fixpoint trim (fuel : nat) (sps : list bytes) (s : bytes) : bytes :=
  match fuel with
  | O => s
  | S fuel' =>
      match list_find (λ sp, sp `prefix_of` s) sps with
      | Some (_, sp) => trim fuel' sps (drop (length sp) s)
      | None => s
      end
  end.
Definition TrimSpace (s : bytes) : bytes :=
  let s := trim (length s) spaces s in reverse (trim (length s) (map reverse spaces) (reverse s)).

(** [strings.Split] at a single byte. *)
Fixpoint strings_Split (s : bytes) (sep : Byte.byte) : list bytes :=
  match s with
  | [] => [[]]
  | c :: s' =>
      if bool_decide (c = sep) then [] :: strings_Split s' sep
      else match strings_Split s' sep with p :: ps => (c :: p) :: ps | [] => [[c]] end
  end.
Definition comma : Byte.byte := Zbyte 44.

Fixpoint parse_parts (empty : error) (parts : list bytes) : result (list bytes) :=
  match parts with
  | [] => Ok []
  | part :: parts' =>
      let target := TrimSpace part in
      if len target =? 0 then Err empty
      else rest <-? parse_parts empty parts' ; Ok (target :: rest)
  end.
Definition parsePeerList (peers : bytes) : result (list bytes) :=
  if len (TrimSpace peers) =? 0 then Ok []
  else parse_parts (ErrText (lit "peers: empty peer address")) (strings_Split peers comma).
Definition parsePeerIdentityList (identities : bytes) : result (list bytes) :=
  if len (TrimSpace identities) =? 0 then Ok []
  else parse_parts (ErrText (lit "peers: empty peer identity")) (strings_Split identities comma).
Definition combinePeerTargets (dial : bytes) (peers : list bytes) : list bytes :=
  (if len dial =? 0 then [] else [dial]) ++ peers.
Definition parsePeerTargets (dial peers : bytes) : result (list bytes) :=
  peerList <-? parsePeerList peers ; Ok (combinePeerTargets (TrimSpace dial) peerList).

Definition validateReconnectBackoff (minBackoff maxBackoff : Z) : result unit :=
  if minBackoff <=? 0 then Err (ErrText (lit "peers: -peer-reconnect-min must be greater than zero"))
  else if maxBackoff <? minBackoff
  then Err (ErrText (lit "peers: -peer-reconnect-max must be greater than or equal to -peer-reconnect-min"))
  else Ok tt.
(** On [int64]. *)
Definition nextBackoff (current maxDelay : Z) : Z :=
  let next := to_int64 (current * 2) in
  if (next <=? 0) || (maxDelay <? next) then maxDelay else next.

(** ** The reconnector *)

Record peerReconnectMetrics := mkReconnectMetrics {
  rm_Targets : Z; rm_Active : Z; rm_Attempts : Z; rm_Failures : Z; rm_Successes : Z
}.
Definition reconnect_Snapshot (m : option peerReconnectMetrics) : list (bytes * Z) :=
  let m := default (mkReconnectMetrics 0 0 0 0 0) m in
  [(lit "peer_reconnect_targets", rm_Targets m); (lit "peer_reconnect_active", rm_Active m);
   (lit "peer_reconnect_attempts", to_int64 (rm_Attempts m)); (lit "peer_reconnect_failures", to_int64 (rm_Failures m));
   (lit "peer_reconnect_successes", to_int64 (rm_Successes m))].

(** [RNote]: in [noteDisconnect]; [RSchedule]: in [schedule]; [RInit] to
    [RBackoff]: in [loop]; [RReturned]: in it, when [Dial] is about to return nil;
    [RFinish]: in its deferred function, before [finishLoop]; [RLower]: after it,
    before the gauge is lowered. *)
Inductive reconnect_pc :=
  | RNote (target : bytes)
  | RSchedule (target : bytes) (delay : Z)
  | RInit (target : bytes) (delay : Z)
  | RHead (target : bytes) (delay : Z)
  | RDialing (target : bytes) (delay : Z)
  | RBackoff (target : bytes) (delay : Z)
  | RReturned (target : bytes)
  | RFinish (target : bytes)
  | RLower (target : bytes) (retry : bool)
  | REnd.

(** [rr_conns] are the connections that [Dial] made and that are still up: the
    remote address and the dial target of each.  [rr_started] are the targets that
    [Start] has scheduled, and [rr_unregistered] those whose last nil from [Dial]
    came without a connection. *)
Record peerReconnector := mkReconnector {
  rr_target : gset bytes;
  rr_dialing : gset bytes;
  rr_pending : gset bytes;
  rr_metrics : peerReconnectMetrics;
  rr_threads : gmap nat reconnect_pc;
  rr_conns : gmap nat (bytes * bytes);
  rr_started : gset bytes;
  rr_unregistered : gset bytes;
  rr_cancelled : bool
}.
Definition newPeerReconnector (targets : list bytes) : peerReconnector :=
  mkReconnector (list_to_set targets) ∅ ∅ (mkReconnectMetrics (Z.of_nat (size (list_to_set targets : gset bytes))) 0 0 0 0) ∅ ∅ ∅ ∅ false.

Inductive reconnect_action :=
  | RcCancel
  | RcStart (t : nat) (target : bytes)
  | RcLost (t c : nat)
  | RcOther (t : nat) (outbound : bool) (remote dialTarget : bytes)
  | RcRun (t : nat)
  | RcSlept (t : nat)
  | RcWoken (t : nat)
  | RcDialed (t : nat) (r : result (option (nat * bytes))).

Definition set_thread (t : nat) (pc : reconnect_pc) (r : peerReconnector) : peerReconnector :=
  mkReconnector (rr_target r) (rr_dialing r) (rr_pending r) (rr_metrics r) (<[t := pc]> (rr_threads r)) (rr_conns r) (rr_started r) (rr_unregistered r) (rr_cancelled r).
Definition set_tables (dialing pending : gset bytes) (r : peerReconnector) : peerReconnector :=
  mkReconnector (rr_target r) dialing pending (rr_metrics r) (rr_threads r) (rr_conns r) (rr_started r) (rr_unregistered r) (rr_cancelled r).
Definition set_conns (conns : gmap nat (bytes * bytes)) (r : peerReconnector) : peerReconnector :=
  mkReconnector (rr_target r) (rr_dialing r) (rr_pending r) (rr_metrics r) (rr_threads r) conns (rr_started r) (rr_unregistered r) (rr_cancelled r).
Definition set_started (started : gset bytes) (r : peerReconnector) : peerReconnector :=
  mkReconnector (rr_target r) (rr_dialing r) (rr_pending r) (rr_metrics r) (rr_threads r) (rr_conns r) started (rr_unregistered r) (rr_cancelled r).
Definition set_unregistered (unregistered : gset bytes) (r : peerReconnector) : peerReconnector :=
  mkReconnector (rr_target r) (rr_dialing r) (rr_pending r) (rr_metrics r) (rr_threads r) (rr_conns r) (rr_started r) unregistered (rr_cancelled r).
Definition add_metrics (active attempts failures successes : Z) (r : peerReconnector) : peerReconnector :=
  let m := rr_metrics r in
  mkReconnector (rr_target r) (rr_dialing r) (rr_pending r)
    (mkReconnectMetrics (rm_Targets m) (to_int64 (rm_Active m + active)) ((rm_Attempts m + attempts) mod 2 ^ 64)
       ((rm_Failures m + failures) mod 2 ^ 64) ((rm_Successes m + successes) mod 2 ^ 64))
    (rr_threads r) (rr_conns r) (rr_started r) (rr_unregistered r) (rr_cancelled r).

(** The target that [OnPeerDisconnected] reconnects to, if any. *)
Definition disconnect_target (targets : gset bytes) (outbound : bool) (remote dialTarget : bytes) : option bytes :=
  if negb outbound then None
  else
    let target := if len dialTarget =? 0 then remote else dialTarget in
    if bool_decide (target ∈ targets) then Some target else None.

Section reconnector.
Context (minBackoff maxBackoff : Z).

Definition OnPeerDisconnected (t : nat) (outbound : bool) (remote dialTarget : bytes) (r : peerReconnector) : option peerReconnector :=
  match disconnect_target (rr_target r) outbound remote dialTarget with
  | None => Some r
  | Some target => match rr_threads r !! t with None => Some (set_thread t (RNote target) r) | Some _ => None end
  end.

Definition noteDisconnect (t : nat) (target : bytes) (r : peerReconnector) : peerReconnector :=
  if rr_cancelled r then set_thread t REnd r
  else if bool_decide (target ∈ rr_dialing r) then set_thread t REnd (set_tables (rr_dialing r) ({[target]} ∪ rr_pending r) r)
  else set_thread t (RSchedule target minBackoff) r.

(** The goroutine [go r.loop] goes on as the one that scheduled it. *)
Definition reconnect_schedule (t : nat) (target : bytes) (initialDelay : Z) (r : peerReconnector) : peerReconnector :=
  if rr_cancelled r then set_thread t REnd r
  else if bool_decide (target ∈ rr_dialing r) then set_thread t REnd r
  else set_thread t (RInit target initialDelay) (add_metrics 1 0 0 0 (set_tables ({[target]} ∪ rr_dialing r) (rr_pending r) r)).

Definition finishLoop (t : nat) (target : bytes) (r : peerReconnector) : peerReconnector :=
  set_thread t (RLower target (bool_decide (target ∈ rr_pending r)))
    (set_tables (rr_dialing r ∖ {[target]}) (rr_pending r ∖ {[target]}) r).

(** The steps of [loop] that are not a sleep or the return of a dial. *)
Definition reconnect_run (t : nat) (pc : reconnect_pc) (r : peerReconnector) : option peerReconnector :=
  match pc with
  | RNote target => Some (noteDisconnect t target r)
  | RSchedule target delay => Some (reconnect_schedule t target delay r)
  | RInit target delay => if 0 <? delay then None else Some (set_thread t (RHead target minBackoff) r)
  | RHead target delay =>
      if rr_cancelled r then Some (set_thread t (RFinish target) r)
      else Some (set_thread t (RDialing target delay) (add_metrics 0 1 0 0 r))
  | RReturned target => Some (set_thread t (RFinish target) (add_metrics 0 0 0 1 r))
  | RFinish target => Some (finishLoop t target r)
  | RLower target retry =>
      let r := add_metrics (-1) 0 0 0 r in
      Some (set_thread t (if retry && negb (rr_cancelled r) then RSchedule target minBackoff else REnd) r)
  | _ => None
  end.

(** What [Dial] does before it returns: it registers the connection [c] to
    [remote], it closes the connection without registering it and returns nil, or
    it returns an error. *)
Definition reconnect_dialed (t : nat) (target : bytes) (delay : Z) (res : result (option (nat * bytes))) (r : peerReconnector)
    : option peerReconnector :=
  match res with
  | Ok (Some (c, remote)) =>
      match rr_conns r !! c with
      | None => Some (set_thread t (RReturned target) (set_unregistered (rr_unregistered r ∖ {[target]}) (set_conns (<[c := (remote, target)]> (rr_conns r)) r)))
      | Some _ => None
      end
  | Ok None => Some (set_thread t (RReturned target) (set_unregistered ({[target]} ∪ rr_unregistered r) r))
  | Err _ => Some (set_thread t (RBackoff target delay) (if rr_cancelled r then r else add_metrics 0 0 1 0 r))
  end.

(** The call of [schedule] that [Start] makes for a target; it takes the targets
    in any order. *)
Definition reconnect_Start (t : nat) (target : bytes) (r : peerReconnector) : option peerReconnector :=
  if bool_decide (target ∈ rr_target r) && bool_decide (rr_threads r !! t = None)
  then Some (reconnect_schedule t target 0 (set_started ({[target]} ∪ rr_started r) r))
  else None.

Definition reconnect_step (a : reconnect_action) (r : peerReconnector) : option peerReconnector :=
  match a with
  | RcCancel => Some (mkReconnector (rr_target r) (rr_dialing r) (rr_pending r) (rr_metrics r) (rr_threads r) (rr_conns r) (rr_started r) (rr_unregistered r) true)
  | RcStart t target => reconnect_Start t target r
  | RcLost t c =>
      match rr_conns r !! c with
      | Some (remote, dialTarget) => OnPeerDisconnected t true remote dialTarget (set_conns (delete c (rr_conns r)) r)
      | None => None
      end
  | RcOther t outbound remote dialTarget => OnPeerDisconnected t outbound remote dialTarget r
  | RcRun t => match rr_threads r !! t with Some pc => reconnect_run t pc r | None => None end
  | RcSlept t =>
      match rr_threads r !! t with
      | Some (RInit target _) => Some (set_thread t (RHead target minBackoff) r)
      | Some (RBackoff target delay) => Some (set_thread t (RHead target (nextBackoff delay maxBackoff)) r)
      | _ => None
      end
  | RcWoken t =>
      match rr_threads r !! t with
      | Some (RInit target _ | RBackoff target _) => if rr_cancelled r then Some (set_thread t (RFinish target) r) else None
      | _ => None
      end
  | RcDialed t res =>
      match rr_threads r !! t with Some (RDialing target delay) => reconnect_dialed t target delay res r | _ => None end
  end.
End reconnector.

Inductive reconnect_reached (minBackoff maxBackoff : Z) (targets : list bytes) : peerReconnector → Prop :=
  | reconnect_start : reconnect_reached minBackoff maxBackoff targets (newPeerReconnector targets)
  | reconnect_next r a r' : reconnect_reached minBackoff maxBackoff targets r → reconnect_step minBackoff maxBackoff a r = Some r' →
      reconnect_reached minBackoff maxBackoff targets r'.

(** ** Backoff *)

(** Doubling, without overflow, up to the largest delay. *)
Lemma nextBackoff_spec current maxDelay : 0 < current <= maxDelay → maxDelay < 2 ^ 63 →
  nextBackoff current maxDelay = Z.min maxDelay (2 * current).
Proof.
  intros Hc Hm. unfold nextBackoff, to_int64. destruct (Z.lt_ge_cases (current * 2) (2 ^ 63)) as [Hlt|Hge].
  - rewrite Z.mod_small by lia. replace (current * 2 + 2 ^ 63 - 2 ^ 63) with (current * 2) by lia.
    destruct (Z.leb_spec (current * 2) 0); [lia|]. cbn [orb]. destruct (Z.ltb_spec maxDelay (current * 2)); lia.
  - replace ((current * 2 + 2 ^ 63) mod 2 ^ 64) with (current * 2 + 2 ^ 63 - 2 ^ 64).
    2: { rewrite <- (Z_mod_plus_full _ (-1)), Z.mod_small; lia. }
    destruct (Z.leb_spec (current * 2 + 2 ^ 63 - 2 ^ 64 - 2 ^ 63) 0); cbn [orb]; lia.
Qed.

(** ** No target is forgotten *)

Definition loop_of (pc : reconnect_pc) : option bytes :=
  match pc with RInit g _ | RHead g _ | RDialing g _ | RBackoff g _ | RReturned g | RFinish g => Some g | _ => None end.
Definition ending (pc : reconnect_pc) : option bytes := match pc with RReturned g | RFinish g => Some g | _ => None end.
Definition notes (g : bytes) (pc : reconnect_pc) : bool := match pc with RNote g' => bool_decide (g' = g) | _ => false end.
Definition schedules (g : bytes) (pc : reconnect_pc) : bool :=
  match pc with RNote g' | RSchedule g' _ | RLower g' true => bool_decide (g' = g) | _ => false end.
Definition lowering (pc : reconnect_pc) : bool := match pc with RLower _ _ => true | _ => false end.
Definition delay_of (pc : reconnect_pc) : option Z :=
  match pc with RHead _ d | RDialing _ d | RBackoff _ d => Some d | _ => None end.
Definition connected (r : peerReconnector) (g : bytes) : Prop := ∃ c remote, rr_conns r !! c = Some (remote, g).
(** Connected, or given up because the last dial was not registered. *)
Definition attached (r : peerReconnector) (g : bytes) : Prop := connected r g ∨ g ∈ rr_unregistered r.

Section invariant.
Context (minBackoff maxBackoff : Z) (targets : list bytes).
Hypothesis backoff_ok : 0 < minBackoff <= maxBackoff ∧ maxBackoff < 2 ^ 63.
Hypothesis targets_named : Forall (λ g, g ≠ []) targets.

(** The loops of the goroutines are the targets being dialled, one each. *)
Record loops_ok (threads : gmap nat reconnect_pc) (dialing pending : gset bytes) : Prop := {
  lp_dialing g : g ∈ dialing ↔ ∃ t pc, threads !! t = Some pc ∧ loop_of pc = Some g;
  lp_one t t' pc pc' g : threads !! t = Some pc → threads !! t' = Some pc' → loop_of pc = Some g → loop_of pc' = Some g → t = t';
  lp_pending : pending ⊆ dialing
}.
(** A target whose loop is at its end, or that has no loop. *)
Record targets_ok (r : peerReconnector) : Prop := {
  tg_finish t pc g : rr_threads r !! t = Some pc → ending pc = Some g → attached r g ∨ some_thread (notes g) (rr_threads r) ∨ g ∈ rr_pending r;
  tg_idle g : g ∈ rr_started r → g ∉ rr_dialing r → attached r g ∨ some_thread (schedules g) (rr_threads r)
}.
Record reconnect_ok (r : peerReconnector) : Prop := {
  rk_loops : loops_ok (rr_threads r) (rr_dialing r) (rr_pending r);
  rk_targets : rr_cancelled r = false → targets_ok r;
  rk_names : rr_target r = list_to_set targets;
  rk_known t pc g : rr_threads r !! t = Some pc → loop_of pc = Some g ∨ schedules g pc = true → g ∈ rr_target r;
  rk_conns c remote g : rr_conns r !! c = Some (remote, g) → g ∈ rr_target r;
  rk_delays t pc d : rr_threads r !! t = Some pc → delay_of pc = Some d → minBackoff <= d <= maxBackoff;
  rk_gauge : rm_Active (rr_metrics r) = to_int64 (Z.of_nat (size (rr_dialing r)) + tally_of lowering (rr_threads r))
}.

(** A goroutine moves inside its loop, or outside of any. *)
Lemma loops_same threads dialing pending t pc : loops_ok threads dialing pending →
  (threads !! t ≫= loop_of) = loop_of pc → loops_ok (<[t:=pc]> threads) dialing pending.
Proof.
  intros [Hd Ho Hp] Hpc. split; [|..|done].
  - intros g. rewrite Hd. split; intros (t' & pc' & Ht & Hl).
    + destruct (decide (t' = t)) as [->|]; [exists t, pc|exists t', pc'].
      * rewrite lookup_insert_eq. split; [done|]. rewrite Ht in Hpc. cbn in Hpc. congruence.
      * by rewrite lookup_insert_ne.
    + apply lookup_insert_Some in Ht as [[<- <-]|[Hne Ht]]; [|eauto].
      destruct (threads !! t) as [pc0|] eqn:E; cbn in Hpc; [|congruence]. exists t, pc0. split; [done|congruence].
  - intros t1 t2 pc1 pc2 g H1 H2 Hl1 Hl2.
    assert (∀ t' pc', <[t:=pc]> threads !! t' = Some pc' → loop_of pc' = Some g → ∃ pc0, threads !! t' = Some pc0 ∧ loop_of pc0 = Some g) as Hb.
    { intros t' pc' [[<- <-]|[Hne Ht]]%lookup_insert_Some Hl; [|eauto].
      destruct (threads !! t) as [pc0|] eqn:E; cbn in Hpc; [|congruence]. exists pc0. split; [done|congruence]. }
    destruct (Hb _ _ H1 Hl1) as (? & ? & ?), (Hb _ _ H2 Hl2) as (? & ? & ?). eauto.
Qed.
Lemma loops_start threads dialing pending t g d : loops_ok threads dialing pending → g ∉ dialing →
  (threads !! t ≫= loop_of) = None → loops_ok (<[t:=RInit g d]> threads) ({[g]} ∪ dialing) pending.
Proof.
  intros [Hd Ho Hp] Hg Hpc.
  assert (∀ t' pc', <[t:=RInit g d]> threads !! t' = Some pc' → t' = t ∧ pc' = RInit g d ∨ t' ≠ t ∧ threads !! t' = Some pc') as Hi.
  { intros t' pc' [[<- <-]|[? ?]]%lookup_insert_Some; auto. }
  split.
  - intros g'. rewrite elem_of_union, elem_of_singleton, Hd. split.
    + intros [->|(t' & pc' & Ht & Hl)]; [exists t, (RInit g d); by rewrite lookup_insert_eq|].
      exists t', pc'. rewrite lookup_insert_ne; [done|]. intros ->. rewrite Ht in Hpc. cbn in Hpc. congruence.
    + intros (t' & pc' & [[-> ->]|[? Ht]]%Hi & Hl); [left; cbn in Hl; congruence|right; eauto].
  - intros t1 t2 pc1 pc2 g' [[-> ->]|[? H1]]%Hi [[-> ->]|[? H2]]%Hi Hl1 Hl2; [done|..|eauto]; exfalso; apply Hg, Hd; cbn in *; naive_solver.
  - etrans; [exact Hp|]. apply union_subseteq_r.
Qed.
Lemma loops_finish threads dialing pending t g pc : loops_ok threads dialing pending → threads !! t = Some (RFinish g) → loop_of pc = None →
  loops_ok (<[t:=pc]> threads) (dialing ∖ {[g]}) (pending ∖ {[g]}).
Proof.
  intros [Hd Ho Hp] Ht Hpc. split.
  - intros g'. rewrite elem_of_difference, elem_of_singleton, Hd. split.
    + intros [(t' & pc' & Ht' & Hl) Hne]. exists t', pc'. rewrite lookup_insert_ne; [done|]. intros ->. rewrite Ht in Ht'.
      injection Ht' as <-. cbn in Hl. congruence.
    + intros (t' & pc' & [[<- <-]|[? Ht']]%lookup_insert_Some & Hl); [congruence|]. split; [eauto|]. intros ->.
      eapply H, Ho; eauto; done.
  - intros t1 t2 pc1 pc2 g' [[<- <-]|[? H1]]%lookup_insert_Some [[<- <-]|[? H2]]%lookup_insert_Some Hl1 Hl2; [done|congruence..|eauto].
  - by apply difference_mono_r.
Qed.
Lemma loops_pending threads dialing pending g : loops_ok threads dialing pending → g ∈ dialing → loops_ok threads dialing ({[g]} ∪ pending).
Proof. intros [Hd Ho Hp] Hg. split; [done..|]. apply union_subseteq. by split; [apply singleton_subseteq_l|]. Qed.

Lemma notes_schedules g pc : notes g pc = true → schedules g pc = true.
Proof. by destruct pc. Qed.

(** A goroutine moves and the tables follow. *)
Lemma targets_step r r' t pc : targets_ok r → rr_threads r' = <[t:=pc]> (rr_threads r) →
  (∀ g, attached r g → attached r' g ∨ notes g pc = true) →
  (∀ g t' pc', rr_threads r !! t' = Some pc' → ending pc' = Some g → t' ≠ t →
     from_option (notes g) false (rr_threads r !! t) = true ∨ g ∈ rr_pending r → notes g pc = true ∨ g ∈ rr_pending r') →
  (∀ g, ending pc = Some g → attached r' g ∨ some_thread (notes g) (rr_threads r') ∨ g ∈ rr_pending r') →
  (∀ g, g ∈ rr_started r' → g ∉ rr_dialing r' →
     (g ∈ rr_started r ∧ g ∉ rr_dialing r ∧ (from_option (schedules g) false (rr_threads r !! t) = true → schedules g pc = true)) ∨
     attached r' g ∨ some_thread (schedules g) (rr_threads r')) →
  targets_ok r'.
Proof.
  intros [Hf Hi] Ht Hc Hn Hp Hs. split; rewrite Ht in *.
  - intros t' pc' g [[<- <-]|[Hne Ht']]%lookup_insert_Some He; [by apply Hp|].
    destruct (Hf _ _ _ Ht' He) as [Hcn|[Hnt|Hpe]].
    + destruct (Hc _ Hcn); [by left|right; left; by apply some_thread_here].
    + destruct (from_option (notes g) false (rr_threads r !! t)) eqn:E.
      * destruct (Hn _ _ _ Ht' He) as [|]; auto. right. left. by apply some_thread_here.
      * right. left. apply some_thread_insert; [done|congruence].
    + destruct (Hn _ _ _ Ht' He) as [|]; auto. right. left. by apply some_thread_here.
  - intros g Hg Hd. destruct (Hs g Hg Hd) as [(Hg0 & Hd0 & Hk)|Hdone]; [|done].
    destruct (Hi g Hg0 Hd0) as [Hcn|Hsc].
    + destruct (Hc _ Hcn); [by left|right; apply some_thread_here]. by apply notes_schedules.
    + right. by apply some_thread_insert.
Qed.

(** The other parts of the invariant after a goroutine has moved. *)
Lemma reconnect_moved r r' t pc : reconnect_ok r → rr_threads r' = <[t:=pc]> (rr_threads r) →
  loops_ok (rr_threads r') (rr_dialing r') (rr_pending r') → (rr_cancelled r' = false → targets_ok r') →
  rr_target r' = rr_target r → rr_conns r' ⊆ rr_conns r ∨ (∃ c remote g, g ∈ rr_target r ∧ rr_conns r' = <[c:=(remote, g)]> (rr_conns r)) →
  (∀ g, loop_of pc = Some g ∨ schedules g pc = true → g ∈ rr_target r) →
  (∀ d, delay_of pc = Some d → minBackoff <= d <= maxBackoff) →
  rm_Active (rr_metrics r') = to_int64 (Z.of_nat (size (rr_dialing r')) + (tally_of lowering (rr_threads r) -
     from_option (λ y, Z.b2z (lowering y)) 0 (rr_threads r !! t) + Z.b2z (lowering pc))) → reconnect_ok r'.
Proof.
  intros Hok Ht Hl Hg Hn Hc Hk Hd Ha. split; [done|done| |..].
  - rewrite Hn. apply Hok.
  - intros t' pc' g. rewrite Ht, Hn. intros [[<- <-]|[_ Ht']]%lookup_insert_Some Hp; [by apply Hk|]. by eapply (rk_known _ Hok).
  - intros c remote g Hcc. rewrite Hn. destruct Hc as [Hc|(c0 & rem & g0 & Hg0 & E)].
    + apply (rk_conns _ Hok c remote). eapply lookup_weaken; eauto.
    + rewrite E in Hcc. apply lookup_insert_Some in Hcc as [[_ [= <- <-]]|[_ Hcc]]; [done|]. by eapply (rk_conns _ Hok).
  - intros t' pc' d. rewrite Ht. intros [[<- <-]|[_ Ht']]%lookup_insert_Some Hp; [by apply Hd|]. by eapply (rk_delays _ Hok).
  - by rewrite Ha, Ht, tally_insert.
Qed.

Lemma active_add r a : reconnect_ok r →
  to_int64 (rm_Active (rr_metrics r) + a) = to_int64 (Z.of_nat (size (rr_dialing r)) + tally_of lowering (rr_threads r) + a).
Proof. intros Hok. rewrite (rk_gauge _ Hok). exact (wrap_add BlobAcksPending _ a). Qed.

(** The gauge, when the goroutine was at [pc0]. *)
Ltac active Hok Ht :=
  rewrite ?Ht; cbn -[Z.of_nat to_int64]; first [rewrite (active_add _ _ Hok)|rewrite (rk_gauge _ Hok)]; f_equal; try lia.
Ltac in_table Hok Ht := intros ?; apply (rk_known _ Hok _ _ _ Ht); cbn in *; rewrite ?bool_decide_eq_true in *; naive_solver.

Lemma ending_loop pc g : ending pc = Some g → loop_of pc = Some g.
Proof. by destruct pc. Qed.
Lemma not_ending r t pc g : loops_ok (rr_threads r) (rr_dialing r) (rr_pending r) → g ∉ rr_dialing r → rr_threads r !! t = Some pc →
  ending pc ≠ Some g.
Proof. intros Hl Hg Ht He%ending_loop. apply Hg, (lp_dialing _ _ _ Hl). eauto. Qed.

Lemma noteDisconnect_ok r t g : reconnect_ok r → rr_threads r !! t = Some (RNote g) → reconnect_ok (noteDisconnect minBackoff t g r).
Proof.
  intros Hok Ht. unfold noteDisconnect. pose proof (rk_loops _ Hok) as Hl.
  assert (g ∈ rr_target r) as Hg by (apply (rk_known _ Hok _ _ _ Ht); right; cbn; by rewrite bool_decide_eq_true).
  destruct (rr_cancelled r) eqn:Ec; [|case_bool_decide as Hd].
  - eapply (reconnect_moved r _ t REnd Hok); try done; cbn; try naive_solver.
    + apply loops_same; [done|by rewrite Ht].
    + by rewrite Ec.
    + active Hok Ht.
  - eapply (reconnect_moved r _ t REnd Hok); try done; cbn; try naive_solver.
    + apply loops_same; [by apply loops_pending|by rewrite Ht].
    + intros Hc. eapply (targets_step r _ t REnd); try done; cbn; [by apply Hok|naive_solver|..].
      * rewrite Ht. cbn. intros g' t' pc' _ _ _ [->%bool_decide_eq_true|]; right; set_solver.
      * intros g' ? ?. left. split_and!; [done..|]. rewrite Ht. cbn. rewrite bool_decide_eq_true. naive_solver.
    + active Hok Ht.
  - eapply (reconnect_moved r _ t (RSchedule g minBackoff) Hok); try done; cbn; try naive_solver.
    + apply loops_same; [done|by rewrite Ht].
    + intros Hc. eapply (targets_step r _ t (RSchedule g minBackoff)); try done; cbn; [by apply Hok|naive_solver|..].
      * rewrite Ht. cbn. intros g' t' pc' Hf He _ [->%bool_decide_eq_true|]; [|by right]. exfalso. by eapply not_ending.
      * intros g' ? ?. left. split_and!; [done..|]. rewrite Ht. cbn. done.
    + intros g'. rewrite bool_decide_eq_true. naive_solver.
    + active Hok Ht.
Qed.

(** [schedule] for [g], in the goroutine [t], which did nothing else before; the
    targets that wait for a goroutine may grow by [g]. *)
Lemma schedule_ok r t g d started : reconnect_ok r → g ∈ rr_target r →
  (rr_threads r !! t = None ∨ rr_threads r !! t = Some (RSchedule g d)) → started ⊆ {[g]} ∪ rr_started r →
  reconnect_ok (reconnect_schedule t g d (set_started started r)).
Proof.
  intros Hok Hg Ht Hst. unfold reconnect_schedule. pose proof (rk_loops _ Hok) as Hl. cbn [rr_cancelled rr_dialing set_started].
  assert ((rr_threads r !! t ≫= loop_of) = None ∧ from_option (λ y, Z.b2z (lowering y)) 0 (rr_threads r !! t) = 0 ∧
    (∀ g', from_option (notes g') false (rr_threads r !! t) = false) ∧
    (∀ g', from_option (schedules g') false (rr_threads r !! t) = true → g' = g)) as (E1 & E2 & E3 & E4).
  { destruct Ht as [->| ->]; cbn; split_and!; try done. intros g'. by rewrite bool_decide_eq_true. }
  assert (∀ g', g' ∈ started → g' ≠ g → g' ∈ rr_started r) as Hst'.
  { intros g' [->%elem_of_singleton|]%Hst%elem_of_union ?; done. }
  destruct (rr_cancelled r) eqn:Ec; [|case_bool_decide as Hd].
  - eapply (reconnect_moved r _ t REnd Hok); try done; cbn; rewrite ?E2; try (by left); try (by intros ? [|]).
    + by apply loops_same.
    + by rewrite Ec.
    + active Hok Ec.
  - eapply (reconnect_moved r _ t REnd Hok); try done; cbn; rewrite ?E2; try (by left); try (by intros ? [|]).
    + by apply loops_same.
    + intros Hc. eapply (targets_step r _ t REnd); try done; cbn; [by apply Hok|by intros; left|..].
      * intros g' t' pc' _ _ _ [E|]; [by rewrite E3 in E|by right].
      * intros g' Hg' Hd'. left. split_and!; [apply Hst'; congruence|done|]. intros ->%E4. done.
    + active Hok Ec.
  - eapply (reconnect_moved r _ t (RInit g d) Hok); try done; cbn; rewrite ?E2; try (by left); try (by intros ? [|]).
    + by apply loops_start.
    + intros Hc. eapply (targets_step r _ t (RInit g d)); try done; cbn; [by apply Hok|by intros; left|..].
      * intros g' t' pc' _ _ _ [E|]; [by rewrite E3 in E|by right].
      * intros g' Hg' Hd'. left. split_and!; [apply Hst'; [done|by intros ->; apply Hd', elem_of_union_l, elem_of_singleton_2]|by intros ?; apply Hd', elem_of_union_r|].
        intros ->%E4. by destruct Hd'; apply elem_of_union_l, elem_of_singleton_2.
    + by intros ? [[= <-]|].
    + rewrite size_union, size_singleton by (by apply disjoint_singleton_l). active Hok Ec.
Qed.

Lemma finishLoop_ok r t g : reconnect_ok r → rr_threads r !! t = Some (RFinish g) → reconnect_ok (finishLoop t g r).
Proof.
  intros Hok Ht. unfold finishLoop. pose proof (rk_loops _ Hok) as Hl.
  assert (g ∈ rr_dialing r) as Hd by (apply (lp_dialing _ _ _ Hl); eauto).
  assert (g ∈ rr_target r) as Hg by (apply (rk_known _ Hok _ _ _ Ht); by left).
  eapply (reconnect_moved r _ t (RLower g _) Hok); try done; cbn -[Z.of_nat].
  - by apply loops_finish.
  - intros Hc. pose proof (rk_targets _ Hok Hc) as Htg.
    eapply (targets_step r _ t (RLower g (bool_decide (g ∈ rr_pending r)))); try done; cbn; [by intros; left|..].
    + rewrite Ht. intros g' t' pc' Hf He%ending_loop Hne [|Hp]; [done|]. right. assert (g' ≠ g); [|set_solver]. intros ->. by eapply Hne, (lp_one _ _ _ Hl).
    + intros g' Hs' Hd'. destruct (decide (g' = g)) as [->|Hne].
      * right. destruct (tg_finish _ Htg t _ g Ht eq_refl) as [?|[Hn|Hp]]; [by left|right|right].
        -- apply some_thread_insert; [|by rewrite Ht]. eapply some_thread_app; [|exact Hn]. apply notes_schedules.
        -- apply some_thread_here. rewrite bool_decide_eq_true_2 by done. cbn. by apply bool_decide_eq_true.
      * left. split_and!; [done|set_solver|]. by rewrite Ht.
  - auto.
  - intros g'. destruct (bool_decide (g ∈ rr_pending r)); rewrite ?bool_decide_eq_true; naive_solver.
  - rewrite Ht. cbn -[Z.of_nat to_int64]. rewrite size_difference, size_singleton by by apply singleton_subseteq_l.
    assert (size (rr_dialing r) ≠ 0%nat) by (apply size_non_empty_iff; set_solver).
    rewrite (rk_gauge _ Hok). f_equal. lia.
Qed.

(** A goroutine moves on inside its loop. *)
Lemma loop_move_ok r r1 t pc0 pc g : reconnect_ok r → rr_threads r !! t = Some pc0 → loop_of pc0 = Some g → loop_of pc = Some g →
  ending pc = None ∨ rr_cancelled r = true → (∀ d, delay_of pc = Some d → minBackoff <= d <= maxBackoff) →
  r1 = r ∨ (∃ a f s, r1 = add_metrics 0 a f s r) → reconnect_ok (set_thread t pc r1).
Proof.
  intros Hok Ht H0 H1 Hf Hd Hr. pose proof (rk_loops _ Hok) as Hl.
  assert (g ∈ rr_target r) as Hg by (apply (rk_known _ Hok _ _ _ Ht); by left).
  assert (rr_threads r1 = rr_threads r ∧ rr_dialing r1 = rr_dialing r ∧ rr_pending r1 = rr_pending r ∧ rr_target r1 = rr_target r ∧
    rr_conns r1 = rr_conns r ∧ rr_unregistered r1 = rr_unregistered r ∧ rr_cancelled r1 = rr_cancelled r ∧ rr_started r1 = rr_started r ∧
    rm_Active (rr_metrics r1) = rm_Active (rr_metrics r)) as (E1 & E2 & E3 & E4 & E5 & E9 & E6 & E7 & E8).
  { destruct Hr as [->|(a & f & s & ->)]; [done|]. split_and!; try done. cbn. rewrite (active_add _ _ Hok), (rk_gauge _ Hok). f_equal. lia. }
  assert (lowering pc0 = false ∧ lowering pc = false ∧ (∀ g', notes g' pc0 = false ∧ schedules g' pc0 = false ∧ schedules g' pc = false)) as (L0 & L1 & L2).
  { destruct pc0, pc; done. }
  eapply (reconnect_moved r _ t pc Hok); cbn -[Z.of_nat to_int64]; rewrite ?E1, ?E2, ?E3, ?E4, ?E5, ?E6, ?E8; try done; [| |by left|..].
  - apply loops_same; [done|]. rewrite Ht. cbn. congruence.
  - intros Hc. eapply (targets_step r _ t pc); cbn; rewrite ?E1, ?E2, ?E3, ?E7; try done; [by apply Hok|..].
    + intros g' H'. left. unfold attached, connected in *. cbn. by rewrite E5, E9.
    + rewrite Ht. cbn. intros g' t' pc' _ _ _ [E|]; [by destruct (L2 g') as (En & _ & _); rewrite En in E|by right].
    + intros g' He. destruct Hf as [Hf|]; congruence.
    + intros g' Hs Hd'. left. split_and!; [done..|]. rewrite Ht. cbn. destruct (L2 g') as (_ & -> & _). done.
  - intros g' [|Hs]; [congruence|]. destruct (L2 g') as (_ & _ & E). congruence.
  - rewrite Ht. cbn -[Z.of_nat to_int64]. rewrite L0, L1, (rk_gauge _ Hok). f_equal. cbn. lia.
Qed.

(** [Dial] has returned nil: with a connection, or without one. *)
Lemma returned_ok r r' t g d : reconnect_ok r → rr_threads r !! t = Some (RDialing g d) → attached r' g →
  (∀ g', attached r g' → attached r' g') →
  rr_conns r' ⊆ rr_conns r ∨ (∃ c remote g, g ∈ rr_target r ∧ rr_conns r' = <[c:=(remote, g)]> (rr_conns r)) →
  r' = mkReconnector (rr_target r) (rr_dialing r) (rr_pending r) (rr_metrics r) (rr_threads r) (rr_conns r') (rr_started r) (rr_unregistered r') (rr_cancelled r) →
  reconnect_ok (set_thread t (RReturned g) r').
Proof.
  intros Hok Ht Hg Ha Hc ->. pose proof (rk_loops _ Hok) as Hl. cbn [rr_conns rr_unregistered] in *.
  assert (g ∈ rr_target r) as Hgt by (apply (rk_known _ Hok _ _ _ Ht); by left).
  eapply (reconnect_moved r _ t (RReturned g) Hok); try done; cbn -[Z.of_nat to_int64].
  - apply loops_same; [done|by rewrite Ht].
  - intros Hca. eapply (targets_step r _ t (RReturned g)); try done; cbn; [by apply Hok|..].
    + intros g' H'. left. exact (Ha g' H').
    + rewrite Ht. intros g' t' pc' _ _ _ [|]; [done|by right].
    + intros g' [= <-]. left. exact Hg.
    + intros g' ? ?. left. split_and!; [done..|]. by rewrite Ht.
  - by intros g' [[= <-]|].
  - active Hok Ht.
Qed.
(** The loop counts its success. *)
Lemma success_ok r t g : reconnect_ok r → rr_threads r !! t = Some (RReturned g) →
  reconnect_ok (set_thread t (RFinish g) (add_metrics 0 0 0 1 r)).
Proof.
  intros Hok Ht. pose proof (rk_loops _ Hok) as Hl.
  assert (g ∈ rr_target r) as Hgt by (apply (rk_known _ Hok _ _ _ Ht); by left).
  eapply (reconnect_moved r _ t (RFinish g) Hok); try done; cbn -[Z.of_nat to_int64].
  - apply loops_same; [done|by rewrite Ht].
  - intros Hc. eapply (targets_step r _ t (RFinish g)); try done; cbn; [by apply Hok|by intros; left|..].
    + rewrite Ht. intros g' t' pc' _ _ _ [|]; [done|by right].
    + intros g' [= <-]. destruct (tg_finish _ (rk_targets _ Hok Hc) t _ g Ht eq_refl) as [?|[Hn|?]]; [by left|right; left|by right; right].
      apply some_thread_insert; [done|by rewrite Ht].
    + intros g' ? ?. left. split_and!; [done..|]. by rewrite Ht.
  - by left.
  - by intros g' [[= <-]|].
  - active Hok Ht.
Qed.

Lemma lower_ok r t g retry : reconnect_ok r → rr_threads r !! t = Some (RLower g retry) →
  reconnect_ok (set_thread t (if retry && negb (rr_cancelled r) then RSchedule g minBackoff else REnd) (add_metrics (-1) 0 0 0 r)).
Proof.
  intros Hok Ht. pose proof (rk_loops _ Hok) as Hl.
  set (pc := if retry && negb (rr_cancelled r) then RSchedule g minBackoff else REnd).
  assert (loop_of pc = None ∧ lowering pc = false ∧ delay_of pc = None) as (L1 & L2 & L3) by (unfold pc; by destruct (_ && _)).
  assert (∀ g', schedules g' pc = true → retry = true ∧ g' = g) as L4.
  { intros g'. unfold pc. destruct retry, (rr_cancelled r); cbn; rewrite ?bool_decide_eq_true; try done; naive_solver. }
  eapply (reconnect_moved r _ t pc Hok); try done; cbn -[Z.of_nat to_int64].
  - apply loops_same; [done|by rewrite Ht, L1].
  - intros Hc. eapply (targets_step r _ t pc); try done; cbn; [by apply Hok|by intros; left|..].
    + rewrite Ht. intros g' t' pc' _ _ _ [|]; [done|by right].
    + intros g' E%ending_loop. congruence.
    + intros g' ? ?. left. split_and!; [done..|]. rewrite Ht. unfold pc. rewrite Hc. by destruct retry.
  - by left.
  - intros g' [|[-> ->]%L4]; [congruence|]. apply (rk_known _ Hok _ _ _ Ht). right. cbn. by apply bool_decide_eq_true.
  - intros d. by rewrite L3.
  - rewrite Ht, L2. cbn -[Z.of_nat to_int64]. rewrite (active_add _ _ Hok). f_equal. lia.
Qed.

(** The callback of the transport: the connection [c] of the target is gone. *)
Lemma note_ok r t g conns : reconnect_ok r → rr_threads r !! t = None → g ∈ rr_target r → conns ⊆ rr_conns r →
  (∀ g', connected r g' → g' ≠ g → connected (set_conns conns r) g') → reconnect_ok (set_thread t (RNote g) (set_conns conns r)).
Proof.
  intros Hok Ht Hg Hsub Hcn. eapply (reconnect_moved r _ t (RNote g) Hok); try done; cbn -[Z.of_nat to_int64].
  - apply loops_same; [apply Hok|by rewrite Ht].
  - intros Hc. eapply (targets_step r _ t (RNote g)); try done; cbn; [by apply Hok|..].
    + intros g' [H'|]; [|by left; right]. destruct (decide (g' = g)) as [->|]; [right; by apply bool_decide_eq_true|left; left]. by apply Hcn.
    + rewrite Ht. intros g' t' pc' _ _ _ [|]; [done|by right].
    + intros g' ? ?. left. split_and!; [done..|]. by rewrite Ht.
  - by left.
  - intros g' [|E%bool_decide_eq_true]; [done|congruence].
  - active Hok Ht.
Qed.

Lemma target_named r g : reconnect_ok r → g ∈ rr_target r → g ≠ [].
Proof. intros Hok. rewrite (rk_names _ Hok), elem_of_list_to_set. rewrite Forall_forall in targets_named. auto. Qed.
Lemma OnPeerDisconnected_ok r t outbound remote dial conns r' : reconnect_ok r → conns ⊆ rr_conns r →
  (∀ g, connected r g → Some g ≠ disconnect_target (rr_target r) outbound remote dial → connected (set_conns conns r) g) →
  OnPeerDisconnected t outbound remote dial (set_conns conns r) = Some r' → conns = rr_conns r ∨
    is_Some (disconnect_target (rr_target r) outbound remote dial) → reconnect_ok r'.
Proof.
  intros Hok Hsub Hcn Ho Hc. unfold OnPeerDisconnected in Ho. cbn [rr_target rr_threads set_conns] in Ho.
  destruct (disconnect_target _ _ _ _) as [g|] eqn:Ed.
  - destruct (rr_threads r !! t) eqn:Et; [done|]. injection Ho as <-. apply note_ok; try done.
    + unfold disconnect_target in Ed. destruct (negb outbound); [done|]. case_bool_decide; [|done]. by injection Ed as <-.
    + intros g' H' Hne. apply Hcn; [done|congruence].
  - injection Ho as <-. destruct Hc as [->|[? ?]]; [|done]. by destruct r.
Qed.

Lemma reconnect_run_ok r t pc r' : reconnect_ok r → rr_threads r !! t = Some pc → reconnect_run minBackoff t pc r = Some r' → reconnect_ok r'.
Proof.
  intros Hok Ht. destruct pc as [g|g d|g d|g d|g d|g d|g|g|g retry|]; cbn [reconnect_run]; try done.
  - intros [= <-]. by apply noteDisconnect_ok.
  - intros [= <-]. assert (g ∈ rr_target r) as Hg by (apply (rk_known _ Hok _ _ _ Ht); right; cbn; by apply bool_decide_eq_true).
    replace r with (set_started (rr_started r) r) at 1 by by destruct r.
    apply schedule_ok; auto. apply union_subseteq_r.
  - destruct (0 <? d); [done|]. intros [= <-]. eapply (loop_move_ok r r t); eauto; cbn; try (by left). intros ? [= <-]. lia.
  - destruct (rr_cancelled r) eqn:Ec; intros [= <-].
    + eapply (loop_move_ok r r t); eauto; done.
    + eapply (loop_move_ok r _ t); eauto; cbn; try (by left). intros ? [= <-]. by eapply (rk_delays _ Hok).
  - intros [= <-]. by apply success_ok.
  - intros [= <-]. by apply finishLoop_ok.
  - intros [= <-]. by apply lower_ok.
Qed.

Lemma reconnect_step_ok a r r' : reconnect_ok r → reconnect_step minBackoff maxBackoff a r = Some r' → reconnect_ok r'.
Proof.
  intros Hok. destruct a as [|t g|t c|t outbound remote dial|t|t|t|t res]; cbn [reconnect_step].
  - intros [= <-]. split; try apply Hok. done.
  - unfold reconnect_Start. case_bool_decide as Hg; [|done]. case_bool_decide as Ht; [|done]. intros [= <-]. apply schedule_ok; auto.
  - destruct (rr_conns r !! c) as [[remote g]|] eqn:Ec; [|done]. intros Ho. pose proof (rk_conns _ Hok _ _ _ Ec) as Hg.
    assert (disconnect_target (rr_target r) true remote g = Some g) as Ed.
    { unfold disconnect_target. cbn. pose proof (target_named r g Hok Hg). destruct (Z.eqb_spec (len g) 0) as [E|_]; [by apply len_zero in E|].
      by rewrite bool_decide_eq_true_2. }
    refine (OnPeerDisconnected_ok r t true remote g (delete c (rr_conns r)) r' Hok (delete_subseteq _ _) _ Ho _); [|rewrite Ed; eauto].
    intros g' (c' & rem & Hc') Hne. exists c', rem. cbn. rewrite lookup_delete_ne; [done|]. intros ->. rewrite Ed in Hne. congruence.
  - intros Ho. replace r with (set_conns (rr_conns r) r) in Ho by by destruct r.
    eapply (OnPeerDisconnected_ok r t outbound remote dial (rr_conns r)); eauto.
  - destruct (rr_threads r !! t) as [pc|] eqn:Ht; [|done]. by apply reconnect_run_ok.
  - destruct (rr_threads r !! t) as [[]|] eqn:Ht; try done; intros [= <-]; (eapply (loop_move_ok r r t); eauto; cbn; try (by left); intros ? [= <-]).
    + lia.
    + pose proof (rk_delays _ Hok _ _ _ Ht eq_refl). rewrite nextBackoff_spec; lia.
  - destruct (rr_threads r !! t) as [[]|] eqn:Ht; try done; destruct (rr_cancelled r) eqn:Ec; try done; intros [= <-];
      (eapply (loop_move_ok r r t); eauto; done).
  - destruct (rr_threads r !! t) as [[| | | |g d| | | | |]|] eqn:Ht; try done. assert (g ∈ rr_target r) as Hg by (apply (rk_known _ Hok _ _ _ Ht); by left).
    unfold reconnect_dialed. destruct res as [[[c remote]|]|e].
    + destruct (rr_conns r !! c) eqn:Ec; [done|]. intros [= <-]. apply (returned_ok r _ t g d Hok Ht); [..|done].
      * left. exists c, remote. cbn. by rewrite lookup_insert_eq.
      * intros g' [(c' & rem & Hc')|Hu]; [left; exists c', rem; cbn; rewrite lookup_insert_ne; [done|congruence]|].
        destruct (decide (g' = g)) as [->|]; [left; exists c, remote; cbn; by rewrite lookup_insert_eq|right; cbn; set_solver].
      * right. by exists c, remote, g.
    + intros [= <-]. apply (returned_ok r _ t g d Hok Ht); [| |by left|done].
      * right. cbn. set_solver.
      * intros g' [Hc|Hu]; [by left|right; cbn; set_solver].
    + intros [= <-]. eapply (loop_move_ok r _ t); eauto; cbn; try (by left); [|destruct (rr_cancelled r); eauto]. intros ? [= <-].
      by apply (rk_delays _ Hok _ _ _ Ht).
Qed.
Lemma reconnect_reached_ok r : reconnect_reached minBackoff maxBackoff targets r → reconnect_ok r.
Proof.
  induction 1 as [|r a r' _ IH Hs]; [|by eapply reconnect_step_ok].
  split; cbn; try done; try (intros; by rewrite lookup_empty in *). split; cbn.
  - intros g. split; [set_solver|]. by intros (t & pc & Ht & _).
  - intros t t' pc pc' g Ht. by rewrite lookup_empty in Ht.
  - done.
Qed.
End invariant.

(** ** What the flags mean *)

Lemma parse_parts_named e parts l : parse_parts e parts = Ok l → Forall (λ g, g ≠ []) l.
Proof.
  revert l. induction parts as [|p parts IH]; intros l; cbn; [by intros [= <-]; constructor|].
  destruct (Z.eqb_spec (len (TrimSpace p)) 0) as [|Hne]; [done|]. intros (rest & Hr & [= <-])%rbind_Ok. constructor; [|by apply IH].
  intros E. apply Hne. by rewrite E.
Qed.
Lemma parsePeerList_named s l : parsePeerList s = Ok l → Forall (λ g, g ≠ []) l.
Proof. unfold parsePeerList. destruct (_ =? 0); [intros [= <-]; constructor|apply parse_parts_named]. Qed.

(** [strings.Join] with a comma. *)
Fixpoint join (l : list bytes) : bytes :=
  match l with [] => [] | [x] => x | x :: l' => x ++ comma :: join l' end.
(** A name as it is configured: no commas, no white space around it. *)
Definition plain (x : bytes) : Prop := x ≠ [] ∧ TrimSpace x = x ∧ comma ∉ x.

Lemma split_app x rest : comma ∉ x →
  strings_Split (x ++ rest) comma = match strings_Split rest comma with p :: ps => (x ++ p) :: ps | [] => [] end.
Proof.
  intros Hx. induction x as [|c x IH]; cbn [app strings_Split].
  - destruct rest; cbn; [done|]. case_bool_decide; [done|]. by destruct (strings_Split _ _).
  - apply not_elem_of_cons in Hx as [Hc Hx]. rewrite bool_decide_eq_false_2 by done. rewrite IH by done.
    destruct (strings_Split rest comma) eqn:E; [|done]. destruct rest; cbn in E; [done|]. case_bool_decide; [done|]. by destruct (strings_Split _ _).
Qed.
Lemma Split_join l : l ≠ [] → Forall (λ x, comma ∉ x) l → strings_Split (join l) comma = l.
Proof.
  intros Hl Hall. induction Hall as [|x l Hx Hall IH]; [done|]. destruct l as [|y l].
  - cbn [join]. rewrite <- (app_nil_r x) at 1. rewrite split_app by done. cbn. by rewrite app_nil_r.
  - change (join (x :: y :: l)) with (x ++ comma :: join (y :: l)). rewrite split_app by done. cbn [strings_Split].
    rewrite bool_decide_eq_true_2 by done. rewrite IH by done. by rewrite app_nil_r.
Qed.

Definition no_prefix (sps : list bytes) (s : bytes) : Prop := Forall (λ sp, ¬ sp `prefix_of` s) sps.
Lemma trim_no_prefix n sps s : no_prefix sps s → trim n sps s = s.
Proof.
  intros Hn. destruct n; cbn; [done|]. destruct (list_find _ sps) as [[i sp]|] eqn:E; [|done].
  apply list_find_Some in E as (Hi & Hp & _). unfold no_prefix in Hn. rewrite Forall_lookup in Hn. by destruct (Hn _ _ Hi).
Qed.
Lemma trim_length n sps s : (length (trim n sps s) <= length s)%nat.
Proof.
  revert s. induction n as [|n IH]; intros s; cbn; [done|]. destruct (list_find _ sps) as [[i sp]|]; [|done].
  etrans; [apply IH|]. rewrite length_drop. lia.
Qed.
Lemma trim_kept sps s : Forall (λ sp, sp ≠ []) sps → s ≠ [] → length (trim (length s) sps s) = length s → no_prefix sps s.
Proof.
  intros Hsps Hs. destruct s as [|c s]; [done|]. cbn [length trim]. destruct (list_find _ sps) as [[i sp]|] eqn:E; intros Hl.
  - exfalso. apply list_find_Some in E as (Hi & Hp & _). rewrite Forall_lookup in Hsps. specialize (Hsps _ _ Hi).
    pose proof (trim_length (length s) sps (drop (length sp) (c :: s))) as Ht. rewrite length_drop in Ht. cbn [length] in Ht.
    destruct sp; [done|]. cbn [length] in Ht. cbn [length] in Hl. lia.
  - apply list_find_None in E. done.
Qed.
Lemma prefix_before_comma sp x r : sp `prefix_of` x ++ comma :: r → comma ∉ sp → sp `prefix_of` x.
Proof.
  revert x. induction sp as [|c sp IH]; intros x Hp Hc; [apply prefix_nil|]. apply not_elem_of_cons in Hc as [Hc Hsp].
  destruct x as [|b x]; cbn in Hp.
  - by apply prefix_cons_inv_1 in Hp as ->.
  - pose proof (prefix_cons_inv_1 _ _ _ _ Hp) as ->. apply prefix_cons, IH; [|done]. by eapply prefix_cons_inv_2.
Qed.
Lemma no_prefix_comma sps x r : Forall (λ sp, comma ∉ sp) sps → no_prefix sps x → no_prefix sps (x ++ comma :: r).
Proof.
  unfold no_prefix. rewrite !Forall_forall. intros Hc Hn sp Hsp Hp. apply (Hn sp Hsp). by apply (prefix_before_comma sp x r); [|apply Hc].
Qed.

Lemma spaces_ok : Forall (λ sp, sp ≠ []) spaces ∧ Forall (λ sp, comma ∉ sp) spaces ∧
  Forall (λ sp, sp ≠ []) (map reverse spaces) ∧ Forall (λ sp, comma ∉ sp) (map reverse spaces).
Proof. split_and!; apply (bool_decide_unpack _); vm_compute; exact I. Qed.

Lemma plain_ends x : plain x → no_prefix spaces x ∧ no_prefix (map reverse spaces) (reverse x).
Proof.
  intros (Hne & Ht & _). destruct spaces_ok as (S1 & _ & S2 & _). unfold TrimSpace in Ht.
  set (y := trim (length x) spaces x) in *. apply (f_equal length) in Ht. rewrite length_reverse in Ht.
  pose proof (trim_length (length x) spaces x) as H1. fold y in H1.
  pose proof (trim_length (length y) (map reverse spaces) (reverse y)) as H2. rewrite length_reverse in H2.
  assert (no_prefix spaces x) as Hn by (apply trim_kept; [done..|]; fold y; lia). split; [done|].
  assert (y = x) as E by by apply trim_no_prefix. rewrite E in Ht, H2. apply trim_kept; [done| |by rewrite length_reverse; lia].
  intros E'. apply Hne. apply (f_equal reverse) in E'. by rewrite reverse_involutive in E'.
Qed.
Lemma join_ends l : l ≠ [] → Forall plain l →
  no_prefix spaces (join l) ∧ no_prefix (map reverse spaces) (reverse (join l)) ∧ join l ≠ [].
Proof.
  destruct spaces_ok as (_ & S1 & _ & S2). intros Hl Hall. induction Hall as [|x l Hx Hall IH]; [done|].
  destruct (plain_ends x Hx) as [N1 N2]. destruct l as [|y l]; [by destruct Hx|].
  change (join (x :: y :: l)) with (x ++ comma :: join (y :: l)).
  destruct IH as (M1 & M2 & Hne); [done|]. split_and!.
  - by apply no_prefix_comma.
  - rewrite reverse_app, reverse_cons, <- app_assoc. by apply no_prefix_comma.
  - by destruct x.
Qed.

(** Reading back the peers that are written with commas between them. *)
Lemma parsePeerList_join l : Forall plain l → parsePeerList (join l) = Ok l.
Proof.
  intros Hall. unfold parsePeerList. destruct l as [|x l]; [done|]. destruct (join_ends (x :: l)) as (N1 & N2 & Hne); [done..|].
  assert (TrimSpace (join (x :: l)) = join (x :: l)) as ->.
  { unfold TrimSpace. rewrite (trim_no_prefix _ _ _ N1), (trim_no_prefix _ _ _ N2). apply reverse_involutive. }
  destruct (Z.eqb_spec (len (join (x :: l))) 0) as [E|_]; [by apply len_zero in E|].
  rewrite Split_join by (done || (eapply Forall_impl; [exact Hall|]; by intros ? (_ & _ & ?))).
  generalize (ErrText (lit "peers: empty peer address")) as e. intros e. clear -Hall.
  induction Hall as [|y l' (Hy & Ht & _) Hall IH]; [done|]. cbn [parse_parts]. rewrite Ht, IH. cbn.
  destruct (Z.eqb_spec (len y) 0) as [E|_]; [by apply len_zero in E|done].
Qed.

(** Goroutines that will dial [g] again. *)
Definition redials (r : peerReconnector) (g : bytes) (pc : reconnect_pc) : bool :=
  schedules g pc ||
  match pc with
  | RInit g' _ | RHead g' _ | RDialing g' _ | RBackoff g' _ => bool_decide (g' = g)
  | RReturned g' | RFinish g' => bool_decide (g' = g) && bool_decide (g ∈ rr_pending r)
  | _ => false
  end.

Lemma backoff_range minBackoff maxBackoff : validateReconnectBackoff minBackoff maxBackoff = Ok tt → 0 < minBackoff <= maxBackoff.
Proof.
  unfold validateReconnectBackoff. destruct (Z.leb_spec minBackoff 0); [done|]. destruct (Z.ltb_spec maxBackoff minBackoff); [done|]. lia.
Qed.

(** C35: with the peers and the backoff of valid flags, whatever the order of
    disconnections, dials, timers and callbacks, a target that was started is
    connected, or has a goroutine that will dial it again, or is one whose last
    [Dial] that returned nil had not registered a connection, until the program
    is cancelled; there is one dial loop per target at most, its delays stay
    between the two bounds, the gauge of active loops is exact up to the
    decrements that are about to happen, and when no goroutine is left every
    started target is connected or was last dialled without a registration. *)
Theorem reconnect_never_forgets peers minBackoff maxBackoff targets r :
  parsePeerList peers = Ok targets → validateReconnectBackoff minBackoff maxBackoff = Ok tt → maxBackoff < 2 ^ 63 →
  reconnect_reached minBackoff maxBackoff targets r →
  (rr_cancelled r = false → ∀ g, g ∈ rr_started r →
     connected r g ∨ some_thread (redials r g) (rr_threads r) ∨ g ∈ rr_unregistered r) ∧
  (∀ t t' pc pc' g, rr_threads r !! t = Some pc → rr_threads r !! t' = Some pc' → loop_of pc = Some g → loop_of pc' = Some g → t = t') ∧
  (∀ t pc d, rr_threads r !! t = Some pc → delay_of pc = Some d → minBackoff <= d <= maxBackoff) ∧
  rm_Active (rr_metrics r) = to_int64 (Z.of_nat (size (rr_dialing r)) + tally_of lowering (rr_threads r)) ∧
  (rr_cancelled r = false → map_Forall (λ _ pc, pc = REnd) (rr_threads r) → ∀ g, g ∈ rr_started r → connected r g ∨ g ∈ rr_unregistered r).
Proof.
  intros Hp Hv Hm Hr. pose proof (backoff_range _ _ Hv) as Hb.
  pose proof (reconnect_reached_ok minBackoff maxBackoff targets (conj Hb Hm) (parsePeerList_named _ _ Hp) r Hr) as Hok.
  assert (rr_cancelled r = false → ∀ g, g ∈ rr_started r → attached r g ∨ some_thread (redials r g) (rr_threads r)) as Hserved.
  { intros Hc g Hg. pose proof (rk_targets _ _ _ _ Hok Hc) as Htg. assert (∀ pc, schedules g pc = true → redials r g pc = true) as Hsr.
    { intros pc E. unfold redials. by rewrite E. }
    destruct (decide (g ∈ rr_dialing r)) as [Hd|Hd].
    - pose proof Hd as (t & pc & Ht & Hl)%(lp_dialing _ _ _ (rk_loops _ _ _ _ Hok)).
      assert (redials r g pc = true ∨ ending pc = Some g) as [Hre|He].
      { destruct pc; cbn in *; try done; injection Hl as ->; rewrite ?bool_decide_eq_true_2 by done; auto. }
      + right. by exists t, pc.
      + destruct (tg_finish _ Htg t pc g Ht He) as [?|[Hn|Hpe]]; [by left|right|right].
        * eapply some_thread_app; [|exact Hn]. intros pc' E. by apply Hsr, notes_schedules.
        * exists t, pc. split; [done|]. destruct pc; cbn in He; try done; injection He as ->; cbn; by rewrite !bool_decide_eq_true_2.
    - destruct (tg_idle _ Htg g Hg Hd) as [?|Hn]; [by left|right]. by eapply some_thread_app. }
  split_and!; [|apply (rk_loops _ _ _ _ Hok)|apply Hok|apply Hok|]; unfold attached in Hserved.
  - intros Hc g Hg. destruct (Hserved Hc g Hg) as [[]|]; auto.
  - intros Hc Hend g Hg. destruct (Hserved Hc g Hg) as [?|(t & pc & Ht & E)]; [done|]. rewrite (Hend t pc Ht) in E. done.
Qed.

(** ** A target that is not registered *)

Definition concerns (g : bytes) (pc : reconnect_pc) : bool := schedules g pc || bool_decide (loop_of pc = Some g).
(** No connection to [g], and nothing that would make one. *)
Record forgotten (r : peerReconnector) (g : bytes) : Prop := {
  fg_conns : ¬ connected r g;
  fg_dialing : g ∉ rr_dialing r;
  fg_threads : map_Forall (λ _ pc, concerns g pc = false) (rr_threads r)
}.
(** The events that bring [g] up from outside: [Start], and the end of a connection
    of [g] that the reconnector did not make. *)
Definition revives (targets : list bytes) (g : bytes) (a : reconnect_action) : bool :=
  match a with
  | RcStart _ g' => bool_decide (g' = g)
  | RcOther _ outbound remote dial => bool_decide (disconnect_target (list_to_set targets) outbound remote dial = Some g)
  | _ => false
  end.

Lemma forgotten_moved r r' t pc g : forgotten r g → rr_threads r' = <[t:=pc]> (rr_threads r) → concerns g pc = false →
  (g ∈ rr_dialing r' → g ∈ rr_dialing r) → (connected r' g → connected r g) → forgotten r' g.
Proof.
  intros [Hc Hd Ht] E Hp Hd' Hc'. split; [tauto..|]. rewrite E. by apply map_Forall_insert_2.
Qed.
Lemma concerns_of g pc : concerns g pc = false → schedules g pc = false ∧ loop_of pc ≠ Some g.
Proof. unfold concerns. rewrite orb_false_iff, bool_decide_eq_false. done. Qed.
Lemma concerns_ne g g' pc : (∀ h, schedules h pc = true → h = g') → (∀ h, loop_of pc = Some h → h = g') → g' ≠ g → concerns g pc = false.
Proof.
  intros Hs Hl Hne. unfold concerns. rewrite orb_false_iff, bool_decide_eq_false. split; [|intros E%Hl; done].
  destruct (schedules g pc) eqn:E; [|done]. by apply Hs in E.
Qed.
Lemma schedule_forgotten r t g' d g : forgotten r g → g' ≠ g → forgotten (reconnect_schedule t g' d r) g.
Proof.
  intros Hf Hne. unfold reconnect_schedule. destruct (rr_cancelled r); [|case_bool_decide];
    (eapply forgotten_moved; [exact Hf|reflexivity|..]; cbn; [try done|set_solver|done]).
  apply bool_decide_eq_false. congruence.
Qed.
Lemma run_forgotten minBackoff r r' t pc g : forgotten r g → rr_threads r !! t = Some pc →
  reconnect_run minBackoff t pc r = Some r' → forgotten r' g.
Proof.
  intros Hf Ht. pose proof (fg_threads _ _ Hf t pc Ht) as [Hs Hl]%concerns_of.
  destruct pc as [g'|g' d|g' d|g' d|g' d|g' d|g'|g'|g' retry|]; cbn [reconnect_run loop_of schedules] in *; try done.
  - apply bool_decide_eq_false in Hs. intros [= <-]. unfold noteDisconnect.
    destruct (rr_cancelled r); [|case_bool_decide]; (eapply forgotten_moved; [exact Hf|reflexivity|..]; try done).
    eapply concerns_ne; [| |exact Hs]; cbn; [by intros ? ->%bool_decide_eq_true|done].
  - apply bool_decide_eq_false in Hs. intros [= <-]. by apply schedule_forgotten.
  - destruct (0 <? d); [done|]. intros [= <-]. eapply forgotten_moved; [exact Hf|reflexivity|..]; try done.
    unfold concerns. cbn. by apply bool_decide_eq_false.
  - destruct (rr_cancelled r); intros [= <-]; (eapply forgotten_moved; [exact Hf|reflexivity|..]; try done);
      unfold concerns; cbn; by apply bool_decide_eq_false.
  - intros [= <-]. eapply forgotten_moved; [exact Hf|reflexivity|..]; try done. unfold concerns. cbn. by apply bool_decide_eq_false.
  - intros [= <-]. eapply forgotten_moved; [exact Hf|reflexivity|..]; try done; [|cbn; set_solver].
    apply (concerns_ne g g'); [|done|congruence]. cbn. intros h. by destruct (bool_decide _); [intros ->%bool_decide_eq_true|].
  - intros [= <-]. eapply forgotten_moved; [exact Hf|reflexivity|..]; try done. cbn. destruct retry, (rr_cancelled r); try done.
    unfold concerns. cbn in *. by rewrite Hs.
Qed.

Section forgetting.
Context (minBackoff maxBackoff : Z) (targets : list bytes).
Hypothesis backoff_ok : 0 < minBackoff <= maxBackoff ∧ maxBackoff < 2 ^ 63.
Hypothesis targets_named : Forall (λ g, g ≠ []) targets.

Lemma disconnected_forgotten t r r' g outbound remote dial : forgotten r g →
  disconnect_target (rr_target r) outbound remote dial ≠ Some g → OnPeerDisconnected t outbound remote dial r = Some r' → forgotten r' g.
Proof.
  intros Hf Hne. unfold OnPeerDisconnected. destruct (disconnect_target _ _ _ _) as [g'|]; [|by intros [= <-]].
  destruct (rr_threads r !! t); [done|]. intros [= <-]. eapply forgotten_moved; [exact Hf|reflexivity|..]; try done.
  apply (concerns_ne g g'); cbn; [by intros ? ->%bool_decide_eq_true|done|congruence].
Qed.
Lemma step_forgotten a r r' g : reconnect_reached minBackoff maxBackoff targets r → forgotten r g → revives targets g a = false →
  reconnect_step minBackoff maxBackoff a r = Some r' → forgotten r' g.
Proof.
  intros Hr Hf Ha. pose proof (reconnect_reached_ok _ _ _ backoff_ok targets_named r Hr) as Hok.
  destruct a as [|t g'|t c|t outbound remote dial|t|t|t|t res]; cbn [reconnect_step revives] in *.
  - intros [= <-]. by destruct Hf.
  - unfold reconnect_Start. destruct (_ && _); [|done]. intros [= <-]. apply bool_decide_eq_false in Ha. by apply schedule_forgotten; [destruct Hf|].
  - destruct (rr_conns r !! c) as [[remote g']|] eqn:Ec; [|done]. pose proof (rk_conns _ _ _ _ Hok _ _ _ Ec) as Hg'.
    apply disconnected_forgotten.
    + destruct Hf as [Hc Hd Ht]. split; [|done..]. intros (c' & rem & Hc'). apply Hc. exists c', rem. cbn in Hc'. by apply lookup_delete_Some in Hc' as [_ ?].
    + cbn. unfold disconnect_target. cbn. pose proof (target_named _ _ _ targets_named r g' Hok Hg').
      destruct (Z.eqb_spec (len g') 0) as [E|_]; [by apply len_zero in E|]. rewrite bool_decide_eq_true_2 by done. intros [= ->].
      apply (fg_conns _ _ Hf). by exists c, remote.
  - apply disconnected_forgotten; [done|]. rewrite (rk_names _ _ _ _ Hok). by apply bool_decide_eq_false in Ha.
  - destruct (rr_threads r !! t) eqn:Ht; [|done]. by eapply run_forgotten.
  - destruct (rr_threads r !! t) as [pc|] eqn:Ht; [|done]. pose proof (fg_threads _ _ Hf t pc Ht) as [_ Hl]%concerns_of.
    destruct pc; try done; intros [= <-]; (eapply forgotten_moved; [exact Hf|reflexivity|..]; try done); by apply bool_decide_eq_false.
  - destruct (rr_threads r !! t) as [pc|] eqn:Ht; [|done]. pose proof (fg_threads _ _ Hf t pc Ht) as [_ Hl]%concerns_of.
    destruct pc; try done; destruct (rr_cancelled r); try done; intros [= <-];
      (eapply forgotten_moved; [exact Hf|reflexivity|..]; try done); by apply bool_decide_eq_false.
  - destruct (rr_threads r !! t) as [pc|] eqn:Ht; [|done]. pose proof (fg_threads _ _ Hf t pc Ht) as [_ Hl]%concerns_of.
    destruct pc as [| | | |g' d| | | | |]; try done. unfold reconnect_dialed. destruct res as [[[c remote]|]|e].
    + destruct (rr_conns r !! c) eqn:Ec; [done|]. intros [= <-]. eapply forgotten_moved; [exact Hf|reflexivity|..]; try done; [by apply bool_decide_eq_false|].
      intros (c' & rem & Hc'). cbn in Hc'. apply lookup_insert_Some in Hc' as [[_ [= _ E]]|[_ Hc']]; [by destruct Hl; cbn; rewrite E|by exists c', rem].
    + intros [= <-]. eapply forgotten_moved; [exact Hf|reflexivity|..]; try done. by apply bool_decide_eq_false.
    + intros [= <-]. destruct (rr_cancelled r); (eapply forgotten_moved; [exact Hf|reflexivity|..]; try done); by apply bool_decide_eq_false.
Qed.
End forgetting.

Definition run_reconnect (minBackoff maxBackoff : Z) (acts : list reconnect_action) (r : peerReconnector) : peerReconnector :=
  foldl (λ r a, default r (reconnect_step minBackoff maxBackoff a r)) r acts.
Lemma run_reconnect_reached minBackoff maxBackoff targets acts r :
  reconnect_reached minBackoff maxBackoff targets r → reconnect_reached minBackoff maxBackoff targets (run_reconnect minBackoff maxBackoff acts r).
Proof.
  unfold run_reconnect. revert r. induction acts as [|a acts IH]; intros r Hr; cbn [foldl]; [done|].
  apply IH. destruct (reconnect_step minBackoff maxBackoff a r) eqn:E; [by econstructor|done].
Qed.

Lemma run_forgets minBackoff maxBackoff targets acts r g :
  0 < minBackoff <= maxBackoff ∧ maxBackoff < 2 ^ 63 → Forall (λ g, g ≠ []) targets → reconnect_reached minBackoff maxBackoff targets r → forgotten r g →
  Forall (λ a, revives targets g a = false) acts → forgotten (run_reconnect minBackoff maxBackoff acts r) g.
Proof.
  intros Hb Hn Hr Hf Ha. unfold run_reconnect. revert r Hr Hf. induction Ha as [|a acts Ha _ IH]; intros r Hr Hf; cbn [foldl]; [done|].
  destruct (reconnect_step minBackoff maxBackoff a r) eqn:E; [|by apply IH]. cbn. apply IH; [by econstructor|]. by eapply (step_forgotten minBackoff maxBackoff targets).
Qed.

(** [Dial] returns nil without a connection and the loop of [g] comes to its end. *)
Definition unregistered_dial (t : nat) : list reconnect_action := [RcDialed t (Ok None); RcRun t; RcRun t; RcRun t].
Lemma unregistered_dial_run minBackoff maxBackoff r t g d : rr_threads r !! t = Some (RDialing g d) → g ∉ rr_pending r → ¬ connected r g →
  (∀ t' pc, t' ≠ t → rr_threads r !! t' = Some pc → concerns g pc = false) →
  let r' := run_reconnect minBackoff maxBackoff (unregistered_dial t) r in
  forgotten r' g ∧ rr_threads r' !! t = Some REnd ∧ rm_Successes (rr_metrics r') = (rm_Successes (rr_metrics r) + 1) mod 2 ^ 64.
Proof.
  intros Ht Hp Hc Ho. unfold run_reconnect, unregistered_dial. cbn [foldl reconnect_step]. rewrite Ht. cbn -[to_int64 Z.modulo].
  rewrite lookup_insert_eq. cbn -[to_int64 Z.modulo]. rewrite lookup_insert_eq. cbn -[to_int64 Z.modulo]. rewrite lookup_insert_eq, (bool_decide_eq_false_2 _ Hp).
  cbn -[to_int64 Z.modulo]. rewrite !insert_insert_eq. split_and!; [split|by rewrite lookup_insert_eq|].
  - done.
  - cbn. set_solver.
  - cbn. intros t' pc. destruct (decide (t' = t)) as [->|Hne]; [rewrite lookup_insert_eq; by intros [= <-]|].
    rewrite !lookup_insert_ne by done. by apply Ho.
  - cbn -[Z.modulo]. by rewrite Z.add_0_r, Zmod_mod.
Qed.

(** C40: [Dial] also returns nil when the transport does not register the
    connection (its address is taken, or there are already as many peers as
    allowed: [Dial_unregistered] of the transport).  The loop of the target then counts a success and ends, and the target
    is forgotten: it has no connection, and in no continuation, however long,
    without a new [Start] or the end of a connection that the reconnector did not
    make, does it get one or has it a goroutine that would dial it. *)
Theorem unregistered_dial_forgets peers minBackoff maxBackoff targets r t g d acts :
  parsePeerList peers = Ok targets → validateReconnectBackoff minBackoff maxBackoff = Ok tt → maxBackoff < 2 ^ 63 →
  reconnect_reached minBackoff maxBackoff targets r → rr_threads r !! t = Some (RDialing g d) → g ∉ rr_pending r → ¬ connected r g →
  (∀ t' pc, t' ≠ t → rr_threads r !! t' = Some pc → concerns g pc = false) → Forall (λ a, revives targets g a = false) acts →
  let r1 := run_reconnect minBackoff maxBackoff (unregistered_dial t) r in
  let r2 := run_reconnect minBackoff maxBackoff acts r1 in
  rm_Successes (rr_metrics r1) = (rm_Successes (rr_metrics r) + 1) mod 2 ^ 64 ∧ rr_threads r1 !! t = Some REnd ∧
  ¬ connected r2 g ∧ ¬ some_thread (redials r2 g) (rr_threads r2).
Proof.
  intros Hpl Hv Hm Hr Ht Hp Hc Ho Ha r1 r2. pose proof (backoff_range _ _ Hv) as Hb.
  destruct (unregistered_dial_run minBackoff maxBackoff r t g d Ht Hp Hc Ho) as (Hf & He & Hs). fold r1 in Hf, He, Hs.
  assert (forgotten r2 g) as Hf2.
  { apply (run_forgets _ _ targets); [done|by eapply parsePeerList_named|by apply run_reconnect_reached|done|done]. }
  split_and!; [done|done|apply Hf2|]. intros (t' & pc & Ht' & Hre). pose proof (fg_threads _ _ Hf2 t' pc Ht') as [Hs' Hl]%concerns_of.
  unfold redials in Hre. rewrite Hs' in Hre. cbn [orb] in Hre. destruct pc; try done; cbn in Hl;
    try apply andb_true_iff in Hre as [Hre _]; apply bool_decide_eq_true in Hre; congruence.
Qed.

(** The connection is lost before the loop that made it has ended. *)
Definition ex_peers : list bytes := [lit "a:1"; lit "b:2"].
Definition ex_reconnected : peerReconnector :=
  run_reconnect 10 80 [RcStart 0 (lit "a:1"); RcRun 0; RcRun 0; RcDialed 0 (Err ErrClosed); RcSlept 0; RcRun 0;
                       RcDialed 0 (Ok (Some (5%nat, lit "9.9.9.9:1"))); RcLost 1 5; RcRun 1; RcRun 0; RcRun 0; RcRun 0; RcRun 0; RcSlept 0; RcRun 0;
                       RcDialed 0 (Ok (Some (6%nat, lit "9.9.9.9:1"))); RcRun 0; RcRun 0; RcRun 0] (newPeerReconnector ex_peers).
Lemma ex_reconnected_started : lit "a:1" ∈ rr_started ex_reconnected.
Proof. apply (bool_decide_unpack _). vm_compute. exact I. Qed.
Lemma reconnect_never_forgets_witness : (connected ex_reconnected (lit "a:1") ∨ lit "a:1" ∈ rr_unregistered ex_reconnected) ∧
  rr_unregistered ex_reconnected = ∅ ∧ rm_Active (rr_metrics ex_reconnected) = 0.
Proof.
  destruct (reconnect_never_forgets (lit " a:1,b:2 ") 10 80 ex_peers ex_reconnected) as (_ & _ & _ & Ha & Hend).
  - vm_compute. reflexivity.
  - reflexivity.
  - done.
  - apply run_reconnect_reached. constructor.
  - split; [|split; [vm_compute; reflexivity|rewrite Ha; vm_compute; reflexivity]]. apply Hend; [reflexivity| |].
    + replace (rr_threads ex_reconnected) with ({[0%nat := REnd; 1%nat := REnd]} : gmap nat reconnect_pc) by (vm_compute; reflexivity).
      apply map_Forall_insert_2; [done|]. by apply map_Forall_singleton.
    + exact ex_reconnected_started.
Defined.

(** One peer is configured and the node has as many peers as it may have. *)
Definition ex_full : peerReconnector := run_reconnect 10 80 [RcStart 0 (lit "a:1"); RcRun 0; RcRun 0] (newPeerReconnector ex_peers).
Definition ex_later : list reconnect_action := [RcStart 1 (lit "b:2"); RcRun 1; RcRun 1; RcDialed 1 (Err ErrClosed); RcSlept 1; RcRun 1].
Lemma ex_full_threads : rr_threads ex_full = {[0%nat := RDialing (lit "a:1") 10]}.
Proof. vm_compute. reflexivity. Qed.
Lemma unregistered_dial_forgets_witness :
  ¬ connected (run_reconnect 10 80 ex_later (run_reconnect 10 80 (unregistered_dial 0) ex_full)) (lit "a:1").
Proof.
  apply (unregistered_dial_forgets (lit " a:1,b:2 ") 10 80 ex_peers ex_full 0 (lit "a:1") 10 ex_later).
  - vm_compute. reflexivity.
  - reflexivity.
  - done.
  - apply run_reconnect_reached. constructor.
  - by rewrite ex_full_threads.
  - replace (rr_pending ex_full) with (∅ : gset bytes) by (vm_compute; reflexivity). apply not_elem_of_empty.
  - intros (c & remote & Hc). replace (rr_conns ex_full) with (∅ : gmap nat (bytes * bytes)) in Hc by (vm_compute; reflexivity). by rewrite lookup_empty in Hc.
  - intros t' pc Hne. rewrite ex_full_threads, lookup_singleton_ne by congruence. done.
  - apply (bool_decide_unpack _). vm_compute. exact I.
Defined.
