(* ===== verification/Address.v ===== *)
(** * Addresses

    [healthAddrIsLoopback] of main.go with what it uses of the standard library:
    [net.SplitHostPort], [strings.Trim], [strings.EqualFold] against an ASCII name,
    [net.ParseIP] (the dotted and the colon form, without zones) and
    [IP.IsLoopback]. *)
From S2P Require Import Prelude Go Bits Text Reconnect.

Definition colon : Byte.byte := Zbyte 58.
Definition lbracket : Byte.byte := Zbyte 91.
Definition rbracket : Byte.byte := Zbyte 93.
Definition dot : Byte.byte := Zbyte 46.
Definition percent : Byte.byte := Zbyte 37.

Fixpoint IndexByte (s : bytes) (c : Byte.byte) : option nat :=
  match s with
  | [] => None
  | x :: s' => if bool_decide (x = c) then Some 0%nat else S <$> IndexByte s' c
  end.
Fixpoint LastIndexByte (s : bytes) (c : Byte.byte) : option nat :=
  match s with
  | [] => None
  | x :: s' => match LastIndexByte s' c with
               | Some i => Some (S i)
               | None => if bool_decide (x = c) then Some 0%nat else None
               end
  end.

(** [None] is an error. *)
Definition SplitHostPort (hostport : bytes) : option (bytes * bytes) :=
  match LastIndexByte hostport colon with
  | None => None
  | Some i =>
      let finish host j k :=
        if bool_decide (lbracket ∈ drop j hostport) || bool_decide (rbracket ∈ drop k hostport) then None
        else Some (host, drop (S i) hostport) in
      if bool_decide (head hostport = Some lbracket) then
        match IndexByte hostport rbracket with
        | None => None
        | Some e => if (S e =? i)%nat then finish (drop 1 (take e hostport)) 1%nat (S e) else None
        end
      else
        let host := take i hostport in
        if bool_decide (colon ∈ host) then None else finish host 0%nat 0%nat
  end.

Fixpoint TrimLeft (cutset s : bytes) : bytes :=
  match s with
  | [] => []
  | c :: s' => if bool_decide (c ∈ cutset) then TrimLeft cutset s' else s
  end.
Definition strings_Trim (s cutset : bytes) : bytes := reverse (TrimLeft cutset (reverse (TrimLeft cutset s))).

Definition to_lower (c : Byte.byte) : Byte.byte := if in_range 65 90 (byteZ c) then Zbyte (byteZ c + 32) else c.
(** [strings.EqualFold] with a [t] of lower-case ASCII letters other than k; the
    long s (bytes 197 191) is the only other character that folds to one of them. *)
Fixpoint EqualFold (s t : bytes) {struct t} : bool :=
  match t with
  | [] => bool_decide (s = [])
  | x :: t' =>
      match s with
      | [] => false
      | c :: s' =>
          if bool_decide (to_lower c = x) then EqualFold s' t'
          else
            match s' with
            | c' :: s'' =>
                if bool_decide (x = Zbyte 115) && bool_decide (c = Zbyte 197) && bool_decide (c' = Zbyte 191) then EqualFold s'' t' else false
            | [] => false
            end
      end
  end.

(** ** IP addresses, as sixteen bytes *)

Definition is_dec (c : Byte.byte) : bool := in_range 48 57 (byteZ c).
Definition parse_octet (s : bytes) : option Z :=
  let v := foldl (λ acc c, 10 * acc + (byteZ c - 48)) 0 s in
  if (len s =? 0) || negb (forallb is_dec s) || ((1 <? len s) && bool_decide (head s = Some (Zbyte 48))) || (255 <? v) then None else Some v.
Definition parseIPv4 (s : bytes) : option (list Z) :=
  match strings_Split s dot with
  | [a; b; c; d] => a ← parse_octet a; b ← parse_octet b; c ← parse_octet c; d ← parse_octet d; Some [a; b; c; d]
  | _ => None
  end.

Definition hex_value (c : Byte.byte) : option Z :=
  let z := byteZ c in
  if in_range 48 57 z then Some (z - 48) else if in_range 97 102 z then Some (z - 87) else if in_range 65 70 z then Some (z - 55) else None.
Fixpoint hex_digits (s : bytes) : list Z * bytes :=
  match s with
  | [] => ([], [])
  | c :: s' => match hex_value c with Some v => let '(ds, rest) := hex_digits s' in (v :: ds, rest) | None => ([], s) end
  end.

(** The loop of [parseIPv6], which makes two bytes in a round, or four from a
    dotted end; the place of the ellipsis. *)
Fixpoint ipv6_groups (fuel : nat) (s : bytes) (ip : list Z) (ellipsis : option nat) : option (bytes * list Z * option nat) :=
  match fuel with
  | O => Some (s, ip, ellipsis)
  | S fuel' =>
      let '(ds, rest) := hex_digits s in
      if (len ds =? 0) || (4 <? len ds) then None
      else if bool_decide (head rest = Some dot) then
        if (bool_decide (ellipsis = None) && negb (len ip =? 12)) || (16 <? len ip + 4) then None
        else v4 ← parseIPv4 s; Some ([], ip ++ v4, ellipsis)
      else
        let acc := foldl (λ acc v, 16 * acc + v) 0 ds in
        let ip := ip ++ [acc / 256; acc mod 256] in
        match rest with
        | [] => Some ([], ip, ellipsis)
        | c :: s1 =>
            if negb (bool_decide (c = colon)) then None
            else
              match s1 with
              | [] => None
              | c1 :: s2 =>
                  if bool_decide (c1 = colon) then
                    if bool_decide (is_Some ellipsis) then None
                    else match s2 with
                         | [] => Some ([], ip, Some (length ip))
                         | _ => ipv6_groups fuel' s2 ip (Some (length ip))
                         end
                  else ipv6_groups fuel' s1 ip ellipsis
              end
        end
  end.
Definition zeros (n : nat) : list Z := replicate n 0.
Definition expand (r : bytes * list Z * option nat) : option (list Z) :=
  let '(s, ip, ellipsis) := r in
  if negb (len s =? 0) then None
  else if (length ip <? 16)%nat then e ← ellipsis; Some (take e ip ++ zeros (16 - length ip) ++ drop e ip)
  else match ellipsis with Some _ => None | None => Some ip end.
Definition parseIPv6 (s : bytes) : option (list Z) :=
  if bool_decide ([colon; colon] `prefix_of` s) then
    match drop 2 s with
    | [] => Some (zeros 16)
    | s' => ipv6_groups 8 s' [] (Some 0%nat) ≫= expand
    end
  else ipv6_groups 8 s [] None ≫= expand.

Definition v4_prefix : list Z := zeros 10 ++ [255; 255].
(** An address with a zone is not an [IP]. *)
Definition ParseIP (s : bytes) : option (list Z) :=
  if bool_decide (percent ∈ s) then None
  else match list_find (λ c, c = dot ∨ c = colon) s with
       | None => None
       | Some (_, c) => if bool_decide (c = dot) then app v4_prefix <$> parseIPv4 s else parseIPv6 s
       end.
Definition IsLoopback (ip : list Z) : bool :=
  if bool_decide (take 12 ip = v4_prefix) then bool_decide (ip !! 12%nat = Some 127) else bool_decide (ip = zeros 15 ++ [1]).

Definition healthAddrIsLoopback (addr : bytes) : bool :=
  match SplitHostPort addr with
  | None => false
  | Some (host, _) =>
      let host := strings_Trim host [lbracket; rbracket] in
      if EqualFold host (lit "localhost") then true
      else match ParseIP host with Some ip => IsLoopback ip | None => false end
  end.

Example loopback_addresses :
  map healthAddrIsLoopback [lit "127.0.0.1:8080"; lit "[::1]:8080"; lit "localhost:8080"; lit "LocalHost:1"; lit "127.9.8.7:0";
                            lit "[::ffff:127.0.0.1]:80"; lit "[0:0:0:0:0:0:0:1]:80"] = replicate 7 true ∧
  map healthAddrIsLoopback [lit ":8080"; lit "0.0.0.0:8080"; lit "[::]:8080"; lit "health.internal:8080"; lit "127.0.0.1"; lit "::1:80";
                            lit "[::1%lo]:80"; lit "127.0.0.01:80"; lit "[::1::]:80"; lit "128.0.0.1:80"] = replicate 10 false.
Proof. split; vm_compute; reflexivity. Qed.

(** ** Dotted addresses *)

Definition octet (n : Z) : bytes := Zbyte <$> decimal n.
Definition dotted (a b c d : Z) : bytes := octet a ++ dot :: octet b ++ dot :: octet c ++ dot :: octet d.
(** A decimal octet is read back; it has digits only. *)
Definition octet_check (n : Z) : bool :=
  bool_decide (parse_octet (octet n) = Some n) && forallb is_dec (octet n) && negb (EqualFold (octet n) []).
Lemma octets_checked : forallb octet_check (seqZ 0 256) = true.
Proof. vm_compute. reflexivity. Qed.
Lemma octet_ok n : 0 <= n < 256 → parse_octet (octet n) = Some n ∧ octet n ≠ [] ∧ Forall (λ c, 48 <= byteZ c <= 57) (octet n).
Proof.
  intros Hn. assert (octet_check n = true) as Hc.
  { eapply forallb_forall; [exact octets_checked|]. apply list_elem_of_In, elem_of_seqZ. lia. }
  unfold octet_check in Hc. rewrite !andb_true_iff, bool_decide_eq_true in Hc. destruct Hc as [[Hp Hd] He].
  split_and!; [done|by intros E; rewrite E in He|]. apply Forall_forall. intros c Hc%list_elem_of_In.
  rewrite forallb_forall in Hd. specialize (Hd c Hc). unfold is_dec, in_range in Hd. lia.
Qed.

Lemma LastIndexByte_app x y c : c ∉ y → LastIndexByte (x ++ c :: y) c = Some (length x).
Proof.
  intros Hy. assert (LastIndexByte y c = None) as En.
  { induction y as [|z y IH]; [done|]. apply not_elem_of_cons in Hy as [Hz Hy]. cbn. rewrite IH by done. by rewrite bool_decide_eq_false_2. }
  induction x as [|z x IH]; cbn; [by rewrite En, bool_decide_eq_true_2|by rewrite IH].
Qed.
Lemma SplitHostPort_plain host port :
  (∀ c, c ∈ [colon; lbracket; rbracket] → c ∉ host ∧ c ∉ port) → SplitHostPort (host ++ colon :: port) = Some (host, port).
Proof.
  intros Hc. destruct (Hc colon) as [C1 C2]; [set_solver|]. destruct (Hc lbracket) as [L1 L2]; [set_solver|]. destruct (Hc rbracket) as [R1 R2]; [set_solver|].
  unfold SplitHostPort. rewrite (LastIndexByte_app _ _ _ C2).
  assert (∀ b, b ≠ colon → b ∉ host → b ∉ port → b ∉ host ++ colon :: port) as Hno.
  { intros b H1 H2 H3 [?|[?|?]%elem_of_cons]%elem_of_app; done. }
  rewrite bool_decide_eq_false_2.
  2:{ intros E. apply (Hno lbracket); [done|done|done|]. destruct (host ++ colon :: port) as [|x l]; [done|]. injection E as ->. by left. }
  rewrite take_app_length, (bool_decide_eq_false_2 (colon ∈ host)) by done. rewrite !drop_0.
  rewrite !bool_decide_eq_false_2 by (apply Hno; done). cbn [orb]. f_equal. f_equal.
  rewrite (drop_app_ge _ _ (S (length host))) by lia. by replace (S (length host) - length host)%nat with 1%nat by lia.
Qed.
Lemma Trim_none s cutset : (∀ c, c ∈ cutset → c ∉ s) → strings_Trim s cutset = s.
Proof.
  intros Hc. assert (∀ l, (∀ c, c ∈ cutset → c ∉ l) → TrimLeft cutset l = l) as Ht.
  { intros [|c l] Hl; [done|]. cbn. rewrite bool_decide_eq_false_2; [done|]. intros E. apply (Hl c E). by left. }
  unfold strings_Trim. rewrite (Ht s) by done. rewrite Ht; [apply reverse_involutive|]. intros c E%Hc. by rewrite elem_of_reverse.
Qed.
Lemma Split_dot x rest : dot ∉ x → strings_Split (x ++ dot :: rest) dot = x :: strings_Split rest dot.
Proof.
  intros Hx. induction x as [|c x IH]; cbn [app strings_Split]; [by rewrite bool_decide_eq_true_2|].
  apply not_elem_of_cons in Hx as [Hc Hx]. rewrite bool_decide_eq_false_2 by done. by rewrite IH.
Qed.
Lemma Split_last x : dot ∉ x → strings_Split x dot = [x].
Proof.
  intros Hx. induction x as [|c x IH]; [done|]. apply not_elem_of_cons in Hx as [Hc Hx]. cbn. rewrite bool_decide_eq_false_2 by done. by rewrite IH.
Qed.

(** A dotted address with any port is a loopback address exactly when its first
    octet is 127. *)
Theorem dotted_loopback a b c d port : Forall (λ n, 0 <= n < 256) [a; b; c; d] →
  (∀ x, x ∈ [colon; lbracket; rbracket] → x ∉ port) →
  healthAddrIsLoopback (dotted a b c d ++ colon :: port) = (a =? 127).
Proof.
  intros Hn Hp. rewrite !Forall_cons in Hn. destruct Hn as (Ha & Hb & Hc & Hd & _).
  destruct (octet_ok a Ha) as (Pa & Na & Fa), (octet_ok b Hb) as (Pb & _ & Fb), (octet_ok c Hc) as (Pc & _ & Fc), (octet_ok d Hd) as (Pd & _ & Fd).
  assert (∀ x n, 0 <= n < 256 → ¬ (48 <= byteZ x <= 57) → x ∉ octet n) as Hdig.
  { intros x n Hn Hx Hin. destruct (octet_ok n Hn) as (_ & _ & Hf). rewrite Forall_forall in Hf. by apply Hx, Hf. }
  assert (∀ x, ¬ (48 <= byteZ x <= 57) → x ≠ dot → x ∉ dotted a b c d) as Hno.
  { intros x Hx Hxd. unfold dotted. rewrite !elem_of_app, !elem_of_cons, !elem_of_app, !elem_of_cons, !elem_of_app, !elem_of_cons.
    pose proof (Hdig x a Ha Hx). pose proof (Hdig x b Hb Hx). pose proof (Hdig x c Hc Hx). pose proof (Hdig x d Hd Hx). tauto. }
  assert (∀ n, 0 <= n < 256 → dot ∉ octet n) as Hdot by (intros n Hn; apply Hdig; [done|by vm_compute; intros [? ?]]).
  unfold healthAddrIsLoopback. rewrite SplitHostPort_plain.
  2:{ intros x Hx. split; [|by apply Hp]. apply Hno; set_unfold in Hx; destruct Hx as [->|[->|[->|[]]]]; vm_compute; intuition (try done). }
  rewrite Trim_none.
  2:{ intros x Hx. apply Hno; set_unfold in Hx; destruct Hx as [->|[->|[]]]; vm_compute; intuition (try done). }
  assert (EqualFold (dotted a b c d) (lit "localhost") = false) as ->.
  { unfold dotted. destruct (octet a) as [|x l]; [done|]. apply Forall_cons in Fa as [Hx _]. cbn [app].
    change (lit "localhost") with (Zbyte 108 :: lit "ocalhost"). cbn [EqualFold].
    rewrite bool_decide_eq_false_2.
    - destruct (l ++ _); [done|]. by rewrite (bool_decide_eq_false_2 (Zbyte 108 = Zbyte 115)).
    - unfold to_lower, in_range. destruct (65 <=? byteZ x) eqn:E; [lia|]. cbn [andb]. intros ->. vm_compute in Hx. by destruct Hx. }
  unfold ParseIP. rewrite (bool_decide_eq_false_2 (percent ∈ _)) by (apply Hno; vm_compute; intuition (try done)).
  assert (list_find (λ x, x = dot ∨ x = colon) (dotted a b c d) = Some (length (octet a), dot)) as ->.
  { unfold dotted. apply list_find_Some. split_and!; [by rewrite lookup_app_r, Nat.sub_diag by lia|by left|].
    intros j y Hj Hlt. rewrite lookup_app_l in Hj by done. apply list_elem_of_lookup_2 in Hj.
    intros [->| ->]; [by apply (Hdot a)|]. revert Hj. apply Hdig; [done|]. by vm_compute; intros [? ?]. }
  rewrite bool_decide_eq_true_2 by done.
  assert (parseIPv4 (dotted a b c d) = Some [a; b; c; d]) as ->.
  { unfold parseIPv4, dotted. rewrite Split_dot, Split_dot, Split_dot, Split_last by (by apply Hdot). by rewrite Pa, Pb, Pc, Pd. }
  cbn [fmap option_fmap option_map]. unfold IsLoopback. rewrite bool_decide_eq_true_2 by done. cbn.
  destruct (Z.eqb_spec a 127) as [->|Hne]; [done|]. apply bool_decide_eq_false_2. congruence.
Qed.
