(* ===== verification/Config.v ===== *)
(** * The flags of the program

    The first part of [run] in main.go: what a command line is checked for before
    anything is opened, and what the program then does.  The flag values are the
    fields of a record, as the flag package leaves them. *)
From S2P Require Import Prelude Go Bits Text Json Os Model Codec Journal Transport Repair Blobs Inventory Applier Session Runtime Protocol Peers Wire Exchange Replicate Delivery Schedulers Reconnect Address.

(** Durations are in nanoseconds.  [lifecycleMembersSet] is
    [flagWasSet(fs, "lifecycle-members")]. *)
Record flags := mkFlags {
  f_listen : bytes; f_dial : bytes; f_peers : bytes; f_peerReconnect : bool; f_peerReconnectMin : Z; f_peerReconnectMax : Z;
  f_syncInterval : Z; f_health : bytes; f_healthAuthToken : bytes; f_shutdownGrace : Z;
  f_maxPeers : Z; f_peerAuthToken : bytes; f_peerAuthTimeout : Z; f_peerID : bytes; f_peerAllowIDs : bytes;
  f_dialTimeout : Z; f_readIdle : Z; f_showVer : bool; f_replicate : bool; f_storeDir : bytes; f_listKeys : bool; f_verifyStore : bool;
  f_putKey : bytes; f_putData : bytes; f_putContentKey : bool; f_exitAfterPut : bool; f_putAckTimeout : Z; f_putRetries : Z; f_putRetryDelay : Z;
  f_maxBlobBytes : Z; f_maxRepairBytes : Z; f_maxRepairOps : Z; f_maxInventoryBytes : Z; f_maxInventoryKeys : Z;
  f_lifecycleEnabled : bool; f_lifecycleDir : bytes;
  f_lifecycleMaxRecords : Z; f_lifecycleMaxKeyBytes : Z; f_lifecycleMaxMetadataBytes : Z; f_lifecycleMaxFrameBytes : Z;
  f_lifecycleMembers : bytes; f_lifecycleMembersSet : bool; f_lifecycleCompact : bool;
  f_lifecyclePutNamespace : bytes; f_lifecyclePutKey : bytes; f_lifecyclePutData : bytes; f_lifecyclePutBlobKey : bytes;
  f_lifecycleDeleteNamespace : bytes; f_lifecycleDeleteKey : bytes; f_lifecycleExitAfterMutation : bool; f_lifecycleMutationTimeout : Z;
  f_tlsCert : bytes; f_tlsKey : bytes; f_tlsCA : bytes; f_tlsServerName : bytes; f_tlsClientCert : bytes; f_tlsClientKey : bytes;
  f_tlsClientCA : bytes; f_tlsRequireClientCert : bool; f_tlsExpiryWarning : Z; f_insecureSkip : bool
}.

Definition DefaultPeerAuthTimeout : Z := 5 * Second.
(** The flags of an empty command line. *)
Definition Millisecond : Z := 1000000.
Definition default_flags : flags :=
  mkFlags (lit "127.0.0.1:0") [] [] false (500 * Millisecond) (30 * Second)
    0 [] [] (3 * Second)
    0 [] DefaultPeerAuthTimeout [] []
    0 0 false false [] false false
    [] [] false false Second 2 (100 * Millisecond)
    DefaultMaxDataBytes DefaultMaxRepairBytes defaultMaxRepairOps defaultMaxInventoryBytes defaultMaxInventoryKeys
    false []
    DefaultMaxRepairRecords DefaultMaxRepairLogicalKeyBytes DefaultMaxRepairMetadataBytes DefaultMaxRepairFrameBytes
    [] false false
    [] [] [] []
    [] [] false (10 * Second)
    [] [] [] [] [] []
    [] false (30 * 24 * 3600 * Second) false.

Definition blank (s : bytes) : bool := len s =? 0.
Definition putRequested (f : flags) : bool := negb (blank (f_putKey f)) || f_putContentKey f.
Definition lifecyclePutRequested (f : flags) : bool :=
  negb (blank (f_lifecyclePutNamespace f)) || negb (blank (f_lifecyclePutKey f)) || negb (blank (f_lifecyclePutData f)) ||
  negb (blank (f_lifecyclePutBlobKey f)).
Definition lifecycleDeleteRequested (f : flags) : bool :=
  negb (blank (f_lifecycleDeleteNamespace f)) || negb (blank (f_lifecycleDeleteKey f)).
Definition lifecycleMutationRequested (f : flags) : bool := lifecyclePutRequested f || lifecycleDeleteRequested f.

(** What [run] goes on with. *)
Record settings := mkSettings {
  st_dialTarget : bytes;
  st_peerList : list bytes;
  st_peerTargets : list bytes;
  st_peerAllowedIDs : list bytes;
  st_lifecycle : lifecycleCLIConfig;
  st_putBlobKey : bytes;
  st_limits : ReplicationLimits;
  st_budget : inventoryExchangeBudget
}.
Inductive plan := ShowVersion | VerifyStore (dir : bytes) | ListKeys (dir : bytes) | Serve (s : settings).

(** [if bad { return fmt.Errorf(msg) }] *)
Definition reject (bad : bool) (msg : String.string) : result unit := if bad then Err (ErrText (lit msg)) else Ok tt.
#[local] Open Scope string_scope.

(** The combinations of commands. *)
Definition check_commands (f : flags) (peerTargets : list bytes) : result unit :=
  _ <-? reject (putRequested f && (len peerTargets =? 0)) "replication: -put-key or -put-content-key requires -dial or -peers" ;
  _ <-? reject (f_putContentKey f && negb (blank (f_putKey f))) "replication: -put-content-key cannot be combined with -put-key" ;
  _ <-? reject (lifecyclePutRequested f && lifecycleDeleteRequested f) "lifecycle: put and delete commands are mutually exclusive" ;
  _ <-? reject (lifecycleMutationRequested f && putRequested f) "lifecycle: local mutation cannot be combined with raw blob put" ;
  _ <-? reject (lifecycleMutationRequested f && negb (f_lifecycleEnabled f)) "lifecycle: local mutation requires -lifecycle" ;
  _ <-? reject (f_lifecycleCompact f && negb (f_lifecycleEnabled f)) "lifecycle: -lifecycle-compact requires -lifecycle" ;
  _ <-? reject (f_lifecycleCompact f && lifecycleMutationRequested f) "lifecycle: compaction cannot be combined with a local mutation" ;
  _ <-? reject (f_lifecycleCompact f && putRequested f) "lifecycle: compaction cannot be combined with raw blob put" ;
  _ <-? reject (f_lifecycleCompact f && (0 <? len peerTargets)) "lifecycle: compaction cannot be combined with -dial or -peers" ;
  _ <-? reject (f_lifecycleCompact f && f_peerReconnect f) "lifecycle: compaction cannot be combined with -peer-reconnect" ;
  _ <-? reject (f_lifecycleCompact f && f_lifecycleExitAfterMutation f)
          "lifecycle: compaction cannot be combined with -lifecycle-exit-after-mutation" ;
  _ <-? reject (lifecyclePutRequested f && (blank (f_lifecyclePutNamespace f) || blank (f_lifecyclePutKey f)))
          "lifecycle: put requires -lifecycle-put-namespace and -lifecycle-put-key" ;
  _ <-? reject (lifecycleDeleteRequested f && (blank (f_lifecycleDeleteNamespace f) || blank (f_lifecycleDeleteKey f)))
          "lifecycle: delete requires -lifecycle-delete-namespace and -lifecycle-delete-key" ;
  _ <-? reject (f_lifecycleExitAfterMutation f && negb (lifecycleMutationRequested f))
          "lifecycle: -lifecycle-exit-after-mutation requires a local mutation" ;
  reject (f_lifecycleMutationTimeout f <=? 0) "lifecycle: -lifecycle-mutation-timeout must be greater than zero".

Definition check_reconnect (f : flags) (peerList : list bytes) : result unit :=
  if f_peerReconnect f then
    _ <-? reject (len peerList =? 0) "peers: -peer-reconnect requires -peers" ;
    _ <-? reject (putRequested f) "replication: -peer-reconnect cannot be combined with -put-key or -put-content-key" ;
    _ <-? reject (lifecycleMutationRequested f) "replication: -peer-reconnect cannot be combined with a lifecycle mutation" ;
    validateReconnectBackoff (f_peerReconnectMin f) (f_peerReconnectMax f)
  else Ok tt.

(** The ranges of the values. *)
Definition check_values (f : flags) (peerAllowedIDs : list bytes) : result unit :=
  _ <-? reject (negb (blank (f_storeDir f)) && negb (f_replicate f)) "storage: -store-dir requires -replicate" ;
  _ <-? reject (f_syncInterval f <? 0) "replication: -sync-interval must be zero or greater" ;
  _ <-? reject (f_shutdownGrace f <=? 0) "shutdown: -shutdown-grace must be greater than zero" ;
  _ <-? reject (f_peerAuthTimeout f <? 0) "peers: -peer-auth-timeout must be zero or greater" ;
  _ <-? reject (negb (blank (f_peerID f)) && blank (f_peerAuthToken f)) "peers: -peer-id requires -peer-auth-token" ;
  _ <-? reject ((0 <? len peerAllowedIDs) && blank (f_peerAuthToken f)) "peers: -peer-allow-ids requires -peer-auth-token" ;
  _ <-? reject (f_putAckTimeout f <=? 0) "replication: -put-ack-timeout must be greater than zero" ;
  _ <-? reject ((f_putRetries f <? 0) || (maxPutRetries <? f_putRetries f)) "replication: -put-retries must be between 0 and 10" ;
  _ <-? reject (f_putRetryDelay f <? 0) "replication: -put-retry-delay must be zero or greater" ;
  _ <-? reject (f_maxRepairBytes f <? 0) "replication: -max-repair-bytes must be zero or greater" ;
  _ <-? reject (f_maxRepairOps f <? 0) "replication: -max-repair-ops must be zero or greater" ;
  _ <-? reject (f_maxInventoryBytes f <? 0) "replication: -max-inventory-bytes must be zero or greater" ;
  _ <-? reject (f_maxInventoryKeys f <? 0) "replication: -max-inventory-keys must be zero or greater" ;
  reject ((f_lifecycleMaxRecords f <? 0) || (f_lifecycleMaxKeyBytes f <? 0) || (f_lifecycleMaxMetadataBytes f <? 0) ||
          (f_lifecycleMaxFrameBytes f <? 0)) "lifecycle: repair limits must be zero or greater".

Definition wrap_error {A} (r : result A) : result A := match r with Ok a => Ok a | Err e => Err (EWrap e) end.

Definition lifecycleConfig (f : flags) (members : list bytes) : lifecycleCLIConfig :=
  let zero := mkLimits 0 0 0 0 0 in
  mkCLIConfig (f_lifecycleEnabled f) (f_lifecycleDir f) (f_lifecycleMembersSet f) members
    (mkRepairLimits (f_lifecycleMaxRecords f) (f_lifecycleMaxKeyBytes f) (f_lifecycleMaxMetadataBytes f) (f_lifecycleMaxFrameBytes f) zero)
    zero (mkJournalOptions zero 0 0).

(** [run] up to the settings.  A blob store is there with -replicate. *)
Definition check_flags (f : flags) : result plan :=
  _ <-? reject (negb (blank (f_health f)) && negb (healthAddrIsLoopback (f_health f)) && blank (TrimSpace (f_healthAuthToken f)))
          "health: non-loopback address requires -health-auth-token" ;
  if f_showVer f then Ok ShowVersion
  else
    let dialTarget := TrimSpace (f_dial f) in
    peerList <-? parsePeerList (f_peers f) ;
    peerAllowedIDs <-? parsePeerIdentityList (f_peerAllowIDs f) ;
    lifecycleMembers <-? wrap_error (parsePeerIdentityList (f_lifecycleMembers f)) ;
    let peerTargets := combinePeerTargets dialTarget peerList in
    _ <-? check_commands f peerTargets ;
    _ <-? check_reconnect f peerList ;
    _ <-? reject (f_verifyStore f && f_listKeys f) "storage: -verify-store cannot be combined with -list-keys" ;
    if f_verifyStore f then
      _ <-? reject (blank (f_storeDir f)) "storage: -verify-store requires -store-dir" ; Ok (VerifyStore (f_storeDir f))
    else if f_listKeys f then
      _ <-? reject (blank (f_storeDir f)) "storage: -list-keys requires -store-dir" ; Ok (ListKeys (f_storeDir f))
    else
      _ <-? check_values f peerAllowedIDs ;
      putBlobKey <-? (if blank (f_lifecyclePutBlobKey f) then Ok [] else wrap_error (ParseSHA256KeyHex (f_lifecyclePutBlobKey f))) ;
      _ <-? reject (f_tlsExpiryWarning f <? 0) "tls: -tls-expiry-warning must be zero or greater" ;
      let limits := mkReplicationLimits 0 0 (f_maxBlobBytes f) (f_maxRepairBytes f) in
      _ <-? (if putRequested f then
               _ <-? EncodeBlobPut (fst (resolvePutKey (f_putKey f) (f_putData f) (f_putContentKey f))) (f_putData f) limits ; Ok tt
             else Ok tt) ;
      let config := lifecycleConfig f lifecycleMembers in
      _ <-? config_validate config (if f_replicate f then Some tt else None) (f_peerAuthToken f) (f_peerID f) ;
      Ok (Serve (mkSettings dialTarget peerList peerTargets peerAllowedIDs config putBlobKey limits
                   (mkBudget (f_maxInventoryBytes f) (f_maxInventoryKeys f)))).

(** The flags of TLS, which are checked once the lifecycle is open. *)
Definition check_tls (f : flags) : result unit :=
  _ <-? reject ((negb (blank (f_tlsClientCert f)) || negb (blank (f_tlsClientKey f))) && (blank (f_tlsClientCert f) || blank (f_tlsClientKey f)))
          "tls: both -tls-client-cert and -tls-client-key are required" ;
  _ <-? reject (negb (blank (f_tlsClientCA f)) && negb (f_tlsRequireClientCert f)) "tls: -tls-client-ca requires -tls-require-client-cert" ;
  _ <-? reject (f_tlsRequireClientCert f && blank (f_tlsClientCA f)) "tls: -tls-require-client-cert requires -tls-client-ca" ;
  _ <-? reject (f_tlsRequireClientCert f && (blank (f_tlsCert f) || blank (f_tlsKey f)))
          "tls: -tls-require-client-cert requires -tls-cert and -tls-key" ;
  reject ((negb (blank (f_tlsCert f)) || negb (blank (f_tlsKey f))) && (blank (f_tlsCert f) || blank (f_tlsKey f)))
          "tls: both -tls-cert and -tls-key are required".

(** ** What accepted flags guarantee *)

Lemma reject_Ok bad msg : reject bad msg = Ok tt ↔ bad = false.
Proof. unfold reject. by destruct bad. Qed.
Lemma parseIdentities_named s l : parsePeerIdentityList s = Ok l → Forall (λ g, g ≠ []) l.
Proof. unfold parsePeerIdentityList. destruct (_ =? 0); [intros [= <-]; constructor|apply parse_parts_named]. Qed.
Lemma blank_nil s : blank s = true ↔ s = [].
Proof. unfold blank. rewrite Z.eqb_eq. apply len_zero. Qed.

(** The flags that were let through, as conditions on them. *)
Record served_ok (f : flags) (s : settings) : Prop := {
  so_health : f_health f ≠ [] → healthAddrIsLoopback (f_health f) = false → TrimSpace (f_healthAuthToken f) ≠ [];
  so_targets : Forall (λ g, g ≠ []) (st_peerTargets s);
  so_put : putRequested f = true → st_peerTargets s ≠ [] ∧ lifecycleMutationRequested f = false;
  so_put_key : f_putContentKey f = true → f_putKey f = [];
  so_mutation : lifecycleMutationRequested f = true → f_lifecycleEnabled f = true ∧
     lifecyclePutRequested f && lifecycleDeleteRequested f = false;
  so_named : (lifecyclePutRequested f = true → f_lifecyclePutNamespace f ≠ [] ∧ f_lifecyclePutKey f ≠ []) ∧
     (lifecycleDeleteRequested f = true → f_lifecycleDeleteNamespace f ≠ [] ∧ f_lifecycleDeleteKey f ≠ []);
  so_exit : f_lifecycleExitAfterMutation f = true → lifecycleMutationRequested f = true ∧ f_lifecycleCompact f = false;
  so_compact : f_lifecycleCompact f = true → f_lifecycleEnabled f = true ∧ st_peerTargets s = [] ∧ f_peerReconnect f = false ∧
     putRequested f = false ∧ lifecycleMutationRequested f = false;
  so_reconnect : f_peerReconnect f = true → st_peerList s ≠ [] ∧ putRequested f = false ∧ lifecycleMutationRequested f = false ∧
     0 < f_peerReconnectMin f <= f_peerReconnectMax f;
  so_lifecycle : f_lifecycleEnabled f = true → f_replicate f = true ∧ f_lifecycleDir f ≠ [] ∧ f_peerAuthToken f ≠ [] ∧ f_peerID f ≠ [];
  so_identity : f_peerID f ≠ [] ∨ st_peerAllowedIDs s ≠ [] → f_peerAuthToken f ≠ [];
  so_delivery : 0 < f_putAckTimeout f ∧ 0 <= f_putRetries f <= maxPutRetries ∧ 0 <= f_putRetryDelay f;
  so_budget : 0 <= maxBytes (st_budget s) ∧ 0 <= maxKeys (st_budget s) ∧ 0 <= MaxRepairBytes (st_limits s);
  so_store : f_storeDir f ≠ [] → f_replicate f = true;
  so_times : 0 <= f_syncInterval f ∧ 0 < f_shutdownGrace f ∧ 0 <= f_peerAuthTimeout f ∧ 0 < f_lifecycleMutationTimeout f ∧
     0 <= f_tlsExpiryWarning f;
  so_ops : 0 <= f_maxRepairOps f;
  so_repair : let l := lc_repairLimits (st_lifecycle s) in
     0 <= MaxRecords l ∧ 0 <= RMaxLogicalKeyBytes l ∧ 0 <= MaxMetadataBytes l ∧ 0 <= MaxFrameBytes l;
  so_blob_key : f_lifecyclePutBlobKey f ≠ [] → ParseSHA256KeyHex (f_lifecyclePutBlobKey f) = Ok (st_putBlobKey s);
  so_payload : putRequested f = true →
     is_Ok (EncodeBlobPut (fst (resolvePutKey (f_putKey f) (f_putData f) (f_putContentKey f))) (f_putData f) (st_limits s)) = true
}.

Ltac checks H :=
  repeat (rewrite rbind_unit in H; let E := fresh "E" in destruct H as [E H]; rewrite ?reject_Ok in E); rewrite ?reject_Ok in H.

Lemma check_commands_Ok f targets : check_commands f targets = Ok tt →
  (putRequested f = true → targets ≠ [] ∧ lifecycleMutationRequested f = false) ∧
  (lifecycleMutationRequested f = true → f_lifecycleEnabled f = true ∧ lifecyclePutRequested f && lifecycleDeleteRequested f = false) ∧
  (f_lifecycleCompact f = true → f_lifecycleEnabled f = true ∧ targets = [] ∧ f_peerReconnect f = false ∧ putRequested f = false ∧
     lifecycleMutationRequested f = false) ∧
  ((f_putContentKey f = true → f_putKey f = []) ∧
   ((lifecyclePutRequested f = true → f_lifecyclePutNamespace f ≠ [] ∧ f_lifecyclePutKey f ≠ []) ∧
    (lifecycleDeleteRequested f = true → f_lifecycleDeleteNamespace f ≠ [] ∧ f_lifecycleDeleteKey f ≠ [])) ∧
   (f_lifecycleExitAfterMutation f = true → lifecycleMutationRequested f = true ∧ f_lifecycleCompact f = false) ∧
   0 < f_lifecycleMutationTimeout f).
Proof.
  intros H. unfold check_commands in H. checks H.
  assert (∀ a b, blank a || blank b = false → a ≠ [] ∧ b ≠ []) as Hnb.
  { intros a b [Hna Hnb]%orb_false_iff. split; intros ->; done. }
  split; [|split; [|split; [|split_and!]]].
  - intros Hp. rewrite Hp in *. split; [|by destruct (lifecycleMutationRequested f)]. intros ->. done.
  - intros Hm. rewrite Hm in *. split; [by destruct (f_lifecycleEnabled f)|done].
  - intros Hc. rewrite Hc in *. cbn [andb] in *. split_and!; try done; [by destruct (f_lifecycleEnabled f)|].
    apply len_zero. pose proof (len_nonneg targets). rewrite Z.ltb_ge in *. lia.
  - intros Hk. rewrite Hk in *. apply blank_nil. by destruct (blank (f_putKey f)).
  - intros Hk. rewrite Hk in *. by apply Hnb.
  - intros Hk. rewrite Hk in *. by apply Hnb.
  - intros Hk. rewrite Hk in *. rewrite andb_true_r in *. split; [by destruct (lifecycleMutationRequested f)|done].
  - lia.
Qed.
Lemma check_reconnect_Ok f peerList : check_reconnect f peerList = Ok tt → f_peerReconnect f = true →
  peerList ≠ [] ∧ putRequested f = false ∧ lifecycleMutationRequested f = false ∧ 0 < f_peerReconnectMin f <= f_peerReconnectMax f.
Proof.
  intros H Hr. unfold check_reconnect in H. rewrite Hr in H. checks H. split_and!; [by intros ->|done|done|..];
    unfold validateReconnectBackoff in H; destruct (Z.leb_spec (f_peerReconnectMin f) 0); try done;
    destruct (Z.ltb_spec (f_peerReconnectMax f) (f_peerReconnectMin f)); try done; lia.
Qed.
Lemma check_values_Ok f ids : check_values f ids = Ok tt →
  (f_peerID f ≠ [] ∨ ids ≠ [] → f_peerAuthToken f ≠ []) ∧
  (0 < f_putAckTimeout f ∧ 0 <= f_putRetries f <= maxPutRetries ∧ 0 <= f_putRetryDelay f) ∧
  0 <= f_maxInventoryBytes f ∧ 0 <= f_maxInventoryKeys f ∧ 0 <= f_maxRepairBytes f ∧
  (f_storeDir f ≠ [] → f_replicate f = true) ∧ (0 <= f_syncInterval f ∧ 0 < f_shutdownGrace f ∧ 0 <= f_peerAuthTimeout f) ∧ 0 <= f_maxRepairOps f ∧
  (0 <= f_lifecycleMaxRecords f ∧ 0 <= f_lifecycleMaxKeyBytes f ∧ 0 <= f_lifecycleMaxMetadataBytes f ∧ 0 <= f_lifecycleMaxFrameBytes f).
Proof.
  intros H. unfold check_values in H. checks H. rewrite ?orb_false_iff, ?Z.ltb_ge, ?Z.leb_gt in *. destruct_and?. split_and!; try done.
  - intros Hid Ht. apply blank_nil in Ht. rewrite Ht, andb_true_r in *. destruct Hid as [Hid|Hid].
    + apply Hid, blank_nil. by destruct (blank (f_peerID f)).
    + destruct ids; [done|]. done.
  - intros Hs. destruct (f_replicate f); [done|]. exfalso. apply Hs, blank_nil. by destruct (blank (f_storeDir f)).
Qed.
Lemma config_validate_Ok (c : lifecycleCLIConfig) (replicate : bool) token id :
  config_validate c (if replicate then Some tt else None) token id = Ok tt → lc_enabled c = true →
  replicate = true ∧ lc_dir c ≠ [] ∧ token ≠ [] ∧ id ≠ [].
Proof.
  unfold config_validate. intros H He. rewrite He in H. cbn in H. destruct replicate; [|done]. repeat (case_bool_decide; [done|]). auto.
Qed.

(** C36: flags that the program goes on with are consistent: a health address
    that is not loopback has a token; every peer to dial has a name; a put has a
    peer to go to, one source of its key, a payload within the limits and no
    lifecycle mutation beside it; a mutation is either a put or a delete, names its
    namespace and key, has a digest that parses if it has one, and has the lifecycle
    enabled, which in turn has a blob store, a directory, a token and an identity;
    exiting after a mutation needs one; compaction runs alone; reconnection has
    peers, no command and a valid backoff; a store directory comes with
    replication and identities with a token; and the timeouts, intervals, retries,
    budgets and repair limits are in the ranges that the components rely on. *)
Theorem accepted_flags f s : check_flags f = Ok (Serve s) → served_ok f s.
Proof.
  intros H. unfold check_flags in H. apply rbind_unit in H as [Eh H]. rewrite reject_Ok in Eh.
  destruct (f_showVer f); [done|]. apply rbind_Ok in H as (peerList & Ep & H). apply rbind_Ok in H as (ids & Ei & H).
  apply rbind_Ok in H as (members & _ & H). apply rbind_unit in H as [Ec H]. apply rbind_unit in H as [Er H]. apply rbind_unit in H as [_ H].
  destruct (f_verifyStore f); [by apply rbind_unit in H as [_ H]|]. destruct (f_listKeys f); [by apply rbind_unit in H as [_ H]|].
  apply rbind_unit in H as [Ev H]. apply rbind_Ok in H as (key & Ek & H).
  apply rbind_unit in H as [Ex H]. rewrite reject_Ok in Ex. apply rbind_unit in H as [Epay H]. apply rbind_unit in H as [Ecfg H]. injection H as <-.
  apply check_commands_Ok in Ec as (C1 & C2 & C3 & C4 & C5 & C6 & C7). apply check_values_Ok in Ev as (V1 & V2 & V3 & V4 & V5 & V6 & (V7 & V8 & V9) & V10 & V11).
  split; cbn [st_peerTargets st_peerList st_peerAllowedIDs st_budget st_limits st_lifecycle st_putBlobKey maxBytes maxKeys MaxRepairBytes]; try done.
  - intros Hh Hl Ht. apply blank_nil in Ht. rewrite Hl, Ht in Eh. apply Hh, blank_nil. by destruct (blank (f_health f)).
  - apply Forall_app. split; [|by eapply parsePeerList_named]. destruct (Z.eqb_spec (len (TrimSpace (f_dial f))) 0) as [|Hn]; [constructor|].
    constructor; [|constructor]. intros E'. apply Hn. by rewrite E'.
  - by apply check_reconnect_Ok.
  - intros He. by apply (config_validate_Ok (lifecycleConfig f members)).
  - split_and!; try done. lia.
  - intros Hk. destruct (blank (f_lifecyclePutBlobKey f)) eqn:Eb; [by apply blank_nil in Eb|]. destruct (ParseSHA256KeyHex _); [|done]. by injection Ek as ->.
  - intros Hr. rewrite Hr in Epay. by destruct (EncodeBlobPut _ _ _).
Qed.

(** A mutually authenticated node: the listener and the client have both halves
    of their credentials, and clients are verified against a bundle. *)
Lemma check_tls_Ok f : check_tls f = Ok tt →
  blank (f_tlsCert f) = blank (f_tlsKey f) ∧ blank (f_tlsClientCert f) = blank (f_tlsClientKey f) ∧
  f_tlsRequireClientCert f = negb (blank (f_tlsClientCA f)) ∧ (f_tlsRequireClientCert f = true → blank (f_tlsCert f) = false).
Proof.
  intros H. unfold check_tls in H. checks H.
  destruct (blank (f_tlsCert f)), (blank (f_tlsKey f)), (blank (f_tlsClientCert f)), (blank (f_tlsClientKey f)), (blank (f_tlsClientCA f)),
    (f_tlsRequireClientCert f); done.
Qed.
Lemma default_flags_serve : ∃ s, check_flags default_flags = Ok (Serve s) ∧ st_peerTargets s = [] ∧ check_tls default_flags = Ok tt.
Proof. eexists. split_and!; vm_compute; reflexivity. Qed.

Definition ex_flags : flags :=
  mkFlags (lit "127.0.0.1:0") (lit " a:1 ") (lit "b:2, c:3") true 500000000 30000000000 0 (lit "localhost:80") [] 3000000000 0 (lit "token") 5000000000 (lit "node") []
    0 0 false true (lit "/blobs") false false [] [] false false 1000000000 2 100000000 0 0 0 0 0 true (lit "/state") 0 0 0 0 [] false false
    [] [] [] [] [] [] false 10000000000 [] [] [] [] [] [] [] false 0 false.
Lemma accepted_flags_witness :
  match check_flags ex_flags with
  | Ok (Serve s) => st_peerTargets s = [lit "a:1"; lit "b:2"; lit "c:3"] ∧ 0 < f_peerReconnectMin ex_flags <= f_peerReconnectMax ex_flags
  | _ => False
  end.
Proof.
  destruct (check_flags ex_flags) as [[| | |s]|e] eqn:E; try (vm_compute in E; discriminate E).
  pose proof (so_reconnect _ _ (accepted_flags ex_flags s E) eq_refl) as (_ & _ & _ & Hb). split; [|exact Hb].
  assert (check_flags ex_flags = Ok (Serve s)) as E' by exact E. vm_compute in E'. injection E' as <-. reflexivity.
Defined.
