(* ===== verification/Status.v ===== *)
(** * Health endpoints

    What main.go answers over HTTP: the validity of the TLS certificates, the
    counters, the inventory and integrity scans of the blob store, the peers, and
    the handlers that guard them.  Requests and responses are records; the
    encoding of a status as JSON is left to the response's constructor.  Times
    are in nanoseconds since 1970. *)
From S2P Require Import Prelude Go Bits Text Json Os Model Codec Journal Transport Repair Blobs Inventory Applier Session Runtime Protocol Peers Wire Exchange Replicate Delivery Reconnect.

(** ** Certificates *)

(** The zero [time.Time]. *)
Definition zero_time : Z := -62135596800000000000.
Definition Unix (t : Z) : Z := t / 1000000000.

(** [tc_leaf] is what x509 parses from the first certificate, the two ends of its
    validity; [None] when there is no certificate in the chain. *)
Record tlsCredentialInput := mkCredentialInput { tc_flagName : bytes; tc_certificate : option (option (result (Z * Z))) }.
Record tlsCredentialValidity := mkValidity { cv_notBefore : Z; cv_notAfter : Z }.
Record tlsCredentialHealth := mkTLSHealth { th_credentials : list tlsCredentialValidity; th_warningWindow : Z }.

Fixpoint check_credentials (now : Z) (inputs : list tlsCredentialInput) : result (list tlsCredentialValidity) :=
  match inputs with
  | [] => Ok []
  | input :: inputs' =>
      match tc_certificate input with
      | None => check_credentials now inputs'
      | Some None => Err (ErrText (lit "tls: certificate has no leaf"))
      | Some (Some (Err e)) => Err (EWrap e)
      | Some (Some (Ok (notBefore, notAfter))) =>
          if now <? notBefore then Err (ErrText (lit "tls: certificate is not valid before"))
          else if negb (now <? notAfter) then Err (ErrText (lit "tls: certificate expired at"))
          else rest <-? check_credentials now inputs' ; Ok (mkValidity notBefore notAfter :: rest)
      end
  end.
Definition newTLSCredentialHealth (now warningWindow : Z) (inputs : list tlsCredentialInput) : result tlsCredentialHealth :=
  credentials <-? check_credentials now inputs ; Ok (mkTLSHealth credentials warningWindow).

(** The counts of one pass: the earliest expiry, expired, not yet valid and
    expiring soon. *)
Record tls_counts := mkCounts { tn_earliest : Z; tn_expired : Z; tn_notYetValid : Z; tn_expiringSoon : Z }.
Definition count_credential (now window : Z) (n : tls_counts) (c : tlsCredentialValidity) : tls_counts :=
  let earliest := if (tn_earliest n =? zero_time) || (cv_notAfter c <? tn_earliest n) then cv_notAfter c else tn_earliest n in
  if now <? cv_notBefore c then mkCounts earliest (tn_expired n) (tn_notYetValid n + 1) (tn_expiringSoon n)
  else if negb (now <? cv_notAfter c) then mkCounts earliest (tn_expired n + 1) (tn_notYetValid n) (tn_expiringSoon n)
  else if (0 <? window) && negb (now + window <? cv_notAfter c)
  then mkCounts earliest (tn_expired n) (tn_notYetValid n) (tn_expiringSoon n + 1)
  else mkCounts earliest (tn_expired n) (tn_notYetValid n) (tn_expiringSoon n).
Definition tls_counted (h : tlsCredentialHealth) (now : Z) : tls_counts :=
  foldl (count_credential now (th_warningWindow h)) (mkCounts zero_time 0 0 0) (th_credentials h).
Definition tls_Snapshot (h : option tlsCredentialHealth) (now : Z) : list (bytes * Z) :=
  match h with
  | None => []
  | Some h =>
      let n := tls_counted h now in
      [(lit "tls_certificates_configured", len (th_credentials h));
       (lit "tls_certificate_expiry_timestamp_seconds", if tn_earliest n =? zero_time then 0 else Unix (tn_earliest n));
       (lit "tls_certificates_expired", tn_expired n);
       (lit "tls_certificates_not_yet_valid", tn_notYetValid n);
       (lit "tls_certificates_expiring_soon", tn_expiringSoon n)]
  end.
Definition tls_Ready (h : option tlsCredentialHealth) (now : Z) : bool :=
  match h with
  | None => true
  | Some h => forallb (λ c, negb ((now <? cv_notBefore c) || negb (now <? cv_notAfter c))) (th_credentials h)
  end.

(** ** Counters *)

Definition replicationMetrics_names : list (bytes * repl_metric) :=
  [(lit "replication_blobs_stored", BlobsStored); (lit "replication_bytes_stored", BytesStored);
   (lit "replication_duplicate_blobs", DuplicateBlobs); (lit "replication_duplicate_bytes", DuplicateBytes);
   (lit "replication_apply_errors", ApplyErrors); (lit "replication_blobs_sent", BlobsSent); (lit "replication_bytes_sent", BytesSent);
   (lit "replication_blobs_skipped", BlobsSkipped); (lit "replication_blob_acks_sent", BlobAcksSent);
   (lit "replication_blob_acks_received", BlobAcksReceived); (lit "replication_blob_acks_matched", BlobAcksMatched);
   (lit "replication_blob_acks_pending", BlobAcksPending); (lit "replication_blob_ack_timeouts", BlobAckTimeouts);
   (lit "replication_blob_retries", BlobRetries); (lit "replication_blob_puts_accepted", BlobPutsAccepted);
   (lit "replication_blob_put_failures", BlobPutFailures); (lit "replication_blob_write_errors", BlobWriteErrors);
   (lit "replication_send_errors", SendErrors);
   (lit "replication_inventory_status_scans_started", InventoryStatusScansStarted);
   (lit "replication_inventory_status_scans_completed", InventoryStatusScansCompleted);
   (lit "replication_inventory_status_scans_failed", InventoryStatusScansFailed);
   (lit "replication_inventory_status_keys_scanned", InventoryStatusKeysScanned);
   (lit "replication_inventory_status_key_bytes_scanned", InventoryStatusKeyBytesScanned);
   (lit "replication_inventory_status_scan_duration_ms", InventoryStatusScanDurationMS);
   (lit "replication_storage_integrity_scans_started", StorageIntegrityScansStarted);
   (lit "replication_storage_integrity_scans_completed", StorageIntegrityScansCompleted);
   (lit "replication_storage_integrity_scans_failed", StorageIntegrityScansFailed);
   (lit "replication_storage_integrity_keys_scanned", StorageIntegrityKeysScanned);
   (lit "replication_storage_integrity_key_bytes_scanned", StorageIntegrityKeyBytesScanned);
   (lit "replication_storage_integrity_content_addressed_keys", StorageIntegrityContentAddressedKeys);
   (lit "replication_storage_integrity_verified_keys", StorageIntegrityVerifiedKeys);
   (lit "replication_storage_integrity_verified_bytes", StorageIntegrityVerifiedBytes);
   (lit "replication_storage_integrity_opaque_keys", StorageIntegrityOpaqueKeys);
   (lit "replication_storage_integrity_opaque_bytes", StorageIntegrityOpaqueBytes);
   (lit "replication_storage_integrity_corrupt_keys", StorageIntegrityCorruptKeys);
   (lit "replication_storage_integrity_missing_keys", StorageIntegrityMissingKeys);
   (lit "replication_storage_integrity_scan_duration_ms", StorageIntegrityScanDurationMS);
   (lit "replication_inventory_advertisements", InventoryAdvertisements); (lit "replication_inventory_bytes_sent", InventoryBytesSent);
   (lit "replication_inventory_keys_sent", InventoryKeysSent); (lit "replication_inventory_keys_probed", InventoryKeysProbed);
   (lit "replication_inventory_exchanges_started", InventoryExchangesStarted);
   (lit "replication_inventory_exchanges_completed", InventoryExchangesCompleted);
   (lit "replication_inventory_exchanges_limited", InventoryExchangesLimited);
   (lit "replication_inventory_exchanges_dropped", InventoryExchangesDropped);
   (lit "replication_inventory_exchanges_active", InventoryExchangesActive);
   (lit "replication_missing_keys_requested", MissingKeysRequested); (lit "replication_repair_blobs_sent", RepairBlobsSent);
   (lit "replication_repair_blobs_deferred", RepairBlobsDeferred); (lit "replication_corrupt_blobs_detected", CorruptBlobsDetected);
   (lit "replication_repair_continuations_scheduled", RepairContinuationsScheduled);
   (lit "replication_repair_continuations_completed", RepairContinuationsCompleted);
   (lit "replication_repair_continuations_dropped", RepairContinuationsDropped);
   (lit "replication_repair_continuations_active", RepairContinuationsActive);
   (lit "replication_repair_continuation_keys_pending", RepairContinuationKeysPending);
   (lit "replication_repair_io_ops_started", RepairIOOpsStarted); (lit "replication_repair_io_ops_completed", RepairIOOpsCompleted);
   (lit "replication_repair_io_ops_waited", RepairIOOpsWaited); (lit "replication_repair_io_ops_rejected", RepairIOOpsRejected);
   (lit "replication_repair_io_ops_in_flight", RepairIOOpsInFlight); (lit "replication_repair_io_ops_queued", RepairIOOpsQueued)].
Definition replicationMetrics_Snapshot (m : option replicationMetrics) : list (bytes * Z) :=
  match m with
  | None => []
  | Some ms => map (λ p, (p.1, if repl_gauge p.2 then ms p.2 else to_int64 (ms p.2))) replicationMetrics_names
  end.

(** [snapshot[key] = value] for the entries of [more]. *)
Definition add_snapshot (snapshot : gmap bytes Z) (more : list (bytes * Z)) : gmap bytes Z :=
  foldl (λ m p, <[p.1 := p.2]> m) snapshot more.

Definition decimal_int (z : Z) : bytes :=
  if z <? 0 then Zbyte 45 :: map Zbyte (decimal (- z)) else map Zbyte (decimal z).
Definition underscore : Byte.byte := Zbyte 95.
Definition prometheusGaugeMetrics : list bytes :=
  [lit "active_peers"; lit "peer_reconnect_targets"; lit "peer_reconnect_active"; lit "lifecycle_enabled"; lit "lifecycle_ready";
   lit "lifecycle_authority_epoch"; lit "lifecycle_authority_sequence"; lit "lifecycle_journal_floor_epoch"; lit "lifecycle_journal_floor_sequence";
   lit "lifecycle_journal_tail_epoch"; lit "lifecycle_journal_tail_sequence"; lit "lifecycle_journal_entries"; lit "lifecycle_journal_bytes";
   lit "lifecycle_logical_records"; lit "lifecycle_tombstones"; lit "lifecycle_membership_configured"; lit "lifecycle_membership_members";
   lit "lifecycle_membership_acknowledged"; lit "lifecycle_membership_min_epoch"; lit "lifecycle_membership_min_sequence";
   lit "lifecycle_compaction_target_epoch"; lit "lifecycle_compaction_target_sequence"; lit "lifecycle_compaction_blocked";
   lit "lifecycle_repair_sessions_active"; lit "replication_blob_acks_pending"; lit "replication_inventory_exchanges_active";
   lit "replication_repair_continuations_active"; lit "replication_repair_continuation_keys_pending"; lit "replication_repair_io_ops_in_flight";
   lit "replication_repair_io_ops_queued"; lit "shutdown_state"; lit "shutdown_tracked_peers"; lit "shutdown_tracked_goroutines";
   lit "tls_certificate_expiry_timestamp_seconds"; lit "tls_certificates_configured"; lit "tls_certificates_expired";
   lit "tls_certificates_expiring_soon"; lit "tls_certificates_not_yet_valid"].
Definition prometheusMetricType (key : bytes) : bytes :=
  if bool_decide (key ∈ prometheusGaugeMetrics) then lit "gauge" else lit "counter".
Definition newline : bytes := [Zbyte 10].
Definition prometheus_metric (snapshot : gmap bytes Z) (key : bytes) : bytes :=
  let metricName := lit "streamhive_" ++ key in
  lit "# HELP " ++ metricName ++ lit " StreamHive " ++ map (λ c, if bool_decide (c = underscore) then Zbyte 32 else c) key ++ lit "." ++ newline ++
  lit "# TYPE " ++ metricName ++ lit " " ++ prometheusMetricType key ++ newline ++
  metricName ++ lit " " ++ decimal_int (default 0 (snapshot !! key)) ++ newline.
Definition writePrometheusMetrics (snapshot : gmap bytes Z) : bytes :=
  concat (map (prometheus_metric snapshot) (sorted_keys (map_to_list snapshot).*1)).

(** ** Version *)

Definition program_Version : bytes := lit "0.14.0".
Record versionStatusResponse := mkVersionStatus { vs_Version : bytes; vs_Handshake : bytes; vs_FrameMagic : bytes }.
Definition snapshotVersionStatus : versionStatusResponse := mkVersionStatus program_Version HandshakeVersionV1 FrameMagic.

(** ** Scans of the store *)

Definition live : bytes := lit "live".
Record inventoryStatusResponse := mkInventoryStatus {
  in_Enabled : bool; in_Ready : bool; in_ScanConsistency : bytes; in_Keys : Z; in_KeyBytes : Z; in_Digest : bytes
}.
Record storageIntegrityStatusResponse := mkIntegrityStatus {
  ig_Enabled : bool; ig_Healthy : bool; ig_ScanConsistency : bytes; ig_Summary : IntegritySummary
}.

(** The scans work on the counters, the store and the world.  [elapsed] is the
    duration of a scan in nanoseconds. *)
Section scans.
Context {S : Type} `{BlobStore S}.
Context (fuel : nat) (elapsed : Z).

Definition snapshotInventoryStatus (lister : Lister S) : M (replicator unit S * world) inventoryStatusResponse :=
  match lister with
  | NilLister => ret (mkInventoryStatus false true live 0 0 [])
  | _ =>
      summary <- on_blobs (SummarizeInventory fuel lister) ;
      ret (mkInventoryStatus true true live (KeyCount summary) (KeyBytes summary) (DigestHex summary))
  end.
Definition observeInventoryStatus (lister : Lister S) : M (replicator unit S * world) inventoryStatusResponse :=
  match lister with
  | NilLister => snapshotInventoryStatus lister
  | _ =>
      tally InventoryStatusScansStarted 1 ;;
      attempt (snapshotInventoryStatus lister) (λ r,
      tally InventoryStatusScanDurationMS (elapsed / 1000000) ;;
      match r with
      | Err e => tally InventoryStatusScansFailed 1 ;; throw e
      | Ok status =>
          tally InventoryStatusScansCompleted 1 ;;
          tally InventoryStatusKeysScanned (in_Keys status) ;;
          tally InventoryStatusKeyBytesScanned (in_KeyBytes status) ;;
          ret status
      end)
  end.

Definition inspect (lister : Lister S) : M (S * world) IntegritySummary := λ s,
  let '((summary, r), s') := InspectInventory fuel false lister s in
  (match r with Ok _ => Ok summary | Err e => Err e end, s').
Definition snapshotStorageIntegrityStatus (nil_store : bool) (lister : Lister S) : M (replicator unit S * world) storageIntegrityStatusResponse :=
  match nil_store, lister with
  | true, _ | _, NilLister => ret (mkIntegrityStatus false true live zero_integrity)
  | _, _ =>
      summary <- on_blobs (inspect lister) ;
      ret (mkIntegrityStatus true ((CorruptKeys summary =? 0) && (MissingKeys summary =? 0)) live summary)
  end.
Definition observeStorageIntegrityStatus (nil_store : bool) (lister : Lister S) : M (replicator unit S * world) storageIntegrityStatusResponse :=
  match nil_store, lister with
  | true, _ | _, NilLister => snapshotStorageIntegrityStatus nil_store lister
  | _, _ =>
      tally StorageIntegrityScansStarted 1 ;;
      attempt (snapshotStorageIntegrityStatus nil_store lister) (λ r,
      tally StorageIntegrityScanDurationMS (elapsed / 1000000) ;;
      match r with
      | Err e => tally StorageIntegrityScansFailed 1 ;; throw e
      | Ok status =>
          let s := ig_Summary status in
          tally StorageIntegrityScansCompleted 1 ;;
          tally StorageIntegrityKeysScanned (IKeyCount s) ;;
          tally StorageIntegrityKeyBytesScanned (IKeyBytes s) ;;
          tally StorageIntegrityContentAddressedKeys (ContentAddressedKeys s) ;;
          tally StorageIntegrityVerifiedKeys (VerifiedKeys s) ;;
          tally StorageIntegrityVerifiedBytes (VerifiedBytes s) ;;
          tally StorageIntegrityOpaqueKeys (OpaqueKeys s) ;;
          tally StorageIntegrityOpaqueBytes (OpaqueBytes s) ;;
          tally StorageIntegrityCorruptKeys (CorruptKeys s) ;;
          tally StorageIntegrityMissingKeys (MissingKeys s) ;;
          ret status
      end)
  end.
End scans.

(** ** Peers *)

(** [p2p.PeerSnapshot] and [peerStatus]; a zero [ConnectedAt] is shown as the
    empty string. *)
Record PeerSnapshot := mkPeerSnapshot {
  ps_RemoteAddr : bytes; ps_LocalAddr : bytes; ps_Outbound : bool; ps_ConnectedAt : Z; ps_AuthMethod : bytes; ps_AuthIdentity : bytes;
  ps_Capabilities : list bytes
}.
Record peerStatus := mkPeerStatus {
  pe_RemoteAddr : bytes; pe_LocalAddr : bytes; pe_Outbound : bool; pe_ConnectedAt : option Z; pe_ConnectedForMS : Z; pe_AuthMethod : bytes;
  pe_AuthIdentity : bytes; pe_Capabilities : list bytes
}.
Definition peer_status (now : Z) (p : PeerSnapshot) : peerStatus :=
  let zero := ps_ConnectedAt p =? zero_time in
  mkPeerStatus (ps_RemoteAddr p) (ps_LocalAddr p) (ps_Outbound p) (if zero then None else Some (ps_ConnectedAt p))
    (if negb zero && (ps_ConnectedAt p <? now) then Z.min maxDuration (now - ps_ConnectedAt p) / 1000000 else 0)
    (ps_AuthMethod p) (ps_AuthIdentity p) ([] ++ ps_Capabilities p).
(** Not after: the negation of the comparison that [sort.Slice] is given, turned
    around.  Peers that compare equal may come in any order. *)
Definition peer_le (a b : peerStatus) : Prop :=
  if bool_decide (pe_RemoteAddr a = pe_RemoteAddr b) then pe_Outbound a = false ∨ pe_Outbound b = true
  else bytes_lt (pe_RemoteAddr a) (pe_RemoteAddr b).
#[export] Instance peer_le_dec a b : Decision (peer_le a b).
Proof. unfold peer_le, bytes_lt. case_bool_decide; apply _. Defined.
Record peersResponse := mkPeersResponse { pr_ActivePeers : Z; pr_Peers : list peerStatus }.
Definition snapshotPeers (peers : list PeerSnapshot) (now : Z) : peersResponse :=
  let statuses := merge_sort peer_le (map (peer_status now) peers) in
  mkPeersResponse (len statuses) statuses.

(** ** Requests *)

Record request := mkRequest { rq_Method : bytes; rq_Path : bytes; rq_Authorization : bytes }.
Inductive body :=
  | Text (s : bytes)
  | VersionStatus (s : versionStatusResponse)
  | MetricsJSON (snapshot : gmap bytes Z)
  | LifecycleStatus (s : lifecycleStatus)
  | InventoryStatus (s : inventoryStatusResponse)
  | StorageStatus (s : storageIntegrityStatusResponse)
  | PeersStatus (s : peersResponse)
  | Prometheus (s : bytes).
Record response := mkResponse { rs_code : Z; rs_body : body }.
Definition http_Error (code : Z) (msg : bytes) : response := mkResponse code (Text (msg ++ newline)).
Definition ok : response := mkResponse 200 (Text (lit "ok" ++ newline)).

Section handlers.
Context {St : Type}.
Definition handler := request → M St response.

Definition readOnlyHealthHandler (h : handler) : handler := λ req,
  if negb (bool_decide (rq_Method req = lit "GET")) && negb (bool_decide (rq_Method req = lit "HEAD"))
  then ret (http_Error 405 (lit "Method Not Allowed"))
  else h req.
Definition healthAuthHandler (token : bytes) (next : handler) : handler := λ req,
  if len token =? 0 then next req
  else if bool_decide (rq_Path req = lit "/livez") || bool_decide (rq_Path req = lit "/readyz") then next req
  else if negb (bool_decide (rq_Authorization req = lit "Bearer " ++ token)) then ret (http_Error 401 (lit "unauthorized"))
  else next req.

(** [http.ServeMux] with the patterns of [routes], which are plain paths;
    [others] is its answer to any other path. *)
Fixpoint ServeMux (routes : list (bytes * handler)) (others : handler) (req : request) : M St response :=
  match routes with
  | [] => others req
  | (path, h) :: routes' => if bool_decide (rq_Path req = path) then h req else ServeMux routes' others req
  end.
End handlers.
Arguments handler : clear implicits.

(** What the handlers read at the time of a request. *)
Record health_view := mkView {
  hv_now : Z;
  hv_transportReady : bool;
  hv_transportMetrics : gmap bytes Z;
  hv_peers : list PeerSnapshot;
  hv_tls : option tlsCredentialHealth;
  hv_reconnect : option peerReconnectMetrics;
  hv_elapsed : Z
}.

Section health.
Context {S L : Type} `{BlobStore S}.
Context (fuel : nat) (nil_store : bool) (lister : Lister S) (lifecycle : option (runtime_parts * lifecycleRuntime L)) (view : health_view).
#[local] Abbreviation St := (replicator unit S * world)%type.

Definition metrics_snapshot : M St (gmap bytes Z) := λ s,
  (Ok (add_snapshot (add_snapshot (add_snapshot (add_snapshot (hv_transportMetrics view)
     (replicationMetrics_Snapshot (Some (rp_metrics s.1)))) (tls_Snapshot (hv_tls view) (hv_now view)))
     (Metrics lifecycle s.2)) (reconnect_Snapshot (hv_reconnect view))), s).

Definition readyz : handler St := λ _,
  ret (if negb (hv_transportReady view) || negb (tls_Ready (hv_tls view) (hv_now view)) || negb (Ready (fst <$> lifecycle))
       then http_Error 503 (lit "not ready") else ok).
Definition inventory_status : handler St := λ _,
  attempt (observeInventoryStatus fuel (hv_elapsed view) lister) (λ r,
    ret (match r with Ok s => mkResponse 200 (InventoryStatus s) | Err _ => http_Error 503 (lit "inventory unavailable") end)).
Definition storage_status : handler St := λ _,
  attempt (observeStorageIntegrityStatus fuel (hv_elapsed view) nil_store lister) (λ r,
    ret (match r with Ok s => mkResponse 200 (StorageStatus s) | Err _ => http_Error 503 (lit "storage unavailable") end)).

Definition health_routes : list (bytes * handler St) :=
  map (λ p, (p.1, readOnlyHealthHandler p.2))
  [(lit "/livez", λ _, ret ok);
   (lit "/readyz", readyz);
   (lit "/version", λ _, ret (mkResponse 200 (VersionStatus snapshotVersionStatus)));
   (lit "/metrics", λ _, s <- metrics_snapshot ; ret (mkResponse 200 (MetricsJSON s)));
   (lit "/lifecycle/status", λ _ s, (Ok (mkResponse 200 (LifecycleStatus (Status lifecycle s.2))), s));
   (lit "/inventory/status", inventory_status);
   (lit "/storage/status", storage_status);
   (lit "/peers", λ _, ret (mkResponse 200 (PeersStatus (snapshotPeers (hv_peers view) (hv_now view)))));
   (lit "/metrics/prometheus", λ _, s <- metrics_snapshot ; ret (mkResponse 200 (Prometheus (writePrometheusMetrics s))))].
(** The handler that [startHealth] serves. *)
Definition startHealth (authToken : bytes) (others : handler St) : handler St :=
  healthAuthHandler authToken (ServeMux health_routes others).
End health.

(** ** Readiness and certificates *)

Lemma check_credentials_valid now inputs cs : check_credentials now inputs = Ok cs →
  Forall (λ c, cv_notBefore c <= now < cv_notAfter c) cs.
Proof.
  revert cs. induction inputs as [|[name [[[[nb na]|e]|]|]] inputs IH]; intros cs; cbn; try done; [by intros [= <-]|..|by apply IH].
  destruct (Z.ltb_spec now nb); [done|]. destruct (Z.ltb_spec now na); [|done]. intros (rest & Hr & [= <-])%rbind_Ok.
  constructor; [done|by apply IH].
Qed.

(** Over credentials that have started to be valid, the pass finds the earliest
    expiry and counts the ones behind it. *)
Lemma count_fold now window cs n : Forall (λ c, cv_notBefore c <= now ∧ zero_time < cv_notAfter c) cs → zero_time <= tn_earliest n →
  let n' := foldl (count_credential now window) n cs in
  tn_notYetValid n' = tn_notYetValid n ∧
  tn_expired n' = tn_expired n + len (filter (λ c, cv_notAfter c <= now) cs) ∧
  (cs = [] ∧ n' = n ∨ zero_time < tn_earliest n' ∧ Forall (λ c, tn_earliest n' <= cv_notAfter c) cs ∧
     (tn_earliest n' = tn_earliest n ∧ tn_earliest n ≠ zero_time ∨ ∃ c, c ∈ cs ∧ tn_earliest n' = cv_notAfter c) ∧
     (tn_earliest n = zero_time ∨ tn_earliest n' <= tn_earliest n)).
Proof.
  revert n. induction cs as [|c cs IH]; intros n Hall He; cbn [foldl]; [split_and!; [done|symmetry; apply Z.add_0_r|by left]|].
  apply Forall_cons in Hall as [[Hc1 Hc2] Hall]. set (n1 := count_credential now window n c).
  assert (tn_notYetValid n1 = tn_notYetValid n ∧ tn_expired n1 = tn_expired n + Z.b2z (cv_notAfter c <=? now) ∧
    tn_earliest n1 = if (tn_earliest n =? zero_time) || (cv_notAfter c <? tn_earliest n) then cv_notAfter c else tn_earliest n) as (N1 & N2 & N3).
  { unfold n1, count_credential. destruct (Z.ltb_spec now (cv_notBefore c)); [lia|].
    destruct (Z.ltb_spec now (cv_notAfter c)), (Z.leb_spec (cv_notAfter c) now); try lia; cbn [negb Z.b2z];
      [destruct (_ && _)|]; cbn; split_and!; lia || done. }
  assert (zero_time < tn_earliest n1 <= cv_notAfter c ∧ (tn_earliest n = zero_time ∨ tn_earliest n1 <= tn_earliest n) ∧
    (tn_earliest n1 = tn_earliest n ∧ tn_earliest n ≠ zero_time ∨ tn_earliest n1 = cv_notAfter c)) as (M1 & M2 & M3).
  { rewrite N3. destruct (Z.eqb_spec (tn_earliest n) zero_time), (Z.ltb_spec (cv_notAfter c) (tn_earliest n)); cbn [orb]; lia. }
  destruct (IH n1 Hall) as (I1 & I2 & I3); [lia|]. split_and!; [congruence| |right].
  - rewrite I2, N2, filter_cons. destruct (Z.leb_spec (cv_notAfter c) now); case_decide; try lia; cbn [Z.b2z]; rewrite ?len_cons; lia.
  - destruct I3 as [[-> E]|(J1 & J2 & J3 & J4)].
    + cbn [foldl]. split_and!; [lia|constructor; [lia|done]| |done].
      destruct M3 as [M3|M3]; [by left|right]. exists c. split; [by left|done].
    + split_and!; [done|constructor; [lia|done]| |lia]. destruct J3 as [[E1 E2]|(c' & Hc' & E)]; [|right; exists c'; split; [by right|done]].
      destruct M3 as [[E3 E4]|E3]; [left; split; [congruence|done]|right; exists c; split; [by left|congruence]].
Qed.

Lemma tls_Ready_spec h now : tls_Ready (Some h) now = true ↔ Forall (λ c, cv_notBefore c <= now < cv_notAfter c) (th_credentials h).
Proof.
  cbn. rewrite forallb_forall, Forall_forall. setoid_rewrite <- list_elem_of_In. apply forall_proper. intros c.
  rewrite negb_true_iff, orb_false_iff, negb_false_iff, Z.ltb_ge, Z.ltb_lt. done.
Qed.

(** certificates that were valid when the program started keep it ready
    until the first of them expires and not longer, the readiness that /readyz
    uses agrees with the counters that it publishes, and the expiry that it
    publishes is that of the first certificate to expire. *)
Theorem readiness_tracks_certificates now0 window inputs h now :
  newTLSCredentialHealth now0 window inputs = Ok h → zero_time <= now0 <= now →
  let n := tls_counted h now in
  (tls_Ready (Some h) now = true ↔ tn_expired n = 0) ∧ tn_notYetValid n = 0 ∧
  (th_credentials h ≠ [] → (tls_Ready (Some h) now = true ↔ now < tn_earliest n) ∧
     Forall (λ c, tn_earliest n <= cv_notAfter c) (th_credentials h) ∧ (∃ c, c ∈ th_credentials h ∧ tn_earliest n = cv_notAfter c)).
Proof.
  unfold newTLSCredentialHealth. intros Hh Hnow. apply rbind_Ok in Hh as (cs & Hcs & Hh). injection Hh as <-. cbn zeta. unfold tls_counted. cbn [th_credentials th_warningWindow].
  apply check_credentials_valid in Hcs.
  destruct (count_fold now window cs (mkCounts zero_time 0 0 0)) as (C1 & C2 & C3); [|done|].
  { eapply Forall_impl; [exact Hcs|]. cbn. lia. }
  cbn [tn_earliest tn_expired tn_notYetValid] in *. set (n := foldl _ _ cs) in *.
  assert (tls_Ready (Some (mkTLSHealth cs window)) now = true ↔ Forall (λ c, now < cv_notAfter c) cs) as Hready.
  { rewrite tls_Ready_spec. cbn. rewrite !Forall_forall. rewrite Forall_forall in Hcs. split; intros Hf c Hc; specialize (Hf c Hc); specialize (Hcs c Hc); lia. }
  split_and!; [|done|].
  - rewrite Hready, C2, Z.add_0_l, len_zero, Forall_forall. split.
    + intros Hf. destruct (filter _ cs) as [|c l] eqn:E; [done|].
      assert (c ∈ filter (λ c, cv_notAfter c <= now) cs) as [Hle Hc]%list_elem_of_filter by (rewrite E; by left).
      specialize (Hf c Hc). lia.
    + intros E c Hc. destruct (Z.lt_ge_cases now (cv_notAfter c)) as [|Hge]; [done|].
      assert (c ∈ filter (λ c, cv_notAfter c <= now) cs) as Hin by by apply list_elem_of_filter. rewrite E in Hin. by apply elem_of_nil in Hin.
  - intros Hne. destruct C3 as [[? _]|(E1 & E2 & E3 & _)]; [done|].
    destruct E3 as [[_ []]|(c & Hc & E)]; [done|]. split_and!; [|done|by exists c].
    rewrite Hready. rewrite Forall_forall in E2. split.
    + intros Hf. rewrite E. rewrite Forall_forall in Hf. by apply Hf.
    + intros Hlt. apply Forall_forall. intros c' Hc'. specialize (E2 c' Hc'). lia.
Qed.

(** ** Guards *)

Section guards.
Context {S L : Type} `{BlobStore S}.
Context (fuel : nat) (nil_store : bool) (lister : Lister S) (lifecycle : option (runtime_parts * lifecycleRuntime L)) (view : health_view).
#[local] Abbreviation St := (replicator unit S * world)%type.
#[local] Abbreviation serve := (startHealth fuel nil_store lister lifecycle view).

Lemma ServeMux_route (routes : list (bytes * handler St)) others req h :
  NoDup routes.*1 → (rq_Path req, h) ∈ routes → ServeMux routes others req = h req.
Proof.
  induction routes as [|[path h'] routes IH]; intros Hnd Hin; [by apply elem_of_nil in Hin|]. cbn [ServeMux].
  apply NoDup_cons in Hnd as [Hp Hnd]. apply elem_of_cons in Hin as [[= <- <-]|Hin]; [by rewrite bool_decide_eq_true_2|].
  rewrite bool_decide_eq_false_2; [by apply IH|]. intros <-. apply Hp. apply list_elem_of_fmap. by exists (rq_Path req, h).
Qed.
Lemma routes_distinct : NoDup (health_routes fuel nil_store lister lifecycle view).*1.
Proof. apply (bool_decide_unpack _). vm_compute. exact I. Qed.
Lemma route_found req : rq_Path req ∈ (health_routes fuel nil_store lister lifecycle view).*1 →
  ∃ h, ∀ others, ServeMux (health_routes fuel nil_store lister lifecycle view) others req = readOnlyHealthHandler h req.
Proof.
  intros ([p h] & Hp & Hin)%list_elem_of_fmap. cbn in Hp. pose proof Hin as Hin'. unfold health_routes in Hin'.
  apply list_elem_of_fmap in Hin' as ([p' h'] & [= <- ->] & _). cbn [fst] in *. exists h'. intros others.
  apply (ServeMux_route _ others req (readOnlyHealthHandler h')); [apply routes_distinct|by rewrite Hp].
Qed.

(** C37: with a token, a request for anything but /livez and /readyz that does
    not carry it is answered with 401, and a request for one of the endpoints
    that is neither GET nor HEAD with 405; both leave the counters and the store
    alone and start no scan.  /readyz, which needs no token, answers a GET and a
    HEAD with 200 when the transport is ready, every certificate is valid at the
    time and the lifecycle runtime is ready, and with 503 otherwise; a runtime is
    ready when there is none or all its seven parts are set, whatever their state,
    so one that [openLifecycleRuntime] returned always is. *)
Theorem health_guarded token others req (s : St) : token ≠ [] →
  (rq_Path req ≠ lit "/livez" → rq_Path req ≠ lit "/readyz" → rq_Authorization req ≠ lit "Bearer " ++ token →
     serve token others req s = (Ok (http_Error 401 (lit "unauthorized")), s)) ∧
  (rq_Path req ∈ (health_routes fuel nil_store lister lifecycle view).*1 → rq_Method req ≠ lit "GET" → rq_Method req ≠ lit "HEAD" →
     ∃ code, code ∈ [401; 405] ∧ ∃ b, serve token others req s = (Ok (mkResponse code b), s)) ∧
  (rq_Path req = lit "/readyz" → rq_Method req = lit "GET" ∨ rq_Method req = lit "HEAD" → ∃ r, serve token others req s = (Ok r, s) ∧
     (hv_transportReady view = true ∧ tls_Ready (hv_tls view) (hv_now view) = true ∧ Ready (fst <$> lifecycle) = true → r = ok) ∧
     (hv_transportReady view = false ∨ tls_Ready (hv_tls view) (hv_now view) = false ∨ Ready (fst <$> lifecycle) = false →
        r = http_Error 503 (lit "not ready"))) ∧
  (∀ p rt, lifecycle = Some (p, rt) → Ready (fst <$> lifecycle) = true ↔ p = opened_parts).
Proof.
  intros Ht. assert (len token =? 0 = false) as E0 by (apply Z.eqb_neq; by rewrite len_zero).
  unfold startHealth, healthAuthHandler. rewrite E0. split_and!.
  - intros H1 H2 H3. by rewrite !bool_decide_eq_false_2 by done.
  - intros Hp H1 H2. destruct (route_found req Hp) as [h Eh]. rewrite (Eh others). unfold readOnlyHealthHandler.
    rewrite (bool_decide_eq_false_2 (rq_Method req = lit "GET")), (bool_decide_eq_false_2 (rq_Method req = lit "HEAD")) by done. cbn [negb andb].
    destruct (_ || _); [|destruct (negb _)]; eexists; (split; [|by eexists]); set_solver.
  - intros Hp Hm. rewrite (bool_decide_eq_true_2 (rq_Path req = lit "/readyz")) by done. rewrite orb_true_r.
    eexists. split.
    + rewrite (ServeMux_route _ others req (readOnlyHealthHandler (readyz lifecycle view))); [|apply routes_distinct|].
      * unfold readOnlyHealthHandler. assert (negb (bool_decide (rq_Method req = lit "GET")) && negb (bool_decide (rq_Method req = lit "HEAD")) = false) as ->.
        { apply andb_false_iff. rewrite !negb_false_iff, !bool_decide_eq_true. exact Hm. }
        reflexivity.
      * rewrite Hp. unfold health_routes. right. left.
    + split.
      * by intros (-> & -> & ->).
      * intros Hn. destruct (hv_transportReady view), (tls_Ready _ _), (Ready _); try done; by destruct Hn as [|[|]].
  - intros p rt ->. cbn. rewrite !andb_true_iff. split; [|by intros ->]. destruct p. cbn. intros ((((((-> & ->) & ->) & ->) & ->) & ->) & ->). done.
Qed.
End guards.

(** ** Scans over a store *)

Lemma tally_run {P S} m d (r : replicator P S) (w : world) :
  tally m d (r, w) = (Ok tt, (mkReplicator (rp_peer r) (rp_store r) (repl_add m d (rp_metrics r)), w)).
Proof. reflexivity. Qed.
Ltac tallies := repeat (erewrite bind_step_Ok by apply tally_run; cbn [rp_peer rp_store rp_metrics]).

(** Without faults the storage endpoint reports on every blob and leaves the
    store alone; it says healthy exactly when no blob is corrupt. *)
Theorem storage_status_exact {T : Type} `{BTreeLaws T} (r : replicator unit (MemoryStore T)) (w : world) fuel view req :
  quiet w → ms_wf (rp_store r) → (length (map_keys (ms_data (rp_store r))) < fuel)%nat →
  ∃ status ms, storage_status fuel false (PagedLister MemoryStore_ListKeyPage) view req (r, w) =
      (Ok (mkResponse 200 (StorageStatus status)), (mkReplicator (rp_peer r) (rp_store r) ms, w)) ∧
    IKeyCount (ig_Summary status) = len (map_keys (ms_data (rp_store r))) ∧
    (ig_Healthy status = true ↔ ∀ k, ¬ corrupt_entry (ms_data (rp_store r)) k).
Proof.
  intros Hq Hwf Hf. destruct (InspectInventory_exact (rp_store r) w _ fuel Hq Hwf (reflexivity _) Hf) as (s & E & _ & Hn & _ & Hm & _ & Hc).
  eexists (mkIntegrityStatus true _ live s), _. split; [|split; [exact Hn|]].
  - unfold storage_status, observeStorageIntegrityStatus. unfold attempt at 1. tallies. unfold attempt, snapshotStorageIntegrityStatus.
    erewrite (bind_step_Ok (on_blobs _)).
    2: { unfold on_blobs, zoom, inspect. cbn [rp_peer rp_store rp_metrics fst snd]. rewrite E. reflexivity. }
    unfold ret at 1. tallies. unfold ret. reflexivity.
  - cbn [ig_Healthy]. rewrite andb_true_iff, !Z.eqb_eq, Hm. naive_solver.
Qed.

(** Every metric of a snapshot is written once, in the order of the names. *)
Lemma prometheus_sorted snapshot : ∃ keys, writePrometheusMetrics snapshot = concat (map (prometheus_metric snapshot) keys) ∧
  NoDup keys ∧ StronglySorted bytes_le keys ∧ ∀ k, k ∈ keys ↔ is_Some (snapshot !! k).
Proof.
  exists (sorted_keys (map_to_list snapshot).*1). split_and!; [done|..|apply sorted_keys_sorted|].
  - rewrite sorted_keys_perm. apply NoDup_fst_map_to_list.
  - intros k. rewrite sorted_keys_perm, list_elem_of_fmap. split.
    + intros ([k' v] & -> & Hin%elem_of_map_to_list). by eexists.
    + intros [v Hv]. exists (k, v). by rewrite elem_of_map_to_list.
Qed.

(** ** Examples *)

Definition ex_inputs : list tlsCredentialInput :=
  [mkCredentialInput (lit "-tls-cert") (Some (Some (Ok (10, 500)))); mkCredentialInput (lit "-tls-client-cert") (Some (Some (Ok (20, 300))))].
Definition ex_health : tlsCredentialHealth := mkTLSHealth [mkValidity 10 500; mkValidity 20 300] 50.
Lemma readiness_tracks_certificates_witness : tls_Ready (Some ex_health) 299 = true ∧ tls_Ready (Some ex_health) 300 = false.
Proof.
  destruct (readiness_tracks_certificates 100 50 ex_inputs ex_health 299 eq_refl ltac:(unfold zero_time; lia)) as (_ & _ & H1).
  destruct (readiness_tracks_certificates 100 50 ex_inputs ex_health 300 eq_refl ltac:(unfold zero_time; lia)) as (_ & _ & H2).
  destruct H1 as (H1 & _); [done|]. destruct H2 as (H2 & _); [done|]. split; [by apply H1|].
  apply not_true_is_false. intros E. apply H2 in E. by vm_compute in E.
Defined.

Definition ex_view : health_view := mkView 100 true ∅ [] (Some ex_health) None 0.
Definition ex_node_state : replicator unit (MemoryStore (gset bytes)) * world :=
  (mkReplicator tt (mkMemoryStore ∅ None) (λ _, 0), ex_world []).
Lemma health_guarded_witness : ∃ req, rq_Path req = lit "/storage/status" ∧
  startHealth (L := unit) 1 false (PagedLister MemoryStore_ListKeyPage) None ex_view (lit "secret") (λ _, ret ok) req ex_node_state =
    (Ok (http_Error 401 (lit "unauthorized")), ex_node_state).
Proof.
  exists (mkRequest (lit "GET") (lit "/storage/status") []). split; [reflexivity|].
  apply (health_guarded 1 false (PagedLister MemoryStore_ListKeyPage) None ex_view (lit "secret") (λ _, ret ok)
    (mkRequest (lit "GET") (lit "/storage/status") []) ex_node_state); done.
Defined.
