(* ===== verification/Tcp.v ===== *)
(** * The TCP transport

    p2p/tcp_transport.go and p2p/metrics.go.  The transport's fields behind its
    mutex are [shared]; a goroutine or a call in progress is a program counter
    [pc] with its local variables; [step_pc] runs it from one point where other
    goroutines may interleave (a lock, a system call, a channel, a callback) to
    the next.  What the network, the clock and the callbacks do is the [event]
    of the step.

    A [*TCPPeer] is an index into [s_heap].  The bytes that the remote side will
    ever send are fixed when the connection is made ([tp_stream]); the bytes
    that [tp.reader] has not returned yet are [tp_reader].  A channel is an
    index into [s_chans], which says whether it is closed; closing it again is a
    panic.  Closing a connection is recorded; a read on it may fail at any time. *)
From S2P Require Import Prelude Go Bits Text Json Os Model Codec Journal Blobs Protocol Wire.

(** ** metrics.go *)

Inductive Metric :=
  | InboundAccepts | AcceptErrors | DialAttempts | DialSuccess | DialErrors | PeersRejected | ActivePeers
  | FramesHandled | FrameHandlerErrs | TLSHandshakeSuccess | TLSHandshakeFailures | PeerAuthSuccess
  | PeerAuthFailures | PeerAuthIdentityRejections | ShutdownState | ShutdownsStarted | ShutdownPeersDrained
  | ShutdownForcedCloses | ShutdownDeadlineExpiries | ShutdownTrackedPeers | ShutdownTrackedGoroutines.
#[export] Instance Metric_eq_dec : EqDecision Metric.
Proof. solve_decision. Defined.

(** The [atomic.Int64] fields; the others are [atomic.Uint64]. *)
Definition is_gauge (m : Metric) : bool :=
  match m with
  | ActivePeers | ShutdownState | ShutdownTrackedPeers | ShutdownTrackedGoroutines => true
  | _ => false
  end.
Definition int64 (z : Z) : Z := (z + 2 ^ 63) mod 2 ^ 64 - 2 ^ 63.
Definition metric_wrap (m : Metric) (z : Z) : Z := if is_gauge m then int64 z else z mod 2 ^ 64.

Definition TransportMetrics := Metric → Z.
Definition NewTransportMetrics : TransportMetrics := λ _, 0.
Definition metric_store (m : Metric) (v : Z) (ms : TransportMetrics) : TransportMetrics :=
  λ x, if decide (x = m) then v else ms x.
Definition metric_add (m : Metric) (n : Z) (ms : TransportMetrics) : TransportMetrics :=
  metric_store m (metric_wrap m (ms m + n)) ms.

(** [None] is the nil receiver. *)
Definition metrics_Snapshot (ms : option TransportMetrics) : gmap bytes Z :=
  match ms with
  | None => ∅
  | Some ms => list_to_map
      [(lit "inbound_accepts", int64 (ms InboundAccepts)); (lit "accept_errors", int64 (ms AcceptErrors));
       (lit "dial_attempts", int64 (ms DialAttempts)); (lit "dial_success", int64 (ms DialSuccess));
       (lit "dial_errors", int64 (ms DialErrors)); (lit "peers_rejected", int64 (ms PeersRejected));
       (lit "active_peers", ms ActivePeers); (lit "frames_handled", int64 (ms FramesHandled));
       (lit "frame_handler_errors", int64 (ms FrameHandlerErrs));
       (lit "tls_handshake_success", int64 (ms TLSHandshakeSuccess));
       (lit "tls_handshake_failures", int64 (ms TLSHandshakeFailures));
       (lit "peer_auth_success", int64 (ms PeerAuthSuccess));
       (lit "peer_auth_failures", int64 (ms PeerAuthFailures));
       (lit "peer_auth_identity_rejections", int64 (ms PeerAuthIdentityRejections));
       (lit "shutdown_state", ms ShutdownState); (lit "shutdown_started", int64 (ms ShutdownsStarted));
       (lit "shutdown_peers_drained", int64 (ms ShutdownPeersDrained));
       (lit "shutdown_forced_closes", int64 (ms ShutdownForcedCloses));
       (lit "shutdown_deadline_expiries", int64 (ms ShutdownDeadlineExpiries));
       (lit "shutdown_tracked_peers", ms ShutdownTrackedPeers);
       (lit "shutdown_tracked_goroutines", ms ShutdownTrackedGoroutines)]
  end.

(** ** Configuration and peers *)

(** The fields that are set before the transport is used. *)
Record TransportConfig := mkTransportConfig {
  ListenAddress : bytes;
  FrameHandler : bool;            (** whether a handler is set *)
  MaxPeers : Z;
  ReadIdleTimeout : Z;
  MaxFrameBytes : Z;
  PeerAuthToken : bytes;
  PeerAuthIdentity : bytes;
  PeerAuthAllowedIdentities : list bytes;
  PeerAuthCapabilities : list bytes;
  TLSServerConfig : bool;
  TLSClientConfig : bool
}.

Definition PeerAuthMethodNone : bytes := Eval cbv in lit "none".
Definition PeerAuthMethodSharedToken : bytes := Eval cbv in lit "shared-token".

Record TCPPeer := mkTCPPeer {
  tp_remote : bytes;
  tp_outbound : bool;
  tp_dialTarget : bytes;
  tp_authMethod : bytes;
  tp_authIdentity : bytes;
  tp_authCapabilities : list bytes;
  tp_reader : bytes;
  tp_closed : bool;
  tp_stream : bytes;              (** everything the remote side sends *)
  tp_handled : list bytes         (** the payloads given to the frame handler *)
}.
Definition NewTCPPeer (remote stream : bytes) (outbound : bool) : TCPPeer :=
  mkTCPPeer remote outbound [] PeerAuthMethodNone [] [] stream false stream [].
Definition set_dialTarget (x : bytes) (p : TCPPeer) : TCPPeer :=
  mkTCPPeer (tp_remote p) (tp_outbound p) x (tp_authMethod p) (tp_authIdentity p) (tp_authCapabilities p) (tp_reader p) (tp_closed p) (tp_stream p) (tp_handled p).
Definition set_authMethod (x : bytes) (p : TCPPeer) : TCPPeer :=
  mkTCPPeer (tp_remote p) (tp_outbound p) (tp_dialTarget p) x (tp_authIdentity p) (tp_authCapabilities p) (tp_reader p) (tp_closed p) (tp_stream p) (tp_handled p).
Definition set_auth (identity : bytes) (capabilities : list bytes) (p : TCPPeer) : TCPPeer :=
  mkTCPPeer (tp_remote p) (tp_outbound p) (tp_dialTarget p) (tp_authMethod p) identity capabilities (tp_reader p) (tp_closed p) (tp_stream p) (tp_handled p).
Definition set_reader (x : bytes) (p : TCPPeer) : TCPPeer :=
  mkTCPPeer (tp_remote p) (tp_outbound p) (tp_dialTarget p) (tp_authMethod p) (tp_authIdentity p) (tp_authCapabilities p) x (tp_closed p) (tp_stream p) (tp_handled p).
Definition set_closed (p : TCPPeer) : TCPPeer :=
  mkTCPPeer (tp_remote p) (tp_outbound p) (tp_dialTarget p) (tp_authMethod p) (tp_authIdentity p) (tp_authCapabilities p) (tp_reader p) true (tp_stream p) (tp_handled p).
Definition add_handled (x : bytes) (p : TCPPeer) : TCPPeer :=
  mkTCPPeer (tp_remote p) (tp_outbound p) (tp_dialTarget p) (tp_authMethod p) (tp_authIdentity p) (tp_authCapabilities p) (tp_reader p) (tp_closed p) (tp_stream p) (tp_handled p ++ [x]).

Definition peer_HasCapability (p : TCPPeer) (capability : bytes) : bool := HasCapability (tp_authCapabilities p) capability.
Definition peer_LifecycleCapabilityStatus (p : TCPPeer) (required : bool) : CapabilityStatus :=
  LifecycleCapabilityStatus (tp_authCapabilities p) required.

Definition maxFrame (c : TransportConfig) : Z := if 0 <? MaxFrameBytes c then MaxFrameBytes c else DefaultMaxFrameBytes.
Definition maxPeerAuthFrame (c : TransportConfig) : Z :=
  if MaxPeerAuthPayloadBytes <? maxFrame c then MaxPeerAuthPayloadBytes else maxFrame c.
Definition peerAuthEnabled (c : TransportConfig) : bool := negb (bool_decide (PeerAuthToken c = [])).

Definition validatePeerAuthConfig (c : TransportConfig) : result unit :=
  if (negb (bool_decide (PeerAuthIdentity c = [])) || (0 <? len (PeerAuthAllowedIdentities c))) && negb (peerAuthEnabled c)
  then Err p2p_ErrPeerAuthIdentityRequiresToken
  else if (0 <? len (PeerAuthCapabilities c)) && negb (peerAuthEnabled c) then Err p2p_ErrPeerAuthCapabilitiesRequiresToken
  else
    _ <-? validatePeerIdentity (PeerAuthIdentity c) ;
    _ <-? validatePeerAuthAllowlist (PeerAuthAllowedIdentities c) ;
    _ <-? normalizePeerAuthCapabilities (PeerAuthCapabilities c) true ;
    Ok tt.

(** ** Authentication of a connection *)

(** The peer, the bytes written to its connection and the faults of the writes, the counters. *)
Record authState := mkAuthState { as_peer : TCPPeer; as_conn : bytes * world; as_metrics : TransportMetrics }.
Definition on_peer (f : TCPPeer → TCPPeer) : M authState unit :=
  modify (λ s, mkAuthState (f (as_peer s)) (as_conn s) (as_metrics s)).
Definition on_reader {A} (m : M bytes A) : M authState A :=
  zoom (λ s, tp_reader (as_peer s)) (λ r s, mkAuthState (set_reader r (as_peer s)) (as_conn s) (as_metrics s)) m.
Definition on_conn {A} (m : M (bytes * world) A) : M authState A :=
  zoom as_conn (λ c s, mkAuthState (as_peer s) c (as_metrics s)) m.
Definition count (m : Metric) : M authState unit :=
  modify (λ s, mkAuthState (as_peer s) (as_conn s) (metric_add m 1 (as_metrics s))).
(** [errors.Join(ErrPeerAuthFailed, err)] on the error path. *)
Definition or_auth_failed {S A} (m : M S A) : M S A :=
  attempt m (λ r, match r with Ok a => ret a | Err e => throw (EJoin p2p_ErrPeerAuthFailed e) end).

Definition authenticateInbound (c : TransportConfig) : M authState unit :=
  if negb (peerAuthEnabled c) then ret tt
  else
    payload <- or_auth_failed (on_reader (ReadFrame (maxPeerAuthFrame c))) ;
    match validatePeerAuthPayload payload (PeerAuthToken c) (PeerAuthAllowedIdentities c) with
    | Err e =>
        (if errors_Is e p2p_ErrPeerAuthIdentityInvalid || errors_Is e p2p_ErrPeerAuthIdentityNotAllowed
         then count PeerAuthIdentityRejections else ret tt) ;;
        (match encodePeerAuthReject with
         | Ok rejectPayload => attempt (on_conn (p2p_WriteFrame rejectPayload (maxPeerAuthFrame c))) (λ _, ret tt)
         | Err _ => ret tt
         end) ;;
        throw e
    | Ok (identity, capabilities) =>
        on_peer (set_auth identity capabilities) ;;
        ackPayload <- lift (encodePeerAuthOK (PeerAuthIdentity c) (PeerAuthCapabilities c)) ;
        or_auth_failed (on_conn (p2p_WriteFrame ackPayload (maxPeerAuthFrame c))) ;;
        count PeerAuthSuccess
    end.

Definition authenticateOutbound (c : TransportConfig) : M authState unit :=
  if negb (peerAuthEnabled c) then ret tt
  else
    payload <- lift (encodePeerAuth (PeerAuthToken c) (PeerAuthIdentity c) (PeerAuthCapabilities c)) ;
    or_auth_failed (on_conn (p2p_WriteFrame payload (maxPeerAuthFrame c))) ;;
    ackPayload <- or_auth_failed (on_reader (ReadFrame (maxPeerAuthFrame c))) ;
    '(identity, capabilities) <- lift (validatePeerAuthAck ackPayload) ;
    on_peer (set_auth identity capabilities) ;;
    count PeerAuthSuccess.

(** ** The state behind the mutex *)

Inductive transportLifecycleState := transportStateOpen | transportStateDraining | transportStateClosed.
#[export] Instance state_eq_dec : EqDecision transportLifecycleState.
Proof. solve_decision. Defined.
Definition state_int (s : transportLifecycleState) : Z :=
  match s with transportStateOpen => 0 | transportStateDraining => 1 | transportStateClosed => 2 end.

(** [closeOnce]: whether its function has not run, is running, or has returned
    (and whether [Drain] or [Close] ran it). *)
Inductive once := OnceNew | OnceRunning | OnceDone (drained : bool).

Record shared := mkShared {
  s_state : transportLifecycleState;
  s_Listener : option bytes;            (** the address the listener is bound to *)
  s_peers : gmap bytes nat;
  s_connections : gset nat;
  s_metrics : TransportMetrics;
  s_workDone : nat;
  s_workCount : Z;
  s_shutdown : bool;                    (** [shutdownCtx] is done *)
  s_once : once;
  s_closeErr : option error;
  s_heap : list TCPPeer;
  s_chans : list bool;
  s_panic : bool
}.

Definition NewTCPTransport : shared :=
  mkShared transportStateOpen None ∅ ∅ (metric_store ShutdownState (state_int transportStateOpen) NewTransportMetrics)
    0 0 false OnceNew None [] [true] false.

Section setters.
Context (s : shared).
Definition with_state x := mkShared x (s_Listener s) (s_peers s) (s_connections s) (s_metrics s) (s_workDone s) (s_workCount s) (s_shutdown s) (s_once s) (s_closeErr s) (s_heap s) (s_chans s) (s_panic s).
Definition with_Listener x := mkShared (s_state s) x (s_peers s) (s_connections s) (s_metrics s) (s_workDone s) (s_workCount s) (s_shutdown s) (s_once s) (s_closeErr s) (s_heap s) (s_chans s) (s_panic s).
Definition with_peers x := mkShared (s_state s) (s_Listener s) x (s_connections s) (s_metrics s) (s_workDone s) (s_workCount s) (s_shutdown s) (s_once s) (s_closeErr s) (s_heap s) (s_chans s) (s_panic s).
Definition with_connections x := mkShared (s_state s) (s_Listener s) (s_peers s) x (s_metrics s) (s_workDone s) (s_workCount s) (s_shutdown s) (s_once s) (s_closeErr s) (s_heap s) (s_chans s) (s_panic s).
Definition with_metrics x := mkShared (s_state s) (s_Listener s) (s_peers s) (s_connections s) x (s_workDone s) (s_workCount s) (s_shutdown s) (s_once s) (s_closeErr s) (s_heap s) (s_chans s) (s_panic s).
Definition with_work done_ n := mkShared (s_state s) (s_Listener s) (s_peers s) (s_connections s) (s_metrics s) done_ n (s_shutdown s) (s_once s) (s_closeErr s) (s_heap s) (s_chans s) (s_panic s).
Definition with_once x e := mkShared (s_state s) (s_Listener s) (s_peers s) (s_connections s) (s_metrics s) (s_workDone s) (s_workCount s) (s_shutdown s) x e (s_heap s) (s_chans s) (s_panic s).
Definition with_heap x := mkShared (s_state s) (s_Listener s) (s_peers s) (s_connections s) (s_metrics s) (s_workDone s) (s_workCount s) (s_shutdown s) (s_once s) (s_closeErr s) x (s_chans s) (s_panic s).
Definition with_chans x p := mkShared (s_state s) (s_Listener s) (s_peers s) (s_connections s) (s_metrics s) (s_workDone s) (s_workCount s) (s_shutdown s) (s_once s) (s_closeErr s) (s_heap s) x p.
Definition shutdownCancel := mkShared (s_state s) (s_Listener s) (s_peers s) (s_connections s) (s_metrics s) (s_workDone s) (s_workCount s) true (s_once s) (s_closeErr s) (s_heap s) (s_chans s) (s_panic s).
End setters.

Definition Add (m : Metric) (n : Z) (s : shared) : shared := with_metrics s (metric_add m n (s_metrics s)).
Definition alter_peer (f : TCPPeer → TCPPeer) (tp : nat) (s : shared) : shared := with_heap s (alter f tp (s_heap s)).
Definition new_peer (p : TCPPeer) (s : shared) : nat * shared := (length (s_heap s), with_heap s (s_heap s ++ [p])).
Definition peer_Close : nat → shared → shared := alter_peer set_closed.
Definition remote_of (tp : nat) (s : shared) : bytes := from_option tp_remote [] (s_heap s !! tp).

(** [make(chan struct{})], [close(ch)] and a receive that does not block. *)
Definition make_chan (s : shared) : nat * shared := (length (s_chans s), with_chans s (s_chans s ++ [false]) (s_panic s)).
Definition close_chan (ch : nat) (s : shared) : shared :=
  match s_chans s !! ch with
  | Some false => with_chans s (<[ch := true]> (s_chans s)) (s_panic s)
  | _ => with_chans s (s_chans s) true
  end.
Definition chan_closed (ch : nat) (s : shared) : bool := default false (s_chans s !! ch).

Definition is_open (s : shared) : bool := bool_decide (s_state s = transportStateOpen).

Definition startWorkLocked (s : shared) : bool * shared :=
  if negb (is_open s) then (false, s)
  else
    let s := if s_workCount s =? 0 then let '(ch, s) := make_chan s in with_work s ch (s_workCount s) else s in
    let s := with_work s (s_workDone s) (s_workCount s + 1) in
    (true, Add ShutdownTrackedGoroutines 1 s).
Definition beginWork : shared → bool * shared := startWorkLocked.
Definition finishWork (s : shared) : shared :=
  if s_workCount s =? 0 then s
  else
    let s := with_work s (s_workDone s) (s_workCount s - 1) in
    let s := Add ShutdownTrackedGoroutines (-1) s in
    if s_workCount s =? 0 then close_chan (s_workDone s) s else s.
Definition trackConnection (tp : nat) (s : shared) : bool * shared :=
  if negb (is_open s) then (false, s) else (true, with_connections s ({[tp]} ∪ s_connections s : gset nat)).
Definition removeConnection (tp : nat) (s : shared) : shared := with_connections s (s_connections s ∖ {[tp]} : gset nat).
Definition registeredConnectionLocked (tp : nat) (s : shared) : bool :=
  bool_decide (s_peers s !! remote_of tp s = Some tp).
Definition split_connections (s : shared) : list nat * list nat :=
  let connections : list nat := base.elements (s_connections s) in
  (filter (λ tp, registeredConnectionLocked tp s = false) connections,
   filter (λ tp, registeredConnectionLocked tp s = true) connections).
Definition snapshotConnections : shared → list nat * list nat := split_connections.
Definition closeConnections (peers : list nat) (s : shared) : shared := foldl (λ s tp, peer_Close tp s) s peers.
(** [closeConnections] with the count that its callers add to the metrics. *)
Definition force_close (peers : list nat) (s : shared) : shared :=
  let s := closeConnections peers s in
  if 0 <? len peers then Add ShutdownForcedCloses (len peers) s else s.
Definition markClosed (s : shared) : shared :=
  let s := with_state s transportStateClosed in
  with_metrics s (metric_store ShutdownState (state_int transportStateClosed) (s_metrics s)).
Definition Ready (s : shared) : bool := bool_decide (is_Some (s_Listener s)).
Definition Addr (s : shared) : option bytes := s_Listener s.
Definition Peers (s : shared) : list nat := (map_to_list (s_peers s)).*2.

(** [handlePeer] up to the release of the lock: [Some r] when it returns
    there, [None] when the peer is registered. *)
Definition handlePeer (c : TransportConfig) (tp : nat) (s : shared) : option (option error) * shared :=
  let s := if peerAuthEnabled c then alter_peer (set_authMethod PeerAuthMethodSharedToken) tp s else s in
  let key := remote_of tp s in
  if negb (is_open s) then (Some (Some p2p_ErrTransportClosed), s)
  else if bool_decide (is_Some (s_peers s !! key)) then (Some None, peer_Close tp s)
  else if (0 <? MaxPeers c) && (MaxPeers c <=? Z.of_nat (size (s_peers s)))
  then (Some None, peer_Close tp (Add PeersRejected 1 s))
  else
    let '(started, s) := startWorkLocked s in
    if negb started then (Some (Some p2p_ErrTransportClosed), s)
    else
      let s := with_peers s (<[key := tp]> (s_peers s)) in
      (None, Add ShutdownTrackedPeers 1 (Add ActivePeers 1 s)).

Definition unregisterPeer (tp : nat) (s : shared) : shared :=
  let key := remote_of tp s in
  if bool_decide (is_Some (s_peers s !! key)) then
    Add ShutdownTrackedPeers (-1) (Add ActivePeers (-1) (with_peers s (delete key (s_peers s))))
  else s.

(** The locals of a shutdown: whether it drains, what [beginShutdown] returned,
    and the error of closing the listener. *)
Record shut := mkShut {
  sh_drain : bool;
  sh_listener : option bytes;
  sh_peerCount : Z;
  sh_pending : list nat;
  sh_active : list nat;
  sh_err : option error
}.
Definition beginShutdown (drain : bool) (s : shared) : shut * shared :=
  let s := with_state s transportStateDraining in
  let s := with_metrics s (metric_store ShutdownState (state_int transportStateDraining) (s_metrics s)) in
  let s := shutdownCancel (Add ShutdownsStarted 1 s) in
  let '(pending, active) := split_connections s in
  (mkShut drain (s_Listener s) (Z.of_nat (size (s_peers s))) pending active None, with_Listener s None).
Definition completeShutdown (peerCount : Z) (s : shared) : shared :=
  markClosed (if 0 <? peerCount then Add ShutdownPeersDrained peerCount s else s).

(** ** Goroutines and calls *)

(** The names give the function and the point in it: L is [ListenAndAccept], A
    [acceptLoop], H [handleAcceptedConn], D [Dial], S [peerServe], R [Drain] and
    [Close]. *)
Inductive pc :=
  | Returned (r : result unit)
  | LStart | LCheck | LBind | LInstall (ln : bytes) | LGo
  | ALoop | AAccept | AAdmit (tp : nat) | AGo (tp : nat) | AFinish
  | HTLS (tp : nat) | HAuth (tp : nat) | HHandle (tp : nat) | HServe (tp : nat) | HRemove (tp : nat) | HFinish
  | DStart (addr : bytes) | DConnect (addr : bytes) | DTrack (tp : nat) | DTLS (tp : nat) | DAuth (tp : nat)
  | DHandle (tp : nat) | DServe (tp : nat) | DRemove (tp : nat) (r : result unit) | DFinish (r : result unit)
  | SLoop (tp : nat) | SRead (tp : nat) | SHandle (tp : nat) (payload : bytes) | SUnregister (tp : nat)
  | SRemove (tp : nat) | SFinish
  | RDrain (ctx deadline : bool) | RClose | ROnce (drain : bool) | RBegin (drain : bool)
  | RListener (l : shut) | RPending (l : shut) | RWait (l : shut) | RWaiting (l : shut) (ch : nat)
  | RExpired (l : shut) | RForce (l : shut) (peers : list nat) | RJoin (l : shut) | RJoining (l : shut) (ch : nat)
  | RComplete (l : shut) (err : option error).

(** What happens outside during a step. *)
Inductive event :=
  | EvGo                                                 (** nothing of interest *)
  | EvCancelled                                          (** the context of the call is done *)
  | EvListen (r : result bytes) (cancelled : bool)       (** binding, and the context afterwards *)
  | EvConn (r : result (bytes * bytes))                  (** a connection: remote address and stream *)
  | EvTLS (r : result unit)
  | EvAuth (out : list outcome)                          (** the faults of the writes *)
  | EvReadFails
  | EvDiscard (n : nat)
  | EvHandler (r : result unit)
  | EvListenerClosed (e : option error)
  | EvDeadline.

Definition authenticate (m : M authState unit) (tp : nat) (out : list outcome) (s : shared) : result unit * shared :=
  match s_heap s !! tp with
  | None => (Err ErrClosed, s)
  | Some p =>
      let '(r, a) := m (mkAuthState p ([], World None out fs_empty) (s_metrics s)) in
      (r, with_metrics (alter_peer (λ _, as_peer a) tp s) (as_metrics a))
  end.

Definition as_error (r : result unit) : option error := match r with Ok _ => None | Err e => Some e end.
Definition as_result (e : option error) : result unit := match e with None => Ok tt | Some e => Err e end.
(** [errors.Join] of an error that may be nil and one that is not. *)
Definition errors_Join (e1 : option error) (e2 : error) : error :=
  match e1 with None => EWrap e2 | Some e1 => EJoin e1 e2 end.

(** One step of a call or goroutine: the new state, where it goes on, and the
    goroutines it starts.  [None]: it is blocked, or has returned. *)
Definition outcome_of := option (shared * pc * list pc).
Definition goto (p : pc) (s : shared) : outcome_of := Some (s, p, []).
Definition goto_go (p q : pc) (s : shared) : outcome_of := Some (s, p, [q]).

Section steps.
Context (c : TransportConfig).

Definition step_listen (p : pc) (e : event) (s : shared) : outcome_of :=
  match p, e with
  | LStart, _ =>
      match validatePeerAuthConfig c with
      | Err err => goto (Returned (Err err)) s
      | Ok _ =>
          if bool_decide (ListenAddress c = []) then goto (Returned (Err p2p_ErrAddrRequired)) s
          else match e with
               | EvCancelled => goto (Returned (Err ErrContext)) s
               | _ => goto LCheck s
               end
      end
  | LCheck, _ =>
      if negb (is_open s) then goto (Returned (Err p2p_ErrTransportClosed)) s
      else if bool_decide (is_Some (s_Listener s)) then goto (Returned (Err p2p_ErrAlreadyListening)) s
      else goto LBind s
  | LBind, EvListen (Err err) _ => goto (Returned (Err err)) s
  | LBind, EvListen (Ok ln) cancelled => if cancelled then goto (Returned (Err ErrContext)) s else goto (LInstall ln) s
  | LInstall ln, _ =>
      if negb (is_open s) then goto (Returned (Err p2p_ErrTransportClosed)) s
      else if bool_decide (is_Some (s_Listener s)) then goto (Returned (Err p2p_ErrAlreadyListening)) s
      else
        let '(started, s') := startWorkLocked (with_Listener s (Some ln)) in
        if negb started then goto (Returned (Err p2p_ErrTransportClosed)) (with_Listener s' None) else goto LGo s'
  | LGo, _ => goto_go (Returned (Ok tt)) ALoop s
  | _, _ => None
  end.

Definition step_accept (p : pc) (e : event) (s : shared) : outcome_of :=
  match p, e with
  | ALoop, _ => if bool_decide (is_Some (s_Listener s)) then goto AAccept s else goto AFinish s
  | AAccept, EvConn (Err _) => goto AFinish (Add AcceptErrors 1 s)
  | AAccept, EvConn (Ok (remote, stream)) =>
      let '(tp, s') := new_peer (NewTCPPeer remote stream false) s in goto (AAdmit tp) s'
  | AAdmit tp, _ =>
      let '(admitted, s') := if is_open s then startWorkLocked s else (false, s) in
      if admitted then goto (AGo tp) (with_connections s' ({[tp]} ∪ s_connections s'))
      else goto ALoop (peer_Close tp s')
  | AGo tp, _ => goto_go ALoop (HTLS tp) s
  | AFinish, _ => goto (Returned (Ok tt)) (finishWork s)
  | _, _ => None
  end.

Definition step_inbound (p : pc) (e : event) (s : shared) : outcome_of :=
  match p, e with
  | HTLS tp, EvTLS r =>
      if TLSServerConfig c then
        match r with
        | Err _ => goto (HRemove tp) (peer_Close tp (Add TLSHandshakeFailures 1 s))
        | Ok _ => goto (HAuth tp) (Add TLSHandshakeSuccess 1 s)
        end
      else goto (HAuth tp) s
  | HAuth tp, EvAuth out =>
      let '(r, s') := authenticate (authenticateInbound c) tp out s in
      match r with
      | Err _ => goto (HRemove tp) (peer_Close tp (Add PeerAuthFailures 1 s'))
      | Ok _ => goto (HHandle tp) s'
      end
  | HHandle tp, _ =>
      let '(r, s') := handlePeer c tp s in
      match r with
      | Some _ => goto (HRemove tp) (peer_Close tp s')
      | None => goto (HServe tp) s'
      end
  | HServe tp, _ => goto_go HFinish (SLoop tp) (Add InboundAccepts 1 s)
  | HRemove tp, _ => goto HFinish (removeConnection tp s)
  | HFinish, _ => goto (Returned (Ok tt)) (finishWork s)
  | _, _ => None
  end.

Definition step_dial (p : pc) (e : event) (s : shared) : outcome_of :=
  match p, e with
  | DStart addr, _ =>
      match validatePeerAuthConfig c with
      | Err err => goto (Returned (Err err)) s
      | Ok _ =>
          let '(started, s') := beginWork s in
          if negb started then goto (Returned (Err p2p_ErrTransportClosed)) s' else goto (DConnect addr) s'
      end
  | DConnect addr, EvConn r =>
      let s := Add DialAttempts 1 s in
      match r with
      | Err err => goto (DFinish (Err (if is_open s then err else p2p_ErrTransportClosed))) (Add DialErrors 1 s)
      | Ok (remote, stream) =>
          let '(tp, s') := new_peer (set_dialTarget addr (NewTCPPeer remote stream true)) s in goto (DTrack tp) s'
      end
  | DTrack tp, _ =>
      let '(tracked, s') := trackConnection tp s in
      if negb tracked then goto (DFinish (Err p2p_ErrTransportClosed)) (Add DialErrors 1 (peer_Close tp s'))
      else goto (DTLS tp) s'
  | DTLS tp, EvTLS r =>
      if TLSClientConfig c then
        match r with
        | Err err => goto (DRemove tp (Err err)) (Add DialErrors 1 (Add TLSHandshakeFailures 1 (peer_Close tp s)))
        | Ok _ => goto (DAuth tp) (Add TLSHandshakeSuccess 1 s)
        end
      else goto (DAuth tp) s
  | DAuth tp, EvAuth out =>
      let '(r, s') := authenticate (authenticateOutbound c) tp out s in
      match r with
      | Err err => goto (DRemove tp (Err err)) (Add DialErrors 1 (Add PeerAuthFailures 1 (peer_Close tp s')))
      | Ok _ => goto (DHandle tp) (Add DialSuccess 1 s')
      end
  | DHandle tp, _ =>
      let '(r, s') := handlePeer c tp s in
      match r with
      | Some (Some err) => goto (DRemove tp (Err err)) (Add DialErrors 1 (peer_Close tp s'))
      | Some None => goto (DRemove tp (Ok tt)) s'
      | None => goto (DServe tp) s'
      end
  | DServe tp, _ => goto_go (DFinish (Ok tt)) (SLoop tp) s
  | DRemove tp r, _ => goto (DFinish r) (removeConnection tp s)
  | DFinish r, _ => goto (Returned r) (finishWork s)
  | _, _ => None
  end.

Definition step_serve (p : pc) (e : event) (s : shared) : outcome_of :=
  match p, e with
  | SLoop tp, _ =>
      if (FrameHandler c || (0 <? ReadIdleTimeout c)) && s_shutdown s then goto (SUnregister tp) s else goto (SRead tp) s
  | SRead tp, EvReadFails => goto (SUnregister tp) s
  | SRead tp, EvDiscard n =>
      if FrameHandler c then None else goto (SLoop tp) (alter_peer (λ p, set_reader (drop n (tp_reader p)) p) tp s)
  | SRead tp, EvGo =>
      if FrameHandler c then
        match ReadFrame (maxFrame c) (from_option tp_reader [] (s_heap s !! tp)) with
        | (Err _, rest) => goto (SUnregister tp) (alter_peer (set_reader rest) tp s)
        | (Ok payload, rest) => goto (SHandle tp payload) (Add FramesHandled 1 (alter_peer (set_reader rest) tp s))
        end
      else None
  | SHandle tp payload, EvHandler r =>
      let s := alter_peer (add_handled payload) tp s in
      match r with
      | Err _ => goto (SUnregister tp) (Add FrameHandlerErrs 1 s)
      | Ok _ => goto (SLoop tp) s
      end
  | SUnregister tp, _ => goto (SRemove tp) (unregisterPeer tp s)
  | SRemove tp, _ => goto SFinish (removeConnection tp s)
  | SFinish, _ => goto (Returned (Ok tt)) (finishWork s)
  | _, _ => None
  end.

Definition step_shutdown (p : pc) (e : event) (s : shared) : outcome_of :=
  match p, e with
  | RDrain ctx deadline, _ =>
      if negb (ctx && deadline) then goto (Returned (Err p2p_ErrDrainDeadlineRequired)) s else goto (ROnce true) s
  | RClose, _ => goto (ROnce false) s
  | ROnce drain, _ =>
      match s_once s with
      | OnceNew => goto (RBegin drain) (with_once s OnceRunning (s_closeErr s))
      | OnceRunning => None
      | OnceDone _ => goto (Returned (as_result (s_closeErr s))) s
      end
  | RBegin drain, _ => let '(l, s') := beginShutdown drain s in goto (RListener l) s'
  | RListener l, EvListenerClosed err =>
      let err := if sh_listener l then err else None in
      goto (RPending (mkShut (sh_drain l) (sh_listener l) (sh_peerCount l) (sh_pending l) (sh_active l) err)) s
  | RPending l, _ =>
      if sh_drain l then goto (RWait l) (force_close (sh_pending l) s)
      else goto (RComplete l (sh_err l)) (force_close (sh_pending l ++ sh_active l) s)
  | RWait l, _ => goto (RWaiting l (s_workDone s)) s
  | RWaiting l ch, EvGo => if chan_closed ch s then goto (RComplete l (sh_err l)) s else None
  | RWaiting l ch, EvDeadline => goto (RExpired l) (Add ShutdownDeadlineExpiries 1 s)
  | RExpired l, _ => let '(pending, active) := snapshotConnections s in goto (RForce l (pending ++ active)) s
  | RForce l peers, _ => goto (RJoin l) (force_close peers s)
  | RJoin l, _ => goto (RJoining l (s_workDone s)) s
  | RJoining l ch, EvGo =>
      if chan_closed ch s then goto (RComplete l (Some (errors_Join (sh_err l) ErrContext))) s else None
  | RJoining l ch, EvDeadline => goto (RComplete l (Some (errors_Join (sh_err l) ErrContext))) s
  | RComplete l err, _ =>
      goto (Returned (as_result err)) (with_once (completeShutdown (sh_peerCount l) s) (OnceDone (sh_drain l)) err)
  | _, _ => None
  end.

Definition step_pc (p : pc) (e : event) (s : shared) : outcome_of :=
  match p with
  | Returned _ => None
  | LStart | LCheck | LBind | LInstall _ | LGo => step_listen p e s
  | ALoop | AAccept | AAdmit _ | AGo _ | AFinish => step_accept p e s
  | HTLS _ | HAuth _ | HHandle _ | HServe _ | HRemove _ | HFinish => step_inbound p e s
  | DStart _ | DConnect _ | DTrack _ | DTLS _ | DAuth _ | DHandle _ | DServe _ | DRemove _ _ | DFinish _ => step_dial p e s
  | SLoop _ | SRead _ | SHandle _ _ | SUnregister _ | SRemove _ | SFinish => step_serve p e s
  | _ => step_shutdown p e s
  end.

(** The calls that a user of the transport can make at any time. *)
Definition is_call (p : pc) : bool :=
  match p with LStart | DStart _ | RDrain _ _ | RClose => true | _ => false end.

Definition system : Type := shared * list pc.
Inductive sstep : system → system → Prop :=
  | sstep_call s ps p : is_call p = true → sstep (s, ps) (s, ps ++ [p])
  | sstep_run s ps i p e s' p' new :
      ps !! i = Some p → step_pc p e s = Some (s', p', new) → sstep (s, ps) (s', <[i := p']> ps ++ new).
Definition reachable : system → Prop := rtc sstep (NewTCPTransport, []).
End steps.

(** [Dial] returns nil and registers nothing when the peer's address is taken or
    the peer limit is reached: the registry is as before and the connection is no
    longer tracked. *)
Lemma Dial_unregistered c tp s e : is_open s = true →
  is_Some (s_peers s !! remote_of tp s) ∨ 0 < MaxPeers c <= Z.of_nat (size (s_peers s)) →
  ∃ s1 s2 s3,
    step_dial c (DHandle tp) e s = goto (DRemove tp (Ok tt)) s1 ∧ step_dial c (DRemove tp (Ok tt)) e s1 = goto (DFinish (Ok tt)) s2 ∧
    step_dial c (DFinish (Ok tt)) e s2 = goto (Returned (Ok tt)) s3 ∧ s_peers s3 = s_peers s ∧ tp ∉ s_connections s3.
Proof.
  intros Ho Hfull.
  assert (∃ s1, handlePeer c tp s = (Some None, s1) ∧ s_peers s1 = s_peers s) as (s1 & E1 & Hp).
  { set (s0 := if peerAuthEnabled c then alter_peer (set_authMethod PeerAuthMethodSharedToken) tp s else s).
    assert (is_open s0 = true ∧ remote_of tp s0 = remote_of tp s ∧ s_peers s0 = s_peers s) as (Ho0 & Hr0 & Hp0).
    { unfold s0. destruct (peerAuthEnabled c); [|done]. split_and!; [done| |done].
      unfold remote_of, alter_peer. cbn. rewrite list_lookup_alter, decide_True by done. by destruct (s_heap s !! tp). }
    unfold handlePeer. fold s0. rewrite Ho0, Hr0, Hp0. cbn [negb]. case_bool_decide; [by eexists|].
    destruct Hfull as [|[Hm Hs]]; [done|]. rewrite (proj2 (Z.ltb_lt _ _) Hm), (proj2 (Z.leb_le _ _) Hs). by eexists. }
  exists s1, (removeConnection tp s1), (finishWork (removeConnection tp s1)).
  assert (∀ s, s_peers (finishWork s) = s_peers s ∧ s_connections (finishWork s) = s_connections s) as Hw.
  { intros s'. unfold finishWork, close_chan. repeat case_match; split; reflexivity. }
  destruct (Hw (removeConnection tp s1)) as [-> ->].
  split_and!; [by unfold step_dial; rewrite E1|done|done|done|]. cbn. set_solver.
Qed.

(** ** Both ends of a connection *)

Lemma WriteFrame_quiet p max b w :
  w_os w = [] →
  p2p_WriteFrame p max (b, w) =
    if or_default max DefaultMaxFrameBytes <? len p then (Err p2p_ErrFrameTooLarge, (b, w)) else (Ok tt, (b ++ frame p, w)).
Proof.
  intros Hw. assert (∀ d x, conn_Write d (x, w) = (Ok tt, (x ++ d, w))) as Hc.
  { intros d x. unfold conn_Write, next_outcome. cbn. by rewrite Hw. }
  unfold p2p_WriteFrame. destruct (_ <? _); [done|]. rewrite (bind_step_Ok _ _ _ _ _ (Hc _ _)), Hc.
  unfold frame. by rewrite <- !app_assoc.
Qed.

Lemma auth_frame_bound c :
  or_default (maxPeerAuthFrame c) DefaultMaxFrameBytes = maxPeerAuthFrame c ∧ maxPeerAuthFrame c <= MaxPeerAuthPayloadBytes.
Proof.
  unfold maxPeerAuthFrame, maxFrame, or_default, MaxPeerAuthPayloadBytes, DefaultMaxFrameBytes.
  change (Z.shiftl 4 10) with 4096. change (Z.shiftl 4 20) with 4194304.
  repeat case_match; bool_to_prop; lia.
Qed.

(** Reading what the other side wrote: its frame, when it is not too large. *)
Lemma ReadFrame_one c p :
  ReadFrame (maxPeerAuthFrame c) (frame p) = (Ok p, []) ∨
  maxPeerAuthFrame c < len p.
Proof.
  destruct (auth_frame_bound c) as [E Hb]. destruct (decide (maxPeerAuthFrame c < len p)); [by right|left].
  rewrite <- (app_nil_r (frame p)). apply ReadFrame_frame; rewrite E; [|lia].
  unfold MaxPeerAuthPayloadBytes in Hb. change (Z.shiftl 4 10) with 4096 in Hb. lia.
Qed.
Lemma ReadFrame_large c p :
  maxPeerAuthFrame c < len p → len p <= MaxPeerAuthPayloadBytes → ∃ e s, ReadFrame (maxPeerAuthFrame c) (frame p) = (Err e, s).
Proof.
  intros Hl Hp. destruct (auth_frame_bound c) as [E Hb]. unfold ReadFrame, frame. rewrite E.
  erewrite bind_step_Ok by by apply ReadFull_app. rewrite bool_decide_eq_true_2 by done. cbn [negb].
  erewrite bind_step_Ok by (apply ReadFull_app; apply length_be_put). cbv zeta.
  rewrite (be_get_len MaxPeerAuthPayloadBytes) by (vm_compute; congruence || exact Hp).
  rewrite (proj2 (Z.ltb_lt _ _)) by lia. eauto.
Qed.

(** What a dialling node writes, whatever it reads. *)
Definition hello (c : TransportConfig) : bytes :=
  match encodePeerAuth (PeerAuthToken c) (PeerAuthIdentity c) (PeerAuthCapabilities c) with
  | Ok p => if maxPeerAuthFrame c <? len p then [] else frame p
  | Err _ => []
  end.

Lemma outbound_quiet c a w r a' :
  peerAuthEnabled c = true → as_conn a = ([], w) → w_os w = [] → authenticateOutbound c a = (r, a') →
  as_conn a' = (hello c, w) ∧
  (r = Ok tt ↔ ∃ p ack rest id caps, hello c = frame p ∧ encodePeerAuth (PeerAuthToken c) (PeerAuthIdentity c) (PeerAuthCapabilities c) = Ok p ∧
    ReadFrame (maxPeerAuthFrame c) (tp_reader (as_peer a)) = (Ok ack, rest) ∧ validatePeerAuthAck ack = Ok (id, caps)) ∧
  (r = Ok tt → ∃ ack rest, ReadFrame (maxPeerAuthFrame c) (tp_reader (as_peer a)) = (Ok ack, rest) ∧
    validatePeerAuthAck ack = Ok (tp_authIdentity (as_peer a'), tp_authCapabilities (as_peer a'))).
Proof.
  intros He Hc Hw Hrun. unfold authenticateOutbound in Hrun. rewrite He in Hrun. cbn [negb] in Hrun. unfold hello.
  destruct (encodePeerAuth _ _ _) as [p|e] eqn:Ep.
  2:{ rewrite (bind_step_Err _ _ a e a) in Hrun by done. injection Hrun as <- <-. split; [done|]. split; [|done].
      split; [done|]. naive_solver. }
  rewrite (bind_step_Ok _ _ a p a) in Hrun by done. unfold or_auth_failed at 1 in Hrun.
  destruct (auth_frame_bound c) as [Em _].
  pose proof (WriteFrame_quiet p (maxPeerAuthFrame c) [] w Hw) as Hwr. rewrite Em in Hwr.
  unfold bind at 1, attempt, on_conn, zoom in Hrun. rewrite Hc, Hwr in Hrun.
  destruct (maxPeerAuthFrame c <? len p) eqn:El; cbn in Hrun.
  { injection Hrun as <- <-. split; [done|]. split; [|done]. split; [done|].
    intros (q & ack & rest & id & caps & Hq & _). unfold frame in Hq. done. }
  unfold bind at 1, or_auth_failed, attempt, on_reader, zoom in Hrun. cbn [as_peer as_conn as_metrics] in Hrun.
  destruct (ReadFrame _ _) as [[ack|e] rest] eqn:Er; cbn in Hrun.
  2:{ injection Hrun as <- <-. split; [done|]. split; [|done]. split; [done|]. naive_solver. }
  unfold bind, lift in Hrun. destruct (validatePeerAuthAck ack) as [[id caps]|e] eqn:Ev; cbn in Hrun; injection Hrun as <- <-.
  - split; [done|]. split; [|intros _; exists ack, rest; by split]. split; [|done]. intros _. by exists p, ack, rest, id, caps.
  - split; [done|]. split; [|done]. split; [done|]. intros (q & ack' & rest' & id & caps & _ & _ & [= <- <-] & Hv). congruence.
Qed.

(** What a listening node answers. *)
Definition answer (c : TransportConfig) (r : result (bytes * list bytes)) : result unit * bytes :=
  match r with
  | Err e => (Err e, match encodePeerAuthReject with
                     | Ok p => if maxPeerAuthFrame c <? len p then [] else frame p
                     | Err _ => [] end)
  | Ok _ => match encodePeerAuthOK (PeerAuthIdentity c) (PeerAuthCapabilities c) with
            | Err e => (Err e, [])
            | Ok ack => if maxPeerAuthFrame c <? len ack then (Err (EJoin p2p_ErrPeerAuthFailed p2p_ErrFrameTooLarge), [])
                        else (Ok tt, frame ack)
            end
  end.

Lemma inbound_quiet c b w r b' :
  peerAuthEnabled c = true → as_conn b = ([], w) → w_os w = [] → authenticateInbound c b = (r, b') →
  match ReadFrame (maxPeerAuthFrame c) (tp_reader (as_peer b)) with
  | (Err _, _) => is_Ok r = false ∧ (as_conn b').1 = []
  | (Ok payload, _) =>
      let v := validatePeerAuthPayload payload (PeerAuthToken c) (PeerAuthAllowedIdentities c) in
      (r, (as_conn b').1) = answer c v ∧ (r = Ok tt → v = Ok (tp_authIdentity (as_peer b'), tp_authCapabilities (as_peer b')))
  end.
Proof.
  intros He Hc Hw Hrun. unfold authenticateInbound in Hrun. rewrite He in Hrun. cbn [negb] in Hrun.
  unfold bind at 1, or_auth_failed, attempt, on_reader, zoom in Hrun.
  destruct (ReadFrame _ _) as [[payload|e] rest] eqn:Er; cbn in Hrun; [|injection Hrun as <- <-; by rewrite Hc].
  cbv zeta. destruct (auth_frame_bound c) as [Em _].
  assert (∀ p, p2p_WriteFrame p (maxPeerAuthFrame c) (as_conn b) =
    if maxPeerAuthFrame c <? len p then (Err p2p_ErrFrameTooLarge, ([], w)) else (Ok tt, (frame p, w))) as Hwr.
  { intros p. rewrite Hc, WriteFrame_quiet, Em by done. done. }
  destruct (validatePeerAuthPayload _ _ _) as [[id caps]|e] eqn:Ev; unfold answer.
  - unfold bind, on_peer, modify, lift, on_conn, zoom in Hrun. cbn in Hrun.
    destruct (encodePeerAuthOK _ _) as [ack|e]; [|injection Hrun as <- <-; cbn; by rewrite Hc].
    rewrite Hwr in Hrun. destruct (_ <? _); cbn in Hrun; injection Hrun as <- <-; done.
  - assert (∀ q : bool, match (if q then count PeerAuthIdentityRejections else ret tt) (mkAuthState (set_reader rest (as_peer b)) (as_conn b) (as_metrics b)) with
      (x, s) => x = Ok tt ∧ as_conn s = as_conn b end) as Hcount by by intros [].
    match type of Hrun with bind (if ?q then _ else _) _ ?s = _ => specialize (Hcount q) end.
    unfold bind at 1 in Hrun. case_match. destruct Hcount as [-> Hs]. unfold bind in Hrun.
    destruct encodePeerAuthReject as [p|e']; [|injection Hrun as <- <-; cbn; by rewrite Hs, Hc].
    unfold attempt, on_conn, zoom in Hrun. rewrite Hs, Hwr in Hrun. destruct (_ <? _); cbn in Hrun; injection Hrun as <- <-; done.
Qed.

Lemma validatePeerAuthConfig_identity c : validatePeerAuthConfig c = Ok tt → identity_ok (PeerAuthIdentity c).
Proof.
  unfold validatePeerAuthConfig. rewrite !guard_Ok, rbind_unit. intros (_ & _ & Hi & _). by apply validatePeerIdentity_Ok.
Qed.
Lemma encodePeerAuth_len token identity caps p :
  encodePeerAuth token identity caps = Ok p → len p <= MaxPeerAuthPayloadBytes.
Proof. unfold encodePeerAuth. intros (n & _ & Hp)%rbind_Ok. by apply marshalPeerAuthMessage_Ok in Hp as [_ ?]. Qed.
Lemma encodePeerAuthOK_len identity caps p : encodePeerAuthOK identity caps = Ok p → len p <= MaxPeerAuthPayloadBytes.
Proof. unfold encodePeerAuthOK. intros (n & _ & Hp)%rbind_Ok. by apply marshalPeerAuthMessage_Ok in Hp as [_ ?]. Qed.

Section both_ends.
Context (cA cB : TransportConfig) (HcA : validatePeerAuthConfig cA = Ok tt) (HcB : validatePeerAuthConfig cB = Ok tt).
Context (HA : peerAuthEnabled cA = true) (HB : peerAuthEnabled cB = true) (Hutf : utf8_ValidString (PeerAuthToken cA) = true).

Definition accepts : Prop :=
  PeerAuthToken cA = PeerAuthToken cB ∧
  (PeerAuthAllowedIdentities cB = [] ∨ PeerAuthIdentity cA ∈ PeerAuthAllowedIdentities cB).

(** What B makes of what A wrote. *)
Lemma inbound_hello b w rB b' :
  as_conn b = ([], w) → w_os w = [] → tp_reader (as_peer b) = hello cA → authenticateInbound cB b = (rB, b') →
  (rB = Ok tt ∧ accepts ∧ tp_authIdentity (as_peer b') = PeerAuthIdentity cA ∧
    tp_authCapabilities (as_peer b') = sorted_keys (PeerAuthCapabilities cA) ∧
    ∃ ack, encodePeerAuthOK (PeerAuthIdentity cB) (PeerAuthCapabilities cB) = Ok ack ∧ (as_conn b').1 = frame ack) ∨
  (is_Ok rB = false ∧ ((as_conn b').1 = [] ∨ ∃ p, encodePeerAuthReject = Ok p ∧ (as_conn b').1 = frame p) ∧
    (accepts → ∀ p ack, encodePeerAuth (PeerAuthToken cA) (PeerAuthIdentity cA) (PeerAuthCapabilities cA) = Ok p →
      encodePeerAuthOK (PeerAuthIdentity cB) (PeerAuthCapabilities cB) = Ok ack →
      len p <= maxPeerAuthFrame cA → len p <= maxPeerAuthFrame cB → maxPeerAuthFrame cB < len ack)).
Proof.
  intros Hc Hw Hr Hrun. pose proof (inbound_quiet _ _ _ _ _ HB Hc Hw Hrun) as Hq. rewrite Hr in Hq.
  pose proof (validatePeerAuthConfig_identity _ HcA) as Hid. unfold hello in Hq.
  destruct (handshake_messages (PeerAuthToken cA) (PeerAuthIdentity cA) (PeerAuthCapabilities cA) Hutf Hid) as (Hv & _ & _).
  assert (∀ m, ReadFrame m [] = (Err ErrEOF, [])) as Hnil by done.
  destruct (encodePeerAuth _ _ _) as [p|e] eqn:Ep.
  2:{ rewrite Hnil in Hq. right. destruct Hq as [? ?]. split_and!; try done. by left. }
  destruct (_ <? len p) eqn:El; bool_to_prop.
  { rewrite Hnil in Hq. right. destruct Hq as [? ?]. split_and!; try done; [by left|]. intros _ q ack [= <-] _ H1. lia. }
  destruct (ReadFrame_one cB p) as [Er|Hl].
  2:{ destruct (ReadFrame_large cB p Hl (encodePeerAuth_len _ _ _ _ Ep)) as (e & s & Er). rewrite Er in Hq.
      right. destruct Hq as [? ?]. split_and!; try done; [by left|]. intros _ q ack [= <-] _ _ H2. lia. }
  rewrite Er in Hq. cbv zeta in Hq. rewrite (Hv p _ _ eq_refl) in Hq. destruct Hq as [Ha Hok]. unfold accepts.
  destruct (decide (PeerAuthToken cA = PeerAuthToken cB)) as [Et|Et].
  2:{ right. cbn in Ha. destruct encodePeerAuthReject as [rj|e']; [destruct (_ <? _)|]; injection Ha as -> ->; split_and!; eauto; naive_solver. }
  destruct (decide (_ ∨ _)) as [Eal|Eal].
  2:{ right. cbn in Ha. destruct encodePeerAuthReject as [rj|e']; [destruct (_ <? _)|]; injection Ha as -> ->; split_and!; eauto; naive_solver. }
  cbn in Ha. destruct (encodePeerAuthOK _ _) as [ack|e] eqn:Ek.
  2:{ injection Ha as -> ->. right. split_and!; eauto. done. }
  destruct (_ <? len ack) eqn:Ela; injection Ha as -> ->; bool_to_prop.
  - right. split_and!; eauto. intros _ q k _ [= <-]. lia.
  - left. specialize (Hok eq_refl). injection Hok as <- <-. split_and!; eauto.
Qed.

(** C22: the two ends of a connection authenticate each other.  A node that
    dials and a node that listens, both with valid settings and a token set, the
    dialler's token valid UTF-8, each reading what the other wrote over a
    connection on which no write fails: the listener succeeds only when the tokens
    are equal and its allowlist (if any) has the dialler's identity, and then it
    knows the dialler's identity and capabilities; the dialler succeeds only when
    the listener did, and then it knows the listener's; and both succeed when token
    and allowlist match and the messages fit their frame limits.  For a token that
    is not valid UTF-8 see [invalid_token_mangled]. *)
Theorem mutual_authentication a b wA wB rA a' rB b' :
  as_conn a = ([], wA) → w_os wA = [] → as_conn b = ([], wB) → w_os wB = [] →
  authenticateOutbound cA a = (rA, a') → authenticateInbound cB b = (rB, b') →
  tp_reader (as_peer a) = (as_conn b').1 → tp_reader (as_peer b) = (as_conn a').1 →
  (rB = Ok tt → accepts ∧ tp_authIdentity (as_peer b') = PeerAuthIdentity cA ∧
    tp_authCapabilities (as_peer b') = sorted_keys (PeerAuthCapabilities cA)) ∧
  (rA = Ok tt → rB = Ok tt ∧ tp_authIdentity (as_peer a') = PeerAuthIdentity cB ∧
    tp_authCapabilities (as_peer a') = sorted_keys (PeerAuthCapabilities cB)) ∧
  (∀ p ack, accepts → encodePeerAuth (PeerAuthToken cA) (PeerAuthIdentity cA) (PeerAuthCapabilities cA) = Ok p →
    encodePeerAuthOK (PeerAuthIdentity cB) (PeerAuthCapabilities cB) = Ok ack →
    Z.max (len p) (len ack) <= Z.min (maxPeerAuthFrame cA) (maxPeerAuthFrame cB) → rA = Ok tt ∧ rB = Ok tt).
Proof.
  intros Ha HwA Hb HwB HrunA HrunB HrA HrB.
  destruct (outbound_quiet _ _ _ _ _ HA Ha HwA HrunA) as (Hout & HokA & HidA). rewrite Hout in HrB. cbn in HrB.
  pose proof (validatePeerAuthConfig_identity _ HcB) as HidB.
  destruct (handshake_messages (PeerAuthToken cA) (PeerAuthIdentity cB) (PeerAuthCapabilities cB) Hutf HidB) as (_ & Hack & Hrej).
  destruct (inbound_hello _ _ _ _ Hb HwB HrB HrunB) as [(-> & Hacc & Hi & Hcaps & ack & Hk & Hfr)|(Hno & Hfr & Hfit)].
  - split; [done|]. split.
    + intros ->. split; [done|]. destruct (HidA eq_refl) as (x & rest & Hx & Hv). rewrite HrA, Hfr in Hx.
      destruct (ReadFrame_one cA ack) as [E|Hl].
      * rewrite E in Hx. injection Hx as <- <-. rewrite (Hack _ Hk) in Hv. by injection Hv as <- <-.
      * destruct (ReadFrame_large cA ack Hl (encodePeerAuthOK_len _ _ _ Hk)) as (e & s & E). congruence.
    + intros p ack' _ Hp Hk' Hlen. split; [|done]. apply HokA. rewrite Hk in Hk'. injection Hk' as <-.
      exists p, ack, [], (PeerAuthIdentity cB), (sorted_keys (PeerAuthCapabilities cB)).
      split_and!; [|done| |by apply Hack].
      * unfold hello. rewrite Hp. rewrite (proj2 (Z.ltb_ge _ _)) by lia. done.
      * rewrite HrA, Hfr. destruct (ReadFrame_one cA ack); [done|lia].
  - split; [intros ->; done|]. split.
    + intros ->. exfalso. destruct (HidA eq_refl) as (x & rest & Hx & Hv). rewrite HrA in Hx.
      destruct Hfr as [Hfr|(rj & Hj & Hfr)]; rewrite Hfr in Hx; [done|].
      destruct (ReadFrame_one cA rj) as [E|Hl]; [rewrite E in Hx; injection Hx as <- <-; rewrite (Hrej _ Hj) in Hv; done|].
      assert (len rj <= MaxPeerAuthPayloadBytes) as Hb4 by (unfold encodePeerAuthReject in Hj; by apply marshalPeerAuthMessage_Ok in Hj as [_ ?]).
      destruct (ReadFrame_large cA rj Hl Hb4) as (e & s & E). congruence.
    + intros p ack Hacc Hp Hk Hlen. exfalso. specialize (Hfit Hacc p ack Hp Hk). lia.
Qed.
End both_ends.

#[local] Abbreviation ex_A := (mkTransportConfig (lit "0:1") true 0 0 0 (lit "secret") (lit "node-a") [] [CapabilityLifecycleV1] false false).
#[local] Abbreviation ex_B := (mkTransportConfig (lit "0:2") true 0 0 0 (lit "secret") (lit "node-b") [lit "node-a"] [] false false).
#[local] Abbreviation ex_auth stream out := (mkAuthState (NewTCPPeer (lit "1:9") stream out) ([], ex_world []) NewTransportMetrics).
#[local] Abbreviation ex_inbound := (authenticateInbound ex_B (ex_auth (hello ex_A) false)).
#[local] Abbreviation ex_outbound := (authenticateOutbound ex_A (ex_auth (as_conn ex_inbound.2).1 true)).

Lemma mutual_authentication_witness :
  ex_outbound.1 = Ok tt ∧ ex_inbound.1 = Ok tt ∧
  tp_authIdentity (as_peer ex_outbound.2) = lit "node-b" ∧ tp_authIdentity (as_peer ex_inbound.2) = lit "node-a".
Proof.
  destruct (mutual_authentication ex_A ex_B ltac:(vm_compute; reflexivity) ltac:(vm_compute; reflexivity) eq_refl eq_refl
    ltac:(vm_compute; reflexivity) (ex_auth (as_conn ex_inbound.2).1 true) (ex_auth (hello ex_A) false) (ex_world []) (ex_world [])
    (Ok tt) ex_outbound.2 (Ok tt) ex_inbound.2) as (H1 & H2 & _).
  - reflexivity.
  - reflexivity.
  - reflexivity.
  - reflexivity.
  - apply run_eq. vm_compute. reflexivity.
  - apply run_eq. vm_compute. reflexivity.
  - reflexivity.
  - vm_compute. reflexivity.
  - destruct (H1 eq_refl) as (_ & Hi & _). destruct (H2 eq_refl) as (_ & Hj & _).
    split; [vm_compute; reflexivity|]. split; [vm_compute; reflexivity|]. split; [exact Hj|exact Hi].
Defined.

(** A token that is not valid UTF-8 is sent with U+FFFD in the place of the bytes
    that are not: a listener with the same token refuses it, and one whose token is
    the replacement accepts it. *)
#[local] Abbreviation ex_raw token := (mkTransportConfig (lit "0:1") true 0 0 0 token (lit "node-a") [] [] false false).
#[local] Abbreviation ex_listener token := (authenticateInbound (ex_raw token) (ex_auth (hello (ex_raw [Zbyte 255])) false)).
Lemma invalid_token_mangled :
  (ex_listener [Zbyte 255]).1 = Err p2p_ErrPeerAuthRejected ∧ (ex_listener (map Zbyte [239; 191; 189])).1 = Ok tt.
Proof. split; vm_compute; reflexivity. Qed.
