(* ===== verification/TcpInv.v ===== *)
(** * The TCP transport: invariants of every interleaving

    What holds in every state that calls, goroutines, network and clock can
    reach together (p2p/tcp_transport.go as modelled in Tcp): the work count
    and the gauges are exact, the channel behind [workDone] is closed once and
    only when no work is left, the peer limit holds, a finished drain has joined
    everything, and no frame of an unauthenticated peer reaches the handler. *)
From S2P Require Import Prelude Go Bits Text Json Os Model Codec Journal Blobs Protocol Wire Tcp.

(** ** What a program counter owns *)

(** Units of tracked work. *)
Definition tokens (p : pc) : Z :=
  match p with
  | Returned _ | LStart | LCheck | LBind | LInstall _ | DStart _ => 0
  | LGo | ALoop | AAccept | AAdmit _ | AFinish | HTLS _ | HAuth _ | HHandle _ | HRemove _ | HFinish
  | DConnect _ | DTrack _ | DTLS _ | DAuth _ | DHandle _ | DRemove _ _ | DFinish _
  | SLoop _ | SRead _ | SHandle _ _ | SUnregister _ | SRemove _ | SFinish => 1
  | AGo _ | HServe _ | DServe _ => 2
  | _ => 0
  end.
(** The peer that only this goroutine works on. *)
Definition owned (p : pc) : option nat :=
  match p with
  | AAdmit tp | AGo tp | HTLS tp | HAuth tp | HHandle tp | HServe tp | HRemove tp
  | DTrack tp | DTLS tp | DAuth tp | DHandle tp | DServe tp | DRemove tp _
  | SLoop tp | SRead tp | SHandle tp _ | SUnregister tp | SRemove tp => Some tp
  | _ => None
  end.
(** The connection it has to remove. *)
Definition tracked (p : pc) : option nat :=
  match p with AAdmit _ | DTrack _ => None | _ => owned p end.
(** The peer it has to unregister. *)
Definition registered (p : pc) : option nat :=
  match p with
  | HServe tp | DServe tp | SLoop tp | SRead tp | SHandle tp _ | SUnregister tp => Some tp
  | _ => None
  end.

Definition work (ps : list pc) : Z := foldr (λ p n, tokens p + n) 0 ps.

Lemma tokens_nonneg p : 0 <= tokens p.
Proof. by destruct p. Qed.
Lemma work_nonneg ps : 0 <= work ps.
Proof. induction ps as [|p ps IH]; cbn; [done|]. pose proof (tokens_nonneg p). unfold work in IH. lia. Qed.
#[export] Instance work_perm : Proper ((≡ₚ) ==> (=)) work.
Proof. intros l k Hp. unfold work. induction Hp; cbn; lia. Qed.
Lemma work_cons p ps : work (p :: ps) = tokens p + work ps.
Proof. reflexivity. Qed.
Lemma work_app l k : work (l ++ k) = work l + work k.
Proof. induction l as [|p l IH]; cbn; [done|]. unfold work in *. lia. Qed.
Lemma work_zero ps p : work ps = 0 → p ∈ ps → tokens p = 0.
Proof.
  intros Hw Hp. apply elem_of_Permutation in Hp as [k Hk]. rewrite Hk in Hw. cbn in Hw. fold (work k) in Hw.
  pose proof (tokens_nonneg p). pose proof (work_nonneg k). lia.
Qed.
Lemma owned_tokens p tp : owned p = Some tp → 0 < tokens p.
Proof. by destruct p. Qed.
Lemma no_owner ps : work ps = 0 → omap owned ps = [].
Proof.
  intros Hw. destruct (omap owned ps) as [|tp l] eqn:E; [done|]. exfalso.
  assert (tp ∈ omap owned ps) as (p & Hp & Ho)%list_elem_of_omap by (rewrite E; by left).
  apply owned_tokens in Ho. apply (work_zero ps p Hw) in Hp. lia.
Qed.

(** ** Gauges *)

Lemma int64_add x n : int64 (int64 x + n) = int64 (x + n).
Proof.
  unfold int64. replace (x + n + 2 ^ 63) with (x + 2 ^ 63 + n) by lia. rewrite <- (Zplus_mod_idemp_l (x + 2 ^ 63)).
  f_equal. f_equal. lia.
Qed.
Lemma gauge_add m n ms x : is_gauge m = true → ms m = int64 x → metric_add m n ms m = int64 (x + n).
Proof.
  intros Hg Hm. unfold metric_add, metric_store. rewrite decide_True by done. unfold metric_wrap.
  by rewrite Hg, Hm, int64_add.
Qed.
Lemma metric_add_ne m m' n ms : m ≠ m' → metric_add m n ms m' = ms m'.
Proof. intros Hm. unfold metric_add, metric_store. by rewrite decide_False. Qed.
Lemma metric_store_ne m m' v ms : m ≠ m' → metric_store m v ms m' = ms m'.
Proof. intros Hm. unfold metric_store. by rewrite decide_False. Qed.

(** ** The structural invariant *)

Section invariant.
Context (c : TransportConfig).

Record gauges_ok (s : shared) : Prop := {
  g_active : s_metrics s ActivePeers = int64 (Z.of_nat (size (s_peers s)));
  g_tracked : s_metrics s ShutdownTrackedPeers = int64 (Z.of_nat (size (s_peers s)));
  g_work : s_metrics s ShutdownTrackedGoroutines = int64 (s_workCount s);
  g_state : s_metrics s ShutdownState = state_int (s_state s)
}.

(** With [n] units of work, owned peers [O], tracked connections [T] and
    registered peers [R]. *)
Record Inv (s : shared) (n : Z) (O T R : list nat) : Prop := {
  i_work : s_workCount s = n;
  i_nonneg : 0 <= n;
  i_chan : s_chans s !! s_workDone s = Some (s_workCount s =? 0);
  i_owned : NoDup O;
  i_heap : ∀ tp, tp ∈ O ∨ tp ∈ R → (tp < length (s_heap s))%nat;
  i_conn : ∀ tp, tp ∈ s_connections s → tp ∈ T;
  i_reg : NoDup R;
  i_peers : ∀ k tp, s_peers s !! k = Some tp ↔ tp ∈ R ∧ remote_of tp s = k;
  i_max : 0 < MaxPeers c → Z.of_nat (size (s_peers s)) <= MaxPeers c;
  i_gauges : gauges_ok s;
  i_panic : s_panic s = false
}.

Lemma Inv_perm s n O O' T T' R R' : O ≡ₚ O' → T ≡ₚ T' → R ≡ₚ R' → Inv s n O T R → Inv s n O' T' R'.
Proof.
  intros HO HT HR []. split; try done.
  - by rewrite <- HO.
  - intros tp. rewrite <- HO, <- HR. auto.
  - intros tp. rewrite <- HT. auto.
  - by rewrite <- HR.
  - intros k tp. by rewrite <- HR.
Qed.

(** Counters other than the gauges do not matter. *)
Lemma Inv_Add m k s n O T R : is_gauge m = false → Inv s n O T R → Inv (Add m k s) n O T R.
Proof.
  intros Hm [? ? ? ? ? ? ? ? ? [] ?]. split; try done. split; cbn; rewrite ?metric_add_ne; try done; by destruct m.
Qed.

Definition keeps_remote (f : TCPPeer → TCPPeer) : Prop := ∀ p, tp_remote (f p) = tp_remote p.
Lemma remote_alter f tp x s : keeps_remote f → remote_of x (alter_peer f tp s) = remote_of x s.
Proof.
  intros Hf. unfold remote_of, alter_peer. cbn. destruct (decide (x = tp)) as [-> |Hx].
  - rewrite list_lookup_alter_eq. destruct (s_heap s !! tp); cbn; [apply Hf|done].
  - by rewrite list_lookup_alter_ne.
Qed.
Lemma Inv_alter f tp s n O T R : keeps_remote f → Inv s n O T R → Inv (alter_peer f tp s) n O T R.
Proof.
  intros Hf [? ? ? ? Hh ? ? Hp ? [] ?]. split; try done.
  - intros x Hx. cbn. rewrite length_alter. auto.
  - intros k x. rewrite remote_alter by done. apply Hp.
Qed.

Lemma Inv_new p s n O T R :
  Inv s n O T R → let '(tp, s') := new_peer p s in Inv s' n (tp :: O) T R.
Proof.
  intros [? ? ? HO Hh ? ? Hp ? [] ?]. cbn. split; try done.
  - apply NoDup_cons. split; [|done]. intros Hin. specialize (Hh _ (or_introl Hin)). lia.
  - intros x Hx. cbn. rewrite length_app. cbn. destruct Hx as [Hx|Hx]; [apply elem_of_cons in Hx as [-> |Hx]; [lia|]|].
    + specialize (Hh x (or_introl Hx)). lia.
    + specialize (Hh x (or_intror Hx)). lia.
  - intros k x. cbn. rewrite Hp. unfold remote_of. cbn. split; intros [Hx <-]; (split; [done|]);
      rewrite lookup_app_l by auto; done.
Qed.

(** A peer that is neither tracked nor registered may be forgotten. *)
Lemma Inv_forget tp s n O T R : Inv s n (tp :: O) T R → Inv s n O T R.
Proof.
  intros [? ? ? HO Hh ? ? ? ? ? ?]. split; try done.
  - by apply NoDup_cons in HO as [_ ?].
  - intros x [Hx|Hx]; apply Hh; [left; by right|by right].
Qed.

Lemma Inv_startWork s n O T R b s' :
  startWorkLocked s = (b, s') → Inv s n O T R →
  if b then Inv s' (n + 1) O T R ∧ s_state s' = transportStateOpen ∧ s_heap s' = s_heap s ∧ s_peers s' = s_peers s
  else s' = s ∧ s_state s ≠ transportStateOpen.
Proof.
  unfold startWorkLocked, is_open. intros Hw Hi. case_bool_decide as Eo; cbn [negb] in Hw; injection Hw as <- <-; [|done].
  destruct Hi as [<- Hn Hch ? ? ? ? ? ? [] ?].
  destruct (s_workCount s =? 0) eqn:E0; bool_to_prop; (split; [|by split_and!]); split; try done; cbn; try lia.
  - rewrite lookup_app_r by lia. rewrite Nat.sub_diag. cbn. f_equal. lia.
  - split; cbn; rewrite ?metric_add_ne by done; try done. by apply gauge_add.
  - rewrite Hch. f_equal. lia.
  - split; cbn; rewrite ?metric_add_ne by done; try done. by apply gauge_add.
Qed.

Lemma Inv_finishWork s n O T R : 0 < n → Inv s n O T R → Inv (finishWork s) (n - 1) O T R.
Proof.
  intros Hn Hi. destruct Hi as [<- _ Hch ? ? ? ? ? ? [] ?]. unfold finishWork.
  rewrite (proj2 (Z.eqb_neq _ _)) by lia. cbn [s_workCount Add with_metrics with_work].
  assert (gauges_ok (Add ShutdownTrackedGoroutines (-1) (with_work s (s_workDone s) (s_workCount s - 1)))) as Hg.
  { split; cbn; rewrite ?metric_add_ne by done; try done. by apply gauge_add. }
  destruct (s_workCount s - 1 =? 0) eqn:E1; bool_to_prop.
  - unfold close_chan. cbn. rewrite Hch. rewrite (proj2 (Z.eqb_neq _ _)) by lia.
    destruct Hg. split; try done; cbn; try lia.
    rewrite list_lookup_insert_eq by (by eapply lookup_lt_Some). f_equal. lia.
  - split; try done; cbn; try lia. rewrite Hch. f_equal. lia.
Qed.

Lemma Inv_track tp s n O T R :
  Inv s n O T R → Inv (with_connections s ({[tp]} ∪ s_connections s)) n O (tp :: T) R.
Proof. intros [? ? ? ? ? Hc ? ? ? [] ?]. split; try done. cbn. set_solver. Qed.
Lemma Inv_removeConnection tp s n O T R :
  Inv s n (tp :: O) (tp :: T) R → Inv (removeConnection tp s) n O T R.
Proof.
  intros Hi. apply Inv_forget in Hi. destruct Hi as [? ? ? ? ? Hc ? ? ? [] ?]. split; try done. cbn.
  intros x. specialize (Hc x). set_solver.
Qed.

Lemma gauge_size ms k (x : nat) m n :
  is_gauge m = true → ms m = int64 (Z.of_nat x) → Z.of_nat n = Z.of_nat x + k → metric_add m k ms m = int64 (Z.of_nat n).
Proof. intros Hg Hm ->. by apply gauge_add. Qed.

Lemma Inv_register tp s n O T R :
  tp ∈ O → s_peers s !! remote_of tp s = None →
  (0 < MaxPeers c → Z.of_nat (size (s_peers s)) < MaxPeers c) → Inv s n O T R →
  Inv (Add ShutdownTrackedPeers 1 (Add ActivePeers 1 (with_peers s (<[remote_of tp s := tp]> (s_peers s))))) n O T (tp :: R).
Proof.
  intros Ho Hk Hmax [? ? ? HO Hh ? HR Hp ? [] ?].
  assert (tp ∉ R) as Hn by (intros Hin; by rewrite (proj2 (Hp _ tp) (conj Hin eq_refl)) in Hk).
  assert (Z.of_nat (size (<[remote_of tp s := tp]> (s_peers s))) = Z.of_nat (size (s_peers s)) + 1) as Hsz.
  { rewrite map_size_insert_None by done. lia. }
  split; try done; cbn.
  - intros x [Hx|Hx]; [auto|]. apply elem_of_cons in Hx as [-> |Hx]; auto.
  - by apply NoDup_cons.
  - intros k x. change (remote_of x _) with (remote_of x s). rewrite lookup_insert_Some, Hp, elem_of_cons.
    split; [naive_solver|]. intros [[-> |Hx] <-]; [by left|right].
    split; [|done]. intros E. rewrite E in Hk. by rewrite (proj2 (Hp _ x) (conj Hx eq_refl)) in Hk.
  - intros Hm. rewrite Hsz. specialize (Hmax Hm). lia.
  - split; cbn [s_metrics s_peers s_workCount s_state Add with_metrics with_peers]; rewrite ?metric_add_ne by done; try done.
    + by eapply gauge_size.
    + eapply gauge_size; [done| |done]. by rewrite metric_add_ne.
Qed.

Lemma Inv_unregister tp s n O T R : Inv s n O T (tp :: R) → Inv (unregisterPeer tp s) n O T R.
Proof.
  intros [? ? ? HO Hh ? HR Hp ? [] ?]. unfold unregisterPeer.
  assert (s_peers s !! remote_of tp s = Some tp) as Hk by (apply Hp; split; [by left|done]).
  apply NoDup_cons in HR as [Hn HR]. rewrite bool_decide_eq_true_2 by eauto.
  assert (Z.of_nat (size (delete (remote_of tp s) (s_peers s))) = Z.of_nat (size (s_peers s)) + -1) as Hsz.
  { rewrite map_size_delete_Some by eauto. pose proof (map_size_ne_0_lookup_2 _ _ (ex_intro _ _ Hk)). lia. }
  split; try done; cbn.
  - intros x [Hx|Hx]; apply Hh; [by left|right; by right].
  - intros k x. change (remote_of x _) with (remote_of x s). rewrite lookup_delete_Some, Hp, elem_of_cons. split.
    + intros (Hne & [-> |Hx] & <-); [done|by split].
    + intros [Hx <-]. split_and!; [|by right|done]. intros E.
      assert (s_peers s !! remote_of x s = Some x) as Hk2 by (apply Hp; split; [by right|done]).
      rewrite <- E, Hk in Hk2. by injection Hk2 as ->.
  - lia.
  - split; cbn [s_metrics s_peers s_workCount s_state Add with_metrics with_peers]; rewrite ?metric_add_ne by done; try done.
    + by eapply gauge_size.
    + eapply gauge_size; [done| |done]. by rewrite metric_add_ne.
Qed.

(** ** Shutdown *)

Definition conn_closed (s : shared) (tp : nat) : Prop := ∃ p, s_heap s !! tp = Some p ∧ tp_closed p = true.
Definition all_closed (s : shared) : Prop := ∀ tp, tp ∈ s_connections s → conn_closed s tp.

(** What cannot be undone: a transport that is not open starts no work and
    tracks no connection; a closed connection stays closed. *)
Record later (s s' : shared) : Prop := {
  lt_state : s_state s ≠ transportStateOpen → s_state s' ≠ transportStateOpen;
  lt_work : s_state s ≠ transportStateOpen → s_workDone s' = s_workDone s ∧ (s_workCount s = 0 → s_workCount s' = 0);
  lt_conn : s_state s ≠ transportStateOpen → ∀ tp, tp ∈ s_connections s' → tp ∈ s_connections s;
  lt_closed : ∀ tp, conn_closed s tp → conn_closed s' tp
}.
#[export] Instance later_preorder : PreOrder later.
Proof.
  split; [by split|]. intros s1 s2 s3 [A1 A2 A3 A4] [B1 B2 B3 B4]. split; try by auto.
  - intros H. destruct (A2 H) as [Ea Wa], (B2 (A1 H)) as [Eb Wb]. split; [congruence|auto].
Qed.

(** What a call of [Drain] or [Close] knows at each point. *)
Definition shut_ok (s : shared) (p : pc) : Prop :=
  match p with
  | RListener l | RPending l =>
      s_state s ≠ transportStateOpen ∧ ∀ tp, tp ∈ s_connections s → tp ∈ sh_pending l ++ sh_active l
  | RWait l => s_state s ≠ transportStateOpen ∧ sh_drain l = true
  | RExpired l => s_state s ≠ transportStateOpen ∧ sh_drain l = true
  | RWaiting l ch => s_state s ≠ transportStateOpen ∧ sh_drain l = true ∧ ch = s_workDone s
  | RForce l peers => s_state s ≠ transportStateOpen ∧ sh_drain l = true ∧ ∀ tp, tp ∈ s_connections s → tp ∈ peers
  | RJoin l | RJoining l _ => s_state s ≠ transportStateOpen ∧ sh_drain l = true ∧ all_closed s
  | RComplete l err =>
      s_state s ≠ transportStateOpen ∧ all_closed s ∧ (sh_drain l = true → err = None → s_workCount s = 0)
  | _ => True
  end.
Definition once_ok (s : shared) : Prop :=
  match s_once s with
  | OnceDone drained =>
      s_state s ≠ transportStateOpen ∧ all_closed s ∧ (drained = true → s_closeErr s = None → s_workCount s = 0)
  | _ => True
  end.
Definition listener_ok (s : shared) : Prop := s_state s ≠ transportStateOpen → s_Listener s = None.

Lemma all_closed_later s s' : later s s' → s_state s ≠ transportStateOpen → all_closed s → all_closed s'.
Proof. intros [_ _ Hc Hd] Hs H tp Htp. apply Hd, H. by apply Hc. Qed.

Lemma shut_ok_later s s' p : later s s' → shut_ok s p → shut_ok s' p.
Proof.
  intros Hl. pose proof (all_closed_later s s' Hl) as Ha. destruct Hl as [L1 L2 L3 L4].
  destruct p; cbn; try done.
  - intros [Hs H]. split; [auto|]. intros tp Htp. apply H. by apply (L3 Hs).
  - intros [Hs H]. split; [auto|]. intros tp Htp. apply H. by apply (L3 Hs).
  - intros [Hs H]. auto.
  - intros (Hs & Hd & ->). destruct (L2 Hs) as [-> _]. auto.
  - intros [Hs H]. auto.
  - intros (Hs & Hd & H). by split_and!; auto.
  - intros (Hs & Hd & H). auto.
  - intros (Hs & Hd & H). auto.
  - intros (Hs & Hd & H). split_and!; auto. intros E1 E2. apply (L2 Hs). auto.
Qed.
Lemma once_ok_later s s' :
  later s s' → s_once s' = s_once s → s_closeErr s' = s_closeErr s → once_ok s → once_ok s'.
Proof.
  intros Hl Ho He. unfold once_ok. rewrite Ho, He. destruct (s_once s) as [| |d]; try done.
  intros (Hs & Hc & Hw). split_and!; [by apply Hl|by eapply all_closed_later|]. intros E1 E2. apply Hl; auto.
Qed.

(** The operations. *)
Lemma later_metrics s ms : later s (with_metrics s ms).
Proof. by split. Qed.
Lemma later_Add m n s : later s (Add m n s).
Proof. by split. Qed.
Lemma later_once s o e : later s (with_once s o e).
Proof. by split. Qed.
Lemma later_alter f tp s : (∀ p, tp_closed p = true → tp_closed (f p) = true) → later s (alter_peer f tp s).
Proof.
  intros Hf. split; try done. intros x (p & Hp & Hc). unfold conn_closed. cbn. destruct (decide (x = tp)) as [-> |Hx].
  - rewrite list_lookup_alter_eq, Hp. cbn. eauto.
  - rewrite list_lookup_alter_ne by done. eauto.
Qed.
Lemma later_new p s : later s (new_peer p s).2.
Proof.
  split; try done. intros x (q & Hq & Hc). exists q. split; [|done]. cbn. rewrite lookup_app_l; [done|].
  by eapply lookup_lt_Some.
Qed.
Lemma later_remove tp s : later s (removeConnection tp s).
Proof. split; try done. cbn. set_solver. Qed.
Lemma later_unregister tp s : later s (unregisterPeer tp s).
Proof. unfold unregisterPeer. case_bool_decide; by split. Qed.
Lemma later_start s : later s (startWorkLocked s).2.
Proof.
  unfold startWorkLocked, is_open. case_bool_decide; cbn [negb snd]; [|done].
  destruct (_ =? _); split; try done; cbn; done.
Qed.
Lemma later_finish s : later s (finishWork s).
Proof.
  unfold finishWork. destruct (s_workCount s =? 0) eqn:E0; [done|]. bool_to_prop.
  cbn [s_workCount Add with_metrics with_work]. destruct (_ =? 0) eqn:E1.
  - unfold close_chan. case_match; [case_match|]; split; try done; cbn; intros; split; try done; lia.
  - split; try done; cbn; intros; split; try done; lia.
Qed.
Lemma later_track tp s : s_state s = transportStateOpen → later s (with_connections s ({[tp]} ∪ s_connections s)).
Proof. intros Hs. by split. Qed.
Lemma later_Close tp s : later s (peer_Close tp s).
Proof. by apply later_alter. Qed.
Lemma later_closeConnections ps s : later s (closeConnections ps s).
Proof.
  unfold closeConnections. revert s. induction ps as [|tp ps IH]; intros s; cbn; [done|].
  transitivity (peer_Close tp s); [apply later_Close|apply IH].
Qed.
Lemma later_force ps s : later s (force_close ps s).
Proof.
  unfold force_close. transitivity (closeConnections ps s); [apply later_closeConnections|].
  destruct (_ <? _); [apply later_Add|done].
Qed.
Lemma later_handle tp s : later s (handlePeer c tp s).2.
Proof.
  unfold handlePeer. set (s1 := if peerAuthEnabled c then _ else s).
  transitivity s1; [unfold s1; case_match; [by apply later_alter|done]|].
  destruct (is_open s1); cbn [negb]; [|done]. case_bool_decide; [apply later_Close|].
  case_match; [transitivity (Add PeersRejected 1 s1); [apply later_Add|apply later_Close]|].
  pose proof (later_start s1) as Hl. destruct (startWorkLocked s1) as [b s2]. cbn in Hl. destruct b; cbn; [|done].
  etransitivity; [exact Hl|]. by split.
Qed.
Lemma later_begin d s : later s (beginShutdown d s).2.
Proof. by split. Qed.
Lemma later_complete n s : later s (completeShutdown n s).
Proof. unfold completeShutdown. case_match; by split. Qed.

(** ** Admission *)

(** [ps] are the next frames of a stream. *)
Fixpoint reads (max : Z) (from : bytes) (ps : list bytes) (to : bytes) : Prop :=
  match ps with
  | [] => from = to
  | p :: ps' => ∃ s, ReadFrame max from = (Ok p, s) ∧ reads max s ps' to
  end.
Lemma reads_snoc max from ps mid p to :
  reads max from ps mid → ReadFrame max mid = (Ok p, to) → reads max from (ps ++ [p]) to.
Proof.
  revert from. induction ps as [|q ps IH]; intros from; cbn; [intros ->; eauto|].
  intros (s & Hq & Hr) Hp. exists s. split; [done|]. by apply IH.
Qed.

(** The peer has proved, with the first frame of its stream, the identity and
    capabilities it is registered with; [rest] is the stream behind that frame.
    Without a token nothing is asked. *)
Definition admitted (p : TCPPeer) (rest : bytes) : Prop :=
  if peerAuthEnabled c then
    ∃ payload, ReadFrame (maxPeerAuthFrame c) (tp_stream p) = (Ok payload, rest) ∧
      (if tp_outbound p then validatePeerAuthAck payload
       else validatePeerAuthPayload payload (PeerAuthToken c) (PeerAuthAllowedIdentities c)) =
      Ok (tp_authIdentity p, tp_authCapabilities p)
  else rest = tp_stream p.
Definition handled_ok (p : TCPPeer) : Prop :=
  tp_handled p = [] ∨ ∃ rest to, admitted p rest ∧ reads (maxFrame c) rest (tp_handled p) to.

Definition fresh_peer (outbound : bool) (p : TCPPeer) : Prop :=
  tp_outbound p = outbound ∧ tp_reader p = tp_stream p ∧ tp_handled p = [].
Definition admitted_peer (p : TCPPeer) : Prop := admitted p (tp_reader p) ∧ tp_handled p = [].
Definition served (p : TCPPeer) (handled : list bytes) : Prop :=
  ∃ rest, admitted p rest ∧ reads (maxFrame c) rest handled (tp_reader p).

(** What a goroutine knows of the peer it works on. *)
Definition stage (q : pc) (p : TCPPeer) : Prop :=
  match q with
  | AAdmit _ | AGo _ | HTLS _ | HAuth _ => fresh_peer false p
  | DTrack _ | DTLS _ | DAuth _ => fresh_peer true p
  | HHandle _ | HServe _ | DHandle _ | DServe _ => admitted_peer p
  | SLoop _ | SRead _ => FrameHandler c = true → served p (tp_handled p)
  | SHandle _ payload => served p (tp_handled p ++ [payload])
  | _ => True
  end.
Definition stage_ok (s : shared) (q : pc) : Prop :=
  ∀ tp, owned q = Some tp → ∃ p, s_heap s !! tp = Some p ∧ stage q p.
Definition heap_ok (s : shared) : Prop := Forall handled_ok (s_heap s).

Record io_same (p p' : TCPPeer) : Prop := {
  io_outbound : tp_outbound p' = tp_outbound p;
  io_identity : tp_authIdentity p' = tp_authIdentity p;
  io_capabilities : tp_authCapabilities p' = tp_authCapabilities p;
  io_reader : tp_reader p' = tp_reader p;
  io_stream : tp_stream p' = tp_stream p;
  io_handled : tp_handled p' = tp_handled p
}.
#[export] Instance io_same_preorder : PreOrder io_same.
Proof. split; [by split|]. intros x y z [] []. split; congruence. Qed.
Lemma admitted_same p p' rest : io_same p p' → admitted p rest → admitted p' rest.
Proof. intros []. unfold admitted. by rewrite io_outbound0, io_identity0, io_capabilities0, io_stream0. Qed.
Lemma handled_same p p' : io_same p p' → handled_ok p → handled_ok p'.
Proof.
  intros Hs. unfold handled_ok. rewrite (io_handled _ _ Hs). intros [?|(r & t & Ha & Hr)]; [by left|right].
  exists r, t. split; [by eapply admitted_same|done].
Qed.
Lemma stage_same q p p' : io_same p p' → stage q p → stage q p'.
Proof.
  intros Hs. assert (∀ h, served p h → served p' h) as Hv.
  { intros h (r & Ha & Hr). exists r. rewrite (io_reader _ _ Hs). split; [by eapply admitted_same|done]. }
  pose proof (admitted_same p p' (tp_reader p) Hs) as Ha. pose proof Hs as [].
  destruct q; cbn; try done; unfold fresh_peer, admitted_peer;
    rewrite ?io_outbound0, ?io_reader0, ?io_stream0, ?io_handled0; auto; intros []; auto.
Qed.

(** A step that changes at most counters, closed connections and bookkeeping. *)
Record calm (s s' : shared) : Prop := {
  cm_later : later s s';
  cm_io : Forall2 io_same (s_heap s) (s_heap s');
  cm_once : s_once s' = s_once s;
  cm_err : s_closeErr s' = s_closeErr s;
  cm_listener : s_Listener s' = s_Listener s;
  cm_state : s_state s' = s_state s
}.
#[export] Instance calm_preorder : PreOrder calm.
Proof.
  split.
  - intros s. by split.
  - intros s1 s2 s3 [] []. split; [by etransitivity|by etransitivity|congruence..].
Qed.
Lemma calm_same_heap s s' :
  later s s' → s_heap s' = s_heap s → s_once s' = s_once s → s_closeErr s' = s_closeErr s →
  s_Listener s' = s_Listener s → s_state s' = s_state s → calm s s'.
Proof. intros ? Hh ? ? ? ?. split; try done. rewrite Hh. apply (calm_preorder.(PreOrder_Reflexive) s). Qed.

Lemma calm_Add m n s : calm s (Add m n s).
Proof. by apply calm_same_heap; [apply later_Add|..]. Qed.
Lemma calm_alter f tp s :
  (∀ p, tp_closed p = true → tp_closed (f p) = true) → (∀ p, io_same p (f p)) → calm s (alter_peer f tp s).
Proof.
  intros Hc Hf. split; try done; [by apply later_alter|]. cbn. apply Forall2_same_length_lookup_2; [by rewrite length_alter|].
  intros i x y Hx Hy. destruct (decide (i = tp)) as [-> |Hi].
  - rewrite list_lookup_alter_eq, Hx in Hy. cbn in Hy. injection Hy as <-. apply Hf.
  - rewrite list_lookup_alter_ne, Hx in Hy by done. by injection Hy as <-.
Qed.
Lemma calm_Close tp s : calm s (peer_Close tp s).
Proof. by apply calm_alter. Qed.
Lemma calm_start s : calm s (startWorkLocked s).2.
Proof.
  apply calm_same_heap; [apply later_start|..]; unfold startWorkLocked; destruct (is_open s); cbn; try done;
    destruct (_ =? _); done.
Qed.
Lemma calm_finish s : calm s (finishWork s).
Proof.
  apply calm_same_heap; [apply later_finish|..]; unfold finishWork, close_chan; repeat case_match; done.
Qed.
Lemma calm_track tp s : s_state s = transportStateOpen → calm s (with_connections s ({[tp]} ∪ s_connections s)).
Proof. intros Hs. by apply calm_same_heap; [apply later_track|..]. Qed.
Lemma calm_remove tp s : calm s (removeConnection tp s).
Proof. by apply calm_same_heap; [apply later_remove|..]. Qed.
Lemma calm_unregister tp s : calm s (unregisterPeer tp s).
Proof. apply calm_same_heap; [apply later_unregister|..]; unfold unregisterPeer; by case_bool_decide. Qed.
Lemma calm_force ps s : calm s (force_close ps s).
Proof.
  unfold force_close, closeConnections. etransitivity; [|case_match; [apply calm_Add|done]].
  revert s. induction ps as [|tp ps IH]; intros s; cbn; [done|]. etransitivity; [apply calm_Close|apply IH].
Qed.
Lemma calm_handle tp s : calm s (handlePeer c tp s).2.
Proof.
  unfold handlePeer. set (s1 := if peerAuthEnabled c then _ else s).
  transitivity s1; [unfold s1; case_match; [by apply calm_alter|done]|].
  destruct (is_open s1); cbn [negb]; [|done]. case_bool_decide; [apply calm_Close|].
  case_match; [etransitivity; [apply calm_Add|apply calm_Close]|].
  pose proof (calm_start s1) as Hl. destruct (startWorkLocked s1) as [b s2]. cbn in Hl. destruct b; cbn; [|done].
  etransitivity; [exact Hl|]. by apply calm_same_heap.
Qed.
#[local] Hint Resolve calm_Add calm_Close calm_start calm_finish calm_remove calm_unregister calm_force calm_handle : calm.

(** *** Authentication keeps the rest of the peer and the gauges *)

Record auth_rel (a a' : authState) : Prop := {
  ar_remote : tp_remote (as_peer a') = tp_remote (as_peer a);
  ar_closed : tp_closed (as_peer a') = tp_closed (as_peer a);
  ar_outbound : tp_outbound (as_peer a') = tp_outbound (as_peer a);
  ar_stream : tp_stream (as_peer a') = tp_stream (as_peer a);
  ar_handled : tp_handled (as_peer a') = tp_handled (as_peer a);
  ar_gauges : ∀ m, is_gauge m = true → as_metrics a' m = as_metrics a m
}.
#[export] Instance auth_rel_preorder : PreOrder auth_rel.
Proof.
  split; [by split|]. intros x y z [] []. split; try congruence. intros m Hm. rewrite ar_gauges1 by done. auto.
Qed.
Definition auth_frame {A} (m : M authState A) : Prop := ∀ a, auth_rel a (m a).2.
Lemma auth_frame_bind {A B} (m : M authState A) (k : A → M authState B) :
  auth_frame m → (∀ x, auth_frame (k x)) → auth_frame (bind m k).
Proof.
  intros Hm Hk a. specialize (Hm a). unfold bind. destruct (m a) as [[x|e] a1]; cbn in *; [|done].
  etransitivity; [exact Hm|apply Hk].
Qed.
Lemma auth_frame_attempt {A B} (m : M authState A) (k : result A → M authState B) :
  auth_frame m → (∀ x, auth_frame (k x)) → auth_frame (attempt m k).
Proof.
  intros Hm Hk a. specialize (Hm a). unfold attempt. destruct (m a) as [x a1]. etransitivity; [exact Hm|apply Hk].
Qed.
Lemma auth_frame_pure {A} (r : result A) : auth_frame (lift r).
Proof. by intros a. Qed.
Lemma auth_frame_reader {A} (m : M bytes A) : auth_frame (on_reader m).
Proof. intros a. unfold on_reader, zoom. destruct (m _). by split. Qed.
Lemma auth_frame_conn {A} (m : M (bytes * world) A) : auth_frame (on_conn m).
Proof. intros a. unfold on_conn, zoom. destruct (m _). by split. Qed.
Lemma auth_frame_count m : is_gauge m = false → auth_frame (count m).
Proof. intros Hm a. split; try done. cbn. intros m' Hm'. apply metric_add_ne. congruence. Qed.
Lemma auth_frame_set i cs : auth_frame (on_peer (set_auth i cs)).
Proof. by intros a. Qed.
Lemma auth_frame_failed {A} (m : M authState A) : auth_frame m → auth_frame (or_auth_failed m).
Proof. intros Hm. apply auth_frame_attempt; [done|]. by intros [x|e] a. Qed.
#[local] Hint Resolve auth_frame_bind auth_frame_attempt auth_frame_pure auth_frame_reader auth_frame_conn auth_frame_set
  auth_frame_failed : auth.

Ltac auth_frames :=
  repeat match goal with
  | |- auth_frame (bind _ _) => apply auth_frame_bind; [|intros ?]
  | |- auth_frame (attempt _ _) => apply auth_frame_attempt; [|intros ?]
  | |- auth_frame (count _) => by apply auth_frame_count
  | |- auth_frame (match ?x with _ => _ end) => destruct x
  | |- auth_frame _ => first [by auto with auth | by intros ?]
  end.
Lemma auth_frame_inbound : auth_frame (authenticateInbound c).
Proof. unfold authenticateInbound. auth_frames. Qed.
Lemma auth_frame_outbound : auth_frame (authenticateOutbound c).
Proof. unfold authenticateOutbound. auth_frames. Qed.

Lemma or_auth_failed_Ok {S A} (m : M S A) s a s' : or_auth_failed m s = (Ok a, s') → m s = (Ok a, s').
Proof. unfold or_auth_failed, attempt. by destruct (m s) as [[x|e] s1]. Qed.
Lemma on_reader_Ok {A} (m : M bytes A) s x s' :
  on_reader m s = (x, s') →
  ∃ r, m (tp_reader (as_peer s)) = (x, r) ∧ s' = mkAuthState (set_reader r (as_peer s)) (as_conn s) (as_metrics s).
Proof. unfold on_reader, zoom. destruct (m _) as [y r]. intros [= -> <-]. eauto. Qed.
Lemma on_conn_peer {A} (m : M (bytes * world) A) s x s' : on_conn m s = (x, s') → as_peer s' = as_peer s.
Proof. unfold on_conn, zoom. destruct (m _) as [y r]. by intros [= -> <-]. Qed.

(** Successful authentication admits the peer. *)
Lemma inbound_admits a a' :
  authenticateInbound c a = (Ok tt, a') → fresh_peer false (as_peer a) → admitted_peer (as_peer a').
Proof.
  intros Ha (Ho & Hr & Hh). pose proof (auth_frame_inbound a) as Hrel. rewrite Ha in Hrel. cbn in Hrel. destruct Hrel.
  unfold authenticateInbound in Ha. unfold admitted_peer, admitted. split; [|congruence].
  destruct (peerAuthEnabled c); cbn [negb] in Ha; [|injection Ha as <-; done].
  step Ha as payload a1 E1. apply or_auth_failed_Ok, on_reader_Ok in E1 as (r & E1 & ->).
  destruct (validatePeerAuthPayload _ _ _) as [[identity capabilities]|e] eqn:Ev.
  2:{ step Ha as x a2 E2; step Ha as y a3 E3. done. }
  step Ha as [] a2 E2. injection E2 as <-. step Ha as ack a3 E3. injection E3 as _ <-.
  step Ha as [] a4 E4. apply or_auth_failed_Ok, on_conn_peer in E4. injection Ha as <-. cbn in *.
  exists payload. rewrite ar_stream0, ar_outbound0, Ho, E4, <- Hr. by split.
Qed.
Lemma outbound_admits a a' :
  authenticateOutbound c a = (Ok tt, a') → fresh_peer true (as_peer a) → admitted_peer (as_peer a').
Proof.
  intros Ha (Ho & Hr & Hh). pose proof (auth_frame_outbound a) as Hrel. rewrite Ha in Hrel. cbn in Hrel. destruct Hrel.
  unfold authenticateOutbound in Ha. unfold admitted_peer, admitted. split; [|congruence].
  destruct (peerAuthEnabled c); cbn [negb] in Ha; [|injection Ha as <-; done].
  step Ha as payload a1 E1. injection E1 as _ <-.
  step Ha as [] a2 E2. apply or_auth_failed_Ok, on_conn_peer in E2.
  step Ha as ack a3 E3. apply or_auth_failed_Ok, on_reader_Ok in E3 as (r & E3 & ->).
  step Ha as [identity capabilities] a4 E4. injection E4 as E4 <-. injection Ha as <-. cbn in *. rewrite E2 in *.
  exists ack. rewrite Ho, <- Hr. by split.
Qed.

(** ** The invariant of the system *)

Record Sys (s : shared) (ps : list pc) : Prop := {
  y_inv : Inv s (work ps) (omap owned ps) (omap tracked ps) (omap registered ps);
  y_shut : Forall (shut_ok s) ps;
  y_once : once_ok s;
  y_listener : listener_ok s;
  y_stage : Forall (stage_ok s) ps;
  y_heap : heap_ok s
}.

Lemma Sys_perm s ps ps' : ps ≡ₚ ps' → Sys s ps → Sys s ps'.
Proof.
  intros Hp []. split; try done; [|by rewrite <- Hp..].
  replace (work ps') with (work ps) by by rewrite Hp. eapply Inv_perm; [..|done]; by apply omap_Permutation.
Qed.

(** The pieces of a step: the invariant of the state for the new threads, that
    nothing is undone, that no other goroutine's peer changes. *)
Lemma Sys_step s p ps s' p' new :
  Sys s (p :: ps) →
  Inv s' (work (p' :: new ++ ps)) (omap owned (p' :: new ++ ps)) (omap tracked (p' :: new ++ ps))
    (omap registered (p' :: new ++ ps)) →
  later s s' → once_ok s' → listener_ok s' →
  (∀ tp q, tp ∈ omap owned ps → s_heap s !! tp = Some q → ∃ q', s_heap s' !! tp = Some q' ∧ io_same q q') →
  heap_ok s' → Forall (shut_ok s') (p' :: new) → Forall (stage_ok s') (p' :: new) → Sys s' (p' :: new ++ ps).
Proof.
  intros [Hi Hs Ho Hl Hg Hh] Hi' Hlt Ho' Hl' Hio Hh' Hsn Hgn. apply Forall_cons in Hs as [_ Hs], Hg as [_ Hg].
  split; try done; change (p' :: new ++ ps) with ((p' :: new) ++ ps); apply Forall_app; (split; [done|]).
  - eapply Forall_impl; [exact Hs|]. intros q. by apply shut_ok_later.
  - apply Forall_forall. intros q Hq tp Htp. rewrite Forall_forall in Hg. destruct (Hg q Hq tp Htp) as (x & Hx & Hst).
    destruct (Hio tp x) as (x' & Hx' & Hsame); [|done|].
    + apply list_elem_of_omap. eauto.
    + exists x'. split; [done|]. by eapply stage_same.
Qed.

Lemma stage_calm s s' q : calm s s' → stage_ok s q → stage_ok s' q.
Proof.
  intros Hc Hq tp Htp. destruct (Hq tp Htp) as (x & Hx & Hst).
  destruct (Forall2_lookup_l _ _ _ _ _ (cm_io _ _ Hc) Hx) as (x' & Hx' & Hsame). exists x'. split; [done|]. by eapply stage_same.
Qed.
Lemma heap_calm s s' : calm s s' → heap_ok s → heap_ok s'.
Proof.
  intros Hc Hh. unfold heap_ok in *. rewrite Forall_lookup in Hh |- *. intros i x' Hx'.
  destruct (Forall2_lookup_r _ _ _ _ _ (cm_io _ _ Hc) Hx') as (x & Hx & Hsame). eapply handled_same; eauto.
Qed.

(** A calm step. *)
Lemma Sys_calm s p ps s' p' new :
  Sys s (p :: ps) → calm s s' →
  Inv s' (work (p' :: new ++ ps)) (omap owned (p' :: new ++ ps)) (omap tracked (p' :: new ++ ps))
    (omap registered (p' :: new ++ ps)) →
  Forall (shut_ok s') (p' :: new) → Forall (stage_ok s) (p' :: new) → Sys s' (p' :: new ++ ps).
Proof.
  intros Hy Hc Hi Hs Hg. pose proof Hy as [_ _ Ho Hl _ Hh]. eapply Sys_step; [exact Hy|exact Hi|..]; try done.
  - apply Hc.
  - eapply once_ok_later; [apply Hc..|done].
  - unfold listener_ok in *. by rewrite (cm_state _ _ Hc), (cm_listener _ _ Hc).
  - intros tp q _ Hq. by apply (Forall2_lookup_l _ _ _ _ _ (cm_io _ _ Hc) Hq).
  - by eapply heap_calm.
  - eapply Forall_impl; [exact Hg|]. intros q. by apply stage_calm.
Qed.

Lemma Inv_eq s n n' O T R : n = n' → Inv s n O T R → Inv s n' O T R.
Proof. by intros ->. Qed.

Lemma Inv_listener s ln n O T R : Inv s n O T R → Inv (with_Listener s ln) n O T R.
Proof. intros [? ? ? ? ? ? ? ? ? [] ?]. by split. Qed.
Lemma Inv_once s o e n O T R : Inv s n O T R → Inv (with_once s o e) n O T R.
Proof. intros [? ? ? ? ? ? ? ? ? [] ?]. by split. Qed.

(** The weights of the threads of a step. *)
Ltac tally := cbn [app]; rewrite ?work_cons; cbn [tokens]; lia.
(** No new goroutine works on a peer, or on the one that [Hy] knows about. *)
Ltac no_peer := repeat (apply Forall_cons; split); try apply Forall_nil_2; try done.
Ltac same_state Hy :=
  apply (Sys_calm _ _ _ _ _ _ Hy); [done|eapply Inv_eq; [|exact (y_inv _ _ Hy)]; tally|no_peer|no_peer].

Lemma step_listen_ok s p ps e s' p' new :
  Sys s (p :: ps) → step_listen c p e s = Some (s', p', new) → Sys s' (p' :: new ++ ps).
Proof.
  intros Hy Hst. destruct p; try done; cbn [step_listen] in Hst.
  - repeat case_match; injection Hst as <- <- <-; same_state Hy.
  - repeat case_match; injection Hst as <- <- <-; same_state Hy.
  - repeat case_match; try done; injection Hst as <- <- <-; same_state Hy.
  - destruct (is_open s) eqn:Eo; cbn [negb] in Hst; [|injection Hst as <- <- <-; same_state Hy].
    case_bool_decide; [injection Hst as <- <- <-; same_state Hy|].
    destruct (startWorkLocked _) as [b s1] eqn:Ew. pose proof (Inv_listener s (Some ln) _ _ _ _ (y_inv _ _ Hy)) as Hi.
    pose proof (calm_start (with_Listener s (Some ln))) as Hc. rewrite Ew in Hc. cbn [snd] in Hc.
    apply (Inv_startWork _ _ _ _ _ _ _ Ew) in Hi. unfold is_open in Eo. bool_to_prop.
    destruct b; cbn [negb] in Hst; injection Hst as <- <- <-; [|by destruct Hi].
    destruct Hi as (Hi & Hopen & Hheap & _). assert (later s s1) as Hl by (transitivity (with_Listener s (Some ln)); [by split|apply Hc]).
    apply (Sys_step _ _ _ _ _ _ Hy); [eapply Inv_eq; [|exact Hi]; tally|done|..|no_peer|no_peer].
    + exact (once_ok_later _ _ Hl (cm_once _ _ Hc) (cm_err _ _ Hc) (y_once _ _ Hy)).
    + intros Hn. by rewrite Hopen in Hn.
    + intros tp q _ Hq. rewrite Hheap. by exists q.
    + unfold heap_ok. rewrite Hheap. apply Hy.
  - injection Hst as <- <- <-. same_state Hy.
Qed.

Lemma Sys_new p p' ps s x :
  Sys s (p :: ps) → owned p = None → tracked p' = None → registered p' = None → tokens p' = tokens p →
  owned p' = Some (length (s_heap s)) → stage p' x → handled_ok x → (∀ s, shut_ok s p') →
  Sys (with_heap s (s_heap s ++ [x])) (p' :: ps).
Proof.
  intros Hy Ho Ht Hr Htok Ho' Hst Hx Hs. pose proof (Inv_new x s _ _ _ _ (y_inv _ _ Hy)) as Hi. cbn [new_peer] in Hi.
  assert (tracked p = None ∧ registered p = None) as [Ht' Hr'] by (by destruct p).
  change (p' :: ps) with (p' :: [] ++ ps). apply (Sys_step _ _ _ _ _ _ Hy).
  - cbn [app omap list_omap work foldr] in Hi |- *. rewrite Ho, Ht', Hr' in Hi. rewrite Ho', Ht, Hr, Htok. exact Hi.
  - apply (later_new x s).
  - exact (once_ok_later _ _ (later_new x s) eq_refl eq_refl (y_once _ _ Hy)).
  - apply Hy.
  - intros tp q _ Hq. exists q. split; [|done]. cbn. rewrite lookup_app_l; [done|]. by eapply lookup_lt_Some.
  - unfold heap_ok. cbn. apply Forall_app. split; [apply Hy|]. by apply Forall_singleton.
  - no_peer.
  - no_peer. intros tp Htp. rewrite Ho' in Htp. injection Htp as <-. exists x. split; [|done]. cbn.
    rewrite lookup_app_r by lia. by rewrite Nat.sub_diag.
Qed.

Lemma step_accept_ok s p ps e s' p' new :
  Sys s (p :: ps) → step_accept p e s = Some (s', p', new) → Sys s' (p' :: new ++ ps).
Proof.
  intros Hy Hst. pose proof (y_inv _ _ Hy) as Hi. pose proof (proj1 (proj1 (Forall_cons _ _ _) (y_stage _ _ Hy))) as Hg.
  destruct p; try done; cbn [step_accept] in Hst.
  - case_bool_decide; injection Hst as <- <- <-; same_state Hy.
  - destruct e as [| | |[[remote stream]|err]| | | | | | |]; try done; injection Hst as <- <- <-.
    + apply (Sys_new _ _ _ _ _ Hy); try done. by left.
    + apply (Sys_calm _ _ _ _ _ _ Hy); [apply calm_Add|by apply Inv_Add|no_peer|no_peer].
  - destruct (if is_open s then _ else _) as [b s1] eqn:Ew. unfold is_open in Ew. case_bool_decide as Eo.
    2:{ injection Ew as <- <-. injection Hst as <- <- <-. apply (Sys_calm _ _ _ _ _ _ Hy); [apply calm_Close| |no_peer|no_peer].
        apply Inv_alter; [done|]. exact (Inv_forget _ _ _ _ _ _ Hi). }
    pose proof (calm_start s) as Hc. rewrite Ew in Hc. cbn [snd] in Hc. apply (Inv_startWork _ _ _ _ _ _ _ Ew) in Hi.
    destruct b; injection Hst as <- <- <-; [|by destruct Hi]. destruct Hi as (Hi & Hopen & _ & _).
    apply (Sys_calm _ _ _ _ _ _ Hy); [etransitivity; [exact Hc|by apply calm_track]| |no_peer|no_peer].
    eapply Inv_eq; [|exact (Inv_track tp _ _ _ _ _ Hi)]. tally.
  - injection Hst as <- <- <-. same_state Hy.
  - injection Hst as <- <- <-. apply (Sys_calm _ _ _ _ _ _ Hy); [apply calm_finish| |no_peer|no_peer].
    eapply Inv_eq; [|apply Inv_finishWork; [|exact Hi]]; [tally|]. pose proof (work_nonneg ps). tally.
Qed.

(** A step of a goroutine on its own peer. *)
Lemma Sys_own s p ps tp x x' ms p' :
  Sys s (p :: ps) → owned p = Some tp → s_heap s !! tp = Some x →
  tp_remote x' = tp_remote x → (tp_closed x = true → tp_closed x' = true) →
  (∀ m, is_gauge m = true → ms m = s_metrics s m) → handled_ok x' →
  tokens p' = tokens p → owned p' = Some tp → tracked p' = tracked p → registered p' = registered p →
  stage p' x' → (∀ s, shut_ok s p') →
  Sys (with_metrics (alter_peer (λ _, x') tp s) ms) (p' :: ps).
Proof.
  intros Hy Ho Hx Hrem Hcl Hms Hh Htok Ho' Ht Hr Hst Hs. set (s' := with_metrics _ _).
  assert (s_heap s' !! tp = Some x') as Hx' by (cbn; by rewrite list_lookup_alter_eq, Hx).
  assert (∀ y, y ≠ tp → s_heap s' !! y = s_heap s !! y) as Hne by (intros y Hy'; cbn; by rewrite list_lookup_alter_ne).
  assert (∀ y, remote_of y s' = remote_of y s) as Hrm.
  { intros y. unfold remote_of. destruct (decide (y = tp)) as [-> |Hy']; [by rewrite Hx', Hx|by rewrite Hne]. }
  assert (later s s') as Hl.
  { split; try done. intros y (q & Hq & Hc). destruct (decide (y = tp)) as [-> |Hy'].
    - exists x'. simplify_eq. auto.
    - exists q. by rewrite Hne. }
  change (p' :: ps) with (p' :: [] ++ ps). apply (Sys_step _ _ _ _ _ _ Hy); [| |exact (once_ok_later _ _ Hl eq_refl eq_refl (y_once _ _ Hy))|..].
  - destruct (y_inv _ _ Hy) as [? ? ? ? Hhp ? ? Hp ? [] ?]. cbn [omap list_omap app] in *.
    unfold work in *. cbn [foldr] in *. rewrite Ho', Ht, Hr, Htok. rewrite Ho in *. split; try done.
    + intros y Hin. cbn. rewrite length_alter. auto.
    + intros k y. rewrite Hrm. apply Hp.
    + split; cbn; by rewrite Hms.
  - done.
  - apply Hy.
  - intros y q Hin Hq. exists q. split; [|done]. rewrite Hne; [done|]. intros ->.
    pose proof (i_owned _ _ _ _ _ (y_inv _ _ Hy)) as Hnd. cbn in Hnd. rewrite Ho in Hnd. by apply NoDup_cons in Hnd as [? _].
  - unfold heap_ok. apply Forall_lookup. intros y q Hq. destruct (decide (y = tp)) as [-> |Hy']; [by simplify_eq|].
    rewrite Hne in Hq by done. pose proof (y_heap _ _ Hy) as Hall. unfold heap_ok in Hall. rewrite Forall_lookup in Hall. eauto.
  - no_peer.
  - no_peer. intros y Hy'. rewrite Ho' in Hy'. injection Hy' as <-. eauto.
Qed.

Lemma own_stage s p ps tp : Sys s (p :: ps) → owned p = Some tp → ∃ x, s_heap s !! tp = Some x ∧ stage p x ∧ handled_ok x.
Proof.
  intros Hy Ho. pose proof (y_stage _ _ Hy) as Hg. apply Forall_cons in Hg as [Hg _]. destruct (Hg tp Ho) as (x & Hx & Hst).
  exists x. split_and!; try done. pose proof (y_heap _ _ Hy) as Hall. unfold heap_ok in Hall. rewrite Forall_lookup in Hall. eauto.
Qed.

Lemma handled_nil x : tp_handled x = [] → handled_ok x.
Proof. by left. Qed.

(** The peer after authentication. *)
Lemma Sys_authenticate m s p ps tp out r s' q q' :
  auth_frame m → Sys s (p :: ps) → owned p = Some tp →
  (∀ x, stage p x → tp_handled x = []) →
  (∀ a a', m a = (Ok tt, a') → stage p (as_peer a) → stage q (as_peer a')) → (∀ x, stage q' x) →
  (∀ q0, q0 = q ∨ q0 = q' → tokens q0 = tokens p ∧ owned q0 = Some tp ∧ tracked q0 = tracked p ∧ registered q0 = registered p ∧ ∀ s, shut_ok s q0) →
  authenticate m tp out s = (r, s') → Sys s' ((if r then q else q') :: ps).
Proof.
  intros Hm Hy Ho Hnil Hok Herr Hq Ha. destruct (own_stage _ _ _ _ Hy Ho) as (x & Hx & Hst & _). unfold authenticate in Ha.
  rewrite Hx in Ha. pose proof (Hm (mkAuthState x ([], World None out fs_empty) (s_metrics s))) as [].
  destruct (m _) as [r1 a] eqn:Em. injection Ha as <- <-. cbn [as_peer as_metrics snd] in *.
  assert (q = q ∨ q = q') as H1 by by left. assert (q' = q ∨ q' = q') as H2 by by right.
  apply Hq in H1 as (? & ? & ? & ? & ?), H2 as (? & ? & ? & ? & ?).
  destruct r1 as [[]|e]; eapply (Sys_own _ _ _ _ x); try done; try congruence; try (apply handled_nil; rewrite ar_handled0; auto).
  by eapply Hok.
Qed.

Lemma Sys_handle s p ps tp r s' q :
  Sys s (p :: ps) → owned p = Some tp → tracked p = Some tp → registered p = None → stage_ok s q →
  owned q = Some tp → tracked q = Some tp → registered q = Some tp → tokens q = tokens p + 1 → (∀ s, shut_ok s q) →
  handlePeer c tp s = (r, s') →
  match r with Some _ => Sys s' (p :: ps) | None => Sys s' (q :: ps) end.
Proof.
  intros Hy Ho Ht Hr Hst Ho' Ht' Hr' Htok Hs Hh. pose proof (calm_handle tp s) as Hc. rewrite Hh in Hc. cbn [snd] in Hc.
  pose proof Hy as [Hi Hsh _ _ Hg _]. apply Forall_cons in Hsh as [Hsh _], Hg as [Hg _].
  unfold handlePeer in Hh. set (s1 := if peerAuthEnabled c then _ else s) in Hh.
  assert (Inv s1 (work (p :: ps)) (omap owned (p :: ps)) (omap tracked (p :: ps)) (omap registered (p :: ps))) as Hi1.
  { unfold s1. destruct (peerAuthEnabled c); [by apply Inv_alter|done]. }
  assert (∀ s2, calm s s2 → Inv s2 (work (p :: ps)) (omap owned (p :: ps)) (omap tracked (p :: ps)) (omap registered (p :: ps)) →
    Sys s2 (p :: ps)) as Hkeep.
  { intros s2 Hc2 Hi2. apply (Sys_calm _ _ _ _ _ [] Hy); try done; no_peer. by eapply shut_ok_later; [apply Hc2|]. }
  destruct (is_open s1) eqn:Eo; cbn [negb] in Hh; [|injection Hh as <- <-; auto].
  case_bool_decide as Ek; [injection Hh as <- <-; apply Hkeep; [done|by apply Inv_alter]|].
  destruct ((0 <? MaxPeers c) && _) eqn:Emax.
  { injection Hh as <- <-. apply Hkeep; [done|]. apply Inv_alter; [done|]. by apply Inv_Add. }
  destruct (startWorkLocked s1) as [b s2] eqn:Ew. apply (Inv_startWork _ _ _ _ _ _ _ Ew) in Hi1 as Hi2.
  destruct b; cbn [negb] in Hh; injection Hh as <- <-.
  2:{ destruct Hi2 as [-> _]. auto. }
  destruct Hi2 as (Hi2 & _ & Hheap & Hpeers).
  assert (remote_of tp s1 = remote_of tp s2) as Erem by (unfold remote_of; by rewrite Hheap).
  apply (Sys_calm _ _ _ _ q [] Hy); [done| |no_peer|no_peer]. rewrite Erem in *.
  apply Inv_register with (tp := tp) in Hi2.
  - cbn [omap list_omap app] in Hi2 |- *. rewrite Ho, Ht, Hr in Hi2. rewrite Ho', Ht', Hr'. eapply Inv_eq; [|exact Hi2].
    rewrite !work_cons, Htok. lia.
  - cbn. rewrite Ho. by left.
  - rewrite Hpeers. by apply eq_None_not_Some.
  - intros Hm. rewrite Hpeers. apply andb_false_iff in Emax as [Emax|Emax]; bool_to_prop; lia.
Qed.

(** Moves along which the knowledge about the own peer only weakens. *)
Lemma Sys_move s p ps s' q :
  Sys s (p :: ps) → calm s s' →
  Inv s' (work (p :: ps)) (omap owned (p :: ps)) (omap tracked (p :: ps)) (omap registered (p :: ps)) →
  tokens q = tokens p → owned q = owned p → tracked q = tracked p → registered q = registered p →
  (∀ x, stage p x → stage q x) → shut_ok s' q → Sys s' (q :: ps).
Proof.
  intros Hy Hc Hi Htok Ho Ht Hr Hst Hs. apply (Sys_calm _ _ _ _ q [] Hy); [done| |no_peer|no_peer].
  - cbn [omap list_omap app] in *. rewrite Ho, Ht, Hr. eapply Inv_eq; [|exact Hi]. rewrite !work_cons. lia.
  - pose proof (y_stage _ _ Hy) as Hg. apply Forall_cons in Hg as [Hg _]. intros tp Htp. rewrite Ho in Htp.
    destruct (Hg tp Htp) as (x & Hx & Hx'). eauto.
Qed.

(** The end of a goroutine, and of its connection. *)
Lemma Sys_finish s p ps r :
  Sys s (p :: ps) → tokens p = 1 → owned p = None → Sys (finishWork s) (Returned r :: ps).
Proof.
  intros Hy Htok Ho. assert (tracked p = None ∧ registered p = None) as [Ht Hr] by by destruct p.
  apply (Sys_calm _ _ _ _ (Returned r) [] Hy); [apply calm_finish| |no_peer|no_peer].
  pose proof (y_inv _ _ Hy) as Hi. pose proof (work_nonneg ps). rewrite work_cons, Htok in Hi.
  cbn [omap list_omap app] in *. rewrite Ho, Ht, Hr in Hi. eapply Inv_eq; [|apply Inv_finishWork; [|exact Hi]]; [tally|lia].
Qed.
Lemma Sys_remove s p ps tp q :
  Sys s (p :: ps) → owned p = Some tp → tracked p = Some tp → registered p = None → tokens q = tokens p → owned q = None →
  (∀ s, shut_ok s q) → Sys (removeConnection tp s) (q :: ps).
Proof.
  intros Hy Ho Ht Hr Htok Ho' Hs. assert (tracked q = None ∧ registered q = None) as [Ht' Hr'] by by destruct q.
  apply (Sys_calm _ _ _ _ q [] Hy); [apply calm_remove| |no_peer|no_peer].
  - pose proof (y_inv _ _ Hy) as Hi. cbn [omap list_omap app] in *. rewrite Ho, Ht, Hr in Hi. rewrite Ho', Ht', Hr'.
    eapply Inv_eq; [|apply Inv_removeConnection; exact Hi]. rewrite !work_cons. lia.
  - intros x Hx. congruence.
Qed.

Lemma Sys_Add m n s p ps : is_gauge m = false → Sys s (p :: ps) → Sys (Add m n s) (p :: ps).
Proof.
  intros Hm Hy. apply (Sys_move _ _ _ _ _ Hy); [apply calm_Add|apply Inv_Add; [done|apply Hy]|done..|].
  pose proof (y_shut _ _ Hy) as Hs. apply Forall_cons in Hs as [Hs _]. by eapply shut_ok_later; [apply later_Add|].
Qed.
Lemma Sys_Close tp s p ps : Sys s (p :: ps) → Sys (peer_Close tp s) (p :: ps).
Proof.
  intros Hy. apply (Sys_move _ _ _ _ _ Hy); [apply calm_Close|apply Inv_alter; [done|apply Hy]|done..|].
  pose proof (y_shut _ _ Hy) as Hs. apply Forall_cons in Hs as [Hs _]. by eapply shut_ok_later; [apply later_Close|].
Qed.
Lemma Sys_goto s p ps q :
  Sys s (p :: ps) → tokens q = tokens p → owned q = owned p → tracked q = tracked p → registered q = registered p →
  (∀ x, stage p x → stage q x) → shut_ok s q → Sys s (q :: ps).
Proof. intros Hy. apply (Sys_move _ _ _ _ _ Hy); [done|apply Hy]. Qed.

(** An admitted peer is handed to its serving goroutine. *)
Lemma Sys_serve s p ps tp q :
  Sys s (p :: ps) → owned p = Some tp → tracked p = Some tp → registered p = Some tp →
  (∀ x, stage p x → admitted_peer x) → tokens p = tokens q + 1 → owned q = None → (∀ s, shut_ok s q) →
  Sys s (q :: [SLoop tp] ++ ps).
Proof.
  intros Hy Ho Ht Hr Hst Htok Ho' Hs. assert (tracked q = None ∧ registered q = None) as [Ht' Hr'] by by destruct q.
  destruct (own_stage _ _ _ _ Hy Ho) as (x & Hx & [Had Hnil]%Hst & _).
  apply (Sys_calm _ _ _ _ _ _ Hy); [done| |no_peer|no_peer].
  - pose proof (y_inv _ _ Hy) as Hi. cbn [omap list_omap app owned tracked registered] in *. rewrite Ho, Ht, Hr in Hi.
    rewrite Ho', Ht', Hr'. eapply Inv_eq; [|exact Hi]. rewrite !work_cons, Htok. tally.
  - intros y Hy'. congruence.
  - intros y [= <-]. exists x. split; [done|]. intros _. rewrite Hnil. by exists (tp_reader x).
Qed.

Lemma step_inbound_ok s p ps e s' p' new :
  Sys s (p :: ps) → step_inbound c p e s = Some (s', p', new) → Sys s' (p' :: new ++ ps).
Proof.
  intros Hy Hst. destruct p; try done; cbn [step_inbound] in Hst.
  - destruct e as [| | | |r| | | | | |]; try done. destruct (TLSServerConfig c).
    + destruct r; injection Hst as <- <- <-; cbn [app].
      * apply Sys_Add; [done|]. by apply (Sys_goto _ _ _ _ Hy).
      * apply Sys_Close, Sys_Add; [done|]. by apply (Sys_goto _ _ _ _ Hy).
    + injection Hst as <- <- <-. by apply (Sys_goto _ _ _ _ Hy).
  - destruct e as [| | | | |out| | | | |]; try done.
    destruct (authenticate _ _ _ _) as [r s1] eqn:Ea.
    apply (Sys_authenticate _ _ _ _ _ _ _ _ (HHandle tp) (HRemove tp) auth_frame_inbound Hy eq_refl) in Ea as Hy1.
    + destruct r; injection Hst as <- <- <-; cbn [app]; [done|]. by apply Sys_Close, Sys_Add.
    + by intros x (_ & _ & ?).
    + intros a a' Ha Hf. by eapply inbound_admits.
    + done.
    + by intros q [-> | ->].
  - destruct (handlePeer c tp s) as [r s1] eqn:Eh.
    apply (Sys_handle _ _ _ _ _ _ (HServe tp) Hy) in Eh; try done.
    + destruct r; injection Hst as <- <- <-; cbn [app]; [|done]. apply Sys_Close. by apply (Sys_goto _ _ _ _ Eh).
    + pose proof (y_stage _ _ Hy) as Hg. by apply Forall_cons in Hg as [Hg _].
  - injection Hst as <- <- <-. pose proof (Sys_Add InboundAccepts 1 _ _ _ eq_refl Hy) as Hy1.
    by apply (Sys_serve _ _ _ _ _ Hy1).
  - injection Hst as <- <- <-. by apply (Sys_remove _ _ _ _ _ Hy).
  - injection Hst as <- <- <-. by apply (Sys_finish _ _ _ _ Hy).
Qed.

Lemma step_dial_ok s p ps e s' p' new :
  Sys s (p :: ps) → step_dial c p e s = Some (s', p', new) → Sys s' (p' :: new ++ ps).
Proof.
  intros Hy Hst. destruct p; try done; cbn [step_dial] in Hst.
  - destruct (validatePeerAuthConfig c); [|injection Hst as <- <- <-; same_state Hy]. unfold beginWork in Hst.
    destruct (startWorkLocked s) as [b s1] eqn:Ew. pose proof (calm_start s) as Hc. rewrite Ew in Hc. cbn [snd] in Hc.
    pose proof (Inv_startWork _ _ _ _ _ _ _ Ew (y_inv _ _ Hy)) as Hi.
    destruct b; cbn [negb] in Hst; injection Hst as <- <- <-.
    + destruct Hi as (Hi & _). apply (Sys_calm _ _ _ _ _ _ Hy); [done|eapply Inv_eq; [|exact Hi]; tally|no_peer|no_peer].
    + destruct Hi as [-> _]. same_state Hy.
  - destruct e as [| | |r| | | | | | |]; try done. pose proof (Sys_Add DialAttempts 1 _ _ _ eq_refl Hy) as Hy1.
    destruct r as [[remote stream]|err]; injection Hst as <- <- <-; cbn [app].
    + apply (Sys_new _ _ _ _ _ Hy1); try done. by left.
    + apply Sys_Add; [done|]. by apply (Sys_goto _ _ _ _ Hy1).
  - unfold trackConnection in Hst. destruct (is_open s) eqn:Eo; cbn [negb] in Hst; injection Hst as <- <- <-.
    + unfold is_open in Eo. bool_to_prop. apply (Sys_calm _ _ _ _ _ _ Hy); [by apply calm_track| |no_peer|no_peer].
      * apply (Inv_track tp), (y_inv _ _ Hy).
      * pose proof (y_stage _ _ Hy) as Hg. by apply Forall_cons in Hg as [Hg _].
    + cbn [app]. apply Sys_Add, Sys_Close; [done|]. apply (Sys_calm _ _ _ _ _ [] Hy); [done| |no_peer|no_peer].
      exact (Inv_forget _ _ _ _ _ _ (y_inv _ _ Hy)).
  - destruct e as [| | | |r| | | | | |]; try done. destruct (TLSClientConfig c).
    + destruct r; injection Hst as <- <- <-; cbn [app].
      * apply Sys_Add; [done|]. by apply (Sys_goto _ _ _ _ Hy).
      * apply Sys_Add, Sys_Add, Sys_Close; [done..|]. by apply (Sys_goto _ _ _ _ Hy).
    + injection Hst as <- <- <-. by apply (Sys_goto _ _ _ _ Hy).
  - destruct e as [| | | | |out| | | | |]; try done.
    destruct (authenticate _ _ _ _) as [r s1] eqn:Ea.
    apply (Sys_authenticate _ _ _ _ _ _ _ _ (DHandle tp) (DRemove tp (match r with Ok _ => Ok tt | Err err => Err err end)) auth_frame_outbound Hy eq_refl) in Ea as Hy1.
    + destruct r; injection Hst as <- <- <-; cbn [app]; [by apply Sys_Add|]. by apply Sys_Add, Sys_Add, Sys_Close.
    + by intros x (_ & _ & ?).
    + intros a a' Ha Hf. by eapply outbound_admits.
    + done.
    + by intros q [-> | ->].
  - destruct (handlePeer c tp s) as [r s1] eqn:Eh.
    apply (Sys_handle _ _ _ _ _ _ (DServe tp) Hy) in Eh; try done.
    + destruct r as [[err|]|]; injection Hst as <- <- <-; cbn [app]; [| |done].
      * apply Sys_Add, Sys_Close; [done|]. by apply (Sys_goto _ _ _ _ Eh).
      * by apply (Sys_goto _ _ _ _ Eh).
    + pose proof (y_stage _ _ Hy) as Hg. by apply Forall_cons in Hg as [Hg _].
  - injection Hst as <- <- <-. by apply (Sys_serve _ _ _ _ _ Hy).
  - injection Hst as <- <- <-. by apply (Sys_remove _ _ _ _ _ Hy).
  - injection Hst as <- <- <-. by apply (Sys_finish _ _ _ _ Hy).
Qed.

Lemma alter_const f tp x s : s_heap s !! tp = Some x → alter_peer f tp s = with_metrics (alter_peer (λ _, f x) tp s) (s_metrics s).
Proof.
  intros Hx. unfold alter_peer, with_metrics, with_heap. cbn. f_equal. apply list_eq. intros i.
  destruct (decide (i = tp)) as [-> |Hi]; [by rewrite !list_lookup_alter_eq, Hx|by rewrite !list_lookup_alter_ne].
Qed.

Lemma served_handled x h : served x h → h = tp_handled x → handled_ok x.
Proof. intros (r & Ha & Hr) ->. right. eauto. Qed.

Lemma step_serve_ok s p ps e s' p' new :
  Sys s (p :: ps) → step_serve c p e s = Some (s', p', new) → Sys s' (p' :: new ++ ps).
Proof.
  intros Hy Hst. destruct p; try done; cbn [step_serve] in Hst.
  - case_match; injection Hst as <- <- <-; by apply (Sys_goto _ _ _ _ Hy).
  - destruct (own_stage _ _ _ _ Hy eq_refl) as (x & Hx & Hsv & Hh). cbn [stage] in Hsv.
    destruct e; try done; [|by injection Hst as <- <- <-; apply (Sys_goto _ _ _ _ Hy)|].
    + destruct (FrameHandler c) eqn:Ef; [|done]. rewrite Hx in Hst. cbn [from_option] in Hst.
      destruct (Hsv eq_refl) as (r & Ha & Hr). destruct (ReadFrame _ _) as [[payload|err] rest] eqn:Er; injection Hst as <- <- <-; cbn [app].
      * apply Sys_Add; [done|]. rewrite (alter_const _ _ _ _ Hx).
        apply (Sys_own _ _ _ _ x _ _ _ Hy); try done. exists r. split; [done|]. by eapply reads_snoc.
      * rewrite (alter_const _ _ _ _ Hx). by apply (Sys_own _ _ _ _ x _ _ _ Hy).
    + destruct (FrameHandler c) eqn:Ef; [done|]. injection Hst as <- <- <-. cbn [app]. rewrite (alter_const _ _ _ _ Hx).
      apply (Sys_own _ _ _ _ x _ _ _ Hy); try done. cbn. congruence.
  - destruct e as [| | | | | | | |r| |]; try done. destruct (own_stage _ _ _ _ Hy eq_refl) as (x & Hx & Hsv & _).
    assert (∀ q, q = SLoop tp ∨ q = SUnregister tp → Sys (alter_peer (add_handled payload) tp s) (q :: ps)) as Hown.
    { intros q Hq. rewrite (alter_const _ _ _ _ Hx). cbn [stage] in Hsv.
      destruct Hq as [-> | ->]; apply (Sys_own _ _ _ _ x _ _ _ Hy); try done;
        first [exact (λ _, Hsv)|by apply (served_handled (add_handled payload x) _ Hsv)]. }
    destruct r; injection Hst as <- <- <-; cbn [app]; [by apply Hown; left|]. apply Sys_Add; [done|]. by apply Hown; right.
  - injection Hst as <- <- <-. apply (Sys_calm _ _ _ _ _ _ Hy); [apply calm_unregister| |no_peer|no_peer].
    + apply Inv_unregister, (y_inv _ _ Hy).
    + intros y [= <-]. destruct (own_stage _ _ _ _ Hy eq_refl) as (x & Hx & _). by exists x.
  - injection Hst as <- <- <-. by apply (Sys_remove _ _ _ _ _ Hy).
  - injection Hst as <- <- <-. by apply (Sys_finish _ _ _ _ Hy).
Qed.

(** *** Shutdown *)

Lemma tracked_owned (ps : list pc) (tp : nat) : tp ∈ omap tracked ps ∨ tp ∈ omap registered ps → tp ∈ omap owned ps.
Proof.
  rewrite !list_elem_of_omap. intros [(p & Hp & Ht)|(p & Hp & Ht)]; exists p; (split; [done|]); by destruct p.
Qed.
Lemma no_connections s ps : Sys s ps → s_workCount s = 0 → s_connections s = ∅ ∧ s_peers s = ∅.
Proof.
  intros Hy H0. destruct (y_inv _ _ Hy) as [Hw _ _ _ _ Hc _ Hp _ _ _]. rewrite Hw in H0. pose proof (no_owner ps H0) as Hn.
  pose proof (tracked_owned ps) as Hsub.
  split.
  - apply set_eq. intros tp. split; [|set_solver]. intros Htp%Hc. specialize (Hsub tp (or_introl Htp)). rewrite Hn in Hsub. set_solver.
  - apply map_eq. intros k. rewrite lookup_empty. apply eq_None_not_Some. intros [tp [Htp _]%Hp].
    specialize (Hsub tp (or_intror Htp)). rewrite Hn in Hsub. set_solver.
Qed.

Lemma split_complete s tp :
  tp ∈ s_connections s → tp ∈ (split_connections s).1 ++ (split_connections s).2.
Proof.
  intros Htp. unfold split_connections. cbn. rewrite elem_of_app, !list_elem_of_filter.
  rewrite elem_of_elements. destruct (registeredConnectionLocked tp s); auto.
Qed.

Lemma conns_force ps s : s_connections (force_close ps s) = s_connections s.
Proof.
  unfold force_close, closeConnections. transitivity (s_connections (foldl (λ s tp, peer_Close tp s) s ps)); [by case_match|].
  revert s. induction ps as [|tp ps IH]; intros s; cbn; [done|]. by rewrite IH.
Qed.
Lemma force_closes ps s tp : (tp < length (s_heap s))%nat → tp ∈ ps → conn_closed (force_close ps s) tp.
Proof.
  intros Hlt Hin. assert (conn_closed (closeConnections ps s) tp) as H.
  2:{ unfold force_close. by case_match. }
  unfold closeConnections. revert s Hlt. induction ps as [|x ps IH]; intros s Hlt; [by apply not_elem_of_nil in Hin|]. cbn.
  destruct (decide (tp ∈ ps)) as [Hps|Hps].
  - apply IH; [done|]. cbn. by rewrite length_alter.
  - apply elem_of_cons in Hin as [<- |]; [|done]. apply (later_closeConnections ps (peer_Close tp s)).
    destruct (lookup_lt_is_Some_2 _ _ Hlt) as [p Hp]. exists (set_closed p). cbn. by rewrite list_lookup_alter_eq, Hp.
Qed.
Lemma force_all_closed l s ps :
  Sys s ps → (∀ tp, tp ∈ s_connections s → tp ∈ l) → all_closed (force_close l s).
Proof.
  intros Hy Hl tp Htp. rewrite conns_force in Htp. apply force_closes; [|by apply Hl].
  apply (i_heap _ _ _ _ _ (y_inv _ _ Hy)). left. apply tracked_owned. left. by apply (i_conn _ _ _ _ _ (y_inv _ _ Hy)).
Qed.
Lemma Inv_force l s n O T R : Inv s n O T R → Inv (force_close l s) n O T R.
Proof.
  intros Hi. unfold force_close. enough (Inv (closeConnections l s) n O T R) by (case_match; [by apply Inv_Add|done]).
  unfold closeConnections. revert s Hi. induction l as [|tp l IH]; intros s Hi; [done|]. cbn. by apply IH, Inv_alter.
Qed.
Lemma Inv_begin d s n O T R : Inv s n O T R → Inv (beginShutdown d s).2 n O T R.
Proof.
  intros [? ? ? ? ? ? ? ? ? [] ?]. by split.
Qed.
Lemma Inv_complete k s n O T R : Inv s n O T R → Inv (completeShutdown k s) n O T R.
Proof.
  intros Hi. unfold completeShutdown. assert (Inv (if 0 <? k then Add ShutdownPeersDrained k s else s) n O T R) as [? ? ? ? ? ? ? ? ? [] ?].
  { case_match; [by apply Inv_Add|done]. }
  by split.
Qed.

Lemma step_shutdown_ok s p ps e s' p' new :
  Sys s (p :: ps) → step_shutdown p e s = Some (s', p', new) → Sys s' (p' :: new ++ ps).
Proof.
  intros Hy Hst. pose proof (y_shut _ _ Hy) as Hs. apply Forall_cons in Hs as [Hs _].
  destruct p; try done; cbn [step_shutdown shut_ok] in Hst, Hs.
  - case_match; injection Hst as <- <- <-; by apply (Sys_goto _ _ _ _ Hy).
  - injection Hst as <- <- <-. by apply (Sys_goto _ _ _ _ Hy).
  - destruct (s_once s) as [| |d] eqn:Eo; try done; injection Hst as <- <- <-; [|by apply (Sys_goto _ _ _ _ Hy)].
    apply (Sys_step _ _ _ _ _ _ Hy); [apply Inv_once, (y_inv _ _ Hy)|apply later_once|done|apply Hy| |apply Hy|no_peer|no_peer].
    intros tp q _ Hq. by exists q.
  - injection Hst as <- <- <-. change (with_Listener _ None) with (beginShutdown drain s).2.
    apply (Sys_step _ _ _ _ _ _ Hy); [apply Inv_begin, (y_inv _ _ Hy)|apply later_begin| |done| |apply Hy|no_peer|no_peer].
    + exact (once_ok_later _ _ (later_begin drain s) eq_refl eq_refl (y_once _ _ Hy)).
    + intros tp q _ Hq. by exists q.
    + split; [done|]. intros tp Htp. by apply (split_complete (beginShutdown drain s).2).
  - destruct e; try done. injection Hst as <- <- <-. by apply (Sys_goto _ _ _ _ Hy).
  - destruct Hs as [Hs Hc]. destruct (sh_drain l) eqn:Ed; injection Hst as <- <- <-;
      (apply (Sys_move _ _ _ _ _ Hy); [apply calm_force|apply Inv_force, (y_inv _ _ Hy)|done..|]); cbn [shut_ok];
      rewrite (cm_state _ _ (calm_force _ _)); split_and!; try done.
    + by eapply force_all_closed.
    + congruence.
  - injection Hst as <- <- <-. apply (Sys_goto _ _ _ _ Hy); try done. cbn. naive_solver.
  - destruct Hs as (Hs & Hd & ->). destruct e; try done.
    + destruct (chan_closed (s_workDone s) s) eqn:Ech; [|done]. injection Hst as <- <- <-.
      assert (s_workCount s = 0) as H0.
      { unfold chan_closed in Ech. rewrite (i_chan _ _ _ _ _ (y_inv _ _ Hy)) in Ech. cbn in Ech. by bool_to_prop. }
      apply (Sys_goto _ _ _ _ Hy); try done. split_and!; try done. destruct (no_connections _ _ Hy H0) as [Hcs _].
      intros tp Htp. rewrite Hcs in Htp. set_solver.
    + injection Hst as <- <- <-. apply Sys_Add; [done|]. by apply (Sys_goto _ _ _ _ Hy).
  - injection Hst as <- <- <-. apply (Sys_goto _ _ _ _ Hy); try done. destruct Hs as [Hs Hd]. split_and!; try done.
    intros tp. apply split_complete.
  - destruct Hs as (Hs & Hd & Hc). injection Hst as <- <- <-.
    apply (Sys_move _ _ _ _ _ Hy); [apply calm_force|apply Inv_force, (y_inv _ _ Hy)|done..|]. cbn [shut_ok].
    rewrite (cm_state _ _ (calm_force _ _)). split_and!; try done. by eapply force_all_closed.
  - injection Hst as <- <- <-. by apply (Sys_goto _ _ _ _ Hy).
  - destruct Hs as (Hs & Hd & Hc). destruct e; try done; [destruct (chan_closed _ _); [|done]|]; injection Hst as <- <- <-;
      by apply (Sys_goto _ _ _ _ Hy).
  - destruct Hs as (Hs & Hc & Hw). injection Hst as <- <- <-. set (s1 := completeShutdown _ _).
    assert (later s (with_once s1 (OnceDone (sh_drain l)) err)) as Hl.
    { transitivity s1; [apply later_complete|apply later_once]. }
    assert (s_heap s1 = s_heap s ∧ s_state s1 ≠ transportStateOpen ∧ s_workCount s1 = s_workCount s ∧ s_Listener s1 = s_Listener s) as (Hh & Hst1 & Hw1 & Hln).
    { unfold s1, completeShutdown. by case_match. }
    apply (Sys_step _ _ _ _ _ _ Hy); [apply Inv_once, Inv_complete, (y_inv _ _ Hy)|done|..|no_peer|no_peer].
    + unfold once_ok. cbn. split_and!; [done|by eapply all_closed_later|].
      intros E1 E2. etransitivity; [exact Hw1|auto].
    + intros _. etransitivity; [exact Hln|by apply (y_listener _ _ Hy)].
    + intros tp q _ Hq. exists q. split; [|done]. by etransitivity; [exact (f_equal (lookup tp) Hh)|].
    + unfold heap_ok. change (s_heap (with_once s1 _ _)) with (s_heap s1). rewrite Hh. apply Hy.
Qed.

Lemma insert_perm {A} (l : list A) i x y : l !! i = Some x → <[i := y]> l ≡ₚ y :: delete i l.
Proof.
  revert i. induction l as [|z l IH]; intros [|i]; cbn; intros Hi; try done. rewrite (IH i Hi). apply perm_swap.
Qed.

Lemma step_pc_ok s p ps e s' p' new :
  Sys s (p :: ps) → step_pc c p e s = Some (s', p', new) → Sys s' (p' :: new ++ ps).
Proof.
  destruct p; cbn [step_pc]; try done;
    eauto using step_listen_ok, step_accept_ok, step_inbound_ok, step_dial_ok, step_serve_ok, step_shutdown_ok.
Qed.

Lemma sstep_ok y y' : sstep c y y' → Sys y.1 y.2 → Sys y'.1 y'.2.
Proof.
  intros [s ps p Hcall|s ps i p e s' p' new Hi Hst] Hy; cbn in *.
  - assert (tokens p = 0 ∧ owned p = None ∧ tracked p = None ∧ registered p = None ∧ ∀ s, shut_ok s p) as (H1 & H2 & H3 & H4 & H5).
    { by destruct p. }
    apply (Sys_perm _ (p :: ps)); [by rewrite Permutation_app_comm|]. destruct Hy as [Hi ? ? ? ? ?].
    split; try done; [|by apply Forall_cons|].
    + cbn [omap list_omap]. rewrite H2, H3, H4. eapply Inv_eq; [|exact Hi]. rewrite work_cons. lia.
    + apply Forall_cons. split; [|done]. intros tp Htp. congruence.
  - apply (Sys_perm _ (p' :: new ++ delete i ps)).
    { rewrite (insert_perm _ _ _ _ Hi). cbn. by rewrite (Permutation_app_comm new). }
    eapply step_pc_ok; [|exact Hst]. eapply Sys_perm; [|exact Hy]. by apply delete_Permutation.
Qed.

Lemma Sys_init : Sys NewTCPTransport [].
Proof.
  split; try done; try apply Forall_nil_2. split; try done; try apply NoDup_nil_2.
  - intros tp [H|H]; by apply not_elem_of_nil in H.
  - intros k tp. cbn. rewrite lookup_empty. split; [done|]. intros [H _]. by apply not_elem_of_nil in H.
  - intros Hm. cbn. rewrite map_size_empty. lia.
Qed.

Lemma reachable_Sys s ps : reachable c (s, ps) → Sys s ps.
Proof.
  intros Hr. change (Sys (s, ps).1 (s, ps).2). revert Hr. generalize (s, ps). unfold reachable.
  refine (rtc_ind_r _ _ _ _); [exact Sys_init|]. intros y z _ Hst Hy. by eapply sstep_ok.
Qed.

(** *** After a drain *)

Definition idle (y : system) : Prop :=
  Sys y.1 y.2 ∧ s_state y.1 ≠ transportStateOpen ∧ s_workCount y.1 = 0.

Lemma is_open_false s : s_state s ≠ transportStateOpen → is_open s = false.
Proof. intros Hs. unfold is_open. by rewrite bool_decide_eq_false_2. Qed.

Lemma idle_later s s' : later s s' → s_state s ≠ transportStateOpen → s_workCount s = 0 →
  s_state s' ≠ transportStateOpen ∧ s_workCount s' = 0.
Proof. intros [L1 L2 _ _] Hs H0. split; [auto|]. by apply L2. Qed.

(** Without work only calls move, and none of them starts any. *)
Lemma idle_step y y' : sstep c y y' → idle y → idle y'.
Proof.
  intros Hst (Hy & Hs & H0). pose proof (sstep_ok _ _ Hst Hy) as Hy'. split; [done|].
  destruct Hst as [s ps p Hcall|s ps i p e s' p' new Hi Hst]; [done|]. cbn in *. clear Hy'.
  assert (tokens p = 0) as Htok.
  { apply (work_zero ps); [by rewrite <- (i_work _ _ _ _ _ (y_inv _ _ Hy))|by eapply list_elem_of_lookup_2]. }
  pose proof (is_open_false s Hs) as Eo.
  destruct p; try done; cbn in Hst; unfold beginWork, startWorkLocked in Hst; cbn in Hst; rewrite ?Eo in Hst; cbn in Hst;
    repeat case_match; try done; injection Hst as <- <- <-; try done;
    (eapply idle_later; [|exact Hs|exact H0]);
    first [apply later_once | apply later_begin | apply later_force | apply later_Add
          | etransitivity; [apply later_complete|apply later_once] | by split].
Qed.

(** C23: accounting.  In every state that any interleaving of calls, goroutines
    and network events can reach: no channel was closed twice; the work count is
    the work that goroutines still have to finish, and the channel that [Drain]
    waits for is closed exactly when there is none; every registered peer is
    found under its own address and has a goroutine that will unregister it;
    the peer limit holds; and the gauges report the real numbers. *)
Theorem transport_accounting s ps :
  reachable c (s, ps) →
  s_panic s = false ∧ s_workCount s = work ps ∧ (chan_closed (s_workDone s) s = true ↔ s_workCount s = 0) ∧
  (∀ k tp, s_peers s !! k = Some tp ↔ tp ∈ omap registered ps ∧ remote_of tp s = k) ∧
  (∀ tp, tp ∈ s_connections s → tp ∈ omap tracked ps) ∧
  (0 < MaxPeers c → Z.of_nat (size (s_peers s)) <= MaxPeers c) ∧ gauges_ok s.
Proof.
  intros Hr%reachable_Sys. destruct (y_inv _ _ Hr) as [? ? Hch ? ? ? ? ? ? ? ?]. split_and!; try done.
  unfold chan_closed. rewrite Hch. cbn. apply Z.eqb_eq.
Qed.

(** C24: a finished shutdown.  Once the function of [Drain] or [Close] has
    returned, the transport is not open, has no listener, and every connection
    it still tracks has been closed.  When it was [Drain] and it returned no
    error, then no peer is registered, no connection is tracked and every
    goroutine has finished its work, in that state and in every later one. *)
Theorem shutdown_complete s ps drained :
  reachable c (s, ps) → s_once s = OnceDone drained →
  s_state s ≠ transportStateOpen ∧ s_Listener s = None ∧ all_closed s ∧
  (drained = true → s_closeErr s = None → ∀ s' ps', rtc (sstep c) (s, ps) (s', ps') →
    s_peers s' = ∅ ∧ s_connections s' = ∅ ∧ ∀ p, p ∈ ps' → tokens p = 0).
Proof.
  intros Hy%reachable_Sys Ho. pose proof (y_once _ _ Hy) as Hok. unfold once_ok in Hok. rewrite Ho in Hok.
  destruct Hok as (Hs & Hc & Hw). split_and!; try done; [by apply Hy|]. intros Hd He s' ps' Hrun.
  assert (idle (s', ps')) as (Hy' & _ & H0).
  { eapply (rtc_ind_l (λ y, idle y → idle (s', ps')) _); [done| |exact Hrun|by split_and!; auto].
    intros y z Hst _ IH Hidle. apply IH. by eapply idle_step. }
  cbn in Hy', H0. destruct (no_connections _ _ Hy' H0) as [-> ->]. split_and!; try done. intros p Hp. eapply work_zero; [|exact Hp].
  by rewrite <- (i_work _ _ _ _ _ (y_inv _ _ Hy')).
Qed.

(** admission.  A payload reaches the frame handler only from an admitted
    peer: with a token configured, the first frame of the peer's stream is an
    authentication message that carries the token and an allowed identity (for a
    dialled peer, an acknowledgement), the peer's recorded identity and
    capabilities are the ones of that message, and the handled payloads are
    the frames that follow it, in order and complete. *)
Theorem handler_sees_admitted s ps tp p :
  reachable c (s, ps) → s_heap s !! tp = Some p → tp_handled p ≠ [] →
  ∃ rest to, admitted p rest ∧ reads (maxFrame c) rest (tp_handled p) to.
Proof.
  intros Hy%reachable_Sys Hp Hne. pose proof (y_heap _ _ Hy) as Hh. unfold heap_ok in Hh. rewrite Forall_lookup in Hh.
  destruct (Hh tp p Hp) as [?|?]; done.
Qed.
End invariant.

(** *** Termination of a shutdown *)

(** A shutdown in progress, and the steps it has left at most. *)
Definition shutdown_rank (p : pc) : option nat :=
  match p with
  | RBegin _ => Some 9 | RListener _ => Some 8 | RPending _ => Some 7 | RWait _ => Some 6 | RWaiting _ _ => Some 5
  | RExpired _ => Some 4 | RForce _ _ => Some 3 | RJoin _ => Some 2 | RJoining _ _ => Some 1 | RComplete _ _ => Some 0
  | _ => None
  end%nat.

(** C25: a shutdown is never stuck and ends.  Whatever the rest of the program
    does or fails to do, a running [Drain] or [Close] can take its next step (at
    the latest when its deadline passes), and each step brings it closer to its
    return, which it reaches in at most ten. *)
Theorem shutdown_bounded c p n s :
  shutdown_rank p = Some n →
  (∃ e s' p', step_pc c p e s = Some (s', p', [])) ∧
  (∀ e s' p' new, step_pc c p e s = Some (s', p', new) →
    match shutdown_rank p' with Some n' => (n' < n)%nat | None => n = O ∧ ∃ r, p' = Returned r end).
Proof.
  intros Hn. split.
  - destruct p; try done; cbn [step_pc step_shutdown].
    + exists EvGo. by repeat eexists.
    + exists (EvListenerClosed None). by repeat eexists.
    + exists EvGo. destruct (sh_drain l); by repeat eexists.
    + exists EvGo. by repeat eexists.
    + exists EvDeadline. by repeat eexists.
    + exists EvGo. by repeat eexists.
    + exists EvGo. by repeat eexists.
    + exists EvGo. by repeat eexists.
    + exists EvDeadline. by repeat eexists.
    + exists EvGo. by repeat eexists.
  - intros e s' p' new Hst. destruct p; try done; cbn in Hn; injection Hn as <-; cbn in Hst;
      repeat case_match; try done; try (injection Hst as <- <- <-; cbn; try lia; eauto).
    all: simplify_eq; cbn in *; simplify_eq; try lia; eauto.
Qed.

(** *** Concrete runs *)

(** A schedule: who makes a call, who takes a step. *)
Inductive command := CCall (p : pc) | CRun (i : nat) (e : event).
Fixpoint exec (c : TransportConfig) (cs : list command) (y : system) : option system :=
  match cs with
  | [] => Some y
  | CCall p :: cs' => if is_call p then exec c cs' (y.1, y.2 ++ [p]) else None
  | CRun i e :: cs' =>
      match y.2 !! i with
      | None => None
      | Some p => match step_pc c p e y.1 with
                  | None => None
                  | Some (s', p', new) => exec c cs' (s', <[i := p']> y.2 ++ new)
                  end
      end
  end.
Definition is_some {A} (o : option A) : bool := match o with Some _ => true | None => false end.
Lemma exec_rtc c cs y : is_some (exec c cs y) = true → rtc (sstep c) y (default y (exec c cs y)).
Proof.
  destruct (exec c cs y) as [z|] eqn:E; [|done]. intros _. cbn. revert y E.
  induction cs as [|[p|i e] cs IH]; intros [s ps]; cbn [exec fst snd].
  - by intros [= <-].
  - destruct (is_call p) eqn:Ec; [|done]. intros Hz. eapply rtc_l; [by apply (sstep_call c s ps p)|by apply IH].
  - destruct (ps !! i) as [p|] eqn:Ei; [|done]. destruct (step_pc c p e s) as [[[s' p'] new]|] eqn:Es; [|done].
    intros Hz. eapply rtc_l; [by apply (sstep_run c s ps i p e s' p' new)|by apply IH].
Qed.

#[local] Abbreviation ex_cfg := (mkTransportConfig (lit "0:1") true 1 0 0 (lit "secret") (lit "node-b") [lit "node-a"] [CapabilityLifecycleV1] false false).
#[local] Abbreviation ex_hello := (frame (match encodePeerAuth (lit "secret") (lit "node-a") [] with Ok p => p | Err _ => [] end)).
#[local] Abbreviation ex_serve :=
  [CCall LStart; CRun 0 EvGo; CRun 0 EvGo; CRun 0 (EvListen (Ok (lit "0:1")) false); CRun 0 EvGo; CRun 0 EvGo;
   CRun 1 EvGo; CRun 1 (EvConn (Ok (lit "1:9", ex_hello ++ frame (lit "ping")))); CRun 1 EvGo; CRun 1 EvGo;
   CRun 2 (EvTLS (Ok tt)); CRun 2 (EvAuth []); CRun 2 EvGo; CRun 2 EvGo;
   CRun 3 EvGo; CRun 3 EvGo; CRun 3 (EvHandler (Ok tt))].
#[local] Abbreviation ex_drain :=
  (ex_serve ++ [CRun 2 EvGo; CCall (RDrain true true); CRun 4 EvGo; CRun 4 EvGo; CRun 4 EvGo; CRun 4 (EvListenerClosed None);
   CRun 4 EvGo; CRun 4 EvGo; CRun 1 EvGo; CRun 1 EvGo; CRun 3 EvGo; CRun 3 EvGo; CRun 3 EvGo; CRun 3 EvGo;
   CRun 4 EvGo; CRun 4 EvGo]).
#[local] Abbreviation ex_run cs := (default (NewTCPTransport, []) (exec ex_cfg cs (NewTCPTransport, []))).

Lemma ex_reachable cs :
  is_some (exec ex_cfg cs (NewTCPTransport, [])) = true → reachable ex_cfg ((ex_run cs).1, (ex_run cs).2).
Proof. intros H. rewrite <- surjective_pairing. by apply exec_rtc. Qed.

Lemma transport_accounting_witness :
  size (s_peers (ex_run ex_serve).1) = 1%nat ∧ work (ex_run ex_serve).2 = 3 ∧ gauges_ok (ex_run ex_serve).1.
Proof.
  destruct (transport_accounting ex_cfg (ex_run ex_serve).1 (ex_run ex_serve).2) as (_ & _ & _ & _ & _ & _ & Hg).
  { apply ex_reachable. vm_compute. reflexivity. }
  split; [vm_compute; reflexivity|]. split; [vm_compute; reflexivity|exact Hg].
Defined.

Lemma shutdown_complete_witness :
  (ex_run ex_drain).2 !! 4%nat = Some (Returned (Ok tt)) ∧
  s_peers (ex_run ex_drain).1 = ∅ ∧ s_connections (ex_run ex_drain).1 = ∅.
Proof.
  destruct (shutdown_complete ex_cfg (ex_run ex_drain).1 (ex_run ex_drain).2 true) as (_ & _ & _ & Hd).
  { apply ex_reachable. vm_compute. reflexivity. }
  { vm_compute. reflexivity. }
  destruct (Hd eq_refl ltac:(vm_compute; reflexivity) (ex_run ex_drain).1 (ex_run ex_drain).2 (rtc_refl _ _)) as (Hp & Hc & _).
  split; [vm_compute; reflexivity|]. split; [exact Hp|exact Hc].
Defined.

Lemma handler_sees_admitted_witness :
  ∃ p rest to, s_heap (ex_run ex_serve).1 !! 0%nat = Some p ∧ tp_handled p = [lit "ping"] ∧
    tp_authIdentity p = lit "node-a" ∧ admitted ex_cfg p rest ∧ reads (maxFrame ex_cfg) rest [lit "ping"] to.
Proof.
  destruct (s_heap (ex_run ex_serve).1 !! 0%nat) as [p|] eqn:Ep.
  2:{ exfalso. revert Ep. vm_compute. discriminate. }
  assert (tp_handled p = [lit "ping"] ∧ tp_authIdentity p = lit "node-a") as [Eh Ei].
  { enough (from_option tp_handled [] (s_heap (ex_run ex_serve).1 !! 0%nat) = [lit "ping"] ∧
      from_option tp_authIdentity [] (s_heap (ex_run ex_serve).1 !! 0%nat) = lit "node-a") as H by (rewrite Ep in H; exact H).
    split; vm_compute; reflexivity. }
  destruct (handler_sees_admitted ex_cfg (ex_run ex_serve).1 (ex_run ex_serve).2 0 p) as (rest & to & Ha & Hr).
  { apply ex_reachable. vm_compute. reflexivity. }
  { exact Ep. }
  { rewrite Eh. discriminate. }
  exists p, rest, to. rewrite Eh in Hr. split; [reflexivity|]. split; [exact Eh|]. split; [exact Ei|]. split; [exact Ha|exact Hr].
Defined.

Lemma shutdown_bounded_witness :
  ∃ e s' p', step_pc ex_cfg (RWaiting (mkShut true None 1 [] [] None) 0) e (ex_run ex_serve).1 = Some (s', p', []).
Proof.
  exact (proj1 (shutdown_bounded ex_cfg (RWaiting (mkShut true None 1 [] [] None) 0) 5 (ex_run ex_serve).1 eq_refl)).
Defined.
